(* ===== verification/_CoqProject ===== *)
-Q . S2P
Prelude.v
Machine.v
CString.v
Double.v
Printf.v
Text.v
Encoding.v
Effects.v
Disk.v
SepLogic.v
Pure.v
Session.v
NodeChain.v
LinkedList.v
StackQueue.v
Bst.v
Sorting.v
HashTable.v
Bits.v
Enums.v
ErrorHandling.v
Generics.v
Variadic.v
EnumsUnions.v
Memory.v
Interleave.v
Races.v
BoundedQueue.v
Threads.v
LockFree.v
Atomics.v
Functions.v
Pointers.v
FunctionPointers.v
MultiFile.v
Variables.v
ControlFlow.v
ArraysStrings.v
Structs.v
Preprocessor.v
Regex.v
Processes.v
Sockets.v
ProcessControl.v
Signals.v
Semaphores.v
Terminal.v
IoMux.v
FileIO.v
Mmap.v
Dynamic.v
