(* ===== verification/Prelude.v ===== *)
(** * The C_Programming exercises, verified

    The repository is a course of 34 C programs, [src/exercises/01_hello_world] to
    [src/exercises/34_enums].  Each is a [main] that calls its sections, most with a data
    structure or an interface of the system of their own; they share no code, apart from
    the three files of 19 and the plugin of 31.  All of them are modelled here, from the
    C source, with every function, every path that reports an error, and [main].

    ** How the programs are modelled

    Every sequential function is a definition that can be run.  Names are those of the source; loops
    whose body is a page of code, and the blocks of a long function, have names of their
    own.  Machine integers are elements of Z, kept in their range by the conversions and
    checks of [Machine]; signed overflow is undefined behaviour, unsigned arithmetic wraps
    around.  A [double] is a value of the Standard Library's model of IEEE binary64.

    Four kinds of state occur, according to what a program has.

    - Programs with objects in memory are computations in the monad [M U] of [Machine]: a
      heap from addresses to objects of type [U], an allocator that may fail at any call,
      the output, and the ways to end: a value, [exit], undefined behaviour (access to
      memory that is not there, double free, overflow) or a used-up fuel.
    - Programs whose state is not a heap (files, mappings, the loader) use the same monad
      on a state of their own, [prog] of [Effects]; Signals, Terminal and IoMux have
      each a monad for theirs.
    - Threads are step relations on program counters and shared state ([Interleave]); a
      step is the code up to the next access to shared state.  Theorems about them hold
      of every interleaving.  Where a variable that is not atomic is shared, the steps are
      traced and an execution with a data race is undefined ([Races]).
    - Processes after [fork] are commands that follow each its part of a conversation
      ([Processes]).

    What the code calls and does not contain (the allocator, [qsort], [regexec],
    [strerror], the kernel, what other programs print) is a parameter; the hypotheses on it
    are the documented behaviour the code relies on, and each theorem that has one has a
    witness with a concrete function.

    ** The libraries

    - Prelude: strings, concatenation, tables.
    - Machine: integers of C, heap, allocator, output, loops and struct members.
    - CString: strings of C, numerals, [strtol]; Double: IEEE arithmetic and the printing
      of a [double]; Printf: an interpreter of formats.
    - Text: bytes, lines, [fgets], what a [printf] writes; Encoding: codecs that represent
      objects as bytes, with their round trips; Effects: the monad [prog]; Disk: files,
      streams of [stdio] and descriptors.
    - SepLogic: a linear separation logic for [M], an instance of Iris's BI interface, with
      a weakest precondition, its adequacy, and tactics; Pure: computations that only
      write; Session: a client of an API is any sequence of operations, and refines the
      same sequence on mathematical data once each operation does; NodeChain: the chain of
      [struct Node] that exercises 10, 16 and 29 declare.
    - Interleave: runs of threads, traces, and the main thread that creates, joins and
      reports; Races: happens-before and data races on traced steps, with the two general
      facts that a lock excludes them and that threads without one have them; Processes:
      channels, two processes, and the theorem that two processes that
      follow the parts of one conversation never block each other, end, and print what it
      says, in every interleaving and however a stream is cut.

    ** The exercises

    Data structures, on the heap: LinkedList (10_linked_lists), Bst
    (15_binary_search_tree), StackQueue (16_stack_and_queue), Sorting (17_sorting),
    HashTable (18_hash_table), Generics (21_generics), Memory (08_memory_management).

    Values and control: Variables (01_hello_world, 02_variables), ControlFlow
    (03_control_flow), Functions (04_functions), ArraysStrings (05_arrays_strings),
    Pointers (06_pointers), Structs (07_structs), FunctionPointers (11_function_pointers),
    EnumsUnions (12_enums_and_unions), Bits (13_bit_manipulation), Preprocessor
    (14_preprocessor), MultiFile (19_multi_file, its Modules Vec2 and Stats are [vec2.c]
    and [stats.c]), ErrorHandling (20_error_handling), Variadic (22_variadic), Enums
    (34_enums).

    Threads: Threads (24_threads) with BoundedQueue (its section 4), Atomics (29_atomics)
    with LockFree (its section 6), Semaphores (30_semaphores).  Atomics shares the
    racy increment and the result of a program with races with Threads; Semaphores uses
    what Threads prints with, and in its section 6 Processes.

    Processes and signals: Signals (23_signals), ProcessControl (25_processes), Sockets
    (26_sockets), IoMux (28_io_multiplexing), Terminal (33_terminal).

    Files and libraries: FileIO (09_file_io) and Mmap (27_mmap), both on Disk and Encoding;
    Dynamic (31_dynamic_loading: [dl_demo.c] and [plugin.c]); Regex (32_regex).

    In each file the definitions of one exercise come first, in the order of the source,
    then what the proofs need, then the theorems numbered C1, C2, ..., each with
    a witness where it has a hypothesis, which is the theorem at a concrete input.

    ** What is shown

    - The structures refine mathematical ones: any sequence of operations, with the
      allocator failing wherever it likes, gives the results and the output of lists (C1,
      C2), of a finite set (C3), of a finite map across rehashes (C5, C6), leaves no
      memory behind when they are freed, and is free of undefined behaviour.  The sorts
      sort (C4).
    - Machine integers and representations: the bit idioms, with exactly the shifts
      that are undefined (C7), enumerations, flags and the bytes of unions (C11), the framing of messages
      by a length byte (C24), status words of processes (C26), numerals in a signal
      handler and what each handler does at every signal (C28), CSV lines and binary records (C34, C35).
    - Errors: every path frees, closes and unlinks what it should, or the theorem says
      what stays behind (C9, C10, C12, C36, C38, C39, C40); the terminal gets its
      attributes back on every way out (C31).
    - State machines and loops: the life of a connection (C8), the scan for matches and
      when it leaves the text (C22), [select], [poll] and [epoll] against one reference
      and an echo server (C32, C33).
    - Threads: invariants of the bounded queue, of the mutex, of the pool and of the
      counters (C13, C16, C20, C29), absence of deadlock and of lost wakeups, with bounds on
      the runs (C14, C30), the data races of the unguarded counters and their absence under
      a lock (C15, C20), linearizability and lock freedom
      of the stack, and how reuse of nodes breaks it (C17, C18, C19).
    - Processes: each pair refines its conversation (C23, C25), the forked program of
      exercise 27 has one outcome (C37), and the program of 23 ends in every environment
      (C27).
    - Arithmetic of [double]: the statistics of exercise 19 (C21).

    Many [main]s have no numbered theorem but a lemma with their whole output, such as
    [Functions.main_correct], or are the last part of a property of their section.

    ** Bounds and fuel

    A recursion or loop that is not structural takes a bound.  In the programs running out
    of it is not a result ([NoFuel], [OutOfTurns] or undefined), so that a theorem that
    gives a result shows that the bound was enough.  Walks along pointers start with [heap_fuel],
    one more than the number of objects; the specifications prove that a list or tree has
    no more nodes than that.  Loops over a text or a file are bounded by its length plus
    one, counting loops by their number of iterations, the recursions of the sorts by the
    size of the array, the digits of a number by its number of bits; the 700 turns in which Double
    looks for the decimal exponent exceed the exponents a [double] has.  The loops of
    IoMux depend on the kernel: their bound is an argument, and the theorems say which
    bound is enough for which kernel, or that none is.  Threads and processes have no
    fuel: a theorem bounds the length of every run, where C allows any number of spurious
    wakeups and failures, or of turns of a loop that waits, but for these.

    ** What is not modelled

    - Macros that choose features of the headers, include guards, and the text of macros
      whose expansion is modelled; global variables are fields of the state they belong to.
    - Failures the code does not test are taken not to occur ([pthread_create], [pipe],
      [sigaction], [tcsetattr] and the like), except where the code then does
      something undefined that modelling shows.
    - Addresses, options and buffers of sockets; ids of threads and processes beyond being
      parameters; timing beyond the order of events, and clocks beyond their values.
    - Weak memory: atomics are sequentially consistent.  Each exercise uses them either
      for one variable or to guard another, where the weaker orders of the source give no
      further outcomes.
    - Sizes and layouts are those of an LP64 platform with a little-endian memory; the
      bit-fields of exercise 13 have the sizes GCC gives them. *)

From Stdlib Require Export String Ascii.
From stdpp Require Export base list gmap strings numbers option.
From stdpp Require Import countable.

#[global] Open Scope Z_scope.

Declare Scope c_scope.
Delimit Scope c_scope with c.

(** ** Strings

    [String.append] is the concatenation the output of a program is built
    with; its monoid laws are shared by every component that prints. *)

Lemma string_app_cons (x : ascii) (a b : string) : (String x a +:+ b = String x (a +:+ b))%string.
Proof. reflexivity. Qed.

Lemma string_app_nil_l (a : string) : ("" +:+ a = a)%string.
Proof. reflexivity. Qed.

Lemma string_app_assoc (a b c : string) : (a +:+ (b +:+ c) = (a +:+ b) +:+ c)%string.
Proof.
  induction a as [|x a IH]; [reflexivity|].
  rewrite !string_app_cons. by rewrite IH.
Qed.

Lemma string_app_nil_r (a : string) : (a +:+ "" = a)%string.
Proof. induction a as [|x a IH]; [reflexivity|]. by rewrite string_app_cons, IH. Qed.

Lemma string_app_length (a b : string) :
  String.length (a +:+ b) = (String.length a + String.length b)%nat.
Proof.
  induction a as [|x a IH]; [reflexivity|]. rewrite string_app_cons. simpl. by rewrite IH.
Qed.

(** Concatenation of a list of pieces, with and without a separator. *)
Definition concat_str (l : list string) : string := foldr String.append ""%string l.

Fixpoint join_str (sep : string) (l : list string) : string :=
  match l with
  | [] => ""
  | [x] => x
  | x :: l' => x +:+ sep +:+ join_str sep l'
  end%string.

Lemma concat_str_app l1 l2 : concat_str (l1 ++ l2) = (concat_str l1 +:+ concat_str l2)%string.
Proof.
  induction l1 as [|x l1 IH]; simpl; [done|]. by rewrite IH, string_app_assoc.
Qed.

(** ** Lists *)

(** Removing the first element that satisfies a test. *)
Fixpoint remove_first {A} (p : A → bool) (l : list A) : list A :=
  match l with
  | [] => []
  | x :: l' => if p x then l' else x :: remove_first p l'
  end.

Lemma remove_first_length_le {A} (p : A → bool) (l : list A) :
  (length (remove_first p l) ≤ length l)%nat.
Proof. induction l as [|x l IH]; simpl; [lia|]. destruct (p x); simpl; lia. Qed.

Lemma delete_past {A} (l : list A) i : (length l ≤ i)%nat → delete i l = l.
Proof.
  revert i. induction l as [|x l IH]; intros [|i] Hi; simpl in *; try done; [lia|].
  f_equal. apply IH. lia.
Qed.

(** ** Tactics *)

(** Case analysis on every boolean comparison of integers in sight. *)
Ltac zb :=
  repeat match goal with
  | H : context [Z.leb ?a ?b] |- _ => destruct (Z.leb_spec a b)
  | H : context [Z.ltb ?a ?b] |- _ => destruct (Z.ltb_spec a b)
  | H : context [Z.eqb ?a ?b] |- _ => destruct (Z.eqb_spec a b)
  | |- context [Z.leb ?a ?b] => destruct (Z.leb_spec a b)
  | |- context [Z.ltb ?a ?b] => destruct (Z.ltb_spec a b)
  | |- context [Z.eqb ?a ?b] => destruct (Z.eqb_spec a b)
  end.
