(* ===== verification/Machine.v ===== *)
(** * The abstract machine the C code runs on

    Machine integers, the heap of objects, the allocator, the output of a
    program and the ways it can end.  A C function of type [T] is modelled by a
    computation [M U T], where [U] is the type of the objects its file puts on
    the heap. *)

From S2P Require Import Prelude.

(** ** Integers

    [int] has 32 bits and [long] 64 bits, in two's complement.  Signed overflow
    is undefined behaviour in C: the checked operations below return it as an
    error of the machine.  Unsigned arithmetic wraps around. *)

Definition INT_MIN : Z := -2147483648.
Definition INT_MAX : Z := 2147483647.
Definition LONG_MIN : Z := -9223372036854775808.
Definition LONG_MAX : Z := 9223372036854775807.

Definition in_int (z : Z) : bool := (INT_MIN <=? z) && (z <=? INT_MAX).
Definition in_long (z : Z) : bool := (LONG_MIN <=? z) && (z <=? LONG_MAX).

Definition u8 (z : Z) : Z := z mod 2 ^ 8.
Definition u16 (z : Z) : Z := z mod 2 ^ 16.
Definition u32 (z : Z) : Z := z mod 2 ^ 32.
Definition u64 (z : Z) : Z := z mod 2 ^ 64.

(** Conversion of an out-of-range value to [int]: modulo 2^32 (the
    implementation-defined choice of GCC and Clang). *)
Definition to_int (z : Z) : Z := (z + 2 ^ 31) mod 2 ^ 32 - 2 ^ 31.

(** A C truth value. *)
Definition b2z (b : bool) : Z := if b then 1 else 0.

Lemma in_int_spec z : in_int z = true ↔ INT_MIN ≤ z ≤ INT_MAX.
Proof. unfold in_int. rewrite andb_true_iff, !Z.leb_le. done. Qed.

Lemma in_long_spec z : in_long z = true ↔ LONG_MIN ≤ z ≤ LONG_MAX.
Proof. unfold in_long. rewrite andb_true_iff, !Z.leb_le. done. Qed.

Lemma to_int_id z : INT_MIN ≤ z ≤ INT_MAX → to_int z = z.
Proof.
  unfold to_int, INT_MIN, INT_MAX. intros ?. rewrite Z.mod_small; lia.
Qed.

Lemma to_int_range z : INT_MIN ≤ to_int z ≤ INT_MAX.
Proof.
  unfold to_int, INT_MIN, INT_MAX.
  pose proof (Z.mod_pos_bound (z + 2 ^ 31) (2 ^ 32)). lia.
Qed.

(** ** Observable events: what is written to the two standard streams. *)

Inductive ev :=
  | Out (s : string)
  | Err (s : string).

Fixpoint stdout (o : list ev) : string :=
  match o with
  | [] => ""
  | Out s :: o' => s +:+ stdout o'
  | Err _ :: o' => stdout o'
  end.

Fixpoint stderr (o : list ev) : string :=
  match o with
  | [] => ""
  | Out _ :: o' => stderr o'
  | Err s :: o' => s +:+ stderr o'
  end.

Lemma stdout_app o1 o2 : stdout (o1 ++ o2) = (stdout o1 +:+ stdout o2)%string.
Proof.
  induction o1 as [|[s|s] o1 IH]; simpl; [done| |done]. by rewrite IH, string_app_assoc.
Qed.

Lemma stderr_app o1 o2 : stderr (o1 ++ o2) = (stderr o1 +:+ stderr o2)%string.
Proof.
  induction o1 as [|[s|s] o1 IH]; simpl; [done|done|]. by rewrite IH, string_app_assoc.
Qed.

(** ** The machine state *)

(** Addresses; the null pointer is [None]. *)
Abbreviation loc := positive (only parsing).
Abbreviation ptr := (option positive).
Definition NULL : ptr := None.

(** The behaviour of the allocator is a parameter of a run: [oracle n] says what
    the [n]-th call from now on does, [None] for a failure (the call returns
    NULL) and [Some l] to ask for address [l], taken if it is free. *)
Record world (U : Type) := World {
  heap : gmap positive U;
  oracle : nat → option positive;
}.
Arguments World {U} _ _.
Arguments heap {U} _.
Arguments oracle {U} _.

(** How a computation ends: it returns, it calls [exit], it runs into undefined
    behaviour, or the fuel of one of its loops is used up. *)
Inductive res (U A : Type) :=
  | Ret (a : A) (o : list ev) (w : world U)
  | Exit (code : Z) (o : list ev) (w : world U)
  | UB
  | NoFuel.
Arguments Ret {U A} _ _ _.
Arguments Exit {U A} _ _ _.
Arguments UB {U A}.
Arguments NoFuel {U A}.

Definition M (U A : Type) : Type := world U → res U A.

Section monad.
Context {U : Type}.

Definition ret {A} (a : A) : M U A := λ w, Ret a [] w.

Definition bind {A B} (m : M U A) (k : A → M U B) : M U B := λ w,
  match m w with
  | Ret a o w' =>
      match k a w' with
      | Ret b o' w'' => Ret b (o ++ o') w''
      | Exit c o' w'' => Exit c (o ++ o') w''
      | UB => UB
      | NoFuel => NoFuel
      end
  | Exit c o w' => Exit c o w'
  | UB => UB
  | NoFuel => NoFuel
  end.

Definition undefined {A} : M U A := λ _, UB.
Definition exit {A} (code : Z) : M U A := λ w, Exit code [] w.
Definition emit (e : ev) : M U unit := λ w, Ret tt [e] w.
Definition puts_out (s : string) : M U unit := emit (Out s).
Definition puts_err (s : string) : M U unit := emit (Err s).

(** Signed arithmetic on [int]: undefined on overflow. *)
Definition int_chk (z : Z) : M U Z := if in_int z then ret z else undefined.
Definition long_chk (z : Z) : M U Z := if in_long z then ret z else undefined.

(** *** Memory *)

(** An address that is not in use. *)
Definition fresh_loc (h : gmap positive U) : positive :=
  Pos.succ (map_fold (λ l _ acc, Pos.max l acc) 1%positive h).

Definition pick (h : gmap positive U) (l : positive) : positive :=
  match h !! l with None => l | Some _ => fresh_loc h end.

(** [malloc]: the new object has the contents [o] (an uninitialised object for
    [malloc], a zero one for [calloc]), or NULL is returned. *)
Definition malloc (o : U) : M U ptr := λ w,
  match oracle w 0%nat with
  | None => Ret None [] (World (heap w) (λ n, oracle w (S n)))
  | Some l0 =>
      let l := pick (heap w) l0 in
      Ret (Some l) [] (World (<[l := o]> (heap w)) (λ n, oracle w (S n)))
  end.

(** A local variable whose address is used: it gets an address, and [free]
    stands for the end of its scope. *)
Definition local (o : U) : M U ptr := λ w,
  let l := fresh_loc (heap w) in
  Ret (Some l) [] (World (<[l := o]> (heap w)) (oracle w)).

(** [free]: nothing for NULL, undefined for an address that is not in use. *)
Definition free (p : ptr) : M U unit := λ w,
  match p with
  | None => Ret tt [] w
  | Some l =>
      match heap w !! l with
      | Some _ => Ret tt [] (World (delete l (heap w)) (oracle w))
      | None => UB
      end
  end.

Definition load_obj (p : ptr) : M U U := λ w,
  match p with
  | None => UB
  | Some l => match heap w !! l with Some o => Ret o [] w | None => UB end
  end.

Definition store_obj (p : ptr) (o : U) : M U unit := λ w,
  match p with
  | None => UB
  | Some l =>
      match heap w !! l with
      | Some _ => Ret tt [] (World (<[l := o]> (heap w)) (oracle w))
      | None => UB
      end
  end.

(** The number of live objects: a bound for the loops that follow pointers. *)
Definition heap_fuel : M U nat := λ w, Ret (S (size (heap w))) [] w.

(** *** Loops

    [loop fuel body s] runs [body] from the loop state [s]; the body answers
    [inl s'] to go round again and [inr r] to leave the loop with [r]. *)
Fixpoint loop {S R} (fuel : nat) (body : S → M U (S + R)) (s : S) : M U R :=
  match fuel with
  | O => λ _, NoFuel
  | S fuel' =>
      bind (body s) (λ x, match x with
                          | inl s' => loop fuel' body s'
                          | inr r => ret r
                          end)
  end.

(** [for (i = lo; i < lo + n; i++) s = f(i, s)]. *)
Fixpoint for_n {S} (n : nat) (lo : Z) (f : Z → S → M U S) (s : S) : M U S :=
  match n with
  | O => ret s
  | S n' => bind (f lo s) (λ s', for_n n' (lo + 1) f s')
  end.

Definition for_range {S} (lo hi : Z) (f : Z → S → M U S) (s : S) : M U S :=
  for_n (Z.to_nat (hi - lo)) lo f s.

(** [for] over the elements of a list, for tables that are traversed. *)
Fixpoint for_list {X S} (l : list X) (f : X → S → M U S) (s : S) : M U S :=
  match l with
  | [] => ret s
  | x :: l' => bind (f x s) (λ s', for_list l' f s')
  end.
End monad.

#[export] Instance: Params (@bind) 3 := {}.

(** Objects of a struct type [T] among the objects [U] of a file. *)
Class Prism (U T : Type) := {
  to_obj : T → U;
  of_obj : U → option T;
  of_to_obj : ∀ t, of_obj (to_obj t) = Some t;
}.

Section typed.
Context {U T : Type} `{!Prism U T}.

(** Reading a struct; an object of another type, or uninitialised, is
    undefined behaviour. *)
Definition load (p : ptr) : M U T :=
  bind (load_obj p) (λ o, match of_obj o with Some t => ret t | None => undefined end).

Definition store (p : ptr) (t : T) : M U unit := store_obj p (to_obj t).

(** [p->field = e]: reads the struct, writes it back with the field set. *)
Definition update (p : ptr) (f : T → T) : M U unit :=
  bind (load p) (λ t, store p (f t)).
End typed.

Notation "x <- m ;; k" := (bind m (λ x, k))
  (at level 100, m at next level, right associativity) : c_scope.
Notation "'let*' pat ':=' m 'in' k" := (bind m (λ x, match x with pat => k end))
  (at level 100, pat pattern, m at next level, right associativity) : c_scope.
Notation "m ;;; k" := (bind m (λ _, k))
  (at level 100, right associativity) : c_scope.
#[global] Open Scope c_scope.

(** ** Running a whole program *)

Definition empty_world {U} (orc : nat → option positive) : world U := World ∅ orc.

(** An allocator that never fails. *)
Definition lucky (orc : nat → option positive) : Prop := ∀ n, is_Some (orc n).

Definition some_allocator : nat → option positive := λ _, Some 1%positive.

Lemma some_allocator_lucky : lucky some_allocator.
Proof. intros n. by eexists. Qed.

Lemma fresh_loc_fresh {U} (h : gmap positive U) : h !! fresh_loc h = None.
Proof.
  unfold fresh_loc.
  assert (∀ l, is_Some (h !! l) →
    (l ≤ map_fold (λ l _ acc, Pos.max l acc) 1 h)%positive) as Hle.
  { apply (map_fold_weak_ind
      (λ r m, ∀ l, is_Some (m !! l) → (l ≤ r)%positive)).
    - intros l [x Hx]. by rewrite lookup_empty in Hx.
    - intros i x m r Hi IH l [y Hy].
      destruct (decide (i = l)) as [->|Hne]; [lia|].
      rewrite lookup_insert_ne in Hy by done.
      specialize (IH l (mk_is_Some _ _ Hy)). lia. }
  destruct (h !! Pos.succ _) as [x|] eqn:E; [|done].
  specialize (Hle _ (mk_is_Some _ _ E)). lia.
Qed.

Lemma pick_fresh {U} (h : gmap positive U) l : h !! pick h l = None.
Proof.
  unfold pick. destruct (h !! l) eqn:E; [apply fresh_loc_fresh|done].
Qed.

(** ** Monad laws, used to rearrange programs *)

Lemma bind_ret_l {U A B} (a : A) (k : A → M U B) w : bind (ret a) k w = k a w.
Proof. unfold bind, ret. by destruct (k a w). Qed.

Lemma bind_assoc {U A B C} (m : M U A) (k : A → M U B) (k' : B → M U C) w :
  bind (bind m k) k' w = bind m (λ a, bind (k a) k') w.
Proof.
  unfold bind. destruct (m w) as [a o w1|c o w1| |]; [|done..].
  destruct (k a w1) as [b o' w2|c o' w2| |]; [|done..].
  destruct (k' b w2); by rewrite <-?app_assoc.
Qed.
