(* ===== verification/CString.v ===== *)
(** * C strings and the string functions of the C library

    A C string is its bytes up to the terminating NUL: a [string] without
    the character zero. *)

From S2P Require Import Prelude Machine.

(** ** Characters *)

Definition code (c : ascii) : Z := Z.of_nat (nat_of_ascii c).
Definition chr (z : Z) : ascii := ascii_of_nat (Z.to_nat (z mod 256)).

Definition nl : ascii := "010"%char.
Definition dquote : ascii := "034"%char.
Definition backslash : ascii := "092"%char.

Definition is_digit (c : ascii) : bool := (48 <=? code c) && (code c <=? 57).
Definition digit_val (c : ascii) : Z := code c - 48.

Definition is_space (c : ascii) : bool :=
  (code c =? 32) || ((9 <=? code c) && (code c <=? 13)).

Definition hex_val (c : ascii) : Z :=
  if is_digit c then digit_val c
  else if (97 <=? code c) && (code c <=? 102) then code c - 87
  else if (65 <=? code c) && (code c <=? 70) then code c - 55
  else 0.

(** The escape sequences of a C string literal; a double quote, which a literal
    here cannot hold, is written [\q]. *)
Fixpoint esc (s : string) : string :=
  match s with
  | EmptyString => EmptyString
  | String c s' =>
      if Ascii.eqb c backslash then
        match s' with
        | EmptyString => EmptyString
        | String e s'' =>
            if Ascii.eqb e "n"%char then String nl (esc s'')
            else if Ascii.eqb e "t"%char then String "009"%char (esc s'')
            else if Ascii.eqb e "r"%char then String "013"%char (esc s'')
            else if Ascii.eqb e "q"%char then String dquote (esc s'')
            else if Ascii.eqb e "x"%char then
              match s'' with
              | String h1 (String h2 r) => String (chr (16 * hex_val h1 + hex_val h2)) (esc r)
              | _ => EmptyString
              end
            else String e (esc s'')
        end
      else String c (esc s')
  end.

(** ** [string.h] *)

Definition strlen (s : string) : Z := Z.of_nat (String.length s).

(** [strcmp]: negative, zero or positive; the value GCC's library gives is the
    difference of the first two bytes that differ, here its sign. *)
Fixpoint strcmp (a b : string) : Z :=
  match a, b with
  | EmptyString, EmptyString => 0
  | EmptyString, String _ _ => -1
  | String _ _, EmptyString => 1
  | String x a', String y b' =>
      if code x <? code y then -1 else if code y <? code x then 1 else strcmp a' b'
  end.

(** The first [n] bytes, and what follows them. *)
Fixpoint take_str (n : nat) (s : string) : string :=
  match n, s with
  | S n', String c s' => String c (take_str n' s')
  | _, _ => EmptyString
  end.

Fixpoint drop_str (n : nat) (s : string) : string :=
  match n, s with
  | S n', String _ s' => drop_str n' s'
  | _, _ => s
  end.

(** [strcspn(s, "\n")] and the like: the length of the longest prefix without
    the character [c]. *)
Fixpoint strcspn (c : ascii) (s : string) : nat :=
  match s with
  | EmptyString => 0
  | String x s' => if Ascii.eqb x c then 0 else S (strcspn c s')
  end%nat.

(** ** Decimal and hexadecimal numerals *)

Definition digit_chr (upper : bool) (d : Z) : ascii :=
  chr (if d <? 10 then 48 + d else if upper then 55 + d else 87 + d).

Fixpoint digits_aux (fuel : nat) (upper : bool) (base n : Z) (acc : string) : string :=
  match fuel with
  | O => acc
  | S f =>
      let acc' := String (digit_chr upper (n mod base)) acc in
      if n <? base then acc' else digits_aux f upper base (n / base) acc'
  end.

(** The numeral of [n >= 0]; a number has at most [log2 n + 1] digits. *)
Definition numeral (upper : bool) (base n : Z) : string :=
  digits_aux (S (Z.to_nat (Z.log2 n))) upper base n EmptyString.

Definition dec (z : Z) : string :=
  if z <? 0 then String "-"%char (numeral false 10 (- z)) else numeral false 10 z.

(** ** [strtol(s, &end, 10)]

    The value, what is left of the string at [end], and whether the value was out
    of the range of [long] (then [errno] is ERANGE and the value is clamped). *)
Fixpoint skip_space (s : string) : string :=
  match s with
  | String c s' => if is_space c then skip_space s' else s
  | EmptyString => EmptyString
  end.

Fixpoint scan_digits (s : string) (acc : Z) : Z * string :=
  match s with
  | String c s' => if is_digit c then scan_digits s' (10 * acc + digit_val c) else (acc, s)
  | EmptyString => (acc, "")
  end.

Definition starts_with_digit (s : string) : bool :=
  match s with String c _ => is_digit c | EmptyString => false end.

Definition strtol (s : string) : Z * string * bool :=
  let s1 := skip_space s in
  let '(neg, s2) :=
    match s1 with
    | String c s' =>
        if Ascii.eqb c "-"%char then (true, s') else if Ascii.eqb c "+"%char then (false, s') else (false, s1)
    | EmptyString => (false, s1)
    end in
  if starts_with_digit s2 then
    let '(n, rest) := scan_digits s2 0 in
    let v := if neg : bool then - n else n in
    if v <? LONG_MIN then (LONG_MIN, rest, true)
    else if LONG_MAX <? v then (LONG_MAX, rest, true)
    else (v, rest, false)
  else (0, s, false).

(** ** Facts *)

Lemma code_range c : 0 ≤ code c < 256.
Proof. unfold code. pose proof (nat_ascii_bounded c). lia. Qed.

Lemma code_chr z : 0 ≤ z < 256 → code (chr z) = z.
Proof.
  intros Hz. unfold code, chr. rewrite Z.mod_small by lia.
  rewrite nat_ascii_embedding by lia. lia.
Qed.

Lemma chr_code c : chr (code c) = c.
Proof.
  pose proof (code_range c). unfold chr. rewrite Z.mod_small by lia.
  unfold code. rewrite Nat2Z.id. apply ascii_nat_embedding.
Qed.

Lemma code_inj c d : code c = code d → c = d.
Proof. intros H. by rewrite <-(chr_code c), <-(chr_code d), H. Qed.

Lemma strcmp_eq a b : strcmp a b = 0 ↔ a = b.
Proof.
  revert b. induction a as [|x a IH]; intros [|y b]; simpl; try (split; congruence || lia).
  zb; try (split; [lia|]; intros [= -> ->]; lia).
  assert (x = y) as -> by (apply code_inj; lia).
  rewrite IH. split; congruence.
Qed.

Lemma strcmp_refl a : strcmp a a = 0.
Proof. by apply strcmp_eq. Qed.

Lemma strcmp_range a b : -1 ≤ strcmp a b ≤ 1.
Proof.
  revert b. induction a as [|x a IH]; intros [|y b]; simpl; try lia. zb; try lia. apply IH.
Qed.

Lemma strcmp_antisym a b : strcmp b a = - strcmp a b.
Proof.
  revert b. induction a as [|x a IH]; intros [|y b]; simpl; try lia. zb; try lia. apply IH.
Qed.

Lemma strcmp_trans a b c : strcmp a b ≤ 0 → strcmp b c ≤ 0 → strcmp a c ≤ 0.
Proof.
  revert b c. induction a as [|x a IH]; intros [|y b] [|z c]; simpl; try lia.
  zb; try lia. intros. by apply (IH b).
Qed.

Lemma strlen_app a b : strlen (a +:+ b) = strlen a + strlen b.
Proof. unfold strlen. rewrite string_app_length. lia. Qed.

Lemma strlen_nonneg a : 0 ≤ strlen a.
Proof. unfold strlen. lia. Qed.

(** The digits of a numeral read back as the number. *)
Lemma is_digit_digit_chr d : 0 ≤ d < 10 → is_digit (digit_chr false d) = true.
Proof.
  intros Hd. unfold digit_chr, is_digit. zb; try lia; rewrite code_chr in *; try lia; done.
Qed.

Lemma digit_val_digit_chr d : 0 ≤ d < 10 → digit_val (digit_chr false d) = d.
Proof.
  intros Hd. unfold digit_chr, digit_val.
  destruct (Z.ltb_spec d 10); [|lia]. rewrite code_chr; lia.
Qed.

Lemma scan_digits_numeral fuel n acc :
  0 ≤ n → n < 10 ^ Z.of_nat fuel → (0 < fuel)%nat →
  ∃ k, 0 ≤ k ∧ (∀ a, scan_digits (digits_aux fuel false 10 n acc) a = scan_digits acc (a * 10 ^ k + n))
       ∧ starts_with_digit (digits_aux fuel false 10 n acc) = true.
Proof.
  revert n acc. induction fuel as [|fuel IH]; intros n acc Hn Hlt Hpos; [lia|].
  pose proof (Z.mod_pos_bound n 10 ltac:(lia)).
  simpl. destruct (Z.ltb_spec n 10).
  - exists 1. split_and!; [lia| |by simpl; rewrite Z.mod_small by lia; apply is_digit_digit_chr; lia].
    intros a. simpl. rewrite is_digit_digit_chr by lia. rewrite digit_val_digit_chr by lia.
    f_equal. rewrite Z.mod_small by lia. lia.
  - assert (fuel ≠ 0%nat). { intros ->. simpl in Hlt. lia. }
    rewrite Nat2Z.inj_succ, Z.pow_succ_r in Hlt by lia.
    destruct (IH (n / 10) (String (digit_chr false (n mod 10)) acc)) as (k & Hk & Hs & Hd).
    + apply Z.div_pos; lia.
    + apply Z.div_lt_upper_bound; lia.
    + lia.
    + exists (k + 1). split_and!; [lia| |done].
      intros a. rewrite Hs. simpl. rewrite is_digit_digit_chr by lia.
      rewrite digit_val_digit_chr by lia. f_equal.
      rewrite Z.pow_add_r by lia. pose proof (Z.div_mod n 10). lia.
Qed.

Lemma digits_aux_app fuel u b n acc : (digits_aux fuel u b n acc = digits_aux fuel u b n "" +:+ acc)%string.
Proof.
  revert n acc. induction fuel as [|fuel IH]; intros n acc; [done|]. simpl.
  destruct (n <? b); [done|].
  rewrite IH. rewrite (IH _ (String _ EmptyString)). by rewrite <-string_app_assoc.
Qed.

Lemma scan_digits_stop rest a : starts_with_digit rest = false → scan_digits rest a = (a, rest).
Proof. destruct rest as [|c r]; [done|]. simpl. by intros ->. Qed.

Lemma numeral_fuel n : 0 ≤ n → n < 10 ^ Z.of_nat (S (Z.to_nat (Z.log2 n))).
Proof.
  intros Hn. rewrite Nat2Z.inj_succ, Z2Nat.id by apply Z.log2_nonneg.
  destruct (decide (n = 0)) as [->|]; [done|].
  destruct (Z.log2_spec n ltac:(lia)) as [_ H].
  eapply Z.lt_le_trans; [exact H|]. apply Z.pow_le_mono_l. lia.
Qed.

(** Reading back a decimal numeral followed by something that is not a digit. *)
Lemma scan_numeral n rest :
  0 ≤ n → starts_with_digit rest = false →
  scan_digits (numeral false 10 n +:+ rest)%string 0 = (n, rest) ∧
  starts_with_digit (numeral false 10 n +:+ rest)%string = true.
Proof.
  intros Hn Hrest. unfold numeral. rewrite <-digits_aux_app.
  destruct (scan_digits_numeral _ n rest Hn (numeral_fuel n Hn) ltac:(lia)) as (k & Hk & Hs & Hd).
  split; [|done]. rewrite Hs, scan_digits_stop by done. f_equal; lia.
Qed.

Lemma starts_digit_no_space s :
  starts_with_digit s = true →
  skip_space s = s ∧ ∃ c s', s = String c s' ∧ c ≠ "-"%char ∧ c ≠ "+"%char.
Proof.
  destruct s as [|c s']; [done|]. simpl. intros Hc.
  unfold is_digit in Hc. apply andb_true_iff in Hc as [H1 H2]. zb; try done.
  split.
  - assert (is_space c = false) as ->; [|done]. unfold is_space. zb; lia || done.
  - exists c, s'. split_and!; [done|intros ->; done|intros ->; done].
Qed.

(** [strtol] is a left inverse of decimal printing. *)
Lemma strtol_dec z rest :
  LONG_MIN ≤ z ≤ LONG_MAX → starts_with_digit rest = false →
  strtol (dec z +:+ rest)%string = (z, rest, false).
Proof.
  intros Hz Hrest. unfold dec. destruct (Z.ltb_spec z 0).
  - destruct (scan_numeral (- z) rest ltac:(lia) Hrest) as [Hs Hd].
    unfold strtol. rewrite string_app_cons.
    set (s := (numeral false 10 (- z) +:+ rest)%string) in *.
    change (skip_space (String "-"%char s)) with (String "-"%char s).
    cbv beta iota zeta delta [Ascii.eqb Bool.eqb]. rewrite Hd, Hs.
    rewrite Z.opp_involutive. zb; try lia. done.
  - destruct (scan_numeral z rest ltac:(lia) Hrest) as [Hs Hd].
    destruct (starts_digit_no_space _ Hd) as [Hsk (c & s' & Hcs & Hm & Hp)].
    unfold strtol. rewrite Hsk, Hcs.
    destruct (Ascii.eqb_spec c "-"%char); [done|].
    destruct (Ascii.eqb_spec c "+"%char); [done|].
    rewrite <-Hcs, Hd, Hs. zb; try lia. done.
Qed.
