(* ===== verification/Double.v ===== *)
(** * The type [double]: IEEE 754 binary64

    The arithmetic is that of the Standard Library's [SpecFloat], the executable
    specification of IEEE floating point, at precision 53 and exponent bound
    1024; every operation is correctly rounded, to nearest, ties to even. *)

From Stdlib Require Export SpecFloat.
From S2P Require Import Prelude Machine CString.

Abbreviation double := spec_float (only parsing).

Definition d_add : double → double → double := SFadd 53 1024.
Definition d_sub : double → double → double := SFsub 53 1024.
Definition d_mul : double → double → double := SFmul 53 1024.
Definition d_div : double → double → double := SFdiv 53 1024.
Definition d_sqrt : double → double := SFsqrt 53 1024.
Definition d_opp : double → double := SFopp.
Definition d_lt (x y : double) : bool := SFltb x y.
Definition d_gt (x y : double) : bool := SFltb y x.
Definition d_eq (x y : double) : bool := SFeqb x y.

Definition d_zero : double := S754_zero false.

(** Conversion from an integer type, rounded to nearest. *)
Definition d_of_Z (z : Z) : double := binary_normalize 53 1024 z 0 false.

(** The decimal literal [m / 10^k]: the division of two integers is rounded once,
    so that this is the double nearest to the literal. *)
Definition raw_pos (z : Z) : double :=
  match z with Z.pos p => S754_finite false p 0 | Z.neg p => S754_finite true p 0 | Z0 => d_zero end.

Definition lit (m : Z) (k : Z) : double := d_div (raw_pos m) (raw_pos (10 ^ k)).

(** [(float)x]: binary32, and back to double when it is used. *)
Definition to_float (x : double) : spec_float :=
  match x with
  | S754_finite s m e => binary_normalize 24 128 (if s then Z.neg m else Z.pos m) e s
  | _ => x
  end.

(** [(int)x]: towards zero; out of range and NaN are undefined. *)
Definition d_trunc (x : double) : option Z :=
  match x with
  | S754_zero _ => Some 0
  | S754_finite s m e =>
      let q := if 0 <=? e then Z.pos m * 2 ^ e else Z.pos m / 2 ^ (- e) in
      let z := if s then - q else q in
      if in_int z then Some z else None
  | _ => None
  end.

(** ** Decimal output

    [scaled x p] is the value of [x] times [10^p], rounded to nearest with ties
    to even, computed exactly. *)
Definition div_even (a b : Z) : Z :=
  let q := a / b in
  let r := a mod b in
  if 2 * r <? b then q else if b <? 2 * r then q + 1 else if Z.even q then q else q + 1.

Definition scaled (m : positive) (e p : Z) : Z :=
  let num := Z.pos m * (if 0 <=? e then 2 ^ e else 1) * (if 0 <=? p then 10 ^ p else 1) in
  let den := (if 0 <=? e then 1 else 2 ^ (- e)) * (if 0 <=? p then 1 else 10 ^ (- p)) in
  div_even num den.

Fixpoint zeros (n : nat) : string :=
  match n with O => EmptyString | S n' => String "0"%char (zeros n') end.

(** [n] with at least [w] digits. *)
Definition pad_zeros (w : nat) (s : string) : string := (zeros (w - String.length s) +:+ s)%string.

(** [%.pf] of a non-negative finite value. *)
Definition fixed_digits (m : positive) (e : Z) (p : nat) : string :=
  let n := scaled m e (Z.of_nat p) in
  let ip := n / 10 ^ Z.of_nat p in
  let fp := n mod 10 ^ Z.of_nat p in
  (dec ip +:+ (if (0 <? p)%nat then "." +:+ pad_zeros p (dec fp) else ""))%string.

Definition sign_str (s : bool) : string := if s then "-"%string else ""%string.

Definition fmt_f (p : nat) (x : double) : string :=
  match x with
  | S754_zero s =>
      (sign_str s +:+ "0" +:+ (if (0 <? p)%nat then "." +:+ zeros p else ""))%string
  | S754_infinity s => (sign_str s +:+ "inf")%string
  | S754_nan => "nan"%string
  | S754_finite s m e => (sign_str s +:+ fixed_digits m e p)%string
  end.

(** *** [%g], with precision 6

    The decimal exponent is found by comparing with powers of ten. *)
Definition ge_pow10 (m : positive) (e k : Z) : bool :=
  (if 0 <=? k then 10 ^ k else 1) * (if 0 <=? e then 1 else 2 ^ (- e)) <=?
  Z.pos m * (if 0 <=? e then 2 ^ e else 1) * (if 0 <=? k then 1 else 10 ^ (- k)).

Fixpoint exp10_down (fuel : nat) (m : positive) (e k : Z) : Z :=
  match fuel with
  | O => k
  | S f => if ge_pow10 m e k then k else exp10_down f m e (k - 1)
  end.

(** The largest [k] with [10^k <= m * 2^e]. *)
Definition exp10 (m : positive) (e : Z) : Z :=
  let hi := (Z.log2 (Z.pos m) + e + 1) * 31 / 100 + 2 in
  exp10_down 700 m e hi.

(** Trailing zeros of a numeral with a decimal point, and the point itself when
    nothing is left after it. *)
Fixpoint strip_zeros_rev (s : list ascii) : list ascii :=
  match s with
  | c :: s' => if Ascii.eqb c "0"%char then strip_zeros_rev s' else if Ascii.eqb c "."%char then s' else s
  | [] => []
  end.

Definition strip_zeros (s : string) : string :=
  string_of_list_ascii (rev (strip_zeros_rev (rev (list_ascii_of_string s)))).

Definition fmt_g_finite (m : positive) (e : Z) : string :=
  let k0 := exp10 m e in
  let n0 := scaled m e (5 - k0) in
  let '(k, n) := if 10 ^ 6 <=? n0 then (k0 + 1, n0 / 10) else (k0, n0) in
  if (-4 <=? k) && (k <? 6) then
    let body := fixed_digits m e (Z.to_nat (5 - k)) in
    if k <? 5 then strip_zeros body else body
  else
    let body := strip_zeros (dec (n / 10 ^ 5) +:+ "." +:+ pad_zeros 5 (dec (n mod 10 ^ 5)))%string in
    (body +:+ "e" +:+ (if (k <? 0)%Z then "-" else "+") +:+ pad_zeros 2 (dec (Z.abs k)))%string.

Definition fmt_g (x : double) : string :=
  match x with
  | S754_zero s => (sign_str s +:+ "0")%string
  | S754_infinity s => (sign_str s +:+ "inf")%string
  | S754_nan => "nan"%string
  | S754_finite s m e => (sign_str s +:+ fmt_g_finite m e)%string
  end.

Example fmt_f_pi : fmt_f 4 (lit 314159 5) = "3.1416"%string.
Proof. vm_compute. reflexivity. Qed.
Example fmt_f_half_even : fmt_f 0 (lit 25 1) = "2"%string.
Proof. vm_compute. reflexivity. Qed.
Example fmt_g_values :
  map fmt_g [lit 314 2; d_opp (lit 5 1); d_of_Z 40; d_of_Z 100; d_of_Z 100000; lit 1 5; d_of_Z 1234567; d_of_Z 0] =
  ["3.14"; "-0.5"; "40"; "100"; "100000"; "1e-05"; "1.23457e+06"; "0"]%string.
Proof. vm_compute. reflexivity. Qed.
(** ** Exact cases: integers and quotients by powers of two *)

Lemma digits2_pos_bound p : 2 ^ (Z.pos (digits2_pos p) - 1) ≤ Z.pos p < 2 ^ Z.pos (digits2_pos p).
Proof.
  induction p as [p IH|p IH|]; cbn [digits2_pos]; [| |done];
    rewrite Pos2Z.inj_succ; replace (Z.succ (Z.pos (digits2_pos p)) - 1) with (Z.succ (Z.pos (digits2_pos p) - 1)) by lia;
    rewrite !Z.pow_succ_r by lia; lia.
Qed.

Lemma digits2_iter_xO p k : digits2_pos (Pos.iter xO p k) = (digits2_pos p + k)%positive.
Proof.
  induction k as [|k IH] using Pos.peano_ind; simpl; [lia|].
  rewrite Pos.iter_succ. cbn [digits2_pos]. lia.
Qed.

Lemma iter_xO p k : Z.pos (Pos.iter xO p k) = Z.pos p * 2 ^ Z.pos k.
Proof.
  induction k as [|k IH] using Pos.peano_ind; [simpl; lia|].
  rewrite Pos.iter_succ, Pos2Z.inj_xO, IH, Pos2Z.inj_succ, Z.pow_succ_r by lia. lia.
Qed.

(** A mantissa of 53 bits is not rounded, nor is one of 54 bits that is even. *)
Lemma shr_fexp_exact m e :
  digits2_pos m = 53%positive → -1074 ≤ e →
  shr_fexp 53 1024 (Z.pos m) e loc_Exact = (Build_shr_record (Z.pos m) false false, e).
Proof.
  intros Hm He. unfold shr_fexp, Zdigits2, fexp, emin. rewrite Hm.
  by replace (Z.max _ _ - e) with 0 by lia.
Qed.

Lemma round_exact s m e :
  digits2_pos m = 53%positive → -1074 ≤ e ≤ 971 →
  binary_round_aux 53 1024 s (Z.pos m) e loc_Exact = S754_finite s m e.
Proof.
  intros Hm [He1 He2]. unfold binary_round_aux. rewrite shr_fexp_exact by done.
  cbn [shr_m loc_of_shr_record round_nearest_even]. rewrite shr_fexp_exact by done. cbn [shr_m].
  destruct (Z.leb_spec e (1024 - 53)); [done|lia].
Qed.

Lemma round_exact_even s m e :
  digits2_pos m = 53%positive → -1074 ≤ e ≤ 970 →
  binary_round_aux 53 1024 s (Z.pos m~0) e loc_Exact = S754_finite s m (e + 1).
Proof.
  intros Hm He. unfold binary_round_aux.
  assert (shr_fexp 53 1024 (Z.pos m~0) e loc_Exact = (Build_shr_record (Z.pos m) false false, e + 1)) as ->.
  { unfold shr_fexp, Zdigits2, fexp, emin. cbn [digits2_pos]. rewrite Hm.
    by replace (Z.max _ _ - e) with 1 by lia. }
  cbn [shr_m loc_of_shr_record round_nearest_even]. rewrite shr_fexp_exact by (done || lia). cbn [shr_m].
  destruct (Z.leb_spec (e + 1) (1024 - 53)); [done|lia].
Qed.

(** The double of an integer below 2^53: its bits at the top of the mantissa. *)
Lemma d_of_Z_exact n :
  0 < n < 2 ^ 52 →
  ∃ m d, d_of_Z n = S754_finite false m (d - 53) ∧ digits2_pos m = 53%positive ∧
    Z.pos m = n * 2 ^ (53 - d) ∧ 2 ^ (d - 1) ≤ n < 2 ^ d ∧ 0 < d < 53.
Proof.
  intros Hn. destruct n as [|n|n]; [lia| |lia].
  pose proof (digits2_pos_bound n) as Hb. set (dn := digits2_pos n) in *.
  assert (Z.pos dn < 53) as Hd.
  { destruct (Z.lt_ge_cases (Z.pos dn) 53) as [|Hge]; [done|].
    assert (2 ^ 52 ≤ 2 ^ (Z.pos dn - 1)) by (apply Z.pow_le_mono_r; lia). lia. }
  assert (Z.max (Z.pos dn + 0 - 53) (3 - 1024 - 53) - 0 = Z.neg (53 - dn)) as E by lia.
  exists (Pos.iter xO n (53 - dn)), (Z.pos dn).
  assert (digits2_pos (Pos.iter xO n (53 - dn)) = 53%positive) as Hm.
  { rewrite digits2_iter_xO. fold dn. lia. }
  split; [|split_and!; [done| |lia..]; rewrite iter_xO; do 2 f_equal; lia].
  unfold d_of_Z, binary_normalize, binary_round, shl_align, fexp, emin. fold dn. rewrite E.
  rewrite round_exact; [|done|lia]. f_equal; lia.
Qed.

(** The division by a power of two only changes the exponent. *)
Lemma d_div_pow2 n k :
  0 < n < 2 ^ 52 → 0 ≤ k < 52 →
  ∃ m d, d_div (d_of_Z n) (d_of_Z (2 ^ k)) = S754_finite false m (d - k - 53) ∧
    Z.pos m = n * 2 ^ (53 - d) ∧ 2 ^ (d - 1) ≤ n < 2 ^ d ∧ 0 < d < 53.
Proof.
  intros Hn Hk. destruct (d_of_Z_exact n Hn) as (m & d & -> & Hm & Emn & Hd & Hd53).
  destruct (d_of_Z_exact (2 ^ k)) as (m2 & d2 & -> & Hm2 & Em2 & Hd2 & Hd253).
  { split; [lia|]. apply Z.pow_lt_mono_r; lia. }
  assert (d2 = k + 1) as ->.
  { destruct (Z.lt_trichotomy d2 (k + 1)) as [Hlt|[|Hgt]]; [|done|].
    - assert (2 ^ d2 ≤ 2 ^ k) by (apply Z.pow_le_mono_r; lia). lia.
    - assert (2 ^ (k + 1) ≤ 2 ^ (d2 - 1)) by (apply Z.pow_le_mono_r; lia).
      rewrite Z.pow_add_r in *; lia. }
  rewrite <-Z.pow_add_r in Em2 by lia. replace (k + (53 - (k + 1))) with 52 in Em2 by lia.
  exists m, d. split_and!; try lia; try done.
  unfold d_div, SFdiv, SFdiv_core_binary, Zdigits2. rewrite Hm, Hm2, Em2.
  unfold fexp, emin.
  replace (d - 53 - (k + 1 - 53) - Z.min _ _) with 53 by lia.
  rewrite Z.shiftl_mul_pow2 by lia.
  replace (Z.pos m * 2 ^ 53) with (Z.pos m~0 * 2 ^ 52) by lia.
  pose proof (Z.div_mod (Z.pos m~0 * 2 ^ 52) (2 ^ 52)) as _.
  replace (Z.div_eucl (Z.pos m~0 * 2 ^ 52) (2 ^ 52)) with (Z.pos m~0, 0).
  2:{ rewrite (surjective_pairing (Z.div_eucl _ _)).
      change (fst _) with (Z.pos m~0 * 2 ^ 52 / 2 ^ 52). change (snd _) with ((Z.pos m~0 * 2 ^ 52) mod 2 ^ 52).
      by rewrite Z.div_mul, Z_mod_mult. }
  cbn [xorb]. change (new_location (2 ^ 52) 0) with loc_Exact.
  rewrite round_exact_even; [|done|lia]. f_equal; lia.
Qed.

(** [(double)n / c > 0.75] is the exact comparison when [c] is a power of two. *)
Lemma d_ratio_gt_three_quarters n k :
  0 < n < 2 ^ 52 → 0 ≤ k < 52 →
  d_gt (d_div (d_of_Z n) (d_of_Z (2 ^ k))) (lit 75 2) = (3 * 2 ^ k <? 4 * n).
Proof.
  intros Hn Hk. destruct (d_div_pow2 n k Hn Hk) as (m & d & -> & Em & Hd & Hd53).
  replace (lit 75 2) with (S754_finite false 6755399441055744 (-53)) by (by vm_compute).
  unfold d_gt, SFltb, SFcompare.
  destruct (Z.compare_spec (-53) (d - k - 53)) as [He|He|He].
  - assert (d = k) as -> by lia.
    change (Pos.compare_cont Eq 6755399441055744 m) with (6755399441055744 ?= m)%positive.
    change (6755399441055744 ?= m)%positive with (6755399441055744 ?= Z.pos m).
    rewrite Em. assert (6755399441055744 * 2 ^ k = 3 * 2 ^ k * 2 ^ (51 - k) * 2 ^ k) as E.
    { rewrite <-(Z.mul_assoc 3), <-Z.pow_add_r by lia. by replace (k + (51 - k)) with 51 by lia. }
    assert (2 ^ (53 - k) = 4 * 2 ^ (51 - k)) as E2.
    { replace (53 - k) with (2 + (51 - k)) by lia. by rewrite Z.pow_add_r by lia. }
    rewrite E2. assert (0 < 2 ^ (51 - k)) by lia. assert (0 < 2 ^ k) by lia.
    destruct (Z.compare_spec 6755399441055744 (n * (4 * 2 ^ (51 - k))));
      destruct (Z.ltb_spec (3 * 2 ^ k) (4 * n)); try done; nia.
  - assert (2 ^ k ≤ 2 ^ (d - 1)) by (apply Z.pow_le_mono_r; lia). destruct (Z.ltb_spec (3 * 2 ^ k) (4 * n)); [done|lia].
  - assert (2 ^ (d + 1) ≤ 2 ^ k) by (apply Z.pow_le_mono_r; lia). rewrite Z.pow_add_r in * by lia.
    destruct (Z.ltb_spec (3 * 2 ^ k) (4 * n)); [lia|done].
Qed.
