(* ===== verification/Printf.v ===== *)
(** * [printf] and its family

    An interpreter of C format strings: flags [-] and [0], width, precision
    (also [*]), length modifiers and the conversions the sources use.  A
    conversion whose argument is missing or has another type is undefined
    behaviour, here [None]. *)

From S2P Require Import Prelude Machine CString Double.

(** An argument after the default promotions: an integer type, a string, a
    double or a pointer printed with [%p]. *)
Inductive parg :=
  | AInt (z : Z)
  | AStr (s : string)
  | ADbl (d : double)
  | APtr (p : ptr).

Record fspec := FSpec {
  f_minus : bool;
  f_zero : bool;
  f_long : bool;
  f_width : option nat;
  f_prec : option nat;
}.

Definition fspec0 : fspec := FSpec false false false None None.

Definition blanks (n : nat) : string := string_of_list_ascii (replicate n " "%char).

(** Padding to the field width: with zeros after the sign, or with blanks. *)
Definition fpad (f : fspec) (sign body : string) : string :=
  match f_width f with
  | None => (sign +:+ body)%string
  | Some w =>
      let n := (w - String.length (sign +:+ body)%string)%nat in
      if f_minus f then (sign +:+ body +:+ blanks n)%string
      else if f_zero f then (sign +:+ zeros n +:+ body)%string
      else (blanks n +:+ sign +:+ body)%string
  end.

Definition fmt_signed (f : fspec) (z : Z) : string :=
  let z := if f_long f then z else to_int z in
  if z <? 0 then fpad f "-" (numeral false 10 (- z)) else fpad f "" (numeral false 10 z).

Definition fmt_unsigned (f : fspec) (upper : bool) (base : Z) (z : Z) : string :=
  let z := if f_long f then u64 z else u32 z in
  fpad f "" (numeral upper base z).

Definition fmt_str (f : fspec) (s : string) : string :=
  fpad f "" (match f_prec f with Some n => take_str n s | None => s end).

Definition fmt_dbl (f : fspec) (d : double) : string :=
  let s := fmt_f (default 6%nat (f_prec f)) d in
  match s with
  | String "-"%char s' => fpad f "-" s'
  | _ => fpad f "" s
  end.

(** One conversion. *)
Definition conv (f : fspec) (c : ascii) (a : parg) : option string :=
  match a with
  | AInt z =>
      if (Ascii.eqb c "d" || Ascii.eqb c "i")%char then Some (fmt_signed f z)
      else if Ascii.eqb c "u"%char then Some (fmt_unsigned f false 10 z)
      else if Ascii.eqb c "x"%char then Some (fmt_unsigned f false 16 z)
      else if Ascii.eqb c "X"%char then Some (fmt_unsigned f true 16 z)
      else if Ascii.eqb c "c"%char then Some (fpad f "" (String (chr z) ""))
      else None
  | AStr s => if Ascii.eqb c "s"%char then Some (fmt_str f s) else None
  | ADbl d =>
      if Ascii.eqb c "f"%char then Some (fmt_dbl f d)
      else if Ascii.eqb c "g"%char then Some (fpad f "" (fmt_g d))
      else None
  | APtr p =>
      if Ascii.eqb c "p"%char then
        Some (fpad f "" (match p with
                         | None => "(nil)"
                         | Some l => "0x" +:+ numeral false 16 (Z.pos l)
                         end)%string)
      else None
  end.

Definition add_digit (o : option nat) (c : ascii) : option nat :=
  Some (10 * default 0%nat o + Z.to_nat (digit_val c))%nat.

(** A format string is a sequence of literal characters and conversions; [wstar]
    and [pstar] say that the width or the precision is an argument of its own. *)
Inductive tok :=
  | TChr (c : ascii)
  | TConv (wstar pstar : bool) (f : fspec) (c : ascii).

(** Reading a format string; the state is the conversion being read, if any. *)
Fixpoint parse (st : option (bool * bool * fspec)) (fmt : string) : option (list tok) :=
  match fmt with
  | EmptyString => match st with None => Some [] | Some _ => None end
  | String c fmt' =>
      match st with
      | None =>
          if Ascii.eqb c "%"%char then parse (Some (false, false, fspec0)) fmt'
          else cons (TChr c) <$> parse None fmt'
      | Some (ws, ps, f) =>
          if Ascii.eqb c "%"%char then cons (TChr "%"%char) <$> parse None fmt'
          else if Ascii.eqb c "-"%char then
            parse (Some (ws, ps, FSpec true (f_zero f) (f_long f) (f_width f) (f_prec f))) fmt'
          else if Ascii.eqb c "."%char then
            parse (Some (ws, ps, FSpec (f_minus f) (f_zero f) (f_long f) (f_width f) (Some 0%nat))) fmt'
          else if Ascii.eqb c "*"%char then
            match f_prec f with
            | Some _ => parse (Some (ws, true, f)) fmt'
            | None => parse (Some (true, ps, f)) fmt'
            end
          else if (Ascii.eqb c "l" || Ascii.eqb c "z" || Ascii.eqb c "t")%char then
            parse (Some (ws, ps, FSpec (f_minus f) (f_zero f) true (f_width f) (f_prec f))) fmt'
          else if is_digit c then
            match f_prec f, f_width f with
            | Some _, _ =>
                parse (Some (ws, ps, FSpec (f_minus f) (f_zero f) (f_long f) (f_width f) (add_digit (f_prec f) c))) fmt'
            | None, None =>
                if Ascii.eqb c "0"%char
                then parse (Some (ws, ps, FSpec (f_minus f) true (f_long f) None None)) fmt'
                else parse (Some (ws, ps, FSpec (f_minus f) (f_zero f) (f_long f) (add_digit None c) None)) fmt'
            | None, Some _ =>
                parse (Some (ws, ps, FSpec (f_minus f) (f_zero f) (f_long f) (add_digit (f_width f) c) None)) fmt'
            end
          else cons (TConv ws ps f c) <$> parse None fmt'
      end
  end.

(** A width or a precision given by an argument: a negative width means left
    justification, a negative precision none. *)
Definition star_width (n : Z) (f : fspec) : fspec :=
  FSpec (f_minus f || (n <? 0)) (f_zero f) (f_long f) (Some (Z.to_nat (Z.abs n))) (f_prec f).
Definition star_prec (n : Z) (f : fspec) : fspec :=
  FSpec (f_minus f) (f_zero f) (f_long f) (f_width f) (if n <? 0 then None else Some (Z.to_nat n)).

Fixpoint render (l : list tok) (args : list parg) : option string :=
  match l with
  | [] => Some EmptyString
  | TChr c :: l' => match render l' args with Some s => Some (String c s) | None => None end
  | TConv ws ps f c :: l' =>
      match (if ws then match args with AInt n :: args' => Some (star_width n f, args') | _ => None end
             else Some (f, args)) with
      | Some (f, args) =>
          match (if ps then match args with AInt n :: args' => Some (star_prec n f, args') | _ => None end
                 else Some (f, args)) with
          | Some (f, a :: args') =>
              match conv f c a with
              | Some t => match render l' args' with Some s => Some (t +:+ s)%string | None => None end
              | None => None
              end
          | _ => None
          end
      | None => None
      end
  end.

(** [format "..." args]: the format as it is written in the source. *)
Definition format (fmt : string) (args : list parg) : option string :=
  match parse None (esc fmt) with Some l => render l args | None => None end.

Section io.
Context {U : Type}.

Definition printf (fmt : string) (args : list parg) : M U unit :=
  match format fmt args with Some s => puts_out s | None => undefined end.

(** [fprintf(stderr, ...)]. *)
Definition eprintf (fmt : string) (args : list parg) : M U unit :=
  match format fmt args with Some s => puts_err s | None => undefined end.

Definition puts (s : string) : M U unit := puts_out (esc s +:+ String nl "")%string.
Definition put_lines (l : list string) : M U unit := for_list l (λ s _, puts s) tt.

(** [fprintf(stderr, msg); exit(1)]. *)
Definition die {A} (msg : string) : M U A := eprintf msg [] ;;; exit 1.
End io.

(** What [%d] prints. *)
Definition int_str (z : Z) : string := dec (to_int z).

Lemma int_str_dec z : INT_MIN ≤ z ≤ INT_MAX → int_str z = dec z.
Proof. intros Hz. unfold int_str. by rewrite to_int_id. Qed.

Lemma fmt_signed_plain z : fmt_signed fspec0 z = int_str z.
Proof. unfold fmt_signed, int_str, dec. simpl. by destruct (to_int z <? 0). Qed.

Example format_examples :
  (format "x=%d|%3d|%-5d|%05d|%s|%-6s|%c|%.2f|0x%08X|%%\n"
     [AInt (-7); AInt 42; AInt 42; AInt (-42); AStr "ab"; AStr "ab"; AInt 65; ADbl (lit 125 2); AInt (-1)])
  = Some ("x=-7| 42|42   |-0042|ab|ab    |A|1.25|0xFFFFFFFF|%" +:+ String nl "")%string.
Proof. vm_compute. reflexivity. Qed.
