(* ===== verification/Text.v ===== *)
(** * Texts in buffers and files

    The bytes of a text and the text in a buffer, which ends at its first NUL; lines of
    a text as [fgets] takes them; what a [printf] writes. *)

From Stdlib Require Import ssreflect.
From S2P Require Import Prelude Machine CString Double Printf.
#[local] Open Scope Z_scope.

Abbreviation bytes := (list ascii) (only parsing).

(** What a [printf] of the program writes. *)
Definition line (fmt : string) (args : list parg) : string := default ""%string (format fmt args).

(** ** Bytes and texts *)

Definition bytes_of (s : string) : bytes := list_ascii_of_string s.

(** The text in a buffer: up to the first NUL. *)
Fixpoint text (bs : bytes) : string :=
  match bs with
  | [] => ""
  | c :: bs' => if Ascii.eqb c "000"%char then "" else String c (text bs')
  end.

(** Texts without NUL. *)
Definition no_nul (s : string) : Prop := "000"%char ∉ bytes_of s.

Lemma no_nul_check s : existsb (Ascii.eqb "000"%char) (bytes_of s) = false → no_nul s.
Proof.
  intros H Hin. apply (@eq_true_false_abs (existsb (Ascii.eqb "000"%char) (bytes_of s))); [|done].
  apply existsb_exists. exists "000"%char. split; [by apply list_elem_of_In|apply Ascii.eqb_refl].
Qed.

Lemma bytes_of_app a b : bytes_of (a +:+ b) = bytes_of a ++ bytes_of b.
Proof. unfold bytes_of. induction a as [|c a IH]; [done|]. simpl. by rewrite IH. Qed.

Lemma no_nul_app a b : no_nul a → no_nul b → no_nul (a +:+ b).
Proof. unfold no_nul. rewrite bytes_of_app. set_solver. Qed.

(** The text is the same whatever follows the NUL. *)
Lemma text_bytes_app s bs : no_nul s → text (bytes_of s ++ bs) = (s +:+ text bs)%string.
Proof.
  unfold no_nul, bytes_of. induction s as [|c s IH]; [done|]. simpl. intros Hc.
  destruct (Ascii.eqb_spec c "000"%char) as [->|]; [set_solver|]. rewrite IH //. set_solver.
Qed.

Lemma text_bytes s : no_nul s → text (bytes_of s) = s.
Proof. intros Hs. rewrite -(app_nil_r (bytes_of s)) text_bytes_app //. apply string_app_nil_r. Qed.

Lemma length_bytes_of s : Z.of_nat (length (bytes_of s)) = strlen s.
Proof. unfold bytes_of, strlen. induction s as [|c s IH]; simpl in *; lia. Qed.

Lemma bytes_of_ne m : 0 < strlen m → bytes_of m ≠ [].
Proof. intros Hm E. pose proof (length_bytes_of m) as H. rewrite E /= in H. lia. Qed.

Lemma text_take n s : no_nul s → text (take n (bytes_of s)) = take_str n s.
Proof.
  unfold no_nul, bytes_of. revert n. induction s as [|c s IH]; intros [|n]; try done. simpl. intros Hc.
  destruct (Ascii.eqb_spec c "000"%char) as [->|]; [set_solver|]. rewrite IH //. set_solver.
Qed.

(** ** Prefixes *)

Lemma take_str_fits s n : (String.length s ≤ n)%nat → take_str n s = s.
Proof. revert n. induction s as [|c s IH]; intros [|n] Hn; simpl in *; [done|done|lia|]. f_equal. apply IH. lia. Qed.

Lemma take_str_length s n : (String.length (take_str n s) ≤ n)%nat.
Proof. revert n. induction s as [|c s IH]; intros [|n]; simpl; [lia|lia|lia|]. specialize (IH n). lia. Qed.

Lemma take_str_app l s : take_str (String.length l) (l +:+ s) = l.
Proof. induction l as [|c l IH]; simpl; [by destruct s|by rewrite IH]. Qed.

Lemma strcspn_stop c l s : strcspn c l = String.length l → strcspn c (l +:+ String c s) = String.length l.
Proof.
  induction l as [|d l IH]; simpl; [by rewrite Ascii.eqb_refl|]. destruct (Ascii.eqb d c); [done|]. intros [= H]. by rewrite IH.
Qed.

(** ** Lines *)

(** [fgets(buf, n + 1, fp)]: the characters up to a newline, it included, but at most
    [n], and the rest. *)
Fixpoint fgets (n : nat) (bs : bytes) : bytes * bytes :=
  match n, bs with
  | S n, c :: bs' => if Ascii.eqb c nl then ([c], bs') else let '(l, r) := fgets n bs' in (c :: l, r)
  | _, _ => ([], bs)
  end.

(** [buf[strcspn(buf, "\n")] = '\0'] *)
Definition chomp (s : string) : string := take_str (strcspn nl s) s.

(** A text without newline and NUL, and the bytes of a text that consists of such lines. *)
Definition one_line (l : string) : Prop := strcspn nl l = String.length l ∧ no_nul l.
Definition line_bytes (l : string) : bytes := bytes_of l ++ [nl].
Definition lines_bytes (ls : list string) : bytes := concat (line_bytes <$> ls).

Lemma one_line_check l : (strcspn nl l =? String.length l)%nat && negb (existsb (Ascii.eqb "000"%char) (bytes_of l)) = true → one_line l.
Proof. intros [H1%Nat.eqb_eq H2%negb_true_iff]%andb_true_iff. split; [done|by apply no_nul_check]. Qed.

Lemma fgets_split n bs : (fgets n bs).1 ++ (fgets n bs).2 = bs.
Proof.
  revert bs. induction n as [|n IH]; intros [|c bs]; try done. simpl. destruct (Ascii.eqb c nl); [done|].
  specialize (IH bs). destruct (fgets n bs). simpl in *. by rewrite IH.
Qed.

Lemma fgets_progress n bs : bs ≠ [] → (length (fgets (S n) bs).2 < length bs)%nat.
Proof.
  destruct bs as [|c bs]; [done|]. intros _. cbn [fgets]. destruct (Ascii.eqb c nl); [simpl; lia|].
  pose proof (fgets_split n bs) as E. destruct (fgets n bs) as [l r]. simpl in *. rewrite -E length_app. lia.
Qed.

Lemma bytes_of_lines ls : bytes_of (concat_str ((λ l, l +:+ String nl "") <$> ls)%string) = lines_bytes ls.
Proof.
  induction ls as [|l ls IH]; [done|].
  change (bytes_of ((l +:+ String nl "") +:+ concat_str ((λ l, l +:+ String nl "") <$> ls)%string) = line_bytes l ++ lines_bytes ls).
  by rewrite !bytes_of_app IH.
Qed.

(** A line that fits the buffer with its newline is read as a whole. *)
Lemma fgets_line n l bs : one_line l → (String.length l < n)%nat → fgets n (line_bytes l ++ bs) = (line_bytes l, bs).
Proof.
  intros [Hl _]. revert n Hl. unfold line_bytes, bytes_of.
  induction l as [|c l IH]; intros n Hl Hn; (destruct n as [|n]; [simpl in *; lia|]); [done|].
  simpl in *. destruct (Ascii.eqb c nl); [done|]. injection Hl as Hl. by rewrite (IH n Hl ltac:(lia)).
Qed.

Lemma text_line l : one_line l → text (line_bytes l) = (l +:+ String nl "")%string.
Proof. intros [_ Hl]. unfold line_bytes. rewrite text_bytes_app //. Qed.

Lemma chomp_line l s : one_line l → chomp (l +:+ String nl s) = l.
Proof. intros [Hl _]. unfold chomp. by rewrite strcspn_stop // take_str_app. Qed.

Lemma chomp_text l : one_line l → chomp (text (line_bytes l)) = l.
Proof. intros Hl. by rewrite text_line // chomp_line. Qed.
