(* ===== verification/Encoding.v ===== *)
(** * Objects as bytes

    The representation of the objects of a type in memory and in binary files: a codec
    has the size of the type and inverse conversions.  Integers and floats are stored
    with the lowest byte first; a struct is the sequence of its members (those of the
    sources have no padding). *)

From Stdlib Require Import ssreflect.
From Stdlib Require Import SpecFloat.
From S2P Require Import Prelude Machine CString Double Printf Text.
#[local] Open Scope Z_scope.
#[local] Set SsrOldRewriteGoalsOrder.
#[local] Open Scope general_if_scope.

(** ** Integers *)

Fixpoint le (n : nat) (z : Z) : bytes :=
  match n with O => [] | S n => chr z :: le n (z / 256) end.

Fixpoint of_le (bs : bytes) : Z :=
  match bs with [] => 0 | c :: bs' => code c + 256 * of_le bs' end.

Lemma length_le n z : length (le n z) = n.
Proof. revert z. induction n as [|n IH]; intros z; simpl; [done|by rewrite IH]. Qed.

Lemma code_chr_mod z : code (chr z) = z mod 256.
Proof.
  pose proof (Z.mod_pos_bound z 256 ltac:(lia)) as Hz. rewrite -(code_chr (z mod 256) Hz).
  unfold chr. by rewrite Z.mod_mod.
Qed.

Lemma of_le_le n z : 0 ≤ z < 256 ^ Z.of_nat n → of_le (le n z) = z.
Proof.
  revert z. induction n as [|n IH]; intros z Hz; [simpl in *; lia|]. cbn [le of_le].
  rewrite Nat2Z.inj_succ Z.pow_succ_r in Hz; [|lia]. rewrite code_chr_mod IH.
  - pose proof (Z.div_mod z 256). lia.
  - split; [apply Z.div_pos; lia|]. apply Z.div_lt_upper_bound; lia.
Qed.

Lemma of_le_range bs : 0 ≤ of_le bs < 256 ^ Z.of_nat (length bs).
Proof.
  induction bs as [|c bs IH]; simpl of_le; [done|]. cbn [length]. rewrite Nat2Z.inj_succ Z.pow_succ_r; [|lia].
  pose proof (code_range c). lia.
Qed.

(** Every sequence of bytes is the representation of the number it stands for. *)
Lemma le_of_le bs : le (length bs) (of_le bs) = bs.
Proof.
  induction bs as [|c bs IH]; [done|]. cbn [length le of_le].
  pose proof (code_range c). f_equal.
  - apply code_inj. rewrite code_chr_mod. rewrite (Z.mul_comm 256) Z.mod_add // Z.mod_small //.
  - rewrite (Z.mul_comm 256) Z.div_add // Z.div_small //.
Qed.

(** ** Floats *)

(** The bits of a binary32 number; a NaN is stored without its sign. *)
Definition float_bits (x : spec_float) : Z :=
  let signed (s : bool) z := if s then 2 ^ 31 + z else z in
  match x with
  | S754_zero s => signed s 0
  | S754_infinity s => signed s (255 * 2 ^ 23)
  | S754_nan => 255 * 2 ^ 23 + 2 ^ 22
  | S754_finite s m e => signed s (if Z.pos m <? 2 ^ 23 then Z.pos m else (e + 150) * 2 ^ 23 + (Z.pos m - 2 ^ 23))
  end.

Definition bits_float (z : Z) : spec_float :=
  let s := 2 ^ 31 <=? z in
  let e := z / 2 ^ 23 mod 256 in
  let f := z mod 2 ^ 23 in
  if e =? 255 then (if f =? 0 then S754_infinity s else S754_nan)
  else match (if e =? 0 then f else f + 2 ^ 23) with
       | Z.pos m => S754_finite s m (Z.max e 1 - 150)
       | _ => S754_zero s
       end.

(** The numbers of the format. *)
Definition is_float (x : spec_float) : Prop :=
  match x with
  | S754_finite _ m e => 2 ^ 23 ≤ Z.pos m < 2 ^ 24 ∧ -149 ≤ e ≤ 104 ∨ Z.pos m < 2 ^ 23 ∧ e = -149
  | _ => True
  end.

(** Sign, exponent and fraction of a number put together from them. *)
Lemma bits_parts (s : bool) e f : 0 ≤ e < 256 → 0 ≤ f < 2 ^ 23 →
  let z := (if s then 2 ^ 31 else 0) + e * 2 ^ 23 + f in
  (2 ^ 31 <=? z) = s ∧ z / 2 ^ 23 mod 256 = e ∧ z mod 2 ^ 23 = f.
Proof.
  intros He Hf z. assert (z = (if s then 256 + e else e) * 2 ^ 23 + f) as -> by (destruct s; subst z; lia).
  split_and!.
  - destruct s; [apply Z.leb_le|apply Z.leb_gt]; lia.
  - rewrite Z.div_add_l // (Z.div_small f) // Z.add_0_r. destruct s; [|by rewrite Z.mod_small].
    rewrite -(Z.mod_add _ (-1)) // Z.mod_small; lia.
  - rewrite Z.add_comm Z.mod_add // Z.mod_small //.
Qed.

Lemma float_bits_range x : is_float x → 0 ≤ float_bits x < 256 ^ 4.
Proof. intros Hx. destruct x as [s|s| |s m e]; simpl in *; [by destruct s..|done|]. destruct (Z.ltb_spec (Z.pos m) (2 ^ 23)); destruct s; lia. Qed.

Lemma bits_float_bits x : is_float x → bits_float (float_bits x) = x.
Proof.
  intros Hx. destruct x as [s|s| |s m e]; [by destruct s..|done|]. cbn [is_float] in Hx. unfold float_bits.
  destruct (Z.ltb_spec (Z.pos m) (2 ^ 23)) as [Hm|Hm].
  - destruct (bits_parts s 0 (Z.pos m)) as (E1 & E2 & E3); [lia..|].
    replace (if s then _ else _) with ((if s then 2 ^ 31 else 0) + 0 * 2 ^ 23 + Z.pos m) by (destruct s; lia).
    unfold bits_float. rewrite E1 E2 E3. simpl. f_equal. lia.
  - destruct (bits_parts s (e + 150) (Z.pos m - 2 ^ 23)) as (E1 & E2 & E3); [lia..|].
    replace (if s then 2 ^ 31 + _ else _) with ((if s then 2 ^ 31 else 0) + (e + 150) * 2 ^ 23 + (Z.pos m - 2 ^ 23)) by (destruct s; lia).
    unfold bits_float. rewrite E1 E2 E3. destruct (Z.eqb_spec (e + 150) 255); [lia|]. destruct (Z.eqb_spec (e + 150) 0); [lia|].
    rewrite Z.sub_add. f_equal. lia.
Qed.

(** ** Codecs *)

Record codec (T : Type) := Codec {
  width : nat;
  to_bytes : T → bytes;
  of_bytes : bytes → T;
  ok : T → Prop;
  to_bytes_width x : ok x → length (to_bytes x) = width;
  of_to_bytes x : ok x → of_bytes (to_bytes x) = x }.
Arguments Codec {T}. Arguments width {T}. Arguments to_bytes {T}. Arguments of_bytes {T}. Arguments ok {T}.
Arguments to_bytes_width {T}. Arguments of_to_bytes {T}.

#[local] Obligation Tactic := idtac.

(** [uint32_t], [int] and [float]. *)
Program Definition u32_codec : codec Z :=
  {| width := 4; to_bytes := le 4; of_bytes := of_le; ok z := 0 ≤ z < 2 ^ 32 |}.
Next Obligation. intros z _. apply length_le. Qed.
Next Obligation. intros z Hz. by apply of_le_le. Qed.

Program Definition int_codec : codec Z :=
  {| width := 4; to_bytes z := le 4 (u32 z); of_bytes bs := to_int (of_le bs); ok z := INT_MIN ≤ z ≤ INT_MAX |}.
Next Obligation. intros z _. apply length_le. Qed.
Next Obligation.
  intros z Hz. unfold u32. pose proof (Z.mod_pos_bound z (2 ^ 32)) as Hm. rewrite of_le_le; [|simpl; lia].
  rewrite -{2}(to_int_id z Hz). unfold to_int. by rewrite Zplus_mod_idemp_l.
Qed.

Program Definition float_codec : codec spec_float :=
  {| width := 4; to_bytes x := le 4 (float_bits x); of_bytes bs := bits_float (of_le bs); ok := is_float |}.
Next Obligation. intros x _. apply length_le. Qed.
Next Obligation.
  intros x Hx. cbv beta. pose proof (float_bits_range x Hx). rewrite of_le_le //. by apply bits_float_bits.
Qed.

(** [char a[n]]: its bytes. *)
Program Definition chars_codec (n : nat) : codec bytes :=
  {| width := n; to_bytes bs := bs; of_bytes bs := bs; ok bs := length bs = n |}.
Solve Obligations with done.

(** One member after the other. *)
Program Definition pair_codec {A B} (c : codec A) (d : codec B) : codec (A * B) :=
  {| width := (width c + width d)%nat; to_bytes x := to_bytes c x.1 ++ to_bytes d x.2;
     of_bytes bs := (of_bytes c (take (width c) bs), of_bytes d (drop (width c) bs));
     ok x := ok c x.1 ∧ ok d x.2 |}.
Next Obligation. intros A B c d [a b] [Ha Hb]. simpl in *. by rewrite length_app !to_bytes_width. Qed.
Next Obligation.
  intros A B c d [a b] [Ha Hb]. simpl in *.
  rewrite take_app_length' ?drop_app_length' ?to_bytes_width // !of_to_bytes //.
Qed.

(** A struct and the tuple of its members. *)
Program Definition struct_codec {A B} (f : A → B) (g : B → A) (c : codec A) (H : ∀ b, f (g b) = b) : codec B :=
  {| width := width c; to_bytes b := to_bytes c (g b); of_bytes bs := f (of_bytes c bs); ok b := ok c (g b) |}.
Next Obligation. intros A B f g c H b Hb. by apply to_bytes_width. Qed.
Next Obligation. intros A B f g c H b Hb. simpl. by rewrite of_to_bytes. Qed.

(** ** Arrays of objects *)

Section arrays.
Context {T : Type} (c : codec T).

Definition list_to_bytes (l : list T) : bytes := concat (to_bytes c <$> l).

Fixpoint list_of_bytes (n : nat) (bs : bytes) : list T :=
  match n with O => [] | S n => of_bytes c (take (width c) bs) :: list_of_bytes n (drop (width c) bs) end.

Lemma length_list_to_bytes l : Forall (ok c) l → length (list_to_bytes l) = (length l * width c)%nat.
Proof.
  induction 1 as [|x l Hx _ IH]; [done|]. unfold list_to_bytes in *. simpl. rewrite length_app IH to_bytes_width //.
Qed.

Lemma of_to_bytes_list l bs : Forall (ok c) l → list_of_bytes (length l) (list_to_bytes l ++ bs) = l.
Proof.
  intros Hl. revert bs. induction Hl as [|x l Hx _ IH]; intros bs; [done|]. unfold list_to_bytes in *. cbn.
  rewrite -app_assoc take_app_length' ?drop_app_length' ?to_bytes_width // of_to_bytes // IH //.
Qed.

(** Only whole objects are read. *)
Lemma of_to_bytes_prefix l n k : Forall (ok c) l → (n ≤ length l)%nat → (n * width c ≤ k)%nat →
  list_of_bytes n (take k (list_to_bytes l)) = take n l.
Proof.
  intros Hl. revert n k. induction Hl as [|x l Hx Hl IH]; intros [|n] k Hn Hk; simpl in Hn; [done|lia|done|].
  assert (length (to_bytes c x) = width c) as Hw by by apply to_bytes_width.
  unfold list_to_bytes in *. cbn. rewrite take_app_ge; [|simpl in Hk; lia].
  rewrite take_app_length' // drop_app_length' // of_to_bytes // IH //; simpl in Hk; lia.
Qed.
End arrays.

(** ** Objects in a block of memory *)

Definition load_at {T} (c : codec T) (off : nat) (m : bytes) : T := of_bytes c (take (width c) (drop off m)).
Definition store_at {T} (c : codec T) (off : nat) (x : T) (m : bytes) : bytes :=
  take off m ++ to_bytes c x ++ drop (off + width c) m.

Section memory.
Context {T : Type} (c : codec T) (off : nat) (x : T) (m : bytes).
Hypothesis x_ok : ok c x.
Hypothesis inside : (off + width c ≤ length m)%nat.

Lemma length_store_at : length (store_at c off x m) = length m.
Proof. unfold store_at. rewrite !length_app length_take length_drop to_bytes_width //. lia. Qed.

Lemma load_store_same : load_at c off (store_at c off x m) = x.
Proof.
  unfold load_at, store_at. rewrite drop_app_length'; [|rewrite length_take; lia].
  rewrite take_app_length' ?to_bytes_width //. by apply of_to_bytes.
Qed.

(** Other members keep their values. *)
Lemma load_store_other {T'} (d : codec T') off' : (off' + width d ≤ off ∨ off + width c ≤ off')%nat →
  load_at d off' (store_at c off x m) = load_at d off' m.
Proof.
  intros Hd. unfold load_at. f_equal. apply list_eq. intros i. destruct (decide (i < width d)%nat) as [Hi|Hi].
  2: { rewrite !lookup_ge_None_2 //; rewrite length_take; lia. }
  rewrite !lookup_take_lt // !lookup_drop. unfold store_at. destruct Hd as [Hd|Hd].
  - rewrite lookup_app_l; [|rewrite length_take; lia]. rewrite lookup_take_lt //. lia.
  - assert (length (take off m) = off) as Ht by (rewrite length_take; lia).
    rewrite lookup_app_r; [|rewrite Ht; lia]. rewrite lookup_app_r; [|rewrite Ht to_bytes_width //; lia].
    rewrite lookup_drop Ht to_bytes_width //. f_equal. lia.
Qed.
End memory.

(** ** Character arrays *)

(** [char a[n] = "..."]; the bytes after the text are 0. *)
Definition chars (n : nat) (s : string) : bytes := take n (bytes_of s ++ replicate n "000"%char).

(** [strncpy(a, s, n)] *)
Definition strncpy (a : bytes) (s : string) (n : nat) : bytes := chars n s ++ drop n a.

(** The string in an array; without a NUL there is none. *)
Definition c_string (a : bytes) : option string :=
  if decide ("000"%char ∈ a) then Some (text a) else None.

Lemma length_chars n s : length (chars n s) = n.
Proof. unfold chars. rewrite length_take length_app length_replicate. lia. Qed.

Lemma length_strncpy a s n : (n ≤ length a)%nat → length (strncpy a s n) = length a.
Proof. intros Hn. unfold strncpy. rewrite length_app length_chars length_drop. lia. Qed.

Lemma chars_fits n s : (String.length s ≤ n)%nat → chars n s = bytes_of s ++ replicate (n - String.length s) "000"%char.
Proof.
  intros Hn. pose proof (length_bytes_of s) as Hl. unfold strlen in Hl. unfold chars.
  rewrite take_app_ge; [|lia]. rewrite take_replicate. f_equal. f_equal. lia.
Qed.

(** A text that leaves room for its NUL, whatever follows. *)
Lemma c_string_chars n s bs : no_nul s → (String.length s < n)%nat → c_string (chars n s ++ bs) = Some s.
Proof.
  intros Hs Hn. rewrite chars_fits; [|lia]. destruct (n - String.length s)%nat as [|k] eqn:E; [lia|].
  rewrite -app_assoc. cbn [replicate app]. unfold c_string. rewrite decide_True; [|set_solver].
  rewrite text_bytes_app //. cbn [text Ascii.eqb]. by rewrite string_app_nil_r.
Qed.

Lemma c_string_strncpy a s n : no_nul s → (String.length s < n)%nat → c_string (strncpy a s n) = Some s.
Proof. apply c_string_chars. Qed.
