(* ===== verification/Effects.v ===== *)
(** * Programs on a state of their own

    A monad for the components whose state is not the heap of [Machine] but, say, the
    files of a disk: a computation maps a state to its result, what it has printed and
    the new state, or exits, or is undefined. *)

From Stdlib Require Import ssreflect.
From S2P Require Import Prelude Machine CString Double Printf Text.
#[local] Open Scope Z_scope.
#[local] Set SsrOldRewriteGoalsOrder.

Inductive outcome (W A : Type) :=
  | Returns (a : A) (o : list ev) (w : W)
  | Exits (code : Z) (o : list ev) (w : W)
  | Undef
  | OutOfTurns.
Arguments Returns {W A} _ _ _. Arguments Exits {W A} _ _ _. Arguments Undef {W A}. Arguments OutOfTurns {W A}.

Definition prog (W A : Type) : Type := W → outcome W A.

(** What follows [o]. *)
Definition after {W A} (o : list ev) (r : outcome W A) : outcome W A :=
  match r with
  | Returns a o' w => Returns a (o ++ o') w
  | Exits c o' w => Exits c (o ++ o') w
  | Undef => Undef
  | OutOfTurns => OutOfTurns
  end.

#[export] Instance prog_ret {W} : MRet (prog W) := λ A a w, Returns a [] w.
#[export] Instance prog_bind {W} : MBind (prog W) := λ A B f m w,
  match m w with
  | Returns a o w' => after o (f a w')
  | Exits c o w' => Exits c o w'
  | Undef => Undef
  | OutOfTurns => OutOfTurns
  end.

Section commands.
Context {W : Type}.

Definition read : prog W W := λ w, Returns w [] w.
Definition write (w : W) : prog W unit := λ _, Returns tt [] w.
Definition undef {A} : prog W A := λ _, Undef.
Definition out_of_turns {A} : prog W A := λ _, OutOfTurns.
Definition exit_with {A} (code : Z) : prog W A := λ w, Exits code [] w.
Definition emits (e : ev) : prog W unit := λ w, Returns tt [e] w.

Definition print (fmt : string) (args : list parg) : prog W unit :=
  match format fmt args with Some s => emits (Out s) | None => undef end.
Definition complain (fmt : string) (args : list parg) : prog W unit :=
  match format fmt args with Some s => emits (Err s) | None => undef end.
Definition putline (s : string) : prog W unit := emits (Out (esc s +:+ String nl "")).
Definition perror (what e : string) : prog W unit := emits (Err (what +:+ ": " +:+ e +:+ String nl "")).

Fixpoint putlines (l : list string) : prog W unit :=
  match l with [] => mret tt | s :: l' => _ ← putline s; putlines l' end.

(** A loop over the elements of a list. *)
Fixpoint each {X} (l : list X) (f : X → prog W unit) : prog W unit :=
  match l with [] => mret tt | x :: l' => _ ← f x; each l' f end.

(** ** What a computation does *)

Definition gives {A} (m : prog W A) (w : W) (a : A) (o : list ev) (w' : W) : Prop := m w = Returns a o w'.
Definition quits {A} (m : prog W A) (w : W) (code : Z) (o : list ev) (w' : W) : Prop := m w = Exits code o w'.
Definition fails {A} (m : prog W A) (w : W) : Prop := m w = Undef.

Lemma gives_ret {A} (a : A) w : gives (mret a) w a [] w.
Proof. done. Qed.

Lemma gives_bind {A B} (m : prog W A) (k : A → prog W B) w a o w1 b o' w2 o'' :
  gives m w a o w1 → gives (k a) w1 b o' w2 → o'' = o ++ o' → gives (m ≫= k) w b o'' w2.
Proof. unfold gives. intros Hm Hk ->. rewrite /mbind /prog_bind Hm Hk. done. Qed.

(** A step that prints nothing. *)
Lemma gives_quiet {A B} (m : prog W A) (k : A → prog W B) w a w1 b o w2 :
  gives m w a [] w1 → gives (k a) w1 b o w2 → gives (m ≫= k) w b o w2.
Proof. intros Hm Hk. by eapply gives_bind. Qed.

Lemma quits_bind {A B} (m : prog W A) (k : A → prog W B) w a o w1 c o' w2 o'' :
  gives m w a o w1 → quits (k a) w1 c o' w2 → o'' = o ++ o' → quits (m ≫= k) w c o'' w2.
Proof. unfold gives, quits. intros Hm Hk ->. rewrite /mbind /prog_bind Hm Hk. done. Qed.

Lemma quits_quiet {A B} (m : prog W A) (k : A → prog W B) w a w1 c o w2 :
  gives m w a [] w1 → quits (k a) w1 c o w2 → quits (m ≫= k) w c o w2.
Proof. intros Hm Hk. by eapply quits_bind. Qed.

Lemma quits_first {A B} (m : prog W A) (k : A → prog W B) w c o w1 : quits m w c o w1 → quits (m ≫= k) w c o w1.
Proof. unfold quits. intros Hm. by rewrite /mbind /prog_bind Hm. Qed.

Lemma fails_bind {A B} (m : prog W A) (k : A → prog W B) w a o w1 : gives m w a o w1 → fails (k a) w1 → fails (m ≫= k) w.
Proof. unfold gives, fails. intros Hm Hk. by rewrite /mbind /prog_bind Hm Hk. Qed.

Lemma fails_first {A B} (m : prog W A) (k : A → prog W B) w : fails m w → fails (m ≫= k) w.
Proof. unfold fails. intros Hm. by rewrite /mbind /prog_bind Hm. Qed.

Lemma gives_print fmt args w : is_Some (format fmt args) → gives (print fmt args) w tt [Out (line fmt args)] w.
Proof. intros [s Hs]. unfold gives, print, line. by rewrite Hs. Qed.

Lemma gives_complain fmt args w : is_Some (format fmt args) → gives (complain fmt args) w tt [Err (line fmt args)] w.
Proof. intros [s Hs]. unfold gives, complain, line. by rewrite Hs. Qed.

Lemma gives_putline s w : gives (putline s) w tt [Out (esc s +:+ String nl "")] w.
Proof. done. Qed.

Lemma gives_putlines l w : gives (putlines l) w tt ((λ s, Out (esc s +:+ String nl "")) <$> l) w.
Proof.
  induction l as [|s l IH]; [done|]. cbn [putlines]. by eapply gives_bind; [apply gives_putline|exact IH|].
Qed.

Lemma gives_each {X} (l : list X) (f : X → prog W unit) (t : X → list ev) w :
  (∀ x, x ∈ l → gives (f x) w tt (t x) w) → gives (each l f) w tt (mbind t l) w.
Proof.
  induction l as [|x l IH]; intros Hf; [done|]. cbn [each].
  eapply gives_bind; [apply Hf; set_solver|apply IH; intros y Hy; apply Hf; set_solver|done].
Qed.
End commands.

(** A part of the state. *)
Definition within {V W A} (get : W → V) (set : V → W → W) (m : prog V A) : prog W A := λ w,
  match m (get w) with
  | Returns a o v => Returns a o (set v w)
  | Exits c o v => Exits c o (set v w)
  | Undef => Undef
  | OutOfTurns => OutOfTurns
  end.

Lemma gives_within {V W A} (get : W → V) (set : V → W → W) (m : prog V A) w a o v :
  gives m (get w) a o v → gives (within get set m) w a o (set v w).
Proof. unfold gives, within. by intros ->. Qed.

(** The next command prints; what was printed is compared with the head of what is to be
    printed. *)
Ltac prints_line :=
  first [ apply gives_print; by eexists | apply gives_complain; by eexists | apply gives_putline | apply gives_putlines ].
Ltac prints :=
  first [ eapply gives_bind; [prints_line| |reflexivity] | eapply quits_bind; [prints_line| |reflexivity] | eapply fails_bind; [prints_line|] ].

(** The next command, for which [t] finds the lemma, prints nothing. *)
Ltac quietly t := first [ eapply gives_quiet; [t|] | eapply quits_quiet; [t|] | eapply fails_bind; [t|] ].
