(* ===== verification/Disk.v ===== *)
(** * Files and streams

    The files of a disk, the streams of [stdio] and the descriptors of the system that a
    program has open.  What the operating system decides is a parameter: why an [open]
    fails (besides a file that does not exist), how long a file can grow, and which files
    cannot be read.  A stream keeps what is written to it until it is closed (the C
    library writes longer texts out earlier, with the same contents of the file in the
    end); closing a stream or a descriptor forgets it. *)

From Stdlib Require Import ssreflect.
From S2P Require Import Prelude Machine CString Double Printf Text Effects.
#[local] Open Scope Z_scope.
#[local] Open Scope general_if_scope.
#[local] Set SsrOldRewriteGoalsOrder.

(** The modes of [fopen], and a descriptor. *)
Inductive mode := Reading | Writing | Appending | Raw.

(** [s_pos] is the position of the next read; [s_buf] holds what is not yet written. *)
Record stream := Stream { s_path : string; s_mode : mode; s_pos : nat; s_buf : bytes; s_err : bool }.
Record disk := Disk { files : gmap string bytes; streams : gmap positive stream }.

Definition ENOENT : string := "No such file or directory".

Section disk.
Context (open_error : string → mode → option string) (capacity : string → nat) (unreadable : string → bool).

Definition on_stream {A} (f : positive) (k : stream → bytes → prog disk A) : prog disk A :=
  d ← read;
  match streams d !! f with
  | Some s => match files d !! s_path s with Some bs => k s bs | None => undef end
  | None => undef
  end.
Definition set_stream (f : positive) (s : stream) : prog disk unit :=
  d ← read; write (Disk (files d) (<[f := s]> (streams d))).
Definition set_file (path : string) (bs : bytes) : prog disk unit :=
  d ← read; write (Disk (<[path := bs]> (files d)) (streams d)).
Definition new_stream (path : string) (m : mode) : prog disk (string + positive) :=
  d ← read;
  let f := fresh_loc (streams d) in
  _ ← set_stream f (Stream path m 0 [] false);
  mret (inr f).

(** [fopen], or [open] of an existing file: the stream, or the error. *)
Definition fopen (path : string) (m : mode) : prog disk (string + positive) :=
  match open_error path m with
  | Some e => mret (inl e)
  | None =>
      d ← read;
      match m, files d !! path with
      | (Reading | Raw), None => mret (inl ENOENT)
      | Writing, _ | Appending, None => _ ← set_file path []; new_stream path m
      | _, Some _ => new_stream path m
      end
  end.

(** [open] with [O_CREAT | O_TRUNC]. *)
Definition creat (path : string) : prog disk (string + positive) :=
  match open_error path Raw with
  | Some e => mret (inl e)
  | None => _ ← set_file path []; new_stream path Raw
  end.

(** [fprintf(f, ...)] and [fwrite]: into the buffer. *)
Definition put_bytes (f : positive) (bs : bytes) : prog disk unit :=
  on_stream f (λ s _,
    match s_mode s with
    | Writing | Appending => set_stream f (Stream (s_path s) (s_mode s) (s_pos s) (s_buf s ++ bs) (s_err s))
    | _ => undef
    end).
Definition fprintf (f : positive) (fmt : string) (args : list parg) : prog disk unit :=
  match format fmt args with Some t => put_bytes f (bytes_of t) | None => undef end.

(** What the disk has no room for is lost. *)
Definition fclose (f : positive) : prog disk unit :=
  on_stream f (λ s bs,
    _ ← (match s_mode s with
         | Writing | Appending => set_file (s_path s) (bs ++ take (capacity (s_path s) - length bs) (s_buf s))
         | _ => mret tt
         end);
    d ← read;
    write (Disk (files d) (delete f (streams d)))).

(** Up to [n] bytes from the position on; nothing if the file cannot be read. *)
Definition get_bytes (f : positive) (take_from : bytes → bytes * bytes) : prog disk bytes :=
  on_stream f (λ s bs,
    if unreadable (s_path s) then _ ← set_stream f (Stream (s_path s) (s_mode s) (s_pos s) (s_buf s) true); mret []
    else
      let '(got, _) := take_from (drop (s_pos s) bs) in
      _ ← set_stream f (Stream (s_path s) (s_mode s) (s_pos s + length got) (s_buf s) (s_err s));
      mret got).

(** [fgets(line, n + 1, f)]; NULL when there is nothing to read. *)
Definition get_line (f : positive) (n : nat) : prog disk (option bytes) :=
  got ← get_bytes f (fgets n);
  mret (match got with [] => None | _ => Some got end).

(** [fread] of [n] bytes, and [read]. *)
Definition fread (f : positive) (n : nat) : prog disk bytes := get_bytes f (λ bs, (take n bs, drop n bs)).

Definition ferror (f : positive) : prog disk bool := on_stream f (λ s _, mret (s_err s)).
Definition fseek_end (f : positive) : prog disk unit :=
  on_stream f (λ s bs, set_stream f (Stream (s_path s) (s_mode s) (length bs) (s_buf s) (s_err s))).
Definition ftell (f : positive) : prog disk Z := on_stream f (λ s _, mret (Z.of_nat (s_pos s))).

(** [remove], [unlink]. *)
Definition remove_file (path : string) : prog disk unit :=
  d ← read; write (Disk (delete path (files d)) (streams d)).

(** [write] on a descriptor, at its position: the number of bytes written, or the error if
    there is room for none. *)
Definition write_raw (f : positive) (bs : bytes) : prog disk nat :=
  on_stream f (λ s old,
    let put := take (capacity (s_path s) - s_pos s) bs in
    _ ← set_file (s_path s) (take (s_pos s) old ++ put ++ drop (s_pos s + length put) old);
    _ ← set_stream f (Stream (s_path s) (s_mode s) (s_pos s + length put) (s_buf s) (s_err s));
    mret (length put)).

(** [ftruncate(fd, n)]: the file grows by zeros, if there is room. *)
Definition ftruncate (f : positive) (n : nat) : prog disk bool :=
  on_stream f (λ s old,
    if decide (n ≤ capacity (s_path s))%nat then
      _ ← set_file (s_path s) (take n old ++ replicate (n - length old) "000"%char);
      mret true
    else mret false).

Definition file_length (f : positive) : prog disk nat := on_stream f (λ _ bs, mret (length bs)).

(** ** What the operations do

    [F] are the files and [S] the streams that are open besides the one at hand. *)

Implicit Types (F : gmap string bytes) (S : gmap positive stream).

Lemma gives_stream {A} f (k : stream → bytes → prog disk A) F S s bs a o d' :
  F !! s_path s = Some bs → gives (k s bs) (Disk F (<[f := s]> S)) a o d' → gives (on_stream f k) (Disk F (<[f := s]> S)) a o d'.
Proof.
  intros Hb Hk. eapply gives_quiet; [done|]. cbn [files streams]. by rewrite lookup_insert_eq Hb.
Qed.

Lemma gives_set f F S s s' : gives (set_stream f s') (Disk F (<[f := s]> S)) tt [] (Disk F (<[f := s']> S)).
Proof. eapply gives_quiet; [done|]. cbn [files streams]. by rewrite insert_insert_eq. Qed.

Lemma gives_open_error path m e d : open_error path m = Some e → gives (fopen path m) d (inl e) [] d.
Proof. intros He. unfold fopen. by rewrite He. Qed.

Lemma gives_open_missing path F S : open_error path Reading = None → F !! path = None →
  gives (fopen path Reading) (Disk F S) (inl ENOENT) [] (Disk F S).
Proof. intros He HF. unfold fopen. rewrite He. eapply gives_quiet; [done|]. cbn [files]. by rewrite HF. Qed.

Lemma gives_open_read path bs F S : open_error path Reading = None → F !! path = Some bs →
  gives (fopen path Reading) (Disk F S) (inr (fresh_loc S)) [] (Disk F (<[fresh_loc S := Stream path Reading 0 [] false]> S)).
Proof. intros He HF. unfold fopen. rewrite He. eapply gives_quiet; [done|]. cbn [files]. by rewrite HF. Qed.

Lemma gives_open_write path F S : open_error path Writing = None →
  gives (fopen path Writing) (Disk F S) (inr (fresh_loc S)) [] (Disk (<[path := []]> F) (<[fresh_loc S := Stream path Writing 0 [] false]> S)).
Proof. intros He. unfold fopen. rewrite He. done. Qed.

Lemma gives_open_append path bs F S : open_error path Appending = None → F !! path = Some bs →
  gives (fopen path Appending) (Disk F S) (inr (fresh_loc S)) [] (Disk F (<[fresh_loc S := Stream path Appending 0 [] false]> S)).
Proof. intros He HF. unfold fopen. rewrite He. eapply gives_quiet; [done|]. cbn [files]. by rewrite HF. Qed.

(** A stream that writes. *)
Lemma gives_put f F S path m p buf e bs bs' : m = Writing ∨ m = Appending → F !! path = Some bs →
  gives (put_bytes f bs') (Disk F (<[f := Stream path m p buf e]> S)) tt [] (Disk F (<[f := Stream path m p (buf ++ bs') e]> S)).
Proof. intros Hm HF. eapply gives_stream; [done|]. cbn [s_mode]. destruct Hm as [-> | ->]; apply gives_set. Qed.

Lemma gives_fprintf f F S path m p buf e bs fmt args : is_Some (format fmt args) → m = Writing ∨ m = Appending → F !! path = Some bs →
  gives (fprintf f fmt args) (Disk F (<[f := Stream path m p buf e]> S)) tt []
        (Disk F (<[f := Stream path m p (buf ++ bytes_of (line fmt args)) e]> S)).
Proof. intros [t Ht] Hm HF. unfold fprintf, line. rewrite Ht. by eapply gives_put. Qed.

Lemma gives_close_written f F S path m p buf e bs : m = Writing ∨ m = Appending → F !! path = Some bs → S !! f = None →
  gives (fclose f) (Disk F (<[f := Stream path m p buf e]> S)) tt [] (Disk (<[path := bs ++ take (capacity path - length bs) buf]> F) S).
Proof.
  intros Hm HF HS. eapply gives_stream; [done|]. cbn [s_mode s_path s_buf].
  eapply (gives_quiet _ _ _ tt); [by destruct Hm as [-> | ->]|]. eapply gives_quiet; [done|]. cbn [files streams].
  unfold gives, write. by rewrite delete_insert_id.
Qed.

Lemma gives_close_read f F S path m p buf e bs : m = Reading ∨ m = Raw → F !! path = Some bs → S !! f = None →
  gives (fclose f) (Disk F (<[f := Stream path m p buf e]> S)) tt [] (Disk F S).
Proof.
  intros Hm HF HS. eapply gives_stream; [done|]. cbn [s_mode s_path s_buf].
  eapply (gives_quiet _ _ _ tt); [by destruct Hm as [-> | ->]|]. eapply gives_quiet; [done|]. cbn [files streams].
  unfold gives, write. by rewrite delete_insert_id.
Qed.

(** A stream that reads. *)
Lemma gives_get f (g : bytes → bytes * bytes) F S path m p buf e bs : F !! path = Some bs → unreadable path = false →
  gives (get_bytes f g) (Disk F (<[f := Stream path m p buf e]> S)) (g (drop p bs)).1 []
        (Disk F (<[f := Stream path m (p + length (g (drop p bs)).1) buf e]> S)).
Proof.
  intros HF Hu. eapply gives_stream; [done|]. cbn [s_path s_pos s_mode s_buf s_err]. rewrite Hu.
  destruct (g (drop p bs)) as [got rest]. eapply gives_quiet; [apply gives_set|done].
Qed.

Lemma gives_fread f n F S path m p buf e bs : F !! path = Some bs → unreadable path = false →
  gives (fread f n) (Disk F (<[f := Stream path m p buf e]> S)) (take n (drop p bs)) []
        (Disk F (<[f := Stream path m (p + length (take n (drop p bs))) buf e]> S)).
Proof. intros HF Hu. by apply (gives_get f (λ bs, (take n bs, drop n bs))). Qed.

Lemma gives_line_end f n F S path m p buf e bs : F !! path = Some bs → unreadable path = false → (length bs ≤ p)%nat →
  gives (get_line f n) (Disk F (<[f := Stream path m p buf e]> S)) None [] (Disk F (<[f := Stream path m p buf e]> S)).
Proof.
  intros HF Hu Hp. pose proof (gives_get f (fgets n) F S path m p buf e bs HF Hu) as Hg. rewrite drop_ge // in Hg.
  assert (fgets n [] = ([], [])) as E by (by destruct n). rewrite E /= Nat.add_0_r in Hg.
  eapply gives_quiet; [exact Hg|done].
Qed.

Lemma gives_line f n F S path m p buf e bs l rest : F !! path = Some bs → unreadable path = false →
  drop p bs = line_bytes l ++ rest → one_line l → (String.length l < n)%nat →
  gives (get_line f n) (Disk F (<[f := Stream path m p buf e]> S)) (Some (line_bytes l)) []
        (Disk F (<[f := Stream path m (p + length (line_bytes l)) buf e]> S)).
Proof.
  intros HF Hu Hp Hl Hn. pose proof (gives_get f (fgets n) F S path m p buf e bs HF Hu) as Hg.
  rewrite Hp fgets_line // /= in Hg. eapply gives_quiet; [exact Hg|]. by destruct l.
Qed.

Lemma gives_unreadable f n F S path m p buf e bs : F !! path = Some bs → unreadable path = true →
  gives (get_line f n) (Disk F (<[f := Stream path m p buf e]> S)) None [] (Disk F (<[f := Stream path m p buf true]> S)).
Proof.
  intros HF Hu. eapply (gives_quiet _ _ _ []); [|done]. eapply gives_stream; [done|]. cbn [s_path s_pos s_mode s_buf s_err].
  rewrite Hu. eapply gives_quiet; [apply gives_set|done].
Qed.

(** Descriptors. *)
Lemma gives_open_raw path bs F S : open_error path Raw = None → F !! path = Some bs →
  gives (fopen path Raw) (Disk F S) (inr (fresh_loc S)) [] (Disk F (<[fresh_loc S := Stream path Raw 0 [] false]> S)).
Proof. intros He HF. unfold fopen. rewrite He. eapply gives_quiet; [done|]. cbn [files]. by rewrite HF. Qed.

Lemma gives_creat path F S : open_error path Raw = None →
  gives (creat path) (Disk F S) (inr (fresh_loc S)) [] (Disk (<[path := []]> F) (<[fresh_loc S := Stream path Raw 0 [] false]> S)).
Proof. intros He. unfold creat. by rewrite He. Qed.

Lemma gives_creat_error path e d : open_error path Raw = Some e → gives (creat path) d (inl e) [] d.
Proof. intros He. unfold creat. by rewrite He. Qed.

Lemma gives_write_raw f F S path bs :
  let put := take (capacity path) bs in
  gives (write_raw f bs) (Disk (<[path := []]> F) (<[f := Stream path Raw 0 [] false]> S)) (length put) []
    (Disk (<[path := put]> F) (<[f := Stream path Raw (length put) [] false]> S)).
Proof.
  intros put. eapply gives_stream; [apply lookup_insert_eq|]. cbn [s_path s_pos s_mode s_buf s_err].
  rewrite Nat.sub_0_r. eapply gives_quiet; [done|]. cbn [files streams]. rewrite insert_insert_eq take_0 drop_nil app_nil_r app_nil_l.
  eapply gives_quiet; [apply gives_set|done].
Qed.

Lemma gives_ftruncate f n F S path : (n ≤ capacity path)%nat →
  gives (ftruncate f n) (Disk (<[path := []]> F) (<[f := Stream path Raw 0 [] false]> S)) true []
    (Disk (<[path := replicate n "000"%char]> F) (<[f := Stream path Raw 0 [] false]> S)).
Proof.
  intros Hn. eapply gives_stream; [apply lookup_insert_eq|]. cbn [s_path]. rewrite decide_True //.
  eapply gives_quiet; [done|]. cbn [files streams]. rewrite insert_insert_eq Nat.sub_0_r. by rewrite take_nil.
Qed.

Lemma gives_ftruncate_full f n F S path : (capacity path < n)%nat →
  let d := Disk (<[path := []]> F) (<[f := Stream path Raw 0 [] false]> S) in gives (ftruncate f n) d false [] d.
Proof. intros Hn d. eapply gives_stream; [apply lookup_insert_eq|]. cbn [s_path]. rewrite decide_False //. lia. Qed.

Lemma gives_length f F S s bs : F !! s_path s = Some bs →
  let d := Disk F (<[f := s]> S) in gives (file_length f) d (length bs) [] d.
Proof. intros HF d. by eapply gives_stream. Qed.

(** Creating a file and closing it. *)
Lemma gives_close_new f F S path buf e : S !! f = None →
  gives (fclose f) (Disk (<[path := []]> F) (<[f := Stream path Writing 0 buf e]> S)) tt [] (Disk (<[path := take (capacity path) buf]> F) S).
Proof.
  intros HS. pose proof (gives_close_written f (<[path:=[]]> F) S path Writing 0 buf e []) as H.
  rewrite insert_insert_eq Nat.sub_0_r in H. apply H; [by left|apply lookup_insert_eq|done].
Qed.
End disk.
