(* ===== verification/SepLogic.v ===== *)
(** * A separation logic for the C machine

    Assertions are predicates on heaplets.  The logic is linear: an assertion
    describes exactly the objects it owns, so that a function whose
    postcondition is [emp] has freed everything it was given.  It is an instance
    of the BI interface of Iris, whose proof mode is used throughout; triples are
    given by the weakest precondition [wp], which excludes undefined behaviour
    and loops that run out of fuel. *)

From S2P Require Import Prelude Machine CString Double Printf.
From iris.proofmode Require Export proofmode.

#[global] Open Scope Z_scope.

(** ** Assertions *)

Section hprop.
Context {U : Type}.
Abbreviation heaplet := (gmap positive U).

Record hProp := HProp { holds :> heaplet → Prop }.

Record hentails (P Q : hProp) : Prop := HEntails { entails_at : ∀ h, P h → Q h }.
Definition hequiv_def (P Q : hProp) : Prop := ∀ h, P h ↔ Q h.
#[local] Instance hprop_equiv : Equiv hProp := hequiv_def.
#[local] Instance hprop_equivalence : Equivalence (≡@{hProp}).
Proof.
  split; unfold equiv, hprop_equiv, hequiv_def.
  - done.
  - intros P Q H h. by rewrite H.
  - intros P Q R H1 H2 h. by rewrite H1 H2.
Qed.
Canonical Structure hpropO := discreteO hProp.

Definition hemp : hProp := HProp (λ h, h = ∅).
Definition hpure (φ : Prop) : hProp := HProp (λ _, φ).
Definition hand (P Q : hProp) : hProp := HProp (λ h, P h ∧ Q h).
Definition hor (P Q : hProp) : hProp := HProp (λ h, P h ∨ Q h).
Definition himpl (P Q : hProp) : hProp := HProp (λ h, P h → Q h).
Definition hforall A (Φ : A → hProp) : hProp := HProp (λ h, ∀ a, Φ a h).
Definition hexist A (Φ : A → hProp) : hProp := HProp (λ h, ∃ a, Φ a h).
Definition hsep (P Q : hProp) : hProp :=
  HProp (λ h, ∃ h1 h2, h = h1 ∪ h2 ∧ h1 ##ₘ h2 ∧ P h1 ∧ Q h2).
Definition hwand (P Q : hProp) : hProp :=
  HProp (λ h, ∀ h', h ##ₘ h' → P h' → Q (h ∪ h')).
Definition hpers (P : hProp) : hProp := hpure (hentails hemp P).

Lemma hprop_bi_mixin :
  BiMixin hentails hemp hpure hand hor himpl hforall hexist hsep hwand.
Proof.
  split.
  - split; [by intros P; split|].
    intros P Q R [H1] [H2]. split. intros h HP. by apply H2, H1.
  - intros P Q. split.
    + intros H. by split; split; intros h; rewrite (H h).
    + intros [[H1] [H2]] h. split; [apply H1|apply H2].
  - intros n φ ψ H h. apply H.
  - intros n P P' HP Q Q' HQ h. simpl. by rewrite (HP h) (HQ h).
  - intros n P P' HP Q Q' HQ h. simpl. by rewrite (HP h) (HQ h).
  - intros n P P' HP Q Q' HQ h. simpl. by rewrite (HP h) (HQ h).
  - intros A n Φ Ψ H h. simpl. split; intros HΦ a; apply (H a h), HΦ.
  - intros A n Φ Ψ H h. simpl. split; intros [a HΦ]; exists a; by apply (H a h).
  - intros n P P' HP Q Q' HQ h. simpl.
    split; intros (h1 & h2 & ? & ? & ? & ?); exists h1, h2;
      split_and!; try done; first [by apply HP|by apply HQ].
  - intros n P P' HP Q Q' HQ h. simpl.
    split; intros H h' Hd HP'; apply HQ, H, HP, HP'; done.
  - intros φ P Hφ. by split.
  - intros φ P H. split. intros h Hφ. by apply (entails_at _ _ (H Hφ) h).
  - intros P Q. by split; intros h [? _].
  - intros P Q. by split; intros h [_ ?].
  - intros P Q R [H1] [H2]. split. intros h HP. split; [by apply H1|by apply H2].
  - intros P Q. split. intros h HP. by left.
  - intros P Q. split. intros h HP. by right.
  - intros P Q R [H1] [H2]. split. intros h [?|?]; [by apply H1|by apply H2].
  - intros P Q R [H]. split. intros h HP HQ. by apply H.
  - intros P Q R [H]. split. intros h [HP HQ]. by apply (H h).
  - intros A P Ψ H. split. intros h HP a. by apply (entails_at _ _ (H a)).
  - intros A Ψ a. split. intros h H. by apply H.
  - intros A Ψ a. split. intros h H. by exists a.
  - intros A Φ Q H. split. intros h [a Ha]. by apply (entails_at _ _ (H a)).
  - intros P P' Q Q' [H1] [H2]. split. intros h (h1 & h2 & -> & Hd & HP & HQ).
    exists h1, h2. split_and!; [done|done|by apply H1|by apply H2].
  - intros P. split. intros h HP. exists ∅, h. rewrite left_id_L.
    split_and!; [done|apply map_disjoint_empty_l|done|done].
  - intros P. split. intros h (h1 & h2 & -> & Hd & He & HP). simpl in He. subst h1.
    by rewrite left_id_L.
  - intros P Q. split. intros h (h1 & h2 & -> & Hd & HP & HQ). exists h2, h1.
    split_and!; [by apply map_union_comm|done|done|done].
  - intros P Q R. split.
    intros h (h12 & h3 & -> & Hd & (h1 & h2 & -> & Hd' & HP & HQ) & HR).
    apply map_disjoint_union_l in Hd as [Hd1 Hd2].
    exists h1, (h2 ∪ h3).
    split_and!; [by rewrite assoc_L|by apply map_disjoint_union_r|done|].
    by exists h2, h3.
  - intros P Q R [H]. split. intros h HP h' Hd HQ. apply H. by exists h, h'.
  - intros P Q R [H]. split. intros h (h1 & h2 & -> & Hd & HP & HQ). by apply (H h1).
Qed.

Lemma hprop_pers_mixin :
  BiPersistentlyMixin hentails hemp hand hexist hsep hpers.
Proof.
  eapply bi_persistently_mixin_discrete, hprop_bi_mixin; [done| |done].
  intros A Φ [H]. destruct (H ∅ eq_refl) as [x Hx]. exists x.
  by split; intros h ->.
Qed.

Lemma hprop_later_mixin :
  BiLaterMixin hentails hpure hor himpl hforall hexist hsep hpers id.
Proof. by eapply bi_later_mixin_id, hprop_bi_mixin. Qed.

Canonical Structure hpropI : bi :=
  {| bi_ofe_mixin := ofe_mixin_of hProp;
     bi_bi_mixin := hprop_bi_mixin;
     bi_bi_persistently_mixin := hprop_pers_mixin;
     bi_bi_later_mixin := hprop_later_mixin |}.

#[global] Instance hprop_pure_forall : BiPureForall hpropI.
Proof. intros A φ. split. intros h H a. apply H. Qed.
End hprop.

#[global] Arguments hProp : clear implicits.
#[global] Arguments hpropI : clear implicits.
Bind Scope bi_scope with hProp.

(** ** Resources *)

Section resources.
Context {U : Type}.
Implicit Types P Q : hpropI U.

(** [l ↦ x]: the heaplet is the single object [x] at address [l]. *)
Definition pointsto (l : positive) (x : U) : hpropI U := HProp (λ h, h = {[l := x]}).

(** The heaplet has at least [n] objects: what a walk needs as fuel. *)
Definition at_least (n : nat) : hpropI U := HProp (λ h, (n ≤ size h)%nat).
End resources.

Notation "l ↦ x" := (pointsto l x) (at level 20, format "l  ↦  x") : bi_scope.

(** A fact that owns nothing. *)
Notation "⌈ φ ⌉" := (<affine> ⌜ φ ⌝)%I (format "⌈ φ ⌉") : bi_scope.

Section resource_lemmas.
Context {U : Type}.
Implicit Types P Q : hpropI U.

Lemma pointsto_ne (l1 l2 : positive) (x1 x2 : U) :
  l1 ↦ x1 -∗ l2 ↦ x2 -∗ l1 ↦ x1 ∗ l2 ↦ x2 ∗ ⌈l1 ≠ l2⌉.
Proof.
  apply bi.entails_wand, bi.wand_intro_r. split. intros h (h1 & h2 & -> & Hd & H1 & H2). simpl in H1, H2. subst h1 h2.
  eexists _, _. split_and!; [done|done|done|].
  eexists _, ∅. rewrite right_id_L. split_and!; [done|apply map_disjoint_empty_r|done|].
  split; [done|]. intros ->. apply map_disjoint_singleton_l in Hd.
  by rewrite lookup_singleton_eq in Hd.
Qed.

Lemma at_least_0 P : P ⊢ P ∧ at_least 0.
Proof. split. intros h HP. split; [done|]. simpl. lia. Qed.

Lemma at_least_cons (l : positive) (x : U) P n :
  (P ⊢ at_least n) → l ↦ x ∗ P ⊢ at_least (S n).
Proof.
  intros [H]. split. intros h (h1 & h2 & -> & Hd & H1 & H2). simpl in H1. subst h1.
  apply H in H2. simpl in *. rewrite map_size_disj_union //. rewrite map_size_singleton. lia.
Qed.

Lemma at_least_mono n m : (m ≤ n)%nat → at_least (U:=U) n ⊢ at_least m.
Proof. intros Hle. split. intros h H. simpl in *. lia. Qed.

Lemma at_least_frame P R n : (P ⊢ at_least n) → P ∗ R ⊢ at_least n.
Proof.
  intros [H]. split. intros h (h1 & h2 & -> & Hd & H1 & H2). apply H in H1. simpl in *.
  rewrite map_size_disj_union //. lia.
Qed.
End resource_lemmas.

(** ** Weakest preconditions

    [wp mf X m Q]: run on any heap that contains the described heaplet, [m] has
    defined behaviour and terminates; if it returns [a] having emitted the events
    [o], the heaplet satisfies [Q a o] and the rest of the heap is untouched; if
    it exits with code [c] then [X c] holds.  [mf] says whether the allocator may
    fail. *)

Section wp.
Context {U : Type}.

Definition allocs (mf : bool) (w : world U) : Prop :=
  mf = false → lucky (oracle w).

Definition wp {A} (mf : bool) (X : Z → Prop) (m : M U A) (Q : A → list ev → hpropI U)
  : hpropI U :=
  HProp (λ h, ∀ w F, heap w = h ∪ F → h ##ₘ F → allocs mf w →
    match m w with
    | Ret a o w' => ∃ h', heap w' = h' ∪ F ∧ h' ##ₘ F ∧ allocs mf w' ∧ Q a o h'
    | Exit c _ _ => X c
    | UB | NoFuel => False
    end).

Context (mf : bool) (X : Z → Prop).
Implicit Types P R : hpropI U.

Lemma wp_ret {A} (a : A) (Q : A → list ev → hpropI U) :
  Q a [] ⊢ wp mf X (ret a) Q.
Proof. split. intros h HQ w F Hw Hd Ha. simpl. by exists h. Qed.

Lemma wp_bind {A B} (m : M U A) (k : A → M U B) (Q : B → list ev → hpropI U) :
  wp mf X m (λ a o, wp mf X (k a) (λ b o', Q b (o ++ o'))) ⊢ wp mf X (bind m k) Q.
Proof.
  split. intros h H w F Hw Hd Ha. specialize (H w F Hw Hd Ha). unfold bind.
  destruct (m w) as [a o w1|c o w1| |]; [|done..].
  destruct H as (h1 & Hw1 & Hd1 & Ha1 & HQ).
  specialize (HQ w1 F Hw1 Hd1 Ha1). by destruct (k a w1).
Qed.

Lemma wp_wand {A} (m : M U A) (Q Q' : A → list ev → hpropI U) :
  wp mf X m Q -∗ (∀ a o, Q a o -∗ Q' a o) -∗ wp mf X m Q'.
Proof.
  apply bi.entails_wand, bi.wand_intro_r. split. intros h (h1 & h2 & -> & Hd & H & HQ) w F Hw HdF Ha.
  apply map_disjoint_union_l in HdF as [Hd1 Hd2].
  assert (h1 ##ₘ h2 ∪ F) as Hd' by by apply map_disjoint_union_r.
  rewrite -assoc_L in Hw. specialize (H w (h2 ∪ F) Hw Hd' Ha).
  destruct (m w) as [a o w1|c o w1| |]; [|done..].
  destruct H as (h1' & Hw1 & Hd1' & Ha1 & HQa).
  apply map_disjoint_union_r in Hd1' as [Hd12 Hd1F].
  exists (h1' ∪ h2). split_and!; [by rewrite -assoc_L|by apply map_disjoint_union_l|done|].
  rewrite map_union_comm; [|done]. by apply (HQ a o h1').
Qed.

Lemma wp_frame {A} R (m : M U A) (Q : A → list ev → hpropI U) :
  R -∗ wp mf X m Q -∗ wp mf X m (λ a o, R ∗ Q a o).
Proof.
  iIntros "HR H". iApply (wp_wand with "H"). iIntros (a o) "HQ". iFrame.
Qed.

Lemma wp_exit {A} c (Q : A → list ev → hpropI U) P :
  X c → P ⊢ wp mf X (exit c) Q.
Proof. intros HX. split. by intros h _ w F _ _ _. Qed.

Lemma wp_emit e (Q : unit → list ev → hpropI U) :
  Q tt [e] ⊢ wp mf X (emit e) Q.
Proof. split. intros h HQ w F Hw Hd Ha. simpl. by exists h. Qed.

Lemma wp_int_chk z (Q : Z → list ev → hpropI U) :
  INT_MIN ≤ z ≤ INT_MAX → Q z [] ⊢ wp mf X (int_chk z) Q.
Proof. intros Hz%in_int_spec. unfold int_chk. rewrite Hz. apply wp_ret. Qed.

Lemma wp_long_chk z (Q : Z → list ev → hpropI U) :
  LONG_MIN ≤ z ≤ LONG_MAX → Q z [] ⊢ wp mf X (long_chk z) Q.
Proof. intros Hz%in_long_spec. unfold long_chk. rewrite Hz. apply wp_ret. Qed.

(** *** Memory *)

Lemma wp_malloc (x : U) (Q : ptr → list ev → hpropI U) :
  (∀ p : ptr, ⌈p = None → mf = true⌉ -∗
              (if p is Some l then l ↦ x else emp) -∗ Q p []) ⊢
  wp mf X (malloc x) Q.
Proof.
  split. intros h HQ w F Hw Hd Ha. unfold malloc.
  destruct (oracle w 0%nat) as [l0|] eqn:E.
  - set (l := pick (heap w) l0).
    assert (heap w !! l = None) as Hl by apply pick_fresh.
    rewrite Hw lookup_union_None in Hl. destruct Hl as [Hlh HlF].
    assert (h ##ₘ {[l := x]}) as Hdx by by apply map_disjoint_singleton_r.
    exists (h ∪ {[l := x]}). simpl. split_and!.
    + rewrite Hw insert_union_l. f_equal. rewrite insert_union_singleton_l.
      by apply map_union_comm.
    + apply map_disjoint_union_l. split; [done|]. by apply map_disjoint_singleton_l.
    + intros Hmf n. apply (Ha Hmf).
    + specialize (HQ (Some l) ∅). rewrite right_id_L in HQ.
      apply HQ; [apply map_disjoint_empty_r|by split|done|done].
  - exists h. simpl. split_and!; [done|done|intros Hmf n; apply (Ha Hmf)|].
    specialize (HQ None ∅). rewrite right_id_L in HQ.
    specialize (HQ (map_disjoint_empty_r _)).
    assert (mf = true) as ->.
    { destruct mf; [done|]. destruct (Ha eq_refl 0%nat) as [l Hl]. congruence. }
    specialize (HQ (conj eq_refl (λ _, eq_refl)) ∅). rewrite right_id_L in HQ.
    apply HQ; [apply map_disjoint_empty_r|done].
Qed.

Lemma wp_local (x : U) (Q : ptr → list ev → hpropI U) :
  (∀ l, l ↦ x -∗ Q (Some l) []) ⊢ wp mf X (local x) Q.
Proof.
  split. intros h HQ w F Hw Hd Ha. unfold local. set (l := fresh_loc (heap w)).
  assert (heap w !! l = None) as Hl by apply fresh_loc_fresh.
  rewrite Hw lookup_union_None in Hl. destruct Hl as [Hlh HlF].
  assert (h ##ₘ {[l := x]}) as Hdx by by apply map_disjoint_singleton_r.
  exists (h ∪ {[l := x]}). simpl. split_and!.
  - rewrite Hw insert_union_l. f_equal. rewrite insert_union_singleton_l.
    by apply map_union_comm.
  - apply map_disjoint_union_l. split; [done|]. by apply map_disjoint_singleton_l.
  - done.
  - by apply (HQ l).
Qed.

Lemma wp_free_null (Q : unit → list ev → hpropI U) :
  Q tt [] ⊢ wp mf X (free None) Q.
Proof. split. intros h HQ w F Hw Hd Ha. by exists h. Qed.

Lemma heap_at {P : hpropI U} l x h w F :
  (l ↦ x ∗ P)%I h → heap w = h ∪ F → h ##ₘ F →
  heap w !! l = Some x ∧
  ∃ h', P h' ∧ {[l := x]} ##ₘ h' ∧ h = {[l := x]} ∪ h' ∧ h' !! l = None ∧ F !! l = None.
Proof.
  intros (h1 & h2 & -> & Hd & H1 & HP) Hw HdF. simpl in H1. subst h1.
  split.
  - rewrite Hw -assoc_L. apply lookup_union_Some_l. apply lookup_singleton_eq.
  - apply map_disjoint_union_l in HdF as [HdF _].
    exists h2. split_and!; [done..| |].
    + by apply map_disjoint_singleton_l in Hd.
    + by apply map_disjoint_singleton_l in HdF.
Qed.

Lemma wp_free l x (Q : unit → list ev → hpropI U) :
  l ↦ x -∗ Q tt [] -∗ wp mf X (free (Some l)) Q.
Proof.
  apply bi.entails_wand, bi.wand_intro_r. split. intros h H w F Hw Hd Ha.
  destruct (heap_at _ _ _ _ _ H Hw Hd) as (Hl & h' & HP & Hd' & -> & Hh' & HF).
  unfold free. rewrite Hl. exists h'. simpl. split_and!; [|by apply map_disjoint_union_l in Hd as [_ ?]|done|done].
  rewrite Hw -assoc_L delete_union delete_singleton_eq left_id_L.
  apply delete_id. by apply lookup_union_None.
Qed.

Lemma wp_load_obj l x (Q : U → list ev → hpropI U) :
  l ↦ x -∗ (l ↦ x -∗ Q x []) -∗ wp mf X (load_obj (Some l)) Q.
Proof.
  apply bi.entails_wand, bi.wand_intro_r. split. intros h H w F Hw Hd Ha.
  destruct (heap_at _ _ _ _ _ H Hw Hd) as (Hl & h' & HP & Hd' & -> & Hh' & HF).
  unfold load_obj. rewrite Hl. exists ({[l := x]} ∪ h'). split_and!; [done..|].
  rewrite map_union_comm //. apply HP; [by apply map_disjoint_sym|done].
Qed.

Lemma wp_store_obj l x y (Q : unit → list ev → hpropI U) :
  l ↦ x -∗ (l ↦ y -∗ Q tt []) -∗ wp mf X (store_obj (Some l) y) Q.
Proof.
  apply bi.entails_wand, bi.wand_intro_r. split. intros h H w F Hw Hd Ha.
  destruct (heap_at _ _ _ _ _ H Hw Hd) as (Hl & h' & HP & Hd' & -> & Hh' & HF).
  unfold store_obj. rewrite Hl.
  assert ({[l := y]} ##ₘ h') as Hdy by by apply map_disjoint_singleton_l.
  exists ({[l := y]} ∪ h'). simpl. split_and!.
  - rewrite Hw -!assoc_L insert_union_l insert_singleton_eq. done.
  - apply map_disjoint_union_l in Hd as [_ Hd].
    apply map_disjoint_union_l. split; [|done]. by apply map_disjoint_singleton_l.
  - done.
  - rewrite map_union_comm //. apply HP; [by apply map_disjoint_sym|done].
Qed.

(** The fuel of a walk exceeds the number of objects that are owned. *)
Lemma wp_heap_fuel k P (Q : nat → list ev → hpropI U) :
  (P ⊢ at_least k) →
  P -∗ (∀ n : nat, ⌈(k < n)%nat⌉ -∗ P -∗ Q n []) -∗ wp mf X heap_fuel Q.
Proof.
  intros [Hk]. apply bi.entails_wand, bi.wand_intro_r. split.
  intros h (h1 & h2 & -> & Hd & HP & HQ) w F Hw HdF Ha.
  exists (h1 ∪ h2). split_and!; [done..|].
  specialize (HQ (S (size (heap w))) ∅). rewrite right_id_L in HQ.
  specialize (HQ (map_disjoint_empty_r _)).
  assert (k < S (size (heap w)))%nat as Hlt.
  { apply Hk in HP. simpl in HP. rewrite Hw map_size_disj_union //.
    rewrite map_size_disj_union //. lia. }
  specialize (HQ (conj eq_refl Hlt) h1).
  rewrite map_union_comm //. apply HQ; [by apply map_disjoint_sym|done].
Qed.
End wp.

(** ** Typed memory, loops and adequacy *)

Section wp_derived.
Context {U T : Type} `{!Prism U T} (mf : bool) (X : Z → Prop).

Lemma wp_load l x (t : T) (Q : T → list ev → hpropI U) :
  of_obj x = Some t →
  l ↦ x -∗ (l ↦ x -∗ Q t []) -∗ wp mf X (load (Some l)) Q.
Proof.
  intros Hx. iIntros "Hl HQ". unfold load. iApply wp_bind.
  iApply (wp_load_obj with "Hl"). iIntros "Hl". rewrite Hx.
  iApply wp_ret. by iApply "HQ".
Qed.

Lemma wp_store l (x : U) (t : T) (Q : unit → list ev → hpropI U) :
  l ↦ x -∗ (l ↦ to_obj t -∗ Q tt []) -∗ wp mf X (store (Some l) t) Q.
Proof. apply wp_store_obj. Qed.

Lemma wp_update l x (t : T) f (Q : unit → list ev → hpropI U) :
  of_obj x = Some t →
  l ↦ x -∗ (l ↦ to_obj (f t) -∗ Q tt []) -∗ wp mf X (update (Some l) f) Q.
Proof.
  intros Hx. iIntros "Hl HQ". unfold update. iApply wp_bind.
  iApply (wp_load with "Hl"); [done|]. iIntros "Hl". simpl.
  iApply (wp_store with "Hl"). done.
Qed.
End wp_derived.

Section wp_loops.
Context {U : Type} (mf : bool) (X : Z → Prop).

Lemma wp_loop {S R} n (body : S → M U (S + R)) s (Q : R → list ev → hpropI U) :
  wp mf X (body s) (λ x o, match x with
                           | inl s' => wp mf X (loop n body s') (λ r o', Q r (o ++ o'))
                           | inr r => Q r o
                           end) ⊢
  wp mf X (loop (Datatypes.S n) body s) Q.
Proof.
  iIntros "H". simpl. iApply wp_bind. iApply (wp_wand with "H").
  iIntros ([s'|r] o) "H"; [done|]. iApply wp_ret. by rewrite app_nil_r.
Qed.

(** A counting loop: [I i s o] holds before the iteration [i], with loop state
    [s] and the events [o] emitted so far. *)
Lemma wp_for_n {S} (I : Z → S → list ev → hpropI U) n lo (f : Z → S → M U S) s o0
    (Q : S → list ev → hpropI U) :
  (∀ i s o, lo ≤ i < lo + Z.of_nat n →
    I i s o ⊢ wp mf X (f i s) (λ s' o', I (i + 1) s' (o ++ o'))) →
  I lo s o0 -∗
  (∀ s' o', I (lo + Z.of_nat n) s' (o0 ++ o') -∗ Q s' o') -∗
  wp mf X (for_n n lo f s) Q.
Proof.
  revert lo s o0 Q. induction n as [|n IH]; intros lo s o0 Q Hf; iIntros "HI HQ".
  - simpl. iApply wp_ret. iApply "HQ". by rewrite Z.add_0_r app_nil_r.
  - simpl. iApply wp_bind. iApply (wp_wand with "[HI]"); [iApply (Hf with "HI"); lia|].
    iIntros (s' o) "HI". simpl.
    iApply (IH (lo + 1) s' (o0 ++ o) with "HI"); [intros i s1 o1 Hi; apply Hf; lia|].
    iIntros (s'' o') "HI". rewrite -app_assoc. iApply "HQ".
    replace (lo + Z.of_nat (Datatypes.S n)) with (lo + 1 + Z.of_nat n) by lia. done.
Qed.

Lemma wp_for_range {S} (I : Z → S → list ev → hpropI U) lo hi (f : Z → S → M U S) s
    (Q : S → list ev → hpropI U) :
  lo ≤ hi →
  (∀ i s o, lo ≤ i < hi → I i s o ⊢ wp mf X (f i s) (λ s' o', I (i + 1) s' (o ++ o'))) →
  I lo s [] -∗ (∀ s' o', I hi s' o' -∗ Q s' o') -∗ wp mf X (for_range lo hi f s) Q.
Proof.
  intros Hle Hf. iIntros "HI HQ". unfold for_range.
  assert (lo + Z.of_nat (Z.to_nat (hi - lo)) = hi) as E by lia.
  iApply (wp_for_n I _ _ _ _ [] with "HI").
  - intros i s1 o1 Hi. apply Hf. lia.
  - rewrite E. simpl. done.
Qed.

(** The invariant holds of the elements gone through. *)
Lemma wp_for_list {A S} (I : list A → S → list ev → hpropI U) (f : A → S → M U S) l s
    (Q : S → list ev → hpropI U) :
  (∀ done x rest s o, l = done ++ x :: rest → I done s o ⊢ wp mf X (f x s) (λ s' o', I (done ++ [x]) s' (o ++ o'))) →
  I [] s [] -∗ (∀ s' o', I l s' o' -∗ Q s' o') -∗ wp mf X (for_list l f s) Q.
Proof.
  intros Hf. enough (∀ rest gone s o Q, l = gone ++ rest →
    I gone s o -∗ (∀ s' o', I l s' (o ++ o') -∗ Q s' o') -∗ wp mf X (for_list rest f s) Q) as H by by apply (H l []).
  induction rest as [|x rest IH]; intros gone s1 o Q1 E; iIntros "HI HQ"; simpl.
  - iApply wp_ret. iApply "HQ". by rewrite app_nil_r E app_nil_r.
  - iApply wp_bind. iApply (wp_wand with "[HI]"); [by iApply (Hf _ _ _ _ _ E with "HI")|].
    iIntros (s2 o2) "HI". iApply (IH (gone ++ [x]) s2 (o ++ o2) with "HI"); [by rewrite E -app_assoc|].
    iIntros (s3 o3) "HI". rewrite -app_assoc. by iApply "HQ".
Qed.
End wp_loops.

(** *** Output *)

Section wp_io.
Context {U : Type} (mf : bool) (X : Z → Prop).

(** A computation that only writes. *)
Lemma wp_pure_events {A} (a : A) (o : list ev) (Q : A → list ev → hpropI U) :
  Q a o ⊢ wp mf X (λ w, Ret a o w) Q.
Proof. split. intros h HQ w F Hw Hd Ha. by exists h. Qed.

Lemma wp_printf fmt args s (Q : unit → list ev → hpropI U) :
  format fmt args = Some s → Q tt [Out s] ⊢ wp mf X (printf fmt args) Q.
Proof. intros H. unfold printf. rewrite H. apply wp_emit. Qed.

Lemma wp_puts s (Q : unit → list ev → hpropI U) :
  Q tt [Out (esc s +:+ String nl "")%string] ⊢ wp mf X (puts s) Q.
Proof. apply wp_emit. Qed.

Lemma wp_put_lines l (Q : unit → list ev → hpropI U) :
  Q tt ((λ s, Out (esc s +:+ String nl "")%string) <$> l) ⊢ wp mf X (put_lines l) Q.
Proof.
  iIntros "HQ". unfold put_lines. iApply (wp_for_list mf X (λ gone s o, ⌈s = tt ∧ o = (λ s, Out (esc s +:+ String nl "")%string) <$> gone⌉%I)).
  - intros gone x rest [] o _. iIntros "%H". destruct H as [_ ->]. iApply wp_puts. iPureIntro. by rewrite fmap_app.
  - done.
  - iIntros (s o) "%H". by destruct H as [-> ->].
Qed.

Lemma wp_eprintf fmt args s (Q : unit → list ev → hpropI U) :
  format fmt args = Some s → Q tt [Err s] ⊢ wp mf X (eprintf fmt args) Q.
Proof. intros H. unfold eprintf. rewrite H. apply wp_emit. Qed.

Lemma wp_die {A} msg (Q : A → list ev → hpropI U) P :
  is_Some (format msg []) → X 1 → P ⊢ wp mf X (die msg) Q.
Proof.
  intros [s Hs] H1. split. intros h _ w F _ _ _. unfold die, eprintf. by rewrite Hs.
Qed.

(** [malloc] followed by the usual check: the program exits, or there is a new
    object. *)
Lemma wp_malloc_or_die (x : U) msg {A} (k : ptr → M U A) (Q : A → list ev → hpropI U) :
  is_Some (format msg []) → (mf = true → X 1) →
  (∀ l, l ↦ x -∗ wp mf X (k (Some l)) Q) ⊢
  wp mf X (bind (malloc x) (λ p, match p with None => die msg | Some _ => k p end)) Q.
Proof.
  intros Hs HX. iIntros "H". iApply wp_bind. iApply wp_malloc.
  iIntros ([l|]) "%Hp Hl"; [by iApply "H"|]. iApply (wp_die with "H"); auto.
Qed.
End wp_io.

(** A run from the empty heap of a computation with a closed precondition. *)
Lemma wp_adequacy {U A} mf X (m : M U A) (Q : A → list ev → hpropI U) orc :
  (⊢ wp mf X m Q) → (mf = false → lucky orc) →
  match m (empty_world orc) with
  | Ret a o w => Q a o (heap w)
  | Exit c _ _ => X c
  | UB | NoFuel => False
  end.
Proof.
  intros [H] Ha. specialize (H ∅ eq_refl (empty_world orc) ∅).
  simpl in H. rewrite left_id_L in H.
  specialize (H eq_refl (map_disjoint_empty_l _) Ha).
  destruct (m _) as [a o w|c o w| |]; [|done..].
  destruct H as (h' & -> & _ & _ & HQ). by rewrite right_id_L.
Qed.

(** Closed facts in the linear logic. *)
Lemma pure_emp_elim {U} (φ : Prop) (P : hpropI U) h : (⌈φ⌉ ∗ P)%I h → φ ∧ P h.
Proof.
  intros (h1 & h2 & -> & Hd & [He Hφ] & HP). simpl in He. subst h1.
  by rewrite left_id_L.
Qed.

Lemma pure_emp_at {U} (φ : Prop) (h : gmap positive U) : (⌈φ⌉ : hpropI U)%I h → h = ∅ ∧ φ.
Proof. by intros [He Hφ]. Qed.

(** What is proved of a whole program [m], for every behaviour of the
    allocator: it has defined behaviour and terminates; if it returns, [φ] holds of
    its result and of what it wrote, and every object it allocated has been freed;
    if it exits it does so with status 1, and either an allocation failed or [err]
    holds, the reason for which the program is meant to give up. *)
Definition runs {U A} (m : M U A) (φ : A → list ev → Prop) (err : Prop) : Prop :=
  ∀ orc, match m (empty_world orc) with
         | Ret a o w => heap w = ∅ ∧ φ a o
         | Exit c _ _ => c = 1 ∧ (lucky orc → err)
         | UB | NoFuel => False
         end.

Lemma wp_runs {U A} (m : M U A) φ (err : Prop) :
  (∀ mf X, (mf = true → X 1) → (err → X 1) → ⊢ wp mf X m (λ a o, ⌈φ a o⌉)) →
  runs m φ err.
Proof.
  intros H orc.
  assert (lucky orc → match m (empty_world orc) with
                      | Exit c _ _ => c = 1 ∧ err | _ => True end) as H2.
  { intros L. pose proof (wp_adequacy _ _ _ _ orc
      (H false (λ c, c = 1 ∧ err) ltac:(done) (λ E, conj eq_refl E)) (λ _, L)).
    by destruct (m (empty_world orc)). }
  pose proof (wp_adequacy _ _ _ _ orc
    (H true (λ c, c = 1) (λ _, eq_refl) (λ _, eq_refl)) ltac:(done)) as H1.
  destruct (m (empty_world orc)) as [a o w|c o w| |]; [|naive_solver|done..].
  by apply pure_emp_at in H1.
Qed.

(** With an allocator that does not fail, a program with no reason to give up
    returns. *)
Lemma runs_lucky {U A} (m : M U A) φ err orc :
  runs m φ err → ¬ err → lucky orc →
  ∃ a o w, m (empty_world orc) = Ret a o w ∧ heap w = ∅ ∧ φ a o.
Proof.
  intros H Herr L. specialize (H orc).
  destruct (m (empty_world orc)) as [a o w|c o w| |]; [|naive_solver..].
  by exists a, o, w.
Qed.

(** ** Tactics

    [wp_step] performs the next primitive operation of the computation in the
    goal, finding the object it touches in the context; [wp_run] repeats it. *)

(** The hypothesis of the proof mode that owns the object [p] points to. *)
Ltac with_object p tac :=
  let q := eval hnf in p in
  lazymatch q with
  | Some ?l =>
      lazymatch goal with
      | |- context [environments.Esnoc _ (INamed ?H) (pointsto l _)] => tac l constr:(H)
      end
  end.

(** Right-associated concatenations of strings. *)
Ltac str_norm :=
  repeat progress rewrite ?string_app_nil_l ?string_app_cons -?string_app_assoc ?string_app_nil_r.

(** Bounds of machine integers. *)
Ltac solve_range :=
  simpl in *; unfold INT_MIN, INT_MAX, LONG_MIN, LONG_MAX in *; lia.

(** The text of a format whose arguments may be symbolic. *)
Ltac eval_format f a tac :=
  let l := eval vm_compute in (parse None (esc f)) in
  lazymatch l with
  | Some ?l =>
      let r := eval cbv [render conv Ascii.eqb Bool.eqb orb] in (render l a) in
      lazymatch r with Some ?s => tac s; [reflexivity|] end
  end.

Ltac wp_step :=
  iStartProof; cbn beta iota;
  lazymatch goal with
  | |- environments.envs_entails _ (wp _ _ ?m _) =>
      lazymatch m with
      | bind _ _ => iApply wp_bind
      | ret _ => iApply wp_ret; cbn beta iota
      | load ?p =>
          with_object p ltac:(fun l H => iApply (wp_load _ _ l with H); [reflexivity|]; iIntros H);
          cbn beta iota
      | update ?p _ =>
          with_object p ltac:(fun l H => iApply (wp_update _ _ l with H); [reflexivity|]; iIntros H);
          cbn beta iota
      | store ?p _ =>
          with_object p ltac:(fun l H => iApply (wp_store _ _ l with H); iIntros H);
          cbn beta iota
      | free ?p =>
          let q := eval hnf in p in
          lazymatch q with
          | Some _ => with_object p ltac:(fun l H => iApply (wp_free _ _ l with H)); cbn beta iota
          | None => iApply wp_free_null; cbn beta iota
          end
      | emit _ => iApply wp_emit; cbn beta iota
      | puts _ => iApply wp_puts; cbn beta iota
      | put_lines _ => iApply wp_put_lines; cbn beta iota
      | puts_out _ => iApply wp_emit; cbn beta iota
      | puts_err _ => iApply wp_emit; cbn beta iota
      | printf ?f ?a => eval_format f a ltac:(fun s => iApply (wp_printf _ _ f a s)); cbn beta iota
      | eprintf ?f ?a => eval_format f a ltac:(fun s => iApply (wp_eprintf _ _ f a s)); cbn beta iota
      | int_chk _ => iApply wp_int_chk; [solve_range|]; cbn beta iota
      | long_chk _ => iApply wp_long_chk; [solve_range|]; cbn beta iota
      end
  end.

Ltac wp_run := repeat (wp_step; cbn [app]).
