(* ===== verification/Pure.v ===== *)
(** * Computations that leave the heap alone

    Many exercises compute and print without touching the heap.  [writes m a o]
    says that [m] returns [a] and emits the events [o] in every world, which it does
    not change; [yields m a] that it moreover writes nothing. *)

From S2P Require Import Prelude Machine CString Double Printf SepLogic.

Section pure.
Context {U : Type}.

Definition writes {A} (m : M U A) (a : A) (o : list ev) : Prop := ∀ w, m w = Ret a o w.
Definition yields {A} (m : M U A) (a : A) : Prop := writes m a [].
Definition is_undefined {A} (m : M U A) : Prop := ∀ w, m w = UB.

Lemma yields_ret {A} (a : A) : yields (ret a) a.
Proof. by intros w. Qed.

Lemma writes_bind {A B} (m : M U A) (k : A → M U B) a b o o' :
  writes m a o → writes (k a) b o' → writes (bind m k) b (o ++ o').
Proof. intros H1 H2 w. unfold bind. by rewrite H1 H2. Qed.

Lemma yields_bind {A B} (m : M U A) (k : A → M U B) a b o :
  yields m a → writes (k a) b o → writes (bind m k) b o.
Proof. intros H1 H2. exact (writes_bind m k a b [] o H1 H2). Qed.

Lemma undefined_bind {A B} (m : M U A) (k : A → M U B) : is_undefined m → is_undefined (bind m k).
Proof. intros H w. unfold bind. by rewrite H. Qed.

Lemma undefined_bind_r {A B} (m : M U A) (k : A → M U B) a o :
  writes m a o → is_undefined (k a) → is_undefined (bind m k).
Proof. intros H1 H2 w. unfold bind. by rewrite H1 H2. Qed.

Lemma yields_int_chk z : INT_MIN ≤ z ≤ INT_MAX → yields (int_chk z) z.
Proof. intros Hz%in_int_spec w. unfold int_chk. by rewrite Hz. Qed.

Lemma undefined_int_chk z : ¬ INT_MIN ≤ z ≤ INT_MAX → is_undefined (int_chk z).
Proof. rewrite -in_int_spec. intros Hz w. unfold int_chk. by destruct (Machine.in_int z). Qed.

Lemma writes_printf fmt args s : format fmt args = Some s → writes (printf fmt args) tt [Out s].
Proof. intros H w. unfold printf. by rewrite H. Qed.

(** One turn of a loop. *)
Lemma writes_loop_again {S R} n (body : S → M U (S + R)) s s' r o o' :
  writes (body s) (inl s') o → writes (loop n body s') r o' →
  writes (loop (Datatypes.S n) body s) r (o ++ o').
Proof. intros H1 H2. simpl. by eapply writes_bind. Qed.

Lemma writes_loop_done {S R} n (body : S → M U (S + R)) s r o :
  writes (body s) (inr r) o → writes (loop (Datatypes.S n) body s) r o.
Proof. intros H. rewrite -(app_nil_r o). simpl. apply (writes_bind _ _ (inr r)); [done|apply yields_ret]. Qed.

(** A counting loop with invariant [I i s o]: the state and the events before
    iteration [i]. *)
Lemma writes_for_n {S} (I : Z → S → list ev → Prop) n lo (f : Z → S → M U S) s o0 :
  (∀ i s o, lo ≤ i < lo + Z.of_nat n → I i s o → ∃ s' o', writes (f i s) s' o' ∧ I (i + 1) s' (o ++ o')) →
  I lo s o0 →
  ∃ s' o', writes (for_n n lo f s) s' o' ∧ I (lo + Z.of_nat n) s' (o0 ++ o').
Proof.
  revert lo s o0. induction n as [|n IH]; intros lo s o0 Hf HI; simpl.
  - exists s, []. rewrite Z.add_0_r app_nil_r. by split.
  - destruct (Hf lo s o0) as (s1 & o1 & H1 & HI1); [lia|done|].
    destruct (IH (lo + 1) s1 (o0 ++ o1)) as (s2 & o2 & H2 & HI2); [intros; apply Hf; [lia|done]|done|].
    exists s2, (o1 ++ o2). split; [by eapply writes_bind|].
    replace (lo + Z.of_nat (Datatypes.S n)) with (lo + 1 + Z.of_nat n) by lia. by rewrite app_assoc.
Qed.

Lemma writes_for_range {S} (I : Z → S → list ev → Prop) lo hi (f : Z → S → M U S) s :
  lo ≤ hi →
  (∀ i s o, lo ≤ i < hi → I i s o → ∃ s' o', writes (f i s) s' o' ∧ I (i + 1) s' (o ++ o')) →
  I lo s [] → ∃ s' o', writes (for_range lo hi f s) s' o' ∧ I hi s' o'.
Proof.
  intros Hle Hf HI. unfold for_range.
  destruct (writes_for_n I (Z.to_nat (hi - lo)) lo f s []) as (s' & o' & H & HI'); [|done|].
  - intros i s1 o1 Hi. apply Hf. lia.
  - exists s', o'. split; [done|]. by replace (lo + Z.of_nat (Z.to_nat (hi - lo))) with hi in HI' by lia.
Qed.

(** A computation without effects may be used where the heap matters. *)
Lemma wp_writes mf X {A} (m : M U A) a o (Q : A → list ev → hpropI U) :
  writes m a o → Q a o ⊢ wp mf X m Q.
Proof.
  intros H. split. intros h HQ w F Hw Hd Ha. rewrite H. by exists h.
Qed.

Lemma writes_runs {A} (m : M U A) a o φ err : writes m a o → φ a o → runs m φ err.
Proof. intros H Hφ orc. by rewrite H. Qed.
End pure.

(** A program whose output depends on the allocator: [φ] holds of every run, [ψ] of
    those in which no allocation fails. *)
Lemma wp_runs_lucky {U A} (m : M U A) (φ ψ : A → list ev → Prop) :
  (∀ mf X, (mf = true → X 1) → ⊢ wp mf X m (λ a o, ⌈φ a o ∧ (mf = false → ψ a o)⌉)) →
  runs m φ False ∧
  ∀ orc, lucky orc → ∃ a o w, m (empty_world orc) = Ret a o w ∧ heap w = ∅ ∧ φ a o ∧ ψ a o.
Proof.
  intros H. split.
  - apply wp_runs. intros mf X HX _. iApply (wp_wand with "[]"); [by iApply H|]. by iIntros (a o [? _]).
  - intros orc L.
    pose proof (wp_adequacy false (λ _, False) m _ orc (H false (λ _, False) ltac:(done)) (λ _, L)) as Hr.
    destruct (m (empty_world orc)) as [a o w|c o w| |]; [|done..].
    apply pure_emp_at in Hr as (Hh & Hφ & Hψ). exists a, o, w. auto.
Qed.

#[export] Hint Resolve yields_ret : core.

(** A closed program without heap operations is run by evaluation. *)
Ltac run_program :=
  intros ?; vm_compute; first [done | repeat split].
