(* ===== verification/Session.v ===== *)
(** * Clients of an API

    A component is an API on the heap that implements operations on mathematical
    data.  A client is any sequence of its operations.  This file gives the
    sequence on the heap ([run_ops]), the same sequence on the data ([spec_run]),
    and the theorem that the second describes the first, from the specification of
    single operations. *)

From S2P Require Import Prelude Machine CString Double Printf SepLogic.

(** The operations on the heap, one after the other. *)
Fixpoint run_ops {U Op R} (call : Op → M U R) (ops : list Op) : M U (list R) :=
  match ops with
  | [] => ret []
  | o :: ops' => r <- call o ;; rs <- run_ops call ops' ;; ret (r :: rs)
  end.

(** The operations on the data: results, final data and output; [None] when an
    operation makes the program exit. *)
Fixpoint spec_run {Op S R} (step : Op → S → option (R * S * string)) (ops : list Op) (s : S)
    : option (list R * S * string) :=
  match ops with
  | [] => Some ([], s, ""%string)
  | o :: ops' =>
      '(r, s1, t) ← step o s; '(rs, s2, t') ← spec_run step ops' s1;
      Some (r :: rs, s2, (t +:+ t')%string)
  end.

(** What an implementation promises: [rep s] is the representation of the data
    [s], [room n s] says that [n] more operations fit in the machine integers, and
    every operation with acceptable arguments implements its step. *)
Class Implements {U Op S R : Type} (mf : bool) (X : Z → Prop)
    (step : Op → S → option (R * S * string)) (call : Op → M U R)
    (rep : S → hpropI U) (ok : Op → Prop) (room : nat → S → Prop) : Prop := {
  implements_room n o s r s' t : room (Datatypes.S n) s → step o s = Some (r, s', t) → room n s';
  implements_call n o s (Q : R → list ev → hpropI U) :
    ok o → room (Datatypes.S n) s → (step o s = None → X 1) →
    rep s -∗
    (∀ r s' t e, ⌈step o s = Some (r, s', t)⌉ -∗ ⌈stdout e = t⌉ -∗ ⌈stderr e = ""%string⌉ -∗
       rep s' -∗ Q r e) -∗
    wp mf X (call o) Q
}.

Section clients.
Context {U Op S R : Type} {mf : bool} {X : Z → Prop}.
Context {step : Op → S → option (R * S * string)} {call : Op → M U R}.
Context {rep : S → hpropI U} {ok : Op → Prop} {room : nat → S → Prop}.
Context `{!Implements mf X step call rep ok room}.

Lemma wp_run_ops ops s (Q : list R → list ev → hpropI U) :
  Forall ok ops → room (length ops) s → (spec_run step ops s = None → X 1) →
  rep s -∗
  (∀ rs s' e, ⌈spec_run step ops s = Some (rs, s', stdout e)⌉ -∗ ⌈stderr e = ""%string⌉ -∗
     rep s' -∗ Q rs e) -∗
  wp mf X (run_ops call ops) Q.
Proof.
  revert s Q. induction ops as [|o ops IH]; intros s Q Hok Hroom HX; iIntros "H HQ"; simpl.
  - wp_step. by iApply ("HQ" with "[] []").
  - apply Forall_cons in Hok as [Ho Hok]. simpl in *. wp_step.
    iApply (implements_call with "H"); [done|done|by intros E; apply HX; rewrite E|].
    iIntros (r s1 t e E He Hs) "H". wp_step. rewrite E in HX |- *. simpl in *.
    iApply (IH with "H"); [done|by eapply implements_room|by intros E'; apply HX; rewrite E'|].
    iIntros (rs s2 e' E' Hs') "H". wp_step. rewrite E'. simpl.
    iApply ("HQ" with "[] []"); [| |done]; iPureIntro; rewrite app_nil_r.
    + by rewrite stdout_app He.
    + by rewrite stderr_app Hs Hs'.
Qed.
End clients.
