(* ===== verification/NodeChain.v ===== *)
(** * Chains of list nodes

    [struct Node { int value; struct Node *next; }] is declared by the linked
    list, the stack and queue and the lock-free stack alike.  This file gives
    the record, the assertion that describes a chain of such nodes, and the
    lemmas their proofs share. *)

From S2P Require Import Prelude Machine CString Double Printf SepLogic.

Record node := Node { n_value : Z; n_next : ptr }.

Definition set_next (q : ptr) (n : node) : node := Node (n_value n) q.

(** The files whose objects include nodes. *)
Class HasNode (U : Type) := has_node :: Prism U node.

Section chain.
Context {U : Type} `{!HasNode U}.

Definition node_at (l : positive) (n : node) : hpropI U := l ↦ to_obj n.

(** The nodes from [p] to [q] (excluded) hold the values [xs]. *)
Fixpoint lseg (p q : ptr) (xs : list Z) : hpropI U :=
  match xs with
  | [] => ⌈p = q⌉
  | x :: xs' => ∃ l nx, ⌈p = Some l⌉ ∗ l ↦ to_obj (Node x nx) ∗ lseg nx q xs'
  end%I.

Lemma lseg_app p q xs ys :
  lseg p q (xs ++ ys) ⊣⊢ ∃ r, lseg p r xs ∗ lseg r q ys.
Proof.
  revert p. induction xs as [|x xs IH]; intros p; simpl.
  - iSplit.
    + iIntros "H". iExists p. by iFrame.
    + by iIntros "(%r & -> & H)".
  - iSplit.
    + iIntros "(%l & %nx & -> & Hl & H)". rewrite IH. iDestruct "H" as "(%r & H1 & H2)".
      iExists r. iFrame "H2". iExists l, nx. by iFrame.
    + iIntros "(%r & (%l & %nx & -> & Hl & H1) & H2)". iExists l, nx.
      iFrame "Hl". iSplitR; [done|]. rewrite IH. iExists r. iFrame.
Qed.

Lemma lseg_cons_intro l x nx q xs :
  l ↦ to_obj (Node x nx) -∗ lseg nx q xs -∗ lseg (Some l) q (x :: xs).
Proof. iIntros "Hl H". iExists l, nx. by iFrame. Qed.

Lemma lseg_snoc_intro p l x q xs :
  lseg p (Some l) xs -∗ l ↦ to_obj (Node x q) -∗ lseg p q (xs ++ [x]).
Proof.
  iIntros "H Hl". rewrite lseg_app. iExists (Some l). iFrame "H".
  iExists l, q. by iFrame.
Qed.

Lemma lseg_null xs : lseg None None xs ⊢ ⌈xs = []⌉.
Proof.
  destruct xs as [|x xs]; simpl; [by iIntros "_"|].
  iIntros "(%l & %nx & %Hn & H)". discriminate.
Qed.

(** A chain whose head pointer is not null has a first node. *)
Lemma lseg_some l xs :
  lseg (Some l) None xs ⊢
  ∃ x xs' nx, ⌈xs = x :: xs'⌉ ∗ l ↦ to_obj (Node x nx) ∗ lseg nx None xs'.
Proof.
  destruct xs as [|x xs]; simpl; [by iIntros "%"|].
  iIntros "(%l' & %nx & %Hl & H1 & H2)". injection Hl as <-.
  iExists x, xs, nx. by iFrame.
Qed.

Lemma lseg_at_least p q xs : lseg p q xs ⊢ at_least (length xs).
Proof.
  revert p. induction xs as [|x xs IH]; intros p; simpl.
  - split. intros h _. simpl. lia.
  - iIntros "(%l & %nx & -> & Hl & H)".
    iApply (at_least_cons l (to_obj (Node x nx)) (lseg nx q xs)); [apply IH|iFrame].
Qed.
End chain.

#[export] Hint Resolve lseg_at_least : core.

(** The fuel of a walk along a chain that is owned. *)
Lemma wp_fuel_lseg {U} `{!HasNode U} mf X p q xs (Q : nat → list ev → hpropI U) :
  lseg p q xs -∗ (∀ n : nat, ⌈(length xs < n)%nat⌉ -∗ lseg p q xs -∗ Q n []) -∗
  wp mf X heap_fuel Q.
Proof. iIntros "H HQ". iApply (wp_heap_fuel with "H HQ"). apply lseg_at_least. Qed.

(** ** Printing a chain

    [while (cur) { printf("%d", cur->value); if (cur->next) printf(sep); cur = cur->next; }],
    the loop of [list_print], [stack_print] and [queue_print]. *)
Definition print_nodes {U} `{!HasNode U} (sep : string) (fuel : nat) (cur : ptr) : M U unit :=
  loop fuel (λ cur : ptr,
    match cur with
    | None => ret (inr tt)
    | Some _ =>
        n <- load cur ;;
        printf "%d" [AInt (n_value n)] ;;;
        (match n_next n with Some _ => printf sep [] | None => ret tt end) ;;;
        ret (inl (n_next n))
    end) cur.

(** *** Chains with a pointer to the last node *)

Section tail.
Context {U : Type} `{!HasNode U}.

(** The chain from [p] to NULL; [tl] is its last node, or NULL. *)
Fixpoint chain (p tl : ptr) (xs : list Z) : hpropI U :=
  match xs with
  | [] => ⌈p = None⌉ ∗ ⌈tl = None⌉
  | x :: xs' =>
      match xs' with
      | [] => ∃ l, (⌈p = Some l⌉ ∗ ⌈tl = Some l⌉) ∗ l ↦ to_obj (Node x None)
      | _ => ∃ l nx, ⌈p = Some l⌉ ∗ l ↦ to_obj (Node x nx) ∗ chain nx tl xs'
      end
  end%I.

Lemma chain_cons2 p tl x y xs :
  chain p tl (x :: y :: xs) ⊢
  ∃ l nx, ⌈p = Some l⌉ ∗ l ↦ to_obj (Node x nx) ∗ chain nx tl (y :: xs).
Proof. done. Qed.

Lemma chain_lseg p tl xs : chain p tl xs ⊢ lseg p None xs.
Proof.
  revert p. induction xs as [|x [|y xs] IH]; intros p.
  - simpl. by iIntros "[-> _]".
  - simpl. iIntros "(%l & [-> _] & Hl)". iExists l, None. by iFrame.
  - iIntros "(%l & %nx & -> & Hl & H)". iExists l, nx. iFrame "Hl". iSplitR; [done|].
    by iApply IH.
Qed.

Lemma lseg_chain p xs : lseg p None xs ⊢ ∃ tl, chain p tl xs.
Proof.
  revert p. induction xs as [|x [|y xs] IH]; intros p.
  - simpl. iIntros "->". by iExists None.
  - simpl. iIntros "(%l & %nx & -> & Hl & ->)". iExists (Some l), l. by iFrame.
  - iIntros "(%l & %nx & -> & Hl & H)". iDestruct (IH with "H") as (tl) "H".
    iExists tl, l, nx. by iFrame.
Qed.

Lemma chain_tail p t xs :
  chain p (Some t) xs ⊣⊢
  ∃ ys y, ⌈xs = ys ++ [y]⌉ ∗ lseg p (Some t) ys ∗ t ↦ to_obj (Node y None).
Proof.
  revert p. induction xs as [|x [|y xs] IH]; intros p.
  - simpl. iSplit; [by iIntros "[_ %]"|]. iIntros "(%ys & %y & %E & H & Ht)". by destruct ys.
  - simpl. iSplit.
    + iIntros "(%l & [-> %E] & Hl)". injection E as <-. iExists [], x. by iFrame.
    + iIntros "(%ys & %y & %E & H & Ht)". destruct ys as [|? [|]]; try done.
      injection E as <-. iDestruct "H" as %->. iExists t. by iFrame.
  - iSplit.
    + iIntros "(%l & %nx & -> & Hl & H)". iDestruct (bi.equiv_entails_1_1 _ _ (IH nx) with "H") as (ys z E) "[H Ht]". iExists (x :: ys), z. rewrite E. iFrame "Ht".
      iSplitR; [done|]. iExists l, nx. by iFrame.
    + iIntros "(%ys & %z & %E & H & Ht)". destruct ys as [|x' ys]; [done|].
      injection E as <- E. iDestruct "H" as (l nx ->) "[Hl H]". iExists l, nx. iFrame "Hl".
      iSplitR; [done|]. iApply (bi.equiv_entails_1_2 _ _ (IH nx)). iExists ys, z. by iFrame.
Qed.

(** The head node of a chain, and what is left when it is taken off. *)
Lemma chain_head l tl xs :
  chain (Some l) tl xs ⊢
  ∃ x xs' nx, ⌈xs = x :: xs'⌉ ∗ l ↦ to_obj (Node x nx) ∗
    chain nx (match nx with None => None | Some _ => tl end) xs'.
Proof.
  destruct xs as [|x [|y xs]].
  - simpl. iIntros "[% _]". done.
  - iIntros "(%l' & [%E ->] & Hl)". injection E as <-. iExists x, [], None. by iFrame.
  - iIntros "(%l' & %nx & %E & Hl & H)". injection E as <-. iExists x, (y :: xs), nx.
    iFrame "Hl". iSplitR; [done|]. destruct nx as [d|]; [done|].
    destruct xs as [|z xs]; [by iDestruct "H" as (?) "[[% _] H]"|by iDestruct "H" as (??) "[% H]"].
Qed.

Lemma chain_null tl xs : chain None tl xs ⊢ ⌈xs = []⌉ ∗ ⌈tl = None⌉.
Proof.
  destruct xs as [|x [|y xs]]; simpl.
  - by iIntros "[_ ->]".
  - iIntros "(%l' & [% _] & Hl)". done.
  - iIntros "(%l' & %nx & % & Hl)". done.
Qed.

Lemma chain_no_tail p xs : chain p None xs ⊢ ⌈xs = []⌉ ∗ ⌈p = None⌉.
Proof.
  assert (∀ x xs p, chain p None (x :: xs) ⊢ ⌈False⌉) as H.
  { clear. intros x xs. revert x. induction xs as [|y xs IH]; intros x p.
    - iIntros "(%l & [_ %] & Hl)". done.
    - rewrite chain_cons2. iIntros "(%l & %nx & _ & Hl & H)". by iDestruct (IH with "H") as %[]. }
  destruct xs as [|x xs]; [by iIntros "[-> _]"|]. rewrite H. by iIntros "%".
Qed.

Lemma chain_cons l x nx tl xs :
  xs ≠ [] → l ↦ to_obj (Node x nx) -∗ chain nx tl xs -∗ chain (Some l) tl (x :: xs).
Proof. intros Hne. iIntros "Hl H". destruct xs; [done|]. iExists l, nx. by iFrame. Qed.

Lemma chain_at_least p tl xs : chain p tl xs ⊢ at_least (length xs).
Proof. rewrite chain_lseg. apply lseg_at_least. Qed.
End tail.

Lemma wp_print_nodes_chain {U} `{!HasNode U} mf X sep t n hd tl xs (Q : unit → list ev → hpropI U) :
  format sep [] = Some t →
  (length xs < n)%nat → chain hd tl xs -∗
  (∀ o, ⌈stdout o = join_str t (map int_str xs)⌉ -∗ ⌈stderr o = ""%string⌉ -∗
     chain hd tl xs -∗ Q tt o) -∗
  wp mf X (print_nodes sep n hd) Q.
Proof.
  intros Ht. revert hd xs Q. induction n as [|n IH]; intros hd xs Q Hn; [lia|].
  unfold print_nodes. iIntros "H HQ". iApply wp_loop. destruct xs as [|x [|y xs]].
  - simpl. iDestruct "H" as "[-> ->]". wp_step. by iApply ("HQ" $! []).
  - iDestruct "H" as (l) "[[-> ->] Hl]". wp_step.
    iApply (wp_load with "Hl"); [apply of_to_obj|]. iIntros "Hl". cbn beta iota. wp_run. simpl. wp_run.
    destruct n as [|n]; [simpl in Hn; lia|]. iApply wp_loop. wp_step.
    iApply ("HQ" with "[] []"); [| |iExists l; by iFrame]; iPureIntro; [|done].
    simpl. rewrite fmt_signed_plain. by str_norm.
  - iDestruct (chain_cons2 with "H") as (l nx ->) "[Hl H]". wp_step.
    iApply (wp_load with "Hl"); [apply of_to_obj|]. iIntros "Hl". cbn beta iota. wp_run.
    cbn [n_next n_value]. destruct nx as [d|].
    + iApply (wp_printf _ _ _ _ _ _ Ht). wp_step. iApply (IH with "H"); [simpl in *; lia|].
      iIntros (o Ho He) "H".
      iApply ("HQ" with "[] [] [Hl H]"); [|done|by iApply (chain_cons with "Hl H")].
      iPureIntro. simpl. rewrite Ho fmt_signed_plain. by str_norm.
    + iDestruct (chain_null with "H") as "[% _]". done.
Qed.

Lemma wp_print_nodes {U} `{!HasNode U} mf X sep t n hd xs (Q : unit → list ev → hpropI U) :
  format sep [] = Some t →
  (length xs < n)%nat → lseg hd None xs -∗
  (∀ o, ⌈stdout o = join_str t (map int_str xs)⌉ -∗ ⌈stderr o = ""%string⌉ -∗
     lseg hd None xs -∗ Q tt o) -∗
  wp mf X (print_nodes sep n hd) Q.
Proof.
  intros Ht Hn. iIntros "H HQ". rewrite {1}lseg_chain. iDestruct "H" as (tl) "H".
  iApply (wp_print_nodes_chain with "H"); [done|done|]. iIntros (o Ho He) "H".
  iApply ("HQ" with "[] []"); [done|done|]. by iApply chain_lseg.
Qed.
