(* ===== verification/LinkedList.v ===== *)
(** * Exercise 10: singly linked list

    Model of [exercises/10_linked_lists/linked_lists.c]: every function of the
    API on the heap of nodes, and [main]. *)

From S2P Require Import Prelude Machine CString Double Printf SepLogic Session NodeChain.

(** ** Data *)

Record list_hdr := List { l_head : ptr; l_size : Z }.

Definition set_head (p : ptr) (l : list_hdr) : list_hdr := List p (l_size l).
Definition set_size (n : Z) (l : list_hdr) : list_hdr := List (l_head l) n.

(** The objects on the heap; [Raw] is a block fresh from [malloc]. *)
Inductive obj := Raw | ONode (n : node) | OList (l : list_hdr).

#[export] Instance obj_node : HasNode obj :=
  {| to_obj := ONode; of_obj o := match o with ONode n => Some n | _ => None end;
     of_to_obj _ := eq_refl |}.
#[export] Instance obj_list : Prism obj list_hdr :=
  {| to_obj := OList; of_obj o := match o with OList l => Some l | _ => None end;
     of_to_obj _ := eq_refl |}.

(** [list->size++] and [list->size--]. *)
Definition add_size (list : ptr) (d : Z) : M obj unit :=
  l <- load list ;;
  n <- int_chk (l_size l + d) ;;
  update list (set_size n).

(** ** Lifecycle *)

Definition node_create (value : Z) : M obj ptr :=
  n <- malloc Raw ;;
  match n with
  | None => die "malloc failed\n"
  | Some _ => store n (Node value NULL) ;;; ret n
  end.

Definition list_create : M obj ptr :=
  l <- malloc Raw ;;
  match l with
  | None => die "malloc failed\n"
  | Some _ => store l (List NULL 0) ;;; ret l
  end.

(** [while (cur != NULL) { next = cur->next; free(cur); cur = next; }] *)
Definition free_chain (fuel : nat) (cur : ptr) : M obj unit :=
  loop fuel (λ cur : ptr,
    match cur with
    | None => ret (inr tt)
    | Some _ =>
        n <- load cur ;;
        free cur ;;;
        ret (inl (n_next n))
    end) cur.

Definition list_free (list : ptr) : M obj unit :=
  l <- load list ;;
  fuel <- heap_fuel ;;
  free_chain fuel (l_head l) ;;;
  free list.

(** ** Insertion *)

Definition list_push_front (list : ptr) (value : Z) : M obj unit :=
  n <- node_create value ;;
  l <- load list ;;
  update n (set_next (l_head l)) ;;;
  update list (set_head n) ;;;
  add_size list 1.

(** [while (cur->next != NULL) cur = cur->next;] *)
Definition walk_last (fuel : nat) (cur : ptr) : M obj ptr :=
  loop fuel (λ cur : ptr,
    n <- load cur ;;
    match n_next n with
    | None => ret (inr cur)
    | Some _ => ret (inl (n_next n))
    end) cur.

Definition list_push_back (list : ptr) (value : Z) : M obj unit :=
  n <- node_create value ;;
  l <- load list ;;
  match l_head l with
  | None => update list (set_head n)
  | Some _ =>
      fuel <- heap_fuel ;;
      cur <- walk_last fuel (l_head l) ;;
      update cur (set_next n)
  end ;;;
  add_size list 1.

(** [for (int i = 0; i < index - 1 && cur->next != NULL; i++) cur = cur->next;] *)
Definition walk_index (fuel : nat) (index i : Z) (cur : ptr) : M obj ptr :=
  loop fuel (λ '(i, cur),
    bound <- int_chk (index - 1) ;;
    if i <? bound then
      n <- load cur ;;
      match n_next n with
      | None => ret (inr cur)
      | Some _ => ret (inl (i + 1, n_next n))
      end
    else ret (inr cur)) (i, cur).

Definition list_insert_at (list : ptr) (index value : Z) : M obj unit :=
  l <- load list ;;
  if (index <=? 0) || bool_decide (l_head l = NULL) then
    list_push_front list value
  else
    fuel <- heap_fuel ;;
    cur <- walk_index fuel index 0 (l_head l) ;;
    n <- node_create value ;;
    c <- load cur ;;
    update n (set_next (n_next c)) ;;;
    update cur (set_next n) ;;;
    add_size list 1.

(** ** Deletion *)

Definition list_pop_front (list : ptr) : M obj Z :=
  l <- load list ;;
  match l_head l with
  | None => die "pop on empty list\n"
  | Some _ =>
      let old := l_head l in
      o <- load old ;;
      let val := n_value o in
      update list (set_head (n_next o)) ;;;
      free old ;;;
      add_size list (-1) ;;;
      ret val
  end.

(** [while (prev->next != NULL && prev->next->value != value) prev = prev->next;] *)
Definition walk_value (fuel : nat) (value : Z) (prev : ptr) : M obj ptr :=
  loop fuel (λ prev : ptr,
    p <- load prev ;;
    match n_next p with
    | None => ret (inr prev)
    | Some _ =>
        t <- load (n_next p) ;;
        if n_value t =? value then ret (inr prev) else ret (inl (n_next p))
    end) prev.

(** The end of the two deletions: unlink and free the node after [prev]. *)
Definition unlink_after (list prev : ptr) : M obj unit :=
  p <- load prev ;;
  match n_next p with
  | None => ret tt
  | Some _ =>
      let target := n_next p in
      t <- load target ;;
      update prev (set_next (n_next t)) ;;;
      free target ;;;
      add_size list (-1)
  end.

Definition list_delete_value (list : ptr) (value : Z) : M obj unit :=
  l <- load list ;;
  match l_head l with
  | None => ret tt
  | Some _ =>
      h <- load (l_head l) ;;
      if n_value h =? value then
        list_pop_front list ;;; ret tt
      else
        fuel <- heap_fuel ;;
        prev <- walk_value fuel value (l_head l) ;;
        unlink_after list prev
  end.

Definition list_delete_at (list : ptr) (index : Z) : M obj unit :=
  l <- load list ;;
  if bool_decide (l_head l = NULL) || (index <? 0) then ret tt
  else if index =? 0 then list_pop_front list ;;; ret tt
  else
    fuel <- heap_fuel ;;
    prev <- walk_index fuel index 0 (l_head l) ;;
    unlink_after list prev.

(** ** Query *)

Definition find_value (fuel : nat) (value : Z) (cur : ptr) : M obj Z :=
  loop fuel (λ cur : ptr,
    match cur with
    | None => ret (inr 0)
    | Some _ =>
        n <- load cur ;;
        if n_value n =? value then ret (inr 1) else ret (inl (n_next n))
    end) cur.

Definition list_contains (list : ptr) (value : Z) : M obj Z :=
  l <- load list ;;
  fuel <- heap_fuel ;;
  find_value fuel value (l_head l).

(** [for (int i = 0; i < index && cur != NULL; i++) cur = cur->next;] *)
Definition walk_get (fuel : nat) (index : Z) (i : Z) (cur : ptr) : M obj ptr :=
  loop fuel (λ '(i, cur),
    if i <? index then
      match cur with
      | None => ret (inr cur)
      | Some _ => n <- load cur ;; ret (inl (i + 1, n_next n))
      end
    else ret (inr cur)) (i, cur).

Definition list_get (list : ptr) (index : Z) : M obj Z :=
  l <- load list ;;
  fuel <- heap_fuel ;;
  cur <- walk_get fuel index 0 (l_head l) ;;
  match cur with
  | None => die "index out of range\n"
  | Some _ => n <- load cur ;; ret (n_value n)
  end.

Definition list_print (list : ptr) : M obj unit :=
  l <- load list ;;
  printf "size=%d  [" [AInt (l_size l)] ;;;
  fuel <- heap_fuel ;;
  print_nodes " -> " fuel (l_head l) ;;;
  printf "]\n" [].

(** ** Reversal in place *)

Definition reverse_chain (fuel : nat) (prev cur : ptr) : M obj ptr :=
  loop fuel (λ '(prev, cur),
    match cur with
    | None => ret (inr prev)
    | Some _ =>
        n <- load cur ;;
        let next := n_next n in
        update cur (set_next prev) ;;;
        ret (inl (cur, next))
    end) (prev, cur).

Definition list_reverse (list : ptr) : M obj unit :=
  l <- load list ;;
  fuel <- heap_fuel ;;
  prev <- reverse_chain fuel NULL (l_head l) ;;
  update list (set_head prev).

(** ** [main] *)

Definition main : M obj Z :=
  printf "=== push_back / push_front ===\n" [] ;;;
  list <- list_create ;;
  list_push_back list 10 ;;;
  list_push_back list 20 ;;;
  list_push_back list 30 ;;;
  list_print list ;;;
  list_push_front list 5 ;;;
  list_print list ;;;
  printf "\n=== insert_at ===\n" [] ;;;
  list_insert_at list 2 15 ;;;
  list_print list ;;;
  list_insert_at list 0 1 ;;;
  list_print list ;;;
  printf "\n=== get / contains ===\n" [] ;;;
  g0 <- list_get list 0 ;;
  printf "get(0)         = %d\n" [AInt g0] ;;;
  g3 <- list_get list 3 ;;
  printf "get(3)         = %d\n" [AInt g3] ;;;
  c15 <- list_contains list 15 ;;
  printf "contains(15)   = %d\n" [AInt c15] ;;;
  c99 <- list_contains list 99 ;;
  printf "contains(99)   = %d\n" [AInt c99] ;;;
  l <- load list ;;
  printf "size           = %d\n" [AInt (l_size l)] ;;;
  printf "\n=== pop_front ===\n" [] ;;;
  val <- list_pop_front list ;;
  printf "popped %d\n" [AInt val] ;;;
  list_print list ;;;
  printf "\n=== delete_value ===\n" [] ;;;
  list_delete_value list 15 ;;;
  list_print list ;;;
  list_delete_value list 5 ;;;
  list_print list ;;;
  list_delete_value list 30 ;;;
  list_print list ;;;
  list_delete_value list 99 ;;;
  list_print list ;;;
  printf "\n=== delete_at ===\n" [] ;;;
  list_push_back list 30 ;;;
  list_push_back list 40 ;;;
  list_print list ;;;
  list_delete_at list 1 ;;;
  list_print list ;;;
  printf "\n=== reverse ===\n" [] ;;;
  list_push_back list 50 ;;;
  list_push_back list 60 ;;;
  list_print list ;;;
  list_reverse list ;;;
  list_print list ;;;
  list_free list ;;;
  ret 0.

(** ** The specification: lists of integers *)

(** An operation of the API, with its arguments. *)
Inductive op :=
  | PushFront (v : Z) | PushBack (v : Z) | InsertAt (i v : Z)
  | PopFront | DeleteValue (v : Z) | DeleteAt (i : Z)
  | Contains (v : Z) | Get (i : Z) | Print | Reverse.

(** [list_insert_at] and [list_delete_at] clamp a position past the end. *)
Definition insert_pos (i : Z) (xs : list Z) : nat := Nat.min (Z.to_nat i) (length xs).

(** What [list_print] writes. *)
Definition list_text (xs : list Z) : string :=
  ("size=" +:+ int_str (Z.of_nat (length xs)) +:+ "  [" +:+ join_str " -> " (map int_str xs)
   +:+ "]" +:+ String nl "")%string.

(** The result and the new contents; [None] when the program exits. *)
Definition spec_op (o : op) (xs : list Z) : option (option Z * list Z * string) :=
  match o with
  | PushFront v => Some (None, v :: xs, ""%string)
  | PushBack v => Some (None, xs ++ [v], ""%string)
  | InsertAt i v =>
      let k := insert_pos i xs in Some (None, take k xs ++ v :: drop k xs, ""%string)
  | PopFront => match xs with x :: xs' => Some (Some x, xs', ""%string) | [] => None end
  | DeleteValue v => Some (None, remove_first (λ x, x =? v) xs, ""%string)
  | DeleteAt i =>
      Some (None, if i <? 0 then xs else delete (Z.to_nat i) xs, ""%string)
  | Contains v => Some (Some (b2z (existsb (λ x, x =? v) xs)), xs, ""%string)
  | Get i => match xs !! Z.to_nat i with Some x => Some (Some x, xs, ""%string) | None => None end
  | Print => Some (None, xs, list_text xs)
  | Reverse => Some (None, reverse xs, ""%string)
  end.

(** The same operation on the heap. *)
Definition run_op (l : ptr) (o : op) : M obj (option Z) :=
  match o with
  | PushFront v => list_push_front l v ;;; ret None
  | PushBack v => list_push_back l v ;;; ret None
  | InsertAt i v => list_insert_at l i v ;;; ret None
  | PopFront => r <- list_pop_front l ;; ret (Some r)
  | DeleteValue v => list_delete_value l v ;;; ret None
  | DeleteAt i => list_delete_at l i ;;; ret None
  | Contains v => r <- list_contains l v ;; ret (Some r)
  | Get i => r <- list_get l i ;; ret (Some r)
  | Print => list_print l ;;; ret None
  | Reverse => list_reverse l ;;; ret None
  end.

(** A client: create a list, use it, free it. *)
Definition session (ops : list op) : M obj (list (option Z)) :=
  l <- list_create ;; rs <- run_ops (run_op l) ops ;; list_free l ;;; ret rs.

(** The indices are values of the type [int]. *)
Definition int_args (o : op) : Prop :=
  match o with
  | InsertAt i _ | DeleteAt i | Get i => INT_MIN ≤ i ≤ INT_MAX
  | _ => True
  end.

(** ** The representation of a list *)

Definition is_list (p : ptr) (xs : list Z) : hpropI obj :=
  ∃ l hd, ⌈p = Some l⌉ ∗ l ↦ OList (List hd (Z.of_nat (length xs))) ∗ lseg hd None xs.

(** ** Specifications of the functions *)

Section loops.
Context (mf : bool) (X : Z → Prop).

Lemma wp_free_chain n hd xs (Q : unit → list ev → hpropI obj) :
  (length xs < n)%nat → lseg hd None xs -∗ Q tt [] -∗ wp mf X (free_chain n hd) Q.
Proof.
  revert hd xs. induction n as [|n IH]; intros hd xs Hn; [lia|]. unfold free_chain.
  iIntros "H HQ". iApply wp_loop. destruct hd as [c|]; simpl.
  - rewrite lseg_some. iDestruct "H" as (x xs' nx ->) "[Hc H]".
    do 5 wp_step. iApply (IH with "H HQ"). simpl in Hn. lia.
  - rewrite lseg_null. iDestruct "H" as %->. by wp_step.
Qed.

Lemma lseg_cons l x nx q xs :
  l ↦ ONode (Node x nx) -∗ lseg nx q xs -∗ lseg (Some l) q (x :: xs).
Proof. exact (lseg_cons_intro l x nx q xs). Qed.

(** The node a cursor stands on: [ys] before it, [zs] after it. *)
Definition cursor (p : ptr) (l : positive) ys y zs : hpropI obj :=
  lseg p (Some l) ys ∗ ∃ nx, l ↦ ONode (Node y nx) ∗ lseg nx None zs.

Lemma cursor_cons c x nx l ys y zs :
  c ↦ ONode (Node x nx) -∗ cursor nx l ys y zs -∗ cursor (Some c) l (x :: ys) y zs.
Proof. iIntros "Hc [H1 H2]". iFrame "H2". iApply (lseg_cons with "Hc H1"). Qed.

Lemma cursor_here c y nx zs :
  c ↦ ONode (Node y nx) -∗ lseg nx None zs -∗ cursor (Some c) c [] y zs.
Proof. iIntros "Hc H". unfold cursor. iSplitR; [done|]. iExists nx. iFrame. Qed.

(** Replacing what follows the cursor. *)
Lemma cursor_close p l ys y nx zs :
  lseg p (Some l) ys -∗ l ↦ ONode (Node y nx) -∗ lseg nx None zs -∗ lseg p None (ys ++ y :: zs).
Proof.
  iIntros "H1 Hl H2". rewrite lseg_app. iExists (Some l). iFrame "H1". by iExists l, nx; iFrame.
Qed.

Lemma wp_walk_last n c x xs (Q : ptr → list ev → hpropI obj) :
  (length (x :: xs) < n)%nat → lseg (Some c) None (x :: xs) -∗
  (∀ l ys y, ⌈x :: xs = ys ++ [y]⌉ -∗ cursor (Some c) l ys y [] -∗ Q (Some l) []) -∗
  wp mf X (walk_last n (Some c)) Q.
Proof.
  revert c x xs Q. induction n as [|n IH]; intros c x xs Q Hn; [simpl in Hn; lia|].
  unfold walk_last. iIntros "H HQ". rewrite {1}lseg_some.
  iDestruct "H" as (x0 xs' nx [= <- <-]) "[Hc H]".
  iApply wp_loop. do 2 wp_step. destruct nx as [d|]; simpl.
  - destruct xs as [|x' xs]; [iDestruct "H" as %?; discriminate|].
    wp_step. iApply (IH with "H"); [simpl in *; lia|].
    iIntros (l ys y) "%E H". iApply ("HQ" $! l (x :: ys) y); [by rewrite E|].
    by iApply (cursor_cons c with "[$]").
  - rewrite lseg_null. iDestruct "H" as %->. wp_step.
    iApply ("HQ" $! c [] x); [done|]. by iApply (cursor_here c with "[$]").
Qed.

(** The walk to a position stops there, or at the last node. *)
Lemma wp_walk_index n index i c x xs (Q : ptr → list ev → hpropI obj) :
  (length (x :: xs) < n)%nat → INT_MIN ≤ index ≤ INT_MAX → 0 ≤ i < index →
  lseg (Some c) None (x :: xs) -∗
  (∀ l ys y zs, ⌈x :: xs = ys ++ y :: zs⌉ -∗
     ⌈length ys = Nat.min (Z.to_nat (index - 1 - i)) (length xs)⌉ -∗
     cursor (Some c) l ys y zs -∗ Q (Some l) []) -∗
  wp mf X (walk_index n index i (Some c)) Q.
Proof.
  revert i c x xs Q. induction n as [|n IH]; intros i c x xs Q Hn Hi Hlt; [simpl in Hn; lia|].
  unfold walk_index. iIntros "H HQ". iApply wp_loop. do 2 wp_step.
  rewrite {1}lseg_some. iDestruct "H" as (x0 xs' nx [= <- <-]) "[Hc H]".
  destruct (Z.ltb_spec i (index - 1)).
  - do 2 wp_step. destruct nx as [d|]; simpl.
    + destruct xs as [|x' xs]; [iDestruct "H" as %?; discriminate|].
      wp_step. iApply (IH with "H"); [simpl in *; lia|lia|lia|].
      iIntros (l ys y zs) "%E %Hl H". iApply ("HQ" $! l (x :: ys) y zs); [by rewrite E| |].
      * iPureIntro. simpl. rewrite Hl. simpl. lia.
      * by iApply (cursor_cons c with "[$]").
    + rewrite lseg_null. iDestruct "H" as %->. wp_step.
      iApply ("HQ" $! c [] x []); [done|by iPureIntro; simpl; lia|].
      by iApply (cursor_here c with "[$]").
  - wp_step. iApply ("HQ" $! c [] x xs); [done|iPureIntro; simpl; lia|].
    by iApply (cursor_here c with "[$]").
Qed.

(** The walk to the node before a value. *)
Lemma wp_walk_value n v c x xs (Q : ptr → list ev → hpropI obj) :
  (length (x :: xs) < n)%nat →
  lseg (Some c) None (x :: xs) -∗
  (∀ l ys y zs, ⌈x :: xs = ys ++ y :: zs⌉ -∗
     ⌈remove_first (λ x, x =? v) xs = tail (ys ++ y :: tail zs)⌉ -∗
     cursor (Some c) l ys y zs -∗ Q (Some l) []) -∗
  wp mf X (walk_value n v (Some c)) Q.
Proof.
  revert c x xs Q. induction n as [|n IH]; intros c x xs Q Hn; [simpl in Hn; lia|].
  unfold walk_value. iIntros "H HQ". iApply wp_loop. wp_step.
  rewrite {1}lseg_some. iDestruct "H" as (x0 xs' nx [= <- <-]) "[Hc H]".
  wp_step. destruct nx as [d|]; simpl.
  - rewrite lseg_some. iDestruct "H" as (x' xs1 nx' ->) "[Hd H]".
    do 2 wp_step. simpl. destruct (Z.eqb_spec x' v) as [->|Hne].
    + wp_step. iApply ("HQ" $! c [] x (v :: xs1)); [done|done|].
      iApply (cursor_here c with "[$]"). iApply (lseg_cons d with "[$] H").
    + wp_step. iApply (IH d x' xs1 with "[Hd H]"); [simpl in *; lia|by iApply (lseg_cons d with "[$] H")|].
      iIntros (l ys y zs) "%E %Hr H". iApply ("HQ" $! l (x :: ys) y zs); [by rewrite E| |].
      * iPureIntro. simpl. rewrite Hr.
        destruct ys; simpl in *; injection E as <- _; done.
      * by iApply (cursor_cons c with "[$]").
  - rewrite lseg_null. iDestruct "H" as %->. wp_step.
    iApply ("HQ" $! c [] x []); [done|done|]. by iApply (cursor_here c with "[$]").
Qed.

Lemma wp_find_value n v hd xs (Q : Z → list ev → hpropI obj) :
  (length xs < n)%nat → lseg hd None xs -∗
  (lseg hd None xs -∗ Q (b2z (existsb (λ x, x =? v) xs)) []) -∗
  wp mf X (find_value n v hd) Q.
Proof.
  revert hd xs Q. induction n as [|n IH]; intros hd xs Q Hn; [lia|]. unfold find_value.
  iIntros "H HQ". iApply wp_loop. destruct hd as [c|]; simpl.
  - rewrite {1}lseg_some. iDestruct "H" as (x xs' nx ->) "[Hc H]".
    do 2 wp_step. simpl in *. destruct (Z.eqb_spec x v) as [->|Hne]; wp_step.
    + iApply "HQ". iApply (lseg_cons c with "[$] H").
    + iApply (IH with "H"); [lia|]. iIntros "H". iApply "HQ".
      iApply (lseg_cons c with "[$] H").
  - iAssert ⌈xs = []⌉%I with "[H]" as %->; [by iApply lseg_null|]. wp_step. by iApply "HQ".
Qed.
(** The walk of [list_get] ends at the node of that index, or at NULL. *)
Lemma wp_walk_get n index i hd xs (Q : ptr → list ev → hpropI obj) :
  (length xs < n)%nat → 0 ≤ i →
  lseg hd None xs -∗
  (∀ ys zs q, ⌈xs = ys ++ zs⌉ -∗ ⌈length ys = Nat.min (Z.to_nat (index - i)) (length xs)⌉ -∗
     lseg hd q ys -∗ lseg q None zs -∗ Q q []) -∗
  wp mf X (walk_get n index i hd) Q.
Proof.
  revert i hd xs Q. induction n as [|n IH]; intros i hd xs Q Hn Hi; [lia|]. unfold walk_get.
  iIntros "H HQ". iApply wp_loop. destruct (Z.ltb_spec i index) as [Hlt|Hge].
  - destruct hd as [c|]; simpl.
    + rewrite {1}lseg_some. iDestruct "H" as (x xs' nx ->) "[Hc H]".
      do 3 wp_step. simpl in *. iApply (IH with "H"); [lia|lia|].
      iIntros (ys zs q) "%E %Hl H1 H2".
      iApply ("HQ" $! (x :: ys) zs q with "[] [] [Hc H1] H2"); [by rewrite E| |].
      * iPureIntro. simpl. rewrite Hl. lia.
      * iApply (lseg_cons c with "Hc H1").
    + iAssert ⌈xs = []⌉%I with "[H]" as %->; [by iApply lseg_null|]. wp_step.
      iApply ("HQ" $! [] [] None); [done| |done|done]. iPureIntro. simpl. lia.
  - wp_step. iApply ("HQ" $! [] xs hd with "[] [] [] H"); [done| |done].
    iPureIntro. simpl. lia.
Qed.

Lemma wp_reverse_chain n p hd xs ys (Q : ptr → list ev → hpropI obj) :
  (length xs < n)%nat → lseg p None ys -∗ lseg hd None xs -∗
  (∀ q, lseg q None (reverse xs ++ ys) -∗ Q q []) -∗
  wp mf X (reverse_chain n p hd) Q.
Proof.
  revert p hd xs ys Q. induction n as [|n IH]; intros p hd xs ys Q Hn; [lia|].
  unfold reverse_chain. iIntros "Hp H HQ". iApply wp_loop. destruct hd as [c|]; simpl.
  - rewrite lseg_some. iDestruct "H" as (x xs' nx ->) "[Hc H]".
    do 5 wp_step. simpl in *. rewrite reverse_cons -app_assoc.
    iApply (IH with "[Hp Hc] H HQ"); [lia|]. iApply (lseg_cons c with "Hc Hp").
  - rewrite lseg_null. iDestruct "H" as %->. wp_step. by iApply "HQ".
Qed.

(** Unlinking the node after the cursor. *)
Lemma wp_unlink_after p hd c ys y zs n (Q : unit → list ev → hpropI obj) :
  (0 < n <= INT_MAX)%Z → p ↦ OList (List hd n) -∗ cursor hd c ys y zs -∗
  (p ↦ OList (List hd (match zs with [] => n | _ => n - 1 end)) -∗
     lseg hd None (ys ++ y :: tail zs) -∗ Q tt []) -∗
  wp mf X (unlink_after (Some p) (Some c)) Q.
Proof.
  intros Hn. iIntros "Hp [H1 (%nx & Hc & H2)] HQ". unfold unlink_after.
  do 2 wp_step. simpl. destruct nx as [d|].
  - rewrite lseg_some. iDestruct "H2" as (x zs' nx ->) "[Hd H2]".
    wp_run. unfold add_size. wp_run. simpl. iApply ("HQ" with "Hp"). iApply (cursor_close with "H1 Hc H2").
  - rewrite lseg_null. iDestruct "H2" as %->. wp_step. iApply ("HQ" with "Hp").
    iApply (cursor_close with "H1 Hc"). done.
Qed.
End loops.

Section functions.
Context (mf : bool) (X : Z → Prop) (HX : mf = true → X 1).

Lemma wp_node_create v (Q : ptr → list ev → hpropI obj) :
  (∀ l, l ↦ ONode (Node v None) -∗ Q (Some l) []) ⊢ wp mf X (node_create v) Q.
Proof.
  iIntros "HQ". unfold node_create.
  iApply (wp_malloc_or_die _ _ _ _ (λ n, store n (Node v NULL) ;;; ret n)); [by eexists|done|].
  iIntros (l) "Hl". wp_run. by iApply "HQ".
Qed.

Lemma wp_list_create (Q : ptr → list ev → hpropI obj) :
  (∀ p, is_list p [] -∗ Q p []) ⊢ wp mf X list_create Q.
Proof.
  iIntros "HQ". unfold list_create.
  iApply (wp_malloc_or_die _ _ _ _ (λ n, store n (List NULL 0) ;;; ret n)); [by eexists|done|].
  iIntros (l) "Hl". wp_run. iApply "HQ". iExists l, None. by iFrame.
Qed.

Lemma wp_list_free p xs (Q : unit → list ev → hpropI obj) :
  is_list p xs -∗ Q tt [] -∗ wp mf X (list_free p) Q.
Proof.
  iIntros "(%l & %hd & -> & Hl & H) HQ". unfold list_free. do 3 wp_step.
  iApply (wp_fuel_lseg with "H"). iIntros (n) "%Hn H". simpl.
  wp_step. iApply (wp_free_chain with "H"); [done|]. wp_run. done.
Qed.

(** [size++] on a header whose size is in range. *)
Lemma wp_add_size l hd n d (Q : unit → list ev → hpropI obj) :
  INT_MIN ≤ n + d ≤ INT_MAX → l ↦ OList (List hd n) -∗
  (l ↦ OList (List hd (n + d)) -∗ Q tt []) -∗ wp mf X (add_size (Some l) d) Q.
Proof. intros Hn. iIntros "Hl HQ". unfold add_size. wp_run. by iApply "HQ". Qed.

Lemma is_list_intro l hd n xs :
  n = Z.of_nat (length xs) → l ↦ OList (List hd n) -∗ lseg hd None xs -∗ is_list (Some l) xs.
Proof. intros ->. iIntros "Hl H". iExists l, hd. by iFrame. Qed.

Lemma wp_load_list p xs (Q : list_hdr → list ev → hpropI obj) :
  is_list p xs -∗
  (∀ hd, is_list p xs -∗ Q (List hd (Z.of_nat (length xs))) []) -∗ wp mf X (load p) Q.
Proof.
  iIntros "(%l & %hd & -> & Hl & H) HQ". wp_step. iApply "HQ".
  by iApply (is_list_intro with "Hl H").
Qed.

Lemma wp_list_push_front p xs v (Q : unit → list ev → hpropI obj) :
  Z.of_nat (length xs) < INT_MAX →
  is_list p xs -∗ (is_list p (v :: xs) -∗ Q tt []) -∗ wp mf X (list_push_front p v) Q.
Proof.
  intros Hlen. iIntros "(%l & %hd & -> & Hl & H) HQ". unfold list_push_front. wp_step.
  iApply wp_node_create. iIntros (c) "Hc". do 6 wp_step. simpl.
  iApply (wp_add_size with "Hl"); [solve_range|]. iIntros "Hl".
  iApply "HQ". iApply (is_list_intro with "Hl"); [simpl; lia|].
  iApply (lseg_cons c with "Hc H").
Qed.

Lemma wp_list_push_back p xs v (Q : unit → list ev → hpropI obj) :
  Z.of_nat (length xs) < INT_MAX →
  is_list p xs -∗ (is_list p (xs ++ [v]) -∗ Q tt []) -∗ wp mf X (list_push_back p v) Q.
Proof.
  intros Hlen. iIntros "(%l & %hd & -> & Hl & H) HQ". unfold list_push_back. wp_step.
  iApply wp_node_create. iIntros (c) "Hc". do 3 wp_step. simpl. destruct hd as [d|].
  - destruct xs as [|x xs]; [iDestruct "H" as %?; discriminate|].
    wp_step. iApply (wp_fuel_lseg with "H"). iIntros (n) "%Hn H". simpl.
    wp_step. iApply (wp_walk_last with "H"); [done|].
    iIntros (e ys y E) "[H (%nx & He & Hn)]". wp_step.
    iDestruct "Hn" as %->. simpl.
    iApply (wp_add_size with "Hl"); [solve_range|]. iIntros "Hl".
    iApply "HQ". iApply (is_list_intro with "Hl"); [simpl; rewrite length_app; simpl; lia|].
    rewrite app_comm_cons E -app_assoc. iApply (cursor_close with "H He").
    iApply (lseg_cons c with "Hc"). done.
  - rewrite lseg_null. iDestruct "H" as %->. wp_step. simpl.
    iApply (wp_add_size with "Hl"); [solve_range|]. iIntros "Hl".
    iApply "HQ". iApply (is_list_intro with "Hl"); [done|].
    iApply (lseg_cons c with "Hc"). done.
Qed.

Lemma wp_list_insert_at p xs i v (Q : unit → list ev → hpropI obj) :
  Z.of_nat (length xs) < INT_MAX → INT_MIN ≤ i ≤ INT_MAX →
  is_list p xs -∗
  (is_list p (take (insert_pos i xs) xs ++ v :: drop (insert_pos i xs) xs) -∗ Q tt []) -∗
  wp mf X (list_insert_at p i v) Q.
Proof.
  intros Hlen Hi. iIntros "(%l & %hd & -> & Hl & H) HQ". unfold list_insert_at.
  do 2 wp_step. simpl. unfold insert_pos.
  destruct (Z.leb_spec i 0); [|case_bool_decide as Hhd]; simpl.
  - iApply (wp_list_push_front with "[Hl H]"); [done|by iApply (is_list_intro with "Hl H")|].
    replace (Z.to_nat i) with 0%nat by lia. done.
  - subst hd. iAssert ⌈xs = []⌉%I with "[H]" as %->; [by iApply lseg_null|].
    iApply (wp_list_push_front with "[Hl H]"); [done|by iApply (is_list_intro with "Hl H")|].
    simpl. rewrite Nat.min_0_r. done.
  - destruct hd as [d|]; [|done]. destruct xs as [|x xs]; [iDestruct "H" as %?; discriminate|].
    wp_step. iApply (wp_fuel_lseg with "H"). iIntros (n) "%Hn H". simpl.
    wp_step. iApply (wp_walk_index with "H"); [done|done|lia|].
    iIntros (e ys y zs E Hys) "[H (%nx & He & Hn)]". wp_step.
    iApply wp_node_create. iIntros (c) "Hc". do 6 wp_step. simpl.
    iApply (wp_add_size with "Hl"); [solve_range|].
    iIntros "Hl". iApply "HQ".
    assert (Nat.min (Z.to_nat i) (S (length xs)) = length (ys ++ [y])) as ->.
    { rewrite length_app Hys. simpl. lia. }
    rewrite E (cons_middle y ys zs) app_assoc take_app_length drop_app_length.
    iApply (is_list_intro with "Hl").
    { apply (f_equal length) in E. rewrite !length_app in E |- *. simpl in *. lia. }
    rewrite -app_assoc. iApply (cursor_close with "H He").
    iApply (lseg_cons c with "Hc Hn").
Qed.

Lemma wp_list_pop_front p xs (Q : Z → list ev → hpropI obj) :
  Z.of_nat (length xs) ≤ INT_MAX → (xs = [] → X 1) →
  is_list p xs -∗ (∀ x xs', ⌈xs = x :: xs'⌉ -∗ is_list p xs' -∗ Q x []) -∗
  wp mf X (list_pop_front p) Q.
Proof.
  intros Hlen H1. iIntros "(%l & %hd & -> & Hl & H) HQ". unfold list_pop_front.
  do 2 wp_step. simpl. destruct hd as [d|].
  - rewrite lseg_some. iDestruct "H" as (x xs' nx ->) "[Hd H]".
    do 7 wp_step. simpl. iApply (wp_add_size with "Hl"); [solve_range|]. iIntros "Hl".
    wp_step. iApply ("HQ" $! x xs'); [done|]. iApply (is_list_intro with "Hl H"). simpl. lia.
  - iAssert ⌈xs = []⌉%I with "[H]" as %->; [by iApply lseg_null|].
    iApply (wp_die with "[-]"); [by eexists|auto|]. iAccu.
Qed.

Lemma wp_list_delete_value p xs v (Q : unit → list ev → hpropI obj) :
  Z.of_nat (length xs) ≤ INT_MAX →
  is_list p xs -∗ (is_list p (remove_first (λ x, x =? v) xs) -∗ Q tt []) -∗
  wp mf X (list_delete_value p v) Q.
Proof.
  intros Hlen. iIntros "(%l & %hd & -> & Hl & H) HQ". unfold list_delete_value.
  do 2 wp_step. simpl. destruct hd as [d|].
  - rewrite lseg_some. iDestruct "H" as (x xs' nx ->) "[Hd H]".
    do 2 wp_step. simpl. destruct (Z.eqb_spec x v) as [->|Hne].
    + wp_step. iApply (wp_list_pop_front with "[Hl Hd H]"); [done|done| |].
      * iApply (is_list_intro with "Hl"); [done|]. iApply (lseg_cons d with "Hd H").
      * iIntros (y ys [= <- <-]) "H". wp_step. by iApply "HQ".
    + iDestruct (lseg_cons d with "Hd H") as "H". wp_step.
      iApply (wp_fuel_lseg with "H"). iIntros (n) "%Hn H". simpl. wp_step.
      iApply (wp_walk_value with "H"); [done|]. iIntros (e ys y zs E Hr) "H".
      iApply (wp_unlink_after with "Hl H"); [solve_range|]. iIntros "Hl H". iApply "HQ".
      assert (x :: remove_first (λ x, x =? v) xs' = ys ++ y :: tail zs) as ->.
      { rewrite Hr. destruct ys; injection E as <- _; done. }
      iApply (is_list_intro with "Hl H").
      apply (f_equal length) in E. rewrite length_app in E. rewrite length_app.
      destruct zs; simpl in *; lia.
  - iAssert ⌈xs = []⌉%I with "[H]" as %->; [by iApply lseg_null|]. wp_step.
    iApply "HQ". by iApply (is_list_intro with "Hl H").
Qed.

Lemma wp_list_delete_at p xs i (Q : unit → list ev → hpropI obj) :
  Z.of_nat (length xs) ≤ INT_MAX → INT_MIN ≤ i ≤ INT_MAX →
  is_list p xs -∗ (is_list p (if i <? 0 then xs else delete (Z.to_nat i) xs) -∗ Q tt []) -∗
  wp mf X (list_delete_at p i) Q.
Proof.
  intros Hlen Hi. iIntros "(%l & %hd & -> & Hl & H) HQ". unfold list_delete_at.
  do 2 wp_step. simpl. case_bool_decide as Hhd; simpl.
  - subst hd. iAssert ⌈xs = []⌉%I with "[H]" as %->; [by iApply lseg_null|]. wp_step.
    iApply "HQ". rewrite delete_past; [|simpl; lia].
    destruct (i <? 0); by iApply (is_list_intro with "Hl H").
  - destruct hd as [d|]; [|done]. destruct xs as [|x xs]; [iDestruct "H" as %?; discriminate|].
    destruct (Z.ltb_spec i 0).
    { wp_step. iApply "HQ". by iApply (is_list_intro with "Hl H"). }
    destruct (Z.eqb_spec i 0) as [->|].
    + wp_step. iApply (wp_list_pop_front with "[Hl H]"); [done|done| |].
      * by iApply (is_list_intro with "Hl H").
      * iIntros (y ys [= <- <-]) "H". wp_step. by iApply "HQ".
    + wp_step. iApply (wp_fuel_lseg with "H"). iIntros (k) "%Hn H". simpl. wp_step.
      iApply (wp_walk_index with "H"); [done|done|lia|]. iIntros (e ys y zs E Hys) "H".
      iApply (wp_unlink_after with "Hl H"); [solve_range|]. iIntros "Hl H". iApply "HQ".
      assert (delete (Z.to_nat i) (x :: xs) = ys ++ y :: tail zs) as ->.
      { rewrite E (cons_middle y ys zs) app_assoc (cons_middle y ys (tail zs)) app_assoc.
        apply (f_equal length) in E. rewrite length_app in E. simpl in E.
        destruct zs as [|z zs]; simpl.
        - rewrite app_nil_r. apply delete_past. rewrite length_app. simpl in *. lia.
        - replace (Z.to_nat i) with (length (ys ++ [y])); [apply delete_middle|].
          rewrite length_app. simpl in *. lia. }
      iApply (is_list_intro with "Hl H").
      apply (f_equal length) in E. rewrite length_app in E. rewrite length_app.
      destruct zs; simpl in *; lia.
Qed.

Lemma wp_list_contains p xs v (Q : Z → list ev → hpropI obj) :
  is_list p xs -∗ (is_list p xs -∗ Q (b2z (existsb (λ x, x =? v) xs)) []) -∗
  wp mf X (list_contains p v) Q.
Proof.
  iIntros "(%l & %hd & -> & Hl & H) HQ". unfold list_contains. do 3 wp_step.
  iApply (wp_fuel_lseg with "H"). iIntros (n) "%Hn H". simpl.
  iApply (wp_find_value with "H"); [done|]. iIntros "H". iApply "HQ".
  by iApply (is_list_intro with "Hl H").
Qed.

(** A negative index reads the head, like index 0. *)
Lemma wp_list_get p xs i (Q : Z → list ev → hpropI obj) :
  (xs !! Z.to_nat i = None → X 1) →
  is_list p xs -∗ (∀ x, ⌈xs !! Z.to_nat i = Some x⌉ -∗ is_list p xs -∗ Q x []) -∗
  wp mf X (list_get p i) Q.
Proof.
  intros H1. iIntros "(%l & %hd & -> & Hl & H) HQ". unfold list_get. do 3 wp_step.
  iApply (wp_fuel_lseg with "H"). iIntros (n) "%Hn H". simpl. wp_step.
  iApply (wp_walk_get with "H"); [done|lia|]. iIntros (ys zs q -> Hys) "Hy Hz". simpl.
  rewrite Z.sub_0_r in Hys. rewrite length_app in Hys. destruct q as [d|].
  - rewrite lseg_some. iDestruct "Hz" as (x zs' nx ->) "[Hd Hz]".
    wp_run. simpl. iApply ("HQ" $! x).
    + iPureIntro. rewrite lookup_app_r; [|simpl in *; lia].
      replace (Z.to_nat i - length ys)%nat with 0%nat by (simpl in *; lia). done.
    + iApply (is_list_intro with "Hl"); [done|]. iApply (cursor_close with "Hy Hd Hz").
  - iAssert ⌈zs = []⌉%I with "[Hz]" as %->; [by iApply lseg_null|].
    iApply (wp_die with "[-]"); [by eexists| |iAccu].
    apply H1, lookup_ge_None_2. rewrite length_app. simpl in *. lia.
Qed.

Lemma wp_list_print p xs (Q : unit → list ev → hpropI obj) :
  is_list p xs -∗
  (∀ o, ⌈stdout o = list_text xs⌉ -∗ ⌈stderr o = ""%string⌉ -∗ is_list p xs -∗ Q tt o) -∗
  wp mf X (list_print p) Q.
Proof.
  iIntros "(%l & %hd & -> & Hl & H) HQ". unfold list_print. do 5 wp_step.
  iApply (wp_fuel_lseg with "H"). iIntros (n) "%Hn H". simpl. wp_step.
  iApply (wp_print_nodes with "H"); [done|done|]. iIntros (o Ho He) "H". wp_step.
  iApply ("HQ" with "[] []"); [| |by iApply (is_list_intro with "Hl H")]; iPureIntro.
  - simpl. rewrite stdout_app Ho. simpl. unfold list_text. rewrite fmt_signed_plain.
    str_norm. done.
  - simpl. by rewrite stderr_app He.
Qed.

Lemma wp_list_reverse p xs (Q : unit → list ev → hpropI obj) :
  is_list p xs -∗ (is_list p (reverse xs) -∗ Q tt []) -∗ wp mf X (list_reverse p) Q.
Proof.
  iIntros "(%l & %hd & -> & Hl & H) HQ". unfold list_reverse. do 3 wp_step.
  iApply (wp_fuel_lseg with "H"). iIntros (n) "%Hn H". simpl. wp_step.
  iApply (wp_reverse_chain _ _ _ _ _ _ [] with "[] H"); [done|done|].
  iIntros (q) "H". wp_step. simpl. iApply "HQ". rewrite app_nil_r.
  iApply (is_list_intro with "Hl H"). by rewrite length_reverse.
Qed.
End functions.

(** ** Refinement: the API on the heap implements the operations on lists *)

Lemma spec_op_length o xs r xs' t :
  spec_op o xs = Some (r, xs', t) → (length xs' ≤ S (length xs))%nat.
Proof.
  destruct o; simpl; intros H; simplify_eq; simpl; rewrite ?length_app ?length_reverse; simpl; try lia.
  - rewrite length_take length_drop. lia.
  - destruct xs; simplify_eq. simpl. lia.
  - etrans; [apply remove_first_length_le|]. lia.
  - destruct (i <? 0); [lia|]. destruct (decide (Z.to_nat i < length xs)%nat).
    + rewrite length_delete; [lia|]. by apply lookup_lt_is_Some.
    + rewrite delete_past; lia.
  - destruct (xs !! _); simplify_eq. lia.
Qed.

(** [n] more operations keep [size] inside [int]. *)
Definition room (n : nat) (xs : list Z) : Prop := Z.of_nat (length xs + n) ≤ INT_MAX.

#[export] Instance list_implements mf X p : (mf = true → X 1) →
  Implements mf X spec_op (run_op p) (is_list p) int_args room.
Proof.
  intros HX. split.
  { unfold room. intros n o xs r xs' t Hr E%spec_op_length. lia. }
  unfold room. intros n o xs Q Hi Hlen H1. iIntros "H HQ".
  destruct o; simpl in *; wp_step.
  - iApply (wp_list_push_front with "H"); [done|lia|]. iIntros "H". wp_step. by iApply "HQ".
  - iApply (wp_list_push_back with "H"); [done|lia|]. iIntros "H". wp_step. by iApply "HQ".
  - iApply (wp_list_insert_at with "H"); [done|lia|done|]. iIntros "H". wp_step. by iApply "HQ".
  - iApply (wp_list_pop_front with "H"); [lia|by intros ->; auto|].
    iIntros (x xs' ->) "H". wp_step. by iApply "HQ".
  - iApply (wp_list_delete_value with "H"); [lia|]. iIntros "H". wp_step. by iApply "HQ".
  - iApply (wp_list_delete_at with "H"); [lia|done|]. iIntros "H". wp_step. by iApply "HQ".
  - iApply (wp_list_contains with "H"). iIntros "H". wp_step. by iApply "HQ".
  - iApply (wp_list_get with "H"); [by intros E; rewrite E in H1; auto|].
    iIntros (x E) "H". wp_step. rewrite E. by iApply "HQ".
  - iApply (wp_list_print with "H"). iIntros (e Ho He) "H". wp_step. rewrite app_nil_r.
    by iApply "HQ".
  - iApply (wp_list_reverse with "H"). iIntros "H". wp_step. by iApply "HQ".
Qed.

Lemma wp_list_session mf X ops :
  (mf = true → X 1) → Forall int_args ops → Z.of_nat (length ops) ≤ INT_MAX →
  (spec_run spec_op ops [] = None → X 1) →
  ⊢ wp mf X (session ops) (λ rs e,
      ⌈∃ xs, spec_run spec_op ops [] = Some (rs, xs, stdout e) ∧ stderr e = ""%string⌉).
Proof.
  intros HX Hi Hlen H1. unfold session. wp_step. iApply (wp_list_create _ _ HX).
  iIntros (p) "H". wp_step. pose proof (list_implements mf X p HX).
  iApply (wp_run_ops with "H"); [done|done|done|].
  iIntros (rs xs e E Hs) "H". wp_step. iApply (wp_list_free with "H"). wp_step.
  iPureIntro. exists xs. by rewrite !app_nil_r.
Qed.

(** ** The program *)

(** What [main] prints, as the comments of the source announce it. *)
Definition main_text : string := esc (concat_str [
  "=== push_back / push_front ===\n";
  "size=3  [10 -> 20 -> 30]\n";
  "size=4  [5 -> 10 -> 20 -> 30]\n";
  "\n=== insert_at ===\n";
  "size=5  [5 -> 10 -> 15 -> 20 -> 30]\n";
  "size=6  [1 -> 5 -> 10 -> 15 -> 20 -> 30]\n";
  "\n=== get / contains ===\n";
  "get(0)         = 1\n"; "get(3)         = 15\n";
  "contains(15)   = 1\n"; "contains(99)   = 0\n"; "size           = 6\n";
  "\n=== pop_front ===\n";
  "popped 1\n";
  "size=5  [5 -> 10 -> 15 -> 20 -> 30]\n";
  "\n=== delete_value ===\n";
  "size=4  [5 -> 10 -> 20 -> 30]\n";
  "size=3  [10 -> 20 -> 30]\n";
  "size=2  [10 -> 20]\n";
  "size=2  [10 -> 20]\n";
  "\n=== delete_at ===\n";
  "size=4  [10 -> 20 -> 30 -> 40]\n";
  "size=3  [10 -> 30 -> 40]\n";
  "\n=== reverse ===\n";
  "size=5  [10 -> 30 -> 40 -> 50 -> 60]\n";
  "size=5  [60 -> 50 -> 40 -> 30 -> 10]\n"]%string).

(** One call of the API, by its specification. *)
#[local] Ltac call_step HX :=
  lazymatch goal with
  | |- environments.envs_entails _ (wp _ _ ?m _) =>
      lazymatch m with
      | list_create => iApply (wp_list_create _ _ HX); iIntros (?) "H"
      | list_push_back _ _ => iApply (wp_list_push_back _ _ HX with "H"); [done|]; iIntros "H"
      | list_push_front _ _ => iApply (wp_list_push_front _ _ HX with "H"); [done|]; iIntros "H"
      | list_insert_at _ _ _ => iApply (wp_list_insert_at _ _ HX with "H"); [done|done|]; iIntros "H"
      | list_get _ _ => iApply (wp_list_get with "H"); [done|]; iIntros (? [= <-]) "H"
      | list_contains _ _ => iApply (wp_list_contains with "H"); iIntros "H"
      | list_pop_front _ => iApply (wp_list_pop_front with "H"); [done|done|]; iIntros (?? [= <- <-]) "H"
      | list_delete_value _ _ => iApply (wp_list_delete_value with "H"); [done|]; iIntros "H"
      | list_delete_at _ _ => iApply (wp_list_delete_at with "H"); [done|done|]; iIntros "H"
      | list_print _ => iApply (wp_list_print with "H"); iIntros (???) "H"
      | list_reverse _ => iApply (wp_list_reverse with "H"); iIntros "H"
      | list_free _ => iApply (wp_list_free with "H")
      | load _ => iApply (wp_load_list with "H"); iIntros (?) "H"
      end
  end.

Lemma wp_list_main mf X : (mf = true → X 1) → ⊢ wp mf X main (λ r e, ⌈r = 0 ∧ stdout e = main_text⌉).
Proof.
  intros HX. unfold main. repeat first [wp_step|call_step HX].
  iPureIntro. split; [done|]. rewrite ?stdout_app /= ?stdout_app.
  repeat match goal with H : stdout _ = _ |- _ => rewrite H; clear H end.
  vm_compute. reflexivity.
Qed.
(** C1.  Refinement.  Whatever sequence of operations a client performs on a
    list, for every behaviour of the allocator: no operation has undefined
    behaviour and every loop terminates; the results and what is printed are those
    of the same operations on a mathematical list ([spec_run]); after [list_free]
    the heap is empty; and the program exits (with status 1) only when an
    allocation fails or when the specification says so (a pop of the empty list, a
    [list_get] out of range).  The bound on the number of operations keeps [size]
    inside [int]. *)
Theorem list_session_refines (ops : list op) :
  Forall int_args ops → Z.of_nat (length ops) ≤ INT_MAX →
  runs (session ops)
    (λ rs e, ∃ xs, spec_run spec_op ops [] = Some (rs, xs, stdout e) ∧ stderr e = ""%string)
    (spec_run spec_op ops [] = None).
Proof. intros Hi Hlen. apply wp_runs. intros mf X HX H1. by apply wp_list_session. Qed.

Lemma list_session_refines_witness :
  runs (session [PushBack 1; PushFront (-5); InsertAt 9 7; DeleteValue 1; Reverse; Get 0; Print])
    (λ rs e, ∃ xs, spec_run spec_op [PushBack 1; PushFront (-5); InsertAt 9 7; DeleteValue 1; Reverse; Get 0; Print] []
        = Some (rs, xs, stdout e) ∧ stderr e = ""%string)
    (spec_run spec_op [PushBack 1; PushFront (-5); InsertAt 9 7; DeleteValue 1; Reverse; Get 0; Print] [] = None).
Proof. apply (list_session_refines [_; _; _; _; _; _; _]); [repeat constructor; done|done]. Defined.

(** [main] of the linked list exercise, for every behaviour of the
    allocator: unless an allocation fails it returns 0, having printed exactly the
    lists its comments announce, and nothing is left on the heap. *)
Theorem list_main_correct : runs main (λ r e, r = 0 ∧ stdout e = main_text) False.
Proof. apply wp_runs. intros mf X HX _. by apply wp_list_main. Qed.
