(* ===== verification/StackQueue.v ===== *)
(** * Exercise 16: stack and queue

    Model of [exercises/16_stack_and_queue/stack_queue.c]: both structures on a
    heap of nodes, the bracket checker, the breadth-first traversal and [main]. *)

From S2P Require Import Prelude Machine CString Double Printf SepLogic Session NodeChain.

(** ** Data *)

Record stack := Stack { s_top : ptr; s_size : Z }.
Record queue := Queue { q_head : ptr; q_tail : ptr; q_size : Z }.

Definition set_top (p : ptr) (s : stack) : stack := Stack p (s_size s).
Definition set_ssize (n : Z) (s : stack) : stack := Stack (s_top s) n.
Definition set_qhead (p : ptr) (q : queue) : queue := Queue p (q_tail q) (q_size q).
Definition set_qtail (p : ptr) (q : queue) : queue := Queue (q_head q) p (q_size q).
Definition set_qsize (n : Z) (q : queue) : queue := Queue (q_head q) (q_tail q) n.

Inductive obj := Raw | ONode (n : node) | OStack (s : stack) | OQueue (q : queue).

#[export] Instance obj_node : HasNode obj :=
  {| to_obj := ONode; of_obj o := match o with ONode n => Some n | _ => None end;
     of_to_obj _ := eq_refl |}.
#[export] Instance obj_stack : Prism obj stack :=
  {| to_obj := OStack; of_obj o := match o with OStack s => Some s | _ => None end;
     of_to_obj _ := eq_refl |}.
#[export] Instance obj_queue : Prism obj queue :=
  {| to_obj := OQueue; of_obj o := match o with OQueue q => Some q | _ => None end;
     of_to_obj _ := eq_refl |}.

Definition node_new (value : Z) : M obj ptr :=
  n <- malloc Raw ;;
  match n with
  | None => die "malloc failed\n"
  | Some _ => store n (Node value NULL) ;;; ret n
  end.

(** ** The stack *)

(** [s->size++] and [s->size--]. *)
Definition add_ssize (s : ptr) (d : Z) : M obj unit :=
  t <- load s ;; n <- int_chk (s_size t + d) ;; update s (set_ssize n).

(** [calloc]: the struct is zero. *)
Definition stack_create : M obj ptr :=
  s <- malloc (OStack (Stack NULL 0)) ;;
  match s with
  | None => die "calloc failed\n"
  | Some _ => ret s
  end.

Definition stack_is_empty (s : ptr) : M obj Z := t <- load s ;; ret (b2z (s_size t =? 0)).

Definition stack_push (s : ptr) (value : Z) : M obj unit :=
  n <- node_new value ;;
  t <- load s ;;
  update n (set_next (s_top t)) ;;;
  update s (set_top n) ;;;
  add_ssize s 1.

Definition stack_pop (s : ptr) : M obj Z :=
  e <- stack_is_empty s ;;
  if negb (e =? 0) then die "pop on empty stack\n"
  else
    t <- load s ;;
    let old := s_top t in
    o <- load old ;;
    let val := n_value o in
    update s (set_top (n_next o)) ;;;
    free old ;;;
    add_ssize s (-1) ;;;
    ret val.

Definition stack_peek (s : ptr) : M obj Z :=
  e <- stack_is_empty s ;;
  if negb (e =? 0) then die "peek on empty stack\n"
  else t <- load s ;; n <- load (s_top t) ;; ret (n_value n).

Definition stack_print (s : ptr) : M obj unit :=
  printf "top[" [] ;;;
  t <- load s ;;
  fuel <- heap_fuel ;;
  print_nodes ", " fuel (s_top t) ;;;
  t <- load s ;;
  printf "]  size=%d\n" [AInt (s_size t)].

(** [while (!stack_is_empty(s)) stack_pop(s);] *)
Definition stack_drain (fuel : nat) (s : ptr) : M obj unit :=
  loop fuel (λ _ : unit,
    e <- stack_is_empty s ;;
    if e =? 0 then stack_pop s ;;; ret (inl tt) else ret (inr tt)) tt.

Definition stack_free (s : ptr) : M obj unit :=
  fuel <- heap_fuel ;;
  stack_drain fuel s ;;;
  free s.

(** ** The queue *)

Definition add_qsize (q : ptr) (d : Z) : M obj unit :=
  t <- load q ;; n <- int_chk (q_size t + d) ;; update q (set_qsize n).

Definition queue_create : M obj ptr :=
  q <- malloc (OQueue (Queue NULL NULL 0)) ;;
  match q with
  | None => die "calloc failed\n"
  | Some _ => ret q
  end.

Definition queue_is_empty (q : ptr) : M obj Z := t <- load q ;; ret (b2z (q_size t =? 0)).

Definition queue_enqueue (q : ptr) (value : Z) : M obj unit :=
  n <- node_new value ;;
  t <- load q ;;
  match q_tail t with
  | Some _ => update (q_tail t) (set_next n)
  | None => update q (set_qhead n)
  end ;;;
  update q (set_qtail n) ;;;
  add_qsize q 1.

Definition queue_dequeue (q : ptr) : M obj Z :=
  e <- queue_is_empty q ;;
  if negb (e =? 0) then die "dequeue on empty queue\n"
  else
    t <- load q ;;
    let old := q_head t in
    o <- load old ;;
    let val := n_value o in
    update q (set_qhead (n_next o)) ;;;
    t <- load q ;;
    match q_head t with
    | None => update q (set_qtail NULL)
    | Some _ => ret tt
    end ;;;
    free old ;;;
    add_qsize q (-1) ;;;
    ret val.

Definition queue_peek (q : ptr) : M obj Z :=
  e <- queue_is_empty q ;;
  if negb (e =? 0) then die "peek on empty queue\n"
  else t <- load q ;; n <- load (q_head t) ;; ret (n_value n).

Definition queue_print (q : ptr) : M obj unit :=
  printf "head[" [] ;;;
  t <- load q ;;
  fuel <- heap_fuel ;;
  print_nodes ", " fuel (q_head t) ;;;
  t <- load q ;;
  printf "]tail  size=%d\n" [AInt (q_size t)].

(** [while (!queue_is_empty(q)) queue_dequeue(q);] *)
Definition queue_drain (fuel : nat) (q : ptr) : M obj unit :=
  loop fuel (λ _ : unit,
    e <- queue_is_empty q ;;
    if e =? 0 then queue_dequeue q ;;; ret (inl tt) else ret (inr tt)) tt.

Definition queue_free (q : ptr) : M obj unit :=
  fuel <- heap_fuel ;;
  queue_drain fuel q ;;;
  free q.

(** ** Bracket balancing

    The local array [char stk[256]] is a map from indices to characters, without
    the elements not yet written; the result is [None] for an access outside the
    array or to such an element. *)

Definition is_open (c : ascii) : bool :=
  Ascii.eqb c "(" || Ascii.eqb c "[" || Ascii.eqb c "{".
Definition is_close (c : ascii) : bool :=
  Ascii.eqb c ")" || Ascii.eqb c "]" || Ascii.eqb c "}".

(** The mismatch test on a closer [c] and the opener it meets. *)
Definition mismatch (c open : ascii) : bool :=
  (Ascii.eqb c ")" && negb (Ascii.eqb open "(")) ||
  (Ascii.eqb c "]" && negb (Ascii.eqb open "[")) ||
  (Ascii.eqb c "}" && negb (Ascii.eqb open "{")).

Definition stk_write (stk : gmap Z ascii) (i : Z) (c : ascii) : option (gmap Z ascii) :=
  if (0 <=? i) && (i <? 256) then Some (<[i := c]> stk) else None.

Fixpoint balance_loop (s : string) (top : Z) (stk : gmap Z ascii) : option Z :=
  match s with
  | EmptyString => Some (b2z (top =? -1))
  | String c s' =>
      if is_open c then
        if 255 <=? top then Some 0
        else stk' ← stk_write stk (top + 1) c; balance_loop s' (top + 1) stk'
      else if is_close c then
        if top <? 0 then Some 0
        else
          open ← stk !! top;
          if mismatch c open then Some 0 else balance_loop s' (top - 1) stk
      else balance_loop s' top stk
  end.

Definition brackets_balanced (s : string) : option Z := balance_loop s (-1) ∅.

(** ** Breadth-first order

    One iteration of the loop; the loop state is [(level, in_level, printed)]. *)
Definition bfs_body (n : Z) (q : ptr) (st : Z * Z * Z) : M obj (Z * Z * Z + unit) :=
  let '(level, in_level, printed) := st in
  e <- queue_is_empty q ;;
  if negb (e =? 0) then ret (inr tt)
  else
    node <- queue_dequeue q ;;
    printf "%d " [AInt node] ;;;
    printed <- int_chk (printed + 1) ;;
    left <- int_chk (2 * node) ;;
    right <- int_chk (2 * node + 1) ;;
    (if left <=? n then queue_enqueue q left else ret tt) ;;;
    (if right <=? n then queue_enqueue q right else ret tt) ;;;
    e <- (if printed =? in_level then queue_is_empty q else ret 1) ;;
    if e =? 0 then
      t <- load q ;;
      level <- int_chk (level + 1) ;;
      printf "\nlevel %d: " [AInt level] ;;;
      ret (inl (level, q_size t, 0))
    else ret (inl (level, in_level, printed)).

(** The loop visits each node once: [n] iterations, one when [n < 1], and the last
    test. *)
Definition bfs_order (n : Z) : M obj unit :=
  q <- queue_create ;;
  queue_enqueue q 1 ;;;
  printf "level %d: " [AInt 0] ;;;
  loop (S (S (Z.to_nat n))) (bfs_body n q) (0, 1, 0) ;;;
  printf "\n" [] ;;;
  queue_free q.

(** ** [main] *)

Definition main_stack : M obj unit :=
  printf "=== Stack (LIFO) ===\n" [] ;;;
  s <- stack_create ;;
  e <- stack_is_empty s ;;
  printf "empty? %d\n" [AInt e] ;;;
  for_range 1 6 (λ i _,
    stack_push s (i * 10) ;;;
    printf "push %d  → " [AInt (i * 10)] ;;;
    stack_print s) tt ;;;
  p <- stack_peek s ;;
  printf "peek   = %d\n" [AInt p] ;;;
  fuel <- heap_fuel ;;
  loop fuel (λ _ : unit,
    e <- stack_is_empty s ;;
    if e =? 0 then
      v <- stack_pop s ;;
      printf "pop    = %d  → " [AInt v] ;;;
      stack_print s ;;;
      ret (inl tt)
    else ret (inr tt)) tt ;;;
  e <- stack_is_empty s ;;
  printf "empty? %d\n" [AInt e] ;;;
  stack_free s.

Definition main_queue : M obj unit :=
  printf "\n=== Queue (FIFO) ===\n" [] ;;;
  q <- queue_create ;;
  e <- queue_is_empty q ;;
  printf "empty? %d\n" [AInt e] ;;;
  for_range 1 6 (λ i _,
    queue_enqueue q (i * 10) ;;;
    printf "enqueue %d  → " [AInt (i * 10)] ;;;
    queue_print q) tt ;;;
  p <- queue_peek q ;;
  printf "peek   = %d\n" [AInt p] ;;;
  fuel <- heap_fuel ;;
  loop fuel (λ _ : unit,
    e <- queue_is_empty q ;;
    if e =? 0 then
      v <- queue_dequeue q ;;
      printf "dequeue = %d  → " [AInt v] ;;;
      queue_print q ;;;
      ret (inl tt)
    else ret (inr tt)) tt ;;;
  e <- queue_is_empty q ;;
  printf "empty? %d\n" [AInt e] ;;;
  queue_free q.

Definition exprs : list string :=
  ["(a + b) * (c - d)"; "{[()]}"; "([)]"; "((("; ""; "no brackets at all"]%string.

Definition main : M obj Z :=
  main_stack ;;;
  main_queue ;;;
  printf "\n=== Application: bracket balancing ===\n" [] ;;;
  for_list exprs (λ s _,
    match brackets_balanced s with
    | Some r =>
        printf "  %-26s  %s\n" [AStr s; AStr (if r =? 0 then "UNBALANCED" else "balanced")]
    | None => undefined
    end) tt ;;;
  printf "\n=== Application: BFS level-order (complete binary tree, n=7) ===\n" [] ;;;
  bfs_order 7 ;;;
  ret 0.

(** ** The specification: a stack and a queue are lists *)

Inductive op :=
  | Push (v : Z) | Pop | SPeek | SEmpty | SPrint
  | Enqueue (v : Z) | Dequeue | QPeek | QEmpty | QPrint.

Definition stack_text (xs : list Z) : string :=
  ("top[" +:+ join_str ", " (map int_str xs) +:+ "]  size=" +:+
   int_str (Z.of_nat (length xs)) +:+ String nl "")%string.
Definition queue_text (ys : list Z) : string :=
  ("head[" +:+ join_str ", " (map int_str ys) +:+ "]tail  size=" +:+
   int_str (Z.of_nat (length ys)) +:+ String nl "")%string.

Definition is_nil {A} (l : list A) : Z := match l with [] => 1 | _ => 0 end.

(** The stack from the top, the queue from the head. *)
Definition spec_op (o : op) (st : list Z * list Z) : option (option Z * (list Z * list Z) * string) :=
  let '(xs, ys) := st in
  match o with
  | Push v => Some (None, (v :: xs, ys), ""%string)
  | Pop => match xs with x :: xs' => Some (Some x, (xs', ys), ""%string) | [] => None end
  | SPeek => match xs with x :: _ => Some (Some x, st, ""%string) | [] => None end
  | SEmpty => Some (Some (is_nil xs), st, ""%string)
  | SPrint => Some (None, st, stack_text xs)
  | Enqueue v => Some (None, (xs, ys ++ [v]), ""%string)
  | Dequeue => match ys with y :: ys' => Some (Some y, (xs, ys'), ""%string) | [] => None end
  | QPeek => match ys with y :: _ => Some (Some y, st, ""%string) | [] => None end
  | QEmpty => Some (Some (is_nil ys), st, ""%string)
  | QPrint => Some (None, st, queue_text ys)
  end.

Definition run_op (s q : ptr) (o : op) : M obj (option Z) :=
  match o with
  | Push v => stack_push s v ;;; ret None
  | Pop => r <- stack_pop s ;; ret (Some r)
  | SPeek => r <- stack_peek s ;; ret (Some r)
  | SEmpty => r <- stack_is_empty s ;; ret (Some r)
  | SPrint => stack_print s ;;; ret None
  | Enqueue v => queue_enqueue q v ;;; ret None
  | Dequeue => r <- queue_dequeue q ;; ret (Some r)
  | QPeek => r <- queue_peek q ;; ret (Some r)
  | QEmpty => r <- queue_is_empty q ;; ret (Some r)
  | QPrint => queue_print q ;;; ret None
  end.

(** A client with a stack and a queue, which it frees at the end. *)
Definition session (ops : list op) : M obj (list (option Z)) :=
  s <- stack_create ;; q <- queue_create ;;
  rs <- run_ops (run_op s q) ops ;;
  stack_free s ;;; queue_free q ;;; ret rs.

(** ** Representation *)

Definition is_stack (p : ptr) (xs : list Z) : hpropI obj :=
  ∃ l hd, ⌈p = Some l⌉ ∗ l ↦ OStack (Stack hd (Z.of_nat (length xs))) ∗ lseg hd None xs.

(** The tail pointer is the last node of the chain. *)
Definition is_queue (p : ptr) (ys : list Z) : hpropI obj :=
  ∃ l hd tl, ⌈p = Some l⌉ ∗ l ↦ OQueue (Queue hd tl (Z.of_nat (length ys))) ∗ chain hd tl ys.

Section functions.
Context (mf : bool) (X : Z → Prop).

Lemma is_stack_intro l hd n xs :
  n = Z.of_nat (length xs) → l ↦ OStack (Stack hd n) -∗ lseg hd None xs -∗ is_stack (Some l) xs.
Proof. intros ->. iIntros "Hl H". iExists l, hd. by iFrame. Qed.

Lemma is_queue_intro l hd tl n xs :
  n = Z.of_nat (length xs) → l ↦ OQueue (Queue hd tl n) -∗ chain hd tl xs -∗ is_queue (Some l) xs.
Proof. intros ->. iIntros "Hl H". iExists l, hd, tl. by iFrame. Qed.

Lemma lseg_node l x nx xs :
  l ↦ ONode (Node x nx) -∗ lseg nx None xs -∗ lseg (Some l) None (x :: xs).
Proof. exact (lseg_cons_intro l x nx None xs). Qed.

Lemma wp_node_new v (Q : ptr → list ev → hpropI obj) :
  (mf = true → X 1) →
  (∀ l, l ↦ ONode (Node v None) -∗ Q (Some l) []) ⊢ wp mf X (node_new v) Q.
Proof.
  intros HX. iIntros "HQ". unfold node_new.
  iApply (wp_malloc_or_die _ _ _ _ (λ n, store n (Node v NULL) ;;; ret n)); [by eexists|done|].
  iIntros (l) "Hl". wp_run. by iApply "HQ".
Qed.

Lemma wp_stack_create (Q : ptr → list ev → hpropI obj) :
  (mf = true → X 1) → (∀ p, is_stack p [] -∗ Q p []) ⊢ wp mf X stack_create Q.
Proof.
  intros HX. iIntros "HQ". unfold stack_create.
  iApply (wp_malloc_or_die _ _ _ _ (λ n, ret n)); [by eexists|done|].
  iIntros (l) "Hl". wp_run. iApply "HQ". by iApply (is_stack_intro with "Hl").
Qed.

Lemma wp_queue_create (Q : ptr → list ev → hpropI obj) :
  (mf = true → X 1) → (∀ p, is_queue p [] -∗ Q p []) ⊢ wp mf X queue_create Q.
Proof.
  intros HX. iIntros "HQ". unfold queue_create.
  iApply (wp_malloc_or_die _ _ _ _ (λ n, ret n)); [by eexists|done|].
  iIntros (l) "Hl". wp_run. iApply "HQ". by iApply (is_queue_intro with "Hl").
Qed.

Lemma size_is_nil {A} (xs : list A) : b2z (Z.of_nat (length xs) =? 0) = is_nil xs.
Proof. by destruct xs. Qed.

Lemma wp_stack_is_empty p xs (Q : Z → list ev → hpropI obj) :
  is_stack p xs -∗ (is_stack p xs -∗ Q (is_nil xs) []) -∗ wp mf X (stack_is_empty p) Q.
Proof.
  iIntros "(%l & %hd & -> & Hl & H) HQ". unfold stack_is_empty. wp_run. simpl.
  rewrite size_is_nil. iApply "HQ". by iApply (is_stack_intro with "Hl").
Qed.

Lemma wp_queue_is_empty p xs (Q : Z → list ev → hpropI obj) :
  is_queue p xs -∗ (is_queue p xs -∗ Q (is_nil xs) []) -∗ wp mf X (queue_is_empty p) Q.
Proof.
  iIntros "(%l & %hd & %tl & -> & Hl & H) HQ". unfold queue_is_empty. wp_run. simpl.
  rewrite size_is_nil. iApply "HQ". by iApply (is_queue_intro with "Hl").
Qed.

Lemma wp_stack_push p xs v (Q : unit → list ev → hpropI obj) :
  (mf = true → X 1) → Z.of_nat (length xs) < INT_MAX →
  is_stack p xs -∗ (is_stack p (v :: xs) -∗ Q tt []) -∗ wp mf X (stack_push p v) Q.
Proof.
  intros HX Hlen. iIntros "(%l & %hd & -> & Hl & H) HQ". unfold stack_push, add_ssize. wp_step.
  iApply (wp_node_new _ _ HX). iIntros (c) "Hc". wp_run. simpl.
  iApply "HQ". iApply (is_stack_intro with "Hl"); [simpl; lia|].
  iApply (lseg_node c with "Hc H").
Qed.

Lemma wp_stack_pop p xs (Q : Z → list ev → hpropI obj) :
  Z.of_nat (length xs) ≤ INT_MAX → (xs = [] → X 1) →
  is_stack p xs -∗ (∀ x xs', ⌈xs = x :: xs'⌉ -∗ is_stack p xs' -∗ Q x []) -∗
  wp mf X (stack_pop p) Q.
Proof.
  intros Hlen H1. iIntros "H HQ". unfold stack_pop, add_ssize. wp_step.
  iApply (wp_stack_is_empty with "H"). iIntros "(%l & %hd & -> & Hl & H)".
  destruct xs as [|x xs]; simpl.
  { iApply (wp_die with "[-]"); [by eexists|auto|iAccu]. }
  iDestruct "H" as (d nx ->) "[Hd H]". wp_run. simpl. iApply ("HQ" $! x xs); [done|].
  iApply (is_stack_intro with "Hl H"). simpl. lia.
Qed.

Lemma wp_stack_peek p xs (Q : Z → list ev → hpropI obj) :
  (xs = [] → X 1) →
  is_stack p xs -∗ (∀ x xs', ⌈xs = x :: xs'⌉ -∗ is_stack p xs -∗ Q x []) -∗
  wp mf X (stack_peek p) Q.
Proof.
  intros H1. iIntros "H HQ". unfold stack_peek. wp_step.
  iApply (wp_stack_is_empty with "H"). iIntros "(%l & %hd & -> & Hl & H)".
  destruct xs as [|x xs]; simpl.
  { iApply (wp_die with "[-]"); [by eexists|auto|iAccu]. }
  iDestruct "H" as (d nx ->) "[Hd H]". wp_run. simpl. iApply ("HQ" $! x xs); [done|].
  iApply (is_stack_intro with "Hl"); [done|]. iApply (lseg_node d with "Hd H").
Qed.

Lemma wp_stack_print p xs (Q : unit → list ev → hpropI obj) :
  is_stack p xs -∗
  (∀ o, ⌈stdout o = stack_text xs⌉ -∗ ⌈stderr o = ""%string⌉ -∗ is_stack p xs -∗ Q tt o) -∗
  wp mf X (stack_print p) Q.
Proof.
  iIntros "(%l & %hd & -> & Hl & H) HQ". unfold stack_print. do 5 wp_step.
  iApply (wp_fuel_lseg with "H"). iIntros (n) "%Hn H". simpl. wp_step.
  iApply (wp_print_nodes with "H"); [done|done|]. iIntros (o Ho He) "H". wp_run. simpl.
  iApply ("HQ" with "[] []"); [| |by iApply (is_stack_intro with "Hl H")]; iPureIntro.
  - simpl. rewrite stdout_app Ho. simpl. unfold stack_text. rewrite fmt_signed_plain. by str_norm.
  - simpl. by rewrite stderr_app He.
Qed.

(** The loop that empties the stack. *)
Lemma wp_stack_drain n p xs (Q : unit → list ev → hpropI obj) :
  (length xs < n)%nat → Z.of_nat (length xs) ≤ INT_MAX →
  is_stack p xs -∗ (is_stack p [] -∗ Q tt []) -∗ wp mf X (stack_drain n p) Q.
Proof.
  revert xs. induction n as [|n IH]; intros xs Hn Hlen; [lia|]. unfold stack_drain.
  iIntros "H HQ". iApply wp_loop. wp_step. iApply (wp_stack_is_empty with "H"). iIntros "H".
  destruct xs as [|x xs]; simpl.
  - wp_step. by iApply "HQ".
  - wp_step. iApply (wp_stack_pop with "H"); [done|done|]. iIntros (y ys [= <- <-]) "H".
    wp_step. iApply (IH with "H HQ"); simpl in *; lia.
Qed.

(** The representation has at least one object for each element and the header. *)
Lemma wp_stack_free p xs (Q : unit → list ev → hpropI obj) :
  Z.of_nat (length xs) ≤ INT_MAX → is_stack p xs -∗ Q tt [] -∗ wp mf X (stack_free p) Q.
Proof.
  intros Hlen. iIntros "(%l & %hd & -> & Hl & H) HQ". unfold stack_free. wp_step.
  iApply (wp_fuel_lseg with "H"). iIntros (n) "%Hn H". wp_step.
  iApply (wp_stack_drain _ _ xs with "[Hl H]"); [done|done|by iApply (is_stack_intro with "Hl H")|].
  iIntros "(% & % & %E & Hl & ->)". injection E as <-. wp_run. done.
Qed.

Lemma wp_queue_enqueue p xs v (Q : unit → list ev → hpropI obj) :
  (mf = true → X 1) → Z.of_nat (length xs) < INT_MAX →
  is_queue p xs -∗ (is_queue p (xs ++ [v]) -∗ Q tt []) -∗ wp mf X (queue_enqueue p v) Q.
Proof.
  intros HX Hlen. iIntros "(%l & %hd & %tl & -> & Hl & H) HQ". unfold queue_enqueue, add_qsize.
  wp_step. iApply (wp_node_new _ _ HX). iIntros (c) "Hc". do 3 wp_step. simpl. destruct tl as [t|].
  - iDestruct (bi.equiv_entails_1_1 _ _ (chain_tail _ _ _) with "H") as (ys y ->) "[H Ht]".
    rewrite length_app in Hlen |- *. wp_run. simpl. iApply "HQ".
    iApply (is_queue_intro with "Hl"); [rewrite !length_app; simpl; lia|].
    iApply (bi.equiv_entails_1_2 _ _ (chain_tail _ _ _)). iExists (ys ++ [y]), v. iFrame "Hc".
    iSplitR; [done|]. iApply (lseg_snoc_intro with "H Ht").
  - iDestruct (chain_no_tail with "H") as "[-> ->]".
    wp_run. simpl. iApply "HQ". iApply (is_queue_intro with "Hl"); [done|].
    iExists c. by iFrame.
Qed.

Lemma wp_queue_dequeue p xs (Q : Z → list ev → hpropI obj) :
  Z.of_nat (length xs) ≤ INT_MAX → (xs = [] → X 1) →
  is_queue p xs -∗ (∀ x xs', ⌈xs = x :: xs'⌉ -∗ is_queue p xs' -∗ Q x []) -∗
  wp mf X (queue_dequeue p) Q.
Proof.
  intros Hlen H1. iIntros "H HQ". unfold queue_dequeue, add_qsize. wp_step.
  iApply (wp_queue_is_empty with "H"). iIntros "(%l & %hd & %tl & -> & Hl & H)".
  destruct hd as [d|].
  - iDestruct (chain_head with "H") as (x xs' nx ->) "[Hd H]". simpl. wp_run. simpl.
    destruct nx as [e|]; wp_run; simpl; (iApply ("HQ" $! x xs'); [done|]);
      (iApply (is_queue_intro with "Hl H"); simpl; lia).
  - iDestruct (chain_null with "H") as "[-> ->]". simpl.
    iApply (wp_die with "[-]"); [by eexists|auto|iAccu].
Qed.

Lemma wp_queue_peek p xs (Q : Z → list ev → hpropI obj) :
  (xs = [] → X 1) →
  is_queue p xs -∗ (∀ x xs', ⌈xs = x :: xs'⌉ -∗ is_queue p xs -∗ Q x []) -∗
  wp mf X (queue_peek p) Q.
Proof.
  intros H1. iIntros "H HQ". unfold queue_peek. wp_step.
  iApply (wp_queue_is_empty with "H"). iIntros "(%l & %hd & %tl & -> & Hl & H)".
  destruct xs as [|x [|y xs]]; cbn [is_nil negb Z.eqb].
  - iApply (wp_die with "[-]"); [by eexists|auto|iAccu].
  - iDestruct "H" as (d) "[[-> ->] Hd]". wp_run. cbn [n_value]. iApply ("HQ" $! x []); [done|].
    iApply (is_queue_intro with "Hl"); [done|]. iExists d. by iFrame.
  - iDestruct (chain_cons2 with "H") as (d nx ->) "[Hd H]". wp_run. cbn [n_value].
    iApply ("HQ" $! x (y :: xs)); [done|].
    iApply (is_queue_intro with "Hl"); [done|]. by iApply (chain_cons with "Hd H").
Qed.

Lemma wp_queue_print p xs (Q : unit → list ev → hpropI obj) :
  is_queue p xs -∗
  (∀ o, ⌈stdout o = queue_text xs⌉ -∗ ⌈stderr o = ""%string⌉ -∗ is_queue p xs -∗ Q tt o) -∗
  wp mf X (queue_print p) Q.
Proof.
  iIntros "(%l & %hd & %tl & -> & Hl & H) HQ". unfold queue_print. do 5 wp_step.
  iApply (wp_heap_fuel with "H"); [apply chain_at_least|]. iIntros (n) "%Hn H". simpl. wp_step.
  iApply (wp_print_nodes_chain with "H"); [done|done|]. iIntros (o Ho He) "H". wp_run. simpl.
  iApply ("HQ" with "[] []"); [| |by iApply (is_queue_intro with "Hl H")]; iPureIntro.
  - simpl. rewrite stdout_app Ho. simpl. unfold queue_text. rewrite fmt_signed_plain. by str_norm.
  - simpl. by rewrite stderr_app He.
Qed.

Lemma wp_queue_drain n p xs (Q : unit → list ev → hpropI obj) :
  (length xs < n)%nat → Z.of_nat (length xs) ≤ INT_MAX →
  is_queue p xs -∗ (is_queue p [] -∗ Q tt []) -∗ wp mf X (queue_drain n p) Q.
Proof.
  revert xs. induction n as [|n IH]; intros xs Hn Hlen; [lia|]. unfold queue_drain.
  iIntros "H HQ". iApply wp_loop. wp_step. iApply (wp_queue_is_empty with "H"). iIntros "H".
  destruct xs as [|x xs]; simpl.
  - wp_step. by iApply "HQ".
  - wp_step. iApply (wp_queue_dequeue with "H"); [done|done|]. iIntros (y ys [= <- <-]) "H".
    wp_step. iApply (IH with "H HQ"); simpl in *; lia.
Qed.

Lemma wp_queue_free p xs (Q : unit → list ev → hpropI obj) :
  Z.of_nat (length xs) ≤ INT_MAX → is_queue p xs -∗ Q tt [] -∗ wp mf X (queue_free p) Q.
Proof.
  intros Hlen. iIntros "(%l & %hd & %tl & -> & Hl & H) HQ". unfold queue_free. wp_step.
  iApply (wp_heap_fuel with "H"); [apply chain_at_least|]. iIntros (n) "%Hn H". wp_step.
  iApply (wp_queue_drain _ _ xs with "[Hl H]"); [done|done|by iApply (is_queue_intro with "Hl H")|].
  iIntros "(% & % & % & %E & Hl & [-> ->])". injection E as <-. wp_run. done.
Qed.
End functions.

(** ** Refinement *)

Definition rep (s q : ptr) (st : list Z * list Z) : hpropI obj :=
  is_stack s (fst st) ∗ is_queue q (snd st).

Definition room (n : nat) (st : list Z * list Z) : Prop :=
  Z.of_nat (length (fst st) + n) ≤ INT_MAX ∧ Z.of_nat (length (snd st) + n) ≤ INT_MAX.

#[export] Instance stack_queue_implements mf X s q : (mf = true → X 1) →
  Implements mf X spec_op (run_op s q) (rep s q) (λ _, True) room.
Proof.
  intros HX. split.
  { unfold room. intros n o [xs ys] r st' t Hr E.
    destruct o; simpl in *; try destruct xs; try destruct ys; simplify_eq; simpl in *;
      rewrite ?length_app /=; lia. }
  unfold room. intros n o [xs ys] Q _ [H1 H2] H3. iIntros "[Hs Hq] HQ".
  destruct o; simpl in *; wp_step.
  - iApply (wp_stack_push with "Hs"); [done|lia|]. iIntros "Hs". wp_step.
    iApply "HQ"; [done..|]. iFrame.
  - iApply (wp_stack_pop with "Hs"); [lia|by intros ->; auto|]. iIntros (x xs' ->) "Hs". wp_step.
    iApply "HQ"; [done..|]. iFrame.
  - iApply (wp_stack_peek with "Hs"); [by intros ->; auto|]. iIntros (x xs' ->) "Hs". wp_step.
    iApply "HQ"; [done..|]. iFrame.
  - iApply (wp_stack_is_empty with "Hs"). iIntros "Hs". wp_step. iApply "HQ"; [done..|]. iFrame.
  - iApply (wp_stack_print with "Hs"). iIntros (o Ho He) "Hs". wp_step. rewrite app_nil_r.
    iApply "HQ"; [done..|]. iFrame.
  - iApply (wp_queue_enqueue with "Hq"); [done|lia|]. iIntros "Hq". wp_step.
    iApply "HQ"; [done..|]. iFrame.
  - iApply (wp_queue_dequeue with "Hq"); [lia|by intros ->; auto|]. iIntros (x xs' ->) "Hq". wp_step.
    iApply "HQ"; [done..|]. iFrame.
  - iApply (wp_queue_peek with "Hq"); [by intros ->; auto|]. iIntros (x xs' ->) "Hq". wp_step.
    iApply "HQ"; [done..|]. iFrame.
  - iApply (wp_queue_is_empty with "Hq"). iIntros "Hq". wp_step. iApply "HQ"; [done..|]. iFrame.
  - iApply (wp_queue_print with "Hq"). iIntros (o Ho He) "Hq". wp_step. rewrite app_nil_r.
    iApply "HQ"; [done..|]. iFrame.
Qed.

(** The final contents stay inside [int]. *)
Lemma spec_run_room ops st rs st' t :
  room (length ops) st → spec_run spec_op ops st = Some (rs, st', t) → room 0 st'.
Proof.
  revert st rs st' t. induction ops as [|o ops IH]; intros st rs st' t Hr E; simpl in *.
  - by simplify_eq.
  - destruct (spec_op o st) as [[[r st1] t1]|] eqn:E1; simpl in E; [|done].
    destruct (spec_run _ ops st1) as [[[rs1 st2] t2]|] eqn:E2; simplify_eq/=.
    eapply IH; [|done]. pose proof (stack_queue_implements true (λ _, True) NULL NULL (λ _, I)).
    by eapply implements_room.
Qed.

(** C2.  Refinement.  A client that performs any sequence of operations on a stack
    and a queue gets the results and the output of the same operations on two
    lists, last in first out for the stack and first in first out for the queue;
    there is no undefined behaviour, the loops terminate, [stack_free] and
    [queue_free] leave the heap empty, and the program exits only when an
    allocation fails or an empty structure is popped, peeked or dequeued. *)
Theorem stack_queue_session_refines (ops : list op) :
  Z.of_nat (length ops) ≤ INT_MAX →
  runs (session ops)
    (λ rs e, ∃ st, spec_run spec_op ops ([], []) = Some (rs, st, stdout e) ∧ stderr e = ""%string)
    (spec_run spec_op ops ([], []) = None).
Proof.
  intros Hlen. apply wp_runs. intros mf X HX H1. unfold session. wp_step.
  iApply (wp_stack_create _ _ _ HX). iIntros (s) "Hs". wp_step.
  iApply (wp_queue_create _ _ _ HX). iIntros (q) "Hq". wp_step.
  pose proof (stack_queue_implements mf X s q HX).
  iApply (wp_run_ops (rep:=rep s q) (room:=room) ops ([], []) with "[Hs Hq]"); [by apply Forall_true|by split|done|by iFrame|].
  iIntros (rs st e E Hs) "[Hs Hq]". destruct (spec_run_room ops ([], []) _ _ _ (conj Hlen Hlen) E).
  wp_step. iApply (wp_stack_free with "Hs"); [lia|].
  wp_step. iApply (wp_queue_free with "Hq"); [lia|]. wp_step.
  iPureIntro. exists st. by rewrite !app_nil_r.
Qed.

Lemma stack_queue_session_refines_witness :
  runs (session [Push 1; Enqueue 2; Push 3; Pop; Enqueue 4; Dequeue; SPrint; QPrint; SPeek; QEmpty])
    (λ rs e, ∃ st, spec_run spec_op
         [Push 1; Enqueue 2; Push 3; Pop; Enqueue 4; Dequeue; SPrint; QPrint; SPeek; QEmpty]
         ([], []) = Some (rs, st, stdout e) ∧ stderr e = ""%string)
    (spec_run spec_op
       [Push 1; Enqueue 2; Push 3; Pop; Enqueue 4; Dequeue; SPrint; QPrint; SPeek; QEmpty] ([], [])
     = None).
Proof.
  apply (stack_queue_session_refines [_; _; _; _; _; _; _; _; _; _]). done.
Defined.

(** ** Balanced brackets

    [bal d s]: the brackets of [s] are balanced and nested at most [d] deep. *)

Definition matches (open close : ascii) : bool :=
  (Ascii.eqb open "(" && Ascii.eqb close ")") ||
  (Ascii.eqb open "[" && Ascii.eqb close "]") ||
  (Ascii.eqb open "{" && Ascii.eqb close "}").

Inductive bal : nat → string → Prop :=
  | bal_nil d : bal d ""
  | bal_skip d c s : is_open c = false → is_close c = false → bal d s → bal d (String c s)
  | bal_pair d o c s1 s2 : matches o c = true → bal d s1 → bal (S d) s2 →
      bal (S d) (String o (s1 +:+ String c s2)).

(** [bals st s]: [s] closes the openers [st], innermost first. *)
Inductive bals : list ascii → string → Prop :=
  | bals_nil s : bal 256 s → bals [] s
  | bals_cons o st c s1 s2 : matches o c = true → bal (256 - length (o :: st)) s1 → bals st s2 →
      bals (o :: st) (s1 +:+ String c s2).

(** The array holds the stack [st], top first. *)
Definition holds_stack (stk : gmap Z ascii) (st : list ascii) : Prop :=
  ∀ i c, st !! i = Some c → stk !! (Z.of_nat (length st) - 1 - Z.of_nat i) = Some c.

Lemma matches_spec o c :
  matches o c = true →
  is_open o = true ∧ is_open c = false ∧ is_close c = true ∧ mismatch c o = false.
Proof.
  unfold matches, is_open, is_close, mismatch. intros H.
  repeat (apply orb_true_iff in H as [H|H]); apply andb_true_iff in H as [H1 H2];
    apply Ascii.eqb_eq in H1, H2; by subst.
Qed.

Lemma mismatch_matches o c :
  is_open o = true → is_close c = true → mismatch c o = false → matches o c = true.
Proof.
  unfold matches, is_open, is_close, mismatch. intros H1 H2 H3.
  repeat (apply orb_true_iff in H1 as [H1|H1]); apply Ascii.eqb_eq in H1;
  repeat (apply orb_true_iff in H2 as [H2|H2]); apply Ascii.eqb_eq in H2; by subst.
Qed.

Lemma bals_skip c st s : is_open c = false → is_close c = false → bals st s → bals st (String c s).
Proof.
  intros H1 H2 [s' Hs'|o st' c' s1 s2 Hm Hb Hs].
  - constructor. by constructor.
  - rewrite -string_app_cons. constructor; [done| |done]. by constructor.
Qed.

(** An opener followed by a text that closes it and the rest of the stack. *)
Lemma bals_open o st s : (length st < 256)%nat → bals (o :: st) s → bals st (String o s).
Proof.
  intros Hlen H. inversion H as [|? ? c s1 s2 Hm Hb Hs]; subst.
  inversion Hs as [? Hb'|o' st' c' s3 s4 Hm' Hb' Hs']; subst; simpl in *.
  - constructor. by constructor.
  - replace (String o (s1 +:+ String c (s3 +:+ String c' s4)))%string
      with ((String o (s1 +:+ String c s3)) +:+ String c' s4)%string
      by (rewrite !string_app_cons; f_equal; rewrite -string_app_assoc; by rewrite string_app_cons).
    constructor; [done| |done]. simpl in *.
    replace (255 - length st')%nat with (S (254 - length st'))%nat in Hb' |- * by lia.
    by constructor.
Qed.

(** *** The loop accepts exactly what closes its stack *)

Lemma balance_loop_pop st s c stk :
  is_close c = true → is_open c = false →
  holds_stack stk st →
  balance_loop (String c s) (Z.of_nat (length st) - 1) stk =
  match st with
  | [] => Some 0
  | o :: st' => if mismatch c o then Some 0 else balance_loop s (Z.of_nat (length st') - 1) stk
  end.
Proof.
  intros Hc Ho Hst. simpl. rewrite Ho Hc. destruct st as [|o st']; [done|].
  destruct (Z.ltb_spec (Z.of_nat (length (o :: st')) - 1) 0); [simpl in *; lia|].
  rewrite (_ : stk !! _ = Some o); last first.
  { specialize (Hst 0%nat o eq_refl). by rewrite Z.sub_0_r in Hst. }
  simpl. replace (Z.of_nat (S (length st')) - 1 - 1) with (Z.of_nat (length st') - 1) by lia. done.
Qed.

Lemma holds_stack_tail stk o st : holds_stack stk (o :: st) → holds_stack stk st.
Proof.
  intros H i c Hi. specialize (H (S i) c Hi). simpl in H.
  replace (Z.of_nat (length st) - 1 - Z.of_nat i) with (Z.of_nat (S (length st)) - 1 - Z.of_nat (S i)) by lia.
  done.
Qed.

Lemma balance_loop_push st s c stk :
  is_open c = true → holds_stack stk st → (length st < 256)%nat →
  ∃ stk', holds_stack stk' (c :: st) ∧
    balance_loop (String c s) (Z.of_nat (length st) - 1) stk =
    balance_loop s (Z.of_nat (length (c :: st)) - 1) stk'.
Proof.
  intros Ho Hst Hlen. exists (<[Z.of_nat (length st) := c]> stk). split.
  - intros [|i] c' Hi; simpl in *.
    + simplify_eq. replace (Z.of_nat (S (length st)) - 1 - Z.of_nat 0) with (Z.of_nat (length st)) by lia.
      by rewrite lookup_insert_eq.
    + rewrite lookup_insert_ne; [|lia]. specialize (Hst i c' Hi).
      by replace (Z.of_nat (S (length st)) - 1 - Z.of_nat (S i)) with (Z.of_nat (length st) - 1 - Z.of_nat i) by lia.
  - simpl. rewrite Ho. destruct (Z.leb_spec 255 (Z.of_nat (length st) - 1)); [lia|].
    replace (Z.of_nat (length st) - 1 + 1) with (Z.of_nat (length st)) by lia.
    unfold stk_write. destruct (Z.leb_spec 0 (Z.of_nat (length st))); [|lia].
    destruct (Z.ltb_spec (Z.of_nat (length st)) 256); [|lia]. simpl.
    by replace (Z.of_nat (S (length st)) - 1) with (Z.of_nat (length st)) by lia.
Qed.

(** What is accepted closes the stack; no access leaves the array. *)
Lemma balance_loop_sound s st stk :
  holds_stack stk st → (length st ≤ 256)%nat → Forall (λ o, is_open o = true) st →
  balance_loop s (Z.of_nat (length st) - 1) stk = Some 0 ∨
  (balance_loop s (Z.of_nat (length st) - 1) stk = Some 1 ∧ bals st s).
Proof.
  revert st stk. induction s as [|c s IH]; intros st stk Hst Hlen Ho.
  - simpl. destruct st as [|o st]; simpl.
    + right. split; [done|]. repeat constructor.
    + left. destruct (Z.eqb_spec (Z.of_nat (S (length st)) - 1) (-1)); [lia|done].
  - destruct (is_open c) eqn:Eo.
    { destruct (decide (length st < 256)%nat).
      - destruct (balance_loop_push st s c stk Eo Hst l) as (stk' & Hst' & ->).
        destruct (IH (c :: st) stk' Hst') as [->|[-> Hb]]; [simpl; lia|by constructor|by left|].
        right. split; [done|]. by apply bals_open.
      - left. simpl. rewrite Eo. destruct (Z.leb_spec 255 (Z.of_nat (length st) - 1)); [done|lia]. }
    destruct (is_close c) eqn:Ec.
    { rewrite balance_loop_pop //. destruct st as [|o st']; [by left|].
      destruct (mismatch c o) eqn:Em; [by left|].
      apply Forall_cons in Ho as [Ho Hos].
      destruct (IH st' stk (holds_stack_tail _ _ _ Hst)) as [->|[-> Hb]]; [simpl in *; lia|done|by left|].
      right. split; [done|].
      rewrite -(string_app_nil_l (String c s)). constructor; [by apply mismatch_matches| |done].
      constructor. }
    simpl. rewrite Eo Ec.
    destruct (IH st stk Hst Hlen Ho) as [->|[-> Hb]]; [by left|right].
    split; [done|]. by apply bals_skip.
Qed.

(** A balanced text leaves the stack as it was. *)
Lemma balance_loop_bal d s r st stk :
  bal d s → holds_stack stk st → (length st + d ≤ 256)%nat →
  ∃ stk', holds_stack stk' st ∧
    balance_loop (s +:+ r) (Z.of_nat (length st) - 1) stk =
    balance_loop r (Z.of_nat (length st) - 1) stk'.
Proof.
  intros Hb. revert r st stk.
  induction Hb as [d|d c s Ho Hc _ IH|d o c s1 s2 Hm _ IH1 _ IH2]; intros r st stk Hst Hlen.
  - by exists stk.
  - rewrite string_app_cons. simpl. rewrite Ho Hc. by apply IH.
  - destruct (matches_spec _ _ Hm) as (Ho & Hc1 & Hc2 & Hmm).
    rewrite string_app_cons -string_app_assoc string_app_cons.
    destruct (balance_loop_push st (s1 +:+ String c (s2 +:+ r)) o stk Ho Hst) as (stk1 & H1 & ->); [lia|].
    destruct (IH1 (String c (s2 +:+ r)) (o :: st) stk1 H1) as (stk2 & H2 & ->); [simpl; lia|].
    rewrite balance_loop_pop // Hmm. apply IH2; [by eapply holds_stack_tail|lia].
Qed.

(** The bracket checker reads and writes [stk] inside its 256 elements and
    only reads elements it has written; it answers 1 exactly on the texts whose
    brackets are balanced and nested at most 256 deep, and 0 on all others. *)
Theorem brackets_balanced_correct (s : string) :
  ∃ b : bool, brackets_balanced s = Some (b2z b) ∧ (b = true ↔ bal 256 s).
Proof.
  unfold brackets_balanced.
  assert (holds_stack ∅ []) as H0 by (intros i c Hi; by rewrite lookup_nil in Hi).
  destruct (balance_loop_sound s [] ∅ H0) as [E|[E Hb]]; [simpl; lia|constructor| |].
  - exists false. split; [done|]. split; [done|]. intros Hb.
    destruct (balance_loop_bal 256 s "" [] ∅ Hb H0) as (stk' & _ & E'); [simpl; lia|].
    rewrite string_app_nil_r in E'. simpl in *. congruence.
  - exists true. split; [done|]. split; [|done]. intros _. by inversion Hb.
Qed.

(** ** Breadth-first order

    The nodes in increasing order; the number of a level is announced before its
    first node, a power of two. *)

Definition heading (i : Z) : string :=
  if (2 ^ Z.log2 i =? i) && (1 <? i)
  then (String nl "level " +:+ int_str (Z.log2 i) +:+ ": ")%string else ""%string.

Definition visit (i : Z) : string := (int_str i +:+ " ")%string.

Definition bfs_text (n : Z) : string :=
  ("level 0: " +:+
   concat_str (map (λ i, heading i +:+ visit i)%string (seqZ 1 (Z.max 1 n))) +:+ String nl "")%string.

(** What the loop prints from node [i] on. *)
Definition from_node (n i : Z) : string :=
  (visit i +:+ concat_str (map (λ i, heading i +:+ visit i)%string (seqZ (i + 1) (n - i))))%string.

Lemma from_node_next n i :
  i < n → from_node n i = (visit i +:+ heading (i + 1) +:+ from_node n (i + 1))%string.
Proof.
  intros Hi. unfold from_node. rewrite (seqZ_cons (i + 1)); [|lia]. simpl.
  replace (Z.succ (i + 1)) with (i + 1 + 1) by lia.
  replace (Z.pred (n - i)) with (n - (i + 1)) by lia. by rewrite -string_app_assoc.
Qed.

Lemma heading_pow L i : 0 ≤ L → i = 2 ^ (L + 1) →
  heading i = (String nl "level " +:+ int_str (L + 1) +:+ ": ")%string.
Proof.
  intros HL ->. unfold heading. rewrite Z.log2_pow2; [|lia]. rewrite Z.eqb_refl.
  assert (1 < 2 ^ (L + 1)) by (apply Z.pow_gt_1; lia).
  destruct (Z.ltb_spec 1 (2 ^ (L + 1))); [done|lia].
Qed.

Lemma heading_inside L i : 0 ≤ L → 2 ^ L < i < 2 ^ (L + 1) → heading i = ""%string.
Proof.
  intros HL Hi. unfold heading. rewrite (Z.log2_unique i L); [|lia|unfold Z.succ; lia].
  destruct (Z.eqb_spec (2 ^ L) i); [lia|done].
Qed.

(** The queue before node [i] is taken from it: the nodes up to [2i - 1]. *)
Definition frontier (N i : Z) : list Z := seqZ i (Z.min N (2 * i - 1) - i + 1).

Lemma frontier_cons N i : 1 ≤ i ≤ N → ∃ ys, frontier N i = i :: ys ∧
  frontier N (i + 1) = ys ++ (if 2 * i <=? N then [2 * i] else []) ++ (if 2 * i + 1 <=? N then [2 * i + 1] else []).
Proof.
  intros Hi. unfold frontier. remember (Z.min N (2 * i - 1) - i) as m eqn:Hm.
  exists (seqZ (i + 1) m). split.
  { rewrite seqZ_cons; [|lia]. f_equal. f_equal; lia. }
  destruct (Z.leb_spec (2 * i) N), (Z.leb_spec (2 * i + 1) N); try lia.
  - rewrite (_ : Z.min N _ - _ + 1 = m + (1 + 1)); [|lia].
    rewrite !seqZ_app; [|lia..]. f_equal.
    rewrite !(seqZ_cons _ 1) //. simpl. f_equal; [lia|]. f_equal. lia.
  - rewrite (_ : Z.min N _ - _ + 1 = m + 1); [|lia].
    rewrite seqZ_app; [|lia..]. f_equal. rewrite seqZ_cons //. simpl. f_equal. lia.
  - rewrite !app_nil_r. f_equal. lia.
Qed.

Lemma frontier_length N i : 1 ≤ i ≤ N + 1 → Z.of_nat (length (frontier N i)) = Z.min N (2 * i - 1) - i + 1.
Proof. intros Hi. unfold frontier. rewrite length_seqZ. lia. Qed.

Lemma frontier_nil N i : 1 ≤ i ≤ N + 1 → is_nil (frontier N i) = b2z (i =? N + 1).
Proof.
  intros Hi. pose proof (frontier_length N i Hi).
  destruct (Z.eqb_spec i (N + 1)), (frontier N i); simpl in *; try done; lia.
Qed.

Definition in_level (N L : Z) : Z := Z.min N (2 ^ (L + 1) - 1) - 2 ^ L + 1.

Section bfs.
Context (mf : bool) (X : Z → Prop) (HX : mf = true → X 1).

Lemma wp_enqueue_if (b : bool) q xs v (Q : unit → list ev → hpropI obj) :
  Z.of_nat (length xs) < INT_MAX →
  is_queue q xs -∗ (is_queue q (xs ++ if b then [v] else []) -∗ Q tt []) -∗
  wp mf X (if b then queue_enqueue q v else ret tt) Q.
Proof.
  intros Hlen. iIntros "H HQ". destruct b.
  - iApply (wp_queue_enqueue _ _ _ _ _ _ HX with "H HQ"). done.
  - wp_step. rewrite app_nil_r. by iApply "HQ".
Qed.

(** One node: its children go to the end of the queue, and the heading of the next
    level is printed when it is the last of a level and not of the tree. *)
Lemma wp_bfs_body n q N L i (Q : Z * Z * Z + unit → list ev → hpropI obj) :
  N = Z.max 1 n → 2 * N + 1 ≤ INT_MAX → 1 ≤ i ≤ N → 0 ≤ L → 2 ^ L ≤ i < 2 ^ (L + 1) →
  is_queue q (frontier N i) -∗
  (∀ (L' : Z) o, ⌈stdout o = (visit i +:+ if Z.ltb i N then heading (i + 1) else "")%string⌉ -∗
     ⌈i < N → 0 ≤ L' ∧ 2 ^ L' ≤ i + 1 < 2 ^ (L' + 1)⌉ -∗ is_queue q (frontier N (i + 1)) -∗
     ∀ st, ⌈i < N → st = (L', in_level N L', i + 1 - 2 ^ L')⌉ -∗ Q (inl st) o) -∗
  wp mf X (bfs_body n q (L, in_level N L, i - 2 ^ L)) Q.
Proof.
  intros HN Hmax Hi HL Hp. iIntros "H HQ". unfold bfs_body.
  assert (2 ^ (L + 1) = 2 * 2 ^ L) as Hpow by (rewrite Z.pow_add_r; lia).
  assert (L < 2 ^ L) as HLp by (apply Z.pow_gt_lin_r; lia).
  wp_step. iApply (wp_queue_is_empty with "H"). iIntros "H". rewrite frontier_nil; [|lia].
  destruct (Z.eqb_spec i (N + 1)); [lia|]. simpl.
  pose proof (frontier_length N i ltac:(lia)) as Hlen.
  pose proof (frontier_length N (i + 1) ltac:(lia)) as Hlen'.
  destruct (frontier_cons N i Hi) as (ys & Efr & Efr').
  wp_step. iApply (wp_queue_dequeue with "H"); [unfold INT_MAX in *; lia|by rewrite Efr|].
  iIntros (x ys' E) "H". rewrite Efr in E, Hlen. injection E as <- <-. simpl in Hlen.
  do 5 wp_step. do 3 wp_step.
  wp_step. iApply (wp_enqueue_if with "H"); [unfold INT_MAX in *; lia|]. iIntros "H".
  wp_step. iApply (wp_enqueue_if with "H"); [rewrite length_app; destruct (2 * i <=? n); simpl; unfold INT_MAX in *; lia|].
  iIntros "H". rewrite -app_assoc.
  replace (2 * i <=? n) with (2 * i <=? N) by (destruct (Z.leb_spec (2 * i) N), (Z.leb_spec (2 * i) n); lia).
  replace (2 * i + 1 <=? n) with (2 * i + 1 <=? N)
    by (destruct (Z.leb_spec (2 * i + 1) N), (Z.leb_spec (2 * i + 1) n); lia).
  rewrite -Efr'. wp_step.
  destruct (decide (i = 2 ^ (L + 1) - 1 ∧ i < N)) as [[Ei HiN]|Hno].
  - destruct (Z.eqb_spec (i - 2 ^ L + 1) (in_level N L)) as [_|Hne]; [|unfold in_level in Hne; lia].
    iApply (wp_queue_is_empty with "H"). iIntros "H". rewrite frontier_nil; [|lia].
    destruct (Z.eqb_spec (i + 1) (N + 1)); [lia|]. simpl.
    iDestruct "H" as (l hd tl ->) "[Hl H]". wp_run. simpl.
    iDestruct (is_queue_intro with "Hl H") as "H"; [done|]. rewrite Hlen'.
    iApply ("HQ" $! (L + 1) with "[] [] H"); iPureIntro.
    + rewrite fmt_signed_plain (heading_pow L); [|lia..]. destruct (Z.ltb_spec i N); [|lia].
      rewrite !fmt_signed_plain /visit /=. by str_norm.
    + intros _. rewrite (Z.pow_add_r 2 (L + 1)); lia.
    + intros _. unfold in_level. rewrite (Z.pow_add_r 2 (L + 1)); [|lia..].
      do 2 f_equal; lia.
  - set (cond := i - 2 ^ L + 1 =? in_level N L).
    iAssert (wp mf X (if cond then queue_is_empty q else ret 1)
      (λ e o, ⌈e = 1⌉ ∗ ⌈o = []⌉ ∗ is_queue q (frontier N (i + 1))))%I with "[H]" as "Hw".
    { unfold cond. destruct (Z.eqb_spec (i - 2 ^ L + 1) (in_level N L)) as [He|_].
      - iApply (wp_queue_is_empty with "H"). iIntros "H". rewrite frontier_nil; [|lia].
        destruct (Z.eqb_spec (i + 1) (N + 1)); [by iFrame|]. unfold in_level in He. lia.
      - wp_step. by iFrame. }
    iApply (wp_wand with "Hw"). iIntros (e o) "(-> & -> & H)". simpl. wp_step.
    iApply ("HQ" $! L with "[] [] H"); iPureIntro.
    + rewrite fmt_signed_plain /visit /=.
      destruct (Z.ltb_spec i N); [rewrite (heading_inside L); [|lia..]|]; by str_norm.
    + intros ?. lia.
    + intros ?. do 2 f_equal; lia.
Qed.

Lemma wp_bfs_loop n q N k fuel L i (Q : unit → list ev → hpropI obj) :
  N = Z.max 1 n → 2 * N + 1 ≤ INT_MAX → 1 ≤ i ≤ N → 0 ≤ L → 2 ^ L ≤ i < 2 ^ (L + 1) →
  k = Z.to_nat (N - i) → (k + 1 < fuel)%nat →
  is_queue q (frontier N i) -∗
  (∀ o, ⌈stdout o = from_node N i⌉ -∗ is_queue q [] -∗ Q tt o) -∗
  wp mf X (loop fuel (bfs_body n q) (L, in_level N L, i - 2 ^ L)) Q.
Proof.
  intros HN Hmax. revert fuel L i Q. induction k as [|k IH]; intros fuel L i Q Hi HL Hp Hk Hf;
    iIntros "H HQ"; (destruct fuel as [|fuel]; [lia|]);
    iApply wp_loop; (iApply (wp_bfs_body with "H"); [done..|]); iIntros (L' o Ho HL') "H";
    iIntros (st Hst).
  - destruct fuel as [|fuel]; [lia|]. destruct st as [[level inl] pr].
    iApply wp_loop. unfold bfs_body. wp_step. iApply (wp_queue_is_empty with "H"). iIntros "H".
    rewrite frontier_nil; [|lia]. rewrite (_ : (i + 1 =? N + 1) = true); [|lia]. simpl. wp_step.
    assert (frontier N (i + 1) = []) as ->.
    { apply nil_length_inv. pose proof (frontier_length N (i + 1)). lia. }
    iApply "HQ"; [|done]. iPureIntro. rewrite !app_nil_r Ho. unfold from_node.
    destruct (Z.ltb_spec i N); [lia|]. replace (N - i) with 0 by lia. by str_norm.
  - rewrite Hst; [|lia]. iApply (IH with "H"); [lia|lia|lia|lia|lia|].
    iIntros (o') "%Ho' H". iApply ("HQ" with "[] H"). iPureIntro.
    rewrite stdout_app Ho Ho' (from_node_next N i); [|lia].
    destruct (Z.ltb_spec i N); [|lia]. by str_norm.
Qed.

Lemma wp_bfs_order n (Q : unit → list ev → hpropI obj) :
  2 * n + 1 ≤ INT_MAX →
  (∀ o, ⌈stdout o = bfs_text n⌉ -∗ Q tt o) -∗ wp mf X (bfs_order n) Q.
Proof.
  intros Hn. iIntros "HQ". unfold bfs_order. set (N := Z.max 1 n).
  wp_step. iApply (wp_queue_create _ _ _ HX). iIntros (q) "H".
  wp_step. iApply (wp_queue_enqueue _ _ _ _ _ _ HX with "H"); [done|]. iIntros "H". do 3 wp_step.
  replace (0, 1, 0) with (0, in_level N 0, 1 - 2 ^ 0)
    by (unfold in_level, N; do 2 f_equal; simpl; lia).
  iApply (wp_bfs_loop n q N (Z.to_nat (N - 1)) _ 0 1 with "[H]");
    [done|unfold N, INT_MAX in *; lia|unfold N; lia|lia|done|done|unfold N; lia| |].
  { unfold frontier. rewrite (_ : Z.min N (2 * 1 - 1) - 1 + 1 = 1); [done|unfold N; lia]. }
  iIntros (o Ho) "H". do 2 wp_step. iApply (wp_queue_free with "H"); [done|].
  iApply "HQ". iPureIntro. rewrite /= stdout_app Ho /= /bfs_text.
  rewrite seqZ_cons; [|unfold N; lia]. unfold from_node. simpl.
  replace (Z.pred (1 `max` n)) with (N - 1) by (unfold N; lia).
  replace (heading 1) with ""%string by done. by str_norm.
Qed.
End bfs.

(** The breadth-first traversal prints the nodes [1 .. n] of the complete
    tree in order, each level announced before its first node; it terminates, the
    arithmetic stays inside [int] as long as the children of the last node do, and
    the queue is freed. *)
Theorem bfs_order_correct (n : Z) :
  2 * n + 1 ≤ INT_MAX → runs (bfs_order n) (λ _ e, stdout e = bfs_text n) False.
Proof.
  intros Hn. apply wp_runs. intros mf X HX _. iApply (wp_bfs_order _ _ HX); [done|].
  by iIntros (o Ho).
Qed.

Lemma bfs_order_correct_witness :
  runs (bfs_order 10) (λ _ e, stdout e = esc (concat_str
    ["level 0: 1 \n"; "level 1: 2 3 \n"; "level 2: 4 5 6 7 \n"; "level 3: 8 9 10 \n"])%string) False.
Proof. apply (bfs_order_correct 10). vm_compute. discriminate. Defined.

(** ** The program *)

Definition main_stack_text : string := esc (concat_str [
  "=== Stack (LIFO) ===\n";
  "empty? 1\n";
  "push 10  → top[10]  size=1\n";
  "push 20  → top[20, 10]  size=2\n";
  "push 30  → top[30, 20, 10]  size=3\n";
  "push 40  → top[40, 30, 20, 10]  size=4\n";
  "push 50  → top[50, 40, 30, 20, 10]  size=5\n";
  "peek   = 50\n";
  "pop    = 50  → top[40, 30, 20, 10]  size=4\n";
  "pop    = 40  → top[30, 20, 10]  size=3\n";
  "pop    = 30  → top[20, 10]  size=2\n";
  "pop    = 20  → top[10]  size=1\n";
  "pop    = 10  → top[]  size=0\n";
  "empty? 1\n"]%string).

Definition main_queue_text : string := esc (concat_str [
  "\n=== Queue (FIFO) ===\n";
  "empty? 1\n";
  "enqueue 10  → head[10]tail  size=1\n";
  "enqueue 20  → head[10, 20]tail  size=2\n";
  "enqueue 30  → head[10, 20, 30]tail  size=3\n";
  "enqueue 40  → head[10, 20, 30, 40]tail  size=4\n";
  "enqueue 50  → head[10, 20, 30, 40, 50]tail  size=5\n";
  "peek   = 10\n";
  "dequeue = 10  → head[20, 30, 40, 50]tail  size=4\n";
  "dequeue = 20  → head[30, 40, 50]tail  size=3\n";
  "dequeue = 30  → head[40, 50]tail  size=2\n";
  "dequeue = 40  → head[50]tail  size=1\n";
  "dequeue = 50  → head[]tail  size=0\n";
  "empty? 1\n"]%string).

Definition main_rest_text : string := esc (concat_str [
  "\n=== Application: bracket balancing ===\n";
  "  (a + b) * (c - d)           balanced\n";
  "  {[()]}                      balanced\n";
  "  ([)]                        UNBALANCED\n";
  "  (((                         UNBALANCED\n";
  "                              balanced\n";
  "  no brackets at all          balanced\n";
  "\n=== Application: BFS level-order (complete binary tree, n=7) ===\n";
  "level 0: 1 \n"; "level 1: 2 3 \n"; "level 2: 4 5 6 7 \n"]%string).

(** One call of the API in [main]. *)
#[local] Ltac call_step HX :=
  lazymatch goal with
  | |- environments.envs_entails _ (wp _ _ ?m _) =>
      lazymatch m with
      | stack_create => iApply (wp_stack_create _ _ _ HX); iIntros (?) "H"
      | stack_is_empty _ => iApply (wp_stack_is_empty with "H"); iIntros "H"; simpl
      | stack_push _ _ => iApply (wp_stack_push _ _ _ _ _ _ HX with "H"); [done|]; iIntros "H"
      | stack_pop _ => iApply (wp_stack_pop with "H"); [done|done|]; iIntros (?? [= <- <-]) "H"
      | stack_peek _ => iApply (wp_stack_peek with "H"); [done|]; iIntros (?? [= <- <-]) "H"
      | stack_print _ => iApply (wp_stack_print with "H"); iIntros (???) "H"
      | stack_free _ => iApply (wp_stack_free with "H"); [done|]
      | queue_create => iApply (wp_queue_create _ _ _ HX); iIntros (?) "H"
      | queue_is_empty _ => iApply (wp_queue_is_empty with "H"); iIntros "H"; simpl
      | queue_enqueue _ _ => iApply (wp_queue_enqueue _ _ _ _ _ _ HX with "H"); [done|]; iIntros "H"; simpl
      | queue_dequeue _ => iApply (wp_queue_dequeue with "H"); [done|done|]; iIntros (?? [= <- <-]) "H"
      | queue_peek _ => iApply (wp_queue_peek with "H"); [done|]; iIntros (?? [= <- <-]) "H"
      | queue_print _ => iApply (wp_queue_print with "H"); iIntros (???) "H"
      | queue_free _ => iApply (wp_queue_free with "H"); [done|]
      | loop (Datatypes.S _) _ _ => iApply wp_loop
      | for_range 1 6 _ _ => change 6 with (1 + 5); cbv [for_range Z.sub Z.to_nat]; simpl
      end
  end.

Lemma wp_fuel_stack mf X p xs (Q : nat → list ev → hpropI obj) :
  is_stack p xs -∗ (∀ n : nat, ⌈(length xs < n)%nat⌉ -∗ is_stack p xs -∗ Q n []) -∗
  wp mf X heap_fuel Q.
Proof.
  iIntros "(%l & %hd & -> & Hl & H) HQ". iApply (wp_fuel_lseg with "H"). iIntros (n Hn) "H".
  iApply "HQ"; [done|]. by iApply (is_stack_intro with "Hl H").
Qed.

Lemma wp_fuel_queue mf X p xs (Q : nat → list ev → hpropI obj) :
  is_queue p xs -∗ (∀ n : nat, ⌈(length xs < n)%nat⌉ -∗ is_queue p xs -∗ Q n []) -∗
  wp mf X heap_fuel Q.
Proof.
  iIntros "(%l & %hd & %tl & -> & Hl & H) HQ".
  iApply (wp_heap_fuel with "H"); [apply chain_at_least|]. iIntros (n Hn) "H".
  iApply "HQ"; [done|]. by iApply (is_queue_intro with "Hl H").
Qed.

(** Fuel for the six rounds of the draining loops of [main]. *)
#[local] Ltac six_rounds n := do 6 (destruct n as [|n]; [simpl in *; lia|]).

(** The text of a part, from the texts of its calls. *)
#[local] Ltac finish_text :=
  simpl; repeat progress rewrite stdout_app /=;
  repeat match goal with H : stdout _ = _ |- _ => rewrite H; clear H end;
  vm_compute; reflexivity.

Lemma wp_main_stack mf X (Q : unit → list ev → hpropI obj) :
  (mf = true → X 1) → (∀ o, ⌈stdout o = main_stack_text⌉ -∗ Q tt o) -∗ wp mf X main_stack Q.
Proof.
  intros HX. iIntros "HQ". unfold main_stack.
  repeat first [wp_step|call_step HX].
  iApply (wp_fuel_stack with "H"). iIntros (n Hn) "H". six_rounds n.
  repeat first [wp_step|call_step HX].
  iApply "HQ". iPureIntro. finish_text.
Qed.

Lemma wp_main_queue mf X (Q : unit → list ev → hpropI obj) :
  (mf = true → X 1) → (∀ o, ⌈stdout o = main_queue_text⌉ -∗ Q tt o) -∗ wp mf X main_queue Q.
Proof.
  intros HX. iIntros "HQ". unfold main_queue.
  repeat first [wp_step|call_step HX].
  iApply (wp_fuel_queue with "H"). iIntros (n Hn) "H". six_rounds n.
  repeat first [wp_step|call_step HX].
  iApply "HQ". iPureIntro. finish_text.
Qed.

(** [main] of the stack and queue exercise, for every behaviour of the
    allocator: unless an allocation fails it returns 0, having printed the traces of
    the stack, the queue and the two applications, and everything is freed. *)
Theorem stack_queue_main_correct :
  runs main
    (λ r e, r = 0 ∧ stdout e = (main_stack_text +:+ main_queue_text +:+ main_rest_text)%string) False.
Proof.
  apply wp_runs. intros mf X HX _. unfold main. wp_step.
  iApply (wp_main_stack _ _ _ HX). iIntros (o1 H1). wp_step.
  iApply (wp_main_queue _ _ _ HX). iIntros (o2 H2).
  set (texts := for_list _ _ _).
  assert (texts = (λ w, Ret tt (map Out (map esc
    ["  (a + b) * (c - d)           balanced\n"; "  {[()]}                      balanced\n";
     "  ([)]                        UNBALANCED\n"; "  (((                         UNBALANCED\n";
     "                              balanced\n"; "  no brackets at all          balanced\n"]%string)) w)) as ->
    by (vm_compute; reflexivity).
  do 3 wp_step. iApply wp_pure_events. do 3 wp_step.
  iApply (wp_bfs_order _ _ HX); [done|]. iIntros (o3 H3). wp_step. iPureIntro.
  split; [done|]. simpl. rewrite stdout_app H1 /= stdout_app H2 /=. rewrite stdout_app H3.
  vm_compute. reflexivity.
Qed.
