(* ===== verification/Bst.v ===== *)
(** * Exercise 15: binary search tree

    Model of [exercises/15_binary_search_tree/bst.c]: the recursive functions on a
    heap of tree nodes, and [main].  Every recursive function has a bound for the
    depth of its calls, [heap_fuel] at the outermost call: one more than the number
    of objects, which exceeds the height of any tree on the heap. *)

From stdpp Require Import sorting.
From S2P Require Import Prelude Machine CString Double Printf SepLogic Session.
#[local] Open Scope Z_scope.

(** ** Data *)

Record node := Node { value : Z; left : ptr; right : ptr }.

Definition set_value (v : Z) (n : node) : node := Node v (left n) (right n).
Definition set_left (p : ptr) (n : node) : node := Node (value n) p (right n).
Definition set_right (p : ptr) (n : node) : node := Node (value n) (left n) p.

Inductive obj := Raw | ONode (n : node).

#[export] Instance obj_node : Prism obj node :=
  {| to_obj := ONode; of_obj o := match o with ONode n => Some n | _ => None end;
     of_to_obj _ := eq_refl |}.

(** ** Construction and destruction *)

Definition node_create (value : Z) : M obj ptr :=
  n <- malloc Raw ;;
  match n with
  | None => die "malloc failed\n"
  | Some _ => store n (Node value NULL NULL) ;;; ret n
  end.

Fixpoint insert_rec (fuel : nat) (root : ptr) (v : Z) : M obj ptr :=
  match fuel with
  | O => λ _, NoFuel
  | S fuel =>
      match root with
      | None => node_create v
      | Some _ =>
          n <- load root ;;
          if v <? value n then
            l <- insert_rec fuel (left n) v ;;
            update root (set_left l) ;;;
            ret root
          else if value n <? v then
            r <- insert_rec fuel (right n) v ;;
            update root (set_right r) ;;;
            ret root
          else ret root
      end
  end.

Definition bst_insert (root : ptr) (v : Z) : M obj ptr :=
  fuel <- heap_fuel ;; insert_rec fuel root v.

Fixpoint free_rec (fuel : nat) (root : ptr) : M obj unit :=
  match fuel with
  | O => λ _, NoFuel
  | S fuel =>
      match root with
      | None => ret tt
      | Some _ =>
          n <- load root ;;
          free_rec fuel (left n) ;;;
          n <- load root ;;
          free_rec fuel (right n) ;;;
          free root
      end
  end.

Definition bst_free (root : ptr) : M obj unit :=
  fuel <- heap_fuel ;; free_rec fuel root.

(** ** Search *)

Fixpoint search_rec (fuel : nat) (root : ptr) (v : Z) : M obj ptr :=
  match fuel with
  | O => λ _, NoFuel
  | S fuel =>
      match root with
      | None => ret root
      | Some _ =>
          n <- load root ;;
          if value n =? v then ret root
          else if v <? value n then search_rec fuel (left n) v
          else search_rec fuel (right n) v
      end
  end.

Definition bst_search (root : ptr) (v : Z) : M obj ptr :=
  fuel <- heap_fuel ;; search_rec fuel root v.

Definition bst_contains (root : ptr) (v : Z) : M obj Z :=
  p <- bst_search root v ;; ret (match p with None => 0 | Some _ => 1 end).

Fixpoint min_rec (fuel : nat) (root : ptr) : M obj ptr :=
  match fuel with
  | O => λ _, NoFuel
  | S fuel =>
      match root with
      | None => ret root
      | Some _ =>
          n <- load root ;;
          match left n with
          | None => ret root
          | Some _ => min_rec fuel (left n)
          end
      end
  end.

Definition bst_min (root : ptr) : M obj ptr :=
  fuel <- heap_fuel ;; min_rec fuel root.

Fixpoint max_rec (fuel : nat) (root : ptr) : M obj ptr :=
  match fuel with
  | O => λ _, NoFuel
  | S fuel =>
      match root with
      | None => ret root
      | Some _ =>
          n <- load root ;;
          match right n with
          | None => ret root
          | Some _ => max_rec fuel (right n)
          end
      end
  end.

Definition bst_max (root : ptr) : M obj ptr :=
  fuel <- heap_fuel ;; max_rec fuel root.

(** ** Deletion *)

Fixpoint delete_rec (fuel : nat) (root : ptr) (v : Z) : M obj ptr :=
  match fuel with
  | O => λ _, NoFuel
  | S fuel =>
      match root with
      | None => ret NULL
      | Some _ =>
          n <- load root ;;
          if v <? value n then
            l <- delete_rec fuel (left n) v ;;
            update root (set_left l) ;;;
            ret root
          else if value n <? v then
            r <- delete_rec fuel (right n) v ;;
            update root (set_right r) ;;;
            ret root
          else
            match left n, right n with
            | None, tmp => free root ;;; ret tmp
            | Some _, None => let tmp := left n in free root ;;; ret tmp
            | Some _, Some _ =>
                successor <- bst_min (right n) ;;
                s <- load successor ;;
                update root (set_value (value s)) ;;;
                n <- load root ;;
                s <- load successor ;;
                r <- delete_rec fuel (right n) (value s) ;;
                update root (set_right r) ;;;
                ret root
            end
      end
  end.

Definition bst_delete (root : ptr) (v : Z) : M obj ptr :=
  fuel <- heap_fuel ;; delete_rec fuel root v.

(** ** Traversals *)

Fixpoint inorder_rec (fuel : nat) (root : ptr) : M obj unit :=
  match fuel with
  | O => λ _, NoFuel
  | S fuel =>
      match root with
      | None => ret tt
      | Some _ =>
          n <- load root ;;
          inorder_rec fuel (left n) ;;;
          printf "%d " [AInt (value n)] ;;;
          inorder_rec fuel (right n)
      end
  end.

Definition bst_inorder (root : ptr) : M obj unit :=
  fuel <- heap_fuel ;; inorder_rec fuel root.

Fixpoint preorder_rec (fuel : nat) (root : ptr) : M obj unit :=
  match fuel with
  | O => λ _, NoFuel
  | S fuel =>
      match root with
      | None => ret tt
      | Some _ =>
          n <- load root ;;
          printf "%d " [AInt (value n)] ;;;
          preorder_rec fuel (left n) ;;;
          preorder_rec fuel (right n)
      end
  end.

Definition bst_preorder (root : ptr) : M obj unit :=
  fuel <- heap_fuel ;; preorder_rec fuel root.

Fixpoint postorder_rec (fuel : nat) (root : ptr) : M obj unit :=
  match fuel with
  | O => λ _, NoFuel
  | S fuel =>
      match root with
      | None => ret tt
      | Some _ =>
          n <- load root ;;
          postorder_rec fuel (left n) ;;;
          postorder_rec fuel (right n) ;;;
          printf "%d " [AInt (value n)]
      end
  end.

Definition bst_postorder (root : ptr) : M obj unit :=
  fuel <- heap_fuel ;; postorder_rec fuel root.

(** ** Metrics *)

Fixpoint height_rec (fuel : nat) (root : ptr) : M obj Z :=
  match fuel with
  | O => λ _, NoFuel
  | S fuel =>
      match root with
      | None => ret 0
      | Some _ =>
          n <- load root ;;
          lh <- height_rec fuel (left n) ;;
          rh <- height_rec fuel (right n) ;;
          int_chk (1 + (if rh <? lh then lh else rh))
      end
  end.

Definition bst_height (root : ptr) : M obj Z :=
  fuel <- heap_fuel ;; height_rec fuel root.

Fixpoint count_rec (fuel : nat) (root : ptr) : M obj Z :=
  match fuel with
  | O => λ _, NoFuel
  | S fuel =>
      match root with
      | None => ret 0
      | Some _ =>
          n <- load root ;;
          cl <- count_rec fuel (left n) ;;
          s <- int_chk (1 + cl) ;;
          cr <- count_rec fuel (right n) ;;
          int_chk (s + cr)
      end
  end.

Definition bst_count (root : ptr) : M obj Z :=
  fuel <- heap_fuel ;; count_rec fuel root.

(** [for (int i = 0; i < depth; i++) printf("    ");] *)
Definition indent (depth : Z) : M obj unit :=
  for_range 0 depth (λ _ _, printf "    " []) tt.

Fixpoint print_rec (fuel : nat) (root : ptr) (depth : Z) : M obj unit :=
  match fuel with
  | O => λ _, NoFuel
  | S fuel =>
      match root with
      | None => ret tt
      | Some _ =>
          n <- load root ;;
          d <- int_chk (depth + 1) ;;
          print_rec fuel (right n) d ;;;
          indent depth ;;;
          printf "%d\n" [AInt (value n)] ;;;
          print_rec fuel (left n) d
      end
  end.

Definition bst_print (root : ptr) (depth : Z) : M obj unit :=
  fuel <- heap_fuel ;; print_rec fuel root depth.

(** ** [main] *)

Definition values : list Z := [50; 30; 70; 20; 40; 60; 80; 10; 35; 45].
Definition targets : list Z := [40; 55; 10; 99].

(** [bst_min(root)->value] and [bst_max(root)->value]. *)
Definition deref_value (p : ptr) : M obj Z := n <- load p ;; ret (value n).

Definition show_inorder (root : ptr) : M obj unit :=
  printf "  inorder: " [] ;;; bst_inorder root ;;; printf "\n" [].

Definition main : M obj Z :=
  printf "=== Insert ===\n" [] ;;;
  root <- for_list values (λ v root,
    root <- bst_insert root v ;;
    printf "inserted %d\n" [AInt v] ;;;
    ret root) NULL ;;
  printf "\n=== Tree structure ===\n" [] ;;;
  bst_print root 0 ;;;
  printf "\n=== Traversals ===\n" [] ;;;
  printf "inorder   (sorted): " [] ;;; bst_inorder root ;;; printf "\n" [] ;;;
  printf "preorder  (root-first): " [] ;;; bst_preorder root ;;; printf "\n" [] ;;;
  printf "postorder (root-last):  " [] ;;; bst_postorder root ;;; printf "\n" [] ;;;
  printf "\n=== Metrics ===\n" [] ;;;
  c <- bst_count root ;;
  printf "count  = %d\n" [AInt c] ;;;
  h <- bst_height root ;;
  printf "height = %d\n" [AInt h] ;;;
  p <- bst_min root ;; v <- deref_value p ;;
  printf "min    = %d\n" [AInt v] ;;;
  p <- bst_max root ;; v <- deref_value p ;;
  printf "max    = %d\n" [AInt v] ;;;
  printf "\n=== Search ===\n" [] ;;;
  for_list targets (λ t _,
    found <- bst_search root t ;;
    printf "search(%2d): %s\n"
      [AInt t; AStr (match found with Some _ => "found" | None => "not found" end)]) tt ;;;
  printf "\n=== Delete ===\n" [] ;;;
  printf "delete 10 (leaf):\n" [] ;;;
  root <- bst_delete root 10 ;;
  show_inorder root ;;;
  printf "delete 20 (one child):\n" [] ;;;
  root <- bst_delete root 20 ;;
  show_inorder root ;;;
  printf "delete 30 (two children):\n" [] ;;;
  root <- bst_delete root 30 ;;
  show_inorder root ;;;
  printf "delete 50 (root):\n" [] ;;;
  root <- bst_delete root 50 ;;
  show_inorder root ;;;
  printf "\n=== Final tree ===\n" [] ;;;
  bst_print root 0 ;;;
  c <- bst_count root ;;
  h <- bst_height root ;;
  printf "count=%d  height=%d\n" [AInt c; AInt h] ;;;
  bst_free root ;;;
  ret 0.

(** ** Trees

    The contents of the heap as a mathematical tree, and what the functions do to
    it. *)

Inductive tree := Leaf | Branch (l : tree) (x : Z) (r : tree).

Fixpoint t_insert (v : Z) (t : tree) : tree :=
  match t with
  | Leaf => Branch Leaf v Leaf
  | Branch l x r =>
      if v <? x then Branch (t_insert v l) x r
      else if x <? v then Branch l x (t_insert v r)
      else t
  end.

Fixpoint t_contains (v : Z) (t : tree) : bool :=
  match t with
  | Leaf => false
  | Branch l x r => if x =? v then true else if v <? x then t_contains v l else t_contains v r
  end.

Fixpoint t_min (t : tree) : option Z :=
  match t with Leaf => None | Branch Leaf x _ => Some x | Branch l _ _ => t_min l end.

Fixpoint t_max (t : tree) : option Z :=
  match t with Leaf => None | Branch _ x Leaf => Some x | Branch _ _ r => t_max r end.

Fixpoint t_delete (v : Z) (t : tree) : tree :=
  match t with
  | Leaf => Leaf
  | Branch l x r =>
      if v <? x then Branch (t_delete v l) x r
      else if x <? v then Branch l x (t_delete v r)
      else
        match l, r with
        | Leaf, _ => r
        | _, Leaf => l
        | _, _ => let m := default 0 (t_min r) in Branch l m (t_delete m r)
        end
  end.

Fixpoint inorder (t : tree) : list Z :=
  match t with Leaf => [] | Branch l x r => inorder l ++ x :: inorder r end.
Fixpoint preorder (t : tree) : list Z :=
  match t with Leaf => [] | Branch l x r => x :: preorder l ++ preorder r end.
Fixpoint postorder (t : tree) : list Z :=
  match t with Leaf => [] | Branch l x r => postorder l ++ postorder r ++ [x] end.

Fixpoint height (t : tree) : nat :=
  match t with Leaf => 0 | Branch l _ r => S (height l `max` height r) end.
Fixpoint count (t : tree) : nat :=
  match t with Leaf => 0 | Branch l _ r => S (count l + count r) end.

(** [%d ] for every value. *)
Definition text (xs : list Z) : string := concat_str (map (λ x, int_str x +:+ " ")%string xs).

(** The right subtree on top, four blanks for each level. *)
Fixpoint drawing (t : tree) (depth : nat) : string :=
  match t with
  | Leaf => ""
  | Branch l x r =>
      drawing r (S depth) +:+ concat_str (replicate depth "    "%string) +:+ int_str x
      +:+ String nl "" +:+ drawing l (S depth)
  end%string.

(** *** Facts *)

Lemma height_count t : (height t ≤ count t)%nat.
Proof. induction t; simpl; lia. Qed.

Lemma length_inorder t : length (inorder t) = count t.
Proof. induction t; simpl; rewrite ?length_app /=; lia. Qed.

Lemma count_insert v t : (count (t_insert v t) ≤ S (count t))%nat.
Proof. induction t as [|l IHl x r IHr]; simpl; [lia|]. zb; simpl; lia. Qed.

Lemma count_delete v t : (count (t_delete v t) ≤ count t)%nat.
Proof.
  revert v. induction t as [|l IHl x r IHr]; intros v; simpl; [lia|].
  specialize (IHl v). pose proof (IHr v). zb; simpl; try lia.
  destruct l, r; simpl in *; try lia. specialize (IHr (default 0 (t_min (Branch r1 x1 r2)))).
  simpl in *. lia.
Qed.

Lemma text_app xs ys : text (xs ++ ys) = (text xs +:+ text ys)%string.
Proof. unfold text. by rewrite map_app concat_str_app. Qed.

Lemma text_cons x xs : text (x :: xs) = (int_str x +:+ " " +:+ text xs)%string.
Proof. unfold text. simpl. by rewrite string_app_assoc. Qed.

Lemma t_min_some l x r : is_Some (t_min (Branch l x r)).
Proof. revert x r. induction l as [|l1 IH y l2 _]; intros x r; simpl; [done|]. apply (IH y l2). Qed.

Lemma t_max_some l x r : is_Some (t_max (Branch l x r)).
Proof. revert l x. induction r as [|r1 _ y r2 IH]; intros l x; simpl; [done|]. apply (IH r1 y). Qed.

(** ** Trees on the heap *)

Fixpoint tree_at (p : ptr) (t : tree) : hpropI obj :=
  match t with
  | Leaf => ⌈p = None⌉
  | Branch l x r => ∃ a pl pr, ⌈p = Some a⌉ ∗ a ↦ ONode (Node x pl pr) ∗ tree_at pl l ∗ tree_at pr r
  end%I.

Lemma tree_at_null t : tree_at None t ⊢ ⌈t = Leaf⌉.
Proof. destruct t; simpl; [by iIntros "_"|]. by iIntros "(%a & %pl & %pr & % & H)". Qed.

Lemma tree_at_some a t :
  tree_at (Some a) t ⊢ ∃ l x r pl pr, ⌈t = Branch l x r⌉ ∗
    a ↦ ONode (Node x pl pr) ∗ tree_at pl l ∗ tree_at pr r.
Proof.
  destruct t as [|l x r]; [by iIntros "%"|].
  iIntros "(%a' & %pl & %pr & %E & H)". injection E as <-. iExists l, x, r, pl, pr. by iFrame.
Qed.

Lemma tree_at_intro a x pl pr l r :
  a ↦ ONode (Node x pl pr) -∗ tree_at pl l -∗ tree_at pr r -∗ tree_at (Some a) (Branch l x r).
Proof. iIntros "Ha Hl Hr". iExists a, pl, pr. by iFrame. Qed.

Lemma tree_at_least p t : tree_at p t ⊢ at_least (count t).
Proof.
  revert p. induction t as [|l IHl x r IHr]; intros p; simpl.
  - split. intros h _. simpl. lia.
  - iIntros "(%a & %pl & %pr & -> & Ha & Hl & Hr)".
    iApply (at_least_cons a (ONode (Node x pl pr)) (tree_at pl l ∗ tree_at pr r));
      [|iFrame].
    rewrite IHl IHr. split. intros h (h1 & h2 & -> & Hd & H1 & H2). simpl in *.
    rewrite map_size_disj_union //. lia.
Qed.

Section functions.
Context (mf : bool) (X : Z → Prop).

Lemma wp_fuel_tree p t (Q : nat → list ev → hpropI obj) :
  tree_at p t -∗ (∀ n : nat, ⌈(height t < n)%nat⌉ -∗ tree_at p t -∗ Q n []) -∗
  wp mf X heap_fuel Q.
Proof.
  iIntros "H HQ". iApply (wp_heap_fuel with "H"); [apply tree_at_least|].
  iIntros (n Hn) "H". iApply "HQ"; [|done]. iPureIntro. pose proof (height_count t). lia.
Qed.

Lemma wp_tree_node_create v (Q : ptr → list ev → hpropI obj) :
  (mf = true → X 1) →
  (∀ p, tree_at p (Branch Leaf v Leaf) -∗ Q p []) ⊢ wp mf X (node_create v) Q.
Proof.
  intros HX. iIntros "HQ". unfold node_create.
  iApply (wp_malloc_or_die _ _ _ _ (λ n, store n (Node v NULL NULL) ;;; ret n)); [by eexists|done|].
  iIntros (l) "Hl". wp_run. iApply "HQ". by iApply (tree_at_intro with "Hl").
Qed.

Lemma wp_insert_rec n p t v (Q : ptr → list ev → hpropI obj) :
  (mf = true → X 1) → (height t < n)%nat → tree_at p t -∗
  (∀ q, tree_at q (t_insert v t) -∗ Q q []) -∗ wp mf X (insert_rec n p v) Q.
Proof.
  intros HX. revert p t Q. induction n as [|n IH]; intros p t Q Hn; [lia|].
  iIntros "H HQ". simpl. destruct p as [a|].
  - rewrite tree_at_some. iDestruct "H" as (l x r pl pr ->) "(Ha & Hl & Hr)". simpl in *.
    do 2 wp_step. simpl. destruct (v <? x); [|destruct (x <? v)].
    + wp_step. iApply (IH with "Hl"); [lia|]. iIntros (q) "Hl". wp_run. iApply "HQ".
      iApply (tree_at_intro with "Ha Hl Hr").
    + wp_step. iApply (IH with "Hr"); [lia|]. iIntros (q) "Hr". wp_run. iApply "HQ".
      iApply (tree_at_intro with "Ha Hl Hr").
    + wp_step. iApply "HQ". iApply (tree_at_intro with "Ha Hl Hr").
  - rewrite tree_at_null. iDestruct "H" as %->. by iApply (wp_tree_node_create _ _ HX).
Qed.

Lemma wp_free_rec n p t (Q : unit → list ev → hpropI obj) :
  (height t < n)%nat → tree_at p t -∗ Q tt [] -∗ wp mf X (free_rec n p) Q.
Proof.
  revert p t Q. induction n as [|n IH]; intros p t Q Hn; [lia|].
  iIntros "H HQ". simpl. destruct p as [a|].
  - rewrite tree_at_some. iDestruct "H" as (l x r pl pr ->) "(Ha & Hl & Hr)". simpl in *.
    do 3 wp_step. iApply (IH with "Hl"); [lia|]. do 3 wp_step. iApply (IH with "Hr"); [lia|].
    wp_run. done.
  - rewrite tree_at_null. iDestruct "H" as %->. by wp_step.
Qed.

(** A search returns the node of the value, or NULL. *)
Lemma wp_search_rec n p t v (Q : ptr → list ev → hpropI obj) :
  (height t < n)%nat → tree_at p t -∗
  (∀ q, ⌈is_Some q ↔ t_contains v t = true⌉ -∗ tree_at p t -∗ Q q []) -∗
  wp mf X (search_rec n p v) Q.
Proof.
  revert p t Q. induction n as [|n IH]; intros p t Q Hn; [lia|].
  iIntros "H HQ". simpl. destruct p as [a|].
  - rewrite {1}tree_at_some. iDestruct "H" as (l x r pl pr ->) "(Ha & Hl & Hr)". simpl in *.
    do 2 wp_step. simpl. destruct (x =? v); [|destruct (v <? x)].
    + wp_step. iApply ("HQ" with "[]"); [iPureIntro; split; by eauto|].
      iApply (tree_at_intro with "Ha Hl Hr").
    + iApply (IH with "Hl"); [lia|]. iIntros (q Hq) "Hl". iApply ("HQ" with "[]"); [done|].
      iApply (tree_at_intro with "Ha Hl Hr").
    + iApply (IH with "Hr"); [lia|]. iIntros (q Hq) "Hr". iApply ("HQ" with "[]"); [done|].
      iApply (tree_at_intro with "Ha Hl Hr").
  - iAssert ⌈t = Leaf⌉%I with "[H]" as %->; [by iApply tree_at_null|]. wp_step.
    iApply ("HQ" with "[] H"). iPureIntro. simpl. split; [by intros [? ?]|done].
Qed.

(** The node of the minimum: it is inside the tree, which is given back for it. *)
Definition node_in (p : ptr) (t : tree) (q : ptr) (m : option Z) : hpropI obj :=
  match m with
  | None => ⌈q = None⌉ ∗ tree_at p t
  | Some v => ∃ a pl pr, ⌈q = Some a⌉ ∗ a ↦ ONode (Node v pl pr) ∗
                (a ↦ ONode (Node v pl pr) -∗ tree_at p t)
  end.

Lemma wp_min_rec n p t (Q : ptr → list ev → hpropI obj) :
  (height t < n)%nat → tree_at p t -∗
  (∀ q, node_in p t q (t_min t) -∗ Q q []) -∗ wp mf X (min_rec n p) Q.
Proof.
  revert p t Q. induction n as [|n IH]; intros p t Q Hn; [lia|].
  iIntros "H HQ". simpl. destruct p as [a|].
  - rewrite tree_at_some. iDestruct "H" as (l x r pl pr ->) "(Ha & Hl & Hr)".
    do 2 wp_step. simpl. destruct pl as [b|].
    + destruct l as [|l1 y l2]; [by iDestruct "Hl" as %?|].
      iApply (IH with "Hl"); [simpl in *; lia|]. iIntros (q) "Hq". iApply "HQ".
      change (t_min (Branch (Branch l1 y l2) x r)) with (t_min (Branch l1 y l2)).
      destruct (t_min_some l1 y l2) as [m ->]. iDestruct "Hq" as (c ql qr ->) "[Hc Hq]".
      iExists c, ql, qr. iFrame "Hc". iSplitR; [done|]. iIntros "Hc".
      iApply (tree_at_intro with "Ha [Hq Hc] Hr"). by iApply "Hq".
    + iAssert ⌈l = Leaf⌉%I with "[Hl]" as %->; [by iApply tree_at_null|].
      wp_step. iApply "HQ". iExists a, None, pr. iFrame "Ha". iSplitR; [done|].
      iIntros "Ha". iApply (tree_at_intro with "Ha Hl Hr").
  - iAssert ⌈t = Leaf⌉%I with "[H]" as %->; [by iApply tree_at_null|]. wp_step.
    iApply "HQ". simpl. by iFrame.
Qed.

Lemma wp_max_rec n p t (Q : ptr → list ev → hpropI obj) :
  (height t < n)%nat → tree_at p t -∗
  (∀ q, node_in p t q (t_max t) -∗ Q q []) -∗ wp mf X (max_rec n p) Q.
Proof.
  revert p t Q. induction n as [|n IH]; intros p t Q Hn; [lia|].
  iIntros "H HQ". simpl. destruct p as [a|].
  - rewrite tree_at_some. iDestruct "H" as (l x r pl pr ->) "(Ha & Hl & Hr)".
    do 2 wp_step. simpl. destruct pr as [b|].
    + destruct r as [|r1 y r2]; [by iDestruct "Hr" as %?|].
      iApply (IH with "Hr"); [simpl in *; lia|]. iIntros (q) "Hq". iApply "HQ".
      change (t_max (Branch l x (Branch r1 y r2))) with (t_max (Branch r1 y r2)).
      destruct (t_max_some r1 y r2) as [m ->]. iDestruct "Hq" as (c ql qr ->) "[Hc Hq]".
      iExists c, ql, qr. iFrame "Hc". iSplitR; [done|]. iIntros "Hc".
      iApply (tree_at_intro with "Ha Hl [Hq Hc]"). by iApply "Hq".
    + iAssert ⌈r = Leaf⌉%I with "[Hr]" as %->; [by iApply tree_at_null|].
      wp_step. iApply "HQ". iExists a, pl, None. iFrame "Ha". iSplitR; [done|].
      iIntros "Ha". iApply (tree_at_intro with "Ha Hl Hr").
  - iAssert ⌈t = Leaf⌉%I with "[H]" as %->; [by iApply tree_at_null|]. wp_step.
    iApply "HQ". simpl. by iFrame.
Qed.

Lemma wp_bst_min p t (Q : ptr → list ev → hpropI obj) :
  tree_at p t -∗ (∀ q, node_in p t q (t_min t) -∗ Q q []) -∗ wp mf X (bst_min p) Q.
Proof.
  iIntros "H HQ". unfold bst_min. wp_step. iApply (wp_fuel_tree with "H").
  iIntros (n Hn) "H". by iApply (wp_min_rec with "H").
Qed.

Lemma wp_bst_max p t (Q : ptr → list ev → hpropI obj) :
  tree_at p t -∗ (∀ q, node_in p t q (t_max t) -∗ Q q []) -∗ wp mf X (bst_max p) Q.
Proof.
  iIntros "H HQ". unfold bst_max. wp_step. iApply (wp_fuel_tree with "H").
  iIntros (n Hn) "H". by iApply (wp_max_rec with "H").
Qed.

Lemma wp_delete_rec n p t v (Q : ptr → list ev → hpropI obj) :
  (height t < n)%nat → tree_at p t -∗
  (∀ q, tree_at q (t_delete v t) -∗ Q q []) -∗ wp mf X (delete_rec n p v) Q.
Proof.
  revert p t v Q. induction n as [|n IH]; intros p t v Q Hn; [lia|].
  iIntros "H HQ". simpl. destruct p as [a|].
  - rewrite tree_at_some. iDestruct "H" as (l x r pl pr ->) "(Ha & Hl & Hr)". simpl in *.
    do 2 wp_step. simpl. destruct (v <? x); [|destruct (x <? v)].
    + wp_step. iApply (IH with "Hl"); [lia|]. iIntros (q) "Hl". wp_run. iApply "HQ".
      iApply (tree_at_intro with "Ha Hl Hr").
    + wp_step. iApply (IH with "Hr"); [lia|]. iIntros (q) "Hr". wp_run. iApply "HQ".
      iApply (tree_at_intro with "Ha Hl Hr").
    + destruct pl as [b|].
      2:{ rewrite tree_at_null. iDestruct "Hl" as %->. wp_run. by iApply "HQ". }
      destruct l as [|l1 y l2]; [by iDestruct "Hl" as %?|]. destruct pr as [c|].
      2:{ rewrite (tree_at_null r). iDestruct "Hr" as %->. wp_run. by iApply "HQ". }
      destruct r as [|r1 z r2]; [by iDestruct "Hr" as %?|].
      wp_step. iApply (wp_bst_min with "Hr"). iIntros (q) "Hq".
      destruct (t_min_some r1 z r2) as [m Em]. rewrite Em. simpl default.
      iDestruct "Hq" as (d ql qr ->) "[Hd Hr]". wp_run. cbn [value left right set_value].
      iSpecialize ("Hr" with "Hd"). iApply (IH with "Hr"); [simpl in *; lia|].
      iIntros (q) "Hr". wp_run. iApply "HQ". iApply (tree_at_intro with "Ha Hl Hr").
  - rewrite tree_at_null. iDestruct "H" as %->. wp_step. by iApply "HQ".
Qed.
End functions.

Section traversals.
Context (mf : bool) (X : Z → Prop).

(** The three traversals print the three orders. *)
Lemma wp_inorder_rec n p t (Q : unit → list ev → hpropI obj) :
  (height t < n)%nat → tree_at p t -∗
  (∀ o, ⌈stdout o = text (inorder t) ∧ stderr o = ""%string⌉ -∗ tree_at p t -∗ Q tt o) -∗
  wp mf X (inorder_rec n p) Q.
Proof.
  revert p t Q. induction n as [|n IH]; intros p t Q Hn; [lia|].
  iIntros "H HQ". simpl. destruct p as [a|].
  - rewrite {1}tree_at_some. iDestruct "H" as (l x r pl pr ->) "(Ha & Hl & Hr)". simpl in *.
    do 3 wp_step. iApply (IH with "Hl"); [lia|]. iIntros (o1 [H1 H1']) "Hl". do 2 wp_step.
    iApply (IH with "Hr"); [lia|]. iIntros (o2 [H2 H2']) "Hr".
    iApply ("HQ" with "[]"); [|iApply (tree_at_intro with "Ha Hl Hr")]. iPureIntro.
    rewrite /= stdout_app stderr_app H1 H1' /= H2 H2' text_app text_cons fmt_signed_plain.
    split; [|done]. by str_norm.
  - iAssert ⌈t = Leaf⌉%I with "[H]" as %->; [by iApply tree_at_null|]. wp_step.
    by iApply ("HQ" with "[]").
Qed.

Lemma wp_preorder_rec n p t (Q : unit → list ev → hpropI obj) :
  (height t < n)%nat → tree_at p t -∗
  (∀ o, ⌈stdout o = text (preorder t) ∧ stderr o = ""%string⌉ -∗ tree_at p t -∗ Q tt o) -∗
  wp mf X (preorder_rec n p) Q.
Proof.
  revert p t Q. induction n as [|n IH]; intros p t Q Hn; [lia|].
  iIntros "H HQ". simpl. destruct p as [a|].
  - rewrite {1}tree_at_some. iDestruct "H" as (l x r pl pr ->) "(Ha & Hl & Hr)". simpl in *.
    do 5 wp_step. iApply (IH with "Hl"); [lia|]. iIntros (o1 [H1 H1']) "Hl".
    iApply (IH with "Hr"); [lia|]. iIntros (o2 [H2 H2']) "Hr".
    iApply ("HQ" with "[]"); [|iApply (tree_at_intro with "Ha Hl Hr")]. iPureIntro.
    rewrite /= stdout_app stderr_app H1 H1' /= H2 H2' text_cons text_app fmt_signed_plain.
    split; [|done]. by str_norm.
  - iAssert ⌈t = Leaf⌉%I with "[H]" as %->; [by iApply tree_at_null|]. wp_step.
    by iApply ("HQ" with "[]").
Qed.

Lemma wp_postorder_rec n p t (Q : unit → list ev → hpropI obj) :
  (height t < n)%nat → tree_at p t -∗
  (∀ o, ⌈stdout o = text (postorder t) ∧ stderr o = ""%string⌉ -∗ tree_at p t -∗ Q tt o) -∗
  wp mf X (postorder_rec n p) Q.
Proof.
  revert p t Q. induction n as [|n IH]; intros p t Q Hn; [lia|].
  iIntros "H HQ". simpl. destruct p as [a|].
  - rewrite {1}tree_at_some. iDestruct "H" as (l x r pl pr ->) "(Ha & Hl & Hr)". simpl in *.
    do 3 wp_step. iApply (IH with "Hl"); [lia|]. iIntros (o1 [H1 H1']) "Hl". wp_step.
    iApply (IH with "Hr"); [lia|]. iIntros (o2 [H2 H2']) "Hr". wp_step.
    iApply ("HQ" with "[]"); [|iApply (tree_at_intro with "Ha Hl Hr")]. iPureIntro.
    rewrite /= !stdout_app !stderr_app H1 H1' /= H2 H2' !text_app text_cons fmt_signed_plain.
    split; [|done]. by str_norm.
  - iAssert ⌈t = Leaf⌉%I with "[H]" as %->; [by iApply tree_at_null|]. wp_step.
    by iApply ("HQ" with "[]").
Qed.

Lemma wp_height_rec n p t (Q : Z → list ev → hpropI obj) :
  (height t < n)%nat → Z.of_nat (height t) ≤ INT_MAX → tree_at p t -∗
  (tree_at p t -∗ Q (Z.of_nat (height t)) []) -∗ wp mf X (height_rec n p) Q.
Proof.
  revert p t Q. induction n as [|n IH]; intros p t Q Hn Hmax; [lia|].
  iIntros "H HQ". simpl. destruct p as [a|].
  - rewrite {1}tree_at_some. iDestruct "H" as (l x r pl pr ->) "(Ha & Hl & Hr)".
    cbn [height] in *. do 2 wp_step. wp_step. iApply (IH with "Hl"); [lia|lia|]. iIntros "Hl".
    wp_step. iApply (IH with "Hr"); [lia|lia|]. iIntros "Hr".
    iApply wp_int_chk.
    { unfold INT_MIN, INT_MAX in *. destruct (Z.ltb_spec (height r) (height l)); lia. }
    rewrite (_ : 1 + _ = Z.of_nat (S (height l `max` height r))).
    + iApply "HQ". iApply (tree_at_intro with "Ha Hl Hr").
    + destruct (Z.ltb_spec (height r) (height l)); lia.
  - iAssert ⌈t = Leaf⌉%I with "[H]" as %->; [by iApply tree_at_null|]. wp_step.
    by iApply "HQ".
Qed.

Lemma wp_count_rec n p t (Q : Z → list ev → hpropI obj) :
  (height t < n)%nat → Z.of_nat (count t) ≤ INT_MAX → tree_at p t -∗
  (tree_at p t -∗ Q (Z.of_nat (count t)) []) -∗ wp mf X (count_rec n p) Q.
Proof.
  revert p t Q. induction n as [|n IH]; intros p t Q Hn Hmax; [lia|].
  iIntros "H HQ". simpl. destruct p as [a|].
  - rewrite {1}tree_at_some. iDestruct "H" as (l x r pl pr ->) "(Ha & Hl & Hr)".
    cbn [height count] in *. do 2 wp_step. wp_step. iApply (IH with "Hl"); [lia|lia|]. iIntros "Hl".
    do 2 wp_step. wp_step. iApply (IH with "Hr"); [lia|lia|]. iIntros "Hr".
    iApply wp_int_chk; [unfold INT_MIN, INT_MAX in *; lia|].
    rewrite (_ : 1 + _ + _ = Z.of_nat (S (count l + count r))); [|lia].
    iApply "HQ". iApply (tree_at_intro with "Ha Hl Hr").
  - iAssert ⌈t = Leaf⌉%I with "[H]" as %->; [by iApply tree_at_null|]. wp_step.
    by iApply "HQ".
Qed.

Lemma wp_indent d (Q : unit → list ev → hpropI obj) :
  (∀ o, ⌈stdout o = concat_str (replicate d "    "%string) ∧ stderr o = ""%string⌉ -∗ Q tt o) -∗
  wp mf X (indent (Z.of_nat d)) Q.
Proof.
  iIntros "HQ". unfold indent.
  iApply (wp_for_range _ _ (λ i _ o, ⌈stdout o = concat_str (replicate (Z.to_nat i) "    "%string)
            ∧ stderr o = ""%string⌉)%I with "[]"); [lia| |done|].
  - iIntros (i [] o Hi [Ho He]). wp_step. iPureIntro.
    rewrite stdout_app stderr_app Ho He /=. split; [|done].
    rewrite (_ : Z.to_nat (i + 1) = (Z.to_nat i + 1)%nat); [|lia].
    by rewrite replicate_add concat_str_app.
  - rewrite Nat2Z.id. iIntros ([] o). iApply "HQ".
Qed.

Lemma wp_print_rec n p t d (Q : unit → list ev → hpropI obj) :
  (height t < n)%nat → Z.of_nat (d + height t) ≤ INT_MAX → tree_at p t -∗
  (∀ o, ⌈stdout o = drawing t d ∧ stderr o = ""%string⌉ -∗ tree_at p t -∗ Q tt o) -∗
  wp mf X (print_rec n p (Z.of_nat d)) Q.
Proof.
  revert p t d Q. induction n as [|n IH]; intros p t d Q Hn Hmax; [lia|].
  iIntros "H HQ". simpl. destruct p as [a|].
  - rewrite {1}tree_at_some. iDestruct "H" as (l x r pl pr ->) "(Ha & Hl & Hr)".
    cbn [height] in *. do 3 wp_step.
    iApply wp_int_chk; [unfold INT_MIN, INT_MAX in *; lia|].
    rewrite (_ : Z.of_nat d + 1 = Z.of_nat (S d)); [|lia]. wp_step.
    iApply (IH with "Hr"); [lia|lia|]. iIntros (o1 [H1 H1']) "Hr". wp_step.
    iApply wp_indent. iIntros (o2 [H2 H2']). do 2 wp_step.
    iApply (IH with "Hl"); [lia|lia|]. iIntros (o3 [H3 H3']) "Hl".
    iApply ("HQ" with "[]"); [|iApply (tree_at_intro with "Ha Hl Hr")]. iPureIntro.
    rewrite /= !stdout_app !stderr_app H1 H1' H2 H2' /= H3 H3' fmt_signed_plain.
    split; [|done]. by str_norm.
  - iAssert ⌈t = Leaf⌉%I with "[H]" as %->; [by iApply tree_at_null|]. wp_step.
    by iApply ("HQ" with "[]").
Qed.
(** *** The functions themselves, with the fuel of the heap *)

#[local] Ltac with_fuel f :=
  iIntros "H HQ"; unfold f; iApply wp_bind; iApply (wp_fuel_tree with "H"); iIntros (n Hn) "H".

Lemma wp_bst_insert p t v (Q : ptr → list ev → hpropI obj) :
  (mf = true → X 1) → tree_at p t -∗ (∀ q, tree_at q (t_insert v t) -∗ Q q []) -∗
  wp mf X (bst_insert p v) Q.
Proof. intros HX. with_fuel bst_insert. by iApply (wp_insert_rec _ _ _ _ _ _ _ HX with "H"). Qed.

Lemma wp_bst_delete p t v (Q : ptr → list ev → hpropI obj) :
  tree_at p t -∗ (∀ q, tree_at q (t_delete v t) -∗ Q q []) -∗ wp mf X (bst_delete p v) Q.
Proof. with_fuel bst_delete. by iApply (wp_delete_rec with "H"). Qed.

Lemma wp_bst_free p t (Q : unit → list ev → hpropI obj) :
  tree_at p t -∗ Q tt [] -∗ wp mf X (bst_free p) Q.
Proof. with_fuel bst_free. by iApply (wp_free_rec with "H"). Qed.

Lemma wp_bst_search p t v (Q : ptr → list ev → hpropI obj) :
  tree_at p t -∗ (∀ q, ⌈is_Some q ↔ t_contains v t = true⌉ -∗ tree_at p t -∗ Q q []) -∗
  wp mf X (bst_search p v) Q.
Proof. with_fuel bst_search. by iApply (wp_search_rec with "H"). Qed.

Lemma wp_bst_contains p t v (Q : Z → list ev → hpropI obj) :
  tree_at p t -∗ (tree_at p t -∗ Q (b2z (t_contains v t)) []) -∗ wp mf X (bst_contains p v) Q.
Proof.
  iIntros "H HQ". unfold bst_contains. wp_step. iApply (wp_bst_search with "H").
  iIntros (q [H1 H2]) "H". wp_step. destruct q, (t_contains v t); try by iApply "HQ".
  - by discriminate H1.
  - by destruct H2.
Qed.

Lemma wp_bst_count p t (Q : Z → list ev → hpropI obj) :
  Z.of_nat (count t) ≤ INT_MAX → tree_at p t -∗
  (tree_at p t -∗ Q (Z.of_nat (count t)) []) -∗ wp mf X (bst_count p) Q.
Proof. intros Hc. with_fuel bst_count. by iApply (wp_count_rec with "H"). Qed.

Lemma wp_bst_height p t (Q : Z → list ev → hpropI obj) :
  Z.of_nat (height t) ≤ INT_MAX → tree_at p t -∗
  (tree_at p t -∗ Q (Z.of_nat (height t)) []) -∗ wp mf X (bst_height p) Q.
Proof. intros Hc. with_fuel bst_height. by iApply (wp_height_rec with "H"). Qed.

Lemma wp_bst_inorder p t (Q : unit → list ev → hpropI obj) :
  tree_at p t -∗
  (∀ o, ⌈stdout o = text (inorder t) ∧ stderr o = ""%string⌉ -∗ tree_at p t -∗ Q tt o) -∗
  wp mf X (bst_inorder p) Q.
Proof. with_fuel bst_inorder. by iApply (wp_inorder_rec with "H"). Qed.

Lemma wp_bst_preorder p t (Q : unit → list ev → hpropI obj) :
  tree_at p t -∗
  (∀ o, ⌈stdout o = text (preorder t) ∧ stderr o = ""%string⌉ -∗ tree_at p t -∗ Q tt o) -∗
  wp mf X (bst_preorder p) Q.
Proof. with_fuel bst_preorder. by iApply (wp_preorder_rec with "H"). Qed.

Lemma wp_bst_postorder p t (Q : unit → list ev → hpropI obj) :
  tree_at p t -∗
  (∀ o, ⌈stdout o = text (postorder t) ∧ stderr o = ""%string⌉ -∗ tree_at p t -∗ Q tt o) -∗
  wp mf X (bst_postorder p) Q.
Proof. with_fuel bst_postorder. by iApply (wp_postorder_rec with "H"). Qed.

Lemma wp_bst_print p t (Q : unit → list ev → hpropI obj) :
  Z.of_nat (height t) ≤ INT_MAX → tree_at p t -∗
  (∀ o, ⌈stdout o = drawing t 0 ∧ stderr o = ""%string⌉ -∗ tree_at p t -∗ Q tt o) -∗
  wp mf X (bst_print p 0) Q.
Proof. intros Hc. with_fuel bst_print. by iApply (wp_print_rec _ _ _ 0 with "H"). Qed.
End traversals.

(** ** Operations and sessions *)

Inductive op :=
  | Insert (v : Z) | Delete (v : Z) | Contains (v : Z) | Min | Max | Count
  | Inorder | Preorder | Postorder | Height | Draw.

(** The client keeps the root in a variable, which insertions and deletions
    assign. *)
Definition run_op (root : ptr) (o : op) : M obj (option Z * ptr) :=
  match o with
  | Insert v => root <- bst_insert root v ;; ret (None, root)
  | Delete v => root <- bst_delete root v ;; ret (None, root)
  | Contains v => r <- bst_contains root v ;; ret (Some r, root)
  | Min =>
      p <- bst_min root ;;
      match p with None => ret (None, root) | Some _ => v <- deref_value p ;; ret (Some v, root) end
  | Max =>
      p <- bst_max root ;;
      match p with None => ret (None, root) | Some _ => v <- deref_value p ;; ret (Some v, root) end
  | Count => r <- bst_count root ;; ret (Some r, root)
  | Inorder => bst_inorder root ;;; ret (None, root)
  | Preorder => bst_preorder root ;;; ret (None, root)
  | Postorder => bst_postorder root ;;; ret (None, root)
  | Height => r <- bst_height root ;; ret (Some r, root)
  | Draw => bst_print root 0 ;;; ret (None, root)
  end.

Fixpoint run_ops (root : ptr) (ops : list op) : M obj (list (option Z) * ptr) :=
  match ops with
  | [] => ret ([], root)
  | o :: ops' =>
      let* (r, root) := run_op root o in
      let* (rs, root) := run_ops root ops' in
      ret (r :: rs, root)
  end.

Definition session (ops : list op) : M obj (list (option Z)) :=
  let* (rs, root) := run_ops NULL ops in bst_free root ;;; ret rs.

(** The same on a tree. *)
Definition tree_op (o : op) (t : tree) : option Z * tree * string :=
  match o with
  | Insert v => (None, t_insert v t, "")
  | Delete v => (None, t_delete v t, "")
  | Contains v => (Some (b2z (t_contains v t)), t, "")
  | Min => (t_min t, t, "")
  | Max => (t_max t, t, "")
  | Count => (Some (Z.of_nat (count t)), t, "")
  | Inorder => (None, t, text (inorder t))
  | Preorder => (None, t, text (preorder t))
  | Postorder => (None, t, text (postorder t))
  | Height => (Some (Z.of_nat (height t)), t, "")
  | Draw => (None, t, drawing t 0)
  end%string.

(** The operations on any data, one after the other. *)
Fixpoint spec_run {S} (step : op → S → option Z * S * string) (ops : list op) (s : S)
    : list (option Z) * S * string :=
  match ops with
  | [] => ([], s, "")
  | o :: ops' =>
      let '(r, s1, t) := step o s in
      let '(rs, s2, t') := spec_run step ops' s1 in
      (r :: rs, s2, t +:+ t')
  end%string.

Section refinement.
Context (mf : bool) (X : Z → Prop) (HX : mf = true → X 1).

Lemma count_tree_op o t r t' s : tree_op o t = (r, t', s) → (count t' ≤ S (count t))%nat.
Proof.
  destruct o; intros; simplify_eq/=; try lia; [apply count_insert|].
  etrans; [apply count_delete|]. lia.
Qed.

Lemma wp_deref_node p t q v (Q : Z → list ev → hpropI obj) :
  node_in p t q (Some v) -∗ (tree_at p t -∗ Q v []) -∗ wp mf X (deref_value q) Q.
Proof.
  iIntros "(%a & %pl & %pr & -> & Ha & H) HQ". unfold deref_value. wp_run. simpl.
  iApply "HQ". by iApply "H".
Qed.

Lemma wp_bst_run_op p t o (Q : option Z * ptr → list ev → hpropI obj) :
  Z.of_nat (count t) < INT_MAX → tree_at p t -∗
  (∀ r t' s q e, ⌈tree_op o t = (r, t', s)⌉ -∗ ⌈stdout e = s ∧ stderr e = ""%string⌉ -∗
     tree_at q t' -∗ Q (r, q) e) -∗
  wp mf X (run_op p o) Q.
Proof.
  intros Hc. pose proof (height_count t) as Hh. iIntros "H HQ".
  destruct o; simpl; wp_step.
  - iApply (wp_bst_insert _ _ _ _ _ _ HX with "H"). iIntros (q) "H". wp_step. by iApply "HQ".
  - iApply (wp_bst_delete with "H"). iIntros (q) "H". wp_step. by iApply "HQ".
  - iApply (wp_bst_contains with "H"). iIntros "H". wp_step. by iApply "HQ".
  - iApply (wp_bst_min with "H"). iIntros (q) "H". destruct (t_min t) as [m|] eqn:E.
    + iDestruct "H" as (a pl pr ->) "[Ha H]". wp_step.
      iApply (wp_deref_node p t _ m with "[Ha H]"); [iExists a, pl, pr; by iFrame|].
      iIntros "H". wp_step. by iApply ("HQ" with "[] [] H").
    + iDestruct "H" as "[-> H]". wp_step. by iApply ("HQ" with "[] [] H").
  - iApply (wp_bst_max with "H"). iIntros (q) "H". destruct (t_max t) as [m|] eqn:E.
    + iDestruct "H" as (a pl pr ->) "[Ha H]". wp_step.
      iApply (wp_deref_node p t _ m with "[Ha H]"); [iExists a, pl, pr; by iFrame|].
      iIntros "H". wp_step. by iApply ("HQ" with "[] [] H").
    + iDestruct "H" as "[-> H]". wp_step. by iApply ("HQ" with "[] [] H").
  - iApply (wp_bst_count with "H"); [lia|]. iIntros "H". wp_step. by iApply "HQ".
  - iApply (wp_bst_inorder with "H"). iIntros (o Ho) "H". wp_step. rewrite app_nil_r.
    by iApply "HQ".
  - iApply (wp_bst_preorder with "H"). iIntros (o Ho) "H". wp_step. rewrite app_nil_r.
    by iApply "HQ".
  - iApply (wp_bst_postorder with "H"). iIntros (o Ho) "H". wp_step. rewrite app_nil_r.
    by iApply "HQ".
  - iApply (wp_bst_height with "H"); [lia|]. iIntros "H". wp_step. by iApply "HQ".
  - iApply (wp_bst_print with "H"); [lia|]. iIntros (o Ho) "H". wp_step.
    rewrite app_nil_r. by iApply "HQ".
Qed.

Lemma wp_bst_run_ops p t ops (Q : list (option Z) * ptr → list ev → hpropI obj) :
  Z.of_nat (count t + length ops) ≤ INT_MAX → tree_at p t -∗
  (∀ rs t' s q e, ⌈spec_run tree_op ops t = (rs, t', s)⌉ -∗
     ⌈stdout e = s ∧ stderr e = ""%string⌉ -∗ tree_at q t' -∗ Q (rs, q) e) -∗
  wp mf X (run_ops p ops) Q.
Proof.
  revert p t Q. induction ops as [|o ops IH]; intros p t Q Hc; iIntros "H HQ"; simpl.
  - wp_step. by iApply ("HQ" with "[] [] H").
  - simpl in Hc. wp_step. iApply (wp_bst_run_op with "H"); [lia|].
    iIntros (r t1 s q e E [He Hs]) "H". rewrite E. pose proof (count_tree_op _ _ _ _ _ E).
    wp_step. iApply (IH with "H"); [lia|]. iIntros (rs t2 s' q' e' E' [He' Hs']) "H".
    rewrite E'. wp_step. iApply ("HQ" with "[] [] H"); [done|].
    iPureIntro. by rewrite app_nil_r stdout_app stderr_app He Hs He' Hs'.
Qed.

Lemma wp_session ops :
  Z.of_nat (length ops) ≤ INT_MAX →
  ⊢ wp mf X (session ops) (λ rs e,
      ⌈∃ t, spec_run tree_op ops Leaf = (rs, t, stdout e) ∧ stderr e = ""%string⌉).
Proof.
  intros Hc. unfold session. wp_step. iApply (wp_bst_run_ops _ Leaf with "[]"); [done|done|].
  iIntros (rs t s q e E [He Hs]) "H". wp_step. iApply (wp_bst_free with "H"). wp_step. iPureIntro. exists t. by rewrite !app_nil_r He.
Qed.
End refinement.

(** Refinement to trees.  Any sequence of insertions, deletions, queries and
    traversals on the heap gives the results and the output of the same operations on
    a mathematical tree; no access is undefined, the recursions terminate, the
    counts do not overflow, and [bst_free] leaves the heap empty.  The program only
    exits when an allocation fails. *)
Theorem bst_session_refines (ops : list op) :
  Z.of_nat (length ops) ≤ INT_MAX →
  runs (session ops)
    (λ rs e, ∃ t, spec_run tree_op ops Leaf = (rs, t, stdout e) ∧ stderr e = ""%string) False.
Proof. intros Hc. apply wp_runs. intros mf X HX _. by apply wp_session. Qed.

Lemma bst_session_refines_witness :
  runs (session [Insert 5; Insert 2; Insert 8; Insert 2; Delete 5; Height; Preorder; Draw; Max])
    (λ rs e, ∃ t, spec_run tree_op
       [Insert 5; Insert 2; Insert 8; Insert 2; Delete 5; Height; Preorder; Draw; Max] Leaf
       = (rs, t, stdout e) ∧ stderr e = ""%string) False.
Proof. apply (bst_session_refines [_; _; _; _; _; _; _; _; _]). done. Defined.

(** ** The tree is a set

    A search tree: the values in order are strictly increasing. *)
Definition bst (t : tree) : Prop := StronglySorted Z.lt (inorder t).

Lemma bst_branch l x r :
  bst (Branch l x r) ↔
  bst l ∧ bst r ∧ (∀ y, y ∈ inorder l → y < x) ∧ (∀ y, y ∈ inorder r → x < y).
Proof.
  unfold bst. simpl. rewrite StronglySorted_app StronglySorted_cons Forall_forall. split.
  - intros (H1 & H2 & H3 & H4). split_and!; try done. intros y Hy. apply H1; [done|by left].
  - intros (H1 & H2 & H3 & H4). split_and!; try done. intros y z Hy Hz.
    apply elem_of_cons in Hz as [->|Hz]; [by apply H3|].
    specialize (H3 y Hy). specialize (H4 z Hz). lia.
Qed.

Lemma elem_of_branch y l x r :
  y ∈ inorder (Branch l x r) ↔ y ∈ inorder l ∨ y = x ∨ y ∈ inorder r.
Proof. simpl. by rewrite elem_of_app elem_of_cons. Qed.

Lemma elem_of_insert y v t : y ∈ inorder (t_insert v t) ↔ y = v ∨ y ∈ inorder t.
Proof.
  induction t as [|l IHl x r IHr]; [simpl; set_solver|]. cbn [t_insert].
  destruct (Z.ltb_spec v x); [|destruct (Z.ltb_spec x v)]; rewrite !elem_of_branch.
  - rewrite IHl. naive_solver.
  - rewrite IHr. naive_solver.
  - assert (v = x) by lia. naive_solver.
Qed.

Lemma bst_insert_ok v t : bst t → bst (t_insert v t).
Proof.
  induction t as [|l IHl x r IHr]; [by repeat constructor|].
  rewrite bst_branch. intros (Hl & Hr & Hlx & Hxr). cbn [t_insert].
  destruct (Z.ltb_spec v x); [|destruct (Z.ltb_spec x v)]; rewrite bst_branch; split_and!; auto.
  - intros y [->|Hy]%elem_of_insert; auto.
  - intros y [->|Hy]%elem_of_insert; auto.
Qed.

Lemma t_contains_spec v t : bst t → t_contains v t = bool_decide (v ∈ inorder t).
Proof.
  induction t as [|l IHl x r IHr]; [done|].
  rewrite bst_branch. intros (Hl & Hr & Hlx & Hxr). cbn [t_contains].
  destruct (Z.eqb_spec x v) as [->|]; [|destruct (Z.ltb_spec v x)].
  - by rewrite bool_decide_true // elem_of_branch; auto.
  - rewrite (IHl Hl). apply bool_decide_ext. rewrite elem_of_branch. split; [by auto|].
    intros [?|[?|Hv]]; [done|congruence|]. specialize (Hxr v Hv). lia.
  - rewrite (IHr Hr). apply bool_decide_ext. rewrite elem_of_branch. split; [by auto|].
    intros [Hv|[?|?]]; [specialize (Hlx v Hv); lia|congruence|done].
Qed.

Lemma t_min_head t : t_min t = head (inorder t).
Proof.
  induction t as [|l IHl x r _]; [done|]. destruct l as [|l1 y l2]; [done|].
  change (t_min (Branch (Branch l1 y l2) x r)) with (t_min (Branch l1 y l2)). rewrite IHl.
  simpl. by destruct (inorder l1).
Qed.

Lemma t_max_last t : t_max t = last (inorder t).
Proof.
  induction t as [|l _ x r IHr]; [done|]. destruct r as [|r1 y r2].
  - simpl. by rewrite last_snoc.
  - change (t_max (Branch l x (Branch r1 y r2))) with (t_max (Branch r1 y r2)). rewrite IHr.
    cbn [inorder]. by rewrite (last_app_cons (inorder l)) app_comm_cons !last_app_cons.
Qed.

(** Removing a value from a search tree removes just that value. *)
Lemma t_delete_spec t : ∀ v, bst t →
  bst (t_delete v t) ∧ ∀ y, y ∈ inorder (t_delete v t) ↔ y ∈ inorder t ∧ y ≠ v.
Proof.
  induction t as [|l IHl x r IHr]; intros v; [split; [done|set_solver]|].
  rewrite bst_branch. intros (Hl & Hr & Hlx & Hxr). cbn [t_delete].
  destruct (Z.ltb_spec v x); [|destruct (Z.ltb_spec x v)].
  - destruct (IHl v Hl) as [Hb He]. split.
    + rewrite bst_branch. split_and!; auto. intros y [Hy _]%He. by apply Hlx.
    + intros y. rewrite !elem_of_branch He. split; [|naive_solver].
      intros [?|[->|Hy]]; [naive_solver|split; [auto|lia]|].
      specialize (Hxr y Hy). split; [auto|lia].
  - destruct (IHr v Hr) as [Hb He]. split.
    + rewrite bst_branch. split_and!; auto. intros y [Hy _]%He. by apply Hxr.
    + intros y. rewrite !elem_of_branch He. split; [|naive_solver].
      intros [Hy|[->|Hy]]; [|split; [auto|lia]|naive_solver].
      specialize (Hlx y Hy). split; [auto|lia].
  - assert (v = x) as -> by lia.
    assert (∀ y, y ∈ inorder l → y ≠ x) by (intros y Hy; specialize (Hlx y Hy); lia).
    assert (∀ y, y ∈ inorder r → y ≠ x) by (intros y Hy; specialize (Hxr y Hy); lia).
    destruct l as [|l1 z l2]; [|destruct r as [|r1 w r2]].
    + split; [done|]. intros y. rewrite elem_of_branch. set_solver.
    + split; [done|]. intros y. rewrite (elem_of_branch _ _ x Leaf). set_solver.
    + remember (Branch l1 z l2) as l eqn:El. remember (Branch r1 w r2) as r eqn:Er.
      assert (∃ m ms, inorder r = m :: ms) as (m & ms & Em).
      { subst r. simpl. destruct (inorder r1); by eauto. }
      rewrite t_min_head Em. simpl default. destruct (IHr m Hr) as [Hb He].
      assert (m ∈ inorder r) by (rewrite Em; by left).
      assert (∀ y, y ∈ ms → m < y) as Hm.
      { unfold bst in Hr. rewrite Em in Hr. apply StronglySorted_cons in Hr as [Hr _].
        by rewrite Forall_forall in Hr. }
      split.
      * rewrite bst_branch. split_and!; auto.
        -- intros y Hy. specialize (Hlx y Hy). specialize (Hxr m ltac:(done)). lia.
        -- intros y [Hy Hne]%He. rewrite Em in Hy. apply elem_of_cons in Hy as [->|]; [done|auto].
      * intros y. rewrite !elem_of_branch He. destruct (decide (y = m)); naive_solver.
Qed.

(** *** Operations on a finite set *)

Definition set_only (o : op) : bool :=
  match o with Preorder | Postorder | Height | Draw => false | _ => true end.

Definition ascending (s : gset Z) : list Z := merge_sort Z.le (elements s).

Definition set_op (o : op) (s : gset Z) : option Z * gset Z * string :=
  match o with
  | Insert v => (None, {[v]} ∪ s, "")
  | Delete v => (None, s ∖ {[v]}, "")
  | Contains v => (Some (b2z (bool_decide (v ∈ s))), s, "")
  | Min => (head (ascending s), s, "")
  | Max => (last (ascending s), s, "")
  | Count => (Some (Z.of_nat (size s)), s, "")
  | Inorder => (None, s, text (ascending s))
  | _ => (None, s, "")
  end%string.

Lemma bst_nodup t : bst t → NoDup (inorder t).
Proof.
  unfold bst. generalize (inorder t). intros xs H. induction H as [|x xs H IH Hx]; constructor; [|done].
  intros Hin. rewrite Forall_forall in Hx. specialize (Hx x Hin). lia.
Qed.

Lemma ascending_inorder t : bst t → ascending (list_to_set (inorder t)) = inorder t.
Proof.
  intros Hb. apply (StronglySorted_unique Z.le).
  - apply StronglySorted_merge_sort; apply _.
  - unfold bst in Hb. induction Hb as [|x xs Hs IH Hx]; constructor; [done|].
    eapply Forall_impl; [done|]. intros. simpl in *. lia.
  - unfold ascending. rewrite merge_sort_Permutation. by apply elements_list_to_set, bst_nodup.
Qed.

Lemma set_op_spec o t s :
  set_only o = true → bst t → s = list_to_set (inorder t) →
  ∃ r t' x, tree_op o t = (r, t', x) ∧ set_op o s = (r, list_to_set (inorder t'), x) ∧ bst t'.
Proof.
  intros Ho Hb ->. destruct o; try done; simpl; do 3 eexists; split_and!; try done.
  - f_equal. f_equal. apply set_eq. intros y.
    rewrite elem_of_union elem_of_singleton !elem_of_list_to_set elem_of_insert. done.
  - by apply bst_insert_ok.
  - f_equal. f_equal. apply set_eq. intros y. destruct (t_delete_spec t v Hb) as [_ He].
    by rewrite elem_of_difference elem_of_singleton !elem_of_list_to_set He.
  - by apply t_delete_spec.
  - rewrite t_contains_spec //. do 4 f_equal. apply bool_decide_ext. apply elem_of_list_to_set.
  - by rewrite ascending_inorder // t_min_head.
  - by rewrite ascending_inorder // t_max_last.
  - rewrite size_list_to_set; [|by apply bst_nodup]. by rewrite length_inorder.
  - by rewrite ascending_inorder.
Qed.

Lemma set_run_spec ops t :
  Forall (λ o, set_only o = true) ops → bst t →
  ∃ rs t' x, spec_run tree_op ops t = (rs, t', x) ∧
    spec_run set_op ops (list_to_set (inorder t)) = (rs, list_to_set (inorder t'), x) ∧ bst t'.
Proof.
  intros Hops. revert t. induction Hops as [|o ops Ho _ IH]; intros t Hb; simpl.
  - by exists [], t, ""%string.
  - destruct (set_op_spec o t _ Ho Hb eq_refl) as (r & t1 & x & -> & -> & Hb1).
    destruct (IH t1 Hb1) as (rs & t2 & x' & -> & -> & Hb2). by do 3 eexists.
Qed.

(** C3.  The search tree implements a set of integers.  For any sequence of
    insertions, deletions, membership tests, minima, maxima, counts and in-order
    traversals, the program on the heap gives the results of the same operations on
    a finite set, the traversal printing its elements in increasing order. *)
Theorem bst_implements_set (ops : list op) :
  Z.of_nat (length ops) ≤ INT_MAX → Forall (λ o, set_only o = true) ops →
  runs (session ops) (λ rs e, ∃ s, spec_run set_op ops ∅ = (rs, s, stdout e)) False.
Proof.
  intros Hc Hops. apply wp_runs. intros mf X HX _.
  iApply (wp_wand with "[]"); [by iApply (wp_session _ _ HX)|]. iIntros (rs e (t & E & _)).
  iPureIntro. destruct (set_run_spec ops Leaf Hops) as (rs' & t' & x & E1 & E2 & _); [constructor|].
  rewrite E in E1. simplify_eq. by eexists.
Qed.

Lemma bst_implements_set_witness :
  runs (session [Insert 5; Insert 2; Insert 8; Insert 2; Delete 5; Inorder; Contains 5; Min; Count])
    (λ rs e, ∃ s, spec_run set_op
       [Insert 5; Insert 2; Insert 8; Insert 2; Delete 5; Inorder; Contains 5; Min; Count] ∅
       = (rs, s, stdout e)) False.
Proof.
  apply (bst_implements_set [_; _; _; _; _; _; _; _; _]); [done|repeat constructor].
Defined.

(** ** The program *)

Definition main_text : string := esc (concat_str [
  "=== Insert ===\n";
  "inserted 50\n"; "inserted 30\n"; "inserted 70\n"; "inserted 20\n"; "inserted 40\n";
  "inserted 60\n"; "inserted 80\n"; "inserted 10\n"; "inserted 35\n"; "inserted 45\n";
  "\n=== Tree structure ===\n";
  "        80\n"; "    70\n"; "        60\n"; "50\n"; "            45\n"; "        40\n";
  "            35\n"; "    30\n"; "        20\n"; "            10\n";
  "\n=== Traversals ===\n";
  "inorder   (sorted): 10 20 30 35 40 45 50 60 70 80 \n";
  "preorder  (root-first): 50 30 20 10 40 35 45 70 60 80 \n";
  "postorder (root-last):  10 20 35 45 40 30 60 80 70 50 \n";
  "\n=== Metrics ===\n";
  "count  = 10\n"; "height = 4\n"; "min    = 10\n"; "max    = 80\n";
  "\n=== Search ===\n";
  "search(40): found\n"; "search(55): not found\n"; "search(10): found\n"; "search(99): not found\n";
  "\n=== Delete ===\n";
  "delete 10 (leaf):\n"; "  inorder: 20 30 35 40 45 50 60 70 80 \n";
  "delete 20 (one child):\n"; "  inorder: 30 35 40 45 50 60 70 80 \n";
  "delete 30 (two children):\n"; "  inorder: 35 40 45 50 60 70 80 \n";
  "delete 50 (root):\n"; "  inorder: 35 40 45 60 70 80 \n";
  "\n=== Final tree ===\n";
  "        80\n"; "    70\n"; "60\n"; "        45\n"; "    40\n"; "        35\n";
  "count=6  height=3\n"]%string).

(** One call of the API in [main], by its specification; the tree is computed. *)
#[local] Ltac tree_norm :=
  match goal with |- context [tree_at ?p ?t] => let t' := eval vm_compute in t in
    tryif constr_eq t t' then idtac else change (tree_at p t) with (tree_at p t') end.

#[local] Ltac call_step HX :=
  lazymatch goal with
  | |- environments.envs_entails _ (wp _ _ ?m _) =>
      lazymatch m with
      | bst_insert _ _ => iApply (wp_bst_insert _ _ _ _ _ _ HX with "H"); iIntros (?) "H"; tree_norm
      | bst_delete _ _ => iApply (wp_bst_delete with "H"); iIntros (?) "H"; tree_norm
      | bst_search _ _ => iApply (wp_bst_search with "H");
          let q := fresh "q" in let Hq := fresh in iIntros (q Hq) "H";
          vm_compute in Hq; destruct q;
          [try (by discriminate (proj1 Hq (mk_is_Some _ _ eq_refl)))
          |try (by destruct (proj2 Hq eq_refl))]
      | bst_min _ => iApply (wp_bst_min with "H"); iIntros (?) "H"
      | bst_max _ => iApply (wp_bst_max with "H"); iIntros (?) "H"
      | deref_value _ => iApply (wp_deref_node with "H"); iIntros "H"
      | bst_count _ => iApply (wp_bst_count with "H"); [done|]; iIntros "H"
      | bst_height _ => iApply (wp_bst_height with "H"); [done|]; iIntros "H"
      | bst_inorder _ => iApply (wp_bst_inorder with "H"); iIntros (? [? _]) "H"
      | bst_preorder _ => iApply (wp_bst_preorder with "H"); iIntros (? [? _]) "H"
      | bst_postorder _ => iApply (wp_bst_postorder with "H"); iIntros (? [? _]) "H"
      | bst_print _ _ => iApply (wp_bst_print with "H"); [done|]; iIntros (? [? _]) "H"
      | bst_free _ => iApply (wp_bst_free with "H")
      | show_inorder _ => unfold show_inorder
      | for_list values _ _ => unfold values; cbn [for_list]
      | for_list targets _ _ => unfold targets; cbn [for_list]
      end
  end.

(** [main] of the search tree exercise, for every behaviour of the allocator:
    unless an allocation fails it returns 0, having drawn and traversed the trees
    as expected through the three cases of deletion, and every node is freed. *)
Theorem bst_main_correct : runs main (λ r e, r = 0 ∧ stdout e = main_text) False.
Proof.
  apply wp_runs. intros mf X HX _. unfold main.
  iAssert (tree_at NULL Leaf) as "-#H"; [done|]. do 2 wp_step.
  repeat first [wp_step|call_step HX].
  iPureIntro. split; [done|]. simpl. repeat progress rewrite stdout_app /=.
  repeat match goal with H : stdout _ = _ |- _ => rewrite H; clear H end.
  vm_compute. reflexivity.
Qed.
