(* ===== verification/Sorting.v ===== *)
(** * Exercise 17: sorting

    Model of [exercises/17_sorting/sorting.c]: the five sorts on arrays in memory,
    the comparison functions, and [main].  [qsort], [rand] and [clock] belong to the
    C library: [qsort] is a parameter of [main], known to return a permutation
    ordered by the comparison function; the values of [rand] and [clock] are
    arbitrary sequences. *)

From stdpp Require Import sorting.
From S2P Require Import Prelude Machine CString Double Printf SepLogic.
#[local] Open Scope Z_scope.

(** ** Arrays

    An array of [int] is one object; [None] is an element not yet written.  Access
    outside the array or to such an element is undefined. *)

Inductive obj := OArr (a : list (option Z)).

#[export] Instance obj_arr : Prism obj (list (option Z)) :=
  {| to_obj := OArr; of_obj o := match o with OArr a => Some a end; of_to_obj _ := eq_refl |}.

Definition arr_get (p : ptr) (i : Z) : M obj Z :=
  a <- load p ;;
  if i <? 0 then undefined
  else match a !! Z.to_nat i with Some (Some v) => ret v | _ => undefined end.

Definition arr_set (p : ptr) (i v : Z) : M obj unit :=
  a <- load p ;;
  if (0 <=? i) && (i <? Z.of_nat (length a)) then store p (<[Z.to_nat i := Some v]> a)
  else undefined.

(** [swap_int(&arr[i], &arr[j])]. *)
Definition swap_int (p : ptr) (i j : Z) : M obj unit :=
  t <- arr_get p i ;;
  b <- arr_get p j ;;
  arr_set p i b ;;;
  arr_set p j t.

Definition print_arr (p : ptr) (n : Z) : M obj unit :=
  printf "[" [] ;;;
  for_range 0 n (λ i _,
    v <- arr_get p i ;;
    printf (if i <? n - 1 then "%d, " else "%d") [AInt v]) tt ;;;
  printf "]\n" [].

(** [memcpy] of [n] elements. *)
Definition copy_arr (src dst : ptr) (n : Z) : M obj unit :=
  a <- load src ;;
  b <- load dst ;;
  if (0 <=? n) && (n <=? Z.of_nat (length a)) && (n <=? Z.of_nat (length b))
  then store dst (take (Z.to_nat n) a ++ drop (Z.to_nat n) b)
  else undefined.

(** ** Bubble sort *)

(** One pass; the result is the flag [swapped]. *)
Definition bubble_pass (p : ptr) (n i : Z) : M obj bool :=
  for_range 0 (n - 1 - i) (λ j swapped,
    a <- arr_get p j ;;
    b <- arr_get p (j + 1) ;;
    if b <? a then swap_int p j (j + 1) ;;; ret true else ret swapped) false.

Definition bubble_passes (p : ptr) (n : Z) (fuel : nat) (i : Z) : M obj unit :=
  loop fuel (λ i,
    if i <? n - 1 then
      swapped <- bubble_pass p n i ;;
      if negb swapped then ret (inr tt) else ret (inl (i + 1))
    else ret (inr tt)) i.

Definition bubble_sort (p : ptr) (n : Z) : M obj unit :=
  bubble_passes p n (S (Z.to_nat n)) 0.

(** ** Insertion sort *)

(** [while (j >= 0 && arr[j] > key) { arr[j + 1] = arr[j]; j--; }] *)
Definition shift_right (p : ptr) (key i : Z) : M obj Z :=
  loop (S (Z.to_nat i)) (λ j,
    if 0 <=? j then
      v <- arr_get p j ;;
      if key <? v then arr_set p (j + 1) v ;;; ret (inl (j - 1)) else ret (inr j)
    else ret (inr j)) (i - 1).

Definition insertion_sort (p : ptr) (n : Z) : M obj unit :=
  for_range 1 n (λ i _,
    key <- arr_get p i ;;
    j <- shift_right p key i ;;
    arr_set p (j + 1) key) tt.

(** ** Selection sort *)

Definition find_min (p : ptr) (i n : Z) : M obj Z :=
  for_range (i + 1) n (λ j min_idx,
    a <- arr_get p j ;;
    b <- arr_get p min_idx ;;
    if a <? b then ret j else ret min_idx) i.

Definition selection_sort (p : ptr) (n : Z) : M obj unit :=
  for_range 0 (n - 1) (λ i _,
    min_idx <- find_min p i n ;;
    if negb (min_idx =? i) then swap_int p i min_idx else ret tt) tt.

(** ** Merge sort *)

(** [while (i <= mid && j <= hi)], state [(i, j, k)]. *)
Definition merge_heads (arr tmp : ptr) (mid hi : Z) (fuel : nat) (s : Z * Z * Z) : M obj (Z * Z * Z) :=
  loop fuel (λ '(i, j, k),
    if (i <=? mid) && (j <=? hi) then
      a <- arr_get tmp i ;;
      b <- arr_get tmp j ;;
      if a <=? b then arr_set arr k a ;;; ret (inl (i + 1, j, k + 1))
      else arr_set arr k b ;;; ret (inl (i, j + 1, k + 1))
    else ret (inr (i, j, k))) s.

(** [while (i <= last) arr[k++] = tmp[i++];], state [(i, k)]. *)
Definition copy_rest (arr tmp : ptr) (last : Z) (fuel : nat) (s : Z * Z) : M obj (Z * Z) :=
  loop fuel (λ '(i, k),
    if i <=? last then
      v <- arr_get tmp i ;; arr_set arr k v ;;; ret (inl (i + 1, k + 1))
    else ret (inr (i, k))) s.

Definition merge (arr : ptr) (lo mid hi : Z) (tmp : ptr) : M obj unit :=
  for_range lo (hi + 1) (λ k _, v <- arr_get arr k ;; arr_set tmp k v) tt ;;;
  let fuel := S (S (Z.to_nat (hi - lo))) in
  let* (i, j, k) := merge_heads arr tmp mid hi fuel (lo, mid + 1, lo) in
  let* (_, k) := copy_rest arr tmp mid fuel (i, k) in
  copy_rest arr tmp hi fuel (j, k) ;;;
  ret tt.

Fixpoint merge_sort_rec (fuel : nat) (arr : ptr) (lo hi : Z) (tmp : ptr) : M obj unit :=
  match fuel with
  | O => λ _, NoFuel
  | S fuel =>
      if hi <=? lo then ret tt
      else
        d <- int_chk (hi - lo) ;;
        let mid := lo + d / 2 in
        merge_sort_rec fuel arr lo mid tmp ;;;
        merge_sort_rec fuel arr (mid + 1) hi tmp ;;;
        merge arr lo mid hi tmp
  end.

Definition merge_sort (arr : ptr) (n : Z) : M obj unit :=
  tmp <- malloc (OArr (replicate (Z.to_nat n) None)) ;;
  match tmp with
  | None => die "malloc failed\n"
  | Some _ =>
      merge_sort_rec (S (Z.to_nat n)) arr 0 (n - 1) tmp ;;;
      free tmp
  end.

(** ** Quicksort *)

(** [if (arr[i] > arr[j]) swap_int(&arr[i], &arr[j]);] *)
Definition order_pair (p : ptr) (i j : Z) : M obj unit :=
  a <- arr_get p i ;;
  b <- arr_get p j ;;
  if b <? a then swap_int p i j else ret tt.

Definition median_of_three (p : ptr) (lo hi : Z) : M obj Z :=
  let mid := lo + (hi - lo) / 2 in
  order_pair p lo mid ;;;
  order_pair p lo hi ;;;
  order_pair p mid hi ;;;
  swap_int p mid (hi - 1) ;;;
  ret (hi - 1).

(** [while (arr[++i] < pivot) {}] and [while (arr[--j] > pivot) {}]. *)
Definition scan_up (p : ptr) (pivot : Z) (fuel : nat) (i : Z) : M obj Z :=
  loop fuel (λ i, v <- arr_get p (i + 1) ;;
    if v <? pivot then ret (inl (i + 1)) else ret (inr (i + 1))) i.
Definition scan_down (p : ptr) (pivot : Z) (fuel : nat) (j : Z) : M obj Z :=
  loop fuel (λ j, v <- arr_get p (j - 1) ;;
    if pivot <? v then ret (inl (j - 1)) else ret (inr (j - 1))) j.

Definition partition (p : ptr) (lo hi : Z) : M obj Z :=
  if hi - lo <? 2 then order_pair p lo hi ;;; ret lo
  else
    pivot_idx <- median_of_three p lo hi ;;
    pivot <- arr_get p pivot_idx ;;
    let fuel := S (Z.to_nat (hi - lo)) in
    i <- loop fuel (λ '(i, j),
      i <- scan_up p pivot fuel i ;;
      j <- scan_down p pivot fuel j ;;
      if j <=? i then ret (inr i)
      else swap_int p i j ;;; ret (inl (i, j))) (lo, hi - 1) ;;
    swap_int p i pivot_idx ;;;
    ret i.

Fixpoint quick_sort_rec (fuel : nat) (p : ptr) (lo hi : Z) : M obj unit :=
  match fuel with
  | O => λ _, NoFuel
  | S fuel =>
      if hi <=? lo then ret tt
      else
        q <- partition p lo hi ;;
        quick_sort_rec fuel p lo (q - 1) ;;;
        quick_sort_rec fuel p (q + 1) hi
  end.

Definition quick_sort (p : ptr) (n : Z) : M obj unit :=
  if n <? 2 then ret tt else quick_sort_rec (S (Z.to_nat n)) p 0 (n - 1).

(** ** Comparison functions

    A truth value is an [int]; the subtraction of [cmp_player_score] is undefined
    when it overflows. *)

Definition cmp_asc (ia ib : Z) : Z := b2z (ib <? ia) - b2z (ia <? ib).
Definition cmp_desc (ia ib : Z) : Z := b2z (ia <? ib) - b2z (ib <? ia).

Record Player := MkPlayer { name : string; score : Z }.

Definition cmp_player_score (a b : Player) : option Z :=
  let d := score b - score a in if Machine.in_int d then Some d else None.
Definition cmp_player_name (a b : Player) : Z := strcmp (name a) (name b).

(** ** [main] *)

Definition N : Z := 12.
Definition original : list Z := [64; 25; 12; 22; 11; 90; 37; 55; 8; 43; 76; 3].

Definition sorts : list (string * (ptr → Z → M obj unit)) :=
  [("bubble_sort", bubble_sort); ("insertion_sort", insertion_sort);
   ("selection_sort", selection_sort); ("merge_sort", merge_sort); ("quick_sort", quick_sort)]%string.

Definition players : list Player :=
  [MkPlayer "Alice" 9200; MkPlayer "Bob" 8750; MkPlayer "Carol" 9500;
   MkPlayer "Dave" 8100; MkPlayer "Eve" 9500].

Definition print_players (ps : list Player) : M obj unit :=
  for_list ps (λ p _, printf "  %-8s %d\n" [AStr (name p); AInt (score p)]) tt.

(** [1000.0 * (end - start) / CLOCKS_PER_SEC]. *)
Definition elapsed (start stop : Z) : double :=
  d_div (d_mul (d_of_Z 1000) (d_of_Z (stop - start))) (d_of_Z 1000000).

Section main.
(** [qsort] on [int]s and on players, [rand] and [clock] by the number of the call. *)
Context (qsort : list Z → (Z → Z → Z) → list Z).
Context (qsort_players : list Player → (Player → Player → option Z) → list Player).
Context (rand clock : nat → Z).

(** [for (int i = 0; i < nsorts; i++) { ... }] of the demonstration. *)
Definition demonstrate (orig arr : ptr) : M obj unit :=
  for_list sorts (λ '(nm, fn) _,
    copy_arr orig arr N ;;;
    fn arr N ;;;
    printf "%-16s " [AStr nm] ;;;
    print_arr arr N) tt.

(** [qsort(arr, N, sizeof(int), cmp)] on the array in memory. *)
Definition qsort_arr (p : ptr) (cmp : Z → Z → Z) : M obj unit :=
  a <- load p ;;
  match mapM id a with
  | Some l => store p (map Some (qsort l cmp))
  | None => undefined
  end.

Definition performance : M obj unit :=
  printf "\n=== Performance (n=20000) ===\n" [] ;;;
  let big_n := 20000 in
  src <- malloc (OArr (replicate (Z.to_nat big_n) None)) ;;
  buf <- malloc (OArr (replicate (Z.to_nat big_n) None)) ;;
  match src, buf with
  | Some _, Some _ =>
      for_range 0 big_n (λ i _, arr_set src i (rand (Z.to_nat i))) tt ;;;
      for_list sorts (λ '(nm, fn) (i : nat),
        copy_arr src buf big_n ;;;
        let start := clock (2 * i)%nat in
        fn buf big_n ;;;
        let stop := clock (2 * i + 1)%nat in
        long_chk (stop - start) ;;;
        printf "%-16s  %.3f ms\n" [AStr nm; ADbl (elapsed start stop)] ;;;
        ret (S i)) 0%nat ;;;
      free src ;;;
      free buf
  | _, _ => die "malloc failed\n"
  end.

Definition main : M obj Z :=
  orig <- local (OArr (map Some original)) ;;
  arr <- local (OArr (replicate (Z.to_nat N) None)) ;;
  printf "original: " [] ;;; print_arr orig N ;;;
  printf "\n" [] ;;;
  demonstrate orig arr ;;;
  printf "\n=== stdlib qsort ===\n" [] ;;;
  copy_arr orig arr N ;;;
  qsort_arr arr cmp_asc ;;;
  printf "ascending:  " [] ;;; print_arr arr N ;;;
  qsort_arr arr cmp_desc ;;;
  printf "descending: " [] ;;; print_arr arr N ;;;
  let ps := qsort_players players cmp_player_score in
  printf "\nby score (desc):\n" [] ;;;
  print_players ps ;;;
  let ps := qsort_players ps (λ a b, Some (cmp_player_name a b)) in
  printf "\nby name (asc):\n" [] ;;;
  print_players ps ;;;
  performance ;;;
  free orig ;;; free arr ;;;
  ret 0.
End main.

(** ** Integer-indexed lists *)

Definition get (xs : list Z) (i : Z) : Z := xs !!! Z.to_nat i.
Definition set (xs : list Z) (i v : Z) : list Z := <[Z.to_nat i := v]> xs.
Definition swap (xs : list Z) (i j : Z) : list Z := set (set xs i (get xs j)) j (get xs i).
Definition len (xs : list Z) : Z := Z.of_nat (length xs).

Lemma len_set xs i v : len (set xs i v) = len xs.
Proof. unfold len, set. by rewrite length_insert. Qed.

Lemma len_swap xs i j : len (swap xs i j) = len xs.
Proof. unfold swap. by rewrite !len_set. Qed.

Lemma get_set_eq xs i v : 0 ≤ i < len xs → get (set xs i v) i = v.
Proof. unfold get, set, len. intros Hi. apply list_lookup_total_insert_eq. lia. Qed.

Lemma get_set_ne xs i j v : 0 ≤ i → 0 ≤ j → i ≠ j → get (set xs i v) j = get xs j.
Proof. unfold get, set. intros. apply list_lookup_total_insert_ne. lia. Qed.

Lemma get_swap xs i j k :
  0 ≤ i < len xs → 0 ≤ j < len xs → 0 ≤ k →
  get (swap xs i j) k = if k =? i then get xs j else if k =? j then get xs i else get xs k.
Proof.
  intros Hi Hj Hk. unfold swap.
  destruct (decide (k = j)) as [->|Hkj].
  - rewrite get_set_eq; [|by rewrite len_set]. rewrite Z.eqb_refl.
    destruct (Z.eqb_spec j i); by subst.
  - rewrite (get_set_ne _ j); [|lia..]. destruct (Z.eqb_spec k j); [lia|].
    destruct (Z.eqb_spec k i) as [->|]; [by rewrite get_set_eq|]. rewrite get_set_ne; [done|lia..].
Qed.

Lemma lookup_get xs i : 0 ≤ i < len xs → xs !! Z.to_nat i = Some (get xs i).
Proof. unfold get, len. intros Hi. apply list_lookup_lookup_total_lt. lia. Qed.

(** Exchanging two elements permutes the list. *)
Lemma insert_swap_perm (xs : list Z) i j x y :
  xs !! i = Some x → xs !! j = Some y → <[j := x]> (<[i := y]> xs) ≡ₚ xs.
Proof.
  revert i j. induction xs as [|z xs IH]; intros [|i] [|j] Hi Hj; simplify_eq/=.
  - done.
  - apply list_elem_of_split_length in Hj as (l1 & l2 & -> & ->).
    rewrite insert_app_r_alt // Nat.sub_diag /=.
    rewrite -(Permutation_middle l1 l2 x) -(Permutation_middle l1 l2 y). constructor.
  - apply list_elem_of_split_length in Hi as (l1 & l2 & -> & ->).
    rewrite insert_app_r_alt // Nat.sub_diag /=.
    rewrite -(Permutation_middle l1 l2 x) -(Permutation_middle l1 l2 y). constructor.
  - by rewrite IH.
Qed.

Lemma swap_perm xs i j : 0 ≤ i < len xs → 0 ≤ j < len xs → swap xs i j ≡ₚ xs.
Proof. intros Hi Hj. by apply insert_swap_perm; apply lookup_get. Qed.

(** *** Rearrangements of a segment *)

(** [ys] is [xs] with the elements of the positions [lo .. hi] rearranged. *)
Record reorder (lo hi : Z) (xs ys : list Z) : Prop := {
  reorder_perm : ys ≡ₚ xs;
  reorder_out k : 0 ≤ k → k < lo ∨ hi < k → get ys k = get xs k;
}.

Lemma reorder_len lo hi xs ys : reorder lo hi xs ys → len ys = len xs.
Proof. intros [H _]. unfold len. by rewrite H. Qed.

Lemma reorder_refl lo hi xs : reorder lo hi xs xs.
Proof. done. Qed.

Lemma reorder_trans lo hi xs ys zs : reorder lo hi xs ys → reorder lo hi ys zs → reorder lo hi xs zs.
Proof.
  intros [H1 H2] [H3 H4]. split; [by rewrite H3|].
  intros k Hk Ho. by rewrite (H4 k Hk Ho) (H2 k Hk Ho).
Qed.

Lemma reorder_mono lo hi lo' hi' xs ys :
  lo ≤ lo' → hi' ≤ hi → reorder lo' hi' xs ys → reorder lo hi xs ys.
Proof. intros ? ? [H1 H2]. split; [done|]. intros k Hk Ho. apply H2; lia. Qed.

Lemma reorder_swap lo hi xs i j :
  0 ≤ lo → hi < len xs → lo ≤ i ≤ hi → lo ≤ j ≤ hi → reorder lo hi xs (swap xs i j).
Proof.
  intros ? ? ? ?. split; [apply swap_perm; lia|]. intros k Hk Ho.
  rewrite get_swap; [|lia..]. destruct (Z.eqb_spec k i), (Z.eqb_spec k j); lia.
Qed.

Lemma get_eq_list xs ys :
  len xs = len ys → (∀ k, 0 ≤ k < len xs → get xs k = get ys k) → xs = ys.
Proof.
  unfold len. intros Hl H. apply list_eq_same_length with (length xs); [lia|done|].
  intros i x y Hi Hx Hy. specialize (H (Z.of_nat i)).
  unfold get in H. rewrite Nat2Z.id in H.
  rewrite (list_lookup_total_correct _ _ _ Hx) (list_lookup_total_correct _ _ _ Hy) in H.
  apply H. lia.
Qed.

(** The elements of a segment. *)
Definition seg (xs : list Z) (lo hi : Z) : list Z :=
  take (Z.to_nat (hi - lo + 1)) (drop (Z.to_nat lo) xs).

Lemma elem_of_seg xs lo hi v :
  0 ≤ lo → hi < len xs → v ∈ seg xs lo hi ↔ ∃ k, lo ≤ k ≤ hi ∧ get xs k = v.
Proof.
  unfold seg, get, len. intros Hlo Hhi. rewrite list_elem_of_lookup. split.
  - intros [i Hi]. apply lookup_take_Some in Hi as [Hi Hlt]. rewrite lookup_drop in Hi.
    exists (lo + Z.of_nat i). split; [lia|]. apply list_lookup_total_correct.
    by replace (Z.to_nat (lo + Z.of_nat i)) with (Z.to_nat lo + i)%nat by lia.
  - intros (k & Hk & <-). exists (Z.to_nat (k - lo)). rewrite lookup_take_lt; [|lia].
    rewrite lookup_drop. replace (Z.to_nat lo + Z.to_nat (k - lo))%nat with (Z.to_nat k) by lia.
    apply list_lookup_lookup_total_lt. lia.
Qed.

Lemma reorder_seg lo hi xs ys :
  0 ≤ lo → lo ≤ hi + 1 → hi < len xs → reorder lo hi xs ys → seg ys lo hi ≡ₚ seg xs lo hi.
Proof.
  intros Hlo Hle Hhi Hr. pose proof (reorder_len _ _ _ _ Hr) as Hl. destruct Hr as [Hp Ho].
  assert (∀ zs : list Z, zs = take (Z.to_nat lo) zs ++ seg zs lo hi ++ drop (Z.to_nat (hi + 1)) zs) as Hsplit.
  { intros zs. unfold seg. rewrite -{1}(take_drop (Z.to_nat lo) zs). f_equal.
    rewrite -{1}(take_drop (Z.to_nat (hi - lo + 1)) (drop (Z.to_nat lo) zs)). f_equal.
    rewrite drop_drop. f_equal. lia. }
  assert (take (Z.to_nat lo) ys = take (Z.to_nat lo) xs) as E1.
  { apply get_eq_list; unfold len in *; rewrite !length_take; [lia|]. intros k Hk.
    unfold get. rewrite !list_lookup_total_alt !lookup_take_lt; [|lia..].
    rewrite -!list_lookup_total_alt. apply Ho; lia. }
  assert (drop (Z.to_nat (hi + 1)) ys = drop (Z.to_nat (hi + 1)) xs) as E2.
  { apply get_eq_list; unfold len in *; rewrite !length_drop; [lia|]. intros k Hk.
    unfold get. rewrite !list_lookup_total_alt !lookup_drop -!list_lookup_total_alt.
    specialize (Ho (hi + 1 + k)). unfold get in Ho.
    replace (Z.to_nat (hi + 1) + Z.to_nat k)%nat with (Z.to_nat (hi + 1 + k)) by lia.
    apply Ho; lia. }
  rewrite (Hsplit xs) (Hsplit ys) E1 E2 in Hp.
  by apply Permutation_app_inv_l, Permutation_app_inv_r in Hp.
Qed.

(** What holds of every element of the segment still does. *)
Lemma reorder_forall (P : Z → Prop) lo hi xs ys :
  0 ≤ lo → hi < len xs → reorder lo hi xs ys →
  (∀ k, lo ≤ k ≤ hi → P (get xs k)) → ∀ k, lo ≤ k ≤ hi → P (get ys k).
Proof.
  intros Hlo Hhi Hr HP k Hk. pose proof (reorder_len _ _ _ _ Hr).
  assert (get ys k ∈ seg xs lo hi) as Hin.
  { rewrite -(reorder_seg lo hi xs ys) //; [|lia]. apply elem_of_seg; [lia|lia|]. by exists k. }
  apply elem_of_seg in Hin as (k' & Hk' & <-); [|lia..]. by apply HP.
Qed.

(** *** Sorted segments *)

Definition sorted_on (xs : list Z) (lo hi : Z) : Prop :=
  ∀ i j, lo ≤ i → i ≤ j → j ≤ hi → get xs i ≤ get xs j.

Lemma sorted_on_Sorted xs : sorted_on xs 0 (len xs - 1) → StronglySorted Z.le xs.
Proof.
  unfold sorted_on, len. induction xs as [|x xs IH]; intros H; constructor.
  - apply IH. intros i j Hi Hij Hj. specialize (H (i + 1) (j + 1)). unfold get in *. simpl in H.
    replace (Z.to_nat (i + 1)) with (S (Z.to_nat i)) in H by lia.
    replace (Z.to_nat (j + 1)) with (S (Z.to_nat j)) in H by lia. apply H; lia.
  - apply Forall_lookup. intros i y Hy. specialize (H 0 (Z.of_nat i + 1)). unfold get in H. simpl in H.
    replace (Z.to_nat (Z.of_nat i + 1)) with (S i) in H by lia. simpl in H.
    rewrite (list_lookup_total_correct _ _ _ Hy) in H. apply H; [lia..|].
    apply lookup_lt_Some in Hy. lia.
Qed.

(** The sorted list. *)
Definition sort (xs : list Z) : list Z := sorting.merge_sort Z.le xs.

(** A sorted rearrangement of the whole list is the sorted list. *)
Lemma sorted_unique xs ys : ys ≡ₚ xs → sorted_on ys 0 (len ys - 1) → ys = sort xs.
Proof.
  intros Hp Hs. apply (StronglySorted_unique Z.le).
  - by apply sorted_on_Sorted.
  - apply StronglySorted_merge_sort; apply _.
  - rewrite Hp. unfold sort. by rewrite sorting.merge_sort_Permutation.
Qed.

(** ** Arrays in memory *)

(** An array all of whose elements are written. *)
Definition arr (p : positive) (xs : list Z) : hpropI obj := p ↦ OArr (Some <$> xs).

Section rules.
Context (mf : bool) (X : Z → Prop).

Lemma wp_arr_get p xs i (Q : Z → list ev → hpropI obj) :
  0 ≤ i < len xs → arr p xs -∗ (arr p xs -∗ Q (get xs i) []) -∗ wp mf X (arr_get (Some p) i) Q.
Proof.
  intros Hi. iIntros "H HQ". unfold arr_get, arr. do 2 wp_step.
  destruct (Z.ltb_spec i 0); [lia|].
  rewrite list_lookup_fmap (lookup_get xs i Hi). simpl. wp_step. by iApply "HQ".
Qed.

Lemma wp_arr_set p xs i v (Q : unit → list ev → hpropI obj) :
  0 ≤ i < len xs → arr p xs -∗ (arr p (set xs i v) -∗ Q tt []) -∗
  wp mf X (arr_set (Some p) i v) Q.
Proof.
  intros Hi. iIntros "H HQ". unfold arr_set, arr. do 2 wp_step. rewrite length_fmap.
  unfold len in Hi. destruct (Z.leb_spec 0 i), (Z.ltb_spec i (Z.of_nat (length xs))); try lia. simpl.
  wp_step. iApply "HQ". unfold set. by rewrite list_fmap_insert.
Qed.

Lemma wp_swap_int p xs i j (Q : unit → list ev → hpropI obj) :
  0 ≤ i < len xs → 0 ≤ j < len xs → arr p xs -∗ (arr p (swap xs i j) -∗ Q tt []) -∗
  wp mf X (swap_int (Some p) i j) Q.
Proof.
  intros Hi Hj. iIntros "H HQ". unfold swap_int.
  wp_step. iApply (wp_arr_get with "H"); [done|]. iIntros "H".
  wp_step. iApply (wp_arr_get with "H"); [done|]. iIntros "H".
  wp_step. iApply (wp_arr_set with "H"); [done|]. iIntros "H".
  iApply (wp_arr_set with "H"); [by rewrite len_set|]. iIntros "H". by iApply "HQ".
Qed.

(** What a sort does to the array. *)
Definition sorts_array (fn : ptr → Z → M obj unit) : Prop :=
  ∀ p xs (Q : unit → list ev → hpropI obj), len xs ≤ INT_MAX →
    arr p xs -∗ (arr p (sort xs) -∗ Q tt []) -∗ wp mf X (fn (Some p) (len xs)) Q.

(** *** Bubble sort *)

(** After [j] steps of a pass over [xs]: the largest of the first elements is at
    [j]; no exchange has happened only if they were in order. *)
Definition bubbled (m : Z) (xs : list Z) (j : Z) (swapped : bool) (ys : list Z) : Prop :=
  reorder 0 m xs ys ∧ (∀ k, 0 ≤ k ≤ j → get ys k ≤ get ys j) ∧
  (swapped = false → sorted_on ys 0 j).

Lemma bubbled_step m xs j swapped ys :
  0 ≤ j < m → m < len xs → bubbled m xs j swapped ys →
  bubbled m xs (j + 1)
    (if get ys (j + 1) <? get ys j then true else swapped)
    (if get ys (j + 1) <? get ys j then swap ys j (j + 1) else ys).
Proof.
  intros Hj Hm (Hr & Hmax & Hs). pose proof (reorder_len _ _ _ _ Hr).
  destruct (Z.ltb_spec (get ys (j + 1)) (get ys j)) as [Hlt|Hge].
  - split_and!; [|intros k Hk|done].
    + eapply reorder_trans; [done|]. apply reorder_swap; lia.
    + rewrite !get_swap; [|lia..]. rewrite (_ : (j + 1 =? j) = false); [|lia]. rewrite Z.eqb_refl.
      destruct (Z.eqb_spec k j) as [->|]; [lia|]. destruct (Z.eqb_spec k (j + 1)); [lia|].
      apply Hmax. lia.
  - split_and!; [done| |].
    + intros k Hk. destruct (decide (k = j + 1)) as [->|]; [lia|].
      specialize (Hmax k ltac:(lia)). lia.
    + intros Hf a b Ha Hab Hb. specialize (Hs Hf). destruct (decide (b = j + 1)) as [->|].
      * destruct (decide (a = j + 1)) as [->|]; [lia|]. specialize (Hmax a ltac:(lia)). lia.
      * apply Hs; lia.
Qed.

Lemma wp_bubble_pass p xs i (Q : bool → list ev → hpropI obj) :
  0 ≤ i → i < len xs - 1 → arr p xs -∗
  (∀ b ys, ⌈bubbled (len xs - 1 - i) xs (len xs - 1 - i) b ys⌉ -∗ arr p ys -∗ Q b []) -∗
  wp mf X (bubble_pass (Some p) (len xs) i) Q.
Proof.
  intros Hi Hlt. iIntros "H HQ". unfold bubble_pass.
  iApply (wp_for_range _ _ (λ j b o, ∃ ys, ⌈bubbled (len xs - 1 - i) xs j b ys⌉ ∗ ⌈o = []⌉ ∗ arr p ys)%I
            with "[H]"); [lia| | |].
  - iIntros (j b o Hj) "(%ys & %Hb & -> & H)". pose proof Hb as (Hr & _).
    pose proof (reorder_len _ _ _ _ Hr).
    wp_step. iApply (wp_arr_get with "H"); [lia|]. iIntros "H".
    wp_step. iApply (wp_arr_get with "H"); [lia|]. iIntros "H".
    pose proof (bubbled_step (len xs - 1 - i) xs j b ys ltac:(lia) ltac:(lia) Hb) as Hb'.
    destruct (get ys (j + 1) <? get ys j).
    + wp_step. iApply (wp_swap_int with "H"); [lia|lia|]. iIntros "H". wp_step. iExists _. by iFrame.
    + wp_step. iExists _. by iFrame.
  - iExists xs. iFrame. iPureIntro. split; [|done]. split_and!; [done| |].
    + intros k Hk. by replace k with 0 by lia.
    + intros _ a b Ha Hab Hb. by replace b with a by lia.
  - iIntros (b o) "(%ys & %Hb & -> & H)". by iApply ("HQ" with "[] H").
Qed.

(** The last [i] elements are in place. *)
Definition bubble_inv (xs : list Z) (i : Z) (ys : list Z) : Prop :=
  ys ≡ₚ xs ∧ sorted_on ys (len xs - i) (len xs - 1) ∧
  (∀ a b, 0 ≤ a < len xs - i → len xs - i ≤ b < len xs → get ys a ≤ get ys b).

Lemma bubble_inv_step xs i ys b zs :
  0 ≤ i < len xs - 1 → bubble_inv xs i ys →
  bubbled (len ys - 1 - i) ys (len ys - 1 - i) b zs →
  bubble_inv xs (i + 1) zs ∧ (b = false → sorted_on zs 0 (len xs - 1)).
Proof.
  intros Hi (Hp & Hs & Hc) (Hr & Hmax & Hb).
  assert (len ys = len xs) as El by (unfold len; by rewrite Hp). rewrite El in Hr, Hmax, Hb.
  pose proof (reorder_len _ _ _ _ Hr) as El'.
  assert (∀ b, len xs - i ≤ b < len xs → ∀ a, 0 ≤ a < len xs - i → get zs a ≤ get zs b) as Hc'.
  { intros k Hk. rewrite (reorder_out _ _ _ _ Hr k); [|lia..].
    intros a Ha. apply (reorder_forall (λ v, v ≤ get ys k) 0 (len xs - 1 - i) ys zs); [lia|lia|done| |lia].
    intros k' Hk'. apply Hc; lia. }
  assert (sorted_on zs (len xs - i) (len xs - 1)) as Hs'.
  { intros k k' Hk Hkk Hk'. rewrite !(reorder_out _ _ _ _ Hr); [|lia..]. apply Hs; lia. }
  split.
  - split_and!; [by rewrite (reorder_perm _ _ _ _ Hr)| |].
    + intros k k' Hk Hkk Hk'. destruct (decide (k = len xs - (i + 1))) as [->|].
      * destruct (decide (k' = len xs - (i + 1))) as [->|]; [lia|]. apply Hc'; lia.
      * apply Hs'; lia.
    + intros a k Ha Hk. destruct (decide (k = len xs - (i + 1))) as [->|].
      * replace (len xs - (i + 1)) with (len xs - 1 - i) by lia. apply Hmax. lia.
      * apply Hc'; lia.
  - intros Hf k k' Hk Hkk Hk'. destruct (decide (k' < len xs - i)); [apply (Hb Hf); lia|].
    destruct (decide (k < len xs - i)); [apply Hc'; lia|apply Hs'; lia].
Qed.

Lemma wp_bubble_passes p xs n i ys (Q : unit → list ev → hpropI obj) :
  (Z.to_nat (len xs - i) < n)%nat → 0 ≤ i → bubble_inv xs i ys →
  arr p ys -∗ (arr p (sort xs) -∗ Q tt []) -∗ wp mf X (bubble_passes (Some p) (len xs) n i) Q.
Proof.
  revert i ys. induction n as [|n IH]; intros i ys Hn Hi Hinv; [lia|]. unfold bubble_passes.
  assert (len ys = len xs) as El by (unfold len; by rewrite (proj1 Hinv)).
  iIntros "H HQ". iApply wp_loop. destruct (Z.ltb_spec i (len xs - 1)).
  - wp_step. rewrite -El. iApply (wp_bubble_pass with "H"); [lia|lia|]. iIntros (b zs Hb) "H".
    destruct (bubble_inv_step xs i ys b zs ltac:(lia) Hinv Hb) as [Hinv' Hsorted].
    assert (len zs = len xs) as Elz by (unfold len; by rewrite (proj1 Hinv')).
    destruct b; simpl; wp_step.
    + rewrite El. iApply (IH with "H HQ"); [lia|lia|done].
    + iApply "HQ". rewrite -(sorted_unique xs zs); [done|apply Hinv'|]. rewrite Elz. by apply Hsorted.
  - wp_step. iApply "HQ". rewrite -(sorted_unique xs ys); [done|apply Hinv|].
    rewrite El. destruct Hinv as (Hp & Hs & Hc). intros a b Ha Hab Hb.
    destruct (decide (a < len xs - i)), (decide (b < len xs - i)).
    + by replace b with a by lia.
    + apply Hc; lia.
    + lia.
    + apply Hs; lia.
Qed.

Lemma wp_bubble_sort : sorts_array bubble_sort.
Proof.
  intros p xs Q Hlen. iIntros "H HQ".
  iApply (wp_bubble_passes with "H HQ"); [unfold len; lia|done|].
  split_and!; [done| |]; unfold sorted_on; intros; lia.
Qed.
End rules.

Section simple_sorts.
Context (mf : bool) (X : Z → Prop).

(** *** Insertion sort *)

(** [key] stands at [j + 1]; without it the first [i + 1] elements are in order, and
    those after it are larger. *)
Definition shifted (ys : list Z) (i key j : Z) (ws : list Z) : Prop :=
  reorder 0 i ys ws ∧ get ws (j + 1) = key ∧
  (∀ a b, 0 ≤ a → a ≤ b → b ≤ i → a ≠ j + 1 → b ≠ j + 1 → get ws a ≤ get ws b) ∧
  (∀ b, j + 1 < b ≤ i → key < get ws b).

Lemma shifted_step ys i key j ws :
  0 ≤ j < i → i < len ys → shifted ys i key j ws → key < get ws j →
  shifted ys i key (j - 1) (swap ws j (j + 1)).
Proof.
  intros Hj Hi (Hr & Hk & Ho & Hl) Hlt. pose proof (reorder_len _ _ _ _ Hr).
  assert (∀ k, 0 ≤ k → get (swap ws j (j + 1)) k =
    if k =? j then key else if k =? j + 1 then get ws j else get ws k) as Hg.
  { intros k Hk0. rewrite get_swap; [|lia..]. by rewrite Hk. }
  split_and!.
  - eapply reorder_trans; [done|]. apply reorder_swap; lia.
  - rewrite Hg; [|lia]. by rewrite (_ : (j - 1 + 1 =? j) = true); [|lia].
  - intros a b Ha Hab Hb Haj Hbj. rewrite !Hg; [|lia..].
    destruct (Z.eqb_spec a j), (Z.eqb_spec b j); try lia.
    destruct (Z.eqb_spec a (j + 1)), (Z.eqb_spec b (j + 1)); try lia; apply Ho; lia.
  - intros b Hb. rewrite Hg; [|lia]. destruct (Z.eqb_spec b j); [lia|].
    destruct (Z.eqb_spec b (j + 1)); [done|]. apply Hl. lia.
Qed.

(** The array during the shift is [ws] but for the place of [key]. *)
Lemma shift_heap zs ws key j :
  0 ≤ j → j + 1 < len zs → set zs (j + 1) key = ws →
  set (set zs (j + 1) (get zs j)) j key = swap ws j (j + 1).
Proof.
  intros Hj Hlt <-. apply get_eq_list; [by rewrite len_swap !len_set|].
  rewrite !len_set. intros k Hk. rewrite get_swap; [|rewrite ?len_set; lia..].
  rewrite get_set_eq; [|lia]. rewrite (get_set_ne zs (j + 1) j key); [|lia..].
  destruct (Z.eqb_spec k j) as [->|]; [by rewrite get_set_eq ?len_set; [|lia]|].
  rewrite get_set_ne; [|lia..]. destruct (Z.eqb_spec k (j + 1)) as [->|].
  - rewrite get_set_eq; [done|lia].
  - by rewrite !get_set_ne; [|lia..].
Qed.

Lemma wp_shift_right p ys i key n j zs ws (Q : Z → list ev → hpropI obj) :
  (Z.to_nat (j + 1) < n)%nat → -1 ≤ j < i → i < len ys →
  set zs (j + 1) key = ws → shifted ys i key j ws → arr p zs -∗
  (∀ j' zs', ⌈-1 ≤ j' < i⌉ -∗ ⌈reorder 0 i ys (set zs' (j' + 1) key)⌉ -∗ ⌈len zs' = len ys⌉ -∗
     ⌈sorted_on (set zs' (j' + 1) key) 0 i⌉ -∗ arr p zs' -∗ Q j' []) -∗
  wp mf X (loop n (λ j,
    if 0 <=? j then
      v <- arr_get (Some p) j ;;
      if key <? v then arr_set (Some p) (j + 1) v ;;; ret (inl (j - 1)) else ret (inr j)
    else ret (inr j)) j) Q.
Proof.
  revert j zs ws. induction n as [|n IH]; intros j zs ws Hn Hj Hi Hz Hs; [lia|].
  pose proof Hs as (Hr & Hk & Ho & Hl). pose proof (reorder_len _ _ _ _ Hr) as El.
  assert (len zs = len ys) as Elz by (rewrite -El -Hz len_set; done).
  assert ((j < 0 ∨ get ws j ≤ key) → sorted_on ws 0 i) as Hdone.
  { intros Hc a b Ha Hab Hb. destruct (decide (a = j + 1)) as [->|], (decide (b = j + 1)) as [->|].
    - done.
    - rewrite Hk. specialize (Hl b). lia.
    - rewrite Hk. destruct Hc as [|Hc]; [lia|]. specialize (Ho a j). lia.
    - by apply Ho. }
  iIntros "H HQ". iApply wp_loop. destruct (Z.leb_spec 0 j).
  - wp_step. iApply (wp_arr_get with "H"); [lia|]. iIntros "H".
    assert (get ws j = get zs j) as Eg by (rewrite -Hz get_set_ne; [done|lia..]).
    destruct (Z.ltb_spec key (get zs j)).
    + wp_step. iApply (wp_arr_set with "H"); [lia|]. iIntros "H". wp_step.
      iApply (IH _ _ (swap ws j (j + 1)) with "H HQ"); [lia|lia|done| |].
      * replace (j - 1 + 1) with j by lia. by apply shift_heap; [|lia|].
      * apply shifted_step; [lia|done|done|lia].
    + wp_step. iApply ("HQ" with "[] [] [] [] H"); iPureIntro; rewrite ?Hz; [lia|done|done|].
      apply Hdone. lia.
  - wp_step. iApply ("HQ" with "[] [] [] [] H"); iPureIntro; rewrite ?Hz; [lia|done|done|].
    apply Hdone. lia.
Qed.

Lemma wp_insertion_sort : sorts_array mf X insertion_sort.
Proof.
  intros p xs Q Hlen. iIntros "H HQ". unfold insertion_sort.
  destruct (decide (len xs < 1)) as [Hsmall|Hbig].
  { unfold for_range. replace (Z.to_nat (len xs - 1)) with 0%nat by lia. simpl. wp_step.
    iApply "HQ". rewrite -(sorted_unique xs xs); [done|done|]. intros a b; lia. }
  iApply (wp_for_range _ _ (λ i _ o, ∃ ys, ⌈ys ≡ₚ xs⌉ ∗ ⌈sorted_on ys 0 (i - 1)⌉ ∗ ⌈o = []⌉ ∗ arr p ys)%I
            with "[H]"); [lia| | |].
  - iIntros (i [] o Hi) "(%ys & %Hp & %Hs & -> & H)".
    assert (len ys = len xs) as El by (unfold len; by rewrite Hp).
    wp_step. iApply (wp_arr_get with "H"); [lia|]. iIntros "H".
    wp_step. unfold shift_right.
    iApply (wp_shift_right p ys i (get ys i) _ _ ys ys with "H"); [lia|lia|lia| | |].
    + replace (i - 1 + 1) with i by lia. apply get_eq_list; [by rewrite len_set|].
      rewrite len_set. intros k Hk. destruct (decide (k = i)) as [->|]; [rewrite get_set_eq; [done|lia]|].
      rewrite get_set_ne; [done|lia..].
    + split_and!; [done|by replace (i - 1 + 1) with i by lia| |lia].
      intros a b Ha Hab Hb Hai Hbi. apply Hs; lia.
    + iIntros (j zs Hj Hr Ez Hs') "H". iApply (wp_arr_set with "H"); [lia|]. iIntros "H".
      iExists _. iFrame. iPureIntro. split_and!; [|by replace (i + 1 - 1) with i by lia|done].
      by rewrite (reorder_perm _ _ _ _ Hr).
  - iExists xs. iFrame. iPureIntro. split_and!; [done|intros a b ???; by replace b with a by lia|done].
  - iIntros ([] o) "(%ys & %Hp & %Hs & -> & H)". iApply "HQ".
    rewrite -(sorted_unique xs ys); [done|done|].
    rewrite (_ : len ys = len xs); [done|unfold len; by rewrite Hp].
Qed.

(** *** Selection sort *)

Lemma wp_find_min p ys i (Q : Z → list ev → hpropI obj) :
  0 ≤ i < len ys → arr p ys -∗
  (∀ m, ⌈i ≤ m < len ys⌉ -∗ ⌈∀ k, i ≤ k < len ys → get ys m ≤ get ys k⌉ -∗ arr p ys -∗ Q m []) -∗
  wp mf X (find_min (Some p) i (len ys)) Q.
Proof.
  intros Hi. iIntros "H HQ". unfold find_min.
  iApply (wp_for_range _ _ (λ j m o, ⌈i ≤ m < j⌉ ∗ ⌈∀ k, i ≤ k < j → get ys m ≤ get ys k⌉ ∗
            ⌈o = []⌉ ∗ arr p ys)%I with "[H]"); [lia| | |].
  - iIntros (j m o Hj) "(%Hm & %Hmin & -> & H)".
    wp_step. iApply (wp_arr_get with "H"); [lia|]. iIntros "H".
    wp_step. iApply (wp_arr_get with "H"); [lia|]. iIntros "H".
    destruct (Z.ltb_spec (get ys j) (get ys m)); wp_step; iFrame; iPureIntro;
      split_and!; try lia; try done; intros k Hk; destruct (decide (k = j)) as [->|]; try lia;
      specialize (Hmin k ltac:(lia)); lia.
  - iFrame. iPureIntro. split_and!; [lia|lia| |done]. intros k Hk. by replace k with i by lia.
  - iIntros (m o) "(%Hm & %Hmin & -> & H)". iApply ("HQ" with "[] [] H"); iPureIntro; [lia|done].
Qed.

(** The first [i] elements are in order and no larger than the others. *)
Definition selected (xs : list Z) (i : Z) (ys : list Z) : Prop :=
  ys ≡ₚ xs ∧ ∀ a b, 0 ≤ a → a ≤ b → b < len xs → a < i → get ys a ≤ get ys b.

Lemma selected_step xs i ys m :
  0 ≤ i < len xs → selected xs i ys → i ≤ m < len xs →
  (∀ k, i ≤ k < len xs → get ys m ≤ get ys k) → selected xs (i + 1) (swap ys i m).
Proof.
  intros Hi [Hp Hs] Hm Hmin. assert (len ys = len xs) as El by (unfold len; by rewrite Hp).
  split; [rewrite swap_perm; [done|lia..]|].
  intros a b Ha Hab Hb Hai. rewrite !get_swap; [|lia..].
  destruct (Z.eqb_spec a i), (Z.eqb_spec b i), (Z.eqb_spec a m), (Z.eqb_spec b m); subst; try lia;
    try (apply Hs; lia); try (apply Hmin; lia).
Qed.

Lemma wp_selection_sort : sorts_array mf X selection_sort.
Proof.
  intros p xs Q Hlen. iIntros "H HQ". unfold selection_sort.
  destruct (decide (len xs < 1)) as [Hsmall|Hbig].
  { unfold for_range. replace (Z.to_nat (len xs - 1 - 0)) with 0%nat by lia. simpl. wp_step.
    iApply "HQ". rewrite -(sorted_unique xs xs); [done|done|]. intros a b; lia. }
  iApply (wp_for_range _ _ (λ i _ o, ∃ ys, ⌈selected xs i ys⌉ ∗ ⌈o = []⌉ ∗ arr p ys)%I
            with "[H]"); [lia| | |].
  - iIntros (i [] o Hi) "(%ys & %Hs & -> & H)".
    assert (len ys = len xs) as El by (unfold len; by rewrite (proj1 Hs)).
    wp_step. rewrite -El. iApply (wp_find_min with "H"); [lia|]. iIntros (m Hm Hmin) "H".
    rewrite El in Hm Hmin. pose proof (selected_step xs i ys m ltac:(lia) Hs Hm Hmin) as Hs'.
    destruct (Z.eqb_spec m i) as [->|]; simpl.
    + wp_step. iExists ys. iFrame. iPureIntro. split; [|done].
      rewrite (_ : ys = swap ys i i); [done|]. apply get_eq_list; [by rewrite len_swap|].
      intros k Hk. rewrite get_swap; [|lia..]. destruct (Z.eqb_spec k i); by subst.
    + iApply (wp_swap_int with "H"); [lia|lia|]. iIntros "H". iExists _. by iFrame.
  - iExists xs. iFrame. iPureIntro. split; [|done]. split; [done|lia].
  - iIntros ([] o) "(%ys & %Hs & -> & H)". iApply "HQ". destruct Hs as [Hp Hs].
    assert (len ys = len xs) as El by (unfold len; by rewrite Hp).
    rewrite -(sorted_unique xs ys); [done|done|]. rewrite El. intros a b Ha Hab Hb.
    destruct (decide (a = b)) as [->|]; [done|]. apply Hs; lia.
Qed.
End simple_sorts.

(** *** Merge sort *)

Lemma seg_nil xs lo hi : hi < lo → seg xs lo hi = [].
Proof. intros H. unfold seg. by replace (Z.to_nat (hi - lo + 1)) with 0%nat by lia. Qed.

Lemma seg_cons xs lo hi :
  0 ≤ lo → lo ≤ hi → hi < len xs → seg xs lo hi = get xs lo :: seg xs (lo + 1) hi.
Proof.
  intros H1 H2 H3. unfold seg.
  rewrite (drop_S xs (get xs lo) (Z.to_nat lo)); [|apply lookup_get; lia].
  replace (Z.to_nat (hi - lo + 1)) with (S (Z.to_nat (hi - (lo + 1) + 1))) by lia. simpl.
  by replace (S (Z.to_nat lo)) with (Z.to_nat (lo + 1)) by lia.
Qed.

Lemma len_seg xs lo hi : 0 ≤ lo → lo ≤ hi + 1 → hi < len xs → len (seg xs lo hi) = hi - lo + 1.
Proof. unfold len, seg. intros. rewrite length_take length_drop. lia. Qed.

Lemma seg_app xs lo mid hi :
  0 ≤ lo → lo ≤ mid + 1 → mid ≤ hi → seg xs lo hi = seg xs lo mid ++ seg xs (mid + 1) hi.
Proof.
  intros H1 H2 H3. unfold seg.
  replace (Z.to_nat (hi - lo + 1)) with (Z.to_nat (mid - lo + 1) + Z.to_nat (hi - (mid + 1) + 1))%nat by lia.
  rewrite -take_take_drop drop_drop. do 3 f_equal. lia.
Qed.

Lemma split_seg xs lo hi :
  0 ≤ lo → lo ≤ hi + 1 → hi < len xs →
  xs = take (Z.to_nat lo) xs ++ seg xs lo hi ++ drop (Z.to_nat (hi + 1)) xs.
Proof.
  intros H1 H2 H3. unfold seg. rewrite -{1}(take_drop (Z.to_nat lo) xs). f_equal.
  rewrite -{1}(take_drop (Z.to_nat (hi - lo + 1)) (drop (Z.to_nat lo) xs)). f_equal.
  rewrite drop_drop. f_equal. lia.
Qed.

Lemma get_app_mid A M C k :
  len A ≤ k < len A + len M → get (A ++ M ++ C) k = get M (k - len A).
Proof.
  unfold get, len. intros Hk. rewrite !list_lookup_total_alt. f_equal.
  rewrite lookup_app_r; [|lia]. rewrite lookup_app_l; [|lia]. f_equal. lia.
Qed.

Lemma sorted_seg xs lo hi :
  0 ≤ lo → hi < len xs → sorted_on xs lo hi → Sorted Z.le (seg xs lo hi).
Proof.
  intros H1 H2 Hs. apply StronglySorted_Sorted, sorted_on_Sorted.
  destruct (decide (hi < lo)); [rewrite seg_nil; [intros a b; unfold len; simpl; lia|done]|].
  rewrite len_seg; [|lia..]. intros a b Ha Hab Hb.
  assert (∀ k, 0 ≤ k ≤ hi - lo → get (seg xs lo hi) k = get xs (lo + k)) as Hg.
  { intros k Hk. rewrite {2}(split_seg xs lo hi); [|lia..].
    assert (len (take (Z.to_nat lo) xs) = lo) as Et by (unfold len in *; rewrite length_take; lia).
    rewrite get_app_mid; rewrite ?Et ?len_seg; [f_equal; lia|lia..]. }
  rewrite !Hg; [|lia..]. apply Hs; lia.
Qed.

(** Replacing a segment by a sorted rearrangement of it. *)
Lemma replace_seg xs lo hi M :
  0 ≤ lo → lo ≤ hi + 1 → hi < len xs → M ≡ₚ seg xs lo hi → Sorted Z.le M →
  reorder lo hi xs (take (Z.to_nat lo) xs ++ M ++ drop (Z.to_nat (hi + 1)) xs) ∧
  sorted_on (take (Z.to_nat lo) xs ++ M ++ drop (Z.to_nat (hi + 1)) xs) lo hi.
Proof.
  intros H1 H2 H3 Hp Hs.
  assert (len (take (Z.to_nat lo) xs) = lo) as Et by (unfold len in *; rewrite length_take; lia).
  assert (len M = hi - lo + 1) as Em by (rewrite -(len_seg xs lo hi) //; unfold len; by rewrite Hp).
  split; [split|].
  - rewrite {3}(split_seg xs lo hi) //. by rewrite Hp.
  - intros k Hk Ho. rewrite {3}(split_seg xs lo hi) //. unfold get.
    rewrite !list_lookup_total_alt. f_equal.
    assert (length M = length (seg xs lo hi)) as El by (by rewrite Hp).
    unfold len in *. destruct (decide (k < lo)).
    + rewrite !lookup_app_l; [done|lia..].
    + rewrite !lookup_app_r; [|lia..]. by rewrite El.
  - intros a b Ha Hab Hb. rewrite !get_app_mid; [|lia..]. rewrite Et.
    apply Sorted_StronglySorted in Hs; [|apply _].
    assert (∀ ys, StronglySorted Z.le ys → sorted_on ys 0 (len ys - 1)) as Hss.
    { clear. unfold sorted_on, len. intros ys H. induction H as [|y ys H IH Hy]; intros a b Ha Hab Hb.
      - simpl in Hb. lia.
      - unfold get in *. destruct (decide (a = 0)) as [->|].
        + destruct (decide (b = 0)) as [->|]; [lia|]. simpl.
          rewrite Forall_lookup in Hy. replace (Z.to_nat b) with (S (Z.to_nat (b - 1))) by lia. simpl.
          apply (Hy (Z.to_nat (b - 1))). apply list_lookup_lookup_total_lt. simpl in Hb. lia.
        + specialize (IH (a - 1) (b - 1)). simpl in *.
          replace (Z.to_nat a) with (S (Z.to_nat (a - 1))) by lia.
          replace (Z.to_nat b) with (S (Z.to_nat (b - 1))) by lia. apply IH; lia. }
    apply Hss; [done|lia..].
Qed.

Section merge.
Context (mf : bool) (X : Z → Prop).

(** The buffer holds the segment [lo .. hi] of [ys]. *)
Definition holds (ts : list (option Z)) (ys : list Z) (lo hi : Z) : Prop :=
  ∀ k, lo ≤ k ≤ hi → ts !! Z.to_nat k = Some (Some (get ys k)).

Definition buffer (t : positive) (ts : list (option Z)) : hpropI obj := t ↦ OArr ts.

Lemma wp_buffer_get t ts ys lo hi i (Q : Z → list ev → hpropI obj) :
  holds ts ys lo hi → 0 ≤ lo → lo ≤ i ≤ hi → buffer t ts -∗
  (buffer t ts -∗ Q (get ys i) []) -∗ wp mf X (arr_get (Some t) i) Q.
Proof.
  intros Hh Hlo Hi. iIntros "H HQ". unfold arr_get, buffer. do 2 wp_step.
  destruct (Z.ltb_spec i 0); [lia|]. rewrite (Hh i Hi). wp_step. by iApply "HQ".
Qed.

Lemma wp_buffer_set t ts i v (Q : unit → list ev → hpropI obj) :
  0 ≤ i < Z.of_nat (length ts) → buffer t ts -∗
  (buffer t (<[Z.to_nat i := Some v]> ts) -∗ Q tt []) -∗ wp mf X (arr_set (Some t) i v) Q.
Proof.
  intros Hi. iIntros "H HQ". unfold arr_set, buffer. do 2 wp_step.
  destruct (Z.leb_spec 0 i), (Z.ltb_spec i (Z.of_nat (length ts))); try lia. simpl.
  wp_step. by iApply "HQ".
Qed.

(** Writing the next element of the output: [k] elements are written, [B] is what the
    output has still to overwrite. *)
Lemma wp_output p P b B C k v (Q : unit → list ev → hpropI obj) :
  len P = k → arr p (P ++ (b :: B) ++ C) -∗
  (arr p ((P ++ [v]) ++ B ++ C) -∗ Q tt []) -∗ wp mf X (arr_set (Some p) k v) Q.
Proof.
  intros <-. iIntros "H HQ".
  iApply (wp_arr_set with "H"); [unfold len; rewrite !length_app; simpl; lia|].
  unfold set, len. rewrite Nat2Z.id insert_app_r_alt // Nat.sub_diag /= -app_assoc. done.
Qed.

Lemma wp_merge_heads p t ts ys lo mid hi n i j k P B C (Q : Z * Z * Z → list ev → hpropI obj) :
  holds ts ys lo hi → 0 ≤ lo → hi < len ys → lo ≤ i ≤ mid + 1 → mid + 1 ≤ j ≤ hi + 1 → mid < hi →
  len P = k → len B = (mid + 1 - i) + (hi + 1 - j) →
  (Z.to_nat ((mid + 1 - i) + (hi + 1 - j)) < n)%nat →
  arr p (P ++ B ++ C) -∗ buffer t ts -∗
  (∀ i' j' k' P' B', ⌈lo ≤ i' ≤ mid + 1⌉ -∗ ⌈mid + 1 ≤ j' ≤ hi + 1⌉ -∗ ⌈len P' = k'⌉ -∗
     ⌈(len B' = (mid + 1 - i') + (hi + 1 - j'))%Z⌉ -∗
     ⌈P' ++ seg ys i' mid ++ seg ys j' hi =
        P ++ list_merge Z.le (seg ys i mid) (seg ys j hi)⌉ -∗
     arr p (P' ++ B' ++ C) -∗ buffer t ts -∗ Q (i', j', k') []) -∗
  wp mf X (merge_heads (Some p) (Some t) mid hi n (i, j, k)) Q.
Proof.
  intros Hh Hlo Hhi. revert i j k P B. induction n as [|n IH]; intros i j k P B Hi Hj Hm HP HB Hn; [lia|].
  iIntros "H Ht HQ". unfold merge_heads. iApply wp_loop.
  destruct (Z.leb_spec i mid) as [Him|Him], (Z.leb_spec j hi) as [Hjh|Hjh]; cbn [andb].
  - wp_step. iApply (wp_buffer_get with "Ht"); [done|done|lia|]. iIntros "Ht".
    wp_step. iApply (wp_buffer_get with "Ht"); [done|done|lia|]. iIntros "Ht".
    destruct B as [|b B]; [unfold len in HB; simpl in HB; lia|].
    rewrite (seg_cons ys i mid); [|lia..]. rewrite (seg_cons ys j hi); [|lia..].
    assert (∀ v, len (P ++ [v]) = k + 1) as HP'.
    { intros v. unfold len in *. rewrite length_app. simpl. lia. }
    assert (len B = (mid + 1 - i) + (hi + 1 - j) - 1) as HB' by (unfold len in *; simpl in *; lia).
    destruct (Z.leb_spec (get ys i) (get ys j)) as [Hle|Hgt].
    + wp_step. iApply (wp_output with "H"); [done|]. iIntros "H". wp_step.
      iApply (IH with "H Ht"); [lia|lia|lia|done|lia|lia|]. iIntros (i' j' k' P' B') "% % % % %E H Ht".
      iApply ("HQ" with "[] [] [] [] [] H Ht"); try done. iPureIntro.
      rewrite E (seg_cons ys j hi); [|lia..]. simpl. rewrite -app_assoc /=.
      rewrite decide_True //.
    + wp_step. iApply (wp_output with "H"); [done|]. iIntros "H". wp_step.
      iApply (IH with "H Ht"); [lia|lia|lia|done|lia|lia|]. iIntros (i' j' k' P' B') "% % % % %E H Ht".
      iApply ("HQ" with "[] [] [] [] [] H Ht"); try done. iPureIntro.
      rewrite E (seg_cons ys i mid); [|lia..]. simpl. rewrite -app_assoc /=.
      rewrite decide_False //; lia.
  - wp_step. iApply ("HQ" $! i j k P B with "[] [] [] [] [] H Ht"); try done. iPureIntro.
    rewrite (seg_nil ys j hi); [|lia]. rewrite app_nil_r. by destruct (seg ys i mid).
  - wp_step. iApply ("HQ" $! i j k P B with "[] [] [] [] [] H Ht"); try done. iPureIntro.
    rewrite (seg_nil ys i mid); [|lia]. by destruct (seg ys j hi).
  - wp_step. iApply ("HQ" $! i j k P B with "[] [] [] [] [] H Ht"); try done. iPureIntro.
    rewrite (seg_nil ys i mid); [|lia]. by destruct (seg ys j hi).
Qed.

Lemma wp_copy_rest p t ts ys lo hi last n i k P B C (Q : Z * Z → list ev → hpropI obj) :
  holds ts ys lo hi → 0 ≤ lo → hi < len ys → last ≤ hi → lo ≤ i ≤ last + 1 →
  len P = k → last + 1 - i ≤ len B → (Z.to_nat (last + 1 - i) < n)%nat →
  arr p (P ++ B ++ C) -∗ buffer t ts -∗
  (∀ B', ⌈len B' = len B - (last + 1 - i)⌉ -∗ arr p ((P ++ seg ys i last) ++ B' ++ C) -∗
     buffer t ts -∗ Q (last + 1, k + (last + 1 - i)) []) -∗
  wp mf X (copy_rest (Some p) (Some t) last n (i, k)) Q.
Proof.
  intros Hh Hlo Hhi Hlast. revert i k P B. induction n as [|n IH]; intros i k P B Hi HP HB Hn; [lia|].
  iIntros "H Ht HQ". unfold copy_rest. iApply wp_loop. destruct (Z.leb_spec i last).
  - wp_step. iApply (wp_buffer_get with "Ht"); [done|done|lia|]. iIntros "Ht".
    destruct B as [|b B]; [unfold len in HB; simpl in HB; lia|].
    assert (len (b :: B) = len B + 1) as EB by (unfold len; simpl; lia).
    wp_step. iApply (wp_output with "H"); [done|]. iIntros "H". wp_step.
    iApply (IH with "H Ht"); [lia| |lia|lia|].
    { unfold len in *. rewrite length_app. simpl. lia. }
    iIntros (B' HB') "H Ht".
    assert ((P ++ [get ys i]) ++ seg ys (i + 1) last = P ++ seg ys i last) as ->.
    { rewrite (seg_cons ys i last); [|lia..]. by rewrite -app_assoc. }
    replace (k + 1 + (last + 1 - (i + 1))) with (k + (last + 1 - i)) by lia.
    iApply ("HQ" with "[] H Ht"). iPureIntro. lia.
  - wp_step. replace i with (last + 1) by lia. replace (k + (last + 1 - (last + 1))) with k by lia.
    iApply ("HQ" $! B with "[] [H] Ht"); [iPureIntro; lia|]. rewrite seg_nil; [|lia]. by rewrite app_nil_r.
Qed.

Lemma wp_merge p t ts xs lo mid hi (Q : unit → list ev → hpropI obj) :
  0 ≤ lo → lo ≤ mid → mid < hi → hi < len xs → length ts = length xs →
  sorted_on xs lo mid → sorted_on xs (mid + 1) hi →
  arr p xs -∗ buffer t ts -∗
  (∀ ys ts', ⌈reorder lo hi xs ys⌉ -∗ ⌈sorted_on ys lo hi⌉ -∗ ⌈length ts' = length xs⌉ -∗
     arr p ys -∗ buffer t ts' -∗ Q tt []) -∗
  wp mf X (merge (Some p) lo mid hi (Some t)) Q.
Proof.
  intros H1 H2 H3 H4 Hts Hs1 Hs2. iIntros "H Ht HQ". unfold merge. wp_step.
  iApply (wp_for_range _ _ (λ k _ o, ∃ ts', ⌈holds ts' xs lo (k - 1)⌉ ∗ ⌈length ts' = length xs⌉ ∗
            ⌈o = []⌉ ∗ arr p xs ∗ buffer t ts')%I with "[H Ht]"); [lia| | |].
  { iIntros (k [] o Hk) "(%ts' & %Hh & %Hl & -> & H & Ht)".
    wp_step. iApply (wp_arr_get with "H"); [lia|]. iIntros "H".
    iApply (wp_buffer_set with "Ht"); [unfold len in *; lia|]. iIntros "Ht".
    iExists _. iFrame. iPureIntro. split_and!; [|by rewrite length_insert|done].
    intros k' Hk'. destruct (decide (k' = k)) as [->|].
    - rewrite list_lookup_insert_eq; [done|]. unfold len in *. lia.
    - rewrite list_lookup_insert_ne; [|lia]. apply Hh. lia. }
  { iExists ts. iFrame. iPureIntro. split_and!; [|done|done]. intros k Hk. lia. }
  iIntros ([] o) "(%ts' & %Hh & %Hl & -> & H & Ht)". replace (hi + 1 - 1) with hi in Hh by lia.
  set (A := take (Z.to_nat lo) xs). set (C := drop (Z.to_nat (hi + 1)) xs).
  assert (len A = lo) as EA by (unfold len, A in *; rewrite length_take; lia).
  iAssert (arr p (A ++ seg xs lo hi ++ C)) with "[H]" as "H".
  { unfold A, C. by rewrite -split_seg; [|lia..]. }
  wp_step.
  iApply (wp_merge_heads _ _ _ _ lo mid hi _ _ _ _ A with "H Ht");
    [done|lia|lia|lia|lia|lia|done|rewrite len_seg; lia|lia|].
  iIntros (i j k P B) "%Hi %Hj %HP %HB %E H Ht". wp_step.
  iApply (wp_copy_rest _ _ _ _ lo hi with "H Ht"); [done|lia|lia|lia|lia|done|lia|lia|].
  iIntros (B1 HB1) "H Ht". wp_step.
  assert (len (P ++ seg xs i mid) = k + (mid + 1 - i)) as HP'.
  { unfold len. rewrite length_app. pose proof (len_seg xs i mid). unfold len in *. lia. }
  iApply (wp_copy_rest _ _ _ _ lo hi with "H Ht"); [done|lia|lia|lia|lia|done|lia|lia|].
  iIntros (B2 HB2) "H Ht". wp_step.
  assert (B2 = []) as -> by (destruct B2; [done|unfold len in *; simpl in *; lia]).
  rewrite -(app_assoc P) E.
  destruct (replace_seg xs lo hi (list_merge Z.le (seg xs lo mid) (seg xs (mid + 1) hi))) as [Hr Hs].
  - lia.
  - lia.
  - lia.
  - rewrite (seg_app xs lo mid hi); [|lia..]. by rewrite merge_Permutation.
  - apply Sorted_list_merge; [apply _|apply sorted_seg; [lia..|done]|apply sorted_seg; [lia..|done]].
  - iApply ("HQ" with "[] [] [] [H] Ht"); [done|done|done|]. by rewrite /= -app_assoc.
Qed.

Lemma wp_merge_sort_rec n p t ts xs lo hi (Q : unit → list ev → hpropI obj) :
  (Z.to_nat (hi - lo + 1) < n)%nat → len xs ≤ INT_MAX →
  0 ≤ lo → hi < len xs → length ts = length xs →
  arr p xs -∗ buffer t ts -∗
  (∀ ys ts', ⌈reorder lo hi xs ys⌉ -∗ ⌈sorted_on ys lo hi⌉ -∗ ⌈length ts' = length xs⌉ -∗
     arr p ys -∗ buffer t ts' -∗ Q tt []) -∗
  wp mf X (merge_sort_rec n (Some p) lo hi (Some t)) Q.
Proof.
  revert xs ts lo hi Q. induction n as [|n IH]; intros xs ts lo hi Q Hn Hmax Hlo Hhi Hts; [lia|].
  iIntros "H Ht HQ". simpl. destruct (Z.leb_spec hi lo).
  - wp_step. iApply ("HQ" with "[] [] [] H Ht"); iPureIntro; [done| |done].
    intros a b ? ? ?. by replace b with a by lia.
  - wp_step. iApply wp_int_chk; [unfold INT_MIN, INT_MAX in *; lia|].
    set (mid := lo + (hi - lo) / 2).
    assert (lo ≤ mid < hi) as Hm.
    { unfold mid. pose proof (Z.div_lt_upper_bound (hi - lo) 2 (hi - lo)).
      pose proof (Z.div_pos (hi - lo) 2). lia. }
    wp_step. iApply (IH with "H Ht"); [lia|lia|lia|lia|done|].
    iIntros (ys ts1 Hr1 Hs1 Hl1) "H Ht". pose proof (reorder_len _ _ _ _ Hr1) as El1.
    wp_step. iApply (IH with "H Ht"); [lia|lia|lia|lia|unfold len in *; lia|].
    iIntros (zs ts2 Hr2 Hs2 Hl2) "H Ht". pose proof (reorder_len _ _ _ _ Hr2) as El2.
    iApply (wp_merge with "H Ht"); [lia|lia|lia|lia|unfold len in *; lia| |done|].
    + intros a b Ha Hab Hb. rewrite !(reorder_out _ _ _ _ Hr2); [|lia..]. by apply Hs1.
    + iIntros (ws ts3 Hr3 Hs3 Hl3) "H Ht".
      iApply ("HQ" with "[] [] [] H Ht"); iPureIntro; [|done|unfold len in *; lia].
      eapply reorder_trans; [eapply (reorder_mono _ _ lo mid); [..|done]; lia|].
      eapply reorder_trans; [eapply (reorder_mono _ _ (mid + 1) hi); [..|done]; lia|done].
Qed.

Lemma wp_merge_sort : (mf = true → X 1) → sorts_array mf X merge_sort.
Proof.
  intros HX p xs Q Hlen. iIntros "H HQ". unfold merge_sort.
  iApply (wp_malloc_or_die _ _ _ _
    (λ tmp, merge_sort_rec (S (Z.to_nat (len xs))) (Some p) 0 (len xs - 1) tmp ;;; free tmp));
    [by eexists|done|].
  iIntros (t) "Ht". wp_step.
  iApply (wp_merge_sort_rec with "H Ht"); [lia|done|lia|lia|rewrite length_replicate; unfold len; lia|].
  iIntros (ys ts Hr Hs Hl) "H Ht". unfold buffer. wp_step. iApply "HQ".
  rewrite -(sorted_unique xs ys); [done|apply Hr|]. by rewrite (reorder_len _ _ _ _ Hr).
Qed.
End merge.

(** *** Quicksort *)

Section quick.
Context (mf : bool) (X : Z → Prop).

(** Ordering a pair. *)
Definition ordered (xs : list Z) (i j : Z) : list Z :=
  if get xs j <? get xs i then swap xs i j else xs.

Lemma wp_order_pair p xs i j (Q : unit → list ev → hpropI obj) :
  0 ≤ i < len xs → 0 ≤ j < len xs → arr p xs -∗ (arr p (ordered xs i j) -∗ Q tt []) -∗
  wp mf X (order_pair (Some p) i j) Q.
Proof.
  intros Hi Hj. iIntros "H HQ". unfold order_pair, ordered.
  wp_step. iApply (wp_arr_get with "H"); [done|]. iIntros "H".
  wp_step. iApply (wp_arr_get with "H"); [done|]. iIntros "H".
  destruct (get xs j <? get xs i).
  - by iApply (wp_swap_int with "H HQ").
  - wp_step. by iApply "HQ".
Qed.

Lemma reorder_ordered lo hi xs i j :
  0 ≤ lo → hi < len xs → lo ≤ i ≤ hi → lo ≤ j ≤ hi → reorder lo hi xs (ordered xs i j).
Proof. intros. unfold ordered. destruct (_ <? _); [by apply reorder_swap|done]. Qed.

Lemma get_ordered xs i j k :
  0 ≤ i < len xs → 0 ≤ j < len xs → 0 ≤ k → i ≠ j →
  get (ordered xs i j) k =
  if k =? i then Z.min (get xs i) (get xs j)
  else if k =? j then Z.max (get xs i) (get xs j) else get xs k.
Proof.
  intros Hi Hj Hk Hne. unfold ordered. destruct (Z.ltb_spec (get xs j) (get xs i)).
  - rewrite get_swap //. destruct (Z.eqb_spec k i), (Z.eqb_spec k j); lia.
  - destruct (Z.eqb_spec k i), (Z.eqb_spec k j); subst; lia.
Qed.

Lemma ordered_min_max xs i j k :
  0 ≤ i < len xs → 0 ≤ j < len xs → 0 ≤ k → i ≠ j → k ≠ i → k ≠ j →
  get (ordered xs i j) i = Z.min (get xs i) (get xs j) ∧
  get (ordered xs i j) j = Z.max (get xs i) (get xs j) ∧
  get (ordered xs i j) k = get xs k.
Proof.
  intros Hi Hj Hk Hij Hki Hkj. rewrite !get_ordered; [|lia..]. rewrite !Z.eqb_refl.
  rewrite (proj2 (Z.eqb_neq j i)); [|lia]. rewrite (proj2 (Z.eqb_neq k i)); [|lia].
  rewrite (proj2 (Z.eqb_neq k j)); [|lia]. done.
Qed.

Lemma wp_median_of_three p xs lo hi (Q : Z → list ev → hpropI obj) :
  0 ≤ lo → 2 ≤ hi - lo → hi < len xs → arr p xs -∗
  (∀ ys, ⌈reorder lo hi xs ys⌉ -∗ ⌈get ys lo ≤ get ys (hi - 1) ≤ get ys hi⌉ -∗ arr p ys -∗
     Q (hi - 1) []) -∗
  wp mf X (median_of_three (Some p) lo hi) Q.
Proof.
  intros H1 H2 H3. iIntros "H HQ". unfold median_of_three. set (mid := lo + (hi - lo) / 2).
  assert (lo < mid < hi) as Hm.
  { unfold mid. pose proof (Z.div_lt_upper_bound (hi - lo) 2 (hi - lo)).
    pose proof (Z.div_le_lower_bound (hi - lo) 2 1). lia. }
  pose proof (reorder_ordered lo hi xs lo mid ltac:(lia) ltac:(lia) ltac:(lia) ltac:(lia)) as R1.
  set (x1 := ordered xs lo mid) in *. pose proof (reorder_len _ _ _ _ R1) as L1.
  pose proof (reorder_ordered lo hi x1 lo hi ltac:(lia) ltac:(lia) ltac:(lia) ltac:(lia)) as R2.
  set (x2 := ordered x1 lo hi) in *. pose proof (reorder_len _ _ _ _ R2) as L2.
  pose proof (reorder_ordered lo hi x2 mid hi ltac:(lia) ltac:(lia) ltac:(lia) ltac:(lia)) as R3.
  set (x3 := ordered x2 mid hi) in *. pose proof (reorder_len _ _ _ _ R3) as L3.
  wp_step. iApply (wp_order_pair with "H"); [lia|lia|]. fold x1. iIntros "H".
  wp_step. iApply (wp_order_pair with "H"); [lia|lia|]. fold x2. iIntros "H".
  wp_step. iApply (wp_order_pair with "H"); [lia|lia|]. fold x3. iIntros "H".
  wp_step. iApply (wp_swap_int with "H"); [lia|lia|]. iIntros "H". wp_step.
  iApply ("HQ" with "[] [] H"); iPureIntro.
  - eapply reorder_trans; [exact R1|]. eapply reorder_trans; [exact R2|].
    eapply reorder_trans; [exact R3|]. apply reorder_swap; lia.
  - assert (get x3 lo ≤ get x3 mid ≤ get x3 hi) as Ho.
    { destruct (ordered_min_max xs lo mid hi) as (A1 & A2 & A3); [lia..|]. fold x1 in A1, A2, A3.
      destruct (ordered_min_max x1 lo hi mid) as (B1 & B2 & B3); [lia..|]. fold x2 in B1, B2, B3.
      destruct (ordered_min_max x2 mid hi lo) as (C1 & C2 & C3); [lia..|]. fold x3 in C1, C2, C3.
      lia. }
    rewrite !get_swap; [|lia..]. rewrite Z.eqb_refl.
    rewrite (proj2 (Z.eqb_neq lo mid)); [|lia]. rewrite (proj2 (Z.eqb_neq lo (hi - 1))); [|lia].
    rewrite (proj2 (Z.eqb_neq hi mid)); [|lia]. rewrite (proj2 (Z.eqb_neq hi (hi - 1))); [|lia].
    destruct (Z.eqb_spec (hi - 1) mid) as [->|]; lia.
Qed.

(** The scans stop at the sentinels: an element not smaller than the pivot above,
    one not larger below. *)
Lemma wp_scan_up p xs pv n i top (Q : Z → list ev → hpropI obj) :
  -1 ≤ i < top → top < len xs → pv ≤ get xs top → (Z.to_nat (top - i) ≤ n)%nat → arr p xs -∗
  (∀ i', ⌈i < i' ≤ top⌉ -∗ ⌈∀ k, i < k < i' → get xs k < pv⌉ -∗ ⌈pv ≤ get xs i'⌉ -∗ arr p xs -∗ Q i' []) -∗
  wp mf X (scan_up (Some p) pv n i) Q.
Proof.
  intros Hi Htop Hs. revert i Hi. induction n as [|n IH]; intros i Hi Hn; [lia|].
  iIntros "H HQ". unfold scan_up. iApply wp_loop. wp_step.
  iApply (wp_arr_get with "H"); [lia|]. iIntros "H".
  destruct (Z.ltb_spec (get xs (i + 1)) pv); wp_step.
  - assert (i + 1 ≠ top) by (intros E; subst top; lia).
    iApply (IH (i + 1) with "H"); [lia|lia|]. iIntros (i' Hi' Hlt Hge) "H".
    iApply ("HQ" with "[] [] [] H"); iPureIntro; [lia| |done].
    intros k Hk. destruct (decide (k = i + 1)) as [->|]; [done|]. apply Hlt. lia.
  - iApply ("HQ" with "[] [] [] H"); iPureIntro; [lia|lia|done].
Qed.

Lemma wp_scan_down p xs pv n j bot (Q : Z → list ev → hpropI obj) :
  bot < j ≤ len xs → 0 ≤ bot → get xs bot ≤ pv → (Z.to_nat (j - bot) ≤ n)%nat → arr p xs -∗
  (∀ j', ⌈bot ≤ j' < j⌉ -∗ ⌈∀ k, j' < k < j → pv < get xs k⌉ -∗ ⌈get xs j' ≤ pv⌉ -∗ arr p xs -∗ Q j' []) -∗
  wp mf X (scan_down (Some p) pv n j) Q.
Proof.
  intros Hj Hbot Hs. revert j Hj. induction n as [|n IH]; intros j Hj Hn; [lia|].
  iIntros "H HQ". unfold scan_down. iApply wp_loop. wp_step.
  iApply (wp_arr_get with "H"); [lia|]. iIntros "H".
  destruct (Z.ltb_spec pv (get xs (j - 1))); wp_step.
  - assert (j - 1 ≠ bot) by (intros E; subst bot; lia).
    iApply (IH (j - 1) with "H"); [lia|lia|]. iIntros (j' Hj' Hgt Hle) "H".
    iApply ("HQ" with "[] [] [] H"); iPureIntro; [lia| |done].
    intros k Hk. destruct (decide (k = j - 1)) as [->|]; [done|]. apply Hgt. lia.
  - iApply ("HQ" with "[] [] [] H"); iPureIntro; [lia|lia|done].
Qed.

(** What the partition achieves. *)
Definition partitioned (xs : list Z) (lo hi q : Z) : Prop :=
  lo ≤ q ≤ hi ∧ (∀ k, lo ≤ k ≤ q → get xs k ≤ get xs q) ∧ (∀ k, q ≤ k ≤ hi → get xs q ≤ get xs k).

(** The invariant of the exchanges. *)
Definition exchanging (xs : list Z) (lo hi pv i j : Z) : Prop :=
  lo ≤ i < j ∧ j ≤ hi - 1 ∧ get xs (hi - 1) = pv ∧
  (∀ k, lo ≤ k ≤ i → get xs k ≤ pv) ∧ (∀ k, j ≤ k ≤ hi → pv ≤ get xs k).

Lemma wp_exchanges p xs lo hi pv n m ys i j (Q : Z → list ev → hpropI obj) :
  0 ≤ lo → hi < len xs → (Z.to_nat (hi - lo) ≤ m)%nat →
  reorder lo hi xs ys → exchanging ys lo hi pv i j → (Z.to_nat (j - lo) ≤ n)%nat →
  arr p ys -∗
  (∀ i' zs, ⌈reorder lo hi xs zs⌉ -∗ ⌈lo ≤ i' ≤ hi - 1⌉ -∗ ⌈get zs (hi - 1) = pv⌉ -∗
     ⌈∀ k, lo ≤ k < i' → get zs k ≤ pv⌉ -∗ ⌈∀ k, i' ≤ k ≤ hi → pv ≤ get zs k⌉ -∗ arr p zs -∗ Q i' []) -∗
  wp mf X (loop n (λ '(i, j),
    i <- scan_up (Some p) pv m i ;;
    j <- scan_down (Some p) pv m j ;;
    if j <=? i then ret (inr i)
    else swap_int (Some p) i j ;;; ret (inl (i, j))) (i, j)) Q.
Proof.
  intros H1 H2 Hm. revert ys i j. induction n as [|n IH]; intros ys i j Hr Hx Hn.
  { destruct Hx as (? & _). lia. }
  pose proof Hx as (Hij & Hj & Hpv & Hlo & Hhi). pose proof (reorder_len _ _ _ _ Hr) as El.
  iIntros "H HQ". iApply wp_loop. wp_step.
  iApply (wp_scan_up _ _ _ _ i j with "H"); [lia|lia|apply Hhi; lia|lia|].
  iIntros (i' Hi' Hlt Hge) "H". wp_step.
  iApply (wp_scan_down _ _ _ _ j i with "H"); [lia|lia|apply Hlo; lia|lia|].
  iIntros (j' Hj' Hgt Hle) "H".
  assert (∀ k, lo ≤ k < i' → get ys k ≤ pv) as Hlow.
  { intros k Hk. destruct (decide (k ≤ i)); [apply Hlo; lia|]. specialize (Hlt k ltac:(lia)). lia. }
  assert (∀ k, j' < k ≤ hi → pv ≤ get ys k) as Hhigh.
  { intros k Hk. destruct (decide (j ≤ k)); [apply Hhi; lia|]. specialize (Hgt k ltac:(lia)). lia. }
  destruct (Z.leb_spec j' i').
  - wp_step. iApply ("HQ" $! i' ys with "[] [] [] [] [] H"); iPureIntro; try done; [lia|].
    intros k Hk. destruct (decide (k = i')) as [->|]; [done|]. apply Hhigh. lia.
  - wp_step. iApply (wp_swap_int with "H"); [lia|lia|]. iIntros "H". wp_step.
    iApply (IH with "H HQ"); [| |lia].
    + eapply reorder_trans; [done|]. apply reorder_swap; lia.
    + assert (∀ k, 0 ≤ k → get (swap ys i' j') k =
        if k =? i' then get ys j' else if k =? j' then get ys i' else get ys k) as Hg.
      { intros k Hk. apply get_swap; lia. }
      split_and!; [lia|lia|lia| | |].
      * rewrite Hg; [|lia]. rewrite (proj2 (Z.eqb_neq _ i')); [|lia].
        rewrite (proj2 (Z.eqb_neq _ j')); [done|lia].
      * intros k Hk. rewrite Hg; [|lia]. destruct (Z.eqb_spec k i'); [done|].
        destruct (Z.eqb_spec k j'); [lia|]. apply Hlow. lia.
      * intros k Hk. rewrite Hg; [|lia]. destruct (Z.eqb_spec k i'); [lia|].
        destruct (Z.eqb_spec k j'); [done|]. apply Hhigh. lia.
Qed.

Lemma wp_partition p xs lo hi (Q : Z → list ev → hpropI obj) :
  0 ≤ lo → lo < hi → hi < len xs → arr p xs -∗
  (∀ q ys, ⌈reorder lo hi xs ys⌉ -∗ ⌈partitioned ys lo hi q⌉ -∗ arr p ys -∗ Q q []) -∗
  wp mf X (partition (Some p) lo hi) Q.
Proof.
  intros H1 H2 H3. iIntros "H HQ". unfold partition. destruct (Z.ltb_spec (hi - lo) 2).
  - wp_step. iApply (wp_order_pair with "H"); [lia|lia|]. iIntros "H". wp_step.
    iApply ("HQ" with "[] [] H"); iPureIntro; [apply reorder_ordered; lia|].
    assert (hi = lo + 1) as -> by lia. split_and!; [lia|lia| |].
    + intros k Hk. by replace k with lo by lia.
    + intros k Hk. rewrite !get_ordered; [|lia..]. rewrite !Z.eqb_refl.
      destruct (Z.eqb_spec k lo); [lia|]. destruct (Z.eqb_spec k (lo + 1)); lia.
  - wp_step. iApply (wp_median_of_three with "H"); [lia|lia|lia|]. iIntros (ys Hr [Ho1 Ho2]) "H".
    pose proof (reorder_len _ _ _ _ Hr) as El.
    wp_step. iApply (wp_arr_get with "H"); [lia|]. iIntros "H". wp_step.
    iApply (wp_exchanges p xs lo hi (get ys (hi - 1)) with "H"); [lia|lia|lia|done| |lia|].
    + split_and!; [lia|lia|lia|done| |].
      * intros k Hk. by replace k with lo by lia.
      * intros k Hk. destruct (decide (k = hi)) as [->|]; [done|]. by replace k with (hi - 1) by lia.
    + iIntros (i zs Hr' Hi Hpv Hlow Hhigh) "H". pose proof (reorder_len _ _ _ _ Hr') as El'.
      wp_step. iApply (wp_swap_int with "H"); [lia|lia|]. iIntros "H". wp_step.
      iApply ("HQ" with "[] [] H"); iPureIntro.
      * eapply reorder_trans; [done|]. apply reorder_swap; lia.
      * assert (∀ k, 0 ≤ k → get (swap zs i (hi - 1)) k =
          if k =? i then get zs (hi - 1) else if k =? hi - 1 then get zs i else get zs k) as Hg.
        { intros k Hk. apply get_swap; lia. }
        split_and!; [lia|lia| |]; intros k Hk; rewrite (Hg i); [|lia| |lia];
          (rewrite (Hg k); [|lia]); rewrite Z.eqb_refl Hpv.
        -- destruct (Z.eqb_spec k i); [done|]. destruct (Z.eqb_spec k (hi - 1)); [lia|]. apply Hlow. lia.
        -- destruct (Z.eqb_spec k i); [done|].
           destruct (Z.eqb_spec k (hi - 1)); apply Hhigh; lia.
Qed.

Lemma wp_quick_sort_rec n p xs lo hi (Q : unit → list ev → hpropI obj) :
  (Z.to_nat (hi - lo + 1) < n)%nat → 0 ≤ lo → hi < len xs → arr p xs -∗
  (∀ ys, ⌈reorder lo hi xs ys⌉ -∗ ⌈sorted_on ys lo hi⌉ -∗ arr p ys -∗ Q tt []) -∗
  wp mf X (quick_sort_rec n (Some p) lo hi) Q.
Proof.
  revert xs lo hi Q. induction n as [|n IH]; intros xs lo hi Q Hn Hlo Hhi; [lia|].
  iIntros "H HQ". simpl. destruct (Z.leb_spec hi lo).
  - wp_step. iApply ("HQ" with "[] [] H"); iPureIntro; [done|].
    intros a b ? ? ?. by replace b with a by lia.
  - wp_step. iApply (wp_partition with "H"); [lia|lia|lia|]. iIntros (q ys Hr (Hq & Hlow & Hhigh)) "H".
    pose proof (reorder_len _ _ _ _ Hr) as El.
    wp_step. iApply (IH with "H"); [lia|lia|lia|]. iIntros (zs Hr1 Hs1) "H".
    pose proof (reorder_len _ _ _ _ Hr1) as El1.
    iApply (IH with "H"); [lia|lia|lia|]. iIntros (ws Hr2 Hs2) "H".
    pose proof (reorder_len _ _ _ _ Hr2) as El2.
    assert (get ws q = get ys q) as Eq.
    { rewrite (reorder_out _ _ _ _ Hr2); [|lia..]. by rewrite (reorder_out _ _ _ _ Hr1); [|lia..]. }
    assert (∀ k, lo ≤ k ≤ q - 1 → get ws k ≤ get ys q) as Hl.
    { intros k Hk. rewrite (reorder_out _ _ _ _ Hr2); [|lia..].
      apply (reorder_forall (λ v, v ≤ get ys q) lo (q - 1) ys zs); [lia|lia|done| |done].
      intros k' Hk'. apply Hlow. lia. }
    assert (∀ k, q + 1 ≤ k ≤ hi → get ys q ≤ get ws k) as Hh.
    { intros k Hk. apply (reorder_forall (λ v, get ys q ≤ v) (q + 1) hi zs ws); [lia|lia|done| |done].
      intros k' Hk'. rewrite (reorder_out _ _ _ _ Hr1); [|lia..]. apply Hhigh. lia. }
    iApply ("HQ" with "[] [] H"); iPureIntro.
    + eapply reorder_trans; [done|].
      eapply reorder_trans; [eapply (reorder_mono _ _ lo (q - 1)); [..|done]; lia|].
      eapply (reorder_mono _ _ (q + 1) hi); [..|done]; lia.
    + intros a b Ha Hab Hb. destruct (decide (b < q)).
      { rewrite !(reorder_out _ _ _ _ Hr2); [|lia..]. apply Hs1; lia. }
      destruct (decide (q < a)); [apply Hs2; lia|].
      assert (get ws a ≤ get ys q) by (destruct (decide (a = q)) as [->|]; [lia|apply Hl; lia]).
      assert (get ys q ≤ get ws b) by (destruct (decide (b = q)) as [->|]; [lia|apply Hh; lia]). lia.
Qed.

Lemma wp_quick_sort : sorts_array mf X quick_sort.
Proof.
  intros p xs Q Hlen. iIntros "H HQ". unfold quick_sort. destruct (Z.ltb_spec (len xs) 2).
  - wp_step. iApply "HQ". rewrite -(sorted_unique xs xs); [done|done|].
    intros a b ? ? ?. by replace b with a by lia.
  - iApply (wp_quick_sort_rec with "H"); [lia|lia|lia|]. iIntros (ys Hr Hs) "H".
    iApply "HQ". rewrite -(sorted_unique xs ys); [done|apply Hr|]. by rewrite (reorder_len _ _ _ _ Hr).
Qed.
End quick.

(** ** The sorts of the table *)

Lemma wp_sorts mf X :
  (mf = true → X 1) → Forall (λ '(_, fn), sorts_array mf X fn) sorts.
Proof.
  intros HX. unfold sorts. rewrite !Forall_cons Forall_nil. split_and!; [| | | | |done].
  - apply wp_bubble_sort.
  - apply wp_insertion_sort.
  - apply wp_selection_sort.
  - by apply wp_merge_sort.
  - apply wp_quick_sort.
Qed.

(** A caller with an array of its own. *)
Definition sort_client (fn : ptr → Z → M obj unit) (xs : list Z) : M obj (list (option Z)) :=
  p <- local (OArr (Some <$> xs)) ;;
  fn p (len xs) ;;;
  a <- load p ;;
  free p ;;;
  ret a.

(** C4.  Each of the five sorts of the table (bubble, insertion, selection, merge,
    quick), on any array whose length is an [int]: every access is inside the array
    and reads a written element, in the merge buffer too; it terminates; the array
    ends up holding the sorted permutation of its elements; the merge buffer is
    freed.  The program only exits when the buffer cannot be allocated. *)
Theorem sorts_correct nm fn (xs : list Z) :
  (nm, fn) ∈ sorts → len xs ≤ INT_MAX →
  runs (sort_client fn xs) (λ a e, a = Some <$> sort xs ∧ e = []) False.
Proof.
  intros Hin Hlen. apply wp_runs. intros mf X HX _. unfold sort_client.
  pose proof (wp_sorts mf X HX) as Hs. rewrite Forall_forall in Hs. specialize (Hs _ Hin). simpl in Hs.
  wp_step. iApply wp_local. iIntros (l) "H". wp_step. iApply (Hs l xs with "H"); [done|].
  iIntros "H". unfold arr. wp_run. done.
Qed.

Lemma sorts_correct_witness :
  runs (sort_client quick_sort [5; 3; -7; 3; 0; 2147483647; -2147483648])
    (λ a e, a = Some <$> sort [5; 3; -7; 3; 0; 2147483647; -2147483648] ∧ e = []) False.
Proof.
  apply (sorts_correct "quick_sort"); [|vm_compute; discriminate].
  unfold sorts. do 4 right. left.
Defined.

(** ** Comparison functions *)

Lemma cmp_asc_sgn a b : cmp_asc a b = Z.sgn (a - b).
Proof. unfold cmp_asc. destruct (Z.ltb_spec a b), (Z.ltb_spec b a); simpl; lia. Qed.

Lemma cmp_desc_sgn a b : cmp_desc a b = Z.sgn (b - a).
Proof. unfold cmp_desc. destruct (Z.ltb_spec a b), (Z.ltb_spec b a); simpl; lia. Qed.

(** The comparison functions are comparisons: [cmp_asc] is the sign of
    [ia - ib] and [cmp_desc] of [ib - ia] for all integers, while
    [cmp_player_score] is the difference of the scores in descending order when
    that difference is an [int] and undefined otherwise; which does happen, for
    scores of large magnitude and opposite signs. *)
Theorem comparisons_correct :
  (∀ a b, cmp_asc a b = Z.sgn (a - b) ∧ cmp_desc a b = Z.sgn (b - a)) ∧
  (∀ a b, cmp_player_score a b =
     if Machine.in_int (score b - score a) then Some (score b - score a) else None) ∧
  (∃ a b, Machine.in_int (score a) = true ∧ Machine.in_int (score b) = true ∧
     cmp_player_score a b = None).
Proof.
  split_and!.
  - intros a b. by rewrite cmp_asc_sgn cmp_desc_sgn.
  - done.
  - exists (MkPlayer "a" (-2000000000)), (MkPlayer "b" 2000000000). by vm_compute.
Qed.

(** ** The program *)

Definition arr_text (xs : list Z) : string :=
  ("[" +:+ join_str ", " (map int_str xs) +:+ "]" +:+ String nl "")%string.

Definition row (nm : string) (xs : list Z) : string :=
  (fmt_str (FSpec true false false (Some 16%nat) None) nm +:+ " " +:+ arr_text (sort xs))%string.

Definition players_text (ps : list Player) : string :=
  concat_str (map (λ p, "  " +:+ fmt_str (FSpec true false false (Some 8%nat) None) (name p) +:+ " " +:+
    int_str (score p) +:+ String nl "") ps)%string.

Fixpoint times_text (clock : nat → Z) (l : list (string * (ptr → Z → M obj unit))) (i : nat) : string :=
  match l with
  | [] => ""
  | (nm, _) :: l' =>
      fmt_str (FSpec true false false (Some 16%nat) None) nm +:+ "  " +:+
      fmt_dbl (FSpec false false false None (Some 3%nat))
        (elapsed (clock (2 * i)%nat) (clock (2 * i + 1)%nat)) +:+ " ms" +:+ String nl "" +:+
      times_text clock l' (S i)
  end%string.

(** What [main] prints, for the order [ps] that [qsort] gives the players by score
    and the values of [clock]. *)
Definition main_text (ps : list Player) (clock : nat → Z) : string :=
  ("original: " +:+ arr_text original +:+ String nl "" +:+
   concat_str (map (λ '(nm, _), row nm original) sorts) +:+
   esc "\n=== stdlib qsort ===\n" +:+
   "ascending:  " +:+ arr_text [3; 8; 11; 12; 22; 25; 37; 43; 55; 64; 76; 90] +:+
   "descending: " +:+ arr_text [90; 76; 64; 55; 43; 37; 25; 22; 12; 11; 8; 3] +:+
   esc "\nby score (desc):\n" +:+ players_text ps +:+
   esc "\nby name (asc):\n" +:+ players_text players +:+
   esc "\n=== Performance (n=20000) ===\n" +:+ times_text clock sorts 0)%string.

Section main_proof.
Context (mf : bool) (X : Z → Prop) (HX : mf = true → X 1).

Lemma wp_print_arr p xs (Q : unit → list ev → hpropI obj) :
  arr p xs -∗ (∀ o, ⌈stdout o = arr_text xs⌉ -∗ arr p xs -∗ Q tt o) -∗
  wp mf X (print_arr (Some p) (len xs)) Q.
Proof.
  iIntros "H HQ". unfold print_arr. do 3 wp_step.
  iApply (wp_for_range _ _ (λ i _ o, ⌈(stdout o +:+ join_str ", " (map int_str (drop (Z.to_nat i) xs)))%string
      = join_str ", " (map int_str xs)⌉ ∗ arr p xs)%I with "[H]"); [unfold len; lia| | |].
  - iIntros (i [] o Hi) "[%Ho H]". wp_step. iApply (wp_arr_get with "H"); [done|]. iIntros "H".
    rewrite (drop_S xs (get xs i) (Z.to_nat i)) in Ho; [|by apply lookup_get].
    replace (S (Z.to_nat i)) with (Z.to_nat (i + 1)) in Ho by lia.
    destruct (Z.ltb_spec i (len xs - 1)); wp_step; iFrame; iPureIntro;
      rewrite -Ho /= ?app_nil_r stdout_app /= fmt_signed_plain.
    + destruct (drop (Z.to_nat (i + 1)) xs) as [|y ys] eqn:E.
      { apply (f_equal length) in E. rewrite length_drop in E. unfold len in *. simpl in E. lia. }
      simpl. by str_norm.
    + rewrite drop_ge; [|unfold len in *; lia]. simpl. by str_norm.
  - iFrame. iPureIntro. done.
  - iIntros ([] o) "[%Ho H]". wp_step. iApply ("HQ" with "[] H"). iPureIntro.
    rewrite drop_ge in Ho; [|unfold len; lia]. simpl in Ho. rewrite string_app_nil_r in Ho.
    simpl. rewrite stdout_app Ho /=. unfold arr_text. by str_norm.
Qed.

Lemma wp_copy_arr p q xs ts (Q : unit → list ev → hpropI obj) :
  Z.of_nat (length ts) = len xs → arr p xs -∗ buffer q ts -∗ (arr p xs -∗ arr q xs -∗ Q tt []) -∗
  wp mf X (copy_arr (Some p) (Some q) (len xs)) Q.
Proof.
  intros Hts. iIntros "H Hb HQ". unfold copy_arr, arr, buffer. do 4 wp_step.
  rewrite length_fmap. unfold len in *.
  rewrite (proj2 (Z.leb_le _ _)); [|lia]. rewrite (proj2 (Z.leb_le _ _)); [|lia].
  rewrite (proj2 (Z.leb_le _ _)); [|lia]. simpl.
  rewrite take_ge; [|rewrite length_fmap; lia]. rewrite drop_ge; [|lia]. rewrite app_nil_r.
  wp_step. iApply ("HQ" with "H Hb").
Qed.

Lemma wp_demonstrate p q xs ts l (Q : unit → list ev → hpropI obj) :
  len xs = N → Z.of_nat (length ts) = N → Forall (λ '(_, fn), sorts_array mf X fn) l →
  arr p xs -∗ buffer q ts -∗
  (∀ o ts', ⌈stdout o = concat_str (map (λ '(nm, _), row nm xs) l)⌉ -∗ ⌈Z.of_nat (length ts') = N⌉ -∗
     arr p xs -∗ buffer q ts' -∗ Q tt o) -∗
  wp mf X (for_list l (λ '(nm, fn) _,
    copy_arr (Some p) (Some q) N ;;;
    fn (Some q) N ;;;
    printf "%-16s " [AStr nm] ;;;
    print_arr (Some q) N) tt) Q.
Proof.
  intros Hl Hts Hs. revert ts Hts Q.
  induction Hs as [|[nm fn] l Hfn _ IH]; intros ts Hts Q; iIntros "H Hb HQ"; cbn [for_list].
  - wp_step. by iApply ("HQ" with "[] [] H Hb").
  - do 2 wp_step. rewrite -Hl. iApply (wp_copy_arr with "H Hb"); [lia|]. iIntros "H Hb".
    wp_step. iApply (Hfn with "Hb"); [rewrite Hl; done|]. iIntros "Hb". do 2 wp_step.
    assert (len (sort xs) = len xs) as El.
    { unfold len, sort. by rewrite sorting.merge_sort_Permutation. }
    rewrite -El. iApply (wp_print_arr with "Hb"). iIntros (o Ho) "Hb". rewrite El Hl.
    iApply (IH with "H Hb"); [rewrite length_fmap; unfold len in *; lia|].
    iIntros (o' ts' Ho' Hts') "H Hb". iApply ("HQ" with "[] [] H Hb"); [|done]. iPureIntro.
    simpl. rewrite stdout_app Ho Ho' /=. unfold row. by str_norm.
Qed.

Lemma wp_qsort_arr qsort p xs cmp (Q : unit → list ev → hpropI obj) :
  arr p xs -∗ (arr p (qsort xs cmp) -∗ Q tt []) -∗ wp mf X (qsort_arr qsort (Some p) cmp) Q.
Proof.
  iIntros "H HQ". unfold qsort_arr, arr. do 2 wp_step.
  assert (mapM id (Some <$> xs) = Some xs) as ->.
  { induction xs as [|x xs IH]; [done|]. simpl. by rewrite IH. }
  wp_step. by iApply "HQ".
Qed.

Lemma wp_print_players ps (Q : unit → list ev → hpropI obj) :
  (∀ o, ⌈stdout o = players_text ps⌉ -∗ Q tt o) -∗ wp mf X (print_players ps) Q.
Proof.
  revert Q. unfold print_players. induction ps as [|p ps IH]; intros Q; iIntros "HQ"; cbn [for_list].
  - wp_step. by iApply ("HQ" with "[]").
  - do 2 wp_step. iApply IH. iIntros (o Ho). iApply "HQ". iPureIntro. simpl. rewrite Ho fmt_signed_plain.
    unfold players_text. simpl. by str_norm.
Qed.

Lemma wp_fill p n (f : nat → Z) (Q : unit → list ev → hpropI obj) :
  0 ≤ n → buffer p (replicate (Z.to_nat n) None) -∗
  (arr p (map f (seq 0 (Z.to_nat n))) -∗ Q tt []) -∗
  wp mf X (for_range 0 n (λ i _, arr_set (Some p) i (f (Z.to_nat i))) tt) Q.
Proof.
  intros Hn. iIntros "H HQ".
  iApply (wp_for_range _ _ (λ i _ o, ⌈o = []⌉ ∗
     buffer p ((Some <$> map f (seq 0 (Z.to_nat i))) ++ replicate (Z.to_nat (n - i)) None))%I with "[H]");
    [done| | |].
  - iIntros (i [] o Hi) "[-> H]". iApply (wp_buffer_set with "H").
    { rewrite length_app length_fmap length_map length_seq length_replicate. lia. }
    iIntros "H". iSplitR; [done|].
    replace (Z.to_nat (n - i)) with (S (Z.to_nat (n - (i + 1)))) by lia.
    rewrite insert_app_r_alt; [|rewrite length_fmap length_map length_seq; lia].
    rewrite length_fmap length_map length_seq Nat.sub_diag /=.
    replace (Z.to_nat (i + 1)) with (Z.to_nat i + 1)%nat by lia.
    rewrite seq_app map_app fmap_app -app_assoc. done.
  - iSplitR; [done|]. simpl. by rewrite Z.sub_0_r.
  - iIntros ([] o) "[-> H]". iApply "HQ". rewrite Z.sub_diag app_nil_r. done.
Qed.

Lemma wp_timings p q xs ts n i l clock (Q : nat → list ev → hpropI obj) :
  len xs = n → n ≤ INT_MAX → Z.of_nat (length ts) = n → (∀ k, 0 ≤ clock k ≤ LONG_MAX) →
  Forall (λ '(_, fn), sorts_array mf X fn) l →
  arr p xs -∗ buffer q ts -∗
  (∀ r o ts', ⌈stdout o = times_text clock l i⌉ -∗ arr p xs -∗ buffer q ts' -∗ Q r o) -∗
  wp mf X (for_list l (λ '(nm, fn) (i : nat),
    copy_arr (Some p) (Some q) n ;;;
    let start := clock (2 * i)%nat in
    fn (Some q) n ;;;
    let stop := clock (2 * i + 1)%nat in
    long_chk (stop - start) ;;;
    printf "%-16s  %.3f ms\n" [AStr nm; ADbl (elapsed start stop)] ;;;
    ret (S i)) i) Q.
Proof.
  intros Hl Hn Hts Hc Hs. revert ts i Hts Q.
  induction Hs as [|[nm fn] l Hfn _ IH]; intros ts i Hts Q; iIntros "H Hb HQ"; cbn [for_list].
  - wp_step. by iApply ("HQ" with "[] H Hb").
  - do 2 wp_step. rewrite -Hl. iApply (wp_copy_arr with "H Hb"); [lia|]. iIntros "H Hb".
    wp_step. iApply (Hfn with "Hb"); [by rewrite Hl|]. iIntros "Hb". wp_step.
    iApply wp_long_chk.
    { pose proof (Hc (2 * i)%nat). pose proof (Hc (2 * i + 1)%nat). unfold LONG_MIN, LONG_MAX in *. lia. }
    do 3 wp_step. rewrite Hl.
    assert (len (sort xs) = len xs) as El.
    { unfold len, sort. by rewrite sorting.merge_sort_Permutation. }
    iApply (IH with "H Hb"); [rewrite length_fmap; unfold len in *; lia|].
    iIntros (r o' ts' Ho') "H Hb". iApply ("HQ" with "[] H Hb"). iPureIntro.
    simpl. rewrite Ho' /=. by str_norm.
Qed.
End main_proof.

(** Arrays of 20000 elements: the length is kept symbolic. *)
Lemma wp_performance mf X (rand clock : nat → Z) (Q : unit → list ev → hpropI obj) :
  (mf = true → X 1) → (∀ k, 0 ≤ clock k ≤ LONG_MAX) →
  (∀ o, ⌈stdout o = (esc "\n=== Performance (n=20000) ===\n" +:+ times_text clock sorts 0)%string⌉ -∗
     Q tt o) -∗
  wp mf X (performance rand clock) Q.
Proof.
  intros HX Hc. iIntros "HQ". unfold performance. do 2 wp_step.
  assert (0 ≤ 20000 ≤ INT_MAX) as Hn by done. revert Hn. generalize 20000. intros n Hn.
  wp_step. iApply wp_malloc. iIntros (p Hp) "Ha". wp_step. iApply wp_malloc. iIntros (q Hq) "Hb".
  destruct p as [p|]; [|iApply (wp_die with "[-]"); [by eexists|by auto|iAccu]].
  destruct q as [q|]; [|iApply (wp_die with "[-]"); [by eexists|by auto|iAccu]].
  wp_step. iApply (wp_fill _ _ p n rand with "Ha"); [lia|]. iIntros "Ha".
  set (xs := map rand _).
  assert (len xs = n) as Hl by (unfold len, xs; rewrite length_map length_seq; lia).
  wp_step. iApply (wp_timings _ _ p q xs _ n 0 sorts with "Ha Hb");
    [done|lia|rewrite length_replicate; lia|done|by apply wp_sorts|].
  iIntros (r o ts Ho) "Ha Hb". unfold arr, buffer. wp_run. iApply "HQ". iPureIntro.
  by rewrite /= stdout_app Ho /= string_app_nil_r.
Qed.

Lemma StronglySorted_weaken {A} (R R' : A → A → Prop) l :
  (∀ a b, R a b → R' a b) → StronglySorted R l → StronglySorted R' l.
Proof.
  intros H Hs. induction Hs as [|x l _ IH Hx]; constructor; [done|].
  eapply Forall_impl; [exact Hx|]. intros y. apply H.
Qed.

Section main_theorem.
Context (qsort : list Z → (Z → Z → Z) → list Z).
Context (qsort_players : list Player → (Player → Player → option Z) → list Player).
Context (rand clock : nat → Z).

(** [qsort] returns a permutation ordered by a comparison function that is
    consistent; [clock] does not fail. *)
Hypothesis qsort_sorts : ∀ l cmp,
  (∀ a b, cmp a b = - cmp b a) → (∀ a b c, cmp a b ≤ 0 → cmp b c ≤ 0 → cmp a c ≤ 0) →
  qsort l cmp ≡ₚ l ∧ StronglySorted (λ a b, cmp a b ≤ 0) (qsort l cmp).
Hypothesis qsort_players_sorts : ∀ l cmp f,
  (∀ a b, a ∈ l → b ∈ l → cmp a b = Some (f a b)) →
  (∀ a b, f a b = - f b a) → (∀ a b c, f a b ≤ 0 → f b c ≤ 0 → f a c ≤ 0) →
  qsort_players l cmp ≡ₚ l ∧ StronglySorted (λ a b, f a b ≤ 0) (qsort_players l cmp).
Hypothesis clock_works : ∀ k, 0 ≤ clock k ≤ LONG_MAX.

Lemma qsort_unique l l' cmp :
  (∀ a b, cmp a b = - cmp b a) → (∀ a b c, cmp a b ≤ 0 → cmp b c ≤ 0 → cmp a c ≤ 0) →
  (∀ a b, cmp a b = 0 → a = b) → l' ≡ₚ l → StronglySorted (λ a b, cmp a b ≤ 0) l' →
  qsort l cmp = l'.
Proof.
  intros Ha Ht He Hp Hs. destruct (qsort_sorts l cmp Ha Ht) as [Hp' Hs'].
  assert (AntiSymm eq (λ a b, cmp a b ≤ 0)) as Has.
  { intros a b H1 H2. apply He. specialize (Ha a b). lia. }
  apply (StronglySorted_unique (λ a b, cmp a b ≤ 0)); [done|done|by rewrite Hp' Hp].
Qed.

Lemma qsort_asc : qsort original cmp_asc = [3; 8; 11; 12; 22; 25; 37; 43; 55; 64; 76; 90].
Proof.
  apply qsort_unique.
  - intros a b. rewrite !cmp_asc_sgn. lia.
  - intros a b c. rewrite !cmp_asc_sgn. lia.
  - intros a b. rewrite cmp_asc_sgn. lia.
  - rewrite (_ : [_; _; _; _; _; _; _; _; _; _; _; _] = sort original); [|by vm_compute].
    apply sorting.merge_sort_Permutation.
  - repeat constructor; by vm_compute.
Qed.

Lemma qsort_desc :
  qsort [3; 8; 11; 12; 22; 25; 37; 43; 55; 64; 76; 90] cmp_desc
  = [90; 76; 64; 55; 43; 37; 25; 22; 12; 11; 8; 3].
Proof.
  apply qsort_unique.
  - intros a b. rewrite !cmp_desc_sgn. lia.
  - intros a b c. rewrite !cmp_desc_sgn. lia.
  - intros a b. rewrite cmp_desc_sgn. lia.
  - symmetry. apply (Permutation_rev [3; 8; 11; 12; 22; 25; 37; 43; 55; 64; 76; 90]).
  - repeat constructor; by vm_compute.
Qed.

(** The player of a name. *)
Definition by_name (n : string) : Player :=
  default (MkPlayer "" 0) (head (filter (λ p, name p = n) players)).

Lemma qsort_names ps :
  ps ≡ₚ players → qsort_players ps (λ a b, Some (cmp_player_name a b)) = players.
Proof.
  intros Hp.
  destruct (qsort_players_sorts ps (λ a b, Some (cmp_player_name a b)) cmp_player_name) as [Hp' Hs].
  - done.
  - intros a b. apply strcmp_antisym.
  - intros a b c. apply strcmp_trans.
  - set (l := qsort_players _ _) in *. rewrite Hp in Hp'.
    assert (map name l = map name players) as Hn.
    { assert (AntiSymm eq (λ a b, strcmp a b ≤ 0)) as Has.
      { intros a b H1 H2. apply strcmp_eq. rewrite strcmp_antisym in H2. lia. }
      apply (StronglySorted_unique (λ a b, strcmp a b ≤ 0)).
      - clear -Hs. induction Hs as [|a l _ IH Ha]; constructor; [done|].
        rewrite Forall_map. eapply Forall_impl; [exact Ha|]. by intros.
      - repeat constructor; by vm_compute.
      - by rewrite Hp'. }
    assert (Forall (λ p, by_name (name p) = p) l) as Hb.
    { rewrite Hp'. repeat constructor. }
    transitivity (map by_name (map name l)).
    + clear -Hb. induction Hb as [|p l Hp _ IH]; [done|]. simpl. by rewrite Hp -IH.
    + rewrite Hn. by vm_compute.
Qed.

(** [main] of the sorting exercise, whatever [rand] returns, whatever the
    values of [clock] and for every behaviour of the allocator: unless an allocation
    fails it returns 0; it has printed the sorted array after each of the five
    sorts, the results of [qsort] in ascending and descending order, the players in
    descending order of score and then by name, and one time for each sort of 20000
    elements; and every object is freed. *)
Theorem sorting_main_correct :
  runs (main qsort qsort_players rand clock)
    (λ r e, r = 0 ∧ ∃ ps, ps ≡ₚ players ∧ StronglySorted (λ a b, score b ≤ score a) ps ∧
       stdout e = main_text ps clock) False.
Proof.
  apply wp_runs. intros mf X HX _. unfold main.
  wp_step. iApply wp_local. iIntros (a) "Ha". wp_step. iApply wp_local. iIntros (b) "Hb".
  iAssert (arr a original) with "Ha" as "Ha". iAssert (buffer b (replicate (Z.to_nat N) None)) with "Hb" as "Hb".
  do 3 wp_step. change N with (len original) at 1. iApply (wp_print_arr with "Ha"). iIntros (o1 H1) "Ha".
  do 3 wp_step. iApply (wp_demonstrate _ _ a b original with "Ha Hb"); [done|done|by apply wp_sorts|].
  iIntros (o2 ts H2 Hts) "Ha Hb". do 3 wp_step.
  change N with (len original) at 1. iApply (wp_copy_arr with "Ha Hb"); [done|]. iIntros "Ha Hb".
  wp_step. iApply (wp_qsort_arr with "Hb"). iIntros "Hb". rewrite qsort_asc. do 3 wp_step.
  change N with (len [3; 8; 11; 12; 22; 25; 37; 43; 55; 64; 76; 90]) at 1.
  iApply (wp_print_arr with "Hb"). iIntros (o3 H3) "Hb".
  wp_step. iApply (wp_qsort_arr with "Hb"). iIntros "Hb". rewrite qsort_desc. do 3 wp_step.
  change N with (len [90; 76; 64; 55; 43; 37; 25; 22; 12; 11; 8; 3]) at 1.
  iApply (wp_print_arr with "Hb"). iIntros (o4 H4) "Hb".
  destruct (qsort_players_sorts players cmp_player_score (λ a b, score b - score a)) as [Hp Hs].
  { intros p q Hp Hq. unfold players in *. set_unfold.
    destruct_or!; subst; vm_compute; reflexivity. }
  { intros. lia. }
  { intros. lia. }
  set (ps := qsort_players players cmp_player_score) in *. rewrite (qsort_names ps Hp).
  do 3 wp_step. iApply wp_print_players. iIntros (o5 H5).
  do 3 wp_step. iApply wp_print_players. iIntros (o6 H6).
  wp_step. iApply (wp_performance _ _ _ _ _ HX clock_works). iIntros (o7 H7).
  unfold arr. wp_run. iPureIntro. split; [done|]. exists ps. split_and!; [done| |].
  { eapply StronglySorted_weaken; [|exact Hs]. simpl. intros. lia. }
  cbn [app]. repeat (cbn [app stdout]; rewrite stdout_app). cbn [app stdout].
  rewrite H1 H2 H3 H4 H5 H6 H7 ?string_app_nil_r. reflexivity.
Qed.
End main_theorem.

(** Insertion sort by a comparison, as an instance of [qsort]. *)
Fixpoint insert_by {A} (le : A → A → bool) (x : A) (l : list A) : list A :=
  match l with [] => [x] | y :: l' => if le x y then x :: l else y :: insert_by le x l' end.
Definition sort_by {A} (le : A → A → bool) (l : list A) : list A := foldr (insert_by le) [] l.

Lemma sort_by_spec {A} (f : A → A → Z) (l : list A) :
  (∀ a b, f a b = - f b a) → (∀ a b c, f a b ≤ 0 → f b c ≤ 0 → f a c ≤ 0) →
  sort_by (λ a b, f a b <=? 0) l ≡ₚ l ∧
  StronglySorted (λ a b, f a b ≤ 0) (sort_by (λ a b, f a b <=? 0) l).
Proof.
  intros Ha Ht.
  assert (∀ x l, insert_by (λ a b, f a b <=? 0) x l ≡ₚ x :: l) as Hp.
  { clear l. intros x l. induction l as [|y l IH]; simpl; [done|].
    destruct (f x y <=? 0); [done|]. rewrite IH. constructor. }
  assert (∀ x l, StronglySorted (λ a b, f a b ≤ 0) l →
    StronglySorted (λ a b, f a b ≤ 0) (insert_by (λ a b, f a b <=? 0) x l)) as Hs.
  { clear l. intros x l H. induction H as [|y l H IH Hy]; simpl; [by repeat constructor|].
    destruct (Z.leb_spec (f x y) 0).
    - constructor; [by constructor|]. constructor; [done|].
      eapply Forall_impl; [exact Hy|]. intros z Hz. by apply (Ht _ y).
    - constructor; [done|]. rewrite Hp. constructor; [|done]. specialize (Ha y x). lia. }
  induction l as [|x l [IH1 IH2]]; simpl; [split; constructor|].
  split; [by rewrite Hp IH1|by apply Hs].
Qed.

Lemma sort_by_ext {A} (le le' : A → A → bool) (l : list A) :
  (∀ a b, a ∈ l → b ∈ l → le a b = le' a b) → sort_by le l = sort_by le' l.
Proof.
  assert (∀ (le : A → A → bool) (x : A) (l : list A), insert_by le x l ≡ₚ x :: l) as Hp.
  { clear. intros le x l. induction l as [|y l IH]; simpl; [done|].
    destruct (le x y); [done|]. rewrite IH. constructor. }
  assert (∀ l : list A, sort_by le l ≡ₚ l) as Hs.
  { clear -Hp. intros l. induction l as [|x l IH]; simpl; [done|]. by rewrite Hp IH. }
  assert (∀ (x : A) (l : list A), (∀ b, b ∈ l → le x b = le' x b) → insert_by le x l = insert_by le' x l) as Hi.
  { clear. intros x l H. induction l as [|y l IH]; simpl; [done|].
    rewrite (H y); [|by left]. rewrite IH; [done|]. intros b Hb. apply H. by right. }
  induction l as [|x l IH]; intros H; simpl; [done|].
  rewrite -IH; [|intros a b Ha Hb; apply H; by right].
  apply Hi. intros b Hb. apply H; [by left|]. right. by rewrite -(Hs l).
Qed.

Definition qsort_int (l : list Z) (cmp : Z → Z → Z) : list Z := sort_by (λ a b, cmp a b <=? 0) l.
Definition qsort_player (l : list Player) (cmp : Player → Player → option Z) : list Player :=
  sort_by (λ a b, default 0 (cmp a b) <=? 0) l.

Lemma qsort_player_sorts l cmp f :
  (∀ a b, a ∈ l → b ∈ l → cmp a b = Some (f a b)) →
  (∀ a b, f a b = - f b a) → (∀ a b c, f a b ≤ 0 → f b c ≤ 0 → f a c ≤ 0) →
  qsort_player l cmp ≡ₚ l ∧ StronglySorted (λ a b, f a b ≤ 0) (qsort_player l cmp).
Proof.
  intros Hc Ha Ht. unfold qsort_player. rewrite (sort_by_ext _ (λ a b, f a b <=? 0)).
  - by apply sort_by_spec.
  - intros a b Hal Hbl. by rewrite (Hc a b).
Qed.

Lemma sorting_main_correct_witness :
  runs (main qsort_int qsort_player (λ k, Z.of_nat k) (λ k, 1000))
    (λ r e, r = 0 ∧ ∃ ps, ps ≡ₚ players ∧ StronglySorted (λ a b, score b ≤ score a) ps ∧
       stdout e = main_text ps (λ k, 1000)) False.
Proof.
  apply (sorting_main_correct qsort_int qsort_player).
  - intros l cmp. apply sort_by_spec.
  - apply qsort_player_sorts.
  - intros _. by vm_compute.
Defined.
