(* ===== verification/HashTable.v ===== *)
(** * Exercise 18: hash table

    Model of [exercises/18_hash_table/hash_table.c]: a table of chains of entries
    that own copies of their keys, with rehashing, and [main].  The API on the heap
    refines a table of lists ([table]), which in turn implements a finite map. *)

From S2P Require Import Prelude Machine CString Double Printf SepLogic Session.

(** ** Data *)

Record Entry := { key : ptr; value : Z; next : ptr }.
Record HashMap := { buckets : ptr; capacity : Z; count : Z }.

Definition set_value (v : Z) (e : Entry) : Entry := {| key := key e; value := v; next := next e |}.
Definition set_next (p : ptr) (e : Entry) : Entry := {| key := key e; value := value e; next := p |}.
Definition set_buckets (p : ptr) (m : HashMap) : HashMap :=
  {| buckets := p; capacity := capacity m; count := count m |}.
Definition set_capacity (n : Z) (m : HashMap) : HashMap :=
  {| buckets := buckets m; capacity := n; count := count m |}.
Definition set_count (n : Z) (m : HashMap) : HashMap :=
  {| buckets := buckets m; capacity := capacity m; count := n |}.

(** Uninitialised memory, a table, its array of buckets, an entry, a string, and
    a local [int] whose address is taken ([None] before it is written). *)
Inductive obj :=
  | Raw
  | OMap (m : HashMap)
  | OBuckets (b : list ptr)
  | OEntry (e : Entry)
  | OStr (s : string)
  | OInt (v : option Z).

#[export] Instance obj_map : Prism obj HashMap :=
  {| to_obj := OMap; of_obj o := match o with OMap m => Some m | _ => None end;
     of_to_obj _ := eq_refl |}.
#[export] Instance obj_buckets : Prism obj (list ptr) :=
  {| to_obj := OBuckets; of_obj o := match o with OBuckets b => Some b | _ => None end;
     of_to_obj _ := eq_refl |}.
#[export] Instance obj_entry : Prism obj Entry :=
  {| to_obj := OEntry; of_obj o := match o with OEntry e => Some e | _ => None end;
     of_to_obj _ := eq_refl |}.
#[export] Instance obj_str : Prism obj string :=
  {| to_obj := OStr; of_obj o := match o with OStr s => Some s | _ => None end;
     of_to_obj _ := eq_refl |}.
#[export] Instance obj_int : Prism obj Z :=
  {| to_obj v := OInt (Some v); of_obj o := match o with OInt v => v | _ => None end;
     of_to_obj _ := eq_refl |}.

Definition INITIAL_CAPACITY : Z := 8.
Definition LOAD_MAX : double := lit 75 2.

(** [h = h * 33 ^ c] for every byte [c], modulo 2^64. *)
Fixpoint djb2_from (h : Z) (k : string) : Z :=
  match k with
  | EmptyString => h
  | String c k' => djb2_from (Z.lxor (u64 (h * 33)) (code c)) k'
  end.

Definition hash_djb2 (k : string) : Z := djb2_from 5381 k.

Definition bucket_index (k : string) (capacity : Z) : Z := to_int (hash_djb2 k mod capacity).

(** [b[i]] and [b[i] = p] on an array of buckets. *)
Definition get_bucket (b : ptr) (i : Z) : M obj ptr :=
  l <- load b ;;
  if i <? 0 then undefined
  else match l !! Z.to_nat i with Some p => ret p | None => undefined end.

Definition set_bucket (b : ptr) (i : Z) (p : ptr) : M obj unit :=
  l <- load b ;;
  if (0 <=? i) && (i <? Z.of_nat (length l)) then store b (<[Z.to_nat i := p]> l)
  else undefined.

Definition dup_str (s : string) : M obj ptr :=
  copy <- malloc Raw ;;
  match copy with
  | None => die "malloc failed\n"
  | Some _ => store copy s ;;; ret copy
  end.

Definition entry_create (k : string) (v : Z) : M obj ptr :=
  e <- malloc Raw ;;
  match e with
  | None => die "malloc failed\n"
  | Some _ =>
      c <- dup_str k ;;
      store e {| key := c; value := v; next := NULL |} ;;;
      ret e
  end.

(** [map->count += d]. *)
Definition add_count (map : ptr) (d : Z) : M obj unit :=
  m <- load map ;; n <- int_chk (count m + d) ;; update map (set_count n).

(** [while (cur)] of [rehash]: the entries of a chain move to the new buckets. *)
Definition move_chain (fuel : nat) (map : ptr) (cur : ptr) : M obj unit :=
  loop fuel (λ cur : ptr,
    match cur with
    | None => ret (inr tt)
    | Some _ =>
        e <- load cur ;;
        let nxt := next e in
        k <- load (key e) ;;
        m <- load map ;;
        let idx := bucket_index k (capacity m) in
        p <- get_bucket (buckets m) idx ;;
        update cur (set_next p) ;;;
        set_bucket (buckets m) idx cur ;;;
        add_count map 1 ;;;
        ret (inl nxt)
    end) cur.

Definition rehash (map : ptr) : M obj unit :=
  m <- load map ;;
  let old_cap := capacity m in
  let old_bkts := buckets m in
  c <- int_chk (old_cap * 2) ;;
  update map (set_capacity c) ;;;
  b <- malloc (OBuckets (replicate (Z.to_nat c) NULL)) ;;
  update map (set_buckets b) ;;;
  match b with
  | None => die "calloc failed\n"
  | Some _ =>
      update map (set_count 0) ;;;
      for_range 0 old_cap (λ i _,
        cur <- get_bucket old_bkts i ;;
        fuel <- heap_fuel ;;
        move_chain fuel map cur) tt ;;;
      free old_bkts
  end.

Definition hmap_create : M obj ptr :=
  map <- malloc Raw ;;
  match map with
  | None => die "malloc failed\n"
  | Some _ =>
      b <- malloc (OBuckets (replicate (Z.to_nat INITIAL_CAPACITY) NULL)) ;;
      store map {| buckets := b; capacity := INITIAL_CAPACITY; count := 0 |} ;;;
      match b with
      | None => die "calloc failed\n"
      | Some _ => ret map
      end
  end.

Definition free_chain (fuel : nat) (cur : ptr) : M obj unit :=
  loop fuel (λ cur : ptr,
    match cur with
    | None => ret (inr tt)
    | Some _ =>
        e <- load cur ;;
        let nxt := next e in
        free (key e) ;;;
        free cur ;;;
        ret (inl nxt)
    end) cur.

Definition hmap_free (map : ptr) : M obj unit :=
  m <- load map ;;
  for_range 0 (capacity m) (λ i _,
    m <- load map ;;
    cur <- get_bucket (buckets m) i ;;
    fuel <- heap_fuel ;;
    free_chain fuel cur) tt ;;;
  m <- load map ;;
  free (buckets m) ;;;
  free map.

(** The walk of [hmap_put], [hmap_get] and [hmap_delete] along a chain: the entry
    with the key [k] and the one before it, or NULL at the end. *)
Definition find_entry (fuel : nat) (k : string) (cur : ptr) : M obj (ptr * ptr) :=
  loop fuel (λ '(prev, cur),
    match cur with
    | None => ret (inr (prev, NULL))
    | Some _ =>
        e <- load cur ;;
        s <- load (key e) ;;
        if strcmp s k =? 0 then ret (inr (prev, cur)) else ret (inl (cur, next e))
    end) (NULL, cur).

(** [(double)(count + 1) / capacity > LOAD_MAX]. *)
Definition overloaded (count capacity : Z) : bool :=
  d_gt (d_div (d_of_Z (count + 1)) (d_of_Z capacity)) LOAD_MAX.

Definition hmap_put (map : ptr) (k : string) (v : Z) : M obj unit :=
  m <- load map ;;
  let idx := bucket_index k (capacity m) in
  cur <- get_bucket (buckets m) idx ;;
  fuel <- heap_fuel ;;
  let* (_, cur) := find_entry fuel k cur in
  match cur with
  | Some _ => update cur (set_value v)
  | None =>
      m <- load map ;;
      n <- int_chk (count m + 1) ;;
      (if overloaded (count m) (capacity m) then rehash map else ret tt) ;;;
      m <- load map ;;
      let idx := bucket_index k (capacity m) in
      e <- entry_create k v ;;
      p <- get_bucket (buckets m) idx ;;
      update e (set_next p) ;;;
      set_bucket (buckets m) idx e ;;;
      add_count map 1
  end.

Definition hmap_get (map : ptr) (k : string) (out : ptr) : M obj Z :=
  m <- load map ;;
  let idx := bucket_index k (capacity m) in
  cur <- get_bucket (buckets m) idx ;;
  fuel <- heap_fuel ;;
  let* (_, cur) := find_entry fuel k cur in
  match cur with
  | Some _ => e <- load cur ;; store out (value e) ;;; ret 1
  | None => ret 0
  end.

Definition hmap_delete (map : ptr) (k : string) : M obj Z :=
  m <- load map ;;
  let idx := bucket_index k (capacity m) in
  cur <- get_bucket (buckets m) idx ;;
  fuel <- heap_fuel ;;
  let* (prev, cur) := find_entry fuel k cur in
  match cur with
  | Some _ =>
      e <- load cur ;;
      match prev with
      | Some _ => update prev (set_next (next e))
      | None => set_bucket (buckets m) idx (next e)
      end ;;;
      free (key e) ;;;
      free cur ;;;
      add_count map (-1) ;;;
      ret 1
  | None => ret 0
  end.

Definition hmap_contains (map : ptr) (k : string) : M obj Z :=
  ignored <- local (OInt None) ;;
  r <- hmap_get map k ignored ;;
  free ignored ;;;
  ret r.

(** [for (Entry *e = b; e; e = e->next)] of [hmap_print]. *)
Definition print_chain (fuel : nat) (e : ptr) : M obj unit :=
  loop fuel (λ e : ptr,
    match e with
    | None => ret (inr tt)
    | Some _ =>
        t <- load e ;;
        s <- load (key t) ;;
        printf "\q%s\q:%d" [AStr s; AInt (value t)] ;;;
        match next t with Some _ => printf " → " [] | None => ret tt end ;;;
        ret (inl (next t))
    end) e.

Definition hmap_print (map : ptr) : M obj unit :=
  m <- load map ;;
  printf "HashMap { count=%d  capacity=%d  load=%.2f }\n"
    [AInt (count m); AInt (capacity m); ADbl (d_div (d_of_Z (count m)) (d_of_Z (capacity m)))] ;;;
  for_range 0 (capacity m) (λ i _,
    m <- load map ;;
    b <- get_bucket (buckets m) i ;;
    match b with
    | None => ret tt
    | Some _ =>
        printf "  [%2d] " [AInt i] ;;;
        fuel <- heap_fuel ;;
        print_chain fuel b ;;;
        printf "\n" []
    end) tt.

(** *** [main] *)

(** [if (hmap_get(map, key, &val)) printf(...) else printf(...)] *)
Definition show_get (map val : ptr) (k : string) : M obj unit :=
  r <- hmap_get map k val ;;
  if negb (r =? 0) then v <- load val ;; printf "get(\q%s\q) = %d\n" [AStr k; AInt v]
  else printf "get(\q%s\q) = (not found)\n" [AStr k].

Definition key_of (i : Z) : string := ("key" +:+ dec i)%string.

Definition fill_big (big : ptr) : M obj unit :=
  for_range 0 40 (λ i _,
    hmap_put big (key_of i) (i * i) ;;;
    if (i =? 5) || (i =? 11) || (i =? 23) || (i =? 39) then
      m <- load big ;;
      printf "after %2d inserts: capacity=%-4d  load=%.2f\n"
        [AInt (i + 1); AInt (capacity m); ADbl (d_div (d_of_Z (count m)) (d_of_Z (capacity m)))]
    else ret tt) tt.

Definition verify_big (big val : ptr) : M obj Z :=
  for_range 0 40 (λ i errors,
    r <- hmap_get big (key_of i) val ;;
    if r =? 0 then ret (errors + 1)
    else v <- load val ;; if v =? i * i then ret errors else ret (errors + 1)) 0.

Definition words : list string :=
  ["the"; "quick"; "brown"; "fox"; "jumps"; "over"; "the"; "lazy"; "dog"; "the"; "fox"; "the"].

Definition count_words (freq : ptr) (words : list string) : M obj unit :=
  for_list words (λ w _,
    cnt <- local (OInt (Some 0)) ;;
    hmap_get freq w cnt ;;;
    c <- load cnt ;;
    n <- int_chk (c + 1) ;;
    hmap_put freq w n ;;;
    free cnt) tt.

Definition main : M obj Z :=
  printf "=== put / get / contains ===\n" [] ;;;
  map <- hmap_create ;;
  hmap_put map "alpha" 1 ;;;
  hmap_put map "beta" 2 ;;;
  hmap_put map "gamma" 3 ;;;
  hmap_put map "delta" 4 ;;;
  hmap_put map "epsilon" 5 ;;;
  hmap_print map ;;;
  val <- local (OInt None) ;;
  for_list ["alpha"; "gamma"; "epsilon"; "zeta"] (λ k _, show_get map val k) tt ;;;
  printf "\n=== update ===\n" [] ;;;
  hmap_put map "beta" 99 ;;;
  hmap_get map "beta" val ;;;
  v <- load val ;;
  printf "after update, get(\qbeta\q) = %d\n" [AInt v] ;;;
  printf "\n=== delete ===\n" [] ;;;
  r <- hmap_delete map "gamma" ;;
  printf "delete(\qgamma\q)   = %d\n" [AInt r] ;;;
  r <- hmap_delete map "missing" ;;
  printf "delete(\qmissing\q) = %d\n" [AInt r] ;;;
  r <- hmap_contains map "gamma" ;;
  printf "contains(\qgamma\q) = %d\n" [AInt r] ;;;
  hmap_print map ;;;
  printf "=== rehash under load ===\n" [] ;;;
  big <- hmap_create ;;
  fill_big big ;;;
  errors <- verify_big big val ;;
  printf "post-rehash verification: %s\n"
    [AStr (if negb (errors =? 0) then "FAILED" else "all 40 entries correct")] ;;;
  hmap_free big ;;;
  printf "\n=== word frequency counter ===\n" [] ;;;
  freq <- hmap_create ;;
  count_words freq words ;;;
  hmap_print freq ;;;
  hmap_free freq ;;;
  hmap_free map ;;;
  free val ;;;
  ret 0.

(** ** The table as data: a list of chains

    [t_put], [t_delete] and the others follow the program on the contents of the
    buckets. *)
Abbreviation assoc := (list (string * Z)).
Abbreviation table := (list (list (string * Z))).

Definition t_cap (t : table) : Z := Z.of_nat (length t).
Definition t_count (t : table) : Z := Z.of_nat (length (concat t)).
Definition t_idx (k : string) (t : table) : nat := Z.to_nat (bucket_index k (t_cap t)).

Definition c_find (k : string) (c : assoc) : option Z :=
  snd <$> List.find (λ '(k', _), String.eqb k' k) c.

(** The value of the first entry with the key [k] becomes [v]. *)
Fixpoint c_set (k : string) (v : Z) (c : assoc) : assoc :=
  match c with
  | [] => []
  | (k', v') :: c' => if String.eqb k' k then (k', v) :: c' else (k', v') :: c_set k v c'
  end.

Definition c_delete (k : string) (c : assoc) : assoc :=
  remove_first (λ '(k', _), String.eqb k' k) c.

Definition t_bucket (k : string) (t : table) : assoc := default [] (t !! t_idx k t).
Definition t_get (k : string) (t : table) : option Z := c_find k (t_bucket k t).

(** A new entry goes to the front of its bucket. *)
Definition t_insert (t : table) (e : string * Z) : table :=
  <[t_idx (fst e) t := e :: t_bucket (fst e) t]> t.

Definition t_rehash (t : table) : table :=
  foldl t_insert (replicate (length t + length t) []) (concat t).

Definition t_put (k : string) (v : Z) (t : table) : table :=
  match t_get k t with
  | Some _ => <[t_idx k t := c_set k v (t_bucket k t)]> t
  | None => t_insert (if overloaded (t_count t) (t_cap t) then t_rehash t else t) (k, v)
  end.

Definition t_delete (k : string) (t : table) : table :=
  <[t_idx k t := c_delete k (t_bucket k t)]> t.

Definition pair_text (e : string * Z) : string :=
  (String dquote "" +:+ fst e +:+ String dquote ":" +:+ int_str (snd e))%string.

Definition bucket_text (i : Z) (c : assoc) : string :=
  match c with
  | [] => ""
  | _ => "  [" +:+ fmt_signed (FSpec false false false (Some 2%nat) None) i +:+ "] " +:+
         join_str " → " (map pair_text c) +:+ String nl ""
  end%string.

Definition buckets_text (lo : Z) (t : table) : string :=
  concat_str (imap (λ i c, bucket_text (lo + Z.of_nat i) c) t).

Definition header_text (n c : Z) : string :=
  ("HashMap { count=" +:+ int_str n +:+ "  capacity=" +:+ int_str c +:+ "  load=" +:+
   fmt_dbl (FSpec false false false None (Some 2%nat)) (d_div (d_of_Z n) (d_of_Z c)) +:+
   " }" +:+ String nl "")%string.

Definition t_text (t : table) : string :=
  (header_text (t_count t) (t_cap t) +:+ buckets_text 0 t)%string.

(** *** Clients of the API *)

Inductive op :=
  | Put (k : string) (v : Z)
  | Get (k : string)
  | Contains (k : string)
  | Delete (k : string)
  | Show.

(** The value of a hit, as [hmap_get] reports it. *)
Definition get_result (r : option Z) : list Z := match r with Some v => [1; v] | None => [0] end.
Definition found (r : option Z) : Z := match r with Some _ => 1 | None => 0 end.

Definition table_op (o : op) (t : table) : option (list Z * table * string) :=
  match o with
  | Put k v => Some ([], t_put k v t, "")
  | Get k => Some (get_result (t_get k t), t, "")
  | Contains k => Some ([found (t_get k t)], t, "")
  | Delete k => Some ([found (t_get k t)], t_delete k t, "")
  | Show => Some ([], t, t_text t)
  end%string.

Definition call_op (map : ptr) (o : op) : M obj (list Z) :=
  match o with
  | Put k v => hmap_put map k v ;;; ret []
  | Get k =>
      out <- local (OInt None) ;;
      r <- hmap_get map k out ;;
      rs <- (if negb (r =? 0) then v <- load out ;; ret [r; v] else ret [r]) ;;
      free out ;;; ret rs
  | Contains k => r <- hmap_contains map k ;; ret [r]
  | Delete k => r <- hmap_delete map k ;; ret [r]
  | Show => hmap_print map ;;; ret []
  end.

Definition session (ops : list op) : M obj (list (list Z)) :=
  map <- hmap_create ;;
  rs <- run_ops (call_op map) ops ;;
  hmap_free map ;;;
  ret rs.

Definition t_empty : table := replicate 8 [].

(** ** Lemmas on the data *)

(** The capacity is a power of two between 8 and 2^30. *)
Definition cap_ok (t : table) : Prop := ∃ j, t_cap t = 2 ^ j ∧ 3 ≤ j ≤ 30.

Lemma cap_ok_bound t : cap_ok t → 8 ≤ t_cap t ≤ 2 ^ 30.
Proof.
  intros (j & -> & Hj). split; [change 8 with (2 ^ 3)|]; apply Z.pow_le_mono_r; lia.
Qed.

Lemma bucket_index_range k c : 0 < c ≤ INT_MAX → 0 ≤ bucket_index k c < c.
Proof.
  intros Hc. unfold bucket_index. pose proof (Z.mod_pos_bound (hash_djb2 k) c).
  rewrite to_int_id; [|unfold INT_MIN]; lia.
Qed.

Lemma t_idx_lt k t : cap_ok t → (t_idx k t < length t)%nat.
Proof.
  intros H%cap_ok_bound. unfold t_idx, t_cap in *.
  pose proof (bucket_index_range k (Z.of_nat (length t))). unfold INT_MAX in *. lia.
Qed.

Lemma bucket_index_idx k t : cap_ok t → bucket_index k (t_cap t) = Z.of_nat (t_idx k t).
Proof.
  intros H%cap_ok_bound. unfold t_idx. pose proof (bucket_index_range k (t_cap t)).
  unfold INT_MAX in *. lia.
Qed.

Lemma t_bucket_lookup k t : cap_ok t → t !! t_idx k t = Some (t_bucket k t).
Proof.
  intros H. unfold t_bucket. destruct (lookup_lt_is_Some_2 t (t_idx k t)) as [c ->]; [|done].
  by apply t_idx_lt.
Qed.

Lemma cap_ok_insert i c t : cap_ok t → cap_ok (<[i := c]> t).
Proof. unfold cap_ok, t_cap. by rewrite length_insert. Qed.

Lemma cap_ok_t_insert e t : cap_ok t → cap_ok (t_insert t e).
Proof. apply cap_ok_insert. Qed.

Lemma length_concat_insert {A} (t : list (list A)) i c c' :
  t !! i = Some c → (length (concat (<[i := c']> t)) + length c = length (concat t) + length c')%nat.
Proof.
  revert i. induction t as [|d t IH]; intros [|i] H; simplify_eq/=; rewrite !length_app; [lia|].
  specialize (IH i H). lia.
Qed.

Lemma t_count_insert t e : cap_ok t → t_count (t_insert t e) = t_count t + 1.
Proof.
  intros H. unfold t_count, t_insert.
  pose proof (length_concat_insert _ _ _ (e :: t_bucket (fst e) t) (t_bucket_lookup (fst e) t H)).
  simpl in *. lia.
Qed.

Lemma t_insert_fold_cap es t : cap_ok t → cap_ok (foldl t_insert t es).
Proof. revert t. induction es as [|e es IH]; intros t H; simpl; [done|]. by apply IH, cap_ok_insert. Qed.

Lemma t_insert_fold_length es t : length (foldl t_insert t es) = length t.
Proof.
  revert t. induction es as [|e es IH]; intros t; simpl; [done|]. rewrite IH. apply length_insert.
Qed.

Lemma t_insert_fold_count es t :
  cap_ok t → t_count (foldl t_insert t es) = t_count t + Z.of_nat (length es).
Proof.
  revert t. induction es as [|e es IH]; intros t H; simpl; [lia|].
  rewrite IH; [|by apply cap_ok_insert]. rewrite t_count_insert //. lia.
Qed.

Lemma concat_replicate_nil {A} n : concat (replicate n ([] : list A)) = [].
Proof. by induction n. Qed.

(** The load test is exact, so a table that is overloaded is small enough to
    be doubled. *)
Lemma overloaded_spec n t :
  cap_ok t → 0 ≤ n < 2 ^ 31 → overloaded n (t_cap t) = (3 * t_cap t <? 4 * (n + 1)).
Proof.
  intros (j & -> & Hj) Hn. unfold overloaded, LOAD_MAX. apply d_ratio_gt_three_quarters; lia.
Qed.

Lemma t_rehash_cap t :
  cap_ok t → overloaded (t_count t) (t_cap t) = true → t_count t < 2 ^ 28 →
  t_cap t ≤ 2 ^ 29 ∧ cap_ok (replicate (length t + length t) [] : table) ∧
  t_cap (t_rehash t) = 2 * t_cap t ∧ t_count (t_rehash t) = t_count t.
Proof.
  intros Hc Ho Hn. rewrite overloaded_spec in Ho; [|done|unfold t_count in *; lia]. apply Z.ltb_lt in Ho.
  assert (cap_ok (replicate (length t + length t) [] : table)) as Hc'.
  { destruct Hc as (j & Hj & Hj3). exists (j + 1). unfold t_cap in *. rewrite length_replicate Z.pow_add_r; [|lia..].
    split; [lia|]. split; [lia|]. destruct (Z.le_gt_cases j 29); [lia|].
    assert (j = 30) as -> by lia. lia. }
  split_and!; [lia|done| |].
  - unfold t_rehash, t_cap. rewrite t_insert_fold_length length_replicate. lia.
  - unfold t_rehash. rewrite t_insert_fold_count //. unfold t_count.
    by rewrite concat_replicate_nil.
Qed.

Lemma cap_ok_rehash t :
  cap_ok t → overloaded (t_count t) (t_cap t) = true → t_count t < 2 ^ 28 → cap_ok (t_rehash t).
Proof. intros Hc Ho Hn. apply t_insert_fold_cap. by apply t_rehash_cap. Qed.

Lemma c_set_length k v c : length (c_set k v c) = length c.
Proof.
  induction c as [|[k' v'] c IH]; simpl; [done|]. destruct (String.eqb k' k); simpl; by rewrite ?IH.
Qed.

Lemma t_put_ok k v t : cap_ok t → t_count t < 2 ^ 28 → cap_ok (t_put k v t) ∧ t_count (t_put k v t) ≤ t_count t + 1.
Proof.
  intros Hc Hn. unfold t_put. destruct (t_get k t).
  - split; [by apply cap_ok_insert|]. unfold t_count.
    pose proof (length_concat_insert _ _ _ (c_set k v (t_bucket k t)) (t_bucket_lookup k t Hc)).
    rewrite c_set_length in H. lia.
  - destruct (overloaded _ _) eqn:E.
    + pose proof (cap_ok_rehash t Hc E Hn). split; [by apply cap_ok_insert|].
      rewrite t_count_insert //. destruct (t_rehash_cap t Hc E Hn) as (_ & _ & _ & ->). done.
    + split; [by apply cap_ok_insert|]. by rewrite t_count_insert.
Qed.

Lemma c_delete_length k c : (length (c_delete k c) ≤ length c)%nat.
Proof. apply remove_first_length_le. Qed.

Lemma t_delete_ok k t : cap_ok t → cap_ok (t_delete k t) ∧ t_count (t_delete k t) ≤ t_count t.
Proof.
  intros Hc. unfold t_delete. split; [by apply cap_ok_insert|]. unfold t_count.
  pose proof (length_concat_insert _ _ _ (c_delete k (t_bucket k t)) (t_bucket_lookup k t Hc)).
  pose proof (c_delete_length k (t_bucket k t)). lia.
Qed.

(** How the three functions on chains split at the entry that is found. *)
Lemma c_split k c1 v c2 :
  Forall (λ e, fst e ≠ k) c1 →
  c_find k (c1 ++ (k, v) :: c2) = Some v ∧
  c_delete k (c1 ++ (k, v) :: c2) = c1 ++ c2 ∧
  ∀ v', c_set k v' (c1 ++ (k, v) :: c2) = c1 ++ (k, v') :: c2.
Proof.
  intros H. unfold c_find, c_delete. induction H as [|[k' v'] c1 Hk _ (IH1 & IH2 & IH3)]; simpl.
  - by rewrite String.eqb_refl.
  - destruct (String.eqb_spec k' k); [done|]. split; [done|]. rewrite IH2. split; [done|].
    intros v''. by rewrite IH3.
Qed.

Lemma c_absent k c : Forall (λ e, fst e ≠ k) c → c_find k c = None ∧ c_delete k c = c.
Proof.
  intros H. unfold c_find, c_delete. induction H as [|[k' v'] c Hk _ [IH1 IH2]]; simpl; [done|].
  destruct (String.eqb_spec k' k); [done|]. by rewrite IH2.
Qed.

Lemma c_find_None k c : c_find k c = None → Forall (λ e, fst e ≠ k) c.
Proof.
  unfold c_find. induction c as [|[k' v'] c IH]; simpl; [constructor|].
  destruct (String.eqb_spec k' k); [done|]. intros H. constructor; [done|]. by apply IH.
Qed.

Lemma t_get_split k t c1 v c2 :
  t_bucket k t = c1 ++ (k, v) :: c2 → Forall (λ e, fst e ≠ k) c1 → t_get k t = Some v.
Proof. intros E H. unfold t_get. rewrite E. by apply c_split. Qed.

Lemma t_cap_insert i c (t : table) : t_cap (<[i := c]> t) = t_cap t.
Proof. unfold t_cap. by rewrite length_insert. Qed.

Lemma t_delete_miss k t : cap_ok t → t_get k t = None → t_delete k t = t.
Proof.
  intros Hc H%c_find_None. unfold t_delete. destruct (c_absent k _ H) as [_ ->].
  apply list_insert_id. by apply t_bucket_lookup.
Qed.

Lemma t_delete_hit k t c1 v c2 :
  cap_ok t → t_bucket k t = c1 ++ (k, v) :: c2 → Forall (λ e, fst e ≠ k) c1 →
  t_delete k t = <[t_idx k t := c1 ++ c2]> t ∧ t_count (t_delete k t) = t_count t - 1.
Proof.
  intros Hc E H. unfold t_delete. rewrite E. destruct (c_split k c1 v c2 H) as (_ & -> & _).
  split; [done|]. unfold t_count.
  pose proof (length_concat_insert _ _ _ (c1 ++ c2) (t_bucket_lookup k t Hc)) as Hl.
  rewrite E !length_app in Hl. simpl in Hl. lia.
Qed.

Lemma t_count_nonneg t : 0 ≤ t_count t.
Proof. unfold t_count. lia. Qed.

Lemma count_range t d : t_count t < 2 ^ 28 → -1 ≤ d ≤ 1 → INT_MIN ≤ t_count t + d ≤ INT_MAX.
Proof. pose proof (t_count_nonneg t). unfold INT_MIN, INT_MAX. lia. Qed.

(** ** The table on the heap *)

Definition entry_at (l kl : positive) (e : string * Z) (nx : ptr) : hpropI obj :=
  l ↦ OEntry {| key := Some kl; value := snd e; next := nx |} ∗ kl ↦ OStr (fst e).

(** The entries from [p] to [q] (excluded). *)
Fixpoint eseg (p q : ptr) (c : assoc) : hpropI obj :=
  match c with
  | [] => ⌈p = q⌉
  | e :: c' => ∃ l kl nx, ⌈p = Some l⌉ ∗ entry_at l kl e nx ∗ eseg nx q c'
  end%I.

(** The entries [c] before [q], the last of which is [prev], or NULL. *)
Definition before (p prev q : ptr) (c : assoc) : hpropI obj :=
  match prev with
  | None => ⌈c = []⌉ ∗ ⌈p = q⌉
  | Some b => ∃ c' e kl, ⌈c = c' ++ [e]⌉ ∗ eseg p (Some b) c' ∗ entry_at b kl e q
  end%I.

Lemma eseg_snoc p l kl e q c :
  eseg p (Some l) c -∗ entry_at l kl e q -∗ eseg p q (c ++ [e]).
Proof.
  revert p. induction c as [|e' c IH]; intros p; simpl.
  - iIntros "-> He". iExists l, kl, q. by iFrame.
  - iIntros "(%l' & %kl' & %nx & -> & He' & H) He". iExists l', kl', nx. iFrame "He'".
    iSplitR; [done|]. iApply (IH with "H He").
Qed.

Lemma eseg_join p q c1 c2 : eseg p q c1 -∗ eseg q None c2 -∗ eseg p None (c1 ++ c2).
Proof.
  revert p. induction c1 as [|e c1 IH]; intros p; simpl.
  - by iIntros "-> H".
  - iIntros "(%l & %kl & %nx & -> & He & H) H2". iExists l, kl, nx. iFrame "He".
    iSplitR; [done|]. iApply (IH with "H H2").
Qed.

Lemma eseg_cons l kl e nx q c : entry_at l kl e nx -∗ eseg nx q c -∗ eseg (Some l) q (e :: c).
Proof. iIntros "He H". iExists l, kl, nx. by iFrame. Qed.

Lemma before_lseg p prev q c : before p prev q c -∗ eseg p q c.
Proof.
  destruct prev as [b|]; simpl; [|by iIntros "[-> ->]"].
  iIntros "(%c' & %e & %kl & -> & H & He)". iApply (eseg_snoc with "H He").
Qed.

Lemma eseg_null q c : eseg None q c ⊢ ⌈c = []⌉ ∗ ⌈q = None⌉.
Proof. destruct c as [|e c]; simpl; [by iIntros "<-"|by iIntros "(%l & %kl & %nx & % & H)"]. Qed.

Lemma eseg_some l c :
  eseg (Some l) None c ⊢
  ∃ e c' kl nx, ⌈c = e :: c'⌉ ∗ entry_at l kl e nx ∗ eseg nx None c'.
Proof.
  destruct c as [|e c]; simpl; [by iIntros "%"|].
  iIntros "(%l' & %kl & %nx & %E & He & H)". injection E as <-. iExists e, c, kl, nx. by iFrame.
Qed.

Lemma eseg_at_least p q c : eseg p q c ⊢ at_least (length c).
Proof.
  revert p. induction c as [|e c IH]; intros p; simpl.
  - split. intros h _. simpl. lia.
  - iIntros "(%l & %kl & %nx & -> & [Hl Hk] & H)".
    iApply (at_least_cons l _ (kl ↦ OStr (fst e) ∗ eseg nx q c)); [|iFrame].
    rewrite bi.sep_comm. apply at_least_frame, IH.
Qed.

Definition rep (map : ptr) (t : table) : hpropI obj :=
  ∃ m b ps, ⌈map = Some m⌉ ∗
    m ↦ OMap {| buckets := Some b; capacity := t_cap t; count := t_count t |} ∗
    b ↦ OBuckets ps ∗ [∗ list] p;c ∈ ps;t, eseg p None c.

Section wp.
Context (mf : bool) (X : Z → Prop) (HX : mf = true → X 1).

Lemma wp_get_bucket b ps i p (Q : ptr → list ev → hpropI obj) :
  ps !! i = Some p → b ↦ OBuckets ps -∗ (b ↦ OBuckets ps -∗ Q p []) -∗
  wp mf X (get_bucket (Some b) (Z.of_nat i)) Q.
Proof.
  intros Hp. iIntros "Hb HQ". unfold get_bucket. wp_step. wp_step. zb; [lia|].
  rewrite Nat2Z.id Hp. wp_step. by iApply "HQ".
Qed.

Lemma wp_get_bucket_at b ps i p (Q : ptr → list ev → hpropI obj) :
  0 ≤ i → ps !! Z.to_nat i = Some p → b ↦ OBuckets ps -∗ (b ↦ OBuckets ps -∗ Q p []) -∗
  wp mf X (get_bucket (Some b) i) Q.
Proof. intros Hi. rewrite -{2}(Z2Nat.id i Hi). apply wp_get_bucket. Qed.

Lemma wp_set_bucket b ps i p (Q : unit → list ev → hpropI obj) :
  (i < length ps)%nat → b ↦ OBuckets ps -∗ (b ↦ OBuckets (<[i := p]> ps) -∗ Q tt []) -∗
  wp mf X (set_bucket (Some b) (Z.of_nat i) p) Q.
Proof.
  intros Hp. iIntros "Hb HQ". unfold set_bucket. wp_step. wp_step. zb; [|lia..]. simpl.
  rewrite Nat2Z.id. wp_step. by iApply "HQ".
Qed.

Lemma wp_dup_str s (Q : ptr → list ev → hpropI obj) :
  (∀ l, l ↦ OStr s -∗ Q (Some l) []) ⊢ wp mf X (dup_str s) Q.
Proof.
  iIntros "HQ". unfold dup_str. iApply wp_malloc_or_die; [done|done|]. iIntros (l) "Hl".
  wp_run. by iApply "HQ".
Qed.

Lemma wp_entry_create k v (Q : ptr → list ev → hpropI obj) :
  (∀ l kl, entry_at l kl (k, v) NULL -∗ Q (Some l) []) ⊢ wp mf X (entry_create k v) Q.
Proof.
  iIntros "HQ". unfold entry_create. iApply wp_malloc_or_die; [done|done|]. iIntros (l) "Hl".
  wp_step. iApply wp_dup_str. iIntros (kl) "Hk". wp_run. iApply "HQ". iFrame.
Qed.

(** The walk along a chain: what it has passed, and the entry it stops at. *)
Lemma wp_find_entry_from n k p0 prev p c1 c2 (Q : ptr * ptr → list ev → hpropI obj) :
  (length c2 < n)%nat → Forall (λ e, fst e ≠ k) c1 →
  before p0 prev p c1 -∗ eseg p None c2 -∗
  ((∀ prev, ⌈Forall (λ e, fst e ≠ k) (c1 ++ c2)⌉ -∗ eseg p0 None (c1 ++ c2) -∗ Q (prev, None) []) ∧
   (∀ d1 d2 prev v l kl nx, ⌈c1 ++ c2 = d1 ++ (k, v) :: d2⌉ -∗ ⌈Forall (λ e, fst e ≠ k) d1⌉ -∗
      before p0 prev (Some l) d1 -∗ entry_at l kl (k, v) nx -∗ eseg nx None d2 -∗
      Q (prev, Some l) [])) -∗
  wp mf X (loop n (λ '(prev, cur),
    match cur with
    | None => ret (inr (prev, NULL))
    | Some _ =>
        e <- load cur ;;
        s <- load (key e) ;;
        if strcmp s k =? 0 then ret (inr (prev, cur)) else ret (inl (cur, next e))
    end) (prev, p)) Q.
Proof.
  revert prev p c1 c2. induction n as [|n IH]; intros prev p c1 c2 Hn Hc1; [lia|].
  iIntros "Hb H HQ". iApply wp_loop. destruct p as [l|].
  - iDestruct (eseg_some with "H") as ([k' v] c' kl nx ->) "[[Hl Hk] H]". wp_step. wp_step.
    cbn [key]. wp_step. wp_step. cbn [fst snd]. simpl in Hn.
    destruct (Z.eqb_spec (strcmp k' k) 0) as [->%strcmp_eq|Hne].
    + wp_step. iDestruct "HQ" as "[_ HQ]". iApply ("HQ" with "[] [] Hb [$Hl $Hk] H"); done.
    + wp_step. cbn [next].
      assert (k' ≠ k) by (intros ->; apply Hne; apply strcmp_refl).
      iApply (IH _ _ (c1 ++ [(k', v)]) c' with "[Hb Hl Hk] H").
      * lia.
      * apply Forall_app. by repeat constructor.
      * iExists c1, (k', v), kl. iSplitR; [done|]. iFrame. by iApply before_lseg.
      * rewrite -app_assoc. iApply "HQ".
  - iDestruct (eseg_null with "H") as "[-> _]". wp_step. iDestruct "HQ" as "[HQ _]".
    rewrite app_nil_r. iApply ("HQ" with "[]"); [done|]. by iApply before_lseg.
Qed.

Lemma wp_find_entry n k p c (Q : ptr * ptr → list ev → hpropI obj) :
  (length c < n)%nat → eseg p None c -∗
  ((∀ prev, ⌈Forall (λ e, fst e ≠ k) c⌉ -∗ eseg p None c -∗ Q (prev, None) []) ∧
   (∀ c1 c2 prev v l kl nx, ⌈c = c1 ++ (k, v) :: c2⌉ -∗ ⌈Forall (λ e, fst e ≠ k) c1⌉ -∗
      before p prev (Some l) c1 -∗ entry_at l kl (k, v) nx -∗ eseg nx None c2 -∗
      Q (prev, Some l) [])) -∗
  wp mf X (find_entry n k p) Q.
Proof.
  intros Hn. iIntros "H HQ". unfold find_entry.
  by iApply (wp_find_entry_from n k p None p [] c with "[] H HQ").
Qed.

(** The bucket of a key, taken out of the table. *)
Lemma take_bucket ps t k :
  cap_ok t → ([∗ list] p;c ∈ ps;t, eseg p None c) ⊢
  ∃ p, ⌈ps !! t_idx k t = Some p⌉ ∗ ⌈length ps = length t⌉ ∗ eseg p None (t_bucket k t) ∗
    (∀ p' c', eseg p' None c' -∗
       [∗ list] p;c ∈ <[t_idx k t := p']> ps;<[t_idx k t := c']> t, eseg p None c).
Proof.
  intros Hc. iIntros "H". iAssert ⌜length ps = length t⌝%I as %Hlen.
  { iApply (big_sepL2_length with "H"). }
  destruct (lookup_lt_is_Some_2 ps (t_idx k t)) as [p Hp]; [rewrite Hlen; by apply t_idx_lt|].
  iExists p. iSplitR; [done|]. iSplitR; [done|].
  iApply (big_sepL2_insert_acc _ _ _ _ _ _ Hp (t_bucket_lookup k t Hc) with "H").
Qed.

Lemma put_bucket_back ps (t : table) i p c :
  ps !! i = Some p → t !! i = Some c →
  ([∗ list] p;c ∈ <[i := p]> ps;<[i := c]> t, eseg p None c) ⊢ [∗ list] p;c ∈ ps;t, eseg p None c.
Proof. intros Hp Hc. by rewrite !list_insert_id. Qed.

(** The common beginning of [hmap_put], [hmap_get] and [hmap_delete]. *)
Lemma wp_locate m b ps t k {A} (K : HashMap → ptr * ptr → M obj A) (Q : A → list ev → hpropI obj) :
  let hm := {| buckets := Some b; capacity := t_cap t; count := t_count t |} in
  cap_ok t →
  m ↦ OMap hm -∗ b ↦ OBuckets ps -∗ ([∗ list] p;c ∈ ps;t, eseg p None c) -∗
  ((∀ prev, ⌈t_get k t = None⌉ -∗ m ↦ OMap hm -∗ b ↦ OBuckets ps -∗
      ([∗ list] p;c ∈ ps;t, eseg p None c) -∗ wp mf X (K hm (prev, None)) Q) ∧
   (∀ c1 c2 prev v l kl nx p0,
      ⌈t_bucket k t = c1 ++ (k, v) :: c2⌉ -∗ ⌈Forall (λ e, fst e ≠ k) c1⌉ -∗
      ⌈ps !! t_idx k t = Some p0 ∧ length ps = length t⌉ -∗ m ↦ OMap hm -∗ b ↦ OBuckets ps -∗
      before p0 prev (Some l) c1 -∗ entry_at l kl (k, v) nx -∗ eseg nx None c2 -∗
      (∀ p' c', eseg p' None c' -∗
         [∗ list] p;c ∈ <[t_idx k t := p']> ps;<[t_idx k t := c']> t, eseg p None c) -∗
      wp mf X (K hm (prev, Some l)) Q)) -∗
  wp mf X (bind (load (Some m)) (λ hm, bind (get_bucket (buckets hm) (bucket_index k (capacity hm)))
    (λ cur, bind heap_fuel (λ fuel, bind (find_entry fuel k cur) (K hm))))) Q.
Proof.
  intros hm Hc. iIntros "Hm Hb Hbs HQ". wp_step. wp_step. cbn [app]. subst hm. cbn [buckets capacity].
  iDestruct (take_bucket _ _ k Hc with "Hbs") as (p Hp Hlen) "[Hp Hclose]".
  rewrite bucket_index_idx //. wp_step. iApply (wp_get_bucket with "Hb"); [done|]. iIntros "Hb".
  wp_step. iApply (wp_heap_fuel with "Hp"); [apply eseg_at_least|]. iIntros (n) "%Hn Hp". wp_step.
  iApply (wp_find_entry with "Hp"); [done|]. iSplit.
  - iIntros (prev Hall) "Hp". iDestruct "HQ" as "[HQ _]". cbn [app].
    iApply ("HQ" with "[] Hm Hb"); [iPureIntro; by apply c_absent|].
    iApply (put_bucket_back _ _ (t_idx k t) p (t_bucket k t)); [done|by apply t_bucket_lookup|].
    by iApply "Hclose".
  - iIntros (c1 c2 prev v l kl nx E Hall) "H1 He H2". iDestruct "HQ" as "[_ HQ]". cbn [app].
    by iApply ("HQ" with "[] [] [] Hm Hb H1 He H2 Hclose").
Qed.

Lemma rep_intro m b ps t cap n :
  cap = t_cap t → n = t_count t →
  m ↦ OMap {| buckets := Some b; capacity := cap; count := n |} -∗ b ↦ OBuckets ps -∗
  ([∗ list] p;c ∈ ps;t, eseg p None c) -∗ rep (Some m) t.
Proof. intros -> ->. iIntros "Hm Hb H". iExists m, b, ps. by iFrame. Qed.

(** An entry that is found goes back, with another value, to its place. *)
Lemma put_entry_back (ps : list ptr) (t : table) k p0 prev l kl v nx c1 c2 :
  cap_ok t → ps !! t_idx k t = Some p0 →
  before p0 prev (Some l) c1 -∗ entry_at l kl (k, v) nx -∗ eseg nx None c2 -∗
  (∀ p' c', eseg p' None c' -∗
     [∗ list] p;c ∈ <[t_idx k t := p']> ps;<[t_idx k t := c']> t, eseg p None c) -∗
  [∗ list] p;c ∈ ps;<[t_idx k t := c1 ++ (k, v) :: c2]> t, eseg p None c.
Proof.
  intros Hc Hp. iIntros "H1 He H2 Hclose". rewrite -{2}(list_insert_id ps _ _ Hp).
  iApply "Hclose". iApply (eseg_join with "[H1]"); [by iApply before_lseg|].
  iApply (eseg_cons with "He H2").
Qed.

Lemma wp_hmap_get map t k o x (Q : Z → list ev → hpropI obj) :
  cap_ok t → rep map t -∗ o ↦ x -∗
  (rep map t -∗ o ↦ (match t_get k t with Some v => OInt (Some v) | None => x end) -∗
     Q (found (t_get k t)) []) -∗
  wp mf X (hmap_get map k (Some o)) Q.
Proof.
  intros Hc. iIntros "(%m & %b & %ps & -> & Hm & Hb & Hbs) Ho HQ". unfold hmap_get.
  iApply (wp_locate with "Hm Hb Hbs"); [done|]. iSplit.
  - iIntros (prev Hg) "Hm Hb Hbs". wp_step. rewrite Hg.
    iApply ("HQ" with "[Hm Hb Hbs] Ho"). by iApply (rep_intro with "Hm Hb").
  - iIntros (c1 c2 prev v l kl nx p0 E Hall [Hp Hlen]) "Hm Hb H1 [Hl Hk] H2 Hclose".
    wp_run. rewrite (t_get_split k t c1 v c2) //. iApply ("HQ" with "[-Ho] Ho").
    iApply (rep_intro with "Hm Hb"); [done|done|].
    iPoseProof (put_entry_back _ _ _ _ _ _ kl v with "H1 [$Hl $Hk] H2 Hclose") as "H"; [done|done|].
    by rewrite -E list_insert_id; [|apply t_bucket_lookup].
Qed.

Lemma wp_hmap_contains map t k (Q : Z → list ev → hpropI obj) :
  cap_ok t → rep map t -∗ (rep map t -∗ Q (found (t_get k t)) []) -∗
  wp mf X (hmap_contains map k) Q.
Proof.
  intros Hc. iIntros "H HQ". unfold hmap_contains. wp_step. iApply wp_local. iIntros (o) "Ho".
  wp_step. iApply (wp_hmap_get with "H Ho"); [done|]. iIntros "H Ho". wp_run. by iApply "HQ".
Qed.

Lemma wp_add_count m hm d (Q : unit → list ev → hpropI obj) :
  INT_MIN ≤ count hm + d ≤ INT_MAX →
  m ↦ OMap hm -∗ (m ↦ OMap (set_count (count hm + d) hm) -∗ Q tt []) -∗
  wp mf X (add_count (Some m) d) Q.
Proof. intros H. iIntros "Hm HQ". unfold add_count. wp_run. by iApply "HQ". Qed.

Lemma wp_hmap_delete map t k (Q : Z → list ev → hpropI obj) :
  cap_ok t → t_count t < 2 ^ 28 → rep map t -∗
  (rep map (t_delete k t) -∗ Q (found (t_get k t)) []) -∗
  wp mf X (hmap_delete map k) Q.
Proof.
  intros Hc Hn. iIntros "(%m & %b & %ps & -> & Hm & Hb & Hbs) HQ". unfold hmap_delete.
  iApply (wp_locate with "Hm Hb Hbs"); [done|]. iSplit.
  - iIntros (prev Hg) "Hm Hb Hbs". wp_step. rewrite Hg t_delete_miss //.
    iApply "HQ". by iApply (rep_intro with "Hm Hb").
  - iIntros (c1 c2 prev v l kl nx p0 E Hall [Hp Hlen]) "Hm Hb H1 [Hl Hk] H2 Hclose".
    destruct (t_delete_hit k t c1 v c2 Hc E Hall) as [Ed Ec].
    rewrite (t_get_split k t c1 v c2) // Ed in Ec |- *. wp_step. wp_step. cbn [next].
    destruct prev as [bp|].
    + iDestruct "H1" as (c1' e kl' ->) "[H1 [Hbp Hk']]". wp_run. simpl.
      iApply (wp_add_count with "Hm"); [cbn [count]; by apply count_range|].
      iIntros "Hm". wp_run. iApply "HQ".
      iApply (rep_intro with "Hm Hb"); [by rewrite t_cap_insert|by rewrite Ec|].
      rewrite -{2}(list_insert_id ps _ _ Hp). iApply "Hclose".
      iApply (eseg_join with "[H1 Hbp Hk'] H2"). iApply (eseg_snoc with "H1"). iFrame.
    + iDestruct "H1" as "[-> ->]". simpl. wp_step. rewrite bucket_index_idx //.
      iApply (wp_set_bucket with "Hb"); [rewrite Hlen; by apply t_idx_lt|]. iIntros "Hb". wp_run. simpl.
      iApply (wp_add_count with "Hm"); [cbn [count]; by apply count_range|].
      iIntros "Hm". wp_run. iApply "HQ".
      iApply (rep_intro with "Hm Hb"); [by rewrite t_cap_insert|by rewrite Ec|]. by iApply "Hclose".
Qed.

(** An entry is put in front of the bucket of its key. *)
Lemma prepend_entry ps t k v l kl p :
  cap_ok t → ps !! t_idx k t = Some p →
  entry_at l kl (k, v) p -∗ ([∗ list] p;c ∈ ps;t, eseg p None c) -∗
  [∗ list] p;c ∈ <[t_idx k t := Some l]> ps;t_insert t (k, v), eseg p None c.
Proof.
  intros Hc Hp. iIntros "He Hbs".
  iDestruct (take_bucket _ _ k Hc with "Hbs") as (p' Hp' _) "[H Hclose]". simplify_eq.
  iApply "Hclose". iApply (eseg_cons with "He H").
Qed.

Lemma bucket_ptr ps t k :
  cap_ok t → ([∗ list] p;c ∈ ps;t, eseg p None c) ⊢
  ([∗ list] p;c ∈ ps;t, eseg p None c) ∗
  ⌈(t_idx k t < length ps)%nat ∧ ∃ p, ps !! t_idx k t = Some p⌉.
Proof.
  intros Hc. iIntros "H". iAssert ⌜length ps = length t⌝%I as %Hlen.
  { iApply (big_sepL2_length with "H"). }
  iFrame. iPureIntro. rewrite Hlen. split; [by apply t_idx_lt|].
  apply lookup_lt_is_Some_2. rewrite Hlen. by apply t_idx_lt.
Qed.

Lemma wp_move_chain n m t p c (Q : unit → list ev → hpropI obj) :
  (length c < n)%nat → cap_ok t → t_count t + Z.of_nat (length c) ≤ 2 ^ 28 →
  rep (Some m) t -∗ eseg p None c -∗ (rep (Some m) (foldl t_insert t c) -∗ Q tt []) -∗
  wp mf X (move_chain n (Some m) p) Q.
Proof.
  revert t p c. induction n as [|n IH]; intros t p c Hn Hc Hcount; [lia|].
  iIntros "H Hp HQ". unfold move_chain. iApply wp_loop. destruct p as [l|].
  - iDestruct (eseg_some with "Hp") as ([k v] c' kl nx ->) "[[Hl Hk] Hp]". simpl in Hn, Hcount.
    iDestruct "H" as (? b ps [= <-]) "(Hm & Hb & Hbs)".
    iDestruct (bucket_ptr _ _ k Hc with "Hbs") as "[Hbs [%Hi [%q %Hq]]]".
    do 6 wp_step. cbn [key next buckets capacity fst snd]. rewrite bucket_index_idx //. wp_step.
    iApply (wp_get_bucket with "Hb"); [done|]. iIntros "Hb". do 3 wp_step.
    iApply (wp_set_bucket with "Hb"); [done|]. iIntros "Hb". wp_step.
    iApply (wp_add_count with "Hm"); [apply count_range; [|lia]; cbn [count]; lia|]. iIntros "Hm".
    wp_run. cbn [set_count count buckets capacity next].
    iApply (IH (t_insert t (k, v)) with "[Hm Hb Hbs Hl Hk] Hp HQ").
    + lia.
    + by apply cap_ok_insert.
    + rewrite t_count_insert //. lia.
    + iApply (rep_intro with "Hm Hb"); [by rewrite /t_insert t_cap_insert|by rewrite t_count_insert|].
      iApply (prepend_entry with "[$Hl $Hk] Hbs"); done.
  - iDestruct (eseg_null with "Hp") as "[-> _]". wp_step. by iApply "HQ".
Qed.

Lemma empty_buckets n :
  ⊢ [∗ list] p;c ∈ replicate n NULL;replicate n [], eseg p None c.
Proof. induction n as [|n IH]; simpl; [done|]. by iSplitR. Qed.

Lemma wp_rehash m t (Q : unit → list ev → hpropI obj) :
  cap_ok t → overloaded (t_count t) (t_cap t) = true → t_count t < 2 ^ 28 →
  rep (Some m) t -∗ (rep (Some m) (t_rehash t) -∗ Q tt []) -∗ wp mf X (rehash (Some m)) Q.
Proof.
  intros Hc Ho Hn. destruct (t_rehash_cap t Hc Ho Hn) as (Hcap & Hc' & _ & _).
  pose proof (t_count_nonneg t). pose proof (cap_ok_bound t Hc).
  iIntros "(%m' & %b & %ps & %E & Hm & Hb & Hbs) HQ". injection E as <-. unfold rehash.
  do 2 wp_step. cbn [capacity buckets]. do 5 wp_step. iApply wp_malloc.
  iIntros ([b'|]) "%Hb' Hb'"; wp_step; wp_step; cbn [set_capacity set_buckets buckets capacity count].
  2:{ iStopProof. apply wp_die; [done|]. by apply HX, Hb'. }
  do 3 wp_step. cbn [set_count buckets capacity count].
  iApply (wp_for_range _ _ (λ i _ o, ⌈o = []⌉ ∗
      rep (Some m) (foldl t_insert (replicate (length t + length t) []) (concat (take (Z.to_nat i) t))) ∗
      b ↦ OBuckets ps ∗ [∗ list] p;c ∈ drop (Z.to_nat i) ps;drop (Z.to_nat i) t, eseg p None c)%I
      with "[Hm Hb Hb' Hbs]"); [lia| | |].
  - intros i [] o Hi. iIntros "(-> & H & Hb & Hbs)".
    destruct (lookup_lt_is_Some_2 t (Z.to_nat i)) as [c Hci]; [unfold t_cap in *; lia|].
    rewrite {1}(drop_S _ _ _ Hci).
    iDestruct (big_sepL2_cons_inv_r with "Hbs") as (p ps' Eps) "[Hp Hbs]".
    assert (ps !! Z.to_nat i = Some p) as Hpi.
    { rewrite -(Nat.add_0_r (Z.to_nat i)) -lookup_drop Eps. done. }
    assert (drop (Z.to_nat (i + 1)) ps = ps') as Eps'.
    { replace (Z.to_nat (i + 1)) with (S (Z.to_nat i)) by lia.
      apply (f_equal (drop 1)) in Eps. rewrite drop_drop in Eps. by rewrite Nat.add_1_r in Eps. }
    wp_step. iApply (wp_get_bucket_at with "Hb"); [lia|done|]. iIntros "Hb". wp_step.
    iApply (wp_heap_fuel with "Hp"); [apply eseg_at_least|]. iIntros (n) "%Hfuel Hp".
    iApply (wp_move_chain with "H Hp"); [done|by apply t_insert_fold_cap| |].
    { rewrite t_insert_fold_count // /t_count concat_replicate_nil. simpl.
      assert (concat t = concat (take (Z.to_nat i) t) ++ c ++ concat (drop (S (Z.to_nat i)) t)) as El.
      { rewrite -{1}(take_drop_middle t _ _ Hci) concat_app //. }
      unfold t_count in Hn. rewrite El !length_app in Hn. lia. }
    iIntros "H". replace (Z.to_nat (i + 1)) with (S (Z.to_nat i)) in * by lia.
    rewrite (take_S_r _ _ _ Hci) concat_app foldl_app /= app_nil_r Eps'. by iFrame.
  - rewrite !drop_0. simpl. iSplitR; [done|]. iSplitR "Hb Hbs"; [|by iFrame].
    iApply (rep_intro with "Hm Hb'").
    + unfold t_cap. rewrite length_replicate. simpl. lia.
    + unfold t_count. by rewrite concat_replicate_nil.
    + replace (Z.to_nat (t_cap t * 2)) with (length t + length t)%nat by (unfold t_cap; lia).
      iApply empty_buckets.
  - iIntros ([] o) "(-> & H & Hb & Hbs)".
    iAssert ⌜length (drop (Z.to_nat (t_cap t)) ps) = length (drop (Z.to_nat (t_cap t)) t)⌝%I as %Hlen.
    { iApply (big_sepL2_length with "Hbs"). }
    replace (Z.to_nat (t_cap t)) with (length t) in * by (unfold t_cap; lia).
    rewrite drop_all /= in Hlen. destruct (drop (length t) ps); [|done].
    rewrite drop_all take_ge //. simpl. wp_step. by iApply "HQ".
Qed.

Lemma wp_insert_new m t k v (Q : unit → list ev → hpropI obj) :
  cap_ok t → t_count t < 2 ^ 28 →
  rep (Some m) t -∗ (rep (Some m) (t_insert t (k, v)) -∗ Q tt []) -∗
  wp mf X (hm <- load (Some m) ;;
           e <- entry_create k v ;;
           p <- get_bucket (buckets hm) (bucket_index k (capacity hm)) ;;
           update e (set_next p) ;;;
           set_bucket (buckets hm) (bucket_index k (capacity hm)) e ;;;
           add_count (Some m) 1) Q.
Proof.
  intros Hc Hn. iIntros "(%m' & %b & %ps & %E & Hm & Hb & Hbs) HQ". injection E as <-.
  iDestruct (bucket_ptr _ _ k Hc with "Hbs") as "[Hbs [%Hi [%q %Hq]]]".
  do 3 wp_step. cbn [buckets capacity]. rewrite bucket_index_idx //.
  iApply wp_entry_create. iIntros (l kl) "[Hl Hk]". wp_step.
  iApply (wp_get_bucket with "Hb"); [done|]. iIntros "Hb". do 3 wp_step.
  iApply (wp_set_bucket with "Hb"); [done|]. iIntros "Hb".
  iApply (wp_add_count with "Hm"); [by apply count_range|]. iIntros "Hm". iApply "HQ".
  iApply (rep_intro with "Hm Hb"); [by rewrite /t_insert t_cap_insert|by rewrite t_count_insert|].
  iApply (prepend_entry with "[$Hl $Hk] Hbs"); done.
Qed.

Lemma wp_hmap_put map t k v (Q : unit → list ev → hpropI obj) :
  cap_ok t → t_count t < 2 ^ 28 →
  rep map t -∗ (rep map (t_put k v t) -∗ Q tt []) -∗ wp mf X (hmap_put map k v) Q.
Proof.
  intros Hc Hn. pose proof (t_count_nonneg t).
  iIntros "(%m & %b & %ps & -> & Hm & Hb & Hbs) HQ". unfold hmap_put.
  iApply (wp_locate with "Hm Hb Hbs"); [done|]. iSplit.
  - iIntros (prev Hg) "Hm Hb Hbs". unfold t_put. rewrite Hg.
    wp_step. wp_step. do 3 wp_step. cbn [count capacity].
    iDestruct (rep_intro with "Hm Hb Hbs") as "H"; [done|done|].
    destruct (overloaded (t_count t) (t_cap t)) eqn:Eo.
    + iApply (wp_rehash with "H"); [done..|]. iIntros "H".
      iApply (wp_insert_new with "H"); [by apply cap_ok_rehash| |done].
      destruct (t_rehash_cap t Hc Eo Hn) as (_ & _ & _ & ->). done.
    + wp_step. by iApply (wp_insert_new with "H").
  - iIntros (c1 c2 prev v0 l kl nx p0 E Hall [Hp Hlen]) "Hm Hb H1 [Hl Hk] H2 Hclose".
    wp_step. unfold set_value. cbn [key value next]. iApply "HQ".
    unfold t_put. rewrite (t_get_split k t c1 v0 c2) // E.
    destruct (c_split k c1 v0 c2 Hall) as (_ & _ & ->).
    iApply (rep_intro with "Hm Hb").
    + by rewrite t_cap_insert.
    + unfold t_count.
      pose proof (length_concat_insert _ _ _ (c1 ++ (k, v) :: c2) (t_bucket_lookup k t Hc)) as Hl.
      rewrite E !length_app /= in Hl. lia.
    + iApply (put_entry_back _ _ _ _ _ _ kl with "H1 [$Hl $Hk] H2 Hclose"); done.
Qed.

Lemma cap_ok_empty : cap_ok t_empty.
Proof. by exists 3. Qed.

Lemma wp_hmap_create (Q : ptr → list ev → hpropI obj) :
  (∀ p, rep p t_empty -∗ Q p []) ⊢ wp mf X hmap_create Q.
Proof.
  iIntros "HQ". unfold hmap_create. iApply wp_malloc_or_die; [done|done|]. iIntros (m) "Hm".
  wp_step. iApply wp_malloc. iIntros ([b|]) "%Hb Hb"; wp_step; wp_step.
  - wp_step. iApply "HQ". iApply (rep_intro with "Hm Hb"); [done|done|]. iApply empty_buckets.
  - iStopProof. apply wp_die; [done|]. by apply HX, Hb.
Qed.

Lemma wp_free_entries n p c (Q : unit → list ev → hpropI obj) :
  (length c < n)%nat → eseg p None c -∗ Q tt [] -∗ wp mf X (free_chain n p) Q.
Proof.
  revert p c. induction n as [|n IH]; intros p c Hn; [lia|]. iIntros "H HQ".
  unfold free_chain. iApply wp_loop. destruct p as [l|].
  - iDestruct (eseg_some with "H") as (e c' kl nx ->) "[[Hl Hk] H]". wp_run. cbn [key next]. wp_run.
    iApply (IH with "H HQ"). simpl in Hn. lia.
  - iDestruct (eseg_null with "H") as "[-> _]". by wp_step.
Qed.

(** A loop over the buckets that leaves the table alone: one bucket at a time
    is taken out. *)
Lemma wp_hmap_free map t (Q : unit → list ev → hpropI obj) :
  rep map t -∗ Q tt [] -∗ wp mf X (hmap_free map) Q.
Proof.
  iIntros "(%m & %b & %ps & -> & Hm & Hb & Hbs) HQ". unfold hmap_free.
  do 3 wp_step. cbn [capacity].
  iApply (wp_for_range _ _ (λ i _ o, ⌈o = []⌉ ∗
      m ↦ OMap {| buckets := Some b; capacity := t_cap t; count := t_count t |} ∗
      b ↦ OBuckets ps ∗ [∗ list] p;c ∈ drop (Z.to_nat i) ps;drop (Z.to_nat i) t, eseg p None c)%I
      with "[Hm Hb Hbs]"); [unfold t_cap; lia| | |].
  - intros i [] o Hi. iIntros "(-> & Hm & Hb & Hbs)".
    destruct (lookup_lt_is_Some_2 t (Z.to_nat i)) as [c Hci]; [unfold t_cap in *; lia|].
    rewrite {1}(drop_S _ _ _ Hci).
    iDestruct (big_sepL2_cons_inv_r with "Hbs") as (p ps' Eps) "[Hp Hbs]".
    assert (ps !! Z.to_nat i = Some p) as Hpi.
    { rewrite -(Nat.add_0_r (Z.to_nat i)) -lookup_drop Eps. done. }
    do 3 wp_step. iApply (wp_get_bucket_at with "Hb"); [lia|done|]. iIntros "Hb". wp_step.
    iApply (wp_heap_fuel with "Hp"); [apply eseg_at_least|]. iIntros (n) "%Hfuel Hp".
    iApply (wp_free_entries with "Hp"); [done|].
    replace (Z.to_nat (i + 1)) with (S (Z.to_nat i)) by lia.
    apply (f_equal (drop 1)) in Eps. rewrite drop_drop Nat.add_1_r in Eps. rewrite Eps. by iFrame.
  - by iFrame.
  - iIntros ([] o) "(-> & Hm & Hb & Hbs)".
    iAssert ⌜length (drop (Z.to_nat (t_cap t)) ps) = length (drop (Z.to_nat (t_cap t)) t)⌝%I as %Hlen.
    { iApply (big_sepL2_length with "Hbs"). }
    replace (Z.to_nat (t_cap t)) with (length t) in * by (unfold t_cap; lia).
    rewrite drop_all /= in Hlen. destruct (drop (length t) ps); [|done].
    rewrite drop_all. simpl. wp_run. done.
Qed.

Lemma wp_print_chain n p c (Q : unit → list ev → hpropI obj) :
  (length c < n)%nat → eseg p None c -∗
  (∀ o, ⌈stdout o = join_str " → " (map pair_text c)⌉ -∗ ⌈stderr o = ""%string⌉ -∗
     eseg p None c -∗ Q tt o) -∗
  wp mf X (print_chain n p) Q.
Proof.
  revert p c Q. induction n as [|n IH]; intros p c Q Hn; [lia|]. iIntros "H HQ".
  unfold print_chain. iApply wp_loop. destruct p as [l|].
  - iDestruct (eseg_some with "H") as ([k v] c' kl nx ->) "[[Hl Hk] H]". simpl in Hn.
    do 5 wp_step. cbn [key value next fst snd]. do 2 wp_step.
    destruct nx as [l2|].
    + iDestruct (eseg_some with "H") as (e c2 kl2 nx2 ->) "[He H]".
      iDestruct (eseg_cons with "He H") as "H". wp_run. iApply (IH with "H"); [lia|]. iIntros (o Ho He) "H".
      iApply ("HQ" with "[] []"); [| |iApply (eseg_cons _ _ (k, v) with "[$Hl $Hk] H")]; iPureIntro; [|done].
      simpl. rewrite Ho fmt_signed_plain. unfold pair_text. simpl. by str_norm.
    + iDestruct (eseg_null with "H") as "[-> _]". wp_run. 
      destruct n as [|n]; [lia|]. iApply wp_loop. wp_step.
      iApply ("HQ" with "[] []"); [| |iApply (eseg_cons _ _ (k, v) with "[$Hl $Hk]"); done]; iPureIntro; [|done].
      simpl. rewrite fmt_signed_plain. unfold pair_text. simpl. by str_norm.
  - iDestruct (eseg_null with "H") as "[-> _]". wp_step. by iApply ("HQ" $! []).
Qed.

Lemma buckets_text_snoc t c :
  buckets_text 0 (t ++ [c]) = (buckets_text 0 t +:+ bucket_text (Z.of_nat (length t)) c)%string.
Proof.
  unfold buckets_text. rewrite imap_app concat_str_app /= Nat.add_0_r. by str_norm.
Qed.

Lemma wp_hmap_print map t (Q : unit → list ev → hpropI obj) :
  cap_ok t → rep map t -∗
  (∀ o, ⌈stdout o = t_text t⌉ -∗ ⌈stderr o = ""%string⌉ -∗ rep map t -∗ Q tt o) -∗
  wp mf X (hmap_print map) Q.
Proof.
  intros Hc. iIntros "(%m & %b & %ps & -> & Hm & Hb & Hbs) HQ". unfold hmap_print.
  do 4 wp_step. cbn [count capacity].
  iApply (wp_for_range _ _ (λ i _ o,
      ⌈stdout o = buckets_text 0 (take (Z.to_nat i) t)⌉ ∗ ⌈stderr o = ""%string⌉ ∗
      m ↦ OMap {| buckets := Some b; capacity := t_cap t; count := t_count t |} ∗
      b ↦ OBuckets ps ∗ [∗ list] p;c ∈ ps;t, eseg p None c)%I
      with "[Hm Hb Hbs]"); [unfold t_cap; lia| | |].
  - intros i [] o Hi. iIntros "(%Ho & %He & Hm & Hb & Hbs)".
    destruct (lookup_lt_is_Some_2 t (Z.to_nat i)) as [c Hci]; [unfold t_cap in *; lia|].
    iAssert ⌜length ps = length t⌝%I as %Hlen. { iApply (big_sepL2_length with "Hbs"). }
    destruct (lookup_lt_is_Some_2 ps (Z.to_nat i)) as [p Hpi]; [unfold t_cap in *; lia|].
    iDestruct (big_sepL2_lookup_acc _ _ _ _ _ _ Hpi Hci with "Hbs") as "[Hp Hclose]".
    assert (buckets_text 0 (take (Z.to_nat (i + 1)) t) =
            buckets_text 0 (take (Z.to_nat i) t) +:+ bucket_text i c)%string as Et.
    { replace (Z.to_nat (i + 1)) with (S (Z.to_nat i)) by lia.
      rewrite (take_S_r _ _ _ Hci) buckets_text_snoc length_take. do 2 f_equal.
      unfold t_cap in *. lia. }
    do 3 wp_step. iApply (wp_get_bucket_at with "Hb"); [lia|done|]. iIntros "Hb".
    destruct p as [l|].
    + iDestruct (eseg_some with "Hp") as (e c' kl nx ->) "[He' Hp]".
      iDestruct (eseg_cons with "He' Hp") as "Hp". do 3 wp_step.
      iApply (wp_heap_fuel with "Hp"); [apply eseg_at_least|]. iIntros (n) "%Hfuel Hp". wp_step.
      iApply (wp_print_chain with "Hp"); [done|]. iIntros (o' Ho' He') "Hp". wp_step.
      iFrame "Hm Hb". iDestruct ("Hclose" with "Hp") as "$". iPureIntro. cbn [app].
      rewrite !stdout_app !stderr_app /= stdout_app stderr_app Ho He He' Ho' Et /=.
      split; [|done]. unfold bucket_text. by str_norm.
    + iDestruct (eseg_null with "Hp") as "[-> _]". wp_step. iFrame "Hm Hb".
      iDestruct ("Hclose" with "[]") as "$"; [done|]. iPureIntro.
      rewrite !app_nil_r Ho He Et. split; [|done]. simpl. by str_norm.
  - by iFrame.
  - iIntros ([] o) "(%Ho & %He & Hm & Hb & Hbs)".
    iApply ("HQ" with "[] []"); [| |by iApply (rep_intro with "Hm Hb")]; iPureIntro; [|by rewrite /= He].
    simpl. rewrite Ho. unfold t_cap. rewrite Nat2Z.id firstn_all !fmt_signed_plain.
    unfold t_text, header_text, t_cap. by str_norm.
Qed.

(** [n] more operations keep the number of entries below 2^28. *)
Definition room (n : nat) (t : table) : Prop := cap_ok t ∧ t_count t + Z.of_nat n ≤ 2 ^ 28.

#[export] Instance table_implements map :
  Implements mf X table_op (call_op map) (rep map) (λ _, True) room.
Proof.
  split.
  - unfold room. intros n o t r t' s [Hc Hn] E.
    destruct o; simplify_eq/=; try (split; [done|lia]).
    + destruct (t_put_ok k v t Hc); [lia|]. split; [done|lia].
    + destruct (t_delete_ok k t Hc). split; [done|lia].
  - intros n o t Q _ [Hc Hn] _. assert (t_count t < 2 ^ 28) by lia. iIntros "H HQ".
    destruct o; simpl; wp_step.
    + iApply (wp_hmap_put with "H"); [done..|]. iIntros "H". wp_step. by iApply ("HQ" with "[] [] [] H").
    + iApply wp_local. iIntros (out) "Ho". wp_step. iApply (wp_hmap_get with "H Ho"); [done|].
      iIntros "H Ho". wp_step. destruct (t_get k t) as [v|]; simpl; wp_run;
        by iApply ("HQ" with "[] [] [] H").
    + iApply (wp_hmap_contains with "H"); [done|]. iIntros "H". wp_step. by iApply ("HQ" with "[] [] [] H").
    + iApply (wp_hmap_delete with "H"); [done..|]. iIntros "H". wp_step. by iApply ("HQ" with "[] [] [] H").
    + iApply (wp_hmap_print with "H"); [done|]. iIntros (o Ho He) "H". wp_step. rewrite app_nil_r.
      by iApply ("HQ" with "[] [] [] H").
Qed.

Lemma table_run_total ops t : spec_run table_op ops t ≠ None.
Proof.
  revert t. induction ops as [|o ops IH]; intros t; simpl; [done|].
  destruct (table_op o t) as [[[r t'] s]|] eqn:E; [|by destruct o]. simpl.
  specialize (IH t'). by destruct (spec_run table_op ops t') as [[[??]?]|].
Qed.

Lemma wp_hash_session ops :
  Z.of_nat (length ops) ≤ 2 ^ 28 →
  ⊢ wp mf X (session ops) (λ rs e,
      ⌈∃ t, spec_run table_op ops t_empty = Some (rs, t, stdout e) ∧ stderr e = ""%string⌉).
Proof.
  intros Hn. iStartProof. unfold session. wp_step. iApply wp_hmap_create. iIntros (map) "H". wp_step.
  iApply (wp_run_ops (room := room) (ok := λ _, True) with "H").
  - by apply Forall_true.
  - split; [apply cap_ok_empty|]. unfold t_count. simpl. lia.
  - intros E. by destruct (table_run_total ops t_empty).
  - iIntros (rs t e E He) "H". wp_step. iApply (wp_hmap_free with "H"). wp_step.
    iPureIntro. rewrite !app_nil_r. by exists t.
Qed.
End wp.

(** C5.  Refinement.  Any sequence of fewer than 2^28 calls of the API returns and
    prints what the same operations on a table of lists give, rehashing included; no
    access is undefined, every walk terminates, and [hmap_free] leaves the heap empty.
    The program only exits when an allocation fails. *)
Theorem hash_session_refines (ops : list op) :
  Z.of_nat (length ops) ≤ 2 ^ 28 →
  runs (session ops)
    (λ rs e, ∃ t, spec_run table_op ops t_empty = Some (rs, t, stdout e) ∧ stderr e = ""%string) False.
Proof. intros Hn. apply wp_runs. intros mf X HX _. by apply wp_hash_session. Qed.

Definition sample_ops : list op :=
  [Put "a" 1; Put "b" 2; Put "a" 3; Get "a"; Get "zz"; Contains "b"; Delete "a"; Delete "a"; Show].

Lemma hash_session_refines_witness :
  runs (session sample_ops)
    (λ rs e, ∃ t, spec_run table_op sample_ops t_empty = Some (rs, t, stdout e) ∧ stderr e = ""%string)
    False.
Proof. by apply (hash_session_refines sample_ops). Defined.

(** ** The table is a finite map *)

(** Every entry is in the bucket of its key. *)
Definition located (t : table) : Prop :=
  ∀ i c k v, t !! i = Some c → (k, v) ∈ c → t_idx k t = i.

Record wf (t : table) : Prop := {
  wf_cap : cap_ok t;
  wf_nodup : NoDup (concat t).*1;
  wf_located : located t;
  wf_load : 4 * t_count t ≤ 3 * t_cap t
}.

Definition contents (t : table) : gmap string Z := list_to_map (concat t).

Lemma concat_insert_perm (t : table) i c :
  t !! i = Some c → ∃ rest, ∀ c', concat (<[i := c']> t) ≡ₚ c' ++ rest.
Proof.
  revert i. induction t as [|d t IH]; intros [|i] H; simplify_eq/=.
  - by exists (concat t).
  - destruct (IH i H) as [rest Hr]. exists (d ++ rest). intros c'. rewrite Hr. solve_Permutation.
Qed.

Lemma concat_bucket (t : table) i c :
  t !! i = Some c → ∃ rest, concat t ≡ₚ c ++ rest ∧ ∀ c', concat (<[i := c']> t) ≡ₚ c' ++ rest.
Proof.
  intros H. destruct (concat_insert_perm t i c H) as [rest Hr]. exists rest. split; [|done].
  rewrite -(Hr c). by rewrite list_insert_id.
Qed.

Lemma concat_t_insert t e : cap_ok t → concat (t_insert t e) ≡ₚ e :: concat t.
Proof.
  intros Hc. destruct (concat_bucket _ _ _ (t_bucket_lookup (fst e) t Hc)) as (rest & E & H).
  unfold t_insert. by rewrite H E.
Qed.

Lemma concat_t_insert_fold es t : cap_ok t → concat (foldl t_insert t es) ≡ₚ es ++ concat t.
Proof.
  revert t. induction es as [|e es IH]; intros t Hc; simpl; [done|].
  rewrite IH; [|by apply cap_ok_insert]. rewrite concat_t_insert //. solve_Permutation.
Qed.

Lemma t_idx_insert k i c t : t_idx k (<[i := c]> t) = t_idx k t.
Proof. unfold t_idx. by rewrite t_cap_insert. Qed.

Lemma located_insert t i c :
  located t → (∀ k v, (k, v) ∈ c → t_idx k t = i) → located (<[i := c]> t).
Proof.
  intros Hl Hc j d k v Hj Hd. rewrite t_idx_insert.
  apply list_lookup_insert_Some in Hj as [(<- & <- & _)|(_ & Hj)]; [by eapply Hc|by eapply Hl].
Qed.

Lemma located_t_insert t e : cap_ok t → located t → located (t_insert t e).
Proof.
  intros Hc Hl. apply located_insert; [done|]. intros k v [E|Hin]%elem_of_cons; [by subst|].
  eapply Hl; [by apply t_bucket_lookup|done].
Qed.

Lemma located_t_insert_fold es t : cap_ok t → located t → located (foldl t_insert t es).
Proof.
  revert t. induction es as [|e es IH]; intros t Hc Hl; simpl; [done|].
  apply IH; [by apply cap_ok_insert|by apply located_t_insert].
Qed.

Lemma located_empty n : located (replicate n []).
Proof. intros i c k v Hi Hin. apply lookup_replicate in Hi as [-> _]. by apply elem_of_nil in Hin. Qed.

Lemma c_find_elem k v c : NoDup c.*1 → c_find k c = Some v ↔ (k, v) ∈ c.
Proof.
  unfold c_find. induction c as [|[k' v'] c IH]; simpl; [split; [done|by intros ?%elem_of_nil]|].
  intros [Hk Hn]%NoDup_cons. rewrite elem_of_cons.
  destruct (String.eqb_spec k' k) as [->|Hne]; simpl.
  - split; [intros [= ->]; by left|]. intros [[= ->]|Hin]; [done|].
    destruct Hk. apply list_elem_of_fmap. by exists (k, v).
  - rewrite IH //. split; [by right|]. by intros [[= -> ->]|].
Qed.

Lemma t_get_contents k t : wf t → t_get k t = contents t !! k.
Proof.
  intros [Hc Hn Hl _]. pose proof (t_bucket_lookup k t Hc) as Hb.
  destruct (concat_bucket _ _ _ Hb) as (rest & E & _).
  apply option_eq. intros v. unfold contents, t_get.
  rewrite -elem_of_list_to_map // c_find_elem.
  - rewrite E elem_of_app. split; [by left|]. intros [|Hin]; [done|].
    assert ((k, v) ∈ concat t) as Ht by (rewrite E elem_of_app; by right).
    apply list_elem_of_In, in_concat in Ht as (c & Hct & Hv).
    apply list_elem_of_In in Hct, Hv. apply list_elem_of_lookup in Hct as [i Hi].
    pose proof (Hl i c k v Hi Hv) as <-. rewrite Hb in Hi. by simplify_eq.
  - apply (NoDup_app (t_bucket k t).*1 rest.*1). rewrite -fmap_app. by rewrite -E.
Qed.

Lemma t_count_contents t : wf t → t_count t = Z.of_nat (size (contents t)).
Proof. intros [_ Hn _ _]. unfold t_count, contents. by rewrite map_size_list_to_map. Qed.

Lemma wf_rehash t :
  wf t → overloaded (t_count t) (t_cap t) = true → t_count t < 2 ^ 28 →
  cap_ok (t_rehash t) ∧ located (t_rehash t) ∧ concat (t_rehash t) ≡ₚ concat t ∧
  t_cap (t_rehash t) = 2 * t_cap t.
Proof.
  intros [Hc Hn Hl Hload] Ho Hlt. destruct (t_rehash_cap t Hc Ho Hlt) as (_ & Hc' & Hcap & _).
  split_and!; [by apply cap_ok_rehash| | |done].
  - apply located_t_insert_fold; [done|]. apply located_empty.
  - unfold t_rehash. rewrite concat_t_insert_fold // concat_replicate_nil. by rewrite app_nil_r.
Qed.

(** Insertion of a new key in a table with room for it. *)
Lemma t_insert_wf t k v es :
  cap_ok t → located t → concat t ≡ₚ es → NoDup es.*1 → k ∉ es.*1 →
  4 * (Z.of_nat (length es) + 1) ≤ 3 * t_cap t →
  wf (t_insert t (k, v)) ∧ contents (t_insert t (k, v)) = <[k := v]> (list_to_map es).
Proof.
  intros Hc Hl E Hn Hk Hload.
  assert (concat (t_insert t (k, v)) ≡ₚ (k, v) :: es) as E' by by rewrite concat_t_insert // E.
  assert (NoDup ((k, v) :: es).*1) as Hn' by by constructor.
  split; [split|].
  - by apply cap_ok_insert.
  - by rewrite E'.
  - by apply located_t_insert.
  - rewrite t_count_insert // /t_insert t_cap_insert. unfold t_count.
    rewrite (Permutation_length E). lia.
  - unfold contents. rewrite (list_to_map_proper _ _ _ E') //. by rewrite E'.
Qed.

Lemma t_put_spec k v t :
  wf t → t_count t < 2 ^ 28 → wf (t_put k v t) ∧ contents (t_put k v t) = <[k := v]> (contents t).
Proof.
  intros Hw Hlt. pose proof Hw as [Hc Hn Hl Hload]. pose proof (t_count_nonneg t). unfold t_put.
  destruct (t_get k t) as [v0|] eqn:Eg.
  - pose proof (t_bucket_lookup k t Hc) as Hb. unfold t_get in Eg.
    assert (∃ c1 c2, t_bucket k t = c1 ++ (k, v0) :: c2 ∧ c_set k v (t_bucket k t) = c1 ++ (k, v) :: c2)
      as (c1 & c2 & E1 & E2).
    { clear -Eg. unfold c_find in Eg. induction (t_bucket k t) as [|[k' v'] c IH]; simpl in *; [done|].
      destruct (String.eqb_spec k' k) as [->|]; simpl in Eg.
      - simplify_eq. by exists [], c.
      - destruct (IH Eg) as (c1 & c2 & -> & ->). by exists ((k', v') :: c1), c2. }
    destruct (concat_bucket _ _ _ Hb) as (rest & E & Hr). specialize (Hr (c_set k v (t_bucket k t))).
    rewrite E1 in E. rewrite E2 in Hr |- *.
    assert (concat t ≡ₚ (k, v0) :: c1 ++ c2 ++ rest) as Ht by (rewrite E; solve_Permutation).
    assert (concat (<[t_idx k t := c1 ++ (k, v) :: c2]> t) ≡ₚ (k, v) :: c1 ++ c2 ++ rest) as Ht'
      by (rewrite Hr; solve_Permutation).
    assert (NoDup ((k, v) :: c1 ++ c2 ++ rest).*1) as Hn' by (rewrite Ht in Hn; exact Hn).
    split; [split|].
    + by apply cap_ok_insert.
    + by rewrite Ht'.
    + apply located_insert; [done|]. intros k' v' Hin.
      assert (k' = k ∨ (k', v') ∈ t_bucket k t) as [->|Hin'].
      { rewrite E1. revert Hin. rewrite !elem_of_app !elem_of_cons. naive_solver. }
      * done.
      * by eapply Hl.
    + rewrite t_cap_insert. unfold t_count in *.
      rewrite (Permutation_length Ht'). rewrite (Permutation_length Ht) in Hload. done.
    + unfold contents. rewrite (list_to_map_proper _ _ _ Ht'); [|by rewrite Ht'].
      rewrite (list_to_map_proper _ _ _ Ht) //=. by rewrite insert_insert_eq.
  - assert (k ∉ (concat t).*1) as Hk.
    { rewrite t_get_contents // in Eg. by apply not_elem_of_list_to_map_2. }
    destruct (overloaded (t_count t) (t_cap t)) eqn:Eo.
    + destruct (wf_rehash t Hw Eo Hlt) as (Hc' & Hl' & E' & Hcap).
      apply t_insert_wf; try done. rewrite Hcap. fold (t_count t).
      pose proof (cap_ok_bound t Hc). lia.
    + apply t_insert_wf; try done. fold (t_count t).
      rewrite overloaded_spec // in Eo; [|lia]. apply Z.ltb_ge in Eo. lia.
Qed.

Lemma t_delete_contents k t :
  wf t → wf (t_delete k t) ∧ contents (t_delete k t) = delete k (contents t).
Proof.
  intros Hw. pose proof Hw as [Hc Hn Hl Hload].
  destruct (t_get k t) as [v|] eqn:Eg.
  2:{ rewrite t_delete_miss //. split; [done|]. rewrite t_get_contents // in Eg. by rewrite delete_id. }
  pose proof (t_bucket_lookup k t Hc) as Hb.
  assert (∃ c1 c2, t_bucket k t = c1 ++ (k, v) :: c2 ∧ Forall (λ e, fst e ≠ k) c1) as (c1 & c2 & E1 & E2).
  { clear -Eg. unfold t_get, c_find in Eg.
    induction (t_bucket k t) as [|[k' v'] c IH]; simpl in *; [done|].
    destruct (String.eqb_spec k' k) as [->|]; simpl in Eg.
    - simplify_eq. exists [], c. split; [done|constructor].
    - destruct (IH Eg) as (c1 & c2 & -> & ?). exists ((k', v') :: c1), c2. split; [done|by constructor]. }
  destruct (t_delete_hit k t c1 v c2 Hc E1 E2) as [Ed Ec].
  destruct (concat_bucket _ _ _ Hb) as (rest & E & Hr). specialize (Hr (c1 ++ c2)). rewrite E1 in E.
  assert (concat t ≡ₚ (k, v) :: c1 ++ c2 ++ rest) as Ht by (rewrite E; solve_Permutation).
  assert (concat (t_delete k t) ≡ₚ c1 ++ c2 ++ rest) as Ht' by (rewrite Ed Hr; solve_Permutation).
  rewrite Ht in Hn. simpl in Hn. apply NoDup_cons in Hn as [Hk Hn].
  split; [split|].
  - rewrite Ed. by apply cap_ok_insert.
  - by rewrite Ht'.
  - rewrite Ed. apply located_insert; [done|]. intros k' v' Hin.
    apply (Hl _ (t_bucket k t) k' v' Hb). rewrite E1. revert Hin. rewrite !elem_of_app elem_of_cons. naive_solver.
  - rewrite Ec Ed t_cap_insert. lia.
  - unfold contents. rewrite (list_to_map_proper _ _ _ Ht'); [|by rewrite Ht'].
    rewrite (list_to_map_proper _ _ _ Ht); [|rewrite Ht; by constructor]. simpl.
    rewrite delete_insert_id //. by apply not_elem_of_list_to_map_1.
Qed.

(** *** Operations on a finite map *)

Definition map_op (o : op) (m : gmap string Z) : option (list Z * gmap string Z * string) :=
  match o with
  | Put k v => Some ([], <[k := v]> m, "")
  | Get k => Some (get_result (m !! k), m, "")
  | Contains k => Some ([b2z (bool_decide (is_Some (m !! k)))], m, "")
  | Delete k => Some ([b2z (bool_decide (is_Some (m !! k)))], delete k m, "")
  | Show => None
  end%string.

Definition no_show (o : op) : bool := match o with Show => false | _ => true end.

Lemma found_is_Some (r : option Z) : found r = b2z (bool_decide (is_Some r)).
Proof. by destruct r. Qed.

Lemma map_run_spec ops t :
  Forall (λ o, no_show o = true) ops → wf t → t_count t + Z.of_nat (length ops) ≤ 2 ^ 28 →
  ∃ rs t' s, spec_run table_op ops t = Some (rs, t', s) ∧
    spec_run map_op ops (contents t) = Some (rs, contents t', s) ∧ wf t'.
Proof.
  intros Hops. revert t. induction Hops as [|o ops Ho _ IH]; intros t Hw Hn; simpl.
  - by exists [], t, ""%string.
  - simpl in Hn.
    assert (∃ r t1, table_op o t = Some (r, t1, ""%string) ∧ map_op o (contents t) = Some (r, contents t1, ""%string) ∧
              wf t1 ∧ t_count t1 ≤ t_count t + 1) as (r & t1 & -> & -> & Hw1 & Hn1).
    { destruct o; try done; simpl; rewrite -?t_get_contents // -?found_is_Some; do 2 eexists; (split; [done|]).
      - destruct (t_put_spec k v t Hw) as [Hw' ->]; [lia|]. split_and!; try done.
        apply t_put_ok; [by apply wf_cap|lia].
      - split_and!; [done|done|lia].
      - split_and!; [done|done|lia].
      - destruct (t_delete_contents k t Hw) as [Hw' ->]. split_and!; try done.
        pose proof (t_delete_ok k t (wf_cap _ Hw)). lia. }
    simpl. destruct (IH t1 Hw1) as (rs & t2 & s & -> & -> & Hw2); [lia|]. simpl. by do 3 eexists.
Qed.

Lemma wf_empty : wf t_empty.
Proof.
  split; [apply cap_ok_empty|by constructor|apply located_empty|done].
Qed.

(** C6.  The hash table is a finite map.  Any sequence of insertions, look-ups,
    membership tests and deletions returns what the same operations on a finite map
    return; the table then holds as many entries as the map has keys, at a load of at
    most three quarters, whatever the hash values are. *)
Theorem hash_implements_map (ops : list op) :
  Z.of_nat (length ops) ≤ 2 ^ 28 → Forall (λ o, no_show o = true) ops →
  runs (session ops)
    (λ rs e, ∃ m t, spec_run map_op ops ∅ = Some (rs, m, stdout e) ∧
       spec_run table_op ops t_empty = Some (rs, t, stdout e) ∧
       t_count t = Z.of_nat (size m) ∧ 4 * t_count t ≤ 3 * t_cap t) False.
Proof.
  intros Hn Hops. apply wp_runs. intros mf X HX _.
  iApply (wp_wand with "[]"); [by iApply (wp_hash_session _ _ HX)|]. iIntros (rs e (t & E & _)).
  iPureIntro. destruct (map_run_spec ops t_empty Hops wf_empty) as (rs' & t' & s & E1 & E2 & Hw); [done|].
  rewrite E in E1. simplify_eq. exists (contents t'), t'.
  split_and!; [done|done|by apply t_count_contents|by apply wf_load].
Qed.

Lemma hash_implements_map_witness :
  runs (session [Put "a" 1; Put "b" 2; Get "a"; Delete "a"; Contains "a"; Get "a"])
    (λ rs e, ∃ m t, spec_run map_op [Put "a" 1; Put "b" 2; Get "a"; Delete "a"; Contains "a"; Get "a"] ∅
         = Some (rs, m, stdout e) ∧
       spec_run table_op [Put "a" 1; Put "b" 2; Get "a"; Delete "a"; Contains "a"; Get "a"] t_empty
         = Some (rs, t, stdout e) ∧
       t_count t = Z.of_nat (size m) ∧ 4 * t_count t ≤ 3 * t_cap t) False.
Proof. apply (hash_implements_map [_; _; _; _; _; _]); [done|by repeat constructor]. Defined.

(** ** The program *)

Definition fill (n : nat) : table :=
  foldl (λ t j, t_put (key_of (Z.of_nat j)) (Z.of_nat j * Z.of_nat j) t) t_empty (seq 0 n).

(** The line printed after the insertion of the key number [i]. *)
Definition fill_line (i : nat) : string :=
  let z := Z.of_nat i in
  if (z =? 5) || (z =? 11) || (z =? 23) || (z =? 39) then
    let t := fill (S i) in
    "after " +:+ fmt_signed (FSpec false false false (Some 2%nat) None) (z + 1) +:+ " inserts: capacity=" +:+
    fmt_signed (FSpec true false false (Some 4%nat) None) (t_cap t) +:+ "  load=" +:+
    fmt_dbl (FSpec false false false None (Some 2%nat)) (d_div (d_of_Z (t_count t)) (d_of_Z (t_cap t))) +:+
    String nl ""
  else "".

Definition count_word (t : table) (w : string) : table := t_put w (default 0 (t_get w t) + 1) t.

Fixpoint words_ok (t : table) (ws : list string) : bool :=
  match ws with
  | [] => true
  | w :: ws' =>
      Machine.in_int (default 0 (t_get w t) + 1) && (t_count t <? 2 ^ 28) && words_ok (count_word t w) ws'
  end.

Definition greek : table :=
  t_put "epsilon" 5 (t_put "delta" 4 (t_put "gamma" 3 (t_put "beta" 2 (t_put "alpha" 1 t_empty)))).

Definition main_text : string := esc (concat_str [
  "=== put / get / contains ===\n";
  "HashMap { count=5  capacity=8  load=0.62 }\n";
  "  [ 1] \qalpha\q:1\n";
  "  [ 2] \qgamma\q:3\n";
  "  [ 5] \qdelta\q:4\n";
  "  [ 7] \qepsilon\q:5 → \qbeta\q:2\n";
  "get(\qalpha\q) = 1\n";
  "get(\qgamma\q) = 3\n";
  "get(\qepsilon\q) = 5\n";
  "get(\qzeta\q) = (not found)\n";
  "\n=== update ===\n";
  "after update, get(\qbeta\q) = 99\n";
  "\n=== delete ===\n";
  "delete(\qgamma\q)   = 1\n";
  "delete(\qmissing\q) = 0\n";
  "contains(\qgamma\q) = 0\n";
  "HashMap { count=4  capacity=8  load=0.50 }\n";
  "  [ 1] \qalpha\q:1\n";
  "  [ 5] \qdelta\q:4\n";
  "  [ 7] \qepsilon\q:5 → \qbeta\q:99\n";
  "=== rehash under load ===\n";
  "after  6 inserts: capacity=8     load=0.75\n";
  "after 12 inserts: capacity=16    load=0.75\n";
  "after 24 inserts: capacity=32    load=0.75\n";
  "after 40 inserts: capacity=64    load=0.62\n";
  "post-rehash verification: all 40 entries correct\n";
  "\n=== word frequency counter ===\n";
  "HashMap { count=8  capacity=16  load=0.50 }\n";
  "  [ 0] \qquick\q:1\n";
  "  [ 3] \qbrown\q:1\n";
  "  [ 4] \qfox\q:2 → \qjumps\q:1\n";
  "  [ 9] \qdog\q:1\n";
  "  [11] \qlazy\q:1 → \qover\q:1\n";
  "  [12] \qthe\q:4\n"])%string.

Lemma fill_S i : fill (S i) = t_put (key_of (Z.of_nat i)) (Z.of_nat i * Z.of_nat i) (fill i).
Proof. unfold fill. by rewrite seq_S foldl_app. Qed.

Lemma fill_ok i : (i ≤ 40)%nat → cap_ok (fill i) ∧ t_count (fill i) ≤ Z.of_nat i.
Proof.
  induction i as [|i IH]; intros Hi; [by split; [apply cap_ok_empty|]|].
  rewrite fill_S. destruct IH as [Hc Hn]; [lia|].
  destruct (t_put_ok (key_of (Z.of_nat i)) (Z.of_nat i * Z.of_nat i) (fill i) Hc); [lia|]. split; [done|lia].
Qed.

Lemma fill_get i : 0 ≤ i < 40 → t_get (key_of i) (fill 40) = Some (i * i).
Proof.
  intros Hi.
  assert ((let t := fill 40 in
           forallb (λ i, match t_get (key_of (Z.of_nat i)) t with
                         | Some v => v =? Z.of_nat i * Z.of_nat i
                         | None => false
                         end) (seq 0 40)) = true) as H by by vm_compute.
  cbv zeta in H. revert H. generalize (fill 40). intros t H.
  rewrite forallb_forall in H. specialize (H (Z.to_nat i)). rewrite in_seq Z2Nat.id in H; [|lia].
  destruct (t_get _ _); [|by discriminate H; lia]. f_equal. apply Z.eqb_eq, H. lia.
Qed.

Section main.
Context (mf : bool) (X : Z → Prop) (HX : mf = true → X 1).

Lemma wp_fill_big big (Q : unit → list ev → hpropI obj) :
  rep big t_empty -∗
  (∀ o, ⌈stdout o = concat_str (map fill_line (seq 0 40))⌉ -∗ ⌈stderr o = ""%string⌉ -∗
     rep big (fill 40) -∗ Q tt o) -∗
  wp mf X (fill_big big) Q.
Proof.
  iIntros "H HQ". unfold fill_big.
  iApply (wp_for_range _ _ (λ i _ o, ⌈stdout o = concat_str (map fill_line (seq 0 (Z.to_nat i)))⌉ ∗
     ⌈stderr o = ""%string⌉ ∗ rep big (fill (Z.to_nat i)))%I with "[H]"); [done| |by iFrame|].
  - intros i [] o Hi. iIntros "(%Ho & %He & H)". destruct (fill_ok (Z.to_nat i)) as [Hc Hn]; [lia|].
    assert (fill (Z.to_nat (i + 1)) = t_put (key_of i) (i * i) (fill (Z.to_nat i))) as Ef.
    { rewrite Z2Nat.inj_add; [|lia..]. rewrite Nat.add_1_r fill_S Z2Nat.id //. lia. }
    assert (concat_str (map fill_line (seq 0 (Z.to_nat (i + 1)))) =
            concat_str (map fill_line (seq 0 (Z.to_nat i))) +:+ fill_line (Z.to_nat i))%string as Et.
    { rewrite Z2Nat.inj_add; [|lia..]. rewrite seq_app map_app concat_str_app /=. by str_norm. }
    wp_step. iApply (wp_hmap_put _ _ HX with "H"); [done|lia|]. iIntros "H". rewrite -Ef Et.
    unfold fill_line. rewrite Z2Nat.id; [|lia].
    destruct ((i =? 5) || (i =? 11) || (i =? 23) || (i =? 39)) eqn:Ei.
    + iDestruct "H" as (m b ps ->) "(Hm & Hb & Hbs)". do 3 wp_step. cbn [count capacity app].
      rewrite stdout_app stderr_app Ho He /=. iSplitR; [|iSplitR; [done|]].
      * iPureIntro. replace (S (Z.to_nat i)) with (Z.to_nat (i + 1)) by lia. by str_norm.
      * by iApply (rep_intro with "Hm Hb").
    + wp_step. rewrite !app_nil_r Ho He string_app_nil_r. by iFrame.
  - iIntros ([] o) "(%Ho & %He & H)". by iApply ("HQ" with "[] [] H").
Qed.

Lemma wp_verify_big big t v x (Q : Z → list ev → hpropI obj) :
  cap_ok t → (∀ i, 0 ≤ i < 40 → t_get (key_of i) t = Some (i * i)) →
  rep big t -∗ v ↦ x -∗ (∀ x, rep big t -∗ v ↦ x -∗ Q 0 []) -∗
  wp mf X (verify_big big (Some v)) Q.
Proof.
  intros Hc Hg. iIntros "H Hv HQ". unfold verify_big.
  iApply (wp_for_range _ _ (λ i s o, ∃ x, ⌈s = 0⌉ ∗ ⌈o = []⌉ ∗ rep big t ∗ v ↦ x)%I
    with "[H Hv]"); [done| |iExists x; by iFrame|].
  - intros i s o Hi. iIntros "(%y & -> & -> & H & Hv)". wp_step.
    iApply (wp_hmap_get with "H Hv"); [done|]. iIntros "H Hv". rewrite Hg //.
    simpl. wp_run. rewrite Z.eqb_refl. wp_step. iExists _. by iFrame.
  - iIntros (s o) "(%y & -> & -> & H & Hv)". iApply ("HQ" with "H Hv").
Qed.

Lemma wp_count_words freq t ws (Q : unit → list ev → hpropI obj) :
  cap_ok t → words_ok t ws = true →
  rep freq t -∗ (rep freq (foldl count_word t ws) -∗ Q tt []) -∗
  wp mf X (count_words freq ws) Q.
Proof.
  revert t Q. induction ws as [|w ws IH]; intros t Q Hc Hok; iIntros "H HQ"; unfold count_words; simpl.
  - wp_step. by iApply "HQ".
  - simpl in Hok. apply andb_prop in Hok as [[Hv%in_int_spec Hn%Z.ltb_lt]%andb_prop Hok].
    do 2 wp_step. iApply wp_local. iIntros (c) "Hc". wp_step.
    iApply (wp_hmap_get with "H Hc"); [done|]. iIntros "H Hc".
    iAssert (c ↦ OInt (Some (default 0 (t_get w t))))%I with "[Hc]" as "Hc"; [by destruct (t_get w t)|].
    do 3 wp_step. iApply wp_int_chk; [done|]. wp_step.
    iApply (wp_hmap_put _ _ HX with "H"); [done..|]. iIntros "H". wp_step. fold (count_word t w).
    iApply (IH with "H HQ"); [|done]. by apply t_put_ok.
Qed.

Lemma wp_show_get map v x t k (Q : unit → list ev → hpropI obj) :
  cap_ok t → rep map t -∗ v ↦ x -∗
  (∀ y, rep map t -∗ v ↦ y -∗
     Q tt [Out ("get(" +:+ String dquote k +:+ String dquote ") = " +:+
                match t_get k t with Some n => int_str n | None => "(not found)" end +:+ String nl "")%string]) -∗
  wp mf X (show_get map (Some v) k) Q.
Proof.
  intros Hc. iIntros "H Hv HQ". unfold show_get. wp_step. iApply (wp_hmap_get with "H Hv"); [done|].
  iIntros "H Hv". destruct (t_get k t) as [n|]; simpl; wp_run; simpl; rewrite ?fmt_signed_plain;
    by iApply ("HQ" with "H Hv").
Qed.

Lemma cap_ok_check t : (t_cap t =? 8) || (t_cap t =? 16) = true → cap_ok t.
Proof. intros [H%Z.eqb_eq|H%Z.eqb_eq]%orb_prop; [by exists 3|by exists 4]. Qed.

Ltac table_side := first [by vm_compute | apply cap_ok_check; by vm_compute].

(** What the first table holds at its three stages, and the texts of the program. *)
Definition greek2 : table := t_put "beta" 99 greek.
Definition greek3 : table := t_delete "gamma" greek2.

Definition freqs : table := foldl count_word t_empty words.

Lemma freqs_cap : cap_ok freqs.
Proof. apply cap_ok_check. by vm_compute. Qed.

Lemma greek_facts :
  cap_ok greek ∧ t_count greek < 2 ^ 28 ∧ cap_ok greek2 ∧ t_count greek2 < 2 ^ 28 ∧
  cap_ok greek3 ∧ t_count greek3 < 2 ^ 28 ∧ t_get "beta" greek2 = Some 99 ∧
  t_get "gamma" greek2 = Some 3 ∧ t_get "missing" greek3 = None ∧ t_get "gamma" greek3 = None ∧
  t_delete "missing" greek3 = greek3.
Proof. split_and!; first [by vm_compute|apply cap_ok_check; by vm_compute]. Qed.

Lemma wp_hash_main : ⊢ wp mf X main (λ r e, ⌈r = 0 ∧ stdout e = main_text ∧ stderr e = ""%string⌉).
Proof.
  pose proof greek_facts as (G1 & G2 & G3 & G4 & G5 & G6 & G7 & G8 & G9 & G10 & G11).
  iStartProof. unfold main. do 3 wp_step. iApply (wp_hmap_create _ _ HX). iIntros (map) "H".
  do 5 (wp_step; iApply (wp_hmap_put _ _ HX with "H"); [table_side..|]; iIntros "H"). fold greek.
  wp_step. iApply (wp_hmap_print with "H"); [done|]. iIntros (o1 Ho1 He1) "H".
  wp_step. iApply wp_local. iIntros (v) "Hv". wp_step. cbn [for_list].
  do 4 (wp_step; iApply (wp_show_get with "H Hv"); [done|]; iIntros (?) "H Hv"). wp_step.
  do 3 wp_step.
  iApply (wp_hmap_put _ _ HX with "H"); [done..|]. iIntros "H". fold greek2.
  wp_step. iApply (wp_hmap_get with "H Hv"); [done|]. iIntros "H Hv". rewrite G7.
  do 7 wp_step. iApply (wp_hmap_delete with "H"); [done..|]. iIntros "H". fold greek3. rewrite G8.
  do 3 wp_step. iApply (wp_hmap_delete with "H"); [done..|]. iIntros "H". rewrite G9 G11.
  do 3 wp_step. iApply (wp_hmap_contains with "H"); [done..|]. iIntros "H". rewrite G10.
  do 3 wp_step. iApply (wp_hmap_print with "H"); [done|]. iIntros (o2 Ho2 He2) "H".
  do 3 wp_step. iApply (wp_hmap_create _ _ HX). iIntros (big) "Hbig".
  wp_step. iApply (wp_fill_big with "Hbig"). iIntros (o3 Ho3 He3) "Hbig".
  wp_step. iApply (wp_verify_big with "Hbig Hv"); [by apply fill_ok|by apply fill_get|].
  iIntros (z) "Hbig Hv". do 3 wp_step. iApply (wp_hmap_free with "Hbig").
  do 3 wp_step. iApply (wp_hmap_create _ _ HX). iIntros (freq) "Hf".
  wp_step. iApply (wp_count_words with "Hf"); [apply cap_ok_empty|by vm_compute|]. iIntros "Hf".
  fold freqs. wp_step. iApply (wp_hmap_print with "Hf"); [apply freqs_cap|]. iIntros (o4 Ho4 He4) "Hf".
  wp_step. iApply (wp_hmap_free with "Hf"). wp_step. iApply (wp_hmap_free with "H"). wp_run.
  iPureIntro. cbn [app]. split; [done|].
  split.
  - cbn [stdout app]. repeat (rewrite stdout_app; cbn [stdout app]). rewrite Ho1 Ho2 Ho3 Ho4. by vm_compute.
  - cbn [stderr app]. repeat (rewrite stderr_app; cbn [stderr app]). by rewrite He1 He2 He3 He4.
Qed.
End main.

(** [main] returns 0, prints exactly what its headings announce (the chains of
    each bucket in order, the capacities after each rehash, the word counts) and frees
    all three tables, unless an allocation fails. *)
Theorem hash_main_correct :
  runs main (λ r e, r = 0 ∧ stdout e = main_text ∧ stderr e = ""%string) False.
Proof. apply wp_runs. intros mf X HX _. by apply wp_hash_main. Qed.
