(* ===== verification/Bits.v ===== *)
(** * Exercise 13: bit manipulation

    Model of [exercises/13_bit_manipulation/bits.c]: the bit idioms on fixed-width
    unsigned integers, powers of two, the RGB565 packing, and [main].  The layout of
    bit-fields is the compiler's: the sizes printed by [main] are those of GCC. *)

From S2P Require Import Prelude Machine CString Double Printf SepLogic Pure.
#[local] Open Scope Z_scope.

Section bits.
Context {U : Type}.

Definition putchar (c : ascii) : M U unit := puts_out (String c "").

Definition print_bits8 (v : Z) : M U unit :=
  for_range 0 8 (λ k _,
    let i := 7 - k in
    putchar (if Z.land (Z.shiftr v i) 1 =? 0 then "0"%char else "1"%char)) tt.

Definition print_bits32 (v : Z) : M U unit :=
  for_range 0 32 (λ k _,
    let i := 31 - k in
    putchar (if Z.land (Z.shiftr v i) 1 =? 0 then "0"%char else "1"%char) ;;;
    if (i mod 8 =? 0) && (0 <? i) then putchar "_"%char else ret tt) tt.

(** [x << n] and [x >> n] at width 32: undefined unless 0 <= n < 32. *)
Definition shift_ok (n : Z) : bool := (0 <=? n) && (n <? 32).
Definition shl (x n : Z) : M U Z := if shift_ok n then ret (u32 (Z.shiftl x n)) else undefined.
Definition shr (x n : Z) : M U Z := if shift_ok n then ret (Z.shiftr x n) else undefined.

Definition bit_set (x n : Z) : M U Z := m <- shl 1 n ;; ret (u8 (Z.lor x m)).
Definition bit_clear (x n : Z) : M U Z := m <- shl 1 n ;; ret (u8 (Z.land x (u32 (Z.lnot m)))).
Definition bit_toggle (x n : Z) : M U Z := m <- shl 1 n ;; ret (u8 (Z.lxor x m)).
Definition bit_test (x n : Z) : M U Z := y <- shr x n ;; ret (Z.land y 1).

Definition lowest_set_bit (x : Z) : Z := Z.land x (u32 (- x)).

(** A 32-bit number has at most 32 bits to clear. *)
Definition popcount (x : Z) : M U Z :=
  loop 33 (λ '(x, count),
    if x =? 0 then ret (inr count)
    else c <- int_chk (count + 1) ;; ret (inl (Z.land x (u32 (x - 1)), c))) (x, 0).

Definition reverse_bits (x : Z) : M U Z :=
  s <- for_range 0 8 (λ _ '(r, x),
    ret (u8 (Z.lor (Z.shiftl r 1) (Z.land x 1)), Z.shiftr x 1)) (0, x) ;;
  ret (fst s).

Definition is_power_of_two (x : Z) : Z :=
  b2z (negb (x =? 0) && (Z.land x (u32 (x - 1)) =? 0)).

Definition next_power_of_two (x : Z) : Z :=
  if x =? 0 then 1
  else if 2147483648 <? x then 0
  else
    let x := u32 (x - 1) in
    let x := Z.lor x (Z.shiftr x 1) in
    let x := Z.lor x (Z.shiftr x 2) in
    let x := Z.lor x (Z.shiftr x 4) in
    let x := Z.lor x (Z.shiftr x 8) in
    let x := Z.lor x (Z.shiftr x 16) in
    u32 (x + 1).

(** The bit-fields: a value is stored modulo the width of its field. *)
Record RGB565 := { red : Z; green : Z; blue : Z }.
Definition make_RGB565 (r g b : Z) : RGB565 :=
  {| red := r mod 2 ^ 5; green := g mod 2 ^ 6; blue := b mod 2 ^ 5 |}.

Record FileAttribs := {
  is_directory : Z; is_readable : Z; is_writable : Z; is_hidden : Z; reserved : Z
}.
Definition make_FileAttribs (d r w h : Z) : FileAttribs :=
  {| is_directory := d mod 2; is_readable := r mod 2; is_writable := w mod 2;
     is_hidden := h mod 2; reserved := 0 |}.

(** Both structs fit in one [unsigned int]. *)
Definition sizeof_bitfields : Z := 4.

Definition rgb565_pack (r g b : Z) : Z :=
  u16 (Z.lor (Z.lor (Z.shiftl (u16 (Z.land r 31)) 11) (Z.shiftl (u16 (Z.land g 63)) 5))
             (u16 (Z.land b 31))).
Definition rgb565_r (c : Z) : Z := Z.land (Z.shiftr c 11) 31.
Definition rgb565_g (c : Z) : Z := Z.land (Z.shiftr c 5) 63.
Definition rgb565_b (c : Z) : Z := Z.land c 31.

(** *** [main] *)

(** [printf(pre); print_bits8(v); printf(post, u)]: the line of an example. *)
Definition line8 (pre : string) (v : Z) (post : string) (args : list parg) : M U unit :=
  printf pre [] ;;; print_bits8 (u8 v) ;;; printf post args.

Definition main_operators : M U unit :=
  printf "=== Bitwise operators ===\n" [] ;;;
  let a := 182 in
  let b := 109 in
  line8 "a   = " a "  (%3u)\n" [AInt a] ;;;
  line8 "b   = " b "  (%3u)\n" [AInt b] ;;;
  line8 "a&b = " (Z.land a b) "  (%3u)  AND\n" [AInt (Z.land a b)] ;;;
  line8 "a|b = " (Z.lor a b) "  (%3u)  OR\n" [AInt (Z.lor a b)] ;;;
  line8 "a^b = " (Z.lxor a b) "  (%3u)  XOR\n" [AInt (Z.lxor a b)] ;;;
  line8 "~a  = " (Z.lnot a) "  (%3u)  NOT\n" [AInt (u8 (Z.lnot a))].

Definition main_shifts : M U unit :=
  printf "\n=== Shifts ===\n" [] ;;;
  let x := 1 in
  let y := 128 in
  line8 "x      = " x "  (%u)\n" [AInt x] ;;;
  line8 "x << 3 = " (Z.shiftl x 3) "  (%u)  *8\n" [AInt (Z.shiftl x 3)] ;;;
  line8 "x << 7 = " (Z.shiftl x 7) "  (%u)  *128\n" [AInt (Z.shiftl x 7)] ;;;
  line8 "y      = " y "  (%u)\n" [AInt y] ;;;
  line8 "y >> 1 = " (Z.shiftr y 1) "  (%u)  /2\n" [AInt (Z.shiftr y 1)] ;;;
  line8 "y >> 4 = " (Z.shiftr y 4) "  (%u)  /16\n" [AInt (Z.shiftr y 4)].

Definition main_flags : M U unit :=
  printf "\n=== Set, clear, toggle, test ===\n" [] ;;;
  let flags := 0 in
  line8 "initial:  " flags "\n" [] ;;;
  flags <- bit_set flags 0 ;; line8 "set   0:  " flags "\n" [] ;;;
  flags <- bit_set flags 3 ;; line8 "set   3:  " flags "\n" [] ;;;
  flags <- bit_set flags 7 ;; line8 "set   7:  " flags "\n" [] ;;;
  flags <- bit_clear flags 3 ;; line8 "clear 3:  " flags "\n" [] ;;;
  flags <- bit_toggle flags 0 ;; line8 "toggle 0: " flags "\n" [] ;;;
  t <- bit_test flags 7 ;; printf "test  7:  %d\n" [AInt t] ;;;
  t <- bit_test flags 0 ;; printf "test  0:  %d\n" [AInt t].

Definition main_tricks : M U unit :=
  printf "\n=== Useful tricks ===\n" [] ;;;
  let v := 180 in
  printf "v                = " [] ;;; print_bits32 v ;;; printf "  (%u)\n" [AInt v] ;;;
  printf "lowest set bit   = " [] ;;; print_bits32 (lowest_set_bit v) ;;; printf "\n" [] ;;;
  c <- popcount v ;;
  printf "popcount         = %d\n" [AInt c] ;;;
  r <- reverse_bits 162 ;;
  printf "reverse_bits(0xA2) = 0x%02X\n" [AInt r] ;;;
  printf "\nis_power_of_two:\n" [] ;;;
  for_list [0; 1; 2; 3; 4; 15; 16; 255; 256] (λ t _,
    printf "  %4u -> %s\n" [AInt t; AStr (if is_power_of_two t =? 0 then "no" else "yes")]) tt ;;;
  printf "\nnext_power_of_two:  (0 = result does not fit in uint32_t)\n" [] ;;;
  for_list [0; 1; 5; 9; 17; 100; 128; 1000; 2147483649] (λ t _,
    printf "  %4u -> %u\n" [AInt t; AInt (next_power_of_two t)]) tt.

Definition main_fields : M U unit :=
  printf "\n=== Struct bitfields ===\n" [] ;;;
  let colour := make_RGB565 31 63 31 in
  printf "RGB565 white: r=%u g=%u b=%u  sizeof=%zu\n"
    [AInt (red colour); AInt (green colour); AInt (blue colour); AInt sizeof_bitfields] ;;;
  let fa := make_FileAttribs 0 1 1 0 in
  printf "FileAttribs: dir=%u read=%u write=%u hidden=%u  sizeof=%zu\n"
    [AInt (is_directory fa); AInt (is_readable fa); AInt (is_writable fa); AInt (is_hidden fa);
     AInt sizeof_bitfields] ;;;
  printf "\n=== Manual packing (RGB565) ===\n" [] ;;;
  let packed := rgb565_pack 31 20 10 in
  printf "packed   = 0x%04X\n" [AInt packed] ;;;
  printf "bits     = " [] ;;; print_bits32 packed ;;; printf "\n" [] ;;;
  printf "r=%u g=%u b=%u\n" [AInt (rgb565_r packed); AInt (rgb565_g packed); AInt (rgb565_b packed)].

Definition xor_swap (p q : Z) : Z * Z :=
  let p := Z.lxor p q in
  let q := Z.lxor q p in
  let p := Z.lxor p q in
  (p, q).

Definition main : M U Z :=
  main_operators ;;;
  main_shifts ;;;
  main_flags ;;;
  main_tricks ;;;
  main_fields ;;;
  printf "\n=== XOR swap ===\n" [] ;;;
  printf "before: p=%d q=%d\n" [AInt 42; AInt 99] ;;;
  let* (p, q) := ret (xor_swap 42 99) in
  printf "after:  p=%d q=%d\n" [AInt p; AInt q] ;;;
  ret 0.
End bits.

(** ** Bits of the results *)

Lemma u8_testbit x i : 0 ≤ i → Z.testbit (u8 x) i = Z.testbit x i && (i <? 8).
Proof.
  intros Hi. unfold u8. rewrite -Z.land_ones // Z.land_spec Z.testbit_ones_nonneg //.
Qed.

Lemma u32_testbit x i : 0 ≤ i → Z.testbit (u32 x) i = Z.testbit x i && (i <? 32).
Proof.
  intros Hi. unfold u32. rewrite -Z.land_ones // Z.land_spec Z.testbit_ones_nonneg //.
Qed.

Lemma u8_range x : 0 ≤ u8 x < 256.
Proof. unfold u8. by apply Z.mod_pos_bound. Qed.

Lemma shl_1 {U} n : 0 ≤ n < 32 → yields (U:=U) (shl 1 n) (2 ^ n).
Proof.
  intros Hn w. unfold shl, shift_ok. zb; try lia. simpl. unfold ret, u32.
  rewrite Z.shiftl_1_l Z.mod_small //. split; [lia|]. by apply Z.pow_lt_mono_r.
Qed.

Lemma shift_undefined {U} n (x : Z) : ¬ 0 ≤ n < 32 → is_undefined (U:=U) (shl x n) ∧ is_undefined (U:=U) (shr x n).
Proof. intros Hn. unfold shl, shr, shift_ok. by split; intros w; zb; try lia. Qed.

(** The lowest set bit, counted and removed. *)
Fixpoint bitcount (n : nat) (x : Z) : Z :=
  match n with
  | O => 0
  | S n' => Z.b2z (Z.odd x) + bitcount n' (Z.div2 x)
  end.

Lemma bitcount_shift n lo x :
  bitcount n (Z.shiftr x (Z.of_nat lo)) =
  Z.of_nat (length (filter (λ i, Z.testbit x (Z.of_nat i) = true) (seq lo n))).
Proof.
  revert lo. induction n as [|n IH]; intros lo; [done|]. cbn [bitcount seq].
  rewrite -Z.bit0_odd Z.shiftr_spec // Z.div2_spec Z.shiftr_shiftr // filter_cons.
  replace (Z.of_nat lo + 1) with (Z.of_nat (S lo)) by lia. rewrite IH Z.add_0_l.
  destruct (Z.testbit x (Z.of_nat lo)); simpl; lia.
Qed.

(** The number of bits that are set. *)
Definition ones (x : Z) : Z :=
  Z.of_nat (length (filter (λ i, Z.testbit x (Z.of_nat i) = true) (seq 0 32))).

Lemma bitcount_ones x : bitcount 32 x = ones x.
Proof. unfold ones. rewrite -(bitcount_shift 32 0 x). by rewrite Z.shiftr_0_r. Qed.

Lemma land_parity a b (c d : bool) :
  Z.land (2 * a + Z.b2z c) (2 * b + Z.b2z d) = 2 * Z.land a b + Z.b2z (c && d).
Proof.
  apply Z.bits_inj'. intros i Hi. destruct (Z.eq_dec i 0) as [->|Hne].
  - by rewrite Z.land_spec !Z.testbit_0_r.
  - replace i with (Z.succ (i - 1)) by lia. rewrite Z.land_spec !Z.testbit_succ_r ?Z.land_spec; [done|lia..].
Qed.

Lemma parity x : x = 2 * Z.div2 x + Z.b2z (Z.odd x).
Proof. apply Z.div2_odd. Qed.

Lemma bitcount_cons n a (c : bool) : bitcount (S n) (2 * a + Z.b2z c) = Z.b2z c + bitcount n a.
Proof.
  cbn [bitcount]. rewrite (Z.add_comm (2 * a)) Z.odd_add_mul_2 Z.div2_div.
  rewrite Z.add_b2z_double_div2. by destruct c.
Qed.

Lemma clear_lowest n x :
  0 < x < 2 ^ Z.of_nat n →
  bitcount n (Z.land x (x - 1)) = bitcount n x - 1 ∧ 0 ≤ Z.land x (x - 1) < x.
Proof.
  revert x. induction n as [|n IH]; intros x Hx; [simpl in Hx; lia|].
  rewrite Nat2Z.inj_succ Z.pow_succ_r in Hx; [|lia]. pose proof (parity x) as Hp.
  set (a := Z.div2 x) in *. destruct (Z.odd x) eqn:Eo; simpl in Hp.
  - assert (Z.land x (x - 1) = 2 * a + Z.b2z false) as E.
    { rewrite {1}Hp. replace (x - 1) with (2 * a + Z.b2z false) by (simpl; lia).
      rewrite (land_parity a a true false) Z.land_diag. done. }
    rewrite E bitcount_cons. split; [|simpl; lia]. cbn [bitcount]. rewrite Eo. fold a. simpl. lia.
  - assert (0 < a < 2 ^ Z.of_nat n) as Ha by lia. destruct (IH a Ha) as [IH1 IH2].
    assert (Z.land x (x - 1) = 2 * Z.land a (a - 1) + Z.b2z false) as E.
    { rewrite {1}Hp. replace (x - 1) with (2 * (a - 1) + Z.b2z true) by (simpl; lia).
      by rewrite (land_parity a (a - 1) false true). }
    rewrite E bitcount_cons IH1. split; [|simpl; lia]. cbn [bitcount]. rewrite Eo. fold a. simpl. lia.
Qed.

Lemma bitcount_range n x : 0 ≤ bitcount n x ≤ Z.of_nat n.
Proof.
  revert x. induction n as [|n IH]; intros x; [done|]. cbn [bitcount]. specialize (IH (Z.div2 x)).
  destruct (Z.odd x); simpl; lia.
Qed.

Lemma bitcount_0 n x : 0 ≤ x < 2 ^ Z.of_nat n → bitcount n x = 0 → x = 0.
Proof.
  intros Hx H. destruct (Z.eq_dec x 0) as [|Hne]; [done|].
  destruct (clear_lowest n x) as [E _]; [lia|].
  pose proof (bitcount_range n (Z.land x (x - 1))). lia.
Qed.

Lemma u32_id x : 0 ≤ x < 2 ^ 32 → u32 x = x.
Proof. apply Z.mod_small. Qed.

Lemma popcount_loop {U} n x c :
  0 ≤ x < 2 ^ 32 → bitcount 32 x < Z.of_nat n → 0 ≤ c → c + bitcount 32 x ≤ 32 →
  yields (U:=U) (loop n (λ '(x, count),
    if x =? 0 then ret (inr count)
    else c <- int_chk (count + 1) ;; ret (inl (Z.land x (u32 (x - 1)), c))) (x, c)) (c + bitcount 32 x).
Proof.
  revert x c. induction n as [|n IH]; intros x c Hx Hn Hc Hs; [pose proof (bitcount_range 32 x); lia|].
  pose proof (bitcount_range 32 x). destruct (Z.eqb_spec x 0) as [->|Hne].
  - apply writes_loop_done. change (bitcount 32 0) with 0. rewrite Z.add_0_r. apply yields_ret.
  - destruct (clear_lowest 32 x) as [Hb Hr]; [simpl; lia|].
    eapply (writes_loop_again n _ _ (Z.land x (x - 1), c + 1) _ [] []).
    + destruct (Z.eqb_spec x 0); [lia|]. eapply yields_bind; [apply yields_int_chk; unfold INT_MIN, INT_MAX; lia|].
      rewrite u32_id; [apply yields_ret|lia].
    + replace (c + bitcount 32 x) with (c + 1 + bitcount 32 (Z.land x (x - 1))) by lia.
      apply IH; lia.
Qed.

Lemma popcount_spec {U} x : 0 ≤ x < 2 ^ 32 → yields (U:=U) (popcount x) (ones x).
Proof.
  intros Hx. rewrite -bitcount_ones. pose proof (bitcount_range 32 x).
  rewrite -(Z.add_0_l (bitcount 32 x)). apply popcount_loop; lia.
Qed.

Lemma land_opp n x :
  0 < x < 2 ^ Z.of_nat n → ∃ k, 0 ≤ k < Z.of_nat n ∧ Z.land x (- x) = 2 ^ k ∧
    Z.testbit x k = true ∧ ∀ i, 0 ≤ i < k → Z.testbit x i = false.
Proof.
  revert x. induction n as [|n IH]; intros x Hx; [simpl in Hx; lia|].
  rewrite Nat2Z.inj_succ Z.pow_succ_r in Hx; [|lia]. pose proof (parity x) as Hp.
  set (a := Z.div2 x) in *. destruct (Z.odd x) eqn:Eo; simpl in Hp.
  - exists 0. split_and!; [lia|lia| |by rewrite Z.bit0_odd|lia].
    rewrite {1}Hp. replace (- x) with (2 * Z.lnot a + Z.b2z true) by (unfold Z.lnot; simpl; lia).
    rewrite (land_parity a (Z.lnot a) true true) Z.land_lnot_diag. done.
  - destruct (IH a) as (k & Hk & E & Hb & Hlow); [lia|]. exists (Z.succ k).
    assert (x = 2 * a) as Hxa by lia. split_and!; [lia|lia| | |].
    + rewrite Hxa. replace (- (2 * a)) with (2 * (- a) + Z.b2z false) by (simpl; lia).
      replace (2 * a) with (2 * a + Z.b2z false) by (simpl; lia).
      rewrite (land_parity a (- a) false false) E Z.pow_succ_r; [simpl; lia|lia].
    + rewrite Hxa Z.double_bits_succ. done.
    + intros i Hi. destruct (Z.eq_dec i 0) as [->|]; [by rewrite Z.bit0_odd|].
      replace i with (Z.succ (i - 1)) by lia. rewrite Hxa Z.double_bits_succ. apply Hlow. lia.
Qed.

Lemma lowest_set_bit_spec x :
  0 < x < 2 ^ 32 → ∃ k, 0 ≤ k < 32 ∧ lowest_set_bit x = 2 ^ k ∧ Z.testbit x k = true ∧
    ∀ i, 0 ≤ i < k → Z.testbit x i = false.
Proof.
  intros Hx. destruct (land_opp 32 x Hx) as (k & Hk & E & H). exists k. split; [done|]. split; [|done].
  rewrite -E. unfold lowest_set_bit. apply Z.bits_inj'. intros i Hi.
  rewrite !Z.land_spec u32_testbit //. destruct (Z.ltb_spec i 32); [by rewrite andb_true_r|].
  rewrite (Z.bits_above_log2 x); [done|lia|].
  apply Z.log2_lt_pow2; [lia|]. apply Z.lt_le_trans with (2 ^ 32); [lia|]. apply Z.pow_le_mono_r; lia.
Qed.

(** *** Powers of two *)

Lemma power_of_two_land x :
  0 < x < 2 ^ 32 → Z.land x (x - 1) = 0 ↔ ∃ k, 0 ≤ k ∧ x = 2 ^ k.
Proof.
  intros Hx. split.
  - intros H. destruct (lowest_set_bit_spec x Hx) as (k & Hk & _ & Hb & Hlow). exists k. split; [lia|].
    assert (∀ i, 0 ≤ i → i ≠ k → Z.testbit x i = false) as Hz.
    { intros i Hi Hne. destruct (Z.lt_ge_cases i k); [by apply Hlow|].
      destruct (clear_lowest 32 x Hx) as [Hc _]. rewrite H in Hc.
      change (bitcount 32 0) with 0 in Hc. rewrite bitcount_ones in Hc.
      destruct (Z.testbit x i) eqn:Ei; [|done].
      assert (i < 32) as Hi32.
      { destruct (Z.lt_ge_cases i 32) as [|Hge]; [done|]. rewrite Z.bits_above_log2 in Ei; [done|lia|].
        apply Z.lt_le_trans with 32; [by apply Z.log2_lt_pow2; lia|done]. }
      unfold ones in Hc.
      assert (NoDup [Z.to_nat k; Z.to_nat i]) as Hn.
      { apply NoDup_cons. split; [rewrite list_elem_of_singleton; lia|apply NoDup_singleton]. }
      assert (length [Z.to_nat k; Z.to_nat i] ≤
              length (filter (λ i, Z.testbit x (Z.of_nat i) = true) (seq 0 32)))%nat as Hle.
      { apply submseteq_length, NoDup_submseteq; [done|]. intros j Hj. apply list_elem_of_filter.
        rewrite elem_of_seq. apply elem_of_cons in Hj as [->|Hj%list_elem_of_singleton]; [|subst j];
          (split; [by rewrite Z2Nat.id; [|lia]|lia]). }
      cbn [length] in Hle. lia. }
    apply Z.bits_inj'. intros i Hi. rewrite Z.pow2_bits_eqb; [|lia].
    destruct (Z.eqb_spec k i) as [<-|]; [done|]. apply Hz; lia.
  - intros (k & Hk & ->). rewrite Z.sub_1_r -Z.ones_equiv Z.land_ones; [|done].
    by rewrite Z.mod_same; [|lia].
Qed.

Lemma is_power_of_two_spec x :
  0 ≤ x < 2 ^ 32 → (is_power_of_two x = 1 ↔ ∃ k, 0 ≤ k ∧ x = 2 ^ k) ∧ 0 ≤ is_power_of_two x ≤ 1.
Proof.
  intros Hx. unfold is_power_of_two. destruct (Z.eqb_spec x 0) as [->|Hne]; simpl.
  - split; [|done]. split; [done|]. intros (k & Hk & E). assert (0 < 2 ^ k) by lia. lia.
  - rewrite u32_id; [|lia]. rewrite -power_of_two_land; [|lia].
    destruct (Z.eqb_spec (Z.land x (x - 1)) 0); simpl; split; done.
Qed.

(** Every bit of [y'] is the disjunction of the [w] bits of [y] from it upwards. *)
Definition smeared (y y' w : Z) : Prop :=
  ∀ i, 0 ≤ i → Z.testbit y' i = true ↔ ∃ j, i ≤ j < i + w ∧ Z.testbit y j = true.

Lemma smear_start y : smeared y y 1.
Proof.
  intros i Hi. split; [by intros H; exists i; split; [lia|]|].
  intros (j & Hj & H). by replace i with j by lia.
Qed.

Lemma smear_step y y' w : 0 < w → smeared y y' w → smeared y (Z.lor y' (Z.shiftr y' w)) (2 * w).
Proof.
  intros Hw H i Hi. rewrite Z.lor_spec Z.shiftr_spec // orb_true_iff (H i Hi) (H (i + w)); [|lia]. split.
  - intros [(j & Hj & Hb)|(j & Hj & Hb)]; exists j; (split; [lia|done]).
  - intros (j & Hj & Hb). destruct (Z.lt_ge_cases j (i + w)); [left|right]; exists j; (split; [lia|done]).
Qed.

Lemma smeared_ones y y' : 0 < y < 2 ^ 32 → smeared y y' 32 → y' = Z.ones (Z.log2 y + 1).
Proof.
  intros Hy H. pose proof (Z.log2_nonneg y). pose proof (Z.log2_lt_pow2 y 32 ltac:(lia)) as Hl.
  apply Z.bits_inj'. intros i Hi. rewrite Z.testbit_ones_nonneg; [|lia..].
  apply eq_true_iff_eq. rewrite (H i Hi) Z.ltb_lt. split.
  - intros (j & Hj & Hb). destruct (Z.lt_ge_cases (Z.log2 y) j); [|lia].
    rewrite Z.bits_above_log2 in Hb; [done|lia|lia].
  - intros Hlt. exists (Z.log2 y). split; [lia|]. apply Z.bit_log2. lia.
Qed.

Lemma next_power_of_two_spec x :
  0 ≤ x < 2 ^ 32 →
  next_power_of_two x = if x =? 0 then 1 else if 2 ^ 31 <? x then 0 else 2 ^ Z.log2_up x.
Proof.
  intros Hx. unfold next_power_of_two. destruct (Z.eqb_spec x 0) as [|Hne]; [done|].
  change 2147483648 with (2 ^ 31). destruct (Z.ltb_spec (2 ^ 31) x) as [|Hle]; [done|].
  rewrite (u32_id (x - 1)); [|lia]. destruct (Z.eq_dec x 1) as [->|Hne1]; [done|].
  set (y := x - 1). cbv zeta.
  assert (0 < y < 2 ^ 31) as Hy by (unfold y; lia).
  pose proof (smear_step y _ 1 ltac:(lia) (smear_start y)) as S1.
  pose proof (smear_step y _ 2 ltac:(lia) S1) as S2.
  pose proof (smear_step y _ 4 ltac:(lia) S2) as S4.
  pose proof (smear_step y _ 8 ltac:(lia) S4) as S8.
  pose proof (smear_step y _ 16 ltac:(lia) S8) as S16.
  rewrite (smeared_ones y _ ltac:(lia) S16). rewrite Z.ones_equiv Z.log2_up_eqn; [|lia].
  replace (Z.pred x) with y by (unfold y; lia).
  replace (Z.log2 y + 1) with (Z.succ (Z.log2 y)) by lia. rewrite u32_id; [lia|].
  pose proof (Z.log2_nonneg y). pose proof (Z.log2_lt_pow2 y 31 ltac:(lia)) as Hl.
  assert (2 ^ Z.succ (Z.log2 y) ≤ 2 ^ 31) by (apply Z.pow_le_mono_r; lia).
  assert (0 < 2 ^ Z.succ (Z.log2 y)) by (apply Z.pow_pos_nonneg; lia). lia.
Qed.

(** The loop of [reverse_bits], and what it computes on every byte. *)
Definition rev_step (s : Z * Z) : Z * Z :=
  (u8 (Z.lor (Z.shiftl (fst s) 1) (Z.land (snd s) 1)), Z.shiftr (snd s) 1).
Definition rev8 (x : Z) : Z := fst (Nat.iter 8 rev_step (0, x)).

Lemma reverse_bits_rev8 {U} x : yields (U:=U) (reverse_bits x) (rev8 x).
Proof.
  assert (∀ n lo s, yields (U:=U) (for_n n lo (λ _ '(r, x),
    ret (u8 (Z.lor (Z.shiftl r 1) (Z.land x 1)), Z.shiftr x 1)) s) (Nat.iter n rev_step s)) as H.
  { intros n. induction n as [|n IH]; intros lo s; [apply yields_ret|].
    rewrite Nat.iter_succ_r. destruct s as [r y]. eapply yields_bind; [apply yields_ret|apply IH]. }
  unfold reverse_bits, rev8. eapply yields_bind; [apply H|apply yields_ret].
Qed.

Lemma rev8_spec x :
  0 ≤ x < 256 → 0 ≤ rev8 x < 256 ∧ ∀ i, 0 ≤ i < 8 → Z.testbit (rev8 x) i = Z.testbit x (7 - i).
Proof.
  intros Hx.
  assert (forallb (λ x, (0 <=? rev8 x) && (rev8 x <? 256) &&
    forallb (λ i, Bool.eqb (Z.testbit (rev8 x) i) (Z.testbit x (7 - i))) (seqZ 0 8)) (seqZ 0 256) = true) as H
    by by vm_compute.
  rewrite forallb_forall in H. specialize (H x). rewrite -list_elem_of_In elem_of_seqZ in H.
  specialize (H ltac:(lia)). apply andb_prop in H as [[H1%Z.leb_le H2%Z.ltb_lt]%andb_prop H3].
  split; [lia|]. intros i Hi. rewrite forallb_forall in H3. specialize (H3 i).
  rewrite -list_elem_of_In elem_of_seqZ in H3. apply Bool.eqb_prop, H3. lia.
Qed.

(** ** Theorems *)

(** C7.  The bit idioms.  For a byte [x], setting, clearing and toggling bit [n < 8]
    change that bit and no other, testing reads it, bits 8 to 31 are outside the byte, and
    any other [n] is an undefined shift.  [reverse_bits] mirrors the byte; [popcount]
    terminates and counts the bits that are set; [lowest_set_bit] is the power of two of
    the first one. *)
Theorem bit_idioms_correct {U : Type} :
  (∀ x n, 0 ≤ x < 256 → 0 ≤ n < 32 →
     ∃ s c t, yields (U:=U) (bit_set x n) s ∧ yields (U:=U) (bit_clear x n) c ∧ yields (U:=U) (bit_toggle x n) t ∧
       yields (U:=U) (bit_test x n) (b2z (Z.testbit x n)) ∧
       ∀ i, 0 ≤ i < 8 →
         Z.testbit s i = Z.testbit x i || (i =? n) ∧
         Z.testbit c i = Z.testbit x i && negb (i =? n) ∧
         Z.testbit t i = xorb (Z.testbit x i) (i =? n)) ∧
  (∀ x n, ¬ 0 ≤ n < 32 →
     is_undefined (U:=U) (bit_set x n) ∧ is_undefined (U:=U) (bit_clear x n) ∧
     is_undefined (U:=U) (bit_toggle x n) ∧ is_undefined (U:=U) (bit_test x n)) ∧
  (∀ x, 0 ≤ x < 256 →
     ∃ r, yields (U:=U) (reverse_bits x) r ∧ 0 ≤ r < 256 ∧
       ∀ i, 0 ≤ i < 8 → Z.testbit r i = Z.testbit x (7 - i)) ∧
  (∀ x, 0 ≤ x < 2 ^ 32 → yields (U:=U) (popcount x) (ones x)) ∧
  (∀ x, 0 < x < 2 ^ 32 → ∃ k, 0 ≤ k < 32 ∧ lowest_set_bit x = 2 ^ k ∧ Z.testbit x k = true ∧
     ∀ i, 0 ≤ i < k → Z.testbit x i = false).
Proof.
  split_and!.
  - intros x n Hx Hn. pose proof (shl_1 (U:=U) n Hn) as Hs. do 3 eexists.
    split_and!; [eapply yields_bind; [done|apply yields_ret]..| |].
    + intros w. unfold bit_test, shr, shift_ok. zb; try lia. simpl. unfold ret, bind.
      rewrite (Z.land_ones _ 1) //. by rewrite -Z.bit0_mod Z.shiftr_spec // Z.add_0_l.
    + intros i Hi. rewrite !u8_testbit; [|lia..].
      rewrite Z.lor_spec Z.land_spec Z.lxor_spec u32_testbit; [|lia].
      rewrite Z.lnot_spec; [|lia]. rewrite !Z.pow2_bits_eqb; [|lia].
      rewrite (Z.eqb_sym n i). zb; try lia; by destruct (Z.testbit x i).
  - intros x n Hn. destruct (shift_undefined (U:=U) n 1 Hn) as [H1 _].
    destruct (shift_undefined (U:=U) n x Hn) as [_ H2]. split_and!; by apply undefined_bind.
  - intros x Hx. exists (rev8 x). split; [apply reverse_bits_rev8|by apply rev8_spec].
  - apply popcount_spec.
  - apply lowest_set_bit_spec.
Qed.

(** Powers of two.  [is_power_of_two] decides them; [next_power_of_two] returns the
    least power of two that is not below its argument, 1 for 0, and 0 exactly when that
    power does not fit in 32 bits. *)
Theorem powers_of_two_correct :
  (∀ x, 0 ≤ x < 2 ^ 32 →
     (is_power_of_two x = 1 ↔ ∃ k, 0 ≤ k ∧ x = 2 ^ k) ∧ 0 ≤ is_power_of_two x ≤ 1) ∧
  (∀ x, 0 < x ≤ 2 ^ 31 →
     ∃ k, 0 ≤ k < 32 ∧ next_power_of_two x = 2 ^ k ∧ x ≤ 2 ^ k ∧ ∀ j, 0 ≤ j → x ≤ 2 ^ j → k ≤ j) ∧
  next_power_of_two 0 = 1 ∧
  (∀ x, 2 ^ 31 < x < 2 ^ 32 → next_power_of_two x = 0).
Proof.
  split_and!.
  - apply is_power_of_two_spec.
  - intros x Hx. exists (Z.log2_up x). rewrite next_power_of_two_spec; [|lia]. zb; [lia..|].
    pose proof (Z.log2_up_nonneg x). pose proof (Z.log2_up_le_mono x (2 ^ 31) ltac:(lia)) as Hm.
    rewrite Z.log2_up_pow2 in Hm; [|done]. split_and!; [lia..|done| |].
    + destruct (Z.eq_dec x 1) as [->|]; [done|]. apply Z.log2_up_spec. lia.
    + intros j Hj Hle. apply Z.log2_up_le_mono in Hle. by rewrite Z.log2_up_pow2 in Hle.
  - done.
  - intros x Hx. rewrite next_power_of_two_spec; [|lia]. zb; lia.
Qed.

(** The fields of a packed colour, bit by bit. *)
Lemma field_bits x n w i :
  0 ≤ n → 0 ≤ w → 0 ≤ i → Z.testbit (Z.land (Z.shiftr x n) (Z.ones w)) i = Z.testbit x (i + n) && (i <? w).
Proof. intros Hn Hw Hi. by rewrite Z.land_spec Z.shiftr_spec // Z.testbit_ones_nonneg. Qed.

Lemma pack_bits r g b i :
  0 ≤ i → Z.testbit (rgb565_pack r g b) i =
  if i <? 5 then Z.testbit b i
  else if i <? 11 then Z.testbit g (i - 5)
  else if i <? 16 then Z.testbit r (i - 11) else false.
Proof.
  intros Hi. unfold rgb565_pack, u16.
  change 31 with (Z.ones 5). change 63 with (Z.ones 6).
  rewrite -!(Z.land_ones _ 16) // !Z.land_spec !Z.lor_spec.
  rewrite (Z.testbit_ones_nonneg 16) //. rewrite !Z.land_spec !Z.testbit_ones_nonneg //.
  destruct (Z.lt_ge_cases i 5); [|destruct (Z.lt_ge_cases i 11)].
  - rewrite !Z.shiftl_spec_low; [|lia..]. zb; try lia. by rewrite ?andb_true_r.
  - rewrite (Z.shiftl_spec_low _ 11); [|lia]. rewrite Z.shiftl_spec // !Z.land_spec.
    rewrite !Z.testbit_ones_nonneg; [|lia..]. zb; try lia. by rewrite ?andb_true_r ?andb_false_r ?orb_false_r.
  - rewrite !Z.shiftl_spec // !Z.land_spec. rewrite !Z.testbit_ones_nonneg; [|lia..].
    zb; try lia; by rewrite ?andb_true_r ?andb_false_r ?orb_false_r.
Qed.

(** The RGB565 packing.  Unpacking gives back the low 5, 6 and 5 bits of the three
    components, so all of them when they are in range, and packing the fields of a 16-bit
    colour gives the colour back. *)
Theorem rgb565_roundtrip :
  (∀ r g b, rgb565_r (rgb565_pack r g b) = r mod 2 ^ 5 ∧
            rgb565_g (rgb565_pack r g b) = g mod 2 ^ 6 ∧
            rgb565_b (rgb565_pack r g b) = b mod 2 ^ 5) ∧
  (∀ c, 0 ≤ c < 2 ^ 16 → rgb565_pack (rgb565_r c) (rgb565_g c) (rgb565_b c) = c).
Proof.
  unfold rgb565_r, rgb565_g, rgb565_b. change 31 with (Z.ones 5). change 63 with (Z.ones 6). split.
  - intros r g b. rewrite -!Z.land_ones //.
    split_and!; apply Z.bits_inj'; intros i Hi; rewrite ?field_bits ?Z.land_spec ?Z.testbit_ones_nonneg; try lia;
      (rewrite pack_bits; [|lia]); zb; try lia; rewrite ?andb_false_r ?andb_true_r //; f_equal; lia.
  - intros c Hc. apply Z.bits_inj'. intros i Hi. rewrite pack_bits //.
    rewrite Z.land_spec Z.testbit_ones_nonneg //.
    zb; rewrite ?andb_true_r //; try lia; rewrite ?field_bits; try lia; zb; try lia;
      rewrite ?andb_true_r; try (f_equal; lia).
    destruct (Z.eq_dec c 0) as [->|]; [by rewrite Z.testbit_0_l|].
    rewrite Z.bits_above_log2 //; [lia|]. apply Z.log2_lt_pow2; [lia|].
    apply Z.lt_le_trans with (2 ^ 16); [lia|]. apply Z.pow_le_mono_r; lia.
Qed.

Definition main_text : string := esc (concat_str [
  "=== Bitwise operators ===\n";
  "a   = 10110110  (182)\n"; "b   = 01101101  (109)\n"; "a&b = 00100100  ( 36)  AND\n";
  "a|b = 11111111  (255)  OR\n"; "a^b = 11011011  (219)  XOR\n"; "~a  = 01001001  ( 73)  NOT\n";
  "\n=== Shifts ===\n";
  "x      = 00000001  (1)\n"; "x << 3 = 00001000  (8)  *8\n"; "x << 7 = 10000000  (128)  *128\n";
  "y      = 10000000  (128)\n"; "y >> 1 = 01000000  (64)  /2\n"; "y >> 4 = 00001000  (8)  /16\n";
  "\n=== Set, clear, toggle, test ===\n";
  "initial:  00000000\n"; "set   0:  00000001\n"; "set   3:  00001001\n"; "set   7:  10001001\n";
  "clear 3:  10000001\n"; "toggle 0: 10000000\n"; "test  7:  1\n"; "test  0:  0\n";
  "\n=== Useful tricks ===\n";
  "v                = 00000000_00000000_00000000_10110100  (180)\n";
  "lowest set bit   = 00000000_00000000_00000000_00000100\n";
  "popcount         = 4\n"; "reverse_bits(0xA2) = 0x45\n";
  "\nis_power_of_two:\n";
  "     0 -> no\n"; "     1 -> yes\n"; "     2 -> yes\n"; "     3 -> no\n"; "     4 -> yes\n";
  "    15 -> no\n"; "    16 -> yes\n"; "   255 -> no\n"; "   256 -> yes\n";
  "\nnext_power_of_two:  (0 = result does not fit in uint32_t)\n";
  "     0 -> 1\n"; "     1 -> 1\n"; "     5 -> 8\n"; "     9 -> 16\n"; "    17 -> 32\n";
  "   100 -> 128\n"; "   128 -> 128\n"; "  1000 -> 1024\n"; "  2147483649 -> 0\n";
  "\n=== Struct bitfields ===\n";
  "RGB565 white: r=31 g=63 b=31  sizeof=4\n";
  "FileAttribs: dir=0 read=1 write=1 hidden=0  sizeof=4\n";
  "\n=== Manual packing (RGB565) ===\n";
  "packed   = 0xFA8A\n"; "bits     = 00000000_00000000_11111010_10001010\n"; "r=31 g=20 b=10\n";
  "\n=== XOR swap ===\n";
  "before: p=42 q=99\n"; "after:  p=99 q=42\n"])%string.

(** [xor_swap] exchanges two values, and [main] prints what it announces. *)
Lemma xor_swap_spec p q : xor_swap p q = (q, p).
Proof.
  unfold xor_swap. f_equal; apply Z.bits_inj'; intros i _; rewrite !Z.lxor_spec;
    by destruct (Z.testbit p i), (Z.testbit q i).
Qed.

Lemma bits_main_correct {U} : runs (U:=U) main (λ r e, r = 0 ∧ stdout e = main_text ∧ stderr e = ""%string) False.
Proof. run_program. Qed.
