(* ===== verification/Enums.v ===== *)
(** * Exercise 34: enums in depth

    Model of [exercises/34_enums/enums.c]: the tables generated by the X-macros,
    sentinel values, the dispatch table, and the connection state machine, as a
    program and as a relation. *)

From S2P Require Import Prelude Machine CString Double Printf SepLogic Pure.
#[local] Open Scope Z_scope.

Section enums.
Context {U : Type}.

(** An array that is indexed by an enum: out of its bounds is undefined. *)
Definition index {A} (tbl : list A) (i : Z) : M U A :=
  if i <? 0 then undefined
  else match tbl !! Z.to_nat i with Some a => ret a | None => undefined end.

(** ** X-macros *)

Inductive Colour := RED | GREEN | BLUE | WHITE | BLACK | COLOUR_COUNT.

Definition Colour_int (c : Colour) : Z :=
  match c with RED => 0 | GREEN => 1 | BLUE => 2 | WHITE => 3 | BLACK => 4 | COLOUR_COUNT => 5 end.

(** The value of an [int] as a colour, for the loops over the enum. *)
Definition Colour_of (z : Z) : Colour :=
  nth (Z.to_nat z) [RED; GREEN; BLUE; WHITE; BLACK] COLOUR_COUNT.

Definition colour_name : list string := ["red"; "green"; "blue"; "white"; "black"].
Definition colour_hex : list Z := [16711680; 65280; 255; 16777215; 0].

Definition colour_from_name (s : string) : M U Colour :=
  loop 6 (λ c,
    if c <? Colour_int COLOUR_COUNT then
      n <- index colour_name c ;;
      if strcmp n s =? 0 then ret (inr (Colour_of c)) else ret (inl (c + 1))
    else ret (inr COLOUR_COUNT)) 0.

(** ** Sentinels *)

Inductive Direction := NORTH | SOUTH | EAST | WEST | DIRECTION_COUNT.

Definition Direction_int (d : Direction) : Z :=
  match d with NORTH => 0 | SOUTH => 1 | EAST => 2 | WEST => 3 | DIRECTION_COUNT => 4 end.

Definition dir_name : list string := ["NORTH"; "SOUTH"; "EAST"; "WEST"].
Definition dir_opposite : list Direction := [SOUTH; NORTH; WEST; EAST].

Definition direction_valid (d : Z) : Z := b2z (u32 d <? Direction_int DIRECTION_COUNT).

(** ** The dispatch table *)

Inductive Op := OP_ADD | OP_SUB | OP_MUL | OP_DIV | OP_COUNT.

Definition Op_int (o : Op) : Z :=
  match o with OP_ADD => 0 | OP_SUB => 1 | OP_MUL => 2 | OP_DIV => 3 | OP_COUNT => 4 end.

Definition op_symbol : list string := ["+"; "-"; "*"; "/"].

Definition do_add (a b : double) : double := d_add a b.
Definition do_sub (a b : double) : double := d_sub a b.
Definition do_mul (a b : double) : double := d_mul a b.
Definition do_div (a b : double) : double := if negb (d_eq b d_zero) then d_div a b else d_zero.

Definition op_fn : list (double → double → double) := [do_add; do_sub; do_mul; do_div].

(** [abort()], which a failed [assert] calls: the status of a process killed by
    SIGABRT. *)
Definition abort {A} : M U A := exit 134.

Definition apply (op : Z) (a b : double) : M U double :=
  if u32 op <? Op_int OP_COUNT then f <- index op_fn op ;; ret (f a b) else abort.

(** ** The state machine *)

Inductive ConnState :=
  | STATE_IDLE | STATE_CONNECTING | STATE_CONNECTED | STATE_CLOSING | STATE_CLOSED | STATE_COUNT.
Inductive ConnEvent := EVT_CONNECT | EVT_OPEN | EVT_SEND | EVT_CLOSE | EVT_ERROR | EVT_COUNT.

#[export] Instance ConnState_eq_dec : EqDecision ConnState.
Proof. solve_decision. Defined.
#[export] Instance ConnEvent_eq_dec : EqDecision ConnEvent.
Proof. solve_decision. Defined.

Definition ConnState_int (s : ConnState) : Z :=
  match s with
  | STATE_IDLE => 0 | STATE_CONNECTING => 1 | STATE_CONNECTED => 2 | STATE_CLOSING => 3
  | STATE_CLOSED => 4 | STATE_COUNT => 5
  end.
Definition ConnEvent_int (e : ConnEvent) : Z :=
  match e with
  | EVT_CONNECT => 0 | EVT_OPEN => 1 | EVT_SEND => 2 | EVT_CLOSE => 3 | EVT_ERROR => 4 | EVT_COUNT => 5
  end.

Definition state_name : list string := ["IDLE"; "CONNECTING"; "CONNECTED"; "CLOSING"; "CLOSED"].
Definition event_name : list string := ["CONNECT"; "OPEN"; "SEND"; "CLOSE"; "ERROR"].

Definition NO_TRANS : ConnState := STATE_COUNT.

(** The rows in the order of the states, the columns in the order of the events. *)
Definition transitions : list (list ConnState) := [
  (*                CONNECT           OPEN             SEND             CLOSE          ERROR        *)
  (* IDLE *)       [STATE_CONNECTING; NO_TRANS;        NO_TRANS;        NO_TRANS;      STATE_CLOSED];
  (* CONNECTING *) [NO_TRANS;         STATE_CONNECTED; NO_TRANS;        NO_TRANS;      STATE_CLOSED];
  (* CONNECTED *)  [NO_TRANS;         NO_TRANS;        STATE_CONNECTED; STATE_CLOSING; STATE_CLOSED];
  (* CLOSING *)    [NO_TRANS;         NO_TRANS;        NO_TRANS;        STATE_CLOSED;  STATE_CLOSED];
  (* CLOSED *)     [NO_TRANS;         NO_TRANS;        NO_TRANS;        NO_TRANS;      NO_TRANS]].

(** [sm_step(&state, evt)]: the new state and the result. *)
Definition sm_step (state : ConnState) (evt : ConnEvent) : M U (ConnState * Z) :=
  row <- index transitions (ConnState_int state) ;;
  next <- index row (ConnEvent_int evt) ;;
  if decide (next = NO_TRANS) then
    s <- index state_name (ConnState_int state) ;;
    e <- index event_name (ConnEvent_int evt) ;;
    printf "  invalid transition: %s + %s\n" [AStr s; AStr e] ;;;
    ret (state, 0)
  else
    s <- index state_name (ConnState_int state) ;;
    e <- index event_name (ConnEvent_int evt) ;;
    n <- index state_name (ConnState_int next) ;;
    printf "  %s + %s -> %s\n" [AStr s; AStr e; AStr n] ;;;
    ret (next, 1).

(** ** [main] *)

Definition main_colours : M U unit :=
  printf "=== X-macro: Colour tables ===\n" [] ;;;
  printf "COLOUR_COUNT = %d\n" [AInt (Colour_int COLOUR_COUNT)] ;;;
  for_range 0 (Colour_int COLOUR_COUNT) (λ c _,
    n <- index colour_name c ;;
    h <- index colour_hex c ;;
    printf "  [%d] %-6s  #%06X\n" [AInt c; AStr n; AInt h]) tt ;;;
  found <- colour_from_name "blue" ;;
  n <- (if Colour_int found <? Colour_int COLOUR_COUNT then index colour_name (Colour_int found)
        else ret "not found"%string) ;;
  printf "colour_from_name(\qblue\q) = %d (%s)\n" [AInt (Colour_int found); AStr n] ;;;
  missing <- colour_from_name "purple" ;;
  n <- (if Colour_int missing =? Colour_int COLOUR_COUNT then ret "not found"%string
        else index colour_name (Colour_int missing)) ;;
  printf "colour_from_name(\qpurple\q) = %s\n" [AStr n].

Definition main_directions : M U unit :=
  printf "\n=== Sentinel: Direction ===\n" [] ;;;
  printf "DIRECTION_COUNT = %d\n" [AInt (Direction_int DIRECTION_COUNT)] ;;;
  for_range 0 (Direction_int DIRECTION_COUNT) (λ d _,
    n <- index dir_name d ;;
    o <- index dir_opposite d ;;
    m <- index dir_name (Direction_int o) ;;
    printf "  opposite(%s) = %s\n" [AStr n; AStr m]) tt ;;;
  printf "direction_valid(1) = %d\n" [AInt (direction_valid 1)] ;;;
  printf "direction_valid(9) = %d\n" [AInt (direction_valid 9)].

Definition main_dispatch : M U unit :=
  printf "\n=== Dispatch table: Op ===\n" [] ;;;
  let a := d_of_Z 10 in
  let b := d_of_Z 4 in
  for_range 0 (Op_int OP_COUNT) (λ op _,
    s <- index op_symbol op ;;
    r <- apply op a b ;;
    printf "  %.0f %s %.0f = %g\n" [ADbl a; AStr s; ADbl b; ADbl r]) tt.

Definition sequence : list ConnEvent :=
  [EVT_CONNECT; EVT_OPEN; EVT_SEND; EVT_SEND; EVT_CLOSE; EVT_CLOSE].

Definition main_machine : M U unit :=
  printf "\n=== State machine: connection lifecycle ===\n" [] ;;;
  let state := STATE_IDLE in
  n <- index state_name (ConnState_int state) ;;
  printf "initial state: %s\n" [AStr n] ;;;
  state <- for_list sequence (λ e state, r <- sm_step state e ;; ret (fst r)) state ;;
  n <- index state_name (ConnState_int state) ;;
  printf "final state: %s\n" [AStr n] ;;;
  printf "\nInvalid transition demo:\n" [] ;;;
  sm_step STATE_IDLE EVT_SEND ;;;
  ret tt.

Definition main : M U Z :=
  main_colours ;;; main_directions ;;; main_dispatch ;;; main_machine ;;; ret 0.
End enums.

(** ** The connection as a relation *)

(** The transitions the comments of the source call valid. *)
Inductive conn_step : ConnState → ConnEvent → ConnState → Prop :=
  | step_connect : conn_step STATE_IDLE EVT_CONNECT STATE_CONNECTING
  | step_open : conn_step STATE_CONNECTING EVT_OPEN STATE_CONNECTED
  | step_send : conn_step STATE_CONNECTED EVT_SEND STATE_CONNECTED
  | step_close : conn_step STATE_CONNECTED EVT_CLOSE STATE_CLOSING
  | step_closed : conn_step STATE_CLOSING EVT_CLOSE STATE_CLOSED
  | step_error s : s ≠ STATE_CLOSED → s ≠ STATE_COUNT → conn_step s EVT_ERROR STATE_CLOSED.

(** The states of the machine proper, without the sentinel. *)
Definition valid_state (s : ConnState) : Prop := s ≠ STATE_COUNT.
Definition valid_event (e : ConnEvent) : Prop := e ≠ EVT_COUNT.

Definition s_name (s : ConnState) : string := nth (Z.to_nat (ConnState_int s)) state_name "".
Definition e_name (e : ConnEvent) : string := nth (Z.to_nat (ConnEvent_int e)) event_name "".

(** A run: events that are all accepted. *)
Inductive conn_run : ConnState → list ConnEvent → ConnState → Prop :=
  | run_nil s : conn_run s [] s
  | run_cons s e s1 es s2 : conn_step s e s1 → conn_run s1 es s2 → conn_run s (e :: es) s2.

#[export] Hint Constructors conn_step conn_run : core.

(** The histories of a connection, by its state. *)
Definition opened (n : nat) : list ConnEvent := EVT_CONNECT :: EVT_OPEN :: replicate n EVT_SEND.

Definition history (s : ConnState) (es : list ConnEvent) : Prop :=
  match s with
  | STATE_IDLE => es = []
  | STATE_CONNECTING => es = [EVT_CONNECT]
  | STATE_CONNECTED => ∃ n, es = opened n
  | STATE_CLOSING => ∃ n, es = opened n ++ [EVT_CLOSE]
  | STATE_CLOSED =>
      (∃ n, es = opened n ++ [EVT_CLOSE; EVT_CLOSE]) ∨ es = [EVT_ERROR] ∨ es = [EVT_CONNECT; EVT_ERROR] ∨
      (∃ n, es = opened n ++ [EVT_ERROR]) ∨ (∃ n, es = opened n ++ [EVT_CLOSE; EVT_ERROR])
  | STATE_COUNT => False
  end.

Lemma conn_run_snoc s es s1 e s2 : conn_run s es s1 → conn_step s1 e s2 → conn_run s (es ++ [e]) s2.
Proof. induction 1; simpl; eauto. Qed.

Lemma conn_run_app s es1 s1 es2 s2 :
  conn_run s es1 s1 → conn_run s1 es2 s2 → conn_run s (es1 ++ es2) s2.
Proof. induction 1; simpl; eauto. Qed.

Lemma run_inv_snoc s es e s2 : conn_run s (es ++ [e]) s2 → ∃ s1, conn_run s es s1 ∧ conn_step s1 e s2.
Proof.
  revert s. induction es as [|e' es IH]; intros s H; inversion H as [|? ? s1 ? ? Hs Hr]; subst.
  - inversion Hr; subst. eauto.
  - destruct (IH _ Hr) as (s3 & ? & ?). eauto.
Qed.

Lemma conn_step_history s e s' es : history s es → conn_step s e s' → history s' (es ++ [e]).
Proof.
  intros H Hs. destruct Hs as [| | | | |s Hc Hn]; cbn [history] in *; subst; try done.
  - by exists 0%nat.
  - destruct H as [n ->]. exists (S n). unfold opened. simpl. by rewrite -replicate_S_end.
  - destruct H as [n ->]. by exists n.
  - destruct H as [n ->]. left. exists n. by rewrite -app_assoc.
  - destruct s; cbn [history] in H; try done; subst; auto.
    + right; right; right; left. destruct H as [n ->]. by exists n.
    + right; right; right; right. destruct H as [n ->]. exists n. by rewrite -app_assoc.
Qed.

Lemma run_opened n : conn_run STATE_IDLE (opened n) STATE_CONNECTED.
Proof.
  unfold opened. do 2 (eapply run_cons; [constructor|]). induction n as [|n IH]; simpl; eauto.
Qed.

Lemma history_run s es : history s es ↔ conn_run STATE_IDLE es s.
Proof.
  split.
  - assert (∀ n es s, conn_run STATE_CONNECTED es s → conn_run STATE_IDLE (opened n ++ es) s) as Ho.
    { intros n l s'. apply conn_run_app, run_opened. }
    destruct s; simpl.
    + intros ->. auto.
    + intros ->. eauto.
    + intros [n ->]. apply run_opened.
    + intros [n ->]. apply Ho. eauto.
    + intros [[n ->]|[->|[->|[[n ->]|[n ->]]]]]; try apply Ho; repeat (econstructor; try done).
    + done.
  - revert s. induction es as [|e es IH] using rev_ind; intros s H.
    + inversion H; subst. done.
    + apply run_inv_snoc in H as (s1 & H1 & H2). by eapply conn_step_history; [apply IH|].
Qed.

(** ** Theorems *)

Lemma strcmp_ne a b : a ≠ b → (strcmp a b =? 0) = false.
Proof. intros H. apply Z.eqb_neq. by rewrite strcmp_eq. Qed.

(** The scan of a string that is no colour. *)
Lemma colour_absent {U} s : s ∉ colour_name → yields (U:=U) (colour_from_name s) COLOUR_COUNT.
Proof.
  intros Hs. unfold colour_from_name.
  assert (∀ i n, 0 ≤ i < 5 → colour_name !! Z.to_nat i = Some n →
    yields (U:=U) (if i <? Colour_int COLOUR_COUNT then
      n <- index colour_name i ;;
      if strcmp n s =? 0 then ret (inr (Colour_of i)) else ret (inl (i + 1))
    else ret (inr COLOUR_COUNT)) (inl (i + 1))) as H.
  { intros i n Hi Hn w. change (Colour_int COLOUR_COUNT) with 5. destruct (Z.ltb_spec i 5); [|lia].
    unfold index, bind. destruct (Z.ltb_spec i 0); [lia|]. rewrite Hn. unfold ret at 1.
    rewrite strcmp_ne; [done|]. intros ->. destruct Hs. by eapply list_elem_of_lookup_2. }
  do 5 (eapply (writes_loop_again _ _ _ _ _ [] []); [by eapply H|]).
  by apply writes_loop_done.
Qed.

(** The enum tables.  The names and the colours correspond one to one:
    [colour_from_name] inverts [colour_name] and answers the sentinel exactly for the
    strings that are no colour.  [direction_valid] accepts exactly the four directions
    among all values of [int], the opposite of a direction is another one, whose
    opposite it is, and [apply] calls its operation for the four valid values, division
    by zero giving 0, and aborts for all others. *)
Theorem enum_tables_correct {U : Type} :
  (∀ c s, colour_name !! Z.to_nat (Colour_int c) = Some s → yields (U:=U) (colour_from_name s) c) ∧
  (∀ s, s ∉ colour_name → yields (U:=U) (colour_from_name s) COLOUR_COUNT) ∧
  (∀ d, INT_MIN ≤ d ≤ INT_MAX → direction_valid d = b2z (bool_decide (0 ≤ d < 4))) ∧
  (∀ d, d ≠ DIRECTION_COUNT → ∃ o, dir_opposite !! Z.to_nat (Direction_int d) = Some o ∧ o ≠ d ∧
     dir_opposite !! Z.to_nat (Direction_int o) = Some d) ∧
  (∀ a b, yields (U:=U) (apply 0 a b) (d_add a b) ∧ yields (U:=U) (apply 1 a b) (d_sub a b) ∧
     yields (U:=U) (apply 2 a b) (d_mul a b) ∧
     yields (U:=U) (apply 3 a b) (if d_eq b d_zero then d_zero else d_div a b)) ∧
  (∀ op a b w, INT_MIN ≤ op ≤ INT_MAX → ¬ 0 ≤ op < 4 → apply (U:=U) op a b w = Exit 134 [] w).
Proof.
  assert (∀ d, INT_MIN ≤ d ≤ INT_MAX → (u32 d <? 4) = bool_decide (0 ≤ d < 4)) as Hu.
  { intros d Hd. unfold INT_MIN, INT_MAX, u32 in *. destruct (Z.lt_ge_cases d 0) as [Hneg|Hpos].
    - rewrite bool_decide_false; [|lia]. rewrite -(Z_mod_plus_full d 1). rewrite Z.mod_small; [|lia].
      apply Z.ltb_ge. lia.
    - rewrite Z.mod_small; [|lia]. apply eq_true_iff_eq. rewrite bool_decide_eq_true Z.ltb_lt. lia. }
  split_and!.
  - intros c s Hs. destruct c; simplify_eq/=; by vm_compute.
  - apply colour_absent.
  - intros d Hd. unfold direction_valid. by rewrite Hu.
  - intros []; try done; intros _; eexists; repeat split; by vm_compute.
  - intros a b. split_and!; try done. intros w. change (apply 3 a b w) with (Ret (do_div a b) [] w).
    unfold do_div. by destruct (d_eq b d_zero).
  - intros op a b w Hop Hn. unfold apply. change (Op_int OP_COUNT) with 4. rewrite Hu // bool_decide_false //.
Qed.

(** The text [sm_step] prints. *)
Definition step_text (s : ConnState) (e : ConnEvent) (s' : ConnState) : string :=
  ("  " +:+ s_name s +:+ " + " +:+ e_name e +:+ " -> " +:+ s_name s' +:+ String nl "")%string.
Definition invalid_text (s : ConnState) (e : ConnEvent) : string :=
  ("  invalid transition: " +:+ s_name s +:+ " + " +:+ e_name e +:+ String nl "")%string.

(** The table implements the relation.  For every state and event, [sm_step]
    either performs the transition of the relation, which is unique, reports it and
    returns 1, or leaves the state alone, reports an invalid transition and returns 0,
    exactly when the relation has none; the sentinels are outside the tables. *)
Theorem sm_step_correct {U : Type} (s : ConnState) (e : ConnEvent) :
  (∀ s', conn_step s e s' → valid_state s → writes (U:=U) (sm_step s e) (s', 1) [Out (step_text s e s')]) ∧
  (valid_state s → valid_event e → (∀ s', ¬ conn_step s e s') →
     writes (U:=U) (sm_step s e) (s, 0) [Out (invalid_text s e)]) ∧
  (∀ s' s'', conn_step s e s' → conn_step s e s'' → s' = s'') ∧
  (¬ (valid_state s ∧ valid_event e) → is_undefined (U:=U) (sm_step s e)).
Proof.
  split_and!.
  - intros s1 H Hs. destruct H as [| | | | |s Hc Hn]; try by vm_compute. destruct s; first [congruence|by vm_compute].
  - intros Hs He Hnone.
    destruct s, e; try done; try (by vm_compute); exfalso; eapply Hnone; by constructor.
  - intros s' s'' H1 H2. destruct H1; inversion H2; congruence.
  - intros Hn. destruct s, e; try (by vm_compute); destruct Hn; done.
Qed.

(** The events of [es] are accepted one after the other by [sm_step]. *)
Fixpoint accepted {U : Type} (s : ConnState) (es : list ConnEvent) (s' : ConnState) : Prop :=
  match es with
  | [] => s = s'
  | e :: es' => ∃ s1 o, writes (U:=U) (sm_step s e) (s1, 1) o ∧ accepted (U:=U) s1 es' s'
  end.

Lemma sm_step_accepts {U} s e s1 :
  (∃ o, writes (U:=U) (sm_step s e) (s1, 1) o) ↔ conn_step s e s1.
Proof.
  split.
  - intros [o H]. specialize (H (empty_world some_allocator)).
    destruct s, e; vm_compute in H; simplify_eq; by constructor.
  - intros H. destruct H as [| | | | |t Hc Hn]; [..|destruct t; try congruence];
      eexists; intros w; vm_compute; reflexivity.
Qed.

Lemma accepted_run {U} s es s' : accepted (U:=U) s es s' ↔ conn_run s es s'.
Proof.
  revert s. induction es as [|e es IH]; intros s; simpl.
  - split; [by intros ->|]. by inversion 1.
  - split.
    + intros (s1 & o & Hs & Hr). eapply run_cons; [apply (sm_step_accepts (U:=U)); by exists o|by apply IH].
    + inversion 1; subst. edestruct (sm_step_accepts (U:=U)) as [_ [o Ho]]; [done|].
      do 2 eexists. split; [done|]. by apply IH.
Qed.

(** C8.  The life of a connection.  The sequences of events that [sm_step] accepts from
    IDLE, by the state they lead to, are exactly those the protocol intends: in particular
    data is only sent on an open connection, between OPEN and the first CLOSE, and nothing
    is accepted after CLOSED.  From every state the connection can still be closed, with at
    most one event. *)
Theorem connection_lifecycle {U : Type} :
  (∀ s es, accepted (U:=U) STATE_IDLE es s ↔ history s es) ∧
  (∀ es s, accepted (U:=U) STATE_CLOSED es s → es = [] ∧ s = STATE_CLOSED) ∧
  (∀ es s, accepted (U:=U) STATE_IDLE (es ++ [EVT_SEND]) s → ∃ n, es = opened n ∧ s = STATE_CONNECTED) ∧
  (∀ s, valid_state s → ∃ es, (length es ≤ 1)%nat ∧ accepted (U:=U) s es STATE_CLOSED).
Proof.
  split_and!.
  - intros s es. by rewrite accepted_run history_run.
  - intros es s H%accepted_run. inversion H as [|? ? ? ? ? Hs]; subst; [done|]. by inversion Hs.
  - intros es s (s1 & H1 & H2)%accepted_run%run_inv_snoc. inversion H2; subst.
    apply history_run in H1 as [n ->]. by exists n.
  - intros s Hs. destruct (decide (s = STATE_CLOSED)) as [->|Hc].
    + exists []. split; [simpl; lia|done].
    + exists [EVT_ERROR]. split; [simpl; lia|]. apply accepted_run.
      eapply run_cons; [by apply step_error|constructor].
Qed.

Definition main_text : string := esc (concat_str [
  "=== X-macro: Colour tables ===\n"; "COLOUR_COUNT = 5\n";
  "  [0] red     #FF0000\n"; "  [1] green   #00FF00\n"; "  [2] blue    #0000FF\n";
  "  [3] white   #FFFFFF\n"; "  [4] black   #000000\n";
  "colour_from_name(\qblue\q) = 2 (blue)\n"; "colour_from_name(\qpurple\q) = not found\n";
  "\n=== Sentinel: Direction ===\n"; "DIRECTION_COUNT = 4\n";
  "  opposite(NORTH) = SOUTH\n"; "  opposite(SOUTH) = NORTH\n"; "  opposite(EAST) = WEST\n";
  "  opposite(WEST) = EAST\n"; "direction_valid(1) = 1\n"; "direction_valid(9) = 0\n";
  "\n=== Dispatch table: Op ===\n";
  "  10 + 4 = 14\n"; "  10 - 4 = 6\n"; "  10 * 4 = 40\n"; "  10 / 4 = 2.5\n";
  "\n=== State machine: connection lifecycle ===\n"; "initial state: IDLE\n";
  "  IDLE + CONNECT -> CONNECTING\n"; "  CONNECTING + OPEN -> CONNECTED\n";
  "  CONNECTED + SEND -> CONNECTED\n"; "  CONNECTED + SEND -> CONNECTED\n";
  "  CONNECTED + CLOSE -> CLOSING\n"; "  CLOSING + CLOSE -> CLOSED\n"; "final state: CLOSED\n";
  "\nInvalid transition demo:\n"; "  invalid transition: IDLE + SEND\n"])%string.

Lemma enums_main_correct {U} :
  runs (U:=U) main (λ r e, r = 0 ∧ stdout e = main_text ∧ stderr e = ""%string) False.
Proof. run_program. Qed.
