(* ===== verification/ErrorHandling.v ===== *)
(** * Exercise 20: error handling

    Model of [exercises/20_error_handling/error_handling.c]: return codes, [errno],
    propagation, the cleanup label of [process_file], [setjmp] and [longjmp], and the
    custom error type.  [errno] and the file system are one global object; an open
    [FILE] is an object of the heap, so that a file left open is a leak.  A file is any
    sequence of bytes.  What the system refuses (to open, to create or to read a file, to
    write more of it than there is room for) is part of the global object; the texts of
    [strerror] are the C library's: they are a parameter. *)

From S2P Require Import Prelude Machine CString Double Printf Text SepLogic Pure.
#[local] Open Scope Z_scope.

(** ** The C library *)

(** What the system does with the files: the error it gives when one is opened, created or
    read, if it does, and the number of bytes there is room for. *)
Record system := {
  open_error : string → option Z; create_error : string → option Z; read_error : string → option Z; room : string → nat }.

(** A system that refuses nothing. *)
Definition willing : system := {| open_error _ := None; create_error _ := None; read_error _ := None; room _ := Z.to_nat (2 ^ 20) |}.

(** [errno] and the contents of the files, by name. *)
Record Glob := { errno : Z; fs : gmap string string; sys : system }.
Definition set_errno_f (n : Z) (g : Glob) : Glob := {| errno := n; fs := fs g; sys := sys g |}.
Definition set_fs (f : gmap string string) (g : Glob) : Glob := {| errno := errno g; fs := f; sys := sys g |}.

(** An open file: its name, and what is left to read or the text written so far. *)
Inductive FILE := Reading (path rest : string) | Writing (path text : string).

(** A buffer is its bytes, as far as they have been written. *)
Inductive obj := Raw | OGlob (g : Glob) | OFile (f : FILE) | OBuf (bs : bytes) | OInt (v : option Z).

#[export] Instance obj_glob : Prism obj Glob :=
  {| to_obj := OGlob; of_obj o := match o with OGlob g => Some g | _ => None end; of_to_obj _ := eq_refl |}.
#[export] Instance obj_file : Prism obj FILE :=
  {| to_obj := OFile; of_obj o := match o with OFile f => Some f | _ => None end; of_to_obj _ := eq_refl |}.
#[export] Instance obj_buf : Prism obj bytes :=
  {| to_obj := OBuf; of_obj o := match o with OBuf s => Some s | _ => None end; of_to_obj _ := eq_refl |}.
#[export] Instance obj_int : Prism obj Z :=
  {| to_obj v := OInt (Some v); of_obj o := match o with OInt v => v | _ => None end; of_to_obj _ := eq_refl |}.

(** The values Linux gives to the error codes. *)
Definition EPERM : Z := 1.
Definition ENOENT : Z := 2.
Definition EIO : Z := 5.
Definition ENOMEM : Z := 12.
Definition EINVAL : Z := 22.
Definition ERANGE : Z := 34.

Section program.
Context (strerror : Z → string) (g : ptr).

Definition set_errno (n : Z) : M obj unit := update g (set_errno_f n).
Definition get_errno : M obj Z := t <- load g ;; ret (errno t).

(** [strtol(s, &end, 10)]; ERANGE when the value is out of range. *)
Definition c_strtol (s : string) : M obj (Z * string) :=
  let '(v, rest, over) := strtol s in
  (if over : bool then set_errno ERANGE else ret tt) ;;; ret (v, rest).

(** [fopen(path, "r")]: the stream itself is allocated. *)
Definition fopen_r (path : string) : M obj ptr :=
  t <- load g ;;
  match open_error (sys t) path, fs t !! path with
  | Some e, _ => set_errno e ;;; ret NULL
  | None, None => set_errno ENOENT ;;; ret NULL
  | None, Some text =>
      f <- malloc (OFile (Reading path text)) ;;
      match f with None => set_errno ENOMEM ;;; ret NULL | Some _ => ret f end
  end.

Definition fopen_w (path : string) : M obj ptr :=
  t <- load g ;;
  match create_error (sys t) path with
  | Some e => set_errno e ;;; ret NULL
  | None =>
      f <- malloc (OFile (Writing path "")) ;;
      match f with
      | None => set_errno ENOMEM ;;; ret NULL
      | Some _ => update g (λ t, set_fs (<[path := ""%string]> (fs t)) t) ;;; ret f
      end
  end.

Definition fputs (f : ptr) (s : string) : M obj unit :=
  t <- load f ;;
  match t with
  | Writing path text => store f (Writing path (text +:+ s)%string)
  | Reading _ _ => undefined
  end.

Definition fclose (f : ptr) : M obj unit :=
  t <- load f ;;
  match t with
  | Writing path text => update g (λ t, set_fs (<[path := take_str (room (sys t) path) text]> (fs t)) t)
  | Reading _ _ => ret tt
  end ;;;
  free f.

(** [fgets(buf, n, f)]: one line, at most [n - 1] bytes, and a NUL; 0 at the end of the file
    and when it cannot be read. *)
Definition fgets (buf : ptr) (n : nat) (f : ptr) : M obj Z :=
  t <- load f ;;
  match t with
  | Writing _ _ => undefined
  | Reading path text =>
      w <- load g ;;
      match read_error (sys w) path, text with
      | Some e, _ => set_errno e ;;; ret 0
      | None, ""%string => ret 0
      | None, _ =>
          let len := Nat.min (S (strcspn nl text)) (n - 1) in
          store buf (bytes_of (take_str len text) ++ ["000"%char]) ;;;
          store f (Reading path (drop_str len text)) ;;;
          ret 1
      end
  end.

(** ** Return codes *)

Definition parse_int (s : option string) (out : ptr) : M obj Z :=
  match s with
  | None | Some "" => set_errno EINVAL ;;; ret (-1)
  | Some s =>
      set_errno 0 ;;;
      let* (val, rest) := c_strtol s in
      e <- get_errno ;;
      if negb (e =? 0) then ret (-1)
      else if negb (String.eqb rest "") then set_errno EINVAL ;;; ret (-1)
      else store out (to_int val) ;;; ret 0
  end.

(** [if (parse_int(s, &result) == -1) printf(...)] *)
Definition show_parse_error (s : string) (fmt : string) (result : ptr) : M obj unit :=
  r <- parse_int (Some s) result ;;
  if r =? -1 then e <- get_errno ;; printf fmt [AStr (strerror e)] else ret tt.

Definition section_return_codes : M obj unit :=
  printf "=== 1. Return codes ===\n" [] ;;;
  result <- local (OInt None) ;;
  r <- parse_int (Some "42") result ;;
  (if r =? 0 then v <- load result ;; printf "parse_int(\q42\q)  -> %d\n" [AInt v] else ret tt) ;;;
  show_parse_error "abc" "parse_int(\qabc\q) -> error: %s\n" result ;;;
  show_parse_error "" "parse_int(\q\q)    -> error: %s\n" result ;;;
  show_parse_error "3x7" "parse_int(\q3x7\q) -> error: %s\n" result ;;;
  printf "\n" [] ;;;
  free result.

(** ** [errno] *)

Definition section_errno : M obj unit :=
  printf "=== 2. errno / perror / strerror ===\n" [] ;;;
  f <- fopen_r "/tmp/does_not_exist_xyzzy_12345.txt" ;;
  match f with
  | None =>
      e <- get_errno ;;
      printf "errno value : %d\n" [AInt e] ;;;
      printf "strerror    : %s\n" [AStr (strerror e)] ;;;
      printf "(perror would print): fopen failed: %s\n" [AStr (strerror e)]
  | Some _ => ret tt
  end ;;;
  set_errno 0 ;;;
  printf "\nCommon errno constants:\n" [] ;;;
  printf "  EPERM  = %d  (operation not permitted)\n" [AInt EPERM] ;;;
  printf "  ENOENT = %d  (no such file or directory)\n" [AInt ENOENT] ;;;
  printf "  EINVAL = %d  (invalid argument)\n" [AInt EINVAL] ;;;
  printf "  ENOMEM = %d  (out of memory)\n" [AInt ENOMEM] ;;;
  printf "  ERANGE = %d  (result out of range)\n" [AInt ERANGE] ;;;
  printf "\n" [].

(** ** Propagation *)

Definition read_config_value (key : string) (out : ptr) : M obj Z :=
  if strcmp key "port" =? 0 then store out 8080 ;;; ret 0
  else if strcmp key "timeout" =? 0 then store out 30 ;;; ret 0
  else set_errno ENOENT ;;; ret (-1).

Definition load_config (port timeout : ptr) : M obj Z :=
  r <- read_config_value "port" port ;;
  if negb (r =? 0) then ret (-1)
  else
    r <- read_config_value "timeout" timeout ;;
    if negb (r =? 0) then ret (-1) else ret 0.

Definition start_server : M obj Z :=
  port <- local (OInt None) ;;
  timeout <- local (OInt None) ;;
  r <- load_config port timeout ;;
  rc <- (if negb (r =? 0) then ret (-1)
         else
           p <- load port ;;
           t <- load timeout ;;
           printf "Server started on port %d (timeout=%ds)\n" [AInt p; AInt t] ;;;
           ret 0) ;;
  free port ;;;
  free timeout ;;;
  ret rc.

Definition section_propagation : M obj unit :=
  printf "=== 3. Error propagation ===\n" [] ;;;
  r <- start_server ;;
  (if r =? 0 then printf "start_server(): OK\n" []
   else e <- get_errno ;; printf "start_server(): failed — %s\n" [AStr (strerror e)]) ;;;
  printf "\n" [].

(** ** The cleanup label *)

(** [buf[len - 1] = '\0'] when it is a newline; [strlen] stops at the first NUL. *)
Definition strip_newline (buf : bytes) : bytes :=
  let len := String.length (text buf) in
  if (0 <? len)%nat then
    match buf !! (len - 1)%nat with
    | Some c => if Ascii.eqb c nl then <[(len - 1)%nat := "000"%char]> buf else buf
    | None => buf
    end
  else buf.

(** The statements before the label give the values of [rc] and [buf] there. *)
Definition process_file (path : string) : M obj Z :=
  in_ <- fopen_r path ;;
  let* (rc, buf) :=
    match in_ with
    | None => ret (-1, NULL)
    | Some _ =>
        buf <- malloc Raw ;;
        match buf with
        | None => set_errno ENOMEM ;;; ret (-1, NULL)
        | Some _ =>
            r <- fgets buf 256 in_ ;;
            if r =? 0 then set_errno EIO ;;; ret (-1, buf)
            else
              s <- load buf ;;
              store buf (strip_newline s) ;;;
              s <- load buf ;;
              printf "First line: \q%s\q\n" [AStr (text s)] ;;;
              ret (0, buf)
        end
    end in
  (* cleanup: *)
  free buf ;;;
  match in_ with Some _ => fclose in_ | None => ret tt end ;;;
  ret rc.

Definition section_goto_cleanup : M obj unit :=
  printf "=== 4. goto cleanup pattern ===\n" [] ;;;
  let tmp := "/tmp/ex20_sample.txt"%string in
  f <- fopen_w tmp ;;
  match f with
  | Some _ => fputs f (esc "hello from exercise 20\n") ;;; fclose f
  | None => ret tt
  end ;;;
  r <- process_file tmp ;;
  (if negb (r =? 0) then e <- get_errno ;; printf "process_file(%s): %s\n" [AStr tmp; AStr (strerror e)]
   else ret tt) ;;;
  r <- process_file "/tmp/no_such_file_ex20.txt" ;;
  (if negb (r =? 0) then e <- get_errno ;; printf "process_file(missing): %s\n" [AStr (strerror e)]
   else ret tt) ;;;
  update g (λ t, set_fs (delete tmp (fs t)) t) ;;;
  printf "\n" [].

(** ** [setjmp] and [longjmp]

    A function that may jump answers [inl code] when it calls [longjmp(ctx, code)];
    what follows it is then skipped up to the [setjmp]. *)

Definition ERR_DIV_ZERO : Z := 1.
Definition ERR_NEG_SQRT : Z := 2.

Definition risky_divide (a b : Z) : M obj (Z + unit) :=
  if b =? 0 then ret (inl ERR_DIV_ZERO)
  else
    q <- int_chk (Z.quot a b) ;;
    printf "  %d / %d = %d\n" [AInt a; AInt b; AInt q] ;;;
    ret (inr tt).

(** [for (int i = 0; i < 20; i++) r = (r + x/r) / 2;] *)
Definition isqrt_newton (x : Z) : M obj Z :=
  for_range 0 20 (λ _ r,
    if r =? 0 then undefined else s <- int_chk (r + Z.quot x r) ;; ret (Z.quot s 2)) x.

Definition risky_sqrt_approx (x : Z) : M obj (Z + unit) :=
  if x <? 0 then ret (inl ERR_NEG_SQRT)
  else if x =? 0 then printf "  sqrt(0) = 0\n" [] ;;; ret (inr tt)
  else
    r <- isqrt_newton x ;;
    printf "  isqrt(%d) = %d\n" [AInt x; AInt r] ;;;
    ret (inr tt).

(** [m; k], where [m] may jump. *)
Definition unless_jump {A} (m : M obj (Z + unit)) (k : M obj (Z + A)) : M obj (Z + A) :=
  r <- m ;; match r with inl code => ret (inl code) | inr _ => k end.

Definition section_setjmp : M obj unit :=
  printf "=== 5. setjmp / longjmp ===\n" [] ;;;
  jumped <- unless_jump (risky_divide 10 2)
    (unless_jump (risky_sqrt_approx 144)
      (unless_jump (risky_divide 7 0)
        (printf "  (never reached)\n" [] ;;; ret (inr tt)))) ;;
  match jumped with
  | inl err =>
      let msg := if err =? ERR_DIV_ZERO then "division by zero"%string
                 else if err =? ERR_NEG_SQRT then "negative sqrt"%string else "unknown error"%string in
      printf "  [longjmp caught] error %d: %s\n" [AInt err; AStr msg] ;;;
      printf "\n" []
  | inr _ => ret tt
  end.

Definition section_setjmp_neg : M obj unit :=
  printf "=== 5b. setjmp / longjmp (negative sqrt) ===\n" [] ;;;
  jumped <- unless_jump (risky_sqrt_approx 25)
    (unless_jump (risky_sqrt_approx (-4))
      (printf "  (never reached)\n" [] ;;; ret (inr tt))) ;;
  match jumped with
  | inl err =>
      printf "  [longjmp caught] error %d: %s\n"
        [AInt err; AStr (if err =? ERR_NEG_SQRT then "negative sqrt" else "unknown")] ;;;
      printf "\n" []
  | inr _ => ret tt
  end.

(** ** The custom error type *)

Inductive ErrCode := OK | ERR_NULL_ARG | ERR_PARSE | ERR_RANGE | ERR_ALLOC.

Definition err_str (e : ErrCode) : string :=
  match e with
  | OK => "OK"
  | ERR_NULL_ARG => "null argument"
  | ERR_PARSE => "parse error"
  | ERR_RANGE => "out of range"
  | ERR_ALLOC => "allocation failed"
  end.

Definition parse_percent (s : option string) (out : ptr) : M obj ErrCode :=
  match s, out with
  | Some s, Some _ =>
      set_errno 0 ;;;
      let* (val, rest) := c_strtol s in
      e <- get_errno ;;
      if negb (e =? 0) || String.eqb rest s then ret ERR_PARSE
      else if negb (String.eqb rest "%") then ret ERR_PARSE
      else if (val <? 0) || (100 <? val) then ret ERR_RANGE
      else store out (to_int val) ;;; ret OK
  | _, _ => ret ERR_NULL_ARG
  end.

Definition cases : list string := ["75%"; "0%"; "100%"; "101%"; "abc"; "50"].

Definition section_custom_errors : M obj unit :=
  printf "=== 6. Custom error type ===\n" [] ;;;
  for_list cases (λ s _,
    v <- local (OInt None) ;;
    e <- parse_percent (Some s) v ;;
    match e with
    | OK => n <- load v ;; printf "  parse_percent(\q%-5s\q) = %d\n" [AStr s; AInt n]
    | _ => printf "  parse_percent(\q%-5s\q) -> %s\n" [AStr s; AStr (err_str e)]
    end ;;;
    free v) tt ;;;
  printf "\n" [].

Definition main_body : M obj Z :=
  section_return_codes ;;;
  section_errno ;;;
  section_propagation ;;;
  section_goto_cleanup ;;;
  section_setjmp ;;;
  section_setjmp_neg ;;;
  section_custom_errors ;;;
  ret 0.
End program.

(** The program, started with [errno] 0 and the files [files]. *)
Definition main (strerror : Z → string) (sys : system) (files : gmap string string) : M obj Z :=
  g <- local (OGlob {| errno := 0; fs := files; sys := sys |}) ;;
  r <- main_body strerror g ;;
  free g ;;;
  ret r.

(** ** Specifications *)

(** [strtol] on the numeral of any integer: the value, clamped to [long]. *)
Definition clamp_long (z : Z) : Z := if z <? LONG_MIN then LONG_MIN else if LONG_MAX <? z then LONG_MAX else z.

Lemma strtol_dec_any z rest :
  starts_with_digit rest = false →
  strtol (dec z +:+ rest)%string = (clamp_long z, rest, negb (in_long z)).
Proof.
  intros Hrest. unfold dec, clamp_long, in_long. destruct (Z.ltb_spec z 0).
  - destruct (scan_numeral (- z) rest ltac:(lia) Hrest) as [Hs Hd].
    unfold strtol. rewrite string_app_cons.
    set (s := (numeral false 10 (- z) +:+ rest)%string) in *.
    change (skip_space (String "-"%char s)) with (String "-"%char s).
    cbv beta iota zeta delta [Ascii.eqb Bool.eqb]. rewrite Hd Hs Z.opp_involutive.
    unfold LONG_MIN, LONG_MAX. by zb; try lia.
  - destruct (scan_numeral z rest ltac:(lia) Hrest) as [Hs Hd].
    destruct (starts_digit_no_space _ Hd) as [Hsk (c & s' & Hcs & Hm & Hp)].
    unfold strtol. rewrite Hsk Hcs.
    destruct (Ascii.eqb_spec c "-"%char); [done|].
    destruct (Ascii.eqb_spec c "+"%char); [done|].
    rewrite -Hcs Hd Hs. unfold LONG_MIN, LONG_MAX. by zb; try lia.
Qed.

Lemma dec_cons z rest : ∃ c s, (dec z +:+ rest)%string = String c s.
Proof.
  unfold dec. destruct (z <? 0); [by do 2 eexists|].
  unfold numeral. simpl. destruct (z <? 10).
  - by do 2 eexists.
  - rewrite digits_aux_app. destruct (digits_aux _ _ _ _ _); by do 2 eexists.
Qed.

Lemma dec_app_ne z rest : (dec z +:+ rest)%string ≠ rest.
Proof.
  destruct (dec_cons z "") as (c & s & E). rewrite string_app_nil_r in E. rewrite E string_app_cons.
  intros H. apply (f_equal String.length) in H. simpl in H. rewrite string_app_length in H. lia.
Qed.

(** What [parse_int] answers: the result, the value written to [out], [errno]. *)
Definition parse_int_result (s : option string) : Z * option Z * Z :=
  match s with
  | None | Some "" => (-1, None, EINVAL)
  | Some s =>
      let '(v, rest, over) := strtol s in
      if over : bool then (-1, None, ERANGE)
      else if String.eqb rest "" then (0, Some (to_int v), 0) else (-1, None, EINVAL)
  end%string.

Definition parse_percent_result (s : option string) : ErrCode * option Z :=
  match s with
  | None => (ERR_NULL_ARG, None)
  | Some s =>
      let '(v, rest, over) := strtol s in
      if over || String.eqb rest s || negb (String.eqb rest "%") then (ERR_PARSE, None)
      else if ((v <? 0) || (100 <? v))%Z then (ERR_RANGE, None) else (OK, Some v)
  end%string.

(** Clients: one call, and what it leaves in [out] and in [errno]. *)
Definition peek (p : ptr) : M obj (option Z) :=
  o <- load_obj p ;; match o with OInt v => ret v | _ => undefined end.

Definition parse_int_session (s : option string) (e0 : Z) : M obj (Z * option Z * Z) :=
  g <- local (OGlob {| errno := e0; fs := ∅; sys := willing |}) ;;
  out <- local (OInt None) ;;
  r <- parse_int g s out ;;
  v <- peek out ;;
  e <- get_errno g ;;
  free out ;;; free g ;;;
  ret (r, v, e).

Definition parse_percent_session (s : option string) : M obj (ErrCode * option Z) :=
  g <- local (OGlob {| errno := 0; fs := ∅; sys := willing |}) ;;
  out <- local (OInt None) ;;
  r <- parse_percent g s out ;;
  v <- peek out ;;
  free out ;;; free g ;;;
  ret (r, v).

Definition process_session (sys : system) (files : gmap string string) (path : string) : M obj (Z * Z * gmap string string) :=
  g <- local (OGlob {| errno := 0; fs := files; sys := sys |}) ;;
  rc <- process_file g path ;;
  t <- load g ;;
  free g ;;;
  ret (rc, errno t, fs t).

(** The first line of a file as a text: up to its first newline or NUL, at most 255 bytes. *)
Definition first_line (text : string) : string :=
  take_str (Nat.min 255 (Nat.min (strcspn nl text) (strcspn "000"%char text))) text.

Lemma strip_cons c bs : c ≠ "000"%char → c ≠ nl → strip_newline (c :: bs) = c :: strip_newline bs.
Proof.
  intros H0 Hn. unfold strip_newline. cbn [text]. destruct (Ascii.eqb_spec c "000"%char); [done|]. cbn [String.length].
  change (0 <? S (String.length (text bs)))%nat with true. cbv iota. destruct (String.length (text bs)) as [|len] eqn:E; cbn [Nat.sub lookup list_lookup].
  - destruct (Ascii.eqb_spec c nl); [done|]. done.
  - change (0 <? S len)%nat with true. cbv iota. rewrite Nat.sub_0_r. destruct (bs !! len) as [d|]; [|done]. by destruct (Ascii.eqb d nl).
Qed.

(** What is in the buffer after [fgets] and the removal of the newline. *)
Lemma stripped_line n t : text (strip_newline (bytes_of (take_str (Nat.min (S (strcspn nl t)) n) t) ++ ["000"%char])) =
  take_str (Nat.min n (Nat.min (strcspn nl t) (strcspn "000"%char t))) t.
Proof.
  unfold bytes_of. revert n. induction t as [|c t IH]; intros n; [by destruct n|]. cbn [strcspn].
  destruct n as [|n]; [done|]. rewrite -Nat.succ_min_distr. cbn [take_str list_ascii_of_string app].
  destruct (Ascii.eqb_spec c nl) as [->|Hn]; [done|]. destruct (Ascii.eqb_spec c "000"%char) as [->|H0]; [by rewrite Nat.min_0_r|].
  rewrite strip_cons // -!Nat.succ_min_distr. cbn [text take_str]. destruct (Ascii.eqb_spec c "000"%char); [done|]. by rewrite IH.
Qed.

Section wp.
Context (mf : bool) (X : Z → Prop).

Lemma wp_c_strtol g gl s (Q : Z * string → list ev → hpropI obj) :
  let '(v, rest, over) := strtol s in
  g ↦ OGlob gl -∗
  (g ↦ OGlob (if over : bool then set_errno_f ERANGE gl else gl) -∗ Q (v, rest) []) -∗
  wp mf X (c_strtol (Some g) s) Q.
Proof.
  unfold c_strtol. destruct (strtol s) as [[v rest] [|]]; iIntros "Hg HQ"; wp_step; unfold set_errno; wp_run;
    by iApply "HQ".
Qed.

Lemma wp_parse_int g gl s o x (Q : Z → list ev → hpropI obj) :
  let '(rc, v, e) := parse_int_result s in
  g ↦ OGlob gl -∗ o ↦ OInt x -∗
  (g ↦ OGlob (set_errno_f e gl) -∗ o ↦ OInt (match v with Some v => Some v | None => x end) -∗ Q rc []) -∗
  wp mf X (parse_int (Some g) s (Some o)) Q.
Proof.
  destruct s as [[|c s]|]; cbn [parse_int parse_int_result].
  1,3: iIntros "Hg Ho HQ"; unfold set_errno; wp_run; iApply ("HQ" with "Hg Ho").
  pose proof (wp_c_strtol g (set_errno_f 0 gl) (String c s)) as H.
  destruct (strtol (String c s)) as [[v rest] [|]]; [|destruct (String.eqb rest "") eqn:Er];
    iIntros "Hg Ho HQ"; unfold set_errno; do 3 wp_step;
    iApply (H with "Hg"); iIntros "Hg"; unfold get_errno; wp_run; cbn [errno set_errno_f Z.eqb negb ERANGE];
    rewrite ?Er; cbn [negb]; unfold set_errno; wp_run; iApply ("HQ" with "Hg Ho").
Qed.

Lemma wp_parse_percent g gl s o x (Q : ErrCode → list ev → hpropI obj) :
  let '(rc, v) := parse_percent_result s in
  g ↦ OGlob gl -∗ o ↦ OInt x -∗
  (∀ e, g ↦ OGlob (set_errno_f e gl) -∗ o ↦ OInt (match v with Some v => Some v | None => x end) -∗ Q rc []) -∗
  wp mf X (parse_percent (Some g) s (Some o)) Q.
Proof.
  destruct s as [s|]; cbn [parse_percent parse_percent_result].
  2:{ iIntros "Hg Ho HQ". wp_step. by iApply ("HQ" $! (errno gl) with "[Hg] Ho"); destruct gl. }
  pose proof (wp_c_strtol g (set_errno_f 0 gl) s) as H.
  destruct (strtol s) as [[v rest] over].
  destruct over; [|destruct (String.eqb rest s) eqn:E1; [|destruct (String.eqb rest "%") eqn:E2;
    [destruct ((v <? 0) || (100 <? v)) eqn:E3|]]];
    cbn [orb negb]; rewrite ?E3; iIntros "Hg Ho HQ"; unfold set_errno; do 3 wp_step;
    iApply (H with "Hg"); iIntros "Hg"; unfold get_errno; wp_run; cbn [errno set_errno_f Z.eqb negb ERANGE orb];
    rewrite ?E1 ?E2 ?E3; cbn [negb orb]; rewrite ?E3; wp_run; try by iApply ("HQ" with "Hg Ho").
  apply orb_false_elim in E3 as [?%Z.ltb_ge ?%Z.ltb_ge]. rewrite to_int_id; [|unfold INT_MIN, INT_MAX; lia].
  by iApply ("HQ" with "Hg Ho").
Qed.

Lemma wp_peek o x (Q : option Z → list ev → hpropI obj) :
  o ↦ OInt x -∗ (o ↦ OInt x -∗ Q x []) -∗ wp mf X (peek (Some o)) Q.
Proof.
  iIntros "Ho HQ". unfold peek. wp_step. iApply (wp_load_obj with "Ho"). iIntros "Ho". wp_step.
  by iApply "HQ".
Qed.

Lemma wp_parse_int_session s e0 :
  ⊢ wp mf X (parse_int_session s e0) (λ a o, ⌈a = parse_int_result s ∧ o = []⌉).
Proof.
  iStartProof. unfold parse_int_session. wp_step. iApply wp_local. iIntros (g) "Hg".
  wp_step. iApply wp_local. iIntros (o) "Ho". wp_step.
  pose proof (wp_parse_int g {| errno := e0; fs := ∅; sys := willing |} s o None) as H.
  destruct (parse_int_result s) as [[rc v] e]. iApply (H with "Hg Ho"). iIntros "Hg Ho".
  wp_step. iApply (wp_peek with "Ho"). iIntros "Ho". unfold get_errno. wp_run. iPureIntro.
  by destruct v.
Qed.

Lemma wp_parse_percent_session s :
  ⊢ wp mf X (parse_percent_session s) (λ a o, ⌈a = parse_percent_result s ∧ o = []⌉).
Proof.
  iStartProof. unfold parse_percent_session. wp_step. iApply wp_local. iIntros (g) "Hg".
  wp_step. iApply wp_local. iIntros (o) "Ho". wp_step.
  pose proof (wp_parse_percent g {| errno := 0; fs := ∅; sys := willing |} s o None) as H.
  destruct (parse_percent_result s) as [rc v]. iApply (H with "Hg Ho"). iIntros (e) "Hg Ho".
  wp_step. iApply (wp_peek with "Ho"). iIntros "Ho". wp_run. iPureIntro. by destruct v.
Qed.

(** *** Files *)

Lemma wp_fopen_r g gl path (Q : ptr → list ev → hpropI obj) :
  g ↦ OGlob gl -∗
  (∀ f e, g ↦ OGlob (set_errno_f e gl) -∗
     match f with
     | None => ⌈open_error (sys gl) path = Some e ∨ open_error (sys gl) path = None ∧
                 ((fs gl !! path = None ∧ e = ENOENT) ∨ (is_Some (fs gl !! path) ∧ mf = true ∧ e = ENOMEM))⌉
     | Some l => ∃ text, ⌈open_error (sys gl) path = None ∧ fs gl !! path = Some text ∧ e = errno gl⌉ ∗ l ↦ OFile (Reading path text)
     end -∗ Q f []) -∗
  wp mf X (fopen_r (Some g) path) Q.
Proof.
  iIntros "Hg HQ". unfold fopen_r. do 2 wp_step. destruct (open_error (sys gl) path) as [e|] eqn:Ee.
  { unfold set_errno. wp_run. iApply ("HQ" $! None e with "Hg"). iPureIntro. by left. }
  destruct (fs gl !! path) as [text|] eqn:E.
  - wp_step. iApply wp_malloc. iIntros ([l|]) "%Hp Hl".
    + wp_step. iApply ("HQ" $! (Some l) (errno gl) with "[Hg]"); [by destruct gl|]. iExists text. by iFrame.
    + unfold set_errno. wp_run. iApply ("HQ" $! None ENOMEM with "Hg"). iPureIntro. right. split; [done|]. right. eauto.
  - unfold set_errno. wp_run. iApply ("HQ" $! None ENOENT with "Hg"). iPureIntro. right. auto.
Qed.

Lemma wp_fclose_reading g gl f path rest (Q : unit → list ev → hpropI obj) :
  g ↦ OGlob gl -∗ f ↦ OFile (Reading path rest) -∗ (g ↦ OGlob gl -∗ Q tt []) -∗
  wp mf X (fclose (Some g) (Some f)) Q.
Proof. iIntros "Hg Hf HQ". unfold fclose. wp_run. by iApply "HQ". Qed.

(** What [process_file] answers, by the system, the file and the reason it gives up. *)
Definition process_result (sys : system) (path : string) (file : option string) (rc e e0 : Z) (out : string) : Prop :=
  match open_error sys path, file with
  | Some n, _ => rc = -1 ∧ e = n ∧ out = ""%string
  | None, None => rc = -1 ∧ e = ENOENT ∧ out = ""%string
  | None, Some text =>
      (rc = 0 ∧ read_error sys path = None ∧ text ≠ ""%string ∧ e = e0 ∧
         out = ("First line: " +:+ String dquote (first_line text) +:+ String dquote (String nl ""))%string) ∨
      (rc = -1 ∧ (is_Some (read_error sys path) ∨ text = ""%string) ∧ e = EIO ∧ out = ""%string) ∨
      (rc = -1 ∧ mf = true ∧ e = ENOMEM ∧ out = ""%string)
  end.

Lemma wp_process_file g gl path (Q : Z → list ev → hpropI obj) :
  g ↦ OGlob gl -∗
  (∀ rc e o, ⌈process_result (sys gl) path (fs gl !! path) rc e (errno gl) (stdout o)⌉ -∗
     ⌈stderr o = ""%string⌉ -∗ g ↦ OGlob (set_errno_f e gl) -∗ Q rc o) -∗
  wp mf X (process_file (Some g) path) Q.
Proof.
  iIntros "Hg HQ". unfold process_file. wp_step. iApply (wp_fopen_r with "Hg").
  iIntros ([f|] e) "Hg H"; wp_step.
  - iDestruct "H" as (text (Ho & Hf & ->)) "Hl". rewrite /process_result Ho Hf.
    wp_step. iApply wp_malloc. iIntros ([b|]) "%Hb Hb".
    + wp_step. unfold fgets, set_errno. repeat wp_step. cbn [sys set_errno_f]. destruct (read_error _ path) as [e|] eqn:Er; [|destruct text as [|c text]];
        repeat (wp_step; cbn [app Z.eqb]).
      * iApply (wp_fclose_reading with "Hg Hl"). iIntros "Hg". wp_run.
        iApply ("HQ" with "[] [] Hg"); [|done]. iPureIntro. right. left. eauto.
      * iApply (wp_fclose_reading with "Hg Hl"). iIntros "Hg". wp_run.
        iApply ("HQ" with "[] [] Hg"); [|done]. iPureIntro. right. left. auto.
      * iApply (wp_fclose_reading with "Hg Hl"). iIntros "Hg". wp_run.
        iApply ("HQ" $! 0 (errno gl) with "[] [] [Hg]"); [|done|by destruct gl]. iPureIntro. left.
        split_and!; try done. rewrite stripped_line /first_line. cbn [stdout]. unfold fmt_str, fpad. simpl. by str_norm.
    + unfold set_errno. wp_run. iApply (wp_fclose_reading with "Hg Hl"). iIntros "Hg". wp_run.
      iApply ("HQ" with "[] [] Hg"); [|done]. iPureIntro. right. right. auto.
  - wp_run. iDestruct "H" as %H. iApply ("HQ" with "[] [] Hg"); [|done]. iPureIntro. unfold process_result.
    destruct H as [Ho|(Ho & [[-> ->]|([text ->] & ? & ->)])]; rewrite Ho; [done..|]. right. right. auto.
Qed.
End wp.

(** *** Newton's method *)

Definition newton (x r : Z) : Z := (r + x / r) / 2.

(** One step never goes below the root, and the distance [d] to it becomes at most
    [(d^2 + 2s) / (2(s + d))]. *)
Lemma newton_step x s r c :
  s * s ≤ x → x ≤ s * s + c → 1 ≤ s ≤ r →
  s ≤ newton x r ∧ newton x r - s ≤ ((r - s) * (r - s) + c) / (2 * r).
Proof.
  intros Hlo Hhi Hr. unfold newton.
  pose proof (Z.div_mod x r ltac:(lia)) as Hx. pose proof (Z.mod_pos_bound x r ltac:(lia)) as Hm.
  set (q := x / r) in *. split.
  - apply Z.div_le_lower_bound; [lia|]. nia.
  - apply Z.div_le_lower_bound; [lia|].
    pose proof (Z.mul_div_le (r + q) 2 ltac:(lia)). nia.
Qed.

(** For all roots [s >= a] at once: a bound [T / Q] of the quotient [d / s], rounded
    up, after one more step. *)
Definition Q : Z := 2 ^ 32.
Definition ratio_step (a T : Z) : Z := (T * T * a + 2 * Q * Q) / (2 * a * (Q + T)) + 1.

Definition near (s d T : Z) : Prop := d ≤ 1 ∨ d * Q ≤ T * s.

Lemma near_step a s d T c :
  1 ≤ a ≤ s → 0 ≤ d → 0 ≤ T → 0 ≤ c ≤ 2 * s → near s d T →
  near s ((d * d + c) / (2 * (s + d))) (ratio_step a T).
Proof.
  intros Has Hd HT Hc [H1|HdT].
  { left. apply Z.div_le_upper_bound; nia. }
  destruct (Z.le_gt_cases d 1) as [H1|H1]; [left; apply Z.div_le_upper_bound; nia|right].
  pose proof (Z.mul_div_le (d * d + c) (2 * (s + d)) ltac:(lia)) as Hq.
  set (q := (d * d + c) / (2 * (s + d))) in *.
  assert (0 ≤ q) by (apply Z.div_pos; nia).
  assert (q ≤ d) by (apply Z.div_le_upper_bound; nia).
  assert (0 < Q) as HQ by done.
  (* the bound with the real quotient [T / Q] in place of [d / s] *)
  assert (2 * (Q + T) * (q * Q) ≤ T * T * s + 2 * Q * Q) as Hreal.
  { apply (Z.mul_le_mono_pos_l _ _ s); [lia|].
    assert (2 * (s + d) * q * (Q * Q) ≤ (d * d + 2 * s) * (Q * Q)) by (apply Z.mul_le_mono_nonneg_r; nia).
    set (e := T * s - d * Q) in *. assert (0 ≤ e) by lia. assert (T * s = d * Q + e) as ET by lia.
    replace (s * (2 * (Q + T) * (q * Q))) with (2 * (s * Q + T * s) * (q * Q)) by ring.
    replace (s * (T * T * s + 2 * Q * Q)) with (T * s * (T * s) + 2 * s * (Q * Q)) by ring.
    rewrite ET. assert (e * (q * Q) ≤ e * (d * Q)) by (apply Z.mul_le_mono_nonneg_l; nia). nia. }
  unfold ratio_step. set (D := 2 * a * (Q + T)). set (R := (T * T * a + 2 * Q * Q) / D + 1).
  assert (0 < D) by (unfold D; nia).
  assert (T * T * a + 2 * Q * Q ≤ D * R) as HR.
  { unfold R. pose proof (Z.mod_pos_bound (T * T * a + 2 * Q * Q) D ltac:(lia)).
    pose proof (Z.div_mod (T * T * a + 2 * Q * Q) D ltac:(lia)). lia. }
  assert (0 ≤ R). { unfold R. assert (0 ≤ (T * T * a + 2 * Q * Q) / D) by (apply Z.div_pos; nia). lia. }
  apply (Z.mul_le_mono_pos_l _ _ (2 * (Q + T) * a)); [nia|].
  assert (2 * (Q + T) * (q * Q) * a ≤ (T * T * s + 2 * Q * Q) * a) by (apply Z.mul_le_mono_nonneg_r; lia).
  assert ((T * T * a + 2 * Q * Q) * s ≤ D * R * s) by (apply Z.mul_le_mono_nonneg_r; lia).
  assert (2 * Q * Q * a ≤ 2 * Q * Q * s) by (apply Z.mul_le_mono_nonneg_l; lia).
  unfold D in *. lia.
Qed.

(** The iterates from [r]: never below the root, and within the bound of it. *)
Lemma newton_iter n a x s r T c :
  1 ≤ a ≤ s → s * s ≤ x → x ≤ s * s + c → 0 ≤ c ≤ 2 * s → s ≤ r → near s (r - s) T → 0 ≤ T →
  s ≤ Nat.iter n (newton x) r ∧ near s (Nat.iter n (newton x) r - s) (Nat.iter n (ratio_step a) T).
Proof.
  intros Ha Hlo Hhi Hc. revert r T. induction n as [|n IH]; intros r T Hr HT HT0; [done|].
  rewrite !Nat.iter_succ_r. destruct (newton_step x s r c Hlo Hhi ltac:(lia)) as [H1 H2].
  assert (0 ≤ ratio_step a T).
  { unfold ratio_step. assert (0 < Q) by done.
    assert (0 ≤ (T * T * a + 2 * Q * Q) / (2 * a * (Q + T))) by (apply Z.div_pos; nia). lia. }
  apply IH; [done| |done].
  pose proof (near_step a s (r - s) T c Ha ltac:(lia) HT0 Hc HT) as Hn.
  replace (s + (r - s)) with r in Hn by lia. destruct Hn as [Hn|Hn]; [left; lia|right].
  assert (0 < Q) by done. nia.
Qed.

(** The roots of the integers of 31 bits, in blocks from [a] to [2a]: nineteen steps bring the
    bound below two roots. *)
Definition block_end (a : Z) : Z := Z.min (2 * a) 46340.

Lemma blocks_ok k :
  1 ≤ k ≤ 15 →
  Nat.iter 19 (ratio_step (2 ^ k - 1)) ((block_end (2 ^ k - 1) + 1) * Q) * block_end (2 ^ k - 1) < 2 * Q.
Proof.
  intros Hk. apply Z.ltb_lt.
  assert (k = 1 ∨ k = 2 ∨ k = 3 ∨ k = 4 ∨ k = 5 ∨ k = 6 ∨ k = 7 ∨ k = 8 ∨ k = 9 ∨ k = 10 ∨ k = 11 ∨
          k = 12 ∨ k = 13 ∨ k = 14 ∨ k = 15) as H by lia.
  repeat destruct H as [->|H]; subst; by vm_compute.
Qed.

(** The final bound is below two roots, so the distance is at most one. *)
Lemma near_final s b d T : 1 ≤ s ≤ b → near s d T → T * b < 2 * Q → d ≤ 1.
Proof.
  intros Hs [H|H] HT; [done|]. assert (0 < Q) by done.
  assert (0 < T ∨ T ≤ 0) as [HT0|HT0] by lia; nia.
Qed.

(** The first iterate, [x] itself. *)
Lemma near_start x s b c : 1 ≤ s ≤ b → s * s ≤ x → x ≤ s * s + c → c ≤ 2 * s → s ≤ x ∧ near s (x - s) ((b + 1) * Q).
Proof.
  intros Hs Hlo Hhi Hc. split; [nia|]. right. assert (0 < Q) as HQ by done. revert HQ. generalize Q. intros q Hq.
  assert (x - s ≤ (b + 1) * s) by nia. nia.
Qed.

Lemma newton_block a b x s c :
  1 ≤ a ≤ s → s ≤ b → Nat.iter 19 (ratio_step a) ((b + 1) * Q) * b < 2 * Q →
  s * s ≤ x → x ≤ s * s + c → 0 ≤ c ≤ 2 * s →
  s ≤ Nat.iter 19 (newton x) x ≤ s + 1.
Proof.
  intros Ha Hb Hok Hlo Hhi Hc. destruct (near_start x s b c) as [Hsx Hnx]; [lia..|].
  assert (0 ≤ (b + 1) * Q) as H0. { assert (0 < Q) by done. nia. }
  pose proof (newton_iter 19 a x s x ((b + 1) * Q) c Ha Hlo Hhi Hc Hsx Hnx H0) as [Hl Hn].
  revert Hl Hn Hok. generalize (Nat.iter 19 (newton x) x), (Nat.iter 19 (ratio_step a) ((b + 1) * Q)).
  intros y T Hl Hn Hok. split; [done|]. pose proof (near_final s b _ _ ltac:(lia) Hn Hok). lia.
Qed.

Lemma newton_converges x s c :
  1 ≤ s ≤ 46340 → s * s ≤ x → x ≤ s * s + c → 0 ≤ c ≤ 2 * s →
  s ≤ Nat.iter 19 (newton x) x ≤ s + 1.
Proof.
  intros Hs Hlo Hhi Hc. pose proof (Z.log2_spec (s + 1) ltac:(lia)) as Hk.
  assert (1 ≤ Z.log2 (s + 1) ≤ 15) as Hk15.
  { split; [apply (Z.log2_le_mono 2); lia|]. apply Z.lt_succ_r, Z.log2_lt_pow2; [lia|]. simpl. lia. }
  rewrite Z.pow_succ_r in Hk; [|lia].
  assert (2 ^ 1 ≤ 2 ^ Z.log2 (s + 1)) as H1 by (apply Z.pow_le_mono_r; lia).
  assert (1 ≤ 2 ^ Z.log2 (s + 1) - 1 ≤ s) as H2 by lia.
  assert (s ≤ block_end (2 ^ Z.log2 (s + 1) - 1)) as H3 by (unfold block_end; lia).
  pose proof (blocks_ok _ Hk15) as Hok. 
  exact (newton_block _ _ x s c H2 H3 Hok Hlo Hhi Hc).
Qed.

Lemma sqrt_int_range x : 1 ≤ x ≤ INT_MAX →
  1 ≤ Z.sqrt x ≤ 46340 ∧ Z.sqrt x * Z.sqrt x ≤ x ≤ Z.sqrt x * Z.sqrt x + 2 * Z.sqrt x.
Proof.
  intros Hx. pose proof (Z.sqrt_spec x ltac:(lia)) as Hq. pose proof (Z.sqrt_nonneg x).
  unfold INT_MAX in Hx. cbv zeta in Hq. generalize dependent (Z.sqrt x). intros s Hq Hs. unfold Z.succ in Hq.
  assert (1 ≤ s) by nia. assert (s ≤ 46340) by (destruct (Z.le_gt_cases s 46340); [done|nia]). nia.
Qed.

(** One more step from a distance of at most one. *)
Lemma newton_last x s r :
  1 ≤ s → s * s ≤ x → x ≤ s * s + 2 * s → s ≤ r ≤ s + 1 →
  s ≤ newton x r ≤ s + 1 ∧ (x < s * s + 2 * s → newton x r = s).
Proof.
  intros Hs Hlo Hhi Hr.
  assert (∀ c d, 0 ≤ d ≤ 1 → 0 ≤ c → c ≤ 2 * s → (d * d + c) / (2 * (s + d)) ≤ 1) as Hle.
  { intros c d ???. apply Z.div_le_upper_bound; nia. }
  destruct (newton_step x s r (2 * s)) as [H1 H2]; [lia..|].
  split.
  - specialize (Hle (2 * s) (r - s)). replace (s + (r - s)) with r in Hle by lia. lia.
  - intros Hx. destruct (newton_step x s r (2 * s - 1)) as [_ H3]; [lia..|].
    assert (((r - s) * (r - s) + (2 * s - 1)) / (2 * r) < 1); [|lia].
    apply Z.div_lt_upper_bound; nia.
Qed.

Lemma isqrt_result x :
  1 ≤ x ≤ INT_MAX →
  Z.sqrt x ≤ Nat.iter 20 (newton x) x ≤ Z.sqrt x + 1 ∧
  ((∀ k, x + 1 ≠ k * k) → Nat.iter 20 (newton x) x = Z.sqrt x).
Proof.
  intros Hx. destruct (sqrt_int_range x Hx) as [Hs [Hlo Hhi]].
  pose proof (newton_converges x (Z.sqrt x) (2 * Z.sqrt x) Hs Hlo Hhi ltac:(lia)) as H19.
  assert (∀ f : Z → Z, Nat.iter 20 f x = f (Nat.iter 19 f x)) as E by done.
  rewrite E. revert H19. generalize (Nat.iter 19 (newton x) x). intros r H19.
  destruct (newton_last x (Z.sqrt x) r) as [H1 H2]; [lia..|]. split; [done|].
  intros Hk. apply H2. specialize (Hk (Z.sqrt x + 1)). lia.
Qed.

Lemma isqrt_newton_run x :
  1 ≤ x < INT_MAX → yields (isqrt_newton x) (Nat.iter 20 (newton x) x).
Proof.
  intros Hx.
  assert (∀ n lo r, 1 ≤ r ≤ x → yields (U:=obj) (for_n n lo (λ _ r, if r =? 0 then undefined
     else s <- int_chk (r + Z.quot x r) ;; ret (Z.quot s 2)) r) (Nat.iter n (newton x) r)) as H.
  { intros n. induction n as [|n IH]; intros lo r Hr; [apply yields_ret|].
    rewrite Nat.iter_succ_r. eapply yields_bind; [|apply IH].
    - destruct (Z.eqb_spec r 0); [lia|]. rewrite Z.quot_div_nonneg; [|lia..].
      pose proof (Z.div_le_upper_bound x r (x + 1 - r) ltac:(lia) ltac:(nia)) as Hq.
      pose proof (Z.div_pos x r ltac:(lia) ltac:(lia)).
      eapply yields_bind; [apply yields_int_chk; unfold INT_MIN; lia|].
      rewrite Z.quot_div_nonneg; [|lia..]. apply yields_ret.
    - unfold newton.
      pose proof (Z.div_le_upper_bound x r (x + 1 - r) ltac:(lia) ltac:(nia)) as Hq.
      assert (1 ≤ x / r) by (apply Z.div_le_lower_bound; lia).
      split; [apply Z.div_le_lower_bound; lia|apply Z.div_le_upper_bound; lia]. }
  apply (H 20%nat 0 x). lia.
Qed.

(** ** Theorems *)

(** C10.  Parsing numbers.  [parse_int] and [parse_percent] do what their results say,
    with no other effect: the value is written only on success.  On a decimal numeral
    [parse_int] returns it if it is an [int]; a numeral outside [long] and one followed
    by another character are rejected.  But a numeral outside [int] and inside [long] is
    accepted, with another value.  [parse_percent] accepts the numerals from 0 to 100
    followed by a percent sign, and tells range errors from syntax errors. *)
Theorem parse_numbers_correct :
  (∀ s e0, runs (parse_int_session s e0) (λ a o, a = parse_int_result s ∧ o = []) False) ∧
  (∀ s, runs (parse_percent_session s) (λ a o, a = parse_percent_result s ∧ o = []) False) ∧
  (∀ z, INT_MIN ≤ z ≤ INT_MAX → parse_int_result (Some (dec z)) = (0, Some z, 0)) ∧
  (∀ z, LONG_MIN ≤ z ≤ LONG_MAX → ¬ INT_MIN ≤ z ≤ INT_MAX →
     ∃ v, parse_int_result (Some (dec z)) = (0, Some v, 0) ∧ v ≠ z) ∧
  (∀ z, ¬ LONG_MIN ≤ z ≤ LONG_MAX → parse_int_result (Some (dec z)) = (-1, None, ERANGE)) ∧
  (∀ z c rest, is_digit c = false →
     ∃ e, parse_int_result (Some (dec z +:+ String c rest)%string) = (-1, None, e)) ∧
  (∀ z, LONG_MIN ≤ z ≤ LONG_MAX → parse_percent_result (Some (dec z +:+ "%")%string) =
     if bool_decide (0 ≤ z ≤ 100) then (OK, Some z) else (ERR_RANGE, None)) ∧
  (∀ z, parse_percent_result (Some (dec z)) = (ERR_PARSE, None)).
Proof.
  assert (∀ z, ∃ c s, dec z = String c s) as Hdec.
  { intros z. destruct (dec_cons z "") as (c & s & E). rewrite string_app_nil_r in E. eauto. }
  assert (∀ z rest, starts_with_digit rest = false →
    parse_int_result (Some (dec z +:+ rest)%string) =
      if negb (in_long z) then (-1, None, ERANGE)
      else if String.eqb rest "" then (0, Some (to_int z), 0) else (-1, None, EINVAL)) as Hint.
  { intros z rest Hr. destruct (dec_cons z rest) as (c & s & E). unfold parse_int_result.
    rewrite E -E strtol_dec_any // /clamp_long. destruct (in_long z) eqn:Ez; [|done]. simpl.
    apply in_long_spec in Ez. by zb; [lia..|]. }
  assert (∀ z rest, starts_with_digit rest = false →
    parse_percent_result (Some (dec z +:+ rest)%string) =
      if negb (in_long z) || negb (String.eqb rest "%") then (ERR_PARSE, None)
      else if (z <? 0) || (100 <? z) then (ERR_RANGE, None) else (OK, Some z)) as Hpct.
  { intros z rest Hr. unfold parse_percent_result. rewrite strtol_dec_any // /clamp_long.
    destruct (String.eqb_spec rest (dec z +:+ rest)) as [E|_]; [by symmetry in E; apply dec_app_ne in E|].
    rewrite orb_false_r. destruct (in_long z) eqn:Ez; [|done]. simpl.
    apply in_long_spec in Ez. zb; try lia; done. }
  pose proof (λ z, Hint z ""%string eq_refl) as Hint0. setoid_rewrite string_app_nil_r in Hint0.
  pose proof (λ z, Hpct z ""%string eq_refl) as Hpct0. setoid_rewrite string_app_nil_r in Hpct0.
  split_and!.
  - intros s e0. apply wp_runs. intros mf X _ _. apply wp_parse_int_session.
  - intros s. apply wp_runs. intros mf X _ _. apply wp_parse_percent_session.
  - intros z Hz. rewrite Hint0. assert (in_long z = true) as ->.
    { apply in_long_spec. unfold INT_MIN, INT_MAX, LONG_MIN, LONG_MAX in *. lia. }
    simpl. by rewrite to_int_id.
  - intros z Hz Hn. rewrite Hint0. apply in_long_spec in Hz as ->. exists (to_int z).
    split; [done|]. intros E. pose proof (to_int_range z). lia.
  - intros z Hn. rewrite Hint0. destruct (in_long z) eqn:E; [by apply in_long_spec in E|done].
  - intros z c rest Hc. rewrite Hint //. destruct (in_long z); eexists; reflexivity.
  - intros z Hz. rewrite Hpct //. apply in_long_spec in Hz as ->. simpl.
    case_bool_decide; zb; try lia; done.
  - intros z. rewrite Hpct0. by destruct (in_long z).
Qed.

(** C9.  The cleanup label.  Whatever bytes the file has, whatever error opening or reading
    it gives and whatever allocation fails, [process_file] closes the file and frees the
    buffer (the heap is empty at the end), changes no file, and returns 0 having printed the
    first line, up to its first newline or NUL and at most 255 bytes of it, or -1 having
    printed nothing and with [errno] telling why: the error of opening, no such file, an
    empty or unreadable file, no memory.  It fails only for these reasons. *)
Theorem process_file_cleans_up (os : system) (files : gmap string string) (path : string) :
  runs (process_session os files path)
    (λ '(rc, e, files') o, files' = files ∧ stderr o = ""%string ∧
       match open_error os path, files !! path with
       | Some n, _ => rc = -1 ∧ e = n ∧ stdout o = ""%string
       | None, None => rc = -1 ∧ e = ENOENT ∧ stdout o = ""%string
       | None, Some text =>
           (rc = 0 ∧ read_error os path = None ∧ text ≠ ""%string ∧ e = 0 ∧ stdout o =
              ("First line: " +:+ String dquote (first_line text) +:+ String dquote (String nl ""))%string) ∨
           (rc = -1 ∧ (is_Some (read_error os path) ∨ text = ""%string) ∧ e = EIO ∧ stdout o = ""%string) ∨
           (rc = -1 ∧ e = ENOMEM ∧ stdout o = ""%string)
       end) False ∧
  (∀ orc, lucky orc → ∃ rc e files' o w, process_session os files path (empty_world orc) = Ret (rc, e, files') o w ∧ heap w = ∅ ∧
     (rc = 0 ↔ open_error os path = None ∧ read_error os path = None ∧ ∃ c text, files !! path = Some (String c text))).
Proof.
  assert (H := wp_runs_lucky (process_session os files path)
    (λ '(rc, e, files') o, files' = files ∧ stderr o = ""%string ∧
       process_result true os path (files !! path) rc e 0 (stdout o))
    (λ '(rc, e, files') o, process_result false os path (files !! path) rc e 0 (stdout o))).
  destruct H as [H1 H2].
  { intros mf X _. iStartProof. unfold process_session. wp_step. iApply wp_local.
    iIntros (g) "Hg". wp_step. iApply (wp_process_file with "Hg"). iIntros (rc e o H Ho) "Hg". wp_run.
    iPureIntro. cbn [fs set_errno_f errno sys] in *. rewrite app_nil_r. split; [|by intros ->].
    split_and!; [done|done|]. unfold process_result in *. destruct (open_error os path), (files !! path); intuition. }
  split.
  - intros orc. specialize (H1 orc). destruct (process_session _ _ _ _) as [[[rc e] files'] o w|c o w| |]; [|done..].
    destruct H1 as (Hw & -> & He & H). split_and!; [done..|]. unfold process_result in H. destruct (open_error os path), (files !! path); intuition.
  - intros orc L. destruct (H2 orc L) as ([[rc e] files'] & o & w & E & Hw & _ & H). exists rc, e, files', o, w.
    split_and!; [done|done|]. unfold process_result in H. split.
    + intros ->. destruct (open_error os path); [by destruct H|]. destruct (files !! path) as [t|]; [|by destruct H].
      destruct H as [(_ & Hr & Ht & _)|[(? & _)|(? & _)]]; [|done..]. destruct t as [|c t]; [done|]. by split_and!; [..|exists c, t].
    + intros (Ho & Hr & c & t & Hf). rewrite Ho Hf in H. destruct H as [(-> & _)|[(_ & [H|H] & _)|(_ & H & _)]]; try done.
      rewrite Hr in H. by destruct H.
Qed.

(** The integer square root.  For every [x] of [int] but the largest, the twenty
    steps of Newton's method stay inside [int] and end at the root or one above it, and at
    the root itself unless [x + 1] is a square; for 8 the result is 3.  For the largest
    value the first addition overflows, and a negative argument jumps. *)
Theorem risky_sqrt_correct :
  (∀ x, 1 ≤ x < INT_MAX → ∃ r, writes (risky_sqrt_approx x) (inr tt)
       [Out ("  isqrt(" +:+ int_str x +:+ ") = " +:+ int_str r +:+ String nl "")%string] ∧
     Z.sqrt x ≤ r ≤ Z.sqrt x + 1 ∧ ((∀ k, x + 1 ≠ k * k) → r = Z.sqrt x)) ∧
  writes (risky_sqrt_approx 8) (inr tt) [Out ("  isqrt(8) = 3" +:+ String nl "")%string] ∧
  is_undefined (risky_sqrt_approx INT_MAX) ∧
  (∀ x, x < 0 → yields (risky_sqrt_approx x) (inl ERR_NEG_SQRT)).
Proof.
  split_and!.
  - intros x Hx. exists (Nat.iter 20 (newton x) x). split; [|apply isqrt_result; lia].
    pose proof (isqrt_newton_run x Hx) as Hn. revert Hn. generalize (Nat.iter 20 (newton x) x). intros r Hn.
    unfold risky_sqrt_approx. destruct (Z.ltb_spec x 0); [lia|]. destruct (Z.eqb_spec x 0); [lia|].
    eapply yields_bind; [done|]. eapply (writes_bind _ _ tt _ [_] []); [|apply yields_ret].
    apply writes_printf. unfold format. simpl. rewrite !fmt_signed_plain. by str_norm.
  - intros w. by vm_compute.
  - intros w. by vm_compute.
  - intros x Hx w. unfold risky_sqrt_approx. by destruct (Z.ltb_spec x 0); [|lia].
Qed.

(** ** The program *)

Section main.
Context (mf : bool) (X : Z → Prop) (strerror : Z → string).

(** What each section prints. *)
Definition text1 : string := concat_str [
  esc "=== 1. Return codes ===\n"; esc "parse_int(\q42\q)  -> 42\n";
  esc "parse_int(\qabc\q) -> error: " +:+ strerror EINVAL +:+ esc "\n";
  esc "parse_int(\q\q)    -> error: " +:+ strerror EINVAL +:+ esc "\n";
  esc "parse_int(\q3x7\q) -> error: " +:+ strerror EINVAL +:+ esc "\n\n"]%string.
Definition text2 : string := concat_str [
  esc "=== 2. errno / perror / strerror ===\n"; esc "errno value : 2\n";
  "strerror    : " +:+ strerror ENOENT +:+ esc "\n";
  "(perror would print): fopen failed: " +:+ strerror ENOENT +:+ esc "\n";
  esc "\nCommon errno constants:\n";
  esc "  EPERM  = 1  (operation not permitted)\n"; esc "  ENOENT = 2  (no such file or directory)\n";
  esc "  EINVAL = 22  (invalid argument)\n"; esc "  ENOMEM = 12  (out of memory)\n";
  esc "  ERANGE = 34  (result out of range)\n\n"]%string.
Definition text3 : string := esc (concat_str [
  "=== 3. Error propagation ===\n"; "Server started on port 8080 (timeout=30s)\n";
  "start_server(): OK\n\n"])%string.
Definition text4 : string := concat_str [
  esc "=== 4. goto cleanup pattern ===\n"; esc "First line: \qhello from exercise 20\q\n";
  "process_file(missing): " +:+ strerror ENOENT +:+ esc "\n\n"]%string.
Definition text5 : string := esc (concat_str [
  "=== 5. setjmp / longjmp ===\n"; "  10 / 2 = 5\n"; "  isqrt(144) = 12\n";
  "  [longjmp caught] error 1: division by zero\n\n"])%string.
Definition text5b : string := esc (concat_str [
  "=== 5b. setjmp / longjmp (negative sqrt) ===\n"; "  isqrt(25) = 5\n";
  "  [longjmp caught] error 2: negative sqrt\n\n"])%string.
Definition text6 : string := esc (concat_str [
  "=== 6. Custom error type ===\n";
  "  parse_percent(\q75%  \q) = 75\n"; "  parse_percent(\q0%   \q) = 0\n";
  "  parse_percent(\q100% \q) = 100\n"; "  parse_percent(\q101% \q) -> out of range\n";
  "  parse_percent(\qabc  \q) -> parse error\n"; "  parse_percent(\q50   \q) -> parse error\n\n"])%string.

Lemma wp_parse_int_eq g gl s o x rc v e (Q : Z → list ev → hpropI obj) :
  parse_int_result s = (rc, v, e) →
  g ↦ OGlob gl -∗ o ↦ OInt x -∗
  (g ↦ OGlob (set_errno_f e gl) -∗ o ↦ OInt (match v with Some v => Some v | None => x end) -∗ Q rc []) -∗
  wp mf X (parse_int (Some g) s (Some o)) Q.
Proof. intros E. pose proof (wp_parse_int mf X g gl s o x Q) as H. by rewrite E in H. Qed.

Lemma wp_parse_percent_eq g gl s o x rc v (Q : ErrCode → list ev → hpropI obj) :
  parse_percent_result s = (rc, v) →
  g ↦ OGlob gl -∗ o ↦ OInt x -∗
  (∀ e, g ↦ OGlob (set_errno_f e gl) -∗ o ↦ OInt (match v with Some v => Some v | None => x end) -∗ Q rc []) -∗
  wp mf X (parse_percent (Some g) s (Some o)) Q.
Proof. intros E. pose proof (wp_parse_percent mf X g gl s o x Q) as H. by rewrite E in H. Qed.

(** A section that prints [t] and touches nothing but [errno]. *)
Definition prints (g : positive) (m : M obj unit) (t : string) : Prop :=
  ∀ gl (Q : unit → list ev → hpropI obj),
    g ↦ OGlob gl -∗
    (∀ e o, ⌈stdout o = t ∧ stderr o = ""%string⌉ -∗ g ↦ OGlob (set_errno_f e gl) -∗ Q tt o) -∗
    wp mf X m Q.

Ltac go := repeat (wp_step; cbn [app Z.eqb Pos.eqb negb orb errno set_errno_f fs]).
Ltac finish := iPureIntro; split; [|reflexivity];
  first [vm_compute; reflexivity | cbv - [strerror String.append]; str_norm; reflexivity].

Lemma section1 g : prints g (section_return_codes strerror (Some g)) text1.
Proof.
  intros gl Q. iIntros "Hg HQ". unfold section_return_codes, show_parse_error, get_errno.
  go. iApply wp_local. iIntros (o) "Ho". go.
  iApply (wp_parse_int_eq with "Hg Ho"); [by vm_compute|]. iIntros "Hg Ho". cbn [Z.eqb]. go.
  do 3 (iApply (wp_parse_int_eq with "Hg Ho"); [by vm_compute|]; iIntros "Hg Ho"; cbn [Z.eqb Pos.eqb]; go).
  iApply ("HQ" with "[] Hg"). finish.
Qed.

Lemma section3 g : prints g (section_propagation strerror (Some g)) text3.
Proof.
  intros gl Q. iIntros "Hg HQ".
  unfold section_propagation, start_server, load_config, read_config_value, get_errno. go.
  iApply wp_local. iIntros (p) "Hp". go. iApply wp_local. iIntros (t) "Ht". go.
  iApply ("HQ" $! (errno gl) with "[] [Hg]"); [finish|by destruct gl].
Qed.

Lemma section5 :
  ∃ o, writes (U:=obj) section_setjmp tt o ∧ stdout o = text5 ∧ stderr o = ""%string.
Proof. eexists. split; [intros w; vm_compute; reflexivity|by vm_compute]. Qed.

Lemma section5b :
  ∃ o, writes (U:=obj) section_setjmp_neg tt o ∧ stdout o = text5b ∧ stderr o = ""%string.
Proof. eexists. split; [intros w; vm_compute; reflexivity|by vm_compute]. Qed.

Lemma section6 g : prints g (section_custom_errors (Some g)) text6.
Proof.
  intros gl Q. iIntros "Hg HQ". unfold section_custom_errors, cases. cbn [for_list]. go.
  do 6 (iApply wp_local; iIntros (?) "Hv"; go;
    iApply (wp_parse_percent_eq with "Hg Hv"); [by vm_compute|]; iIntros (?) "Hg Hv"; go; cbn [for_list]; go).
  cbn [set_errno_f errno fs]. iApply ("HQ" with "[] Hg"). finish.
Qed.

(** A system that does what the program asks of it. *)
Definition helpful (s : system) : Prop :=
  ∀ path, open_error s path = None ∧ create_error s path = None ∧ read_error s path = None ∧ (23 ≤ room s path)%nat.

(** The section that needs a file to be missing. *)
Lemma wp_section2 g gl (Q : unit → list ev → hpropI obj) :
  helpful (sys gl) → fs gl !! "/tmp/does_not_exist_xyzzy_12345.txt"%string = None →
  g ↦ OGlob gl -∗
  (∀ e o, ⌈stdout o = text2 ∧ stderr o = ""%string⌉ -∗ g ↦ OGlob (set_errno_f e gl) -∗ Q tt o) -∗
  wp mf X (section_errno strerror (Some g)) Q.
Proof.
  intros Hs Hf. iIntros "Hg HQ". unfold section_errno, get_errno, set_errno. go.
  iApply (wp_fopen_r with "Hg"). iIntros ([f|] e) "Hg H".
  - iDestruct "H" as (text (_ & Hf' & _)) "H". congruence.
  - iDestruct "H" as %[Ho|(_ & [[_ ->]|([? ?] & _)])]; [by rewrite (proj1 (Hs _)) in Ho| |congruence]. go. iApply ("HQ" with "[] Hg"). finish.
Qed.

Lemma wp_fputs f path text s (Q : unit → list ev → hpropI obj) :
  f ↦ OFile (Writing path text) -∗ (f ↦ OFile (Writing path (text +:+ s)%string) -∗ Q tt []) -∗
  wp mf X (fputs (Some f) s) Q.
Proof. iIntros "Hf HQ". unfold fputs. wp_run. by iApply "HQ". Qed.

Lemma wp_fclose_writing g gl f path text (Q : unit → list ev → hpropI obj) :
  g ↦ OGlob gl -∗ f ↦ OFile (Writing path text) -∗
  (g ↦ OGlob (set_fs (<[path := take_str (room (sys gl) path) text]> (fs gl)) gl) -∗ Q tt []) -∗
  wp mf X (fclose (Some g) (Some f)) Q.
Proof. iIntros "Hg Hf HQ". unfold fclose. wp_run. by iApply "HQ". Qed.

(** The report of a failed [process_file]. *)
Lemma process_rc s path file rc e e0 o : process_result mf s path file rc e e0 o → rc = 0 ∨ rc = -1.
Proof. unfold process_result. destruct (open_error s path), file; intuition. Qed.

Lemma wp_process_missing g gl path (Q : Z → list ev → hpropI obj) :
  helpful (sys gl) → fs gl !! path = None →
  g ↦ OGlob gl -∗
  (∀ o, ⌈stdout o = ""%string ∧ stderr o = ""%string⌉ -∗ g ↦ OGlob (set_errno_f ENOENT gl) -∗ Q (-1) o) -∗
  wp mf X (process_file (Some g) path) Q.
Proof.
  intros Hs Hf. iIntros "Hg HQ". iApply (wp_process_file with "Hg").
  rewrite Hf /process_result (proj1 (Hs path)). iIntros (rc e o) "%H %He Hg". destruct H as (-> & -> & Ho).
  iApply ("HQ" with "[] Hg"). by iPureIntro.
Qed.

Lemma wp_section4 g gl (Q : unit → list ev → hpropI obj) :
  helpful (sys gl) → fs gl !! "/tmp/no_such_file_ex20.txt"%string = None →
  g ↦ OGlob gl -∗
  (∀ gl' o, ⌈(mf = false → stdout o = text4) ∧ stderr o = ""%string⌉ -∗ g ↦ OGlob gl' -∗ Q tt o) -∗
  wp mf X (section_goto_cleanup strerror (Some g)) Q.
Proof.
  intros Hs Hf. iIntros "Hg HQ". unfold section_goto_cleanup, fopen_w, set_errno. go.
  destruct (Hs "/tmp/ex20_sample.txt"%string) as (Hop & -> & Hrd & Hroom). go.
  iApply wp_malloc. iIntros ([f|]) "%Hmf Hl"; go.
  1: iApply (wp_fputs with "Hl"); iIntros "Hl"; go; iApply (wp_fclose_writing with "Hg Hl");
    iIntros "Hg"; go.
  all: iApply (wp_process_file with "Hg"); iIntros (rc e o) "%H %He Hg";
    destruct (process_rc _ _ _ _ _ _ _ H) as [-> | ->]; [go|unfold get_errno at 1; go];
    (iApply (wp_process_missing with "Hg"); [done|by rewrite /= ?lookup_insert_ne|]);
    iIntros (o') "%H'"; destruct H' as [Ho' He']; iIntros "Hg"; unfold get_errno; go.
  all: iApply ("HQ" with "[] [Hg]"); [|try iExact "Hg"].
  all: try (iPureIntro; (split; [|by rewrite /= ?(stdout_app, stderr_app) ?He /= ?stderr_app ?He' /=])).
  all: intros Hm; try by rewrite Hmf in Hm.
  all: unfold process_result in H; cbn [fs set_fs sys set_errno_f] in H; rewrite Hop Hrd lookup_insert in H;
    rewrite take_str_fits in H; [|exact Hroom];
    destruct H as [(Hrc & _ & _ & _ & Ho)|[(Hrc & [[? ?]|?] & _)|(? & ? & _)]]; try done; try congruence.
  rewrite /= !stdout_app Ho Ho' /text4. generalize (strerror ENOENT). intros t.
  cbv - [String.append]. str_norm. reflexivity.
Qed.
End main.

(** The program prints what is expected and closes and frees everything, if the system does
    what it asks and the two missing files are missing. *)
Lemma error_handling_main_correct (strerror : Z → string) (sys : system) (files : gmap string string) :
  helpful sys →
  files !! "/tmp/does_not_exist_xyzzy_12345.txt"%string = None →
  files !! "/tmp/no_such_file_ex20.txt"%string = None →
  runs (main strerror sys files) (λ r o, r = 0 ∧ stderr o = ""%string) False ∧
  ∀ orc, lucky orc → ∃ r o w, main strerror sys files (empty_world orc) = Ret r o w ∧ heap w = ∅ ∧
    (r = 0 ∧ stderr o = ""%string) ∧
    stdout o = concat_str [text1 strerror; text2 strerror; text3; text4 strerror; text5; text5b; text6].
Proof.
  intros Hs Hf1 Hf2. apply wp_runs_lucky. intros mf X HX. iStartProof. unfold main. wp_step.
  iApply wp_local. iIntros (g) "Hg". wp_step. unfold main_body.
  wp_step. iApply (section1 with "Hg"). iIntros (e1 o1) "%H1 Hg".
  wp_step. iApply (wp_section2 with "Hg"); [done..|]. iIntros (e2 o2) "%H2 Hg".
  wp_step. iApply (section3 with "Hg"). iIntros (e3 o3) "%H3 Hg".
  wp_step. iApply (wp_section4 with "Hg"); [done..|]. iIntros (gl4 o4) "%H4 Hg".
  destruct section5 as (o5 & W5 & H5 & E5), section5b as (o5' & W5' & H5' & E5').
  wp_step. iApply (wp_writes _ _ _ tt _ _ W5). wp_step. iApply (wp_writes _ _ _ tt _ _ W5').
  wp_step. iApply (section6 with "Hg"). iIntros (e6 o6) "%H6 Hg". wp_run. iPureIntro.
  revert H1 H2 H3 H4 H5 H5' H6.
  generalize (text1 strerror) (text2 strerror) text3 (text4 strerror) text5 text5b text6.
  intros t1 t2 t3 t4 t5 t5' t6 [H1 E1] [H2 E2] [H3 E3] [H4 E4] H5 H5' [H6 E6].
  rewrite !(stdout_app, stderr_app) H1 H2 H3 H5 H5' H6 E1 E2 E3 E4 E5 E5' E6.
  split; [split; reflexivity|]. intros Hm. rewrite (H4 Hm) /concat_str /=.
  by str_norm.
Qed.
