(* ===== verification/Generics.v ===== *)
(** * Exercise 21: generic code with [void *]

    Model of [exercises/21_generics/generics.c].  Memory is made of bytes that know
    which byte of which value they are, so that code which only moves bytes is modelled
    as written, whatever the representation of the values: a value is read back where
    all its bytes are, in order.  A [void *] is a block and an offset.  [qsort] belongs
    to the C library and does not say how it orders equal elements: the permutation it
    chooses, from the results of the comparisons, is a parameter. *)

From stdpp Require Import sorting.
From S2P Require Import Prelude Machine CString Double Printf SepLogic Pure.
#[local] Open Scope Z_scope.

(** ** Values, bytes and addresses *)

(** A scalar: an [int], a [double], a [char], or a pointer to a string literal. *)
Inductive val := VInt (z : Z) | VDbl (d : double) | VChr (c : ascii) | VStr (s : string).

#[export] Instance double_eq_dec : EqDecision spec_float.
Proof. solve_decision. Defined.
#[export] Instance val_eq_dec : EqDecision val.
Proof. solve_decision. Defined.

(** A byte: indeterminate, or the [i]-th byte of a value. *)
Inductive byte := Undef | Frag (v : val) (i : nat).

#[export] Instance byte_eq_dec : EqDecision byte.
Proof. solve_decision. Defined.

Definition sizeof (v : val) : nat :=
  match v with VInt _ => 4 | VDbl _ => 8 | VChr _ => 1 | VStr _ => 8 end.

Definition encode (v : val) : list byte := Frag v <$> seq 0 (sizeof v).

(** The value whose bytes these are. *)
Definition decode (l : list byte) : option val :=
  match l with
  | Frag v O :: _ => if decide (l = encode v) then Some v else None
  | _ => None
  end.

(** An array of [char] of [n] bytes, initialised with a string. *)
Definition char_array (n : nat) (s : string) : list byte :=
  flat_map (λ c, encode (VChr c)) (list_ascii_of_string s) ++
  flat_map (λ c, encode (VChr c)) (replicate (n - String.length s) (chr 0)).

Record GenVec := { data : ptr; len : Z; cap : Z; esize : Z }.

Inductive obj := OMem (m : list byte) | OVec (v : GenVec).

#[export] Instance obj_mem : Prism obj (list byte) :=
  {| to_obj := OMem; of_obj o := match o with OMem m => Some m | _ => None end; of_to_obj _ := eq_refl |}.
#[export] Instance obj_vec : Prism obj GenVec :=
  {| to_obj := OVec; of_obj o := match o with OVec v => Some v | _ => None end; of_to_obj _ := eq_refl |}.

(** [(char * )p + n]. *)
Abbreviation addr := (ptr * Z)%type.
Definition plus (a : addr) (n : Z) : addr := (a.1, a.2 + n).

(** The [n] bytes at [a]; outside the block it is undefined behaviour. *)
Definition load_bytes (a : addr) (n : Z) : M obj (list byte) :=
  m <- load a.1 ;;
  if (0 <=? a.2) && (0 <=? n) && (a.2 + n <=? Z.of_nat (length m))
  then ret (take (Z.to_nat n) (drop (Z.to_nat a.2) m))
  else undefined.

Definition store_bytes (a : addr) (l : list byte) : M obj unit :=
  m <- load a.1 ;;
  if (0 <=? a.2) && (a.2 + Z.of_nat (length l) <=? Z.of_nat (length m))
  then store a.1 (take (Z.to_nat a.2) m ++ l ++ drop (Z.to_nat a.2 + length l) m)
  else undefined.

(** The regions of [n] bytes at [a] and [b] have a byte in common. *)
Definition overlap (a b : addr) (n : Z) : bool :=
  bool_decide (a.1 = b.1) && (a.2 <? b.2 + n) && (b.2 <? a.2 + n).

Definition memcpy (dst src : addr) (n : Z) : M obj unit :=
  if overlap dst src n then undefined
  else l <- load_bytes src n ;; store_bytes dst l.

(** A value of a given type, at an address. *)
Definition load_val (n : Z) (a : addr) : M obj val :=
  l <- load_bytes a n ;;
  match decode l with Some v => ret v | None => undefined end.
Definition load_int (a : addr) : M obj Z :=
  v <- load_val 4 a ;; match v with VInt z => ret z | _ => undefined end.
Definition load_double (a : addr) : M obj double :=
  v <- load_val 8 a ;; match v with VDbl d => ret d | _ => undefined end.
Definition load_str (a : addr) : M obj string :=
  v <- load_val 8 a ;; match v with VStr s => ret s | _ => undefined end.

(** The text of an array of [n] [char]s, up to its NUL. *)
Fixpoint c_text (l : list byte) : option string :=
  match l with
  | [] => None
  | Frag (VChr c) O :: l' => if Ascii.eqb c (chr 0) then Some ""%string else String c <$> c_text l'
  | _ => None
  end.
Definition load_text (a : addr) (n : Z) : M obj string :=
  l <- load_bytes a n ;;
  match c_text l with Some s => ret s | None => undefined end.

(** [realloc]: the bytes of the old block are kept and the new ones indeterminate. *)
Definition realloc (p : ptr) (n : Z) : M obj ptr :=
  match p with
  | None => malloc (OMem (replicate (Z.to_nat n) Undef))
  | Some _ =>
      m <- load p ;;
      q <- malloc (OMem (take (Z.to_nat n) (m ++ replicate (Z.to_nat n) Undef))) ;;
      match q with
      | None => ret NULL
      | Some _ => free p ;;; ret q
      end
  end.

(** An initialised local variable or array. *)
Definition local_mem (l : list byte) : M obj addr := p <- local (OMem l) ;; ret (p, 0).

(** ** Swapping *)

Definition generic_swap (a b : addr) (size : Z) : M obj unit :=
  tmp <- local (OMem (replicate 256 Undef)) ;;
  buf <- (if size <=? 256 then ret tmp else malloc (OMem (replicate (Z.to_nat size) Undef))) ;;
  match buf with
  | None => ret tt
  | Some _ =>
      memcpy (buf, 0) a size ;;;
      memcpy a b size ;;;
      memcpy b (buf, 0) size ;;;
      (if negb (bool_decide (buf = tmp)) then free buf else ret tt)
  end ;;;
  free tmp.

Definition section_void_ptr : M obj unit :=
  printf "=== 1. void * basics ===\n" [] ;;;
  x <- local_mem (encode (VInt 10)) ;;
  y <- local_mem (encode (VInt 20)) ;;
  p <- local_mem (encode (VDbl (lit 15 1))) ;;
  q <- local_mem (encode (VDbl (lit 99 1))) ;;
  s <- local_mem (char_array 8 "hello") ;;
  t <- local_mem (char_array 8 "world") ;;
  generic_swap x y 4 ;;;
  xv <- load_int x ;; yv <- load_int y ;;
  printf "int swap:    x=%d y=%d\n" [AInt xv; AInt yv] ;;;
  generic_swap p q 8 ;;;
  pv <- load_double p ;; qv <- load_double q ;;
  printf "double swap: p=%.1f q=%.1f\n" [ADbl pv; ADbl qv] ;;;
  generic_swap s t 8 ;;;
  sv <- load_text s 8 ;; tv <- load_text t 8 ;;
  printf "char[] swap: s=%s t=%s\n" [AStr sv; AStr tv] ;;;
  base <- local_mem (flat_map (λ z, encode (VInt z)) [10; 20; 30; 40]) ;;
  for_range 0 4 (λ i _,
    v <- load_int (plus base (i * 4)) ;;
    printf "  arr[%d] = %d\n" [AInt i; AInt v]) tt ;;;
  printf "\n" [] ;;;
  free x.1 ;;; free y.1 ;;; free p.1 ;;; free q.1 ;;; free s.1 ;;; free t.1 ;;; free base.1.

(** ** Comparators *)

Abbreviation comparator := (addr → addr → M obj Z).

Definition cmp_int : comparator := λ a b,
  ia <- load_int a ;;
  ib <- load_int b ;;
  ret (b2z (ib <? ia) - b2z (ia <? ib)).

Definition cmp_double : comparator := λ a b,
  da <- load_double a ;;
  db <- load_double b ;;
  ret (b2z (d_gt da db) - b2z (d_lt da db)).

Definition cmp_str : comparator := λ a b,
  s <- load_str a ;;
  t <- load_str b ;;
  ret (strcmp s t).

Definition generic_min (arr : addr) (n size : Z) (cmp : comparator) : M obj addr :=
  for_range 1 n (λ i best,
    let cur := plus arr (u64 (i * size)) in
    c <- cmp cur best ;;
    if c <? 0 then ret cur else ret best) arr.

Section program.
(** The permutation chosen by [qsort] for [n] elements compared by [c]. *)
Context (order : (nat → nat → Z) → nat → list nat).

(** The outcome of a comparison function on all pairs of elements. *)
Definition compare_all (base : addr) (n size : Z) (cmp : comparator) : M obj (list (list Z)) :=
  for_range 0 n (λ i rows,
    row <- for_range 0 n (λ j row,
      c <- cmp (plus base (i * size)) (plus base (j * size)) ;;
      ret (row ++ [c])) [] ;;
    ret (rows ++ [row])) [].

Definition chunk (size : nat) (l : list byte) (i : nat) : list byte := take size (drop (i * size) l).

(** [qsort], which does nothing on an empty array. *)
Definition qsort (base : addr) (n size : Z) (cmp : comparator) : M obj unit :=
  if n =? 0 then ret tt
  else
    rows <- compare_all base n size cmp ;;
    l <- load_bytes base (n * size) ;;
    let c i j := nth j (nth i rows []) 0 in
    store_bytes base (flat_map (chunk (Z.to_nat size) l) (order c (Z.to_nat n))).

(** [bsearch]: the index range [lo, hi) is halved; the answer is the address or NULL. *)
Definition bsearch (key base : addr) (n size : Z) (cmp : comparator) : M obj addr :=
  loop (S (Z.to_nat n)) (λ '(lo, hi),
    if lo <? hi then
      let mid := (lo + hi) / 2 in
      let p := plus base (mid * size) in
      c <- cmp key p ;;
      if c <? 0 then ret (inl (lo, mid))
      else if 0 <? c then ret (inl (mid + 1, hi))
      else ret (inr p)
    else ret (inr (NULL, 0))) (0, n).

(** [for (int i = 0; i < n; i++) printf("%d ", arr[i]);] *)
Definition print_ints (arr : addr) (n : Z) : M obj unit :=
  for_range 0 n (λ i _, v <- load_int (plus arr (i * 4)) ;; printf "%d " [AInt v]) tt.

Definition ints : list Z := [5; 2; 8; 1; 9; 3].
Definition doubles : list double := [lit 314 2; lit 141 2; lit 271 2; lit 57 2].
Definition words : list string := ["banana"; "apple"; "cherry"; "date"].

Definition section_comparators : M obj unit :=
  printf "=== 2. Generic comparators ===\n" [] ;;;
  ints_ <- local_mem (flat_map (λ z, encode (VInt z)) ints) ;;
  doubles_ <- local_mem (flat_map (λ d, encode (VDbl d)) doubles) ;;
  words_ <- local_mem (flat_map (λ s, encode (VStr s)) words) ;;
  qsort ints_ 6 4 cmp_int ;;;
  qsort doubles_ 4 8 cmp_double ;;;
  qsort words_ 4 8 cmp_str ;;;
  printf "sorted ints:    " [] ;;;
  print_ints ints_ 6 ;;;
  printf "\nsorted doubles: " [] ;;;
  for_range 0 4 (λ i _, d <- load_double (plus doubles_ (i * 8)) ;; printf "%.2f " [ADbl d]) tt ;;;
  printf "\nsorted words:   " [] ;;;
  for_range 0 4 (λ i _, s <- load_str (plus words_ (i * 8)) ;; printf "%s " [AStr s]) tt ;;;
  raw <- local_mem (flat_map (λ z, encode (VInt z)) ints) ;;
  m <- generic_min raw 6 4 cmp_int ;;
  v <- load_int m ;;
  printf "\nmin of {5,2,8,1,9,3} = %d\n" [AInt v] ;;;
  printf "\n" [] ;;;
  free ints_.1 ;;; free doubles_.1 ;;; free words_.1 ;;; free raw.1.

Definition sorted_ints : list Z := [1; 3; 5; 7; 9; 11; 13; 17; 19; 23].
Definition sorted_words : list string := ["apple"; "banana"; "cherry"; "date"; "fig"].

Definition section_bsearch : M obj unit :=
  printf "=== 3. bsearch ===\n" [] ;;;
  arr <- local_mem (flat_map (λ z, encode (VInt z)) sorted_ints) ;;
  for_list [7; 4; 23; 0] (λ key _,
    k <- local_mem (encode (VInt key)) ;;
    hit <- bsearch k arr (Z.of_nat (length sorted_ints)) 4 cmp_int ;;
    match hit.1 with
    | Some _ => printf "bsearch(%2d): found at index %ld\n" [AInt key; AInt ((hit.2 - arr.2) / 4)]
    | None => printf "bsearch(%2d): not found\n" [AInt key]
    end ;;;
    free k.1) tt ;;;
  words_ <- local_mem (flat_map (λ s, encode (VStr s)) sorted_words) ;;
  key <- local_mem (encode (VStr "cherry")) ;;
  wp <- bsearch key words_ 5 8 cmp_str ;;
  k <- load_str key ;;
  printf "bsearch(\q%s\q): %s\n" [AStr k; AStr (if wp.1 is Some _ then "found" else "not found")] ;;;
  printf "\n" [] ;;;
  free arr.1 ;;; free words_.1 ;;; free key.1.

(** ** The dynamic array *)

Definition genvec_new (element_size : Z) : GenVec :=
  {| data := NULL; len := 0; cap := 0; esize := element_size |}.

Definition set_block (p : ptr) (n : Z) (v : GenVec) : GenVec :=
  {| data := p; len := len v; cap := n; esize := esize v |}.
Definition set_len (n : Z) (v : GenVec) : GenVec :=
  {| data := data v; len := n; cap := cap v; esize := esize v |}.

(** [if (v->len == v->cap) { ... }]: false when the allocation fails. *)
Definition ensure_room (v : ptr) : M obj bool :=
  g <- load v ;;
  if len g =? cap g then
    let newcap := if cap g =? 0 then 4 else u64 (cap g * 2) in
    p <- realloc (data g) (u64 (newcap * esize g)) ;;
    match p with
    | None => ret false
    | Some _ => update v (set_block p newcap) ;;; ret true
    end
  else ret true.

Definition genvec_push (v : ptr) (elem : addr) : M obj Z :=
  ok <- ensure_room v ;;
  if negb ok then ret (-1)
  else
    g <- load v ;;
    memcpy (data g, u64 (len g * esize g)) elem (esize g) ;;;
    update v (λ g, set_len (u64 (len g + 1)) g) ;;;
    ret 0.

Definition genvec_get (v : ptr) (i : Z) : M obj addr :=
  g <- load v ;;
  if len g <=? i then ret (NULL, 0) else ret (data g, u64 (i * esize g)).

Definition genvec_sort (v : ptr) (cmp : comparator) : M obj unit :=
  g <- load v ;; qsort (data g, 0) (len g) (esize g) cmp.

Definition genvec_free (v : ptr) : M obj unit :=
  g <- load v ;;
  free (data g) ;;;
  update v (λ g, {| data := NULL; len := 0; cap := 0; esize := esize g |}).

(** [struct { char name[32]; int score; }] *)
Definition Player (name : string) (score : Z) : list byte := char_array 32 name ++ encode (VInt score).
Definition load_score (p : addr) : M obj Z := load_int (plus p 32).

Definition cmp_player_score : comparator := λ a b,
  sa <- load_score a ;;
  sb <- load_score b ;;
  ret (b2z (sa <? sb) - b2z (sb <? sa)).

Definition nums : list Z := [42; 7; 99; 3; 55].
Definition players : list (string * Z) :=
  [("Alice", 88); ("Bob", 95); ("Carol", 72); ("Dave", 88); ("Eve", 100)]%string.

Definition push_all (v : ptr) (l : list (list byte)) : M obj unit :=
  for_list l (λ x _, e <- local_mem x ;; genvec_push v e ;;; free e.1) tt.

Definition print_vec (v : ptr) : M obj unit :=
  g <- load v ;;
  for_range 0 (len g) (λ i _,
    p <- genvec_get v i ;; n <- load_int p ;; printf "%d " [AInt n]) tt.

Definition section_genvec : M obj unit :=
  printf "=== 4. Generic dynamic array (GenVec) ===\n" [] ;;;
  vi <- local (OVec (genvec_new 4)) ;;
  push_all vi ((λ z, encode (VInt z)) <$> nums) ;;;
  printf "int GenVec (before sort): " [] ;;;
  print_vec vi ;;;
  genvec_sort vi cmp_int ;;;
  printf "\nint GenVec (after sort):  " [] ;;;
  print_vec vi ;;;
  printf "\n" [] ;;;
  genvec_free vi ;;;
  vp <- local (OVec (genvec_new 36)) ;;
  push_all vp ((λ '(name, score), Player name score) <$> players) ;;;
  genvec_sort vp cmp_player_score ;;;
  printf "Players by score (desc):\n" [] ;;;
  g <- load vp ;;
  for_range 0 (len g) (λ i _,
    p <- genvec_get vp i ;;
    name <- load_text p 32 ;;
    score <- load_score p ;;
    printf "  %2zu. %-8s %d\n" [AInt (i + 1); AStr name; AInt score]) tt ;;;
  genvec_free vp ;;;
  printf "\n" [] ;;;
  free vi ;;; free vp.
End program.

(** ** Type tags *)

Inductive Tag := TAG_INT | TAG_DOUBLE | TAG_STR.

#[export] Instance Tag_eq_dec : EqDecision Tag.
Proof. solve_decision. Defined.

(** The member of the union that was stored last; reading another one does not give a
    value of its type. *)
Record Variant := { tag : Tag; member : val }.
Definition val_i (v : Variant) : M obj Z := match member v with VInt i => ret i | _ => undefined end.
Definition val_d (v : Variant) : M obj double := match member v with VDbl d => ret d | _ => undefined end.
Definition val_s (v : Variant) : M obj string := match member v with VStr s => ret s | _ => undefined end.

Definition var_int (i : Z) : Variant := {| tag := TAG_INT; member := VInt i |}.
Definition var_double (d : double) : Variant := {| tag := TAG_DOUBLE; member := VDbl d |}.
Definition var_str (s : string) : Variant := {| tag := TAG_STR; member := VStr s |}.

Definition print_variant (v : Variant) : M obj unit :=
  match tag v with
  | TAG_INT => i <- val_i v ;; printf "int(%d)" [AInt i]
  | TAG_DOUBLE => d <- val_d v ;; printf "double(%.2f)" [ADbl d]
  | TAG_STR => s <- val_s v ;; printf "str(\q%s\q)" [AStr s]
  end.

Definition items : list Variant :=
  [var_int 42; var_double (lit 314 2); var_str "hello"; var_int (-7); var_str "world"].

Definition add_item (v : Variant) (sum : double) : M obj double :=
  if decide (tag v = TAG_INT) then i <- val_i v ;; ret (d_add sum (d_of_Z i))
  else if decide (tag v = TAG_DOUBLE) then d <- val_d v ;; ret (d_add sum d)
  else ret sum.

Definition section_type_tags : M obj unit :=
  printf "=== 5. Type tags (safe variants) ===\n" [] ;;;
  for_list items (λ v i,
    printf "  items[%zu] = " [AInt i] ;;;
    print_variant v ;;;
    printf "\n" [] ;;;
    ret (i + 1)) 0 ;;;
  sum <- for_list items add_item d_zero ;;
  printf "  sum of numeric items = %.2f\n" [ADbl sum] ;;;
  printf "\n" [].

Definition main (order : (nat → nat → Z) → nat → list nat) : M obj Z :=
  section_void_ptr ;;;
  section_comparators order ;;;
  section_bsearch ;;;
  section_genvec order ;;;
  section_type_tags ;;;
  ret 0.

(** ** Bytes in memory *)

Lemma encode_length v : length (encode v) = sizeof v.
Proof. unfold encode. by rewrite length_fmap length_seq. Qed.

Lemma decode_encode v : decode (encode v) = Some v.
Proof.
  unfold decode. replace (encode v) with (Frag v 0 :: (Frag v <$> seq 1 (sizeof v - 1))) at 1 by by destruct v.
  case_decide as H; [done|]. destruct H. by destruct v.
Qed.

(** The bytes [x] are found in [m] at [i]. *)
Definition bytes_at (m : list byte) (i : Z) (x : list byte) : Prop :=
  0 ≤ i ∧ ∃ pre post, m = pre ++ x ++ post ∧ Z.of_nat (length pre) = i.

Lemma bytes_at_intro pre x post : bytes_at (pre ++ x ++ post) (Z.of_nat (length pre)) x.
Proof. split; [lia|]. by exists pre, post. Qed.

(** Part of what is found. *)
Lemma bytes_at_part m i x pre y post :
  bytes_at m i x → x = pre ++ y ++ post → bytes_at m (i + Z.of_nat (length pre)) y.
Proof.
  intros (Hi & p & q & -> & Hp) ->. split; [lia|].
  exists (p ++ pre), (post ++ q). rewrite length_app -!app_assoc. split; [done|lia].
Qed.

(** What an element comparison function must do: on two elements of one block it gives
    the value of [c], and has no effect. *)
Class Compares (cmp : comparator) (c : list byte → list byte → Z) (P : list byte → Prop) : Prop :=
  wp_cmp mf X l m i j x y (Q : Z → list ev → hpropI obj) :
    P x → P y → bytes_at m i x → bytes_at m j y →
    l ↦ OMem m -∗ (l ↦ OMem m -∗ Q (c x y) []) -∗ wp mf X (cmp (Some l, i) (Some l, j)) Q.

(** What [qsort] requires of the comparison: a total preorder on the elements. *)
Class Preorder_on (c : list byte → list byte → Z) (P : list byte → Prop) : Prop := {
  cmp_antisym x y : P x → P y → c y x = - c x y;
  cmp_trans x y z : P x → P y → P z → c x y ≤ 0 → c y z ≤ 0 → c x z ≤ 0;
}.

Section wp.
Context (mf : bool) (X : Z → Prop).

Lemma wp_load_bytes l m i x (Q : list byte → list ev → hpropI obj) :
  bytes_at m i x →
  l ↦ OMem m -∗ (l ↦ OMem m -∗ Q x []) -∗ wp mf X (load_bytes (Some l, i) (Z.of_nat (length x))) Q.
Proof.
  intros (Hi & pre & post & -> & <-). iIntros "Hl HQ". unfold load_bytes. cbn [fst snd]. wp_step. wp_step.
  rewrite !length_app. zb; [|lia..]. cbn [andb]. rewrite !Nat2Z.id drop_app_length take_app_length. wp_step. by iApply "HQ".
Qed.

Lemma wp_store_bytes l pre x y post (Q : unit → list ev → hpropI obj) :
  length x = length y →
  l ↦ OMem (pre ++ x ++ post) -∗ (l ↦ OMem (pre ++ y ++ post) -∗ Q tt []) -∗
  wp mf X (store_bytes (Some l, Z.of_nat (length pre)) y) Q.
Proof.
  intros Hxy. iIntros "Hl HQ". unfold store_bytes. cbn [fst snd]. wp_step. wp_step.
  rewrite !length_app. zb; [|lia..]. cbn [andb]. rewrite Nat2Z.id take_app_length -Hxy -drop_drop drop_app_length.
  rewrite drop_app_length. wp_step. by iApply "HQ".
Qed.

(** [memcpy] between two blocks. *)
Lemma wp_memcpy ls ld m i x pre y post (Q : unit → list ev → hpropI obj) :
  bytes_at m i x → length x = length y →
  ls ↦ OMem m -∗ ld ↦ OMem (pre ++ y ++ post) -∗
  (ls ↦ OMem m -∗ ld ↦ OMem (pre ++ x ++ post) -∗ Q tt []) -∗
  wp mf X (memcpy (Some ld, Z.of_nat (length pre)) (Some ls, i) (Z.of_nat (length x))) Q.
Proof.
  intros Hi Hxy. iIntros "Hs Hd HQ". unfold memcpy.
  iDestruct (pointsto_ne with "Hs Hd") as "(Hs & Hd & %Hne)".
  assert (overlap (Some ld, Z.of_nat (length pre)) (Some ls, i) (Z.of_nat (length x)) = false) as ->.
  { unfold overlap. cbn [fst snd]. rewrite bool_decide_eq_false_2; [done|congruence]. }
  wp_step. iApply (wp_load_bytes with "Hs"); [done|]. iIntros "Hs".
  iApply (wp_store_bytes with "Hd"); [done|]. iIntros "Hd". iApply ("HQ" with "Hs Hd").
Qed.

Lemma wp_load_val l m i v (Q : val → list ev → hpropI obj) n :
  bytes_at m i (encode v) → n = Z.of_nat (sizeof v) →
  l ↦ OMem m -∗ (l ↦ OMem m -∗ Q v []) -∗ wp mf X (load_val n (Some l, i)) Q.
Proof.
  intros Hi ->. iIntros "Hl HQ". unfold load_val. wp_step. rewrite -encode_length.
  iApply (wp_load_bytes with "Hl"); [done|]. iIntros "Hl". rewrite decode_encode. wp_step. by iApply "HQ".
Qed.

Lemma wp_load_int l m i z (Q : Z → list ev → hpropI obj) :
  bytes_at m i (encode (VInt z)) →
  l ↦ OMem m -∗ (l ↦ OMem m -∗ Q z []) -∗ wp mf X (load_int (Some l, i)) Q.
Proof.
  intros Hi. iIntros "Hl HQ". unfold load_int. wp_step. iApply (wp_load_val with "Hl"); [done|done|].
  iIntros "Hl". wp_step. by iApply "HQ".
Qed.

Lemma wp_load_double l m i z (Q : double → list ev → hpropI obj) :
  bytes_at m i (encode (VDbl z)) →
  l ↦ OMem m -∗ (l ↦ OMem m -∗ Q z []) -∗ wp mf X (load_double (Some l, i)) Q.
Proof.
  intros Hi. iIntros "Hl HQ". unfold load_double. wp_step. iApply (wp_load_val with "Hl"); [done|done|].
  iIntros "Hl". wp_step. by iApply "HQ".
Qed.

Lemma wp_load_str l m i z (Q : string → list ev → hpropI obj) :
  bytes_at m i (encode (VStr z)) →
  l ↦ OMem m -∗ (l ↦ OMem m -∗ Q z []) -∗ wp mf X (load_str (Some l, i)) Q.
Proof.
  intros Hi. iIntros "Hl HQ". unfold load_str. wp_step. iApply (wp_load_val with "Hl"); [done|done|].
  iIntros "Hl". wp_step. by iApply "HQ".
Qed.
End wp.

(** ** The comparison functions *)

(** An element as a value of the type: the encoding of an [int], of a string pointer, or
    a player. *)
Definition as_int (x : list byte) : Z := match decode x with Some (VInt z) => z | _ => 0 end.
Definition as_dbl (x : list byte) : double := match decode x with Some (VDbl d) => d | _ => d_zero end.
Definition as_str (x : list byte) : string := match decode x with Some (VStr s) => s | _ => ""%string end.
Definition as_score (x : list byte) : Z := as_int (drop 32 x).

Definition is_int (x : list byte) : Prop := ∃ z, x = encode (VInt z).
Definition is_dbl (x : list byte) : Prop := ∃ d, x = encode (VDbl d).
Definition is_str (x : list byte) : Prop := ∃ s, x = encode (VStr s).
Definition is_player (x : list byte) : Prop := ∃ name z, length name = 32%nat ∧ x = name ++ encode (VInt z).

Definition cmp_Z (a b : Z) : Z := b2z (b <? a) - b2z (a <? b).

Lemma as_int_encode z : as_int (encode (VInt z)) = z.
Proof. unfold as_int. by rewrite decode_encode. Qed.
Lemma as_dbl_encode z : as_dbl (encode (VDbl z)) = z.
Proof. unfold as_dbl. by rewrite decode_encode. Qed.
Lemma as_str_encode z : as_str (encode (VStr z)) = z.
Proof. unfold as_str. by rewrite decode_encode. Qed.
Lemma as_score_player name z : length name = 32%nat → as_score (name ++ encode (VInt z)) = z.
Proof. intros H. unfold as_score. by rewrite -H drop_app_length as_int_encode. Qed.

#[export] Instance cmp_int_compares : Compares cmp_int (λ x y, cmp_Z (as_int x) (as_int y)) is_int.
Proof.
  intros mf X l m i j x y Q [a ->] [b ->] Hi Hj. iIntros "Hl HQ". unfold cmp_int.
  wp_step. iApply (wp_load_int with "Hl"); [done|]. iIntros "Hl".
  wp_step. iApply (wp_load_int with "Hl"); [done|]. iIntros "Hl". wp_step.
  rewrite !as_int_encode. by iApply "HQ".
Qed.

#[export] Instance cmp_double_compares :
  Compares cmp_double (λ x y, b2z (d_gt (as_dbl x) (as_dbl y)) - b2z (d_lt (as_dbl x) (as_dbl y))) is_dbl.
Proof.
  intros mf X l m i j x y Q [a ->] [b ->] Hi Hj. iIntros "Hl HQ". unfold cmp_double.
  wp_step. iApply (wp_load_double with "Hl"); [done|]. iIntros "Hl".
  wp_step. iApply (wp_load_double with "Hl"); [done|]. iIntros "Hl". wp_step.
  rewrite !as_dbl_encode. by iApply "HQ".
Qed.

#[export] Instance cmp_str_compares : Compares cmp_str (λ x y, strcmp (as_str x) (as_str y)) is_str.
Proof.
  intros mf X l m i j x y Q [a ->] [b ->] Hi Hj. iIntros "Hl HQ". unfold cmp_str.
  wp_step. iApply (wp_load_str with "Hl"); [done|]. iIntros "Hl".
  wp_step. iApply (wp_load_str with "Hl"); [done|]. iIntros "Hl". wp_step.
  rewrite !as_str_encode. by iApply "HQ".
Qed.

Lemma score_at m i name z :
  bytes_at m i (name ++ encode (VInt z)) → length name = 32%nat → bytes_at m (i + 32) (encode (VInt z)).
Proof.
  intros Hi Hn. pose proof (bytes_at_part m i _ name (encode (VInt z)) [] Hi) as H.
  rewrite Hn in H. apply H. by rewrite app_nil_r.
Qed.

#[export] Instance cmp_score_compares : Compares cmp_player_score (λ x y, cmp_Z (as_score y) (as_score x)) is_player.
Proof.
  intros mf X l m i j x y Q (na & a & Hna & ->) (nb & b & Hnb & ->) Hi Hj. iIntros "Hl HQ".
  unfold cmp_player_score, load_score, plus. cbn [fst snd].
  wp_step. iApply (wp_load_int with "Hl"); [by eapply score_at|]. iIntros "Hl".
  wp_step. iApply (wp_load_int with "Hl"); [by eapply score_at|]. iIntros "Hl". wp_step.
  rewrite !as_score_player //. by iApply "HQ".
Qed.

Lemma cmp_Z_antisym a b : cmp_Z b a = - cmp_Z a b.
Proof. unfold cmp_Z. lia. Qed.
Lemma cmp_Z_le a b : cmp_Z a b ≤ 0 ↔ a ≤ b.
Proof. unfold cmp_Z, b2z. zb; lia. Qed.

#[export] Instance int_preorder : Preorder_on (λ x y, cmp_Z (as_int x) (as_int y)) is_int.
Proof. split; intros *; [by rewrite cmp_Z_antisym|]. rewrite !cmp_Z_le. lia. Qed.
#[export] Instance str_preorder : Preorder_on (λ x y, strcmp (as_str x) (as_str y)) is_str.
Proof. split; intros *; [by rewrite strcmp_antisym|]. intros _ _ _. apply strcmp_trans. Qed.
#[export] Instance score_preorder : Preorder_on (λ x y, cmp_Z (as_score y) (as_score x)) is_player.
Proof. split; intros *; [by rewrite cmp_Z_antisym|]. rewrite !cmp_Z_le. lia. Qed.

(** ** Swapping *)

(** Two objects are swapped and read back. *)
Definition swap_client (a b : list byte) : M obj (list byte * list byte) :=
  x <- local_mem a ;;
  y <- local_mem b ;;
  let n := Z.of_nat (length a) in
  generic_swap x y n ;;;
  a' <- load_bytes x n ;;
  b' <- load_bytes y n ;;
  free x.1 ;;; free y.1 ;;;
  ret (a', b').

Section wp.
Context (mf : bool) (X : Z → Prop).

Lemma bytes_at_all m : bytes_at m 0 m.
Proof. split; [lia|]. exists [], []. by rewrite app_nil_r. Qed.

Lemma wp_local_mem m (Q : addr → list ev → hpropI obj) :
  (∀ l, l ↦ OMem m -∗ Q (Some l, 0) []) -∗ wp mf X (local_mem m) Q.
Proof. iIntros "HQ". unfold local_mem. wp_step. iApply wp_local. iIntros (l) "Hl". wp_step. by iApply "HQ". Qed.

Lemma wp_load_bytes_all l m n (Q : list byte → list ev → hpropI obj) :
  n = Z.of_nat (length m) →
  l ↦ OMem m -∗ (l ↦ OMem m -∗ Q m []) -∗ wp mf X (load_bytes (Some l, 0) n) Q.
Proof. intros ->. apply wp_load_bytes, bytes_at_all. Qed.

(** [memcpy] of the whole of one block to the start of another. *)
Lemma wp_memcpy_all ls ld x y post (Q : unit → list ev → hpropI obj) n :
  length x = length y → n = Z.of_nat (length x) →
  ls ↦ OMem x -∗ ld ↦ OMem (y ++ post) -∗
  (ls ↦ OMem x -∗ ld ↦ OMem (x ++ post) -∗ Q tt []) -∗
  wp mf X (memcpy (Some ld, 0) (Some ls, 0) n) Q.
Proof. intros Hxy ->. exact (wp_memcpy mf X ls ld x 0 x [] y post Q (bytes_at_all x) Hxy). Qed.

(** The three copies through the block [t]. *)
Lemma wp_swap_through t la lb a b y post k (Q : unit → list ev → hpropI obj) n :
  length a = length b → length a = length y → n = Z.of_nat (length a) →
  la ↦ OMem a -∗ lb ↦ OMem b -∗ t ↦ OMem (y ++ post) -∗
  (la ↦ OMem b -∗ lb ↦ OMem a -∗ t ↦ OMem (a ++ post) -∗ wp mf X k Q) -∗
  wp mf X (memcpy (Some t, 0) (Some la, 0) n ;;; memcpy (Some la, 0) (Some lb, 0) n ;;;
           memcpy (Some lb, 0) (Some t, 0) n ;;; k) Q.
Proof.
  intros Hab Hay ->. iIntros "Ha Hb Ht HQ".
  wp_step. iApply (wp_memcpy_all with "Ha Ht"); [done|done|]. iIntros "Ha Ht".
  wp_step. rewrite -(app_nil_r a).
  iApply (wp_memcpy_all with "Hb Ha"); [lia|rewrite ?app_nil_r; lia|]. rewrite !app_nil_r. iIntros "Hb Ha".
  wp_step. iApply (wp_memcpy _ _ t lb (a ++ post) 0 a [] b [] with "Ht [Hb]"); [|done| |].
  - split; [lia|]. by exists [], post.
  - by rewrite app_nil_r.
  - rewrite app_nil_r. iIntros "Ht Hb". iApply ("HQ" with "Ha Hb Ht").
Qed.

Lemma wp_generic_swap la lb a b n (Q : unit → list ev → hpropI obj) :
  length a = length b → n = Z.of_nat (length a) →
  la ↦ OMem a -∗ lb ↦ OMem b -∗
  (la ↦ OMem b -∗ lb ↦ OMem a -∗ Q tt []) ∧
  (⌈mf = true ∧ 256 < n⌉ -∗ la ↦ OMem a -∗ lb ↦ OMem b -∗ Q tt []) -∗
  wp mf X (generic_swap (Some la, 0) (Some lb, 0) n) Q.
Proof.
  intros Hab Hn. iIntros "Ha Hb HQ". unfold generic_swap.
  wp_step. iApply wp_local. iIntros (t) "Ht". wp_step. destruct (Z.leb_spec n 256).
  - wp_step. assert (replicate 256 Undef = replicate (length a) Undef ++ replicate (256 - length a) Undef) as ->.
    { rewrite -replicate_add. f_equal. lia. }
    wp_step. iApply (wp_swap_through with "Ha Hb Ht"); [done|by rewrite length_replicate|done|].
    iIntros "Ha Hb Ht". rewrite bool_decide_eq_true_2 //. cbn [negb]. wp_run.
    iDestruct "HQ" as "[HQ _]". iApply ("HQ" with "Ha Hb").
  - iApply wp_malloc. iIntros ([u|]) "%Hu Hu"; wp_step.
    + iDestruct (pointsto_ne with "Hu Ht") as "(Hu & Ht & %Hne)".
      rewrite -(app_nil_r (replicate _ _)).
      iApply (wp_swap_through with "Ha Hb Hu"); [done|rewrite length_replicate; lia|done|].
      iIntros "Ha Hb Hu". rewrite bool_decide_eq_false_2; [|congruence]. cbn [negb]. wp_run.
      iDestruct "HQ" as "[HQ _]". iApply ("HQ" with "Ha Hb").
    + wp_run. iDestruct "HQ" as "[_ HQ]". iApply ("HQ" with "[] Ha Hb"). iPureIntro. split; [auto|lia].
Qed.

Lemma wp_swap_client a b :
  length a = length b →
  ⊢ wp mf X (swap_client a b) (λ r o, ⌈o = [] ∧ (r = (b, a) ∨ mf = true ∧ 256 < Z.of_nat (length a) ∧ r = (a, b))⌉).
Proof.
  intros Hab. iStartProof. unfold swap_client. wp_step. iApply wp_local_mem. iIntros (x) "Hx".
  wp_step. iApply wp_local_mem. iIntros (y) "Hy". wp_step.
  iApply (wp_generic_swap with "Hx Hy"); [done|done|]. iSplit; [|iIntros "%Hf"]; iIntros "Hx Hy".
  all: wp_step; iApply (wp_load_bytes_all with "Hx"); [lia|]; iIntros "Hx".
  all: wp_step; iApply (wp_load_bytes_all with "Hy"); [lia|]; iIntros "Hy"; cbn [fst]; wp_run.
  all: iPureIntro; naive_solver.
Qed.

(** ** The minimum *)

(** The index of the first minimum of the elements 0 to [k]. *)
Fixpoint argmin (c : list byte → list byte → Z) (xs : list (list byte)) (k : nat) : nat :=
  match k with
  | O => O
  | S k' => let b := argmin c xs k' in if c (nth k xs []) (nth b xs []) <? 0 then k else b
  end.

Lemma argmin_le c xs k : (argmin c xs k ≤ k)%nat.
Proof. induction k as [|k IH]; simpl; [lia|]. destruct (_ <? _); lia. Qed.

Lemma nth_Forall {A} (P : A → Prop) xs d i : Forall P xs → (i < length xs)%nat → P (nth i xs d).
Proof.
  intros H Hi. apply lookup_lt_is_Some in Hi as [x Hx]. rewrite (nth_lookup_Some _ _ _ _ Hx).
  by eapply Forall_lookup_1.
Qed.

Lemma argmin_spec c P `{!Preorder_on c P} xs k :
  Forall P xs → (k < length xs)%nat →
  let b := argmin c xs k in
  (∀ j, (j ≤ k)%nat → c (nth b xs []) (nth j xs []) ≤ 0) ∧
  (∀ j, (j < b)%nat → 0 < c (nth j xs []) (nth b xs [])).
Proof.
  intros HP. pose proof (λ i, nth_Forall P xs [] i HP) as N.
  assert (∀ x, P x → c x x = 0) as Hrefl by (intros x Hx; pose proof (cmp_antisym x x Hx Hx); lia).
  induction k as [|k IH]; intros Hk; simpl.
  - split; intros j Hj; [|lia]. assert (j = 0%nat) as -> by lia. rewrite Hrefl; [lia|]. apply N. lia.
  - destruct IH as [IH1 IH2]; [lia|]. pose proof (argmin_le c xs k) as Hb. set (b := argmin c xs k) in *.
    pose proof (N b ltac:(lia)) as Pb. pose proof (N (S k) ltac:(lia)) as Pk.
    destruct (Z.ltb_spec (c (nth (S k) xs []) (nth b xs [])) 0) as [Hlt|Hge].
    + assert (∀ j, (j ≤ k)%nat → c (nth (S k) xs []) (nth j xs []) < 0) as Hall.
      { intros j Hj. pose proof (N j ltac:(lia)) as Pj. pose proof (IH1 j Hj) as H1.
        destruct (Z.lt_ge_cases (c (nth (S k) xs []) (nth j xs [])) 0); [done|exfalso].
        pose proof (cmp_antisym _ _ Pk Pj). pose proof (cmp_antisym _ _ Pk Pb).
        pose proof (cmp_trans _ _ _ Pb Pj Pk H1). lia. }
      split; intros j Hj.
      * destruct (decide (j = S k)) as [->|]; [by rewrite Hrefl|]. specialize (Hall j). lia.
      * pose proof (N j ltac:(lia)) as Pj. pose proof (cmp_antisym _ _ Pk Pj). specialize (Hall j). lia.
    + split; [|done]. intros j Hj. destruct (decide (j = S k)) as [->|]; [|apply IH1; lia].
      pose proof (cmp_antisym _ _ Pb Pk). lia.
Qed.

Lemma concat_length (ys : list (list byte)) size :
  Forall (λ x, length x = size) ys → length (concat ys) = (length ys * size)%nat.
Proof. induction 1 as [|y ys Hy _ IH]; [done|]. simpl. rewrite length_app IH. lia. Qed.

Lemma elem_bytes_at (xs : list (list byte)) size i x :
  Forall (λ x, length x = size) xs → xs !! i = Some x →
  bytes_at (concat xs) (Z.of_nat i * Z.of_nat size) x.
Proof.
  intros Hs Hi. split; [lia|]. exists (concat (take i xs)), (concat (drop (S i) xs)).
  split.
  - rewrite -{1}(take_drop_middle _ _ _ Hi) concat_app. done.
  - pose proof (lookup_lt_Some _ _ _ Hi) as Hl.
    rewrite (concat_length _ size); [|by apply Forall_take]. rewrite length_take. lia.
Qed.

(** Element [i] of an array, possibly followed by other bytes. *)
Lemma nth_bytes_at (xs : list (list byte)) size rest i :
  Forall (λ x, length x = size) xs → (i < length xs)%nat →
  bytes_at (concat xs ++ rest) (Z.of_nat i * Z.of_nat size) (nth i xs []).
Proof.
  intros Hs Hi. apply lookup_lt_is_Some in Hi as [x Hx]. rewrite (nth_lookup_Some _ _ _ _ Hx).
  destruct (elem_bytes_at xs size i x Hs Hx) as (H0 & pre & post & -> & Hp).
  split; [done|]. exists pre, (post ++ rest). by rewrite -!app_assoc.
Qed.

Lemma wp_generic_min cmp c P `{!Compares cmp c P} l xs size rest (Q : addr → list ev → hpropI obj) :
  Forall P xs → Forall (λ x, length x = size) xs → xs ≠ [] →
  Z.of_nat (length xs) * Z.of_nat size < 2 ^ 64 →
  l ↦ OMem (concat xs ++ rest) -∗
  (l ↦ OMem (concat xs ++ rest) -∗
     Q (Some l, Z.of_nat (argmin c xs (length xs - 1)) * Z.of_nat size) []) -∗
  wp mf X (generic_min (Some l, 0) (Z.of_nat (length xs)) (Z.of_nat size) cmp) Q.
Proof.
  intros HP Hs Hne Hsz. iIntros "Hl HQ". unfold generic_min.
  assert (0 < length xs)%nat as Hlen by (destruct xs; simpl; [done|lia]).
  iApply (wp_for_range _ _ (λ (i : Z) (best : addr) (o : list ev),
    (⌈best = (Some l, (Z.of_nat (argmin c xs (Z.to_nat (i - 1))) * Z.of_nat size)%Z) ∧ o = []⌉ ∗
      l ↦ OMem (concat xs ++ rest))%I) with "[Hl]").
  - lia.
  - intros i best o Hi. iIntros "[%H Hl]". destruct H as [-> ->].
    set (b := argmin c xs (Z.to_nat (i - 1))).
    pose proof (argmin_le c xs (Z.to_nat (i - 1))) as Hb. fold b in Hb.
    assert (u64 (i * Z.of_nat size) = i * Z.of_nat size) as -> by (apply Z.mod_small; nia).
    unfold plus. cbn [fst snd].
    wp_step. iApply (wp_cmp _ _ _ _ _ _ (nth (Z.to_nat i) xs []) (nth b xs []) with "Hl").
    + apply nth_Forall; [done|lia].
    + apply nth_Forall; [done|lia].
    + replace i with (Z.of_nat (Z.to_nat i)) at 1 by lia. apply nth_bytes_at; [done|lia].
    + apply nth_bytes_at; [done|lia].
    + iIntros "Hl". replace (Z.to_nat (i + 1 - 1)) with (S (Z.to_nat (i - 1))) by lia. simpl argmin. fold b.
      replace (S (Z.to_nat (i - 1))) with (Z.to_nat i) by lia.
      destruct (_ <? 0); wp_step; iSplitR; [|done| |done]; iPureIntro; split; try done. f_equal. lia.
  - iSplitR; [|done]. by iPureIntro.
  - iIntros (s' o') "[%H Hl]". destruct H as [-> ->].
    replace (Z.to_nat (Z.of_nat (length xs) - 1)) with (length xs - 1)%nat by lia. by iApply "HQ".
Qed.
End wp.

(** ** Sorting *)

(** What the C library promises of [qsort]: for a comparison that is a total preorder
    of the elements, the permutation it chooses sorts them. *)
Class Orders (order : (nat → nat → Z) → nat → list nat) : Prop :=
  order_spec c n :
    (∀ i j, (i < n)%nat → (j < n)%nat → c j i = - c i j) →
    (∀ i j k, (i < n)%nat → (j < n)%nat → (k < n)%nat → c i j ≤ 0 → c j k ≤ 0 → c i k ≤ 0) →
    order c n ≡ₚ seq 0 n ∧ StronglySorted (λ i j, c i j ≤ 0) (order c n).

(** An order that sorts: insertion. *)
Fixpoint insert_index (c : nat → nat → Z) (x : nat) (l : list nat) : list nat :=
  match l with
  | [] => [x]
  | y :: l' => if c x y <=? 0 then x :: l else y :: insert_index c x l'
  end.
Definition insertion_order (c : nat → nat → Z) (n : nat) : list nat := foldr (insert_index c) [] (seq 0 n).

Lemma insert_index_perm c x l : insert_index c x l ≡ₚ x :: l.
Proof.
  induction l as [|y l IH]; simpl; [done|]. destruct (_ <=? _); [done|].
  rewrite IH. constructor.
Qed.

Lemma insert_index_sorted c x l :
  (∀ i j, i ∈ x :: l → j ∈ x :: l → c j i = - c i j) →
  (∀ i j k, i ∈ x :: l → j ∈ x :: l → k ∈ x :: l → c i j ≤ 0 → c j k ≤ 0 → c i k ≤ 0) →
  StronglySorted (λ i j, c i j ≤ 0) l → StronglySorted (λ i j, c i j ≤ 0) (insert_index c x l).
Proof.
  intros Ha Ht. induction 1 as [|y l Hl IH Hy]; simpl.
  - by repeat constructor.
  - destruct (Z.leb_spec (c x y) 0).
    + constructor; [by constructor|]. constructor; [done|]. apply Forall_forall.
      intros z Hz. pose proof (proj1 (Forall_forall _ _) Hy z Hz). apply (Ht x y z); rewrite ?elem_of_cons; auto.
    + constructor.
      * assert (∀ i, i ∈ x :: l → i ∈ x :: y :: l) as Hsub by (intros i; rewrite !elem_of_cons; tauto).
        apply IH; [intros i j ? ?; apply Ha; auto|intros i j k ? ? ? ? ?; apply (Ht i j k); auto].
      * rewrite insert_index_perm. constructor; [|done].
        pose proof (Ha x y ltac:(rewrite !elem_of_cons; auto) ltac:(rewrite !elem_of_cons; auto)). lia.
Qed.

#[export] Instance insertion_orders : Orders insertion_order.
Proof.
  intros c n Ha Ht. unfold insertion_order. 
  assert (∀ l, l ⊆+ seq 0 n → foldr (insert_index c) [] l ≡ₚ l ∧
    StronglySorted (λ i j, c i j ≤ 0) (foldr (insert_index c) [] l)) as H; [|by apply H].
  assert (∀ l i, l ⊆+ seq 0 n → i ∈ l → (i < n)%nat) as Hin.
  { intros l i Hl Hi. eapply elem_of_submseteq in Hi; [|done]. rewrite elem_of_seq in Hi. lia. }
  induction l as [|x l IH]; intros Hl; simpl.
  - split; [done|constructor].
  - destruct IH as [Hp Hs]; [etrans; [|done]; by apply submseteq_cons|].
    split; [by rewrite insert_index_perm Hp|].
    apply insert_index_sorted; [| |done]; setoid_rewrite Hp; intros *; eauto.
Qed.

Section wp.
Context (mf : bool) (X : Z → Prop).
Context (order : (nat → nat → Z) → nat → list nat) `{!Orders order}.
Context (cmp : comparator) (c : list byte → list byte → Z) (P : list byte → Prop).
Context `{!Compares cmp c P, !Preorder_on c P}.

Definition elem_cmp (xs : list (list byte)) (i j : nat) : Z := c (nth i xs []) (nth j xs []).

Lemma wp_compare_all l xs size rest (Q : list (list Z) → list ev → hpropI obj) :
  Forall P xs → Forall (λ x, length x = size) xs →
  l ↦ OMem (concat xs ++ rest) -∗
  (l ↦ OMem (concat xs ++ rest) -∗
     Q ((λ i, elem_cmp xs i <$> seq 0 (length xs)) <$> seq 0 (length xs)) []) -∗
  wp mf X (compare_all (Some l, 0) (Z.of_nat (length xs)) (Z.of_nat size) cmp) Q.
Proof.
  intros HP Hs. iIntros "Hl HQ". unfold compare_all.
  iApply (wp_for_range _ _ (λ (i : Z) (rows : list (list Z)) (o : list ev),
    (⌈rows = (λ i, elem_cmp xs i <$> seq 0 (length xs)) <$> seq 0 (Z.to_nat i) ∧ o = []⌉ ∗
      l ↦ OMem (concat xs ++ rest))%I) with "[Hl]").
  - lia.
  - intros i rows o Hi. iIntros "[%H Hl]". destruct H as [-> ->]. wp_step.
    iApply (wp_for_range _ _ (λ (j : Z) (row : list Z) (o : list ev),
      (⌈row = elem_cmp xs (Z.to_nat i) <$> seq 0 (Z.to_nat j) ∧ o = []⌉ ∗
        l ↦ OMem (concat xs ++ rest))%I) with "[Hl]").
    + lia.
    + intros j row o Hj. iIntros "[%H Hl]". destruct H as [-> ->]. unfold plus. cbn [fst snd]. wp_step.
      iApply (wp_cmp _ _ _ _ _ _ (nth (Z.to_nat i) xs []) (nth (Z.to_nat j) xs []) with "Hl");
        [apply nth_Forall; [done|lia]..| | |].
      * replace i with (Z.of_nat (Z.to_nat i)) at 1 by lia. apply nth_bytes_at; [done|lia].
      * replace j with (Z.of_nat (Z.to_nat j)) at 1 by lia. apply nth_bytes_at; [done|lia].
      * iIntros "Hl". wp_step. iSplitR; [|done]. iPureIntro. split; [|done].
        replace (Z.to_nat (j + 1)) with (S (Z.to_nat j)) by lia. by rewrite seq_S fmap_app.
    + iSplitR; [|done]. by iPureIntro.
    + iIntros (row o) "[%H Hl]". destruct H as [-> ->]. wp_step. iSplitR; [|done]. iPureIntro.
      split; [|done]. replace (Z.to_nat (i + 1)) with (S (Z.to_nat i)) by lia.
      by rewrite seq_S fmap_app !Nat2Z.id.
  - iSplitR; [|done]. by iPureIntro.
  - iIntros (rows o) "[%H Hl]". destruct H as [-> ->]. rewrite Nat2Z.id. by iApply "HQ".
Qed.

Lemma nth_fmap_seq {A} (f : nat → A) n i d : (i < n)%nat → nth i (f <$> seq 0 n) d = f i.
Proof. intros Hi. apply nth_lookup_Some. rewrite list_lookup_fmap lookup_seq_lt //. Qed.

Lemma chunk_concat xs size i :
  Forall (λ x, length x = size) xs → (i < length xs)%nat → chunk size (concat xs) i = nth i xs [].
Proof.
  intros Hs Hi. destruct (nth_bytes_at xs size [] i Hs Hi) as (_ & pre & post & E & Hp).
  rewrite app_nil_r in E. unfold chunk. rewrite E.
  replace (i * size)%nat with (length pre) by lia. rewrite drop_app_length.
  assert (length (nth i xs []) = size) as <- by by apply (nth_Forall (λ x, length x = size)).
  by rewrite take_app_length.
Qed.

Lemma wp_qsort l xs size rest (Q : unit → list ev → hpropI obj) :
  Forall P xs → Forall (λ x, length x = size) xs → xs ≠ [] →
  l ↦ OMem (concat xs ++ rest) -∗
  (∀ ys, ⌈ys ≡ₚ xs ∧ StronglySorted (λ x y, c x y ≤ 0) ys⌉ -∗ l ↦ OMem (concat ys ++ rest) -∗ Q tt []) -∗
  wp mf X (qsort order (Some l, 0) (Z.of_nat (length xs)) (Z.of_nat size) cmp) Q.
Proof.
  intros HP Hs Hne. iIntros "Hl HQ". unfold qsort.
  destruct (Z.eqb_spec (Z.of_nat (length xs)) 0); [by destruct xs|].
  wp_step. iApply (wp_compare_all with "Hl"); [done|done|]. iIntros "Hl".
  rewrite !Nat2Z.id. set (rows := _ <$> seq 0 (length xs)).
  assert (∀ i j, (i < length xs)%nat → (j < length xs)%nat →
    nth j (nth i rows []) 0 = elem_cmp xs i j) as Hrows.
  { intros i j Hi Hj. unfold rows. by rewrite !nth_fmap_seq. }
  set (perm := order _ _).
  destruct (order_spec (λ i j, nth j (nth i rows []) 0) (length xs)) as [Hp Hsort].
  { intros i j Hi Hj. rewrite !Hrows // /elem_cmp. apply (cmp_antisym (P:=P)); by apply nth_Forall. }
  { intros i j k Hi Hj Hk. rewrite !Hrows // /elem_cmp. apply (cmp_trans (P:=P)); by apply nth_Forall. }
  fold perm in Hp, Hsort.
  assert (Forall (λ i, (i < length xs)%nat) perm) as Hlt.
  { rewrite Hp. apply Forall_forall. intros i Hi%elem_of_seq. lia. }
  set (ys := (λ i, nth i xs []) <$> perm).
  assert (flat_map (chunk size (concat xs)) perm = concat ys) as Hys.
  { unfold ys. clear Hp Hsort. induction Hlt as [|i p Hi _ IH]; [done|]. simpl. by rewrite IH chunk_concat. }
  assert (ys ≡ₚ xs) as Hperm.
  { unfold ys. rewrite Hp. clear. apply reflexive_eq. apply list_eq. intros i.
    rewrite list_lookup_fmap. destruct (decide (i < length xs)%nat) as [Hi|Hi].
    - rewrite lookup_seq_lt //. simpl. apply lookup_lt_is_Some in Hi as [x Hx].
      by rewrite Hx (nth_lookup_Some _ _ _ _ Hx).
    - rewrite lookup_seq_ge; [|lia]. simpl. symmetry. apply lookup_ge_None. lia. }
  assert (StronglySorted (λ x y, c x y ≤ 0) ys) as Hsorted.
  { unfold ys. clear -Hsort Hlt Hrows. induction Hsort as [|i p Hs' IH Hi]; [constructor|].
    apply Forall_cons in Hlt as [Hlt1 Hlt2]. simpl. constructor; [by apply IH|].
    rewrite Forall_fmap. apply Forall_forall. intros j Hj. simpl.
    pose proof (proj1 (Forall_forall _ _) Hi j Hj) as Hij. simpl in Hij. rewrite Hrows // in Hij.
    by apply (proj1 (Forall_forall _ _) Hlt2). }
  assert (Z.of_nat (length xs) * Z.of_nat size = Z.of_nat (length (concat xs))) as ->.
  { rewrite (concat_length _ size) //. lia. }
  wp_step. iApply (wp_load_bytes with "Hl"); [exact (bytes_at_intro [] (concat xs) rest)|]. iIntros "Hl".
  rewrite Hys. iApply (wp_store_bytes _ _ l [] (concat xs) (concat ys) rest with "Hl").
  - rewrite !(concat_length _ size) //; [|by rewrite Hperm]. by rewrite Hperm.
  - iIntros "Hl". iApply ("HQ" with "[] Hl"). by iPureIntro.
Qed.
End wp.

(** ** The dynamic array *)

Definition read_vec (v : ptr) : M obj (list (list byte)) :=
  g <- load v ;;
  for_range 0 (len g) (λ i acc,
    p <- genvec_get v i ;; x <- load_bytes p (esize g) ;; ret (acc ++ [x])) [].

(** A client: every element is pushed, the vector is read, sorted and read again; then
    it is freed.  The element past the end is asked for, too. *)
Definition vec_client (order : (nat → nat → Z) → nat → list nat) (cmp : comparator) (size : Z)
    (xs : list (list byte)) : M obj (list Z * list (list byte) * ptr * list (list byte)) :=
  v <- local (OVec (genvec_new size)) ;;
  rcs <- for_list xs (λ x rcs,
    e <- local_mem x ;; r <- genvec_push v e ;; free e.1 ;;; ret (rcs ++ [r])) [] ;;
  before <- read_vec v ;;
  g <- load v ;;
  past <- genvec_get v (len g) ;;
  genvec_sort order v cmp ;;;
  after <- read_vec v ;;
  genvec_free v ;;;
  free v ;;;
  ret (rcs, before, past.1, after).

(** The elements whose push succeeded. *)
Definition stored (xs : list (list byte)) (rcs : list Z) : list (list byte) :=
  (filter (λ p, p.2 = 0) (zip xs rcs)).*1.

Lemma stored_snoc xs rcs x r :
  length xs = length rcs →
  stored (xs ++ [x]) (rcs ++ [r]) = stored xs rcs ++ (if decide (r = 0) then [x] else []).
Proof.
  intros Hl. unfold stored. rewrite zip_with_app // filter_app fmap_app. f_equal. simpl.
  rewrite filter_cons. simpl. by destruct (decide (r = 0)).
Qed.

Lemma stored_length xs rcs : (length (stored xs rcs) ≤ length xs)%nat.
Proof.
  unfold stored. rewrite length_fmap. etrans; [apply length_filter|].
  rewrite length_zip_with. lia.
Qed.

Section vec.
Context (mf : bool) (X : Z → Prop).
Context (size : nat) (Hsize : (0 < size)%nat).

Definition block (p : ptr) (elems : list (list byte)) (n : Z) : hpropI obj :=
  match p with
  | None => ⌈elems = [] ∧ n = 0⌉
  | Some l => ∃ rest, ⌈0 < n ∧ Z.of_nat (length (concat elems ++ rest)) = (n * Z.of_nat size)%Z⌉ ∗
                l ↦ OMem (concat elems ++ rest)
  end%I.

Definition header_of (p : ptr) (n : Z) (elems : list (list byte)) : GenVec :=
  {| data := p; len := Z.of_nat (length elems); cap := n; esize := Z.of_nat size |}.

Definition vec (v : positive) (elems : list (list byte)) : hpropI obj :=
  (∃ p n, ⌈Forall (λ x, length x = size) elems ∧
           Z.of_nat (length elems) ≤ n ≤ (2 * Z.of_nat (length elems) + 4)%Z⌉ ∗
     v ↦ OVec (header_of p n elems) ∗ block p elems n)%I.

(** The sizes that occur for [k] elements fit in [size_t]. *)
Definition fits (k : nat) : Prop := (2 * Z.of_nat k + 4) * Z.of_nat size < 2 ^ 64.

Lemma wp_realloc p elems n k (Q : ptr → list ev → hpropI obj) :
  n < k →
  block p elems n -∗
  ((⌈mf = true⌉ -∗ block p elems n -∗ Q None []) ∧
   (∀ l, block (Some l) elems k -∗ Q (Some l) [])) -∗
  wp mf X (realloc p (k * Z.of_nat size)%Z) Q.
Proof.
  intros Hk. iIntros "Hb HQ". destruct p as [l|]; cbn [realloc block].
  - iDestruct "Hb" as (rest [Hn Hlen]) "Hl". wp_step. wp_step. wp_step. iApply wp_malloc.
    iIntros ([q|]) "%Hq Hm".
    + wp_run. iDestruct "HQ" as "[_ HQ]". iApply "HQ".
      set (m := concat elems ++ rest) in *.
      set (t := Z.to_nat (k * Z.of_nat size)).
      assert (length m ≤ t)%nat as Hmt by (unfold t; nia).
      iExists (take (t - length (concat elems)) (rest ++ replicate t Undef)).
      assert (length (concat elems) ≤ t)%nat as Hct by (unfold m in Hmt; rewrite length_app in Hmt; lia).
      assert (take t (m ++ replicate t Undef) =
        concat elems ++ take (t - length (concat elems)) (rest ++ replicate t Undef)) as <-.
      { unfold m. rewrite -app_assoc take_app. f_equal. by apply take_ge. }
      iSplitR; [|done]. iPureIntro. split; [lia|]. rewrite length_take length_app length_replicate. unfold t. lia.
    + wp_run. iDestruct "HQ" as "[HQ _]". iApply ("HQ" with "[] [Hl]"); [iPureIntro; auto|].
      iExists rest. iFrame "Hl". by iPureIntro.
  - iDestruct "Hb" as %[-> ->]. iApply wp_malloc. iIntros ([q|]) "%Hq Hm".
    + iDestruct "HQ" as "[_ HQ]". iApply "HQ". iExists _. iFrame "Hm". iPureIntro.
      split; [done|]. simpl. rewrite length_replicate. nia.
    + iDestruct "HQ" as "[HQ _]". iApply ("HQ" with "[]"); iPureIntro; auto.
Qed.

Lemma wp_ensure_room v elems (Q : bool → list ev → hpropI obj) :
  fits (length elems) →
  vec v elems -∗
  ((⌈mf = true⌉ -∗ vec v elems -∗ Q false []) ∧
   (∀ l rest n, ⌈Forall (λ x, length x = size) elems ∧ Z.of_nat (length elems) < n ≤ (2 * Z.of_nat (length elems) + 4)%Z ∧
      Z.of_nat (length (concat elems ++ rest)) = (n * Z.of_nat size)%Z⌉ -∗
      v ↦ OVec (header_of (Some l) n elems) -∗ l ↦ OMem (concat elems ++ rest) -∗ Q true [])) -∗
  wp mf X (ensure_room (Some v)) Q.
Proof.
  unfold fits. intros Hf. iIntros "Hv HQ". iDestruct "Hv" as (p n [Hs Hn]) "[Hv Hb]". unfold ensure_room.
  wp_step. wp_step. cbn [len cap data esize header_of].
  destruct (Z.eqb_spec (Z.of_nat (length elems)) n) as [<-|Hne].
  - set (newcap := if _ =? 0 then 4 else _).
    assert (Z.of_nat (length elems) < newcap ≤ 2 * Z.of_nat (length elems) + 4) as Hc.
    { unfold newcap, u64. zb; [lia|]. rewrite Z.mod_small; nia. }
    assert (u64 (newcap * Z.of_nat size) = newcap * Z.of_nat size) as -> by (apply Z.mod_small; nia).
    wp_step. iApply (wp_realloc with "Hb"); [lia|]. iSplit.
    + iIntros "%Hm Hb". wp_run. iDestruct "HQ" as "[HQ _]". iApply ("HQ" with "[] [Hv Hb]"); [done|].
      iExists p, _. iSplitR; [|by iSplitL "Hv"]. iPureIntro. split; [done|lia].
    + iIntros (l) "Hb". wp_run. iDestruct "HQ" as "[_ HQ]". cbn [block].
      iDestruct "Hb" as (rest [Hk Hlen]) "Hl". iApply ("HQ" with "[] Hv Hl"). by iPureIntro.
  - wp_step. destruct p as [l|]; cbn [block].
    + iDestruct "Hb" as (rest [Hk Hlen]) "Hl". iDestruct "HQ" as "[_ HQ]".
      iApply ("HQ" with "[] Hv Hl"). iPureIntro. split_and!; [done|lia..].
    + iDestruct "Hb" as %[-> ->]. done.
Qed.

Lemma wp_genvec_push v elems e x (Q : Z → list ev → hpropI obj) :
  length x = size → fits (length elems) →
  vec v elems -∗ e ↦ OMem x -∗
  ((⌈mf = true⌉ -∗ vec v elems -∗ e ↦ OMem x -∗ Q (-1) []) ∧
   (vec v (elems ++ [x]) -∗ e ↦ OMem x -∗ Q 0 [])) -∗
  wp mf X (genvec_push (Some v) (Some e, 0)) Q.
Proof.
  intros Hx Hf. iIntros "Hv He HQ". unfold genvec_push. wp_step.
  iApply (wp_ensure_room with "Hv"); [done|]. unfold fits in Hf. iSplit.
  - iIntros "%Hm Hv". cbn [negb]. wp_step. iDestruct "HQ" as "[HQ _]". iApply ("HQ" with "[] Hv He"). done.
  - iIntros (l rest n (Hs & Hn & Hlen)) "Hv Hl". cbn [negb]. wp_step. wp_step. cbn [data len esize header_of].
    assert (u64 (Z.of_nat (length elems) * Z.of_nat size) = Z.of_nat (length (concat elems))) as ->.
    { unfold u64. rewrite (concat_length _ size) // Z.mod_small; nia. }
    rewrite length_app in Hlen. pose proof (concat_length _ _ Hs) as Hc.
    assert (rest = take size rest ++ drop size rest) as Er by by rewrite take_drop.
    rewrite {1}Er. wp_step. rewrite -Hx.
    iApply (wp_memcpy _ _ e l x 0 x (concat elems) (take (length x) rest) with "He Hl").
    + apply bytes_at_all.
    + rewrite length_take. nia.
    + iIntros "He Hl". wp_run. iDestruct "HQ" as "[_ HQ]". iApply ("HQ" with "[Hv Hl] He").
      iExists (Some l), n. iSplitR.
      { iPureIntro. rewrite Forall_app Forall_singleton length_app /=. split; [done|lia]. }
      assert (u64 (Z.of_nat (length elems) + 1) = Z.of_nat (length (elems ++ [x]))) as E.
      { unfold u64. rewrite length_app /= Z.mod_small; nia. }
      unfold set_len, header_of. cbn [data len cap esize]. rewrite E. iSplitL "Hv"; [done|].
      iExists (drop (length x) rest). rewrite concat_app /= app_nil_r -app_assoc. iFrame "Hl".
      iPureIntro. split; [lia|]. rewrite !length_app length_drop. nia.
Qed.

Lemma wp_genvec_get v p n elems i (Q : addr → list ev → hpropI obj) :
  fits (length elems) → 0 ≤ i →
  v ↦ OVec (header_of p n elems) -∗
  (v ↦ OVec (header_of p n elems) -∗
     Q (if Z.of_nat (length elems) <=? i then (None, 0) else (p, (i * Z.of_nat size)%Z)) []) -∗
  wp mf X (genvec_get (Some v) i) Q.
Proof.
  unfold fits. intros Hf Hi. iIntros "Hv HQ". unfold genvec_get. wp_step. wp_step. cbn [len data esize header_of].
  destruct (Z.leb_spec (Z.of_nat (length elems)) i); wp_step; [by iApply "HQ"|].
  assert (u64 (i * Z.of_nat size) = i * Z.of_nat size) as -> by (apply Z.mod_small; nia). by iApply "HQ".
Qed.

Lemma wp_read_vec v elems (Q : list (list byte) → list ev → hpropI obj) :
  fits (length elems) →
  vec v elems -∗ (vec v elems -∗ Q elems []) -∗ wp mf X (read_vec (Some v)) Q.
Proof.
  intros Hf. iIntros "Hv HQ". iDestruct "Hv" as (p n [Hs Hn]) "[Hv Hb]". unfold read_vec.
  wp_step. wp_step. cbn [len esize header_of].
  iApply (wp_for_range _ _ (λ (i : Z) (acc : list (list byte)) (o : list ev),
    (⌈acc = take (Z.to_nat i) elems ∧ o = []⌉ ∗ v ↦ OVec (header_of p n elems) ∗ block p elems n)%I)
    with "[Hv Hb]").
  - lia.
  - intros i acc o Hi. iIntros "(%H & Hv & Hb)". destruct H as [-> ->]. wp_step.
    iApply (wp_genvec_get with "Hv"); [done|lia|]. iIntros "Hv".
    destruct (Z.leb_spec (Z.of_nat (length elems)) i); [lia|]. wp_step.
    destruct p as [l|]; cbn [block]; [|iDestruct "Hb" as %[-> ->]; simpl in *; lia].
    iDestruct "Hb" as (rest Hr) "Hl".
    assert (is_Some (elems !! Z.to_nat i)) as [x Hx] by (apply lookup_lt_is_Some; lia).
    pose proof (nth_bytes_at elems size rest (Z.to_nat i) Hs ltac:(lia)) as Hat.
    rewrite (nth_lookup_Some _ _ _ _ Hx) Z2Nat.id in Hat; [|lia].
    assert (Z.of_nat size = Z.of_nat (length x)) as Hsz.
    { f_equal. symmetry. by apply (Forall_lookup_1 _ _ _ _ Hs Hx). }
    rewrite {2}Hsz. iApply (wp_load_bytes with "Hl"); [done|]. iIntros "Hl". wp_step.
    iSplitR; [|iSplitL "Hv"; [done|iExists rest; iFrame "Hl"; by iPureIntro]].
    iPureIntro. split; [|done]. replace (Z.to_nat (i + 1)) with (S (Z.to_nat i)) by lia.
    by rewrite (take_S_r _ _ _ Hx).
  - iSplitR; [by iPureIntro|]. by iSplitL "Hv".
  - iIntros (acc o) "(%H & Hv & Hb)". destruct H as [-> ->]. rewrite Nat2Z.id firstn_all.
    iApply "HQ". iExists p, n. iSplitR; [by iPureIntro|]. by iSplitL "Hv".
Qed.

Lemma wp_genvec_sort order `{!Orders order} cmp c P `{!Compares cmp c P, !Preorder_on c P}
    v elems (Q : unit → list ev → hpropI obj) :
  Forall P elems →
  vec v elems -∗
  (∀ ys, ⌈ys ≡ₚ elems ∧ StronglySorted (λ x y, c x y ≤ 0) ys⌉ -∗ vec v ys -∗ Q tt []) -∗
  wp mf X (genvec_sort order (Some v) cmp) Q.
Proof.
  intros HP. iIntros "Hv HQ". iDestruct "Hv" as (p n [Hs Hn]) "[Hv Hb]". unfold genvec_sort.
  wp_step. wp_step. cbn [data len esize header_of]. destruct (decide (elems = [])) as [->|Hne].
  - unfold qsort. change (Z.of_nat (length []) =? 0) with true. wp_step. iApply ("HQ" $! [] with "[]").
    + iPureIntro. split; [done|constructor].
    + iExists p, n. iSplitR; [by iPureIntro|]. by iSplitL "Hv".
  - destruct p as [l|]; cbn [block]; [|by iDestruct "Hb" as %[-> ->]].
    iDestruct "Hb" as (rest [Hk Hlen]) "Hl". iApply (wp_qsort with "Hl"); [done..|].
    iIntros (ys) "%Hys Hl". destruct Hys as [Hperm Hsort]. iApply ("HQ" with "[]"); [by iPureIntro|].
    assert (Forall (λ x, length x = size) ys) as Hs' by by rewrite Hperm.
    assert (length ys = length elems) as El by by rewrite Hperm.
    assert (header_of (Some l) n elems = header_of (Some l) n ys) as -> by (unfold header_of; by rewrite El).
    iExists (Some l), n. iSplitR; [iPureIntro; split; [done|lia]|].
    iSplitL "Hv"; [done|]. iExists rest. iFrame "Hl". iPureIntro. split; [done|].
    rewrite -Hlen !length_app !(concat_length _ size) // El //.
Qed.

Lemma wp_genvec_free v elems (Q : unit → list ev → hpropI obj) :
  vec v elems -∗ (v ↦ OVec (header_of None 0 []) -∗ Q tt []) -∗ wp mf X (genvec_free (Some v)) Q.
Proof.
  iIntros "Hv HQ". iDestruct "Hv" as (p n [Hs Hn]) "[Hv Hb]". unfold genvec_free.
  wp_step. wp_step. cbn [data header_of]. destruct p as [l|]; cbn [block].
  - iDestruct "Hb" as (rest [Hk Hlen]) "Hl". wp_run. by iApply "HQ".
  - iDestruct "Hb" as "_". wp_run. by iApply "HQ".
Qed.

Lemma wp_push_list v done xs rcs (Q : list Z → list ev → hpropI obj) :
  Forall (λ x, length x = size) xs → length done = length rcs → fits (length done + length xs) →
  vec v (stored done rcs) -∗
  (∀ new, ⌈length new = length xs ∧ Forall (λ r, r = 0 ∨ mf = true ∧ r = -1) new⌉ -∗
     vec v (stored (done ++ xs) (rcs ++ new)) -∗ Q (rcs ++ new) []) -∗
  wp mf X (for_list xs (λ x rcs,
    e <- local_mem x ;; r <- genvec_push (Some v) e ;; free e.1 ;;; ret (rcs ++ [r])) rcs) Q.
Proof.
  revert done rcs. induction xs as [|x xs IH]; intros done rcs Hs Hl Hf; iIntros "Hv HQ"; cbn [for_list].
  - wp_step. iSpecialize ("HQ" $! []). rewrite !app_nil_r. iApply ("HQ" with "[] Hv"). by iPureIntro.
  - apply Forall_cons in Hs as [Hx Hs]. simpl in Hf.
    wp_step. wp_step. iApply wp_local_mem. iIntros (e) "He". wp_step.
    assert (fits (length (stored done rcs))) as Hf' by (pose proof (stored_length done rcs); unfold fits in *; nia).
    iApply (wp_genvec_push with "Hv He"); [done|done|].
    iAssert (∀ r, ⌈r = 0 ∨ mf = true ∧ r = -1⌉ -∗ vec v (stored (done ++ [x]) (rcs ++ [r])) -∗
      wp mf X (for_list xs (λ x rcs,
        e <- local_mem x ;; r <- genvec_push (Some v) e ;; free e.1 ;;; ret (rcs ++ [r])) (rcs ++ [r])) Q)%I
      with "[HQ]" as "Hnext".
    { iIntros (r) "%Hr Hv". iApply (IH with "Hv"); [done|rewrite !length_app; simpl; lia| |].
      - unfold fits in *. rewrite length_app /=. nia.
      - iIntros (new) "%H Hv". destruct H as [H1 H2]. rewrite -!app_assoc.
        iApply ("HQ" $! (r :: new) with "[] Hv"). iPureIntro. simpl. split; [lia|by constructor]. }
    iSplit.
    + iIntros "%Hm Hv He". cbn [fst]. do 3 wp_step. iApply ("Hnext" with "[]"); [iPureIntro; auto|].
      rewrite stored_snoc //= app_nil_r //.
    + iIntros "Hv He". cbn [fst]. do 3 wp_step. iApply ("Hnext" with "[]"); [iPureIntro; auto|].
      rewrite stored_snoc //.
Qed.
End vec.

Section clients.
Context (order : (nat → nat → Z) → nat → list nat) `{!Orders order}.
Context (cmp : comparator) (c : list byte → list byte → Z) (P : list byte → Prop).
Context `{!Compares cmp c P, !Preorder_on c P}.

(** The elements have [size] bytes, and as many as there are fit in [size_t]. *)
Definition elements (size : nat) (xs : list (list byte)) : Prop :=
  (0 < size)%nat ∧ Forall P xs ∧ Forall (λ x, length x = size) xs ∧ fits size (length xs).

Lemma stored_Forall (R : list byte → Prop) xs rcs : Forall R xs → Forall R (stored xs rcs).
Proof.
  intros H. revert rcs. induction H as [|x xs Hx _ IH]; intros [|r rcs]; try by constructor.
  specialize (IH rcs). unfold stored in *. simpl. rewrite filter_cons.
  case_decide; [by constructor|done].
Qed.

Lemma stored_all xs rcs : length rcs = length xs → Forall (λ r, r = 0) rcs → stored xs rcs = xs.
Proof.
  revert rcs. induction xs as [|x xs IH]; intros [|r rcs] Hl Hr; try done.
  apply Forall_cons in Hr as [-> Hr]. change (x :: stored xs rcs = x :: xs). f_equal. apply IH; [|done]. simpl in Hl. lia.
Qed.

Lemma wp_vec_client mf X size xs :
  elements size xs →
  ⊢ wp mf X (vec_client order cmp (Z.of_nat size) xs) (λ '(rcs, before, past, after) o,
      ⌈(o = [] ∧ length rcs = length xs ∧ Forall (λ r, r = 0 ∨ r = -1) rcs ∧
        before = stored xs rcs ∧ past = None ∧
        after ≡ₚ before ∧ StronglySorted (λ x y, c x y ≤ 0) after) ∧
       (mf = false → before = xs)⌉).
Proof.
  intros (Hsz & HP & Hs & Hf). iStartProof. unfold vec_client.
  wp_step. iApply wp_local. iIntros (v) "Hv".
  iAssert (vec size v (stored [] [])) with "[Hv]" as "Hv".
  { iExists None, 0. iSplitR; [by iPureIntro|]. by iSplitL "Hv". }
  wp_step. iApply (wp_push_list mf X size Hsz v [] xs [] with "Hv"); [done..|].
  iIntros (rcs) "%H Hv". destruct H as [Hl Hr]. rewrite !app_nil_l.
  set (kept := stored xs rcs). pose proof (stored_length xs rcs) as Hk. fold kept in Hk.
  assert (fits size (length kept)) as Hfk by (unfold fits in *; nia).
  wp_step. iApply (wp_read_vec with "Hv"); [done..|]. iIntros "Hv".
  wp_step. iDestruct "Hv" as (p n Hpn) "[Hv Hb]". wp_step. cbn [len header_of].
  wp_step. iApply (wp_genvec_get with "Hv"); [done|done|lia|]. iIntros "Hv".
  destruct (Z.leb_spec (Z.of_nat (length kept)) (Z.of_nat (length kept))); [|lia].
  iAssert (vec size v kept) with "[Hv Hb]" as "Hv".
  { iExists p, n. iSplitR; [by iPureIntro|]. by iSplitL "Hv". }
  wp_step. iApply (wp_genvec_sort with "Hv"); [done|by apply stored_Forall|].
  iIntros (ys) "%Hys Hv". destruct Hys as [Hperm Hsort].
  wp_step. iApply (wp_read_vec with "Hv"); [done|by rewrite Hperm|]. iIntros "Hv".
  wp_step. iApply (wp_genvec_free with "Hv"). iIntros "Hv". cbn [fst]. wp_run. iPureIntro. split.
  - split_and!; try done. eapply Forall_impl; [exact Hr|]. simpl. intros r. tauto.
  - intros Hm. apply stored_all; [done|]. eapply Forall_impl; [exact Hr|]. simpl. intros r [->|[? _]]; congruence.
Qed.

(** The minimum of an array. *)
Definition min_client (size : Z) (xs : list (list byte)) : M obj Z :=
  arr <- local_mem (concat xs) ;;
  m <- generic_min arr (Z.of_nat (length xs)) size cmp ;;
  free arr.1 ;;;
  ret (m.2 / size).

(** [generic_min].  For every element size and every comparison function that
    compares elements of a type by a total preorder, the address returned is that of the
    first minimum of the array. *)
Theorem generic_min_correct size xs :
  elements size xs → xs ≠ [] →
  runs (min_client (Z.of_nat size) xs) (λ i o, o = [] ∧ 0 ≤ i < Z.of_nat (length xs) ∧
    (∀ j, (j < length xs)%nat → c (nth (Z.to_nat i) xs []) (nth j xs []) ≤ 0) ∧
    (∀ j, (j < Z.to_nat i)%nat → 0 < c (nth j xs []) (nth (Z.to_nat i) xs []))) False.
Proof.
  intros (Hsz & HP & Hs & Hf) Hne. apply wp_runs. intros mf X _ _. iStartProof. unfold min_client.
  assert (0 < length xs)%nat as Hlen by (destruct xs; simpl; [done|lia]).
  wp_step. iApply wp_local_mem. iIntros (l) "Hl". wp_step. rewrite -(app_nil_r (concat xs)).
  iApply (wp_generic_min with "Hl"); [done..|unfold fits in Hf; nia|]. iIntros "Hl". cbn [fst snd]. wp_run.
  iPureIntro. pose proof (argmin_le c xs (length xs - 1)) as Hb.
  destruct (argmin_spec c P xs (length xs - 1) HP ltac:(lia)) as [H1 H2].
  rewrite Z.div_mul; [|lia]. rewrite Nat2Z.id. split_and!; [done|lia|lia| |done].
  intros j Hj. apply H1. lia.
Qed.

(** The dynamic array.  For every element size and type, every comparison function
    that compares by a total preorder and every [qsort] that sorts, pushing elements,
    reading, sorting and freeing a vector stays inside its block, at any size, and frees
    it.  A push answers -1, and leaves the vector as it is, only when an allocation
    fails; the vector holds the elements whose push answered 0, in order, [genvec_get]
    gives each of them and NULL past the end, and [genvec_sort] sorts them. *)
Theorem genvec_correct size xs :
  elements size xs →
  runs (vec_client order cmp (Z.of_nat size) xs) (λ '(rcs, before, past, after) o,
    o = [] ∧ length rcs = length xs ∧ Forall (λ r, r = 0 ∨ r = -1) rcs ∧
    before = stored xs rcs ∧ past = None ∧
    after ≡ₚ before ∧ StronglySorted (λ x y, c x y ≤ 0) after) False ∧
  ∀ orc, lucky orc → ∃ rcs before past after o w,
    vec_client order cmp (Z.of_nat size) xs (empty_world orc) = Ret (rcs, before, past, after) o w ∧
    before = xs ∧ heap w = ∅.
Proof.
  intros Hxs.
  destruct (wp_runs_lucky (vec_client order cmp (Z.of_nat size) xs)
    (λ '(rcs, before, past, after) o, o = [] ∧ length rcs = length xs ∧ Forall (λ r, r = 0 ∨ r = -1) rcs ∧
       before = stored xs rcs ∧ past = None ∧ after ≡ₚ before ∧ StronglySorted (λ x y, c x y ≤ 0) after)
    (λ '(_, before, _, _) _, before = xs)) as [H1 H2].
  - intros mf X _. iApply (wp_wand with "[]"); [by iApply wp_vec_client|].
    by iIntros ([[[rcs before] past] after] o).
  - split; [done|]. intros orc L. destruct (H2 orc L) as ([[[rcs before] past] after] & o & w & E & Hh & _ & Hb).
    by do 6 eexists.
Qed.
End clients.

(** [generic_swap] exchanges two objects of any size.  Above 256 bytes it uses the
    heap, and leaves the objects as they are when the allocation fails; below it never
    does.  The buffer is freed. *)
Theorem generic_swap_correct a b :
  length a = length b →
  runs (swap_client a b) (λ r o, o = [] ∧ (r = (b, a) ∨ 256 < Z.of_nat (length a) ∧ r = (a, b))) False ∧
  ∀ orc, lucky orc → ∃ w, swap_client a b (empty_world orc) = Ret (b, a) [] w ∧ heap w = ∅.
Proof.
  intros Hab.
  destruct (wp_runs_lucky (swap_client a b)
    (λ r o, o = [] ∧ (r = (b, a) ∨ 256 < Z.of_nat (length a) ∧ r = (a, b))) (λ r _, r = (b, a))) as [H1 H2].
  - intros mf X _. iApply (wp_wand with "[]"); [by iApply wp_swap_client|].
    iIntros (r o) "%H". iPureIntro. destruct H as [-> [->|(Hm & Hn & ->)]].
    + auto.
    + split; [auto|congruence].
  - split; [done|]. intros orc L. destruct (H2 orc L) as (r & o & w & E & Hh & [-> _] & ->). by exists w.
Qed.

(** ** Instances of the theorems *)

Definition int_bytes : list (list byte) := (λ z, encode (VInt z)) <$> ints.

Lemma generic_min_correct_witness :
  elements is_int 4 int_bytes ∧
  runs (min_client cmp_int 4 int_bytes) (λ i o, o = [] ∧ 0 ≤ i < Z.of_nat (length int_bytes) ∧
    (∀ j, (j < length int_bytes)%nat →
       cmp_Z (as_int (nth (Z.to_nat i) int_bytes [])) (as_int (nth j int_bytes [])) ≤ 0) ∧
    (∀ j, (j < Z.to_nat i)%nat →
       0 < cmp_Z (as_int (nth j int_bytes [])) (as_int (nth (Z.to_nat i) int_bytes [])))) False.
Proof.
  assert (elements is_int 4 int_bytes) as H.
  { unfold elements. split_and!; [lia|repeat (apply Forall_cons_2; [eexists; reflexivity|]); apply Forall_nil_2|by repeat constructor|done]. }
  split; [exact H|]. exact (generic_min_correct cmp_int _ is_int 4 _ H ltac:(discriminate)).
Defined.

Definition player_bytes : list (list byte) := (λ '(name, score), Player name score) <$> players.

Lemma genvec_correct_witness :
  elements is_player 36 player_bytes ∧
  ∃ rcs before past after o w,
    vec_client insertion_order cmp_player_score 36 player_bytes (empty_world some_allocator) =
      Ret (rcs, before, past, after) o w ∧ before = player_bytes ∧ heap w = ∅.
Proof.
  assert (elements is_player 36 player_bytes) as H.
  { unfold elements. split_and!; [lia| |by repeat constructor|done].
    repeat (apply Forall_cons_2; [eexists _, _; split; [|reflexivity]; reflexivity|]). apply Forall_nil_2. }
  split; [exact H|].
  destruct (genvec_correct insertion_order cmp_player_score _ is_player 36 player_bytes H) as [_ Hrun].
  exact (Hrun some_allocator some_allocator_lucky).
Defined.

Lemma generic_swap_correct_witness :
  ∃ w, swap_client (encode (VInt 10)) (encode (VInt 20)) (empty_world some_allocator) =
    Ret (encode (VInt 20), encode (VInt 10)) [] w ∧ heap w = ∅.
Proof. exact (proj2 (generic_swap_correct (encode (VInt 10)) (encode (VInt 20)) eq_refl) _ some_allocator_lucky). Defined.

(** ** The program

    With a stable [qsort] and an allocator that does not fail, the whole program prints
    what its comments announce. *)

Definition main_text : string := esc (concat_str [
  "=== 1. void * basics ===\n"; "int swap:    x=20 y=10\n"; "double swap: p=9.9 q=1.5\n";
  "char[] swap: s=world t=hello\n"; "  arr[0] = 10\n"; "  arr[1] = 20\n"; "  arr[2] = 30\n"; "  arr[3] = 40\n\n";
  "=== 2. Generic comparators ===\n"; "sorted ints:    1 2 3 5 8 9 \n"; "sorted doubles: 0.57 1.41 2.71 3.14 \n";
  "sorted words:   apple banana cherry date \n"; "min of {5,2,8,1,9,3} = 1\n\n";
  "=== 3. bsearch ===\n"; "bsearch( 7): found at index 3\n"; "bsearch( 4): not found\n";
  "bsearch(23): found at index 9\n"; "bsearch( 0): not found\n"; "bsearch(\qcherry\q): found\n\n";
  "=== 4. Generic dynamic array (GenVec) ===\n"; "int GenVec (before sort): 42 7 99 3 55 \n";
  "int GenVec (after sort):  3 7 42 55 99 \n"; "Players by score (desc):\n"; "   1. Eve      100\n";
  "   2. Bob      95\n"; "   3. Alice    88\n"; "   4. Dave     88\n"; "   5. Carol    72\n\n";
  "=== 5. Type tags (safe variants) ===\n"; "  items[0] = int(42)\n"; "  items[1] = double(3.14)\n";
  "  items[2] = str(\qhello\q)\n"; "  items[3] = int(-7)\n"; "  items[4] = str(\qworld\q)\n";
  "  sum of numeric items = 38.14\n\n"])%string.

Lemma generics_main_run :
  match main insertion_order (empty_world some_allocator) with
  | Ret r o w => r = 0 ∧ stdout o = main_text ∧ stderr o = ""%string ∧ heap w = ∅
  | _ => False
  end.
Proof. vm_compute. repeat split. Qed.
