(* ===== verification/Variadic.v ===== *)
(** * Exercise 22: variadic functions

    Model of [exercises/22_variadic/variadic.c].  A [va_list] is the list of the
    arguments that are still to be read; every [va_arg] names the type it reads, and
    reading an argument of another type, or one that was not passed, is undefined.  The
    strings that are built are buffers of the heap with a size, and writing past the
    size is undefined. *)

From S2P Require Import Prelude Machine CString Double Printf Text SepLogic Pure.
#[local] Open Scope Z_scope.

(** ** Arguments *)

Inductive VTag := VTAG_INT | VTAG_DOUBLE | VTAG_STR.

(** The member of the union that was stored last. *)
Inductive VUnion := Ui (i : Z) | Ud (d : double) | Us (s : string).
Record VArg := { tag : VTag; v : VUnion }.

(** An argument after the default promotions; a string pointer may be null. *)
Inductive arg := Int (z : Z) | Dbl (d : double) | Str (s : option string) | Var (a : VArg).
Abbreviation va_list := (list arg).

(** A buffer of [size] bytes; the text is undefined until a NUL is written. *)
Record buffer := { size : Z; text : option string }.

#[export] Instance obj_buffer : Prism buffer buffer :=
  {| to_obj b := b; of_obj := Some; of_to_obj _ := eq_refl |}.
Abbreviation prog := (M buffer).

Definition va_int (ap : va_list) : prog (Z * va_list) :=
  match ap with Int z :: ap' => ret (z, ap') | _ => undefined end.
Definition va_double (ap : va_list) : prog (double * va_list) :=
  match ap with Dbl d :: ap' => ret (d, ap') | _ => undefined end.
Definition va_str (ap : va_list) : prog (option string * va_list) :=
  match ap with Str s :: ap' => ret (s, ap') | _ => undefined end.
Definition va_varg (ap : va_list) : prog (VArg * va_list) :=
  match ap with Var a :: ap' => ret (a, ap') | _ => undefined end.

(** A string argument that is passed on to a library function must not be null. *)
Definition non_null (s : option string) : prog string :=
  match s with Some s => ret s | None => undefined end.

(** ** Strings on the heap *)

(** [out[0] = '\0'], [strcat(out, s)] and reading the text. *)
Definition clear_text (p : ptr) : prog unit :=
  b <- load p ;;
  if 1 <=? size b then store p {| size := size b; text := Some ""%string |} else undefined.

Definition strcat (p : ptr) (s : string) : prog unit :=
  b <- load p ;;
  match text b with
  | Some t =>
      if strlen t + strlen s + 1 <=? size b
      then store p {| size := size b; text := Some (t +:+ s)%string |} else undefined
  | None => undefined
  end.

Definition get_text (p : ptr) : prog string :=
  b <- load p ;; match text b with Some t => ret t | None => undefined end.

(** The arguments [vsnprintf] formats. *)
Definition to_parg (a : arg) : option parg :=
  match a with
  | Int z => Some (AInt z) | Dbl d => Some (ADbl d) | Str (Some s) => Some (AStr s)
  | Str None | Var _ => None
  end.

Definition vformat (fmt : string) (ap : va_list) : option string :=
  args ← mapM to_parg ap; format fmt args.

(** [vsnprintf(NULL, 0, fmt, ap)]: the length, negative when it is not an [int]. *)
Definition vsn_length (fmt : string) (ap : va_list) : prog Z :=
  match vformat fmt ap with
  | Some s => ret (if strlen s <=? INT_MAX then strlen s else -1)
  | None => undefined
  end.

(** [vsnprintf(p, n, fmt, ap)], [n > 0]: at most [n - 1] characters and a NUL. *)
Definition vsn_write (p : ptr) (n : Z) (fmt : string) (ap : va_list) : prog unit :=
  match vformat fmt ap with
  | Some s =>
      b <- load p ;;
      let t := take_str (Z.to_nat (n - 1)) s in
      if (0 <? n) && (strlen t + 1 <=? size b) then store p {| size := size b; text := Some t |} else undefined
  | None => undefined
  end.

(** ** Counted arguments *)

Definition sum (n : Z) (args : va_list) : prog Z :=
  let* (total, _) := for_range 0 n (λ _ '(total, ap),
    let* (x, ap) := va_int ap in
    total <- int_chk (total + x) ;;
    ret (total, ap)) (0, args) in
  ret total.

Definition maxd (n : Z) (args : va_list) : prog double :=
  let* (best, ap) := va_double args in
  let* (best, _) := for_range 1 n (λ _ '(best, ap),
    let* (v, ap) := va_double ap in
    ret (if d_gt v best then v else best, ap)) (best, ap) in
  ret best.

Definition join (n : Z) (args : va_list) : prog ptr :=
  let* (total, _) := for_range 0 n (λ _ '(total, ap),
    let* (s, ap) := va_str ap in
    s <- non_null s ;;
    ret (u64 (total + strlen s), ap)) (1, args) in
  out <- malloc {| size := total; text := None |} ;;
  match out with
  | None => ret NULL
  | Some _ =>
      clear_text out ;;;
      for_range 0 n (λ _ ap,
        let* (s, ap) := va_str ap in
        s <- non_null s ;;
        strcat out s ;;;
        ret ap) args ;;;
      ret out
  end.

Definition section_basics : prog unit :=
  printf "=== 1. va_list basics ===\n" [] ;;;
  a <- sum 3 [Int 1; Int 2; Int 3] ;;
  printf "sum(3, 1,2,3)          = %d\n" [AInt a] ;;;
  b <- sum 5 [Int 10; Int 20; Int 30; Int 40; Int 50] ;;
  printf "sum(5, 10,20,30,40,50) = %d\n" [AInt b] ;;;
  c <- sum 0 [] ;;
  printf "sum(0)                 = %d\n" [AInt c] ;;;
  m <- maxd 4 [Dbl (lit 11 1); Dbl (lit 99 1); Dbl (lit 33 1); Dbl (lit 77 1)] ;;
  printf "maxd(4, 1.1,9.9,3.3,7.7) = %.1f\n" [ADbl m] ;;;
  s <- join 4 [Str (Some "Hello"); Str (Some ", "); Str (Some "world"); Str (Some "!")]%string ;;
  t <- get_text s ;;
  printf "join(4, ...)           = \q%s\q\n" [AStr t] ;;;
  free s ;;;
  printf "\n" [].

(** ** Sentinels *)

Definition count_args (first : option string) (args : va_list) : prog Z :=
  match first with
  | None => ret 0
  | Some _ =>
      loop (S (length args)) (λ '(n, ap),
        let* (s, ap) := va_str ap in
        match s with Some _ => n <- int_chk (n + 1) ;; ret (inl (n, ap)) | None => ret (inr n) end) (1, args)
  end.

Definition print_all (first : option string) (args : va_list) : prog unit :=
  match first with
  | None => ret tt
  | Some s =>
      printf "  %s\n" [AStr s] ;;;
      loop (S (length args)) (λ ap,
        let* (s, ap) := va_str ap in
        match s with Some s => printf "  %s\n" [AStr s] ;;; ret (inl ap) | None => ret (inr tt) end) args
  end.

Definition section_sentinel : prog unit :=
  printf "=== 2. Sentinel-terminated ===\n" [] ;;;
  n <- count_args (Some "a"%string) [Str (Some "b"); Str (Some "c"); Str None]%string ;;
  printf "count_args(\qa\q,\qb\q,\qc\q,(const char *)NULL) = %d\n" [AInt n] ;;;
  print_all (Some "alpha"%string) [Str (Some "beta"); Str (Some "gamma"); Str (Some "delta"); Str None]%string ;;;
  printf "\n" [].

(** ** [va_copy] *)

(** The two results. *)
Definition stats (n : Z) (args : va_list) : prog (double * double) :=
  let ap2 := args in
  let* (sum_v, _) := for_range 0 n (λ _ '(sum_v, ap),
    let* (x, ap) := va_double ap in ret (d_add sum_v x, ap)) (d_zero, args) in
  let mean := d_div sum_v (d_of_Z n) in
  let* (sq, _) := for_range 0 n (λ _ '(sq, ap),
    let* (x, ap) := va_double ap in
    let d := d_sub x mean in
    ret (d_add sq (d_mul d d), ap)) (d_zero, ap2) in
  ret (mean, d_div sq (d_of_Z n)).

Definition section_va_copy : prog unit :=
  printf "=== 3. va_copy (two-pass) ===\n" [] ;;;
  let* (mean, var) := stats 5 [Dbl (lit 20 1); Dbl (lit 40 1); Dbl (lit 40 1); Dbl (lit 40 1); Dbl (lit 60 1)] in
  printf "data: {2, 4, 4, 4, 6}\n" [] ;;;
  printf "mean     = %.2f\n" [ADbl mean] ;;;
  printf "variance = %.2f\n" [ADbl var] ;;;
  printf "stddev   = %.4f\n" [ADbl (d_sqrt var)] ;;;
  printf "\n" [].

(** ** Functions like [printf] *)

Inductive LogLevel := LOG_INFO | LOG_WARN | LOG_ERROR.

Definition level_name (l : LogLevel) : string :=
  match l with LOG_INFO => "INFO " | LOG_WARN => "WARN " | LOG_ERROR => "ERROR" end.

Definition log_msg (level : LogLevel) (fmt : string) (args : va_list) : prog unit :=
  buf <- local {| size := 512; text := None |} ;;
  vsn_write buf 512 fmt args ;;;
  t <- get_text buf ;;
  printf "[%s] %s\n" [AStr (level_name level); AStr t] ;;;
  free buf.

Definition fmt_alloc (fmt : string) (args : va_list) : prog ptr :=
  let ap2 := args in
  needed <- vsn_length fmt args ;;
  if needed <? 0 then ret NULL
  else
    buf <- malloc {| size := needed + 1; text := None |} ;;
    match buf with
    | Some _ => vsn_write buf (needed + 1) fmt ap2
    | None => ret tt
    end ;;;
    ret buf.

Definition section_printf_like : prog unit :=
  printf "=== 4. printf-like wrappers ===\n" [] ;;;
  log_msg LOG_INFO "Server started on port %d" [Int 8080] ;;;
  log_msg LOG_WARN "Connection from %s timed out after %ds" [Str (Some "10.0.0.5"%string); Int 30] ;;;
  log_msg LOG_ERROR "Failed to open %s: %s" [Str (Some "/etc/secret"); Str (Some "Permission denied")]%string ;;;
  greeting <- fmt_alloc "Hello, %s! You have %d message%s."
    [Str (Some "Alice"%string); Int 3; Str (Some "s"%string)] ;;
  t <- get_text greeting ;;
  printf "fmt_alloc -> \q%s\q\n" [AStr t] ;;;
  free greeting ;;;
  printf "\n" [].

(** ** Tagged arguments *)

Definition varg_int (i : Z) : VArg := {| tag := VTAG_INT; v := Ui i |}.
Definition varg_double (d : double) : VArg := {| tag := VTAG_DOUBLE; v := Ud d |}.
Definition varg_str (s : string) : VArg := {| tag := VTAG_STR; v := Us s |}.

(** The static type of an expression, and the text the macro selects for it. *)
Inductive ctype := TInt | TLong | TDouble | TFloat | TCharPtr | TConstCharPtr | TOther.
Definition TYPE_NAME (t : ctype) : string :=
  match t with
  | TInt => "int" | TLong => "long" | TDouble => "double" | TFloat => "float"
  | TCharPtr => "char *" | TConstCharPtr => "const char *" | TOther => "other"
  end.

(** Reading the member that the tag names. *)
Definition print_varg (a : VArg) : prog unit :=
  match tag a, v a with
  | VTAG_INT, Ui i => printf "  [int]    %ld\n" [AInt i]
  | VTAG_DOUBLE, Ud d => printf "  [double] %.4f\n" [ADbl d]
  | VTAG_STR, Us s => printf "  [str]    \q%s\q\n" [AStr s]
  | _, _ => undefined
  end.

Definition print_vargs (n : Z) (args : va_list) : prog unit :=
  for_range 0 n (λ _ ap,
    let* (a, ap) := va_varg ap in
    print_varg a ;;;
    ret ap) args ;;;
  ret tt.

Definition section_type_safe : prog unit :=
  printf "=== 5. Type-safe variadic (VArg tagged union) ===\n" [] ;;;
  print_vargs 5 [Var (varg_int 42); Var (varg_double (lit 314 2)); Var (varg_str "hello");
                 Var (varg_int (-7)); Var (varg_double (lit 271828 5))] ;;;
  printf "TYPE_NAME(int a)         = %s\n" [AStr (TYPE_NAME TInt)] ;;;
  printf "TYPE_NAME(double b)      = %s\n" [AStr (TYPE_NAME TDouble)] ;;;
  printf "TYPE_NAME(const char *c) = %s\n" [AStr (TYPE_NAME TConstCharPtr)] ;;;
  printf "TYPE_NAME(3.14f)         = %s\n" [AStr (TYPE_NAME TFloat)] ;;;
  printf "\n" [].

Definition section_pitfalls : prog unit :=
  printf "=== 6. Pitfalls ===\n" [] ;;;
  printf "P1: char/short promote to int — use va_arg(ap, int)\n" [] ;;;
  printf "P2: float promotes to double — use va_arg(ap, double)\n" [] ;;;
  printf "P3: reading past the end of the argument list is UB\n" [] ;;;
  printf "P4: always call va_end before each return path\n" [] ;;;
  printf "P5: pass va_list by pointer or use va_copy, not by value\n" [] ;;;
  printf "\n" [].

Definition main : prog Z :=
  section_basics ;;;
  section_sentinel ;;;
  section_va_copy ;;;
  section_printf_like ;;;
  section_type_safe ;;;
  section_pitfalls ;;;
  ret 0.

(** ** Reading arguments *)

Definition zsum (l : list Z) : Z := foldr Z.add 0 l.

(** Every partial sum, from the left and starting at [t], is an [int]. *)
Definition sums_fit (t : Z) (l : list Z) : Prop :=
  ∀ k, (1 ≤ k ≤ length l)%nat → INT_MIN ≤ t + zsum (take k l) ≤ INT_MAX.

Definition sum_body : Z → Z * va_list → prog (Z * va_list) := λ _ '(total, ap),
  let* (x, ap) := va_int ap in
  total <- int_chk (total + x) ;;
  ret (total, ap).

Lemma sum_loop_fits l rest lo t :
  sums_fit t l → yields (for_n (length l) lo sum_body (t, (Int <$> l) ++ rest)) (t + zsum l, rest).
Proof.
  revert lo t. induction l as [|x l IH]; intros lo t H; simpl.
  - rewrite Z.add_0_r. apply yields_ret.
  - apply (yields_bind _ _ (t + x, (Int <$> l) ++ rest)).
    + intros w. unfold sum_body, bind, va_int, ret. simpl.
      pose proof (H 1%nat ltac:(simpl; lia)) as H1. simpl in H1. rewrite Z.add_0_r in H1.
      by rewrite (yields_int_chk _ H1).
    + rewrite Z.add_assoc. apply IH. intros k Hk. specialize (H (S k) ltac:(simpl; lia)). simpl in H. lia.
Qed.

Lemma sum_loop_overflow l rest lo t :
  ¬ sums_fit t l → is_undefined (for_n (length l) lo sum_body (t, (Int <$> l) ++ rest)).
Proof.
  revert lo t. induction l as [|x l IH]; intros lo t H; simpl.
  - destruct H. intros k Hk. simpl in Hk. lia.
  - destruct (decide (INT_MIN ≤ t + x ≤ INT_MAX)) as [Hx|Hx].
    + apply (undefined_bind_r _ _ (t + x, (Int <$> l) ++ rest) []).
      * intros w. unfold sum_body, bind, va_int, ret. simpl. by rewrite (yields_int_chk _ Hx).
      * apply IH. intros Hf. apply H. intros [|[|k]] Hk; simpl in *; [lia|lia|].
        specialize (Hf (S k) ltac:(lia)). simpl in Hf. lia.
    + apply undefined_bind. intros w. unfold sum_body, bind, va_int, ret. simpl.
      by rewrite (undefined_int_chk _ Hx).
Qed.

(** Too few arguments. *)
Lemma sum_loop_short l k lo t : (length l < k)%nat → is_undefined (for_n k lo sum_body (t, Int <$> l)).
Proof.
  revert k lo t. induction l as [|x l IH]; intros [|k] lo t Hk; simpl in *; try lia.
  - by apply undefined_bind.
  - intros w. unfold bind at 1. unfold sum_body at 1, bind, va_int, ret, int_chk. simpl.
    destruct (Machine.in_int (t + x)); simpl; [|done].
    pose proof (IH k (lo + 1) (t + x) ltac:(lia) w) as E. unfold bind, ret in E. simpl in E.
    unfold ret. cbv beta iota. by rewrite E.
Qed.

Lemma sum_unfold n args :
  sum n args = (let* (total, _) := for_n (Z.to_nat n) 0 sum_body (0, args) in ret total).
Proof. unfold sum, for_range. by rewrite Z.sub_0_r. Qed.

Definition count_body : Z * va_list → prog (Z * va_list + Z) := λ '(n, ap),
  let* (s, ap) := va_str ap in
  match s with Some _ => n <- int_chk (n + 1) ;; ret (inl (n, ap)) | None => ret (inr n) end.

Lemma count_loop l rest f n :
  (length l < f)%nat → INT_MIN ≤ n → n + Z.of_nat (length l) ≤ INT_MAX →
  yields (loop f count_body (n, (Str ∘ Some <$> l) ++ Str None :: rest)) (n + Z.of_nat (length l)).
Proof.
  revert f n. induction l as [|s l IH]; intros [|f] n Hf Hlo Hn; simpl in *; try lia.
  - rewrite Z.add_0_r. apply (yields_bind _ _ (inr n)); [by intros w|apply yields_ret].
  - apply (yields_bind _ _ (inl (n + 1, (Str ∘ Some <$> l) ++ Str None :: rest))).
    + intros w. unfold bind, va_str, ret. simpl. by rewrite (yields_int_chk (n + 1)); [|lia].
    + replace (n + Z.of_nat (S (length l))) with (n + 1 + Z.of_nat (length l)) by lia. apply IH; lia.
Qed.

(** Without a sentinel. *)
Lemma count_loop_unterminated l f n :
  (length l < f)%nat → is_undefined (loop f count_body (n, Str ∘ Some <$> l)).
Proof.
  revert f n. induction l as [|s l IH]; intros [|f] n Hf; simpl in *; try lia.
  - by apply undefined_bind.
  - intros w. unfold bind at 1. unfold count_body at 1, bind, va_str, ret, int_chk. simpl.
    destruct (Machine.in_int (n + 1)); simpl; [|done].
    pose proof (IH f (n + 1) ltac:(lia) w) as E. unfold ret. cbv beta iota. by rewrite E.
Qed.

Definition line (s : string) : ev := Out ("  " +:+ s +:+ String nl "")%string.

Lemma writes_line s : writes (U:=buffer) (printf "  %s\n" [AStr s]) tt [line s].
Proof. apply writes_printf. unfold format. simpl. unfold fmt_str. simpl. by str_norm. Qed.

Definition print_body : va_list → prog (va_list + unit) := λ ap,
  let* (s, ap) := va_str ap in
  match s with Some s => printf "  %s\n" [AStr s] ;;; ret (inl ap) | None => ret (inr tt) end.

Lemma print_loop l rest f :
  (length l < f)%nat →
  writes (loop f print_body ((Str ∘ Some <$> l) ++ Str None :: rest)) tt (line <$> l).
Proof.
  revert f. induction l as [|s l IH]; intros [|f] Hf; simpl in *; try lia.
  - by intros w.
  - apply (writes_bind _ _ (inl ((Str ∘ Some <$> l) ++ Str None :: rest)) _ [line s]); [|apply IH; lia].
    rewrite -(app_nil_r [line s]). apply (yields_bind _ _ (Some s, (Str ∘ Some <$> l) ++ Str None :: rest)); [by intros w|].
    eapply writes_bind; [apply writes_line|apply yields_ret].
Qed.

(** A tagged argument built by one of the constructors. *)
Inductive well_tagged : VArg → ev → Prop :=
  | wt_int i : well_tagged (varg_int i) (Out ("  [int]    " +:+ dec i +:+ String nl "")%string)
  | wt_double d : well_tagged (varg_double d)
      (Out ("  [double] " +:+ fmt_dbl {| f_minus := false; f_zero := false; f_long := false;
              f_width := None; f_prec := Some 4%nat |} d +:+ String nl "")%string)
  | wt_str s : well_tagged (varg_str s) (Out ("  [str]    " +:+ String dquote s +:+ String dquote (String nl ""))%string).

Lemma dec_long i :
  fmt_signed {| f_minus := false; f_zero := false; f_long := true; f_width := None; f_prec := None |} i = dec i.
Proof. unfold fmt_signed, dec. simpl. destruct (i <? 0); reflexivity. Qed.

Lemma writes_varg a e : well_tagged a e → writes (print_varg a) tt [e].
Proof.
  intros H. destruct H as [i|d|s]; unfold print_varg; simpl; apply writes_printf; unfold format; simpl.
  - rewrite dec_long. by str_norm.
  - by str_norm.
  - unfold fmt_str. simpl. by str_norm.
Qed.

Lemma print_vargs_loop l es rest lo :
  Forall2 well_tagged l es →
  writes (for_n (length l) lo (λ _ ap, let* (a, ap) := va_varg ap in print_varg a ;;; ret ap)
    ((Var <$> l) ++ rest)) rest es.
Proof.
  intros H. revert lo. induction H as [|a e l es Ha _ IH]; intros lo; simpl; [by intros w|].
  apply (writes_bind _ _ ((Var <$> l) ++ rest) _ [e]); [|apply IH].
  rewrite -(app_nil_r [e]). apply (yields_bind _ _ (a, (Var <$> l) ++ rest)); [by intros w|].
  eapply writes_bind; [by apply writes_varg|apply yields_ret].
Qed.

(** Reading the arguments.  [sum(n, ...)] of [n] integers, and whatever follows
    them, is their sum if all the partial sums fit in [int] and undefined otherwise; it
    is undefined when fewer than [n] arguments are passed.  [count_args] and [print_all]
    read exactly up to the sentinel, and are undefined if it is missing.  Tagged
    arguments that are built by the constructors are all printed as what they are. *)
Theorem variadic_readers_correct :
  (∀ l rest, sums_fit 0 l → yields (sum (Z.of_nat (length l)) ((Int <$> l) ++ rest)) (zsum l)) ∧
  (∀ l rest, ¬ sums_fit 0 l → is_undefined (sum (Z.of_nat (length l)) ((Int <$> l) ++ rest))) ∧
  (∀ l n, Z.of_nat (length l) < n → is_undefined (sum n (Int <$> l))) ∧
  (∀ s l rest, Z.of_nat (length l) < INT_MAX →
     yields (count_args (Some s) ((Str ∘ Some <$> l) ++ Str None :: rest)) (1 + Z.of_nat (length l))) ∧
  (∀ s l, is_undefined (count_args (Some s) (Str ∘ Some <$> l))) ∧
  (∀ s l rest, writes (print_all (Some s) ((Str ∘ Some <$> l) ++ Str None :: rest)) tt (line <$> s :: l)) ∧
  (∀ l es rest, Forall2 well_tagged l es →
     writes (print_vargs (Z.of_nat (length l)) ((Var <$> l) ++ rest)) tt es).
Proof.
  split_and!.
  - intros l rest H. rewrite sum_unfold Nat2Z.id. eapply yields_bind; [by apply sum_loop_fits|apply yields_ret].
  - intros l rest H. rewrite sum_unfold Nat2Z.id. by apply undefined_bind, sum_loop_overflow.
  - intros l n H. rewrite sum_unfold. apply undefined_bind, sum_loop_short. lia.
  - intros s l rest H. apply count_loop; [|unfold INT_MIN; lia|lia]. rewrite length_app length_fmap. lia.
  - intros s l. apply count_loop_unterminated. rewrite length_fmap. lia.
  - intros s l rest. apply (writes_bind _ _ tt _ [line s]); [apply writes_line|].
    apply print_loop. rewrite length_app length_fmap. lia.
  - intros l es rest H. unfold print_vargs, for_range. rewrite Z.sub_0_r Nat2Z.id.
    rewrite -(app_nil_r es). eapply writes_bind; [by apply print_vargs_loop|apply yields_ret].
Qed.

(** ** Building strings *)

(** Clients: the string that is built, read and freed; [None] for NULL. *)
Definition take_text (p : ptr) : prog (option string) :=
  match p with
  | None => ret None
  | Some _ => t <- get_text p ;; free p ;;; ret (Some t)
  end.

Definition join_client (l : list string) : prog (option string) :=
  p <- join (Z.of_nat (length l)) (Str ∘ Some <$> l) ;; take_text p.

Definition fmt_client (fmt : string) (args : va_list) : prog (option string) :=
  p <- fmt_alloc fmt args ;; take_text p.

Definition total_length (l : list string) : Z := foldr (λ s n, strlen s + n) 0 l.

Lemma total_length_nonneg l : 0 ≤ total_length l.
Proof. induction l as [|s l IH]; simpl; [lia|]. pose proof (strlen_nonneg s). lia. Qed.

Lemma measure_loop l lo t :
  0 ≤ t → t + total_length l < 2 ^ 64 →
  yields (for_n (length l) lo (λ _ '(total, ap),
    let* (s, ap) := va_str ap in s <- non_null s ;; ret (u64 (total + strlen s), ap))
    (t, Str ∘ Some <$> l)) (t + total_length l, []).
Proof.
  revert lo t. induction l as [|s l IH]; intros lo t Ht Hf; simpl in *.
  - rewrite Z.add_0_r. apply yields_ret.
  - pose proof (strlen_nonneg s). pose proof (total_length_nonneg l).
    apply (yields_bind _ _ (t + strlen s, Str ∘ Some <$> l)).
    + intros w. unfold bind, va_str, non_null, ret. simpl. unfold u64. rewrite Z.mod_small; [done|lia].
    + rewrite Z.add_assoc. apply IH; lia.
Qed.

Lemma strlen_concat l : strlen (concat_str l) = total_length l.
Proof. induction l as [|s l IH]; [done|]. simpl. by rewrite strlen_app IH. Qed.

Section wp.
Context (mf : bool) (X : Z → Prop).

Lemma wp_strcat p n t s (Q : unit → list ev → hpropI buffer) :
  strlen t + strlen s + 1 ≤ n →
  p ↦ {| size := n; text := Some t |} -∗
  (p ↦ {| size := n; text := Some (t +:+ s)%string |} -∗ Q tt []) -∗
  wp mf X (strcat (Some p) s) Q.
Proof.
  intros Hn. iIntros "Hp HQ". unfold strcat. wp_step. wp_step. cbn [text size].
  destruct (Z.leb_spec (strlen t + strlen s + 1) n); [|lia]. wp_step. by iApply "HQ".
Qed.

Lemma wp_join l (Q : ptr → list ev → hpropI buffer) :
  1 + total_length l < 2 ^ 64 →
  (⌈mf = true⌉ -∗ Q None []) ∧
  (∀ p, p ↦ {| size := 1 + total_length l; text := Some (concat_str l) |} -∗ Q (Some p) []) -∗
  wp mf X (join (Z.of_nat (length l)) (Str ∘ Some <$> l)) Q.
Proof.
  intros Hl. iIntros "HQ". unfold join. wp_step.
  iApply (wp_writes _ _ _ (1 + total_length l, [])).
  { unfold for_range. rewrite Z.sub_0_r Nat2Z.id. apply measure_loop; lia. }
  wp_step. iApply wp_malloc. iIntros ([p|]) "%Hmf Hp".
  - pose proof (total_length_nonneg l) as Hnn. unfold clear_text. wp_step. wp_step. wp_step. cbn [size].
    destruct (Z.leb_spec 1 (1 + total_length l)) as [_|?]; [|lia]. wp_step. wp_step.
    iApply (wp_for_range _ _ (λ (i : Z) (ap : va_list) (o : list ev),
      (⌈ap = Str ∘ Some <$> drop (Z.to_nat i) l ∧ o = []⌉ ∗
        p ↦ {| size := 1 + total_length l; text := Some (concat_str (take (Z.to_nat i) l)) |})%I) with "[Hp]").
    + lia.
    + intros i ap o Hi. iIntros "[%E Hp]". destruct E as [-> ->].
      assert (is_Some (l !! Z.to_nat i)) as [s Hs] by (apply lookup_lt_is_Some; lia).
      rewrite (drop_S _ _ _ Hs). unfold va_str, non_null. cbn [fmap list_fmap compose]. repeat wp_step.
      iApply (wp_strcat with "Hp").
      * rewrite strlen_concat. rewrite -{2}(take_drop_middle _ _ _ Hs).
        assert (∀ a b, total_length (a ++ b) = total_length a + total_length b) as Happ.
        { intros a b. induction a as [|x a IH]; simpl; [done|]. rewrite IH. lia. }
        rewrite Happ /=. pose proof (total_length_nonneg (drop (S (Z.to_nat i)) l)). lia.
      * iIntros "Hp". wp_step. replace (Z.to_nat (i + 1)) with (S (Z.to_nat i)) by lia.
        rewrite (take_S_r _ _ _ Hs) concat_str_app /= string_app_nil_r. iSplitR; [|done]. by iPureIntro.
    + iSplitR; [|done]. by iPureIntro.
    + iIntros (ap o) "[%E Hp]". destruct E as [-> ->]. wp_step. iDestruct "HQ" as "[_ HQ]".
      rewrite Nat2Z.id firstn_all. by iApply "HQ".
  - wp_step. iDestruct "HQ" as "[HQ _]". iApply "HQ". iPureIntro. auto.
Qed.

Lemma wp_take_text p n t (Q : option string → list ev → hpropI buffer) :
  p ↦ {| size := n; text := Some t |} -∗ Q (Some t) [] -∗ wp mf X (take_text (Some p)) Q.
Proof. iIntros "Hp HQ". unfold take_text, get_text. do 3 wp_step. cbn [text]. wp_run. iExact "HQ". Qed.

Lemma wp_vsn_write p n n' fmt args s x (Q : unit → list ev → hpropI buffer) :
  vformat fmt args = Some s → 0 < n ≤ n' →
  p ↦ {| size := n'; text := x |} -∗
  (p ↦ {| size := n'; text := Some (take_str (Z.to_nat (n - 1)) s) |} -∗ Q tt []) -∗
  wp mf X (vsn_write (Some p) n fmt args) Q.
Proof.
  intros Hs Hn. iIntros "Hp HQ". unfold vsn_write. rewrite Hs. wp_step. wp_step. cbn [size].
  pose proof (take_str_length s (Z.to_nat (n - 1))) as Hl.
  destruct (Z.ltb_spec 0 n); [|lia].
  destruct (Z.leb_spec (strlen (take_str (Z.to_nat (n - 1)) s) + 1) n'); [|unfold strlen in *; lia].
  cbn [andb]. wp_step. by iApply "HQ".
Qed.

Lemma wp_fmt_alloc fmt args s (Q : ptr → list ev → hpropI buffer) :
  vformat fmt args = Some s →
  (⌈mf = true ∨ INT_MAX < strlen s⌉ -∗ Q None []) ∧
  (∀ p, ⌈strlen s ≤ INT_MAX⌉ -∗ p ↦ {| size := strlen s + 1; text := Some s |} -∗ Q (Some p) []) -∗
  wp mf X (fmt_alloc fmt args) Q.
Proof.
  intros Hs. iIntros "HQ". unfold fmt_alloc, vsn_length. rewrite Hs. wp_step. wp_step.
  pose proof (strlen_nonneg s). destruct (Z.leb_spec (strlen s) INT_MAX).
  - destruct (Z.ltb_spec (strlen s) 0); [lia|]. wp_step. iApply wp_malloc. iIntros ([p|]) "%Hmf Hp".
    + wp_step. iApply (wp_vsn_write with "Hp"); [done|lia|]. iIntros "Hp". wp_step.
      iDestruct "HQ" as "[_ HQ]". rewrite take_str_fits; [|unfold strlen; lia]. iApply ("HQ" with "[] Hp"). done.
    + wp_run. iDestruct "HQ" as "[HQ _]". iApply "HQ". iPureIntro. auto.
  - cbn [Z.ltb Z.compare]. wp_step. iDestruct "HQ" as "[HQ _]". iApply "HQ". iPureIntro. auto.
Qed.

Lemma wp_log_msg level fmt args s (Q : unit → list ev → hpropI buffer) :
  vformat fmt args = Some s →
  Q tt [Out ("[" +:+ level_name level +:+ "] " +:+ take_str 511 s +:+ String nl "")%string] -∗
  wp mf X (log_msg level fmt args) Q.
Proof.
  intros Hs. iIntros "HQ". unfold log_msg, get_text. wp_step. iApply wp_local. iIntros (p) "Hp".
  wp_step. iApply (wp_vsn_write with "Hp"); [done|lia|]. iIntros "Hp". do 3 wp_step. cbn [text]. wp_run.
  unfold fmt_str, fpad. cbn [f_width f_prec]. rewrite !string_app_nil_l. str_norm. iExact "HQ".
Qed.
End wp.

(** Building strings.  [join] of any strings whose lengths fit in [size_t] measures
    them, allocates exactly what is needed, never writes past it and gives their
    concatenation.  [fmt_alloc] gives the whole formatted text of any format whose
    conversions match its arguments, up to the limit of [int], and NULL above it.
    Otherwise they give NULL only when the allocation fails, and nothing leaks.
    [log_msg] prints at most 511 characters of its message. *)
Theorem built_strings_correct :
  (∀ l, 1 + total_length l < 2 ^ 64 →
     runs (join_client l) (λ r o, o = [] ∧ (r = Some (concat_str l) ∨ r = None)) False ∧
     ∀ orc, lucky orc → ∃ w, join_client l (empty_world orc) = Ret (Some (concat_str l)) [] w ∧ heap w = ∅) ∧
  (∀ fmt args s, vformat fmt args = Some s →
     runs (fmt_client fmt args) (λ r o, o = [] ∧ (r = Some s ∧ strlen s ≤ INT_MAX ∨ r = None)) False ∧
     (strlen s ≤ INT_MAX → ∀ orc, lucky orc → ∃ w, fmt_client fmt args (empty_world orc) = Ret (Some s) [] w ∧ heap w = ∅)) ∧
  (∀ level fmt args s, vformat fmt args = Some s →
     runs (log_msg level fmt args)
       (λ _ o, o = [Out ("[" +:+ level_name level +:+ "] " +:+ take_str 511 s +:+ String nl "")%string]) False).
Proof.
  split_and!.
  - intros l Hl.
    destruct (wp_runs_lucky (join_client l) (λ r o, o = [] ∧ (r = Some (concat_str l) ∨ r = None))
      (λ r _, r = Some (concat_str l))) as [H1 H2].
    + intros mf X _. iStartProof. unfold join_client. wp_step. iApply wp_join; [done|]. iSplit.
      * iIntros "%Hm". unfold take_text. wp_step. iPureIntro. split; [auto|congruence].
      * iIntros (p) "Hp". iApply (wp_take_text with "Hp"). iPureIntro. auto.
    + split; [done|]. intros orc L. destruct (H2 orc L) as (r & o & w & E & Hh & [-> _] & ->). by exists w.
  - intros fmt args s Hs.
    destruct (wp_runs_lucky (fmt_client fmt args) (λ r o, o = [] ∧ (r = Some s ∧ strlen s ≤ INT_MAX ∨ r = None))
      (λ r _, strlen s ≤ INT_MAX → r = Some s)) as [H1 H2].
    + intros mf X _. iStartProof. unfold fmt_client. wp_step. iApply wp_fmt_alloc; [done|]. iSplit.
      * iIntros "%Hm". unfold take_text. wp_step. iPureIntro. split; [auto|]. intros ??. destruct Hm; [congruence|lia].
      * iIntros (p) "%Hs' Hp". iApply (wp_take_text with "Hp"). iPureIntro. auto.
    + split; [done|]. intros Hn orc L. destruct (H2 orc L) as (r & o & w & E & Hh & [-> _] & Hr).
      rewrite (Hr Hn) in E. by exists w.
  - intros level fmt args s Hs. apply wp_runs. intros mf X _ _. iStartProof.
    iApply (wp_log_msg with "[]"); [done|]. done.
Qed.

(** ** The program *)

Definition main_text : string := concat_str [
  esc "=== 1. va_list basics ===\n"; esc "sum(3, 1,2,3)          = 6\n"; esc "sum(5, 10,20,30,40,50) = 150\n";
  esc "sum(0)                 = 0\n"; esc "maxd(4, 1.1,9.9,3.3,7.7) = 9.9\n";
  esc "join(4, ...)           = \qHello, world!\q\n\n";
  esc "=== 2. Sentinel-terminated ===\n"; esc "count_args(\qa\q,\qb\q,\qc\q,(const char *)NULL) = 3\n";
  esc "  alpha\n  beta\n  gamma\n  delta\n\n";
  esc "=== 3. va_copy (two-pass) ===\n"; esc "data: {2, 4, 4, 4, 6}\n"; esc "mean     = 4.00\n";
  esc "variance = 1.60\n"; esc "stddev   = 1.2649\n\n";
  esc "=== 4. printf-like wrappers ===\n"; esc "[INFO ] Server started on port 8080\n";
  esc "[WARN ] Connection from 10.0.0.5 timed out after 30s\n";
  esc "[ERROR] Failed to open /etc/secret: Permission denied\n";
  esc "fmt_alloc -> \qHello, Alice! You have 3 messages.\q\n\n";
  esc "=== 5. Type-safe variadic (VArg tagged union) ===\n"; esc "  [int]    42\n"; esc "  [double] 3.1400\n";
  esc "  [str]    \qhello\q\n"; esc "  [int]    -7\n"; esc "  [double] 2.7183\n";
  esc "TYPE_NAME(int a)         = int\n"; esc "TYPE_NAME(double b)      = double\n";
  esc "TYPE_NAME(const char *c) = const char *\n"; esc "TYPE_NAME(3.14f)         = float\n\n";
  esc "=== 6. Pitfalls ===\n"; esc "P1: char/short promote to int — use va_arg(ap, int)\n";
  esc "P2: float promotes to double — use va_arg(ap, double)\n";
  esc "P3: reading past the end of the argument list is UB\n";
  esc "P4: always call va_end before each return path\n";
  esc "P5: pass va_list by pointer or use va_copy, not by value\n\n"]%string.

Lemma variadic_main_run :
  match main (empty_world some_allocator) with
  | Ret r o w => r = 0 ∧ stdout o = main_text ∧ stderr o = ""%string ∧ heap w = ∅
  | _ => False
  end.
Proof. vm_compute. repeat split. Qed.

(** The results of [join] and [fmt_alloc] are printed without a test for NULL. *)
Lemma variadic_main_no_memory : main (empty_world (λ _, None)) = UB.
Proof. by vm_compute. Qed.
