(* ===== verification/EnumsUnions.v ===== *)
(** * Exercise 12: enumerations and unions

    Model of [exercises/12_enums_and_unions/enums_unions.c].  A value of an enumerated
    type is an [int].  The union [MultiView] is its four bytes, lowest first (see Encoding);
    in the tagged unions the member that was stored last is known, and the string member is
    its array of 32 bytes. *)

From Stdlib Require Import SpecFloat.
From S2P Require Import Prelude Machine CString Double Printf Text Encoding SepLogic Pure.
#[local] Open Scope Z_scope.

(** The program allocates nothing. *)
Abbreviation prog := (M unit).

(** ** Enumerations *)

Abbreviation Weekday := Z (only parsing).
Definition MON : Weekday := 0.
Definition WED : Weekday := 2.
Definition SAT : Weekday := 5.
Definition SUN : Weekday := 6.

Abbreviation HttpStatus := Z (only parsing).
Definition HTTP_OK : HttpStatus := 200.
Definition HTTP_CREATED : HttpStatus := 201.
Definition HTTP_NOT_FOUND : HttpStatus := 404.
Definition HTTP_SERVER_ERROR : HttpStatus := 500.

Abbreviation Permission := Z (only parsing).
Definition PERM_NONE : Permission := 0.
Definition PERM_READ : Permission := Z.shiftl 1 0.
Definition PERM_WRITE : Permission := Z.shiftl 1 1.
Definition PERM_EXECUTE : Permission := Z.shiftl 1 2.

Definition names : list string := ["Mon"; "Tue"; "Wed"; "Thu"; "Fri"; "Sat"; "Sun"].

(** [names[d]]. *)
Definition name_at (d : Z) : prog string :=
  if d <? 0 then undefined else match names !! Z.to_nat d with Some s => ret s | None => undefined end.

Definition weekday_name (d : Weekday) : prog string :=
  if (MON <=? d) && (d <=? SUN) then name_at d else ret "?"%string.

Definition http_label (s : HttpStatus) : string :=
  if s =? HTTP_OK then "OK"
  else if s =? HTTP_CREATED then "Created"
  else if s =? HTTP_NOT_FOUND then "Not Found"
  else if s =? HTTP_SERVER_ERROR then "Internal Server Error"
  else "Unknown".

Definition has (perms flag : Permission) : bool := negb (Z.land perms flag =? 0).

Definition print_permissions (perms : Permission) : prog unit :=
  printf "r%c w%c x%c\n"
    [AInt (code (if has perms PERM_READ then "+"%char else "-"%char));
     AInt (code (if has perms PERM_WRITE then "+"%char else "-"%char));
     AInt (code (if has perms PERM_EXECUTE then "+"%char else "-"%char))].

(** ** The union of an [int], a [float] and four bytes *)

Record MultiView := { storage : bytes }.

Definition set_i (i : Z) : MultiView := {| storage := to_bytes int_codec i |}.
Definition get_i (u : MultiView) : Z := of_bytes int_codec (storage u).
Definition set_f (x : spec_float) : MultiView := {| storage := to_bytes float_codec x |}.
Definition get_f (u : MultiView) : spec_float := of_bytes float_codec (storage u).
(** [u.bytes[k]], as [%c] prints it. *)
Definition byte (u : MultiView) (k : nat) : Z := code (nth k (storage u) "000"%char).

(** ** Tagged unions *)

Inductive ValueKind := NUM | STR | BOOL.
Inductive ValueUnion := number (d : double) | string_ (a : bytes) | boolean (b : Z).
Record Value := { kind : ValueKind; as_ : ValueUnion }.

Definition make_num (d : double) : Value := {| kind := NUM; as_ := number d |}.

(** The array of 32 bytes is 0 at first: what the initialiser does not name is initialised
    as a static object is, a union with its first member and its padding 0. *)
Definition make_str (s : string) : Value :=
  let v := replicate 32 "000"%char in
  {| kind := STR; as_ := string_ (strncpy v s (length v - 1)) |}.

Definition make_bool (b : Z) : Value := {| kind := BOOL; as_ := boolean b |}.

Definition print_value (v : Value) : prog unit :=
  match kind v, as_ v with
  | NUM, number d => printf "number: %g\n" [ADbl d]
  | STR, string_ a => match c_string a with Some s => printf "string: \q%s\q\n" [AStr s] | None => undefined end
  | BOOL, boolean b => printf "bool:   %s\n" [AStr (if b =? 0 then "false" else "true")]
  | _, _ => undefined
  end.

Inductive ShapeKind := CIRCLE | RECT | TRIANGLE.
Inductive ShapeUnion := circle (radius : double) | rect (width height : double) | triangle (a b c : double).
Record Shape := { shape_kind : ShapeKind; dims : ShapeUnion }.

Definition M_PI : double := lit 314159265358979323846 20.

Definition shape_area (s : Shape) : prog double :=
  match shape_kind s, dims s with
  | CIRCLE, circle radius => ret (d_mul (d_mul M_PI radius) radius)
  | RECT, rect width height => ret (d_mul width height)
  | TRIANGLE, triangle a b c =>
      let p := d_div (d_add (d_add a b) c) (lit 20 1) in
      ret (d_sqrt (d_mul (d_mul (d_mul p (d_sub p a)) (d_sub p b)) (d_sub p c)))
  | _, _ => undefined
  end.

Definition shape_name (k : ShapeKind) : string :=
  match k with CIRCLE => "circle" | RECT => "rect" | TRIANGLE => "triangle" end.

(** ** The program *)

Definition main_enums : prog unit :=
  printf "=== enum: Weekday ===\n" [] ;;;
  let today := WED in
  s <- weekday_name today ;;
  printf "today = %s (%d)\n" [AStr s; AInt today] ;;;
  for_range MON (SUN + 1) (λ d _,
    s <- weekday_name d ;;
    printf "  %d = %s%s\n" [AInt d; AStr s; AStr (if SAT <=? d then " (weekend)" else "")]) tt ;;;
  printf "\n=== enum: HttpStatus ===\n" [] ;;;
  for_list [HTTP_OK; HTTP_CREATED; HTTP_NOT_FOUND; HTTP_SERVER_ERROR] (λ s _,
    printf "  %d %s\n" [AInt s; AStr (http_label s)]) tt.

Definition main_flags : prog unit :=
  printf "\n=== enum: bit flags ===\n" [] ;;;
  let owner := Z.lor (Z.lor PERM_READ PERM_WRITE) PERM_EXECUTE in
  let group := Z.lor PERM_READ PERM_EXECUTE in
  let other := PERM_READ in
  printf "owner: " [] ;;; print_permissions owner ;;;
  printf "group: " [] ;;; print_permissions group ;;;
  printf "other: " [] ;;; print_permissions other ;;;
  let group := Z.lor group PERM_WRITE in
  let other := Z.land other (Z.lnot PERM_READ) in
  printf "group after grant write: " [] ;;; print_permissions group ;;;
  printf "other after revoke read: " [] ;;; print_permissions other.

Definition main_union : prog unit :=
  printf "\n=== union: shared memory ===\n" [] ;;;
  let u := set_i 1094861636 in
  printf "as int:   0x%08X\n" [AInt (get_i u)] ;;;
  printf "as bytes: %c %c %c %c\n" [AInt (byte u 3); AInt (byte u 2); AInt (byte u 1); AInt (byte u 0)] ;;;
  printf "sizeof(MultiView) = %zu  (size of largest member)\n" [AInt (Z.of_nat (length (storage u)))] ;;;
  let f := to_float (lit 10 1) in
  let u := set_f f in
  printf "as float: %f  (bits: 0x%08X)\n" [ADbl (get_f u); AInt (get_i u)].

Definition vals : list Value :=
  [make_num (lit 314 2); make_str "hello"; make_bool 1; make_num (d_opp (lit 5 1)); make_bool 0].

Definition shapes : list Shape :=
  [{| shape_kind := CIRCLE; dims := circle (lit 50 1) |};
   {| shape_kind := RECT; dims := rect (lit 40 1) (lit 60 1) |};
   {| shape_kind := TRIANGLE; dims := triangle (lit 30 1) (lit 40 1) (lit 50 1) |}].

Definition main : prog Z :=
  main_enums ;;;
  main_flags ;;;
  main_union ;;;
  printf "\n=== tagged union: Value ===\n" [] ;;;
  for_list vals (λ v _, print_value v) tt ;;;
  printf "\n=== tagged union: Shape ===\n" [] ;;;
  for_list shapes (λ s _,
    a <- shape_area s ;;
    printf "%-10s area = %.4f\n" [AStr (shape_name (shape_kind s)); ADbl a]) tt ;;;
  ret 0.

(** ** Theorems *)

(** *** Permissions *)

(** The line for a readable, writable and executable file. *)
Definition permission_text (r w x : bool) : string :=
  let sign (b : bool) := String (if b then "+" else "-")%char "" in
  ("r" +:+ sign r +:+ " w" +:+ sign w +:+ " x" +:+ sign x +:+ String nl "")%string.

Lemma has_testbit p n : 0 ≤ n → has p (Z.shiftl 1 n) = Z.testbit p n.
Proof.
  intros Hn. unfold has. destruct (Z.testbit p n) eqn:E.
  - apply negb_true_iff, Z.eqb_neq. intros H. apply (f_equal (λ z, Z.testbit z n)) in H.
    rewrite Z.land_spec E Z.shiftl_spec // Z.sub_diag Z.bits_0 in H. done.
  - apply negb_false_iff, Z.eqb_eq, Z.bits_inj. intros k. rewrite Z.land_spec Z.bits_0.
    destruct (decide (k = n)) as [->|Hk]; [by rewrite E|].
    destruct (Z.ltb_spec k 0); [by rewrite Z.testbit_neg_r|].
    rewrite Z.shiftl_spec // -(Z.pow_0_r 2) Z.pow2_bits_false; [by rewrite andb_false_r|lia].
Qed.

Lemma print_permissions_writes p :
  writes (print_permissions p) tt [Out (permission_text (Z.testbit p 0) (Z.testbit p 1) (Z.testbit p 2))].
Proof.
  unfold print_permissions, PERM_READ, PERM_WRITE, PERM_EXECUTE. rewrite !has_testbit //.
  destruct (Z.testbit p 0), (Z.testbit p 1), (Z.testbit p 2); by apply writes_printf.
Qed.

(** Granting and revoking the permission of bit [n]. *)
Lemma granted_bit p n k : 0 ≤ n → 0 ≤ k → Z.testbit (Z.lor p (Z.shiftl 1 n)) k = (k =? n) || Z.testbit p k.
Proof. intros Hn Hk. rewrite Z.lor_spec Z.shiftl_1_l Z.pow2_bits_eqb // Z.eqb_sym. apply orb_comm. Qed.

Lemma revoked_bit p n k : 0 ≤ n → 0 ≤ k → Z.testbit (Z.land p (Z.lnot (Z.shiftl 1 n))) k = negb (k =? n) && Z.testbit p k.
Proof. intros Hn Hk. rewrite Z.land_spec Z.lnot_spec // Z.shiftl_1_l Z.pow2_bits_eqb // Z.eqb_sym. apply andb_comm. Qed.

(** *** The union *)

(** The bytes of a number. *)
Lemma nth_le n z k : (k < n)%nat → code (nth k (Encoding.le n z) "000"%char) = z / 256 ^ Z.of_nat k mod 256.
Proof.
  revert n z. induction k as [|k IH]; intros [|n] z Hk; try lia; cbn [Encoding.le nth].
  - by rewrite code_chr_mod Z.div_1_r.
  - rewrite IH; [|lia]. rewrite Nat2Z.inj_succ Z.pow_succ_r; [|lia]. by rewrite Z.div_div; [|lia..].
Qed.

(** The fields of a normal float, read as an [int]. *)
Lemma float_fields (s : bool) m e : 2 ^ 23 ≤ Z.pos m < 2 ^ 24 → -149 ≤ e ≤ 104 →
  let i := u32 (get_i (set_f (S754_finite s m e))) in
  i / 2 ^ 31 = (if s then 1 else 0) ∧ i / 2 ^ 23 mod 256 = e + 150 ∧ i mod 2 ^ 23 = Z.pos m - 2 ^ 23.
Proof.
  intros Hm He i. set (z := (if s then 2 ^ 31 else 0) + (e + 150) * 2 ^ 23 + (Z.pos m - 2 ^ 23)).
  assert (0 ≤ z < 2 ^ 32) as Hz by (unfold z; destruct s; lia).
  assert (i = z) as ->.
  { unfold i, get_i, set_f. cbn [storage of_bytes int_codec to_bytes float_codec].
    assert (float_bits (S754_finite s m e) = z) as ->.
    { unfold float_bits, z. destruct (Z.ltb_spec (Z.pos m) (2 ^ 23)); [lia|]. destruct s; lia. }
    rewrite of_le_le; [|done]. unfold u32, to_int. rewrite Zminus_mod_idemp_l Z.add_simpl_r. by apply Z.mod_small. }
  destruct (bits_parts s (e + 150) (Z.pos m - 2 ^ 23)) as (_ & E2 & E3); [lia..|]. fold z in E2, E3. split_and!; [|done..].
  unfold z. destruct s; [symmetry; apply (Z.div_unique _ _ 1 ((e + 150) * 2 ^ 23 + (Z.pos m - 2 ^ 23))); lia|apply Z.div_small; lia].
Qed.

(** *** The string *)

Lemma text_ends bs : text (bs ++ ["000"%char]) = text bs.
Proof. induction bs as [|c bs IH]; [done|]. simpl. by rewrite IH. Qed.

(** What [make_str] stores is a string of at most 31 characters. *)
Lemma make_str_string s : no_nul s →
  ∃ a, as_ (make_str s) = string_ a ∧ length a = 32%nat ∧ a !! 31%nat = Some "000"%char ∧ c_string a = Some (take_str 31 s).
Proof.
  intros Hs. eexists. split; [reflexivity|]. unfold strncpy. change (length (replicate 32 "000"%char) - 1)%nat with 31%nat.
  change (drop 31 (replicate 32 "000"%char)) with ["000"%char]. pose proof (length_chars 31 s) as Hl. split_and!.
  - by rewrite length_app Hl.
  - by rewrite lookup_app_r Hl.
  - unfold c_string. rewrite decide_True; [|set_solver]. f_equal. rewrite -text_take //. unfold chars.
    rewrite take_app -app_assoc take_replicate. destruct (decide (length (bytes_of s) < 31)%nat) as [Hn|Hn].
    + replace (31 - length (bytes_of s))%nat with (S (30 - length (bytes_of s))) by lia. rewrite Nat.min_l; [|lia].
      rewrite take_ge; [|lia]. cbn [replicate app]. rewrite text_bytes_app // text_bytes //. apply string_app_nil_r.
    + replace (31 - length (bytes_of s))%nat with 0%nat by lia. cbn [Nat.min replicate app].
      rewrite text_ends. done.
Qed.

(** C11.  Values and their representations.  [weekday_name] gives each day its name and any
    other [int] a question mark.  [print_permissions] shows the three lowest bits, and
    granting or revoking a permission changes its sign in the line and no other.  Of an
    [int] stored in the union the byte [k] is the [k]th of its representation; of a normal
    [float] that is stored, the [int] read back has the sign, the exponent and the fraction
    in their IEEE fields.  [make_str] leaves a terminated array, and each [Value] is printed
    as one of its kind, a string cut to 31 characters. *)
Theorem representations_correct :
  (∀ d, yields (weekday_name d)
     (match d with 0 => "Mon" | 1 => "Tue" | 2 => "Wed" | 3 => "Thu" | 4 => "Fri" | 5 => "Sat" | 6 => "Sun" | _ => "?" end)%string) ∧
  (∀ p, let r := Z.testbit p 0 in let w := Z.testbit p 1 in let x := Z.testbit p 2 in
     writes (print_permissions p) tt [Out (permission_text r w x)] ∧
     writes (print_permissions (Z.lor p PERM_READ)) tt [Out (permission_text true w x)] ∧
     writes (print_permissions (Z.lor p PERM_WRITE)) tt [Out (permission_text r true x)] ∧
     writes (print_permissions (Z.lor p PERM_EXECUTE)) tt [Out (permission_text r w true)] ∧
     writes (print_permissions (Z.land p (Z.lnot PERM_READ))) tt [Out (permission_text false w x)] ∧
     writes (print_permissions (Z.land p (Z.lnot PERM_WRITE))) tt [Out (permission_text r false x)] ∧
     writes (print_permissions (Z.land p (Z.lnot PERM_EXECUTE))) tt [Out (permission_text r w false)]) ∧
  (∀ i k, (k < 4)%nat → byte (set_i i) k = u32 i / 256 ^ Z.of_nat k mod 256) ∧
  (∀ s m e, 2 ^ 23 ≤ Z.pos m < 2 ^ 24 → -149 ≤ e ≤ 104 →
     let i := u32 (get_i (set_f (S754_finite s m e))) in
     i / 2 ^ 31 = (if s then 1 else 0) ∧ i / 2 ^ 23 mod 256 = e + 150 ∧ i mod 2 ^ 23 = Z.pos m - 2 ^ 23) ∧
  (∀ s, no_nul s →
     (∃ a, as_ (make_str s) = string_ a ∧ length a = 32%nat ∧ a !! 31%nat = Some "000"%char) ∧
     writes (print_value (make_str s)) tt
       [Out ("string: " +:+ String dquote (take_str 31 s) +:+ String dquote (String nl ""))%string]) ∧
  (∀ b, writes (print_value (make_bool b)) tt
     [Out ("bool:   " +:+ (if (b =? 0)%Z then "false" else "true") +:+ String nl "")%string]) ∧
  (∀ d, writes (print_value (make_num d)) tt [Out ("number: " +:+ fmt_g d +:+ String nl "")%string]).
Proof.
  split_and!.
  - intros d w. unfold weekday_name, MON, SUN, name_at. destruct (decide (0 ≤ d ≤ 6)) as [Hd|Hd].
    + assert (d = 0 ∨ d = 1 ∨ d = 2 ∨ d = 3 ∨ d = 4 ∨ d = 5 ∨ d = 6) as H by lia. by destruct_or! H; subst.
    + destruct d as [|d|d]; [lia| |done]. zb; try lia. do 3 (destruct d as [d|d|]; try lia; try done).
  - intros p r w x. unfold PERM_READ, PERM_WRITE, PERM_EXECUTE. subst r w x.
    split_and!; [apply print_permissions_writes|..];
      match goal with |- writes (print_permissions ?q) _ _ => pose proof (print_permissions_writes q) as H end;
      rewrite ?granted_bit ?revoked_bit // in H.
  - intros i k Hk. unfold byte, set_i. cbn [storage to_bytes int_codec]. by apply nth_le.
  - exact float_fields.
  - intros s Hs. destruct (make_str_string s Hs) as (a & Ea & Hl & H0 & Hc). split; [by exists a|].
    unfold print_value. rewrite Ea. cbn [kind make_str]. rewrite Hc.
    apply writes_printf. unfold format. simpl. unfold fmt_str. simpl. by str_norm.
  - intros b. apply writes_printf. unfold format. simpl. unfold fmt_str. simpl. by str_norm.
  - intros d. apply writes_printf. unfold format. simpl. by str_norm.
Qed.

Definition main_text : string := esc (concat_str [
  "=== enum: Weekday ===\n"; "today = Wed (2)\n"; "  0 = Mon\n"; "  1 = Tue\n"; "  2 = Wed\n"; "  3 = Thu\n"; "  4 = Fri\n";
  "  5 = Sat (weekend)\n"; "  6 = Sun (weekend)\n";
  "\n=== enum: HttpStatus ===\n"; "  200 OK\n"; "  201 Created\n"; "  404 Not Found\n"; "  500 Internal Server Error\n";
  "\n=== enum: bit flags ===\n"; "owner: r+ w+ x+\n"; "group: r+ w- x+\n"; "other: r+ w- x-\n";
  "group after grant write: r+ w+ x+\n"; "other after revoke read: r- w- x-\n";
  "\n=== union: shared memory ===\n"; "as int:   0x41424344\n"; "as bytes: A B C D\n";
  "sizeof(MultiView) = 4  (size of largest member)\n"; "as float: 1.000000  (bits: 0x3F800000)\n";
  "\n=== tagged union: Value ===\n"; "number: 3.14\n"; "string: \qhello\q\n"; "bool:   true\n"; "number: -0.5\n"; "bool:   false\n";
  "\n=== tagged union: Shape ===\n"; "circle     area = 78.5398\n"; "rect       area = 24.0000\n"; "triangle   area = 6.0000\n"])%string.

Lemma enums_unions_main_correct :
  runs main (λ r e, r = 0 ∧ stdout e = main_text ∧ stderr e = ""%string) False.
Proof. run_program. Qed.
