(* ===== verification/Memory.v ===== *)
(** * Exercise 08: memory management

    Model of [exercises/08_memory_management/memory.c]: the uses of [malloc], [calloc]
    and [realloc], the copied string and the growing array [IntVec].  A block is an
    array of [int]s, of players or of characters, each element indeterminate until it is
    written; access outside it is undefined, and so is [realloc] to size 0. *)

From S2P Require Import Prelude Machine CString Double Printf SepLogic Pure.
#[local] Open Scope Z_scope.

(** ** Data *)

Record IntVec := { data : ptr; size : Z; capacity : Z }.

(** [struct { char name[32]; int score; }] *)
Record Player := { name : option string; score : option Z }.

Inductive obj :=
  | ORaw
  | OInts (l : list (option Z))
  | OPlayers (l : list Player)
  | OText (s : string)
  | OVec (v : IntVec).

#[export] Instance obj_ints : Prism obj (list (option Z)) :=
  {| to_obj := OInts; of_obj o := match o with OInts l => Some l | _ => None end; of_to_obj _ := eq_refl |}.
#[export] Instance obj_players : Prism obj (list Player) :=
  {| to_obj := OPlayers; of_obj o := match o with OPlayers l => Some l | _ => None end; of_to_obj _ := eq_refl |}.
#[export] Instance obj_text : Prism obj string :=
  {| to_obj := OText; of_obj o := match o with OText s => Some s | _ => None end; of_to_obj _ := eq_refl |}.
#[export] Instance obj_vec : Prism obj IntVec :=
  {| to_obj := OVec; of_obj o := match o with OVec v => Some v | _ => None end; of_to_obj _ := eq_refl |}.

(** ** Arrays of [int] *)

Definition arr_get (p : ptr) (i : Z) : M obj Z :=
  l <- load p ;;
  if i <? 0 then undefined else match l !! Z.to_nat i with Some (Some z) => ret z | _ => undefined end.

Definition arr_set (p : ptr) (i z : Z) : M obj unit :=
  l <- load p ;;
  if (0 <=? i) && (i <? Z.of_nat (length l)) then store p (<[Z.to_nat i := Some z]> l) else undefined.

Definition malloc_ints (n : Z) : M obj ptr := malloc (OInts (replicate (Z.to_nat n) None)).
Definition calloc_ints (n : Z) : M obj ptr := malloc (OInts (replicate (Z.to_nat n) (Some 0))).

(** [realloc(p, n * sizeof(int))]. *)
Definition realloc_ints (p : ptr) (n : Z) : M obj ptr :=
  if n <=? 0 then undefined
  else
    l <- load p ;;
    q <- malloc (OInts (take (Z.to_nat n) (l ++ replicate (Z.to_nat n) None))) ;;
    match q with
    | None => ret NULL
    | Some _ => free p ;;; ret q
    end.

(** [for (int i = 0; i < n; i++) printf("%d ", p[i]); printf("\n");] *)
Definition print_ints (p : ptr) (n : Z) : M obj unit :=
  for_range 0 n (λ i _, z <- arr_get p i ;; printf "%d " [AInt z]) tt ;;;
  printf "\n" [].

(** ** The copied string *)

Definition dup_string (src : string) : M obj ptr :=
  dst <- malloc ORaw ;;
  match dst with
  | None => ret NULL
  | Some _ => store dst src ;;; ret dst
  end.

(** ** The growing array *)

Definition set_data (p : ptr) (n : Z) (v : IntVec) : IntVec := {| data := p; size := size v; capacity := n |}.
Definition set_size (n : Z) (v : IntVec) : IntVec := {| data := data v; size := n; capacity := capacity v |}.

Definition vec_create (initial_capacity : Z) : M obj ptr :=
  v <- malloc ORaw ;;
  match v with
  | None => ret NULL
  | Some _ =>
      d <- malloc_ints initial_capacity ;;
      match d with
      | None => free v ;;; ret NULL
      | Some _ => store v {| data := d; size := 0; capacity := initial_capacity |} ;;; ret v
      end
  end.

(** [if (v->size == v->capacity) { ... }]: false when the function returns there. *)
Definition grow (p : ptr) : M obj bool :=
  v <- load p ;;
  if size v =? capacity v then
    new_cap <- int_chk (capacity v * 2) ;;
    tmp <- realloc_ints (data v) new_cap ;;
    match tmp with
    | None => eprintf "vec_push: realloc failed\n" [] ;;; ret false
    | Some _ => update p (set_data tmp new_cap) ;;; ret true
    end
  else ret true.

Definition vec_push (p : ptr) (value : Z) : M obj unit :=
  ok <- grow p ;;
  if negb ok then ret tt
  else
    v <- load p ;;
    n <- int_chk (size v + 1) ;;
    update p (set_size n) ;;;
    arr_set (data v) (size v) value.

Definition vec_free (p : ptr) : M obj unit :=
  v <- load p ;;
  free (data v) ;;;
  free p.

(** ** The program

    Each part answers [Some 1] when [main] returns from there. *)

Definition fail (msg : string) : M obj (option Z) := eprintf msg [] ;;; ret (Some 1).

(** [m; k], where [m] may return. *)
Definition unless_returned (m k : M obj (option Z)) : M obj (option Z) :=
  r <- m ;; match r with Some c => ret (Some c) | None => k end.

Definition main_malloc : M obj (option Z) :=
  printf "=== malloc ===\n" [] ;;;
  let n := 5 in
  arr <- malloc_ints n ;;
  match arr with
  | None => fail "malloc failed\n"
  | Some _ =>
      for_range 0 n (λ i _, arr_set arr i ((i + 1) * 10)) tt ;;;
      for_range 0 n (λ i _, z <- arr_get arr i ;; printf "arr[%d] = %d\n" [AInt i; AInt z]) tt ;;;
      free arr ;;; ret None
  end.

Definition main_calloc : M obj (option Z) :=
  printf "\n=== calloc ===\n" [] ;;;
  zeroed <- calloc_ints 5 ;;
  match zeroed with
  | None => fail "calloc failed\n"
  | Some _ =>
      printf "fresh calloc (should all be 0): " [] ;;;
      print_ints zeroed 5 ;;;
      free zeroed ;;; ret None
  end.

Definition main_realloc : M obj (option Z) :=
  printf "\n=== realloc ===\n" [] ;;;
  let cap := 4 in
  buf <- malloc_ints cap ;;
  match buf with
  | None => fail "malloc failed\n"
  | Some _ =>
      for_range 0 cap (λ i _, arr_set buf i i) tt ;;;
      printf "before realloc (cap=%d): " [AInt cap] ;;;
      print_ints buf cap ;;;
      let cap := cap * 2 in
      tmp <- realloc_ints buf cap ;;
      match tmp with
      | None => eprintf "realloc failed\n" [] ;;; free buf ;;; ret (Some 1)
      | Some _ =>
          for_range (Z.quot cap 2) cap (λ i _, arr_set tmp i i) tt ;;;
          printf "after  realloc (cap=%d): " [AInt cap] ;;;
          print_ints tmp cap ;;;
          free tmp ;;; ret None
      end
  end.

(** Player [i] of a block of players: [strcpy] to its name, and its score. *)
Definition set_player (p : ptr) (i : Z) (n : string) (s : Z) : M obj unit :=
  l <- load p ;;
  if (0 <=? i) && (i <? Z.of_nat (length l)) && (strlen n <? 32)
  then store p (<[Z.to_nat i := {| name := Some n; score := Some s |}]> l) else undefined.

Definition get_player (p : ptr) (i : Z) : M obj (string * Z) :=
  l <- load p ;;
  if i <? 0 then undefined
  else match l !! Z.to_nat i with
       | Some {| name := Some n; score := Some s |} => ret (n, s)
       | _ => undefined
       end.

Definition main_struct : M obj (option Z) :=
  printf "\n=== Heap-allocated struct ===\n" [] ;;;
  p <- malloc (OPlayers [{| name := None; score := None |}]) ;;
  match p with
  | None => fail "malloc failed\n"
  | Some _ =>
      set_player p 0 "Alice" 9500 ;;;
      let* (n, s) := get_player p 0 in
      printf "player: %s  score: %d\n" [AStr n; AInt s] ;;;
      free p ;;; ret None
  end.

Definition names : list string := ["Bob"; "Carol"; "Dave"].

Definition main_team : M obj (option Z) :=
  printf "\n=== Heap-allocated array of structs ===\n" [] ;;;
  team <- malloc (OPlayers (replicate 3 {| name := Some ""%string; score := Some 0 |})) ;;
  match team with
  | None => fail "calloc failed\n"
  | Some _ =>
      for_list names (λ n i, set_player team i n ((i + 1) * 1000) ;;; ret (i + 1)) 0 ;;;
      for_range 0 3 (λ i _, let* (n, s) := get_player team i in printf "  %s: %d\n" [AStr n; AInt s]) tt ;;;
      free team ;;; ret None
  end.

Definition main_dup : M obj (option Z) :=
  printf "\n=== Heap string (strdup pattern) ===\n" [] ;;;
  copy <- dup_string "Hello, heap!" ;;
  match copy with
  | None => fail "dup_string failed\n"
  | Some _ =>
      s <- load copy ;;
      printf "copy = \q%s\q\n" [AStr s] ;;;
      free copy ;;; ret None
  end.

Definition push_and_show (v : ptr) (i : Z) : M obj unit :=
  vec_push v (i * 5) ;;;
  t <- load v ;;
  printf "pushed %2d  size=%d  cap=%d\n" [AInt (i * 5); AInt (size t); AInt (capacity t)].

Definition main_vec : M obj (option Z) :=
  printf "\n=== Dynamic array (IntVec) ===\n" [] ;;;
  v <- vec_create 2 ;;
  match v with
  | None => fail "vec_create failed\n"
  | Some _ =>
      for_range 1 (8 + 1) (λ i _, push_and_show v i) tt ;;;
      printf "contents: " [] ;;;
      t <- load v ;;
      print_ints (data t) (size t) ;;;
      vec_free v ;;;
      ret None
  end.

Definition main : M obj Z :=
  r <- unless_returned main_malloc (unless_returned main_calloc (unless_returned main_realloc
    (unless_returned main_struct (unless_returned main_team (unless_returned main_dup main_vec))))) ;;
  match r with Some c => ret c | None => ret 0 end.

(** ** Specifications *)

Section wp.
Context (mf : bool) (X : Z → Prop).

Lemma wp_ints_get p l i z (Q : Z → list ev → hpropI obj) :
  0 ≤ i → l !! Z.to_nat i = Some (Some z) →
  p ↦ OInts l -∗ (p ↦ OInts l -∗ Q z []) -∗ wp mf X (arr_get (Some p) i) Q.
Proof.
  intros Hi Hl. iIntros "Hp HQ". unfold arr_get. wp_step. wp_step.
  destruct (Z.ltb_spec i 0); [lia|]. rewrite Hl. wp_step. by iApply "HQ".
Qed.

Lemma wp_ints_set p l i z (Q : unit → list ev → hpropI obj) :
  0 ≤ i < Z.of_nat (length l) →
  p ↦ OInts l -∗ (p ↦ OInts (<[Z.to_nat i := Some z]> l) -∗ Q tt []) -∗ wp mf X (arr_set (Some p) i z) Q.
Proof.
  intros Hi. iIntros "Hp HQ". unfold arr_set. wp_step. wp_step.
  destruct (Z.leb_spec 0 i); [|lia]. destruct (Z.ltb_spec i (Z.of_nat (length l))); [|lia].
  cbn [andb]. wp_step. by iApply "HQ".
Qed.

Lemma wp_realloc_ints p l n (Q : ptr → list ev → hpropI obj) :
  Z.of_nat (length l) ≤ n → 0 < n →
  p ↦ OInts l -∗
  (⌈mf = true⌉ -∗ p ↦ OInts l -∗ Q None []) ∧
  (∀ q, q ↦ OInts (l ++ replicate (Z.to_nat n - length l) None) -∗ Q (Some q) []) -∗
  wp mf X (realloc_ints (Some p) n) Q.
Proof.
  intros Hl Hn. iIntros "Hp HQ". unfold realloc_ints. destruct (Z.leb_spec n 0); [lia|].
  wp_step. wp_step. wp_step. iApply wp_malloc. iIntros ([q|]) "%Hq Hm"; wp_run.
  - iDestruct "HQ" as "[_ HQ]". iApply "HQ".
    rewrite take_app_ge; [|lia]. rewrite take_replicate. by replace ((_ - _) `min` _)%nat with (Z.to_nat n - length l)%nat by lia.
  - iDestruct "HQ" as "[HQ _]". iApply ("HQ" with "[] Hp"). iPureIntro. auto.
Qed.

(** The text of one loop that prints defined elements. *)
Lemma wp_print_ints p xs rest (Q : unit → list ev → hpropI obj) :
  p ↦ OInts ((Some <$> xs) ++ rest) -∗
  (∀ o, ⌈stdout o = (concat_str ((λ z, int_str z +:+ " ") <$> xs) +:+ String nl "")%string ∧ stderr o = ""%string⌉ -∗
     p ↦ OInts ((Some <$> xs) ++ rest) -∗ Q tt o) -∗
  wp mf X (print_ints (Some p) (Z.of_nat (length xs))) Q.
Proof.
  iIntros "Hp HQ". unfold print_ints. wp_step.
  iApply (wp_for_range _ _ (λ (i : Z) (_ : unit) (o : list ev),
    (⌈stdout o = concat_str ((λ z, int_str z +:+ " ")%string <$> take (Z.to_nat i) xs) ∧ stderr o = ""%string⌉ ∗
      p ↦ OInts ((Some <$> xs) ++ rest))%I) with "[Hp]").
  - lia.
  - intros i [] o Hi. iIntros "[%H Hp]". destruct H as [Ho He].
    assert (is_Some (xs !! Z.to_nat i)) as [z Hz] by (apply lookup_lt_is_Some; lia).
    wp_step. iApply (wp_ints_get with "Hp"); [lia| |].
    { rewrite lookup_app_l; [|rewrite length_fmap; lia]. by rewrite list_lookup_fmap Hz. }
    iIntros "Hp". wp_step. iSplitR; [|done]. iPureIntro.
    replace (Z.to_nat (i + 1)) with (S (Z.to_nat i)) by lia.
    rewrite (take_S_r _ _ _ Hz) fmap_app concat_str_app stdout_app stderr_app Ho He /=.
    rewrite fmt_signed_plain !string_app_nil_r. by str_norm.
  - iSplitR; [|done]. by iPureIntro.
  - iIntros ([] o) "[%H Hp]". destruct H as [Ho He]. wp_step. iApply ("HQ" with "[] Hp"). iPureIntro.
    by rewrite stdout_app stderr_app Ho He Nat2Z.id firstn_all.
Qed.

(** The vector [v] holds [xs], in a block of [cap] elements. *)
Definition vec (v : positive) (xs : list Z) (cap : Z) : hpropI obj :=
  (∃ (l : positive) (rest : list (option Z)), ⌈(Z.of_nat (length xs) + Z.of_nat (length rest))%Z = cap⌉ ∗
     v ↦ OVec {| data := Some l; size := Z.of_nat (length xs); capacity := cap |} ∗
     l ↦ OInts ((Some <$> xs) ++ rest))%I.

Lemma wp_vec_create n (Q : ptr → list ev → hpropI obj) :
  0 ≤ n →
  (⌈mf = true⌉ -∗ Q None []) ∧ (∀ v, vec v [] n -∗ Q (Some v) []) -∗
  wp mf X (vec_create n) Q.
Proof.
  intros Hn. iIntros "HQ". unfold vec_create. wp_step. iApply wp_malloc. iIntros ([v|]) "%Hv Hv"; wp_step.
  - unfold malloc_ints. iApply wp_malloc. iIntros ([l|]) "%Hl Hl"; wp_run.
    + iDestruct "HQ" as "[_ HQ]". iApply "HQ". iExists l, (replicate (Z.to_nat n) None). iFrame.
      iPureIntro. rewrite length_replicate. simpl. lia.
    + iDestruct "HQ" as "[HQ _]". iApply "HQ". iPureIntro. auto.
  - iDestruct "HQ" as "[HQ _]". iApply "HQ". iPureIntro. auto.
Qed.

(** The capacity after one more element. *)
Definition next_cap (k cap : Z) : Z := if k =? cap then cap * 2 else cap.

Definition full_msg : ev := Err (esc "vec_push: realloc failed\n").

Lemma wp_vec_push v xs cap x (Q : unit → list ev → hpropI obj) :
  1 ≤ cap ≤ INT_MAX → next_cap (Z.of_nat (length xs)) cap ≤ INT_MAX →
  vec v xs cap -∗
  (⌈mf = true ∧ Z.of_nat (length xs) = cap⌉ -∗ vec v xs cap -∗ Q tt [full_msg]) ∧
  (vec v (xs ++ [x]) (next_cap (Z.of_nat (length xs)) cap) -∗ Q tt []) -∗
  wp mf X (vec_push (Some v) x) Q.
Proof.
  intros Hc Hf. iIntros "Hv HQ". iDestruct "Hv" as (l rest Hlen) "[Hv Hl]". unfold vec_push, grow.
  assert (∀ l rest k, 0 < k ≤ INT_MAX → Z.of_nat (length xs) < k → Z.of_nat (length xs) + Z.of_nat (length rest) = k →
    v ↦ OVec {| data := Some l; size := Z.of_nat (length xs); capacity := k |} -∗
    l ↦ OInts ((Some <$> xs) ++ rest) -∗ (vec v (xs ++ [x]) k -∗ Q tt []) -∗
    wp mf X (t <- load (Some v) ;; n <- int_chk (size t + 1) ;; update (Some v) (set_size n) ;;;
             arr_set (data t) (size t) x) Q) as Hstore.
  { clear l rest Hlen. intros l rest k Hk Hlk Hlen. iIntros "Hv Hl HQ". wp_step. wp_step. cbn [size data].
    wp_step. wp_step. wp_step. wp_step. iApply (wp_ints_set with "Hl").
    { rewrite length_app length_fmap. lia. }
    iIntros "Hl". iApply "HQ". rewrite Nat2Z.id insert_app_r_alt; [|by rewrite length_fmap].
    rewrite length_fmap Nat.sub_diag. destruct rest as [|r rest]; [simpl in Hlen; lia|].
    iExists l, rest. rewrite length_app fmap_app -app_assoc /= Nat2Z.inj_add. iFrame. iPureIntro. simpl in Hlen. lia. }
  do 3 wp_step. cbn [size capacity data]. unfold next_cap in *.
  destruct (Z.eqb_spec (Z.of_nat (length xs)) cap) as [E|E].
  - wp_step. wp_step. wp_step. iApply (wp_realloc_ints with "Hl"); [rewrite length_app length_fmap; lia|lia|]. iSplit.
    + iIntros "%Hm Hl". wp_run. cbn [negb]. wp_step. iDestruct "HQ" as "[HQ _]".
      iApply ("HQ" with "[]"); [done|]. iExists l, rest. iSplitR; [done|]. by iSplitL "Hv".
    + iIntros (q) "Hq". wp_run. cbn [negb]. iDestruct "HQ" as "[_ HQ]". rewrite -app_assoc.
      iApply (Hstore with "Hv Hq HQ"); [lia|lia|]. rewrite !length_app length_replicate length_fmap. lia.
  - wp_step. cbn [negb]. iDestruct "HQ" as "[_ HQ]". iApply (Hstore with "Hv Hl HQ"); lia.
Qed.

Lemma wp_vec_free v xs cap (Q : unit → list ev → hpropI obj) :
  vec v xs cap -∗ Q tt [] -∗ wp mf X (vec_free (Some v)) Q.
Proof.
  iIntros "Hv HQ". iDestruct "Hv" as (l rest Hlen) "[Hv Hl]". unfold vec_free. do 2 wp_step. cbn [data]. wp_run. iExact "HQ".
Qed.
End wp.

(** ** Theorems *)

(** A client of the vector: the elements are pushed, then read; the vector is freed. *)
Definition read_ints (p : ptr) (n : Z) : M obj (list Z) :=
  for_range 0 n (λ i acc, z <- arr_get p i ;; ret (acc ++ [z])) [].

Definition vec_client (initial : Z) (xs : list Z) : M obj (option (list Z)) :=
  v <- vec_create initial ;;
  match v with
  | None => ret None
  | Some _ =>
      for_list xs (λ x _, vec_push v x) tt ;;;
      t <- load v ;;
      l <- read_ints (data t) (size t) ;;
      vec_free v ;;;
      ret (Some l)
  end.

Section clients.
Context (mf : bool) (X : Z → Prop).

Lemma wp_read_ints p xs rest (Q : list Z → list ev → hpropI obj) :
  p ↦ OInts ((Some <$> xs) ++ rest) -∗ (p ↦ OInts ((Some <$> xs) ++ rest) -∗ Q xs []) -∗
  wp mf X (read_ints (Some p) (Z.of_nat (length xs))) Q.
Proof.
  iIntros "Hp HQ". unfold read_ints.
  iApply (wp_for_range _ _ (λ (i : Z) (acc : list Z) (o : list ev),
    (⌈acc = take (Z.to_nat i) xs ∧ o = []⌉ ∗ p ↦ OInts ((Some <$> xs) ++ rest))%I) with "[Hp]").
  - lia.
  - intros i acc o Hi. iIntros "[%H Hp]". destruct H as [-> ->].
    assert (is_Some (xs !! Z.to_nat i)) as [z Hz] by (apply lookup_lt_is_Some; lia).
    wp_step. iApply (wp_ints_get with "Hp"); [lia| |].
    { rewrite lookup_app_l; [|rewrite length_fmap; lia]. by rewrite list_lookup_fmap Hz. }
    iIntros "Hp". wp_step. iSplitR; [|done]. iPureIntro. split; [|done].
    replace (Z.to_nat (i + 1)) with (S (Z.to_nat i)) by lia. by rewrite (take_S_r _ _ _ Hz).
  - iSplitR; [|done]. by iPureIntro.
  - iIntros (acc o) "[%H Hp]". destruct H as [-> ->]. rewrite Nat2Z.id firstn_all. by iApply "HQ".
Qed.

(** The pushes of a list: those that succeed, in order, and a message for the others. *)
Lemma wp_vec_push_list v xs ys cap n (Q : unit → list ev → hpropI obj) :
  1 ≤ cap ≤ INT_MAX → cap ≤ Z.max n (2 * Z.of_nat (length ys)) → n ≤ INT_MAX →
  2 * Z.of_nat (length ys + length xs) ≤ INT_MAX →
  vec v ys cap -∗
  (∀ zs k o, ⌈zs `sublist_of` xs ∧ (mf = false → zs = xs) ∧ stdout o = ""%string ∧
              (stderr o = ""%string ↔ zs = xs)⌉ -∗
     vec v (ys ++ zs) k -∗ Q tt o) -∗
  wp mf X (for_list xs (λ x _, vec_push (Some v) x) tt) Q.
Proof.
  revert ys cap Q. induction xs as [|x xs IH]; intros ys cap Q Hc Hcap Hn Hlen; iIntros "Hv HQ"; cbn [for_list].
  - wp_step. iApply ("HQ" $! []); [|by rewrite app_nil_r]. by iPureIntro.
  - cbn [length] in Hlen. wp_step.
    assert (next_cap (Z.of_nat (length ys)) cap ≤ INT_MAX) as Hnc by (unfold next_cap; zb; lia).
    iApply (wp_vec_push with "Hv"); [done|done|]. iSplit.
    + iIntros "%Hm Hv". iApply (IH with "Hv"); [done|done|done|lia|].
      iIntros (zs k o) "%H Hv". destruct H as (Hs & Hz & Ho & He). iApply ("HQ" with "[] Hv"). iPureIntro.
      split_and!; [by constructor|destruct Hm; congruence|done|]. split; [done|].
      intros ->. apply sublist_length in Hs. simpl in Hs. lia.
    + iIntros "Hv". iApply (IH with "Hv").
      * unfold next_cap in *. zb; lia.
      * rewrite length_app /=. unfold next_cap. zb; lia.
      * done.
      * rewrite length_app /=. lia.
      * iIntros (zs k o) "%H Hv". destruct H as (Hs & Hz & Ho & He). rewrite -app_assoc.
        iApply ("HQ" with "[] Hv"). iPureIntro. simpl. split_and!; [by constructor|by intros Hm; f_equal; apply Hz|done|].
        rewrite He. split; [by intros ->|]. by injection 1.
Qed.
End clients.

(** The growing array.  Started with any capacity of at least 1, pushing any number
    of elements that can be counted with a doubled capacity in [int] stays inside the
    block.  Unless an allocation fails, the vector holds all the elements; if one does,
    [vec_push] loses that element, keeps the others and their order, and says so on the
    standard error.  All is freed.  But from capacity 0 the capacity never grows: the
    first push asks [realloc] for 0 bytes, which is undefined. *)
Theorem intvec_correct :
  (∀ n xs, 1 ≤ n ≤ INT_MAX → 2 * Z.of_nat (length xs) ≤ INT_MAX →
     runs (vec_client n xs) (λ r o, stdout o = ""%string ∧
       (r = None ∨ ∃ ys, r = Some ys ∧ ys `sublist_of` xs ∧ (stderr o = ""%string ↔ ys = xs))) False ∧
     ∀ orc, lucky orc → ∃ o w, vec_client n xs (empty_world orc) = Ret (Some xs) o w ∧ heap w = ∅) ∧
  (∃ orc, lucky orc ∧ ∀ x, vec_client 0 [x] (empty_world orc) = UB).
Proof.
  split.
  - intros n xs Hn Hxs.
    destruct (wp_runs_lucky (vec_client n xs) (λ r o, stdout o = ""%string ∧
       (r = None ∨ ∃ ys, r = Some ys ∧ ys `sublist_of` xs ∧ (stderr o = ""%string ↔ ys = xs)))
      (λ r _, r = Some xs)) as [H1 H2].
    + intros mf X _. iStartProof. unfold vec_client. wp_step. iApply wp_vec_create; [lia|]. iSplit.
      * iIntros "%Hm". wp_step. iPureIntro. split; [auto|congruence].
      * iIntros (v) "Hv". wp_step. iApply (wp_vec_push_list _ _ v xs [] n n with "Hv"); [lia|cbn [length]; lia|lia|done|].
        iIntros (zs k o) "%H Hv". destruct H as (Hs & Hz & Ho & He). simpl.
        iDestruct "Hv" as (l rest Hlen) "[Hv Hl]". do 2 wp_step. cbn [data size].
        wp_step. iApply (wp_read_ints with "Hl"). iIntros "Hl".
        wp_step. iApply (wp_vec_free with "[Hv Hl]"); [iExists l, rest; iSplitR; [done|by iSplitL "Hv"]|].
        wp_step. iPureIntro. rewrite !app_nil_r. split; [|by intros Hm; rewrite (Hz Hm)].
        split; [done|]. right. by exists zs.
    + split; [done|]. intros orc L. destruct (H2 orc L) as (r & o & w & E & Hh & _ & ->). by exists o, w.
  - exists some_allocator. split; [apply some_allocator_lucky|]. intros x. by vm_compute.
Qed.

Section main.
Context (mf : bool) (X : Z → Prop).

(** What a part of [main] does: it goes on, having reported nothing unless an allocation
    failed, or it reports a failed allocation and returns 1; it leaves nothing in the
    heap. *)
Definition part_ok (m : M obj (option Z)) : Prop :=
  ⊢ wp mf X m (λ r o,
      ⌈r = None ∧ (mf = false → stderr o = ""%string) ∨ mf = true ∧ r = Some 1 ∧ stderr o ≠ ""%string⌉).

Ltac unroll :=
  unfold for_range;
  lazymatch goal with |- context [for_n (Z.to_nat ?z) _ _ _] =>
    let k := eval vm_compute in (Z.to_nat z) in change (Z.to_nat z) with k end;
  cbn [for_n].
Ltac arr_step :=
  first [ progress (wp_step; cbn [app])
        | iApply (wp_ints_set with "Hp"); [first [simpl; lia|vm_compute; split; [discriminate|reflexivity]]|]; iIntros "Hp"; simpl list_insert
        | iApply (wp_ints_get with "Hp"); [simpl; lia|vm_compute; reflexivity|]; iIntros "Hp"; simpl
        | unroll ].
Ltac failed := unfold fail; wp_run; iPureIntro; right; split_and!; [auto|done|done].
Ltac passed := iPureIntro; left; split; [done|done].

Lemma main_malloc_ok : part_ok main_malloc.
Proof.
  unfold part_ok. iStartProof. unfold main_malloc, malloc_ints. do 3 wp_step. iApply wp_malloc.
  iIntros ([p|]) "%Hm Hp"; [|failed]. wp_step. simpl replicate. repeat arr_step. passed.
Qed.

Lemma main_calloc_ok : part_ok main_calloc.
Proof.
  unfold part_ok. iStartProof. unfold main_calloc, calloc_ints, print_ints. do 3 wp_step. iApply wp_malloc.
  iIntros ([p|]) "%Hm Hp"; [|failed]. wp_step. simpl replicate. repeat arr_step. passed.
Qed.

Lemma main_realloc_ok : part_ok main_realloc.
Proof.
  unfold part_ok. iStartProof. unfold main_realloc, malloc_ints, print_ints. do 3 wp_step. iApply wp_malloc.
  iIntros ([p|]) "%Hm Hp"; [|failed]. wp_step. simpl replicate. repeat arr_step.
  iApply (wp_realloc_ints with "Hp"); [simpl; lia|lia|]. iSplit.
  - iIntros "%Hm' Hp". wp_run. iPureIntro. right. split_and!; [auto|done|done].
  - iIntros (q) "Hp". wp_step. simpl. repeat arr_step. passed.
Qed.

Lemma main_struct_ok : part_ok main_struct.
Proof.
  unfold part_ok. iStartProof. unfold main_struct, set_player, get_player. do 3 wp_step. iApply wp_malloc.
  iIntros ([p|]) "%Hm Hp"; [|failed]. wp_run. simpl list_insert.
  repeat (simpl; wp_step). passed.
Qed.

Lemma main_team_ok : part_ok main_team.
Proof.
  unfold part_ok. iStartProof. unfold main_team, names, set_player, get_player. cbn [for_list]. do 3 wp_step. iApply wp_malloc.
  iIntros ([p|]) "%Hm Hp"; [|failed]. simpl replicate.
  repeat (first [progress (wp_step; cbn [app])|progress simpl|unroll]). passed.
Qed.

Lemma main_dup_ok : part_ok main_dup.
Proof.
  unfold part_ok. iStartProof. unfold main_dup, dup_string. do 4 wp_step. iApply wp_malloc.
  iIntros ([p|]) "%Hm Hp"; wp_run; [passed|unfold NULL; failed].
Qed.

Lemma main_vec_ok : part_ok main_vec.
Proof.
  unfold part_ok. iStartProof. unfold main_vec. do 3 wp_step. iApply wp_vec_create; [lia|]. iSplit.
  { iIntros "%Hm". failed. }
  iIntros (v) "Hv". wp_step.
  iApply (wp_for_range _ _ (λ (i : Z) (_ : unit) (o : list ev), ∃ (xs : list Z) (cap : Z),
    ⌈Z.of_nat (length xs) ≤ i - 1 ∧ 1 ≤ cap ≤ (2 + 2 * i)%Z ∧ (mf = false → stderr o = ""%string)⌉ ∗
    vec v xs cap)%I with "[Hv]").
  - lia.
  - intros i [] o Hi. iIntros "(%xs & %cap & %H & Hv)". destruct H as (Hx & Hc & Ho). unfold push_and_show.
    iAssert (∀ xs cap o', ⌈Z.of_nat (length xs) ≤ i ∧ 1 ≤ cap ≤ (2 + 2 * (i + 1))%Z ∧ (mf = false → stderr o' = ""%string)⌉ -∗
      vec v xs cap -∗ wp mf X (t <- load (Some v) ;;
        printf "pushed %2d  size=%d  cap=%d\n" [AInt (i * 5); AInt (size t); AInt (capacity t)])
        (λ (_ : unit) (e : list ev), ∃ (xs : list Z) (cap : Z),
          ⌈Z.of_nat (length xs) ≤ (i + 1 - 1)%Z ∧ 1 ≤ cap ≤ (2 + 2 * (i + 1))%Z ∧ (mf = false → stderr (o ++ o' ++ e) = ""%string)⌉ ∗
          vec v xs cap))%I as "Hshow".
    { iIntros (xs' cap' o') "%H Hv". destruct H as (Hx' & Hc' & Ho'). iDestruct "Hv" as (l rest Hlen) "[Hv Hl]". wp_run.
      iExists xs', cap'. iSplitR; [|iExists l, rest; iSplitR; [done|by iSplitL "Hv"]]. iPureIntro. split_and!; [lia|lia|lia|].
      intros Hm. rewrite !stderr_app (Ho Hm) (Ho' Hm). reflexivity. }
    wp_step. iApply (wp_vec_push with "Hv"); [unfold INT_MAX; lia|unfold next_cap, INT_MAX; zb; lia|]. iSplit.
    + iIntros "%Hm Hv". iApply ("Hshow" with "[] Hv"). iPureIntro. split_and!; [lia|lia|lia|]. destruct Hm. congruence.
    + iIntros "Hv". iApply ("Hshow" with "[] Hv"). iPureIntro. rewrite length_app. cbn [length].
      unfold next_cap. split_and!; [lia|zb; lia|zb; lia|done].
  - iExists [], 2. iSplitR; [|done]. iPureIntro. split_and!; simpl; [lia|lia|lia|done].
  - iIntros ([] o) "(%xs & %cap & %H & Hv)". destruct H as (Hx & Hc & Ho).
    iDestruct "Hv" as (l rest Hlen) "[Hv Hl]". do 5 wp_step. cbn [data size].
    iApply (wp_print_ints with "Hl"). iIntros (o') "%H Hl". destruct H as [_ He'].
    wp_step. iApply (wp_vec_free with "[Hv Hl]"); [iExists l, rest; iSplitR; [done|by iSplitL "Hv"]|].
    wp_step. iPureIntro. left. split; [done|]. intros Hm. cbn [app stderr]. rewrite !stderr_app (Ho Hm).
    cbn [stderr]. rewrite !stderr_app He'. reflexivity.
Qed.

Lemma part_seq m k : part_ok m → part_ok k → part_ok (unless_returned m k).
Proof.
  intros Hm Hk. unfold part_ok in *. iStartProof. unfold unless_returned. wp_step.
  iApply (wp_wand with "[]"); [iApply Hm|]. iIntros (r o) "%H". destruct H as [[-> Ho]|(Hmf & -> & Ho)].
  - iApply (wp_wand with "[]"); [iApply Hk|]. iIntros (r' o') "%H". iPureIntro.
    rewrite stderr_app. destruct H as [[-> Ho']|(Hmf & -> & Ho')].
    + left. split; [done|]. intros Hmf. by rewrite (Ho Hmf) (Ho' Hmf).
    + right. split_and!; [done|done|]. destruct (stderr o); [done|discriminate].
  - wp_step. iPureIntro. right. by rewrite app_nil_r.
Qed.
End main.

(** C12.  The whole program.  Whichever allocations fail, [main] frees every block it
    allocated before it returns, on every path; it returns 1 only having reported the
    failure, and 0 without a message when none fails. *)
Theorem memory_main_never_leaks :
  runs main (λ r o, r = 0 ∨ r = 1 ∧ stderr o ≠ ""%string) False ∧
  ∀ orc, lucky orc → ∃ o w, main (empty_world orc) = Ret 0 o w ∧ heap w = ∅ ∧ stderr o = ""%string.
Proof.
  destruct (wp_runs_lucky main (λ r o, r = 0 ∨ r = 1 ∧ stderr o ≠ ""%string)
    (λ r o, r = 0 ∧ stderr o = ""%string)) as [H1 H2].
  - intros mf X _. iStartProof. unfold main. wp_step.
    iApply (wp_wand with "[]").
    { iApply part_seq; [apply main_malloc_ok|]. apply part_seq; [apply main_calloc_ok|].
      apply part_seq; [apply main_realloc_ok|]. apply part_seq; [apply main_struct_ok|].
      apply part_seq; [apply main_team_ok|]. apply part_seq; [apply main_dup_ok|apply main_vec_ok]. }
    iIntros (r o) "%H". destruct H as [[-> Ho]|(Hmf & -> & Ho)]; wp_step; iPureIntro; rewrite app_nil_r;
      (split; [auto|]); [by auto|congruence].
  - split; [done|]. intros orc L. destruct (H2 orc L) as (r & o & w & E & Hh & _ & -> & Ho). by exists o, w.
Qed.

Definition main_text : string := esc (concat_str [
  "=== malloc ===\n"; "arr[0] = 10\n"; "arr[1] = 20\n"; "arr[2] = 30\n"; "arr[3] = 40\n"; "arr[4] = 50\n";
  "\n=== calloc ===\n"; "fresh calloc (should all be 0): 0 0 0 0 0 \n";
  "\n=== realloc ===\n"; "before realloc (cap=4): 0 1 2 3 \n"; "after  realloc (cap=8): 0 1 2 3 4 5 6 7 \n";
  "\n=== Heap-allocated struct ===\n"; "player: Alice  score: 9500\n";
  "\n=== Heap-allocated array of structs ===\n"; "  Bob: 1000\n"; "  Carol: 2000\n"; "  Dave: 3000\n";
  "\n=== Heap string (strdup pattern) ===\n"; "copy = \qHello, heap!\q\n";
  "\n=== Dynamic array (IntVec) ===\n"; "pushed  5  size=1  cap=2\n"; "pushed 10  size=2  cap=2\n";
  "pushed 15  size=3  cap=4\n"; "pushed 20  size=4  cap=4\n"; "pushed 25  size=5  cap=8\n"; "pushed 30  size=6  cap=8\n";
  "pushed 35  size=7  cap=8\n"; "pushed 40  size=8  cap=8\n"; "contents: 5 10 15 20 25 30 35 40 \n"])%string.

Lemma memory_main_run :
  match main (empty_world some_allocator) with
  | Ret r o w => r = 0 ∧ stdout o = main_text ∧ heap w = ∅
  | _ => False
  end.
Proof. vm_compute. repeat split. Qed.
