(* ===== verification/Interleave.v ===== *)
(** * Programs with several threads

    Runs of a step relation with their traces, and the shape most sections of the thread
    exercises have: a main thread that prints a heading, creates the threads one after
    the other, joins them in the order of their creation and reports.  A step of a thread
    is the code up to its next access to shared state; its label is what it prints.
    [pthread_create] is assumed to succeed, as the code does. *)

From S2P Require Import Prelude Machine CString Double Printf SepLogic Pure.
#[local] Open Scope Z_scope.

(** ** Runs *)

Section run.
Context {S A : Type} (step : S → A → S → Prop).

(** A run from [s0], with its trace. *)
Inductive run (s0 : S) : list A → S → Prop :=
  | run_start : run s0 [] s0
  | run_step tr s a s' : run s0 tr s → step s a s' → run s0 (tr ++ [a]) s'.

Lemma run_app s0 tr s tr' s' : run s0 tr s → run s tr' s' → run s0 (tr ++ tr') s'.
Proof. intros H. induction 1; [by rewrite app_nil_r|rewrite app_assoc; by eapply run_step]. Qed.

Lemma run_one s a s' : step s a s' → run s [a] s'.
Proof. intros H. apply (run_step _ [] s); [apply run_start|done]. Qed.

Lemma run_cons s0 a s1 tr s : step s0 a s1 → run s1 tr s → run s0 (a :: tr) s.
Proof. intros H. apply (run_app _ [a]). by apply run_one. Qed.

(** *** Ends of runs

    A weight that the steps marked [ok] decrease bounds the runs; with progress it
    carries every run to an end. *)
Context (s0 : S) (ok : A → Prop) (ended : S → Prop) (weight : S → Z).
Hypothesis weight_nonneg : ∀ tr s, run s0 tr s → 0 ≤ weight s.
Hypothesis weight_decreases : ∀ tr s a s', run s0 tr s → step s a s' → ok a → weight s' + 1 ≤ weight s.

Lemma run_length tr s : run s0 tr s → Forall ok tr → weight s + length tr ≤ weight s0.
Proof.
  induction 1 as [|tr s a s' Hr IH Hs]; [simpl; lia|]. intros [Htr Ha]%Forall_app.
  apply (Forall_singleton ok) in Ha. rewrite length_app. simpl. specialize (IH Htr).
  pose proof (weight_decreases _ _ _ _ Hr Hs Ha). lia.
Qed.

Hypothesis progress : ∀ tr s, run s0 tr s → ended s ∨ ∃ a s', step s a s' ∧ ok a.

Lemma run_ends tr s : run s0 tr s → ∃ tr' s', run s tr' s' ∧ Forall ok tr' ∧ ended s'.
Proof.
  remember (Z.to_nat (weight s)) as w eqn:Hw. revert tr s Hw.
  induction (lt_wf w) as [w _ IH]. intros tr s -> Hr.
  destruct (progress _ _ Hr) as [Hd|(a & s1 & Hs & Ha)].
  { exists [], s. split_and!; [apply run_start|done|done]. }
  pose proof (weight_decreases _ _ _ _ Hr Hs Ha) as Hlt.
  pose proof (run_step _ _ _ _ _ Hr Hs) as Hr1. pose proof (weight_nonneg _ _ Hr1) as H0.
  destruct (IH (Z.to_nat (weight s1)) ltac:(lia) _ _ eq_refl Hr1) as (tr' & s' & Hr' & Hok & Hd).
  exists (a :: tr'), s'. split_and!; [by eapply run_cons|by constructor|done].
Qed.
End run.

(** ** Sums over the threads *)

Definition zsum (l : list Z) : Z := foldr Z.add 0 l.

Lemma zsum_app l k : zsum (l ++ k) = zsum l + zsum k.
Proof. induction l as [|x l IH]; simpl; lia. Qed.

Lemma zsum_cons x l : zsum (x :: l) = x + zsum l.
Proof. done. Qed.

Section sums.
Context {P : Type}.
Implicit Types (f g : P → Z) (l : list P).

Lemma zsum_insert f l j c c' :
  l !! j = Some c → zsum (f <$> <[j:=c']> l) = zsum (f <$> l) - f c + f c'.
Proof.
  revert j. induction l as [|x l IH]; intros [|j] Hj; [done|done| |]; cbn in Hj.
  - injection Hj as ->. cbn. lia.
  - change (f x + zsum (f <$> <[j:=c']> l) = f x + zsum (f <$> l) - f c + f c'). rewrite (IH j Hj). lia.
Qed.

Lemma zsum_replicate f n c : zsum (f <$> replicate n c) = n * f c.
Proof. induction n as [|n IH]; [done|]. change (f c + zsum (f <$> replicate n c) = S n * f c). lia. Qed.

(** The terms are not negative: each is at most the sum. *)
Lemma zsum_bounds f l j c :
  Forall (λ c, 0 ≤ f c) l → l !! j = Some c → 0 ≤ f c ≤ zsum (f <$> l).
Proof.
  intros Hl. revert j. induction Hl as [|x l Hx Hl IH]; intros [|j] Hj; [done|done| |]; cbn in Hj.
  - injection Hj as ->. assert (0 ≤ zsum (f <$> l)) as H.
    { clear -Hl. induction Hl; [done|]. change (0 ≤ f x + zsum (f <$> l)). lia. }
    change (0 ≤ f c ≤ f c + zsum (f <$> l)). lia.
  - destruct (IH j Hj). change (0 ≤ f c ≤ f x + zsum (f <$> l)). lia.
Qed.

Lemma zsum_nonneg f l : Forall (λ c, 0 ≤ f c) l → 0 ≤ zsum (f <$> l).
Proof. induction 1; [done|]. change (0 ≤ f x + zsum (f <$> l)). lia. Qed.

Lemma zsum_const f l k : Forall (λ c, f c = k) l → zsum (f <$> l) = k * length l.
Proof.
  induction 1 as [|x l Hx Hl IH]; [simpl; lia|]. change (f x + zsum (f <$> l) = k * S (length l)). lia.
Qed.

(** All threads pass a test, or one does not. *)
Lemma all_or_one (f : P → bool) l :
  (∀ j p, l !! j = Some p → f p = true) ∨ ∃ j p, l !! j = Some p ∧ f p = false.
Proof.
  induction l as [|x l [IH|(j & p & Hj & Hp)]]; [left; by intros j p ?| |right; by exists (S j), p].
  destruct (f x) eqn:E; [left|right; by exists 0%nat, x].
  intros [|j] p Hj; [cbn in Hj; congruence|by eapply IH].
Qed.

(** A test on the thread [t], if it has been created. *)
Definition at_thread (f : P → bool) l (t : nat) : bool := match l !! t with Some p => f p | None => false end.

Lemma at_thread_insert (f : P → bool) l j p p' t : l !! j = Some p →
  at_thread f (<[j:=p']> l) t = if decide (t = j) then f p' else at_thread f l t.
Proof.
  intros Hj. unfold at_thread. destruct (decide (t = j)) as [->|].
  - rewrite list_lookup_insert_eq //. by eapply lookup_lt_Some.
  - by rewrite list_lookup_insert_ne.
Qed.

Lemma at_thread_snoc (f : P → bool) l p t : f p = false → at_thread f (l ++ [p]) t = at_thread f l t.
Proof.
  intros Hp. unfold at_thread. destruct (decide (t < length l)%nat); [by rewrite lookup_app_l|].
  rewrite lookup_app_r; [|lia]. rewrite (lookup_ge_None_2 l); [|lia].
  destruct (t - length l)%nat as [|[]]; simpl; by rewrite ?Hp.
Qed.

(** Sums whose terms depend on the thread's number. *)
Lemma zsum_imap_insert (f : nat → P → Z) l j c c' :
  l !! j = Some c → zsum (imap f (<[j:=c']> l)) = zsum (imap f l) - f j c + f j c'.
Proof.
  revert f j. induction l as [|x l IH]; intros f [|j] Hj; [done|done| |].
  - injection Hj as ->. simpl. lia.
  - simpl. rewrite (IH (f ∘ S) j Hj). unfold compose. lia.
Qed.

Lemma zsum_imap_le (f g : nat → P → Z) k l :
  (∀ j c, f j c ≤ g j c + k) → zsum (imap f l) ≤ zsum (imap g l) + k * length l.
Proof.
  revert f g. induction l as [|x l IH]; intros f g H; cbn [imap zsum foldr length]; [lia|].
  pose proof (H 0%nat x). specialize (IH (f ∘ S) (g ∘ S) (λ j, H (S j))). unfold zsum in *. lia.
Qed.

Lemma zsum_imap_nonneg (f : nat → P → Z) l : (∀ j c, 0 ≤ f j c) → 0 ≤ zsum (imap f l).
Proof.
  revert f. induction l as [|x l IH]; intros f H; cbn [imap zsum foldr]; [done|].
  pose proof (H 0%nat x). specialize (IH (f ∘ S) (λ j, H (S j))). unfold zsum in *. lia.
Qed.
End sums.

(** ** Creating and joining threads *)

Inductive main_pc := Starting | Creating (i : nat) | Joining (i : nat) | Returned.

Record pool (G P : Type) := { glob : G; pcs : list P; main_ : main_pc }.
Arguments glob {G P}. Arguments pcs {G P}. Arguments main_ {G P}.

(** What a run has printed. *)
Definition output (tr : list (list ev)) : list ev := concat tr.

Section fork_join.
Context {G P : Type} (thread : nat → G → P → list ev → G → P → Prop).
Context (n : nat) (start : nat → P) (returned : P → bool) (header : list ev) (report : G → list ev).

Inductive fj_step : pool G P → list ev → pool G P → Prop :=
  | main_starts g ps :
      fj_step {| glob := g; pcs := ps; main_ := Starting |} header {| glob := g; pcs := ps; main_ := Creating 0 |}
  | main_creates g ps i : (i < n)%nat →
      fj_step {| glob := g; pcs := ps; main_ := Creating i |} []
              {| glob := g; pcs := ps ++ [start i]; main_ := Creating (S i) |}
  | main_all_created g ps i : ¬ (i < n)%nat →
      fj_step {| glob := g; pcs := ps; main_ := Creating i |} [] {| glob := g; pcs := ps; main_ := Joining 0 |}
  | main_joins g ps i p : (i < n)%nat → ps !! i = Some p → returned p = true →
      fj_step {| glob := g; pcs := ps; main_ := Joining i |} [] {| glob := g; pcs := ps; main_ := Joining (S i) |}
  | main_returns g ps i : ¬ (i < n)%nat →
      fj_step {| glob := g; pcs := ps; main_ := Joining i |} (report g) {| glob := g; pcs := ps; main_ := Returned |}
  | thread_steps g ps m j p a g' p' : ps !! j = Some p → thread j g p a g' p' →
      fj_step {| glob := g; pcs := ps; main_ := m |} a {| glob := g'; pcs := <[j:=p']> ps; main_ := m |}.

Definition fj_init (g : G) : pool G P := {| glob := g; pcs := []; main_ := Starting |}.
Definition fj_ended (s : pool G P) : Prop := main_ s = Returned.

(** *** The invariant of the threads lifts to the program *)

Context (g0 : G) (J : list ev → G → list P → Prop).
Hypothesis J_init : J [] g0 [].
Hypothesis J_create : ∀ o g ps, J o g ps → (length ps < n)%nat → J o g (ps ++ [start (length ps)]).
Hypothesis J_thread : ∀ o g ps j p a g' p',
  J o g ps → ps !! j = Some p → thread j g p a g' p' → J (o ++ a) g' (<[j:=p']> ps).
Hypothesis returned_stays : ∀ j g p a g' p', thread j g p a g' p' → returned p = false.

(** What the main thread has done. *)
Definition main_shape (m : main_pc) (ps : list P) : Prop :=
  match m with
  | Starting => ps = []
  | Creating i => length ps = i ∧ (i ≤ n)%nat
  | Joining i => length ps = n ∧ (i ≤ n)%nat ∧ ∀ j p, (j < i)%nat → ps !! j = Some p → returned p = true
  | Returned => length ps = n ∧ ∀ p, p ∈ ps → returned p = true
  end.

Definition main_output (m : main_pc) (g : G) (o : list ev) : list ev :=
  match m with Starting => [] | Creating _ | Joining _ => header ++ o | Returned => header ++ o ++ report g end.

Lemma fj_invariant tr s :
  run fj_step (fj_init g0) tr s →
  main_shape (main_ s) (pcs s) ∧
  ∃ o, J o (glob s) (pcs s) ∧ output tr = main_output (main_ s) (glob s) o ∧ (main_ s = Starting → o = []).
Proof.
  induction 1 as [|tr s a s' Hr (Hsh & o & HJ & Ho & Hs0) Hs]; [simpl; eauto|].
  unfold output in *. rewrite concat_app. simpl. rewrite app_nil_r.
  destruct Hs as [g ps|g ps i Hi|g ps i Hi|g ps i p Hi Hp Hret|g ps i Hi|g ps m j p a g' p' Hp Ht]; simpl in *.
  - subst ps. rewrite Hs0 // in HJ. split; [split; [done|lia]|]. exists []. rewrite Ho app_nil_r. done.
  - destruct Hsh as [Hl Hle]. split; [rewrite length_app /=; lia|]. exists o. rewrite app_nil_r -Hl.
    split_and!; [apply J_create; [done|lia]|done|done].
  - split; [split_and!; [lia..|intros; lia]|]. exists o. by rewrite app_nil_r.
  - destruct Hsh as (Hl & Hle & Hall). split; [|exists o; by rewrite app_nil_r].
    split_and!; [done|lia|]. intros j q Hj Hq. destruct (decide (j = i)) as [->|]; [congruence|].
    eapply Hall; [|done]. lia.
  - destruct Hsh as (Hl & Hle & Hall). split; [|exists o; rewrite Ho app_assoc; done].
    split; [done|]. intros q [j Hq]%list_elem_of_lookup. apply (Hall j); [|done]. apply lookup_lt_Some in Hq. lia.
  - pose proof (returned_stays _ _ _ _ _ _ Ht) as Hp0. split.
    + destruct m as [|i|i|]; simpl in *; rewrite ?length_insert; [by subst|done| |].
      * destruct Hsh as (Hl & Hle & Hall). split_and!; [done|done|]. intros k q Hk Hq.
        destruct (decide (k = j)) as [->|Hne]; [specialize (Hall j p Hk Hp); congruence|].
        rewrite list_lookup_insert_ne in Hq; [by eapply Hall|done].
      * destruct Hsh as [Hl Hall]. rewrite (Hall p) in Hp0; [done|by eapply list_elem_of_lookup_2].
    + exists (o ++ a). split_and!; [by eapply J_thread| |].
      * rewrite Ho. destruct m; simpl in *; rewrite ?app_assoc; [by subst ps|done|done|].
        destruct Hsh as [Hl Hall]. rewrite (Hall p) in Hp0; [done|by eapply list_elem_of_lookup_2].
      * intros ->. simpl in Hsh. by subst ps.
Qed.

Lemma fj_final tr s :
  run fj_step (fj_init g0) tr s → fj_ended s →
  ∃ o, J o (glob s) (pcs s) ∧ output tr = header ++ o ++ report (glob s) ∧
       length (pcs s) = n ∧ Forall (λ p, returned p = true) (pcs s).
Proof.
  intros Hr He. destruct (fj_invariant _ _ Hr) as (Hsh & o & HJ & Ho & _). rewrite He in Hsh, Ho.
  destruct Hsh as [Hl Hall]. exists o. split_and!; [done..|]. by apply Forall_forall.
Qed.

(** *** Every run ends *)

Context (tw : P → Z) (B : Z).
Hypothesis tw_nonneg : ∀ p, 0 ≤ tw p.
Hypothesis tw_start : ∀ i, tw (start i) ≤ B.
Hypothesis tw_step : ∀ o g ps j p a g' p', J o g ps → ps !! j = Some p → thread j g p a g' p' → tw p' + 1 ≤ tw p.

Definition main_weight (m : main_pc) : Z :=
  match m with
  | Starting => n * (B + 2) + 3
  | Creating i => (n - i) * (B + 1) + n + 2
  | Joining i => n - i + 1
  | Returned => 0
  end.

Definition fj_weight (s : pool G P) : Z := main_weight (main_ s) + zsum (tw <$> pcs s).

Lemma fj_weight_nonneg tr s : run fj_step (fj_init g0) tr s → 0 ≤ fj_weight s.
Proof.
  intros Hr. destruct (fj_invariant _ _ Hr) as (Hsh & _). unfold fj_weight.
  assert (0 ≤ zsum (tw <$> pcs s)) by (apply zsum_nonneg, Forall_forall; auto).
  assert (0 ≤ B) by (etrans; [apply (tw_nonneg (start 0))|apply tw_start]).
  destruct (main_ s); simpl in *; nia.
Qed.

Lemma fj_weight_decreases tr s a s' :
  run fj_step (fj_init g0) tr s → fj_step s a s' → True → fj_weight s' + 1 ≤ fj_weight s.
Proof.
  intros Hr Hs _. destruct (fj_invariant _ _ Hr) as (Hsh & o & HJ & _). unfold fj_weight.
  destruct Hs as [g ps|g ps i Hi|g ps i Hi|g ps i p Hi Hp Hret|g ps i Hi|g ps m j p a g' p' Hp Ht]; simpl in *; try lia.
  - rewrite fmap_app zsum_app. simpl. pose proof (tw_start i). lia.
  - assert (n - i = 0) as -> by lia. lia.
  - rewrite (zsum_insert tw _ _ _ _ Hp). pose proof (tw_step _ _ _ _ _ _ _ _ HJ Hp Ht). lia.
Qed.

Lemma fj_run_length tr s : run fj_step (fj_init g0) tr s → length tr ≤ n * (B + 2) + 3.
Proof.
  intros Hr.
  pose proof (run_length _ _ (λ _, True) fj_weight fj_weight_decreases _ _ Hr ltac:(by apply Forall_true)) as H.
  pose proof (fj_weight_nonneg _ _ Hr). change (fj_weight (fj_init g0)) with (n * (B + 2) + 3 + 0) in H. lia.
Qed.

(** Some thread can go on, unless all have returned. *)
Hypothesis thread_progress : ∀ o g ps,
  J o g ps → (∀ j p, ps !! j = Some p → returned p = true) ∨
             ∃ j p a g' p', ps !! j = Some p ∧ thread j g p a g' p'.

Lemma fj_progress tr s : run fj_step (fj_init g0) tr s → fj_ended s ∨ ∃ a s', fj_step s a s' ∧ True.
Proof.
  intros Hr. destruct (fj_invariant _ _ Hr) as (Hsh & o & HJ & _). destruct s as [g ps m]. simpl in *.
  destruct m as [|i|i|]; [right|right| |by left].
  - do 2 eexists. split; [apply main_starts|done].
  - destruct (decide (i < n)%nat); do 2 eexists; (split; [by constructor|done]).
  - right. destruct (thread_progress _ _ _ HJ) as [Hall|(j & p & a & g' & p' & Hp & Ht)].
    + destruct (decide (i < n)%nat) as [Hi|]; [|do 2 eexists; split; [by constructor|done]].
      destruct Hsh as [Hl _]. destruct (lookup_lt_is_Some_2 ps i) as [p Hp]; [lia|].
      do 2 eexists. split; [eapply main_joins; eauto|done].
    + do 2 eexists. split; [by eapply thread_steps|done].
Qed.

Lemma fj_ends tr s :
  run fj_step (fj_init g0) tr s → ∃ tr' s', run fj_step s tr' s' ∧ fj_ended s'.
Proof.
  intros Hr.
  destruct (run_ends _ _ _ _ _ fj_weight_nonneg fj_weight_decreases fj_progress _ _ Hr) as (tr' & s' & ? & _ & ?).
  eauto.
Qed.
End fork_join.
