(* ===== verification/Races.v ===== *)
(** * Data races

    What C11 calls a data race (5.1.2.4), for programs of the shape of Interleave: two
    accesses to an object that is not atomic, by different threads, at least one of them a
    write, of which neither happens before the other.  An execution with a data race is
    undefined.  Happens-before is the order of each thread's steps, with what the creation
    and the joining of threads and a lock add to it.

    The steps of a system are traced: each says which thread makes it and whether it is an
    access, an operation on the lock, or neither. *)

From S2P Require Import Prelude Machine CString Double Printf SepLogic Pure Interleave.
#[local] Open Scope Z_scope.

(** What a step of a thread does to the shared variable and its lock.  [Retries] is a turn
    of a loop that waits; [Other] includes the operations on atomic objects. *)
Inductive memory_event := Reads | Writes | Acquires | Releases | Retries | Other.
Inductive event := Creates (t : nat) | Joins (t : nat) | Main | Thread (t : nat) (m : memory_event).

#[export] Instance memory_event_eq_dec : EqDecision memory_event.
Proof. solve_decision. Defined.

(** Who makes the step: the main thread is [None]. *)
Definition actor (e : event) : option nat := match e with Thread t _ => Some t | _ => None end.
Definition accesses (m : memory_event) : bool := match m with Reads | Writes => true | _ => false end.

(** ** Happens before, between the positions of a trace *)

Inductive happens_before (tr : list event) : nat → nat → Prop :=
  | hb_thread i j e e' : (i < j)%nat → tr !! i = Some e → tr !! j = Some e' → actor e = actor e' → happens_before tr i j
  | hb_create i j t m : (i < j)%nat → tr !! i = Some (Creates t) → tr !! j = Some (Thread t m) → happens_before tr i j
  | hb_join i j t m : (i < j)%nat → tr !! i = Some (Thread t m) → tr !! j = Some (Joins t) → happens_before tr i j
  | hb_lock i j t u : (i < j)%nat → tr !! i = Some (Thread t Releases) → tr !! j = Some (Thread u Acquires) → happens_before tr i j
  | hb_trans i j k : happens_before tr i j → happens_before tr j k → happens_before tr i k.

(** The accesses at [i] and [j] conflict. *)
Definition conflict (tr : list event) (i j : nat) : Prop :=
  ∃ t u m m', tr !! i = Some (Thread t m) ∧ tr !! j = Some (Thread u m') ∧ t ≠ u ∧
    accesses m = true ∧ accesses m' = true ∧ (m = Writes ∨ m' = Writes).

Definition data_race (tr : list event) : Prop :=
  ∃ i j, (i < j)%nat ∧ conflict tr i j ∧ ¬ happens_before tr i j.

Lemma happens_before_lt tr i j : happens_before tr i j → (i < j)%nat.
Proof. induction 1; lia. Qed.

Lemma happens_before_snoc tr e i j : happens_before tr i j → happens_before (tr ++ [e]) i j.
Proof.
  induction 1; [eapply hb_thread|eapply hb_create|eapply hb_join|eapply hb_lock|by eapply hb_trans];
    eauto using lookup_app_l_Some.
Qed.

(** ** Traced systems *)

Section traced.
Context {G P : Type} (thread : nat → G → P → list ev → G → P → Prop).
Context (n : nat) (start : nat → P) (returned : P → bool) (header : list ev) (report : G → list ev).
(** What a step from one program counter to another does. *)
Context (does : P → P → memory_event).
Notation step := (fj_step thread n start returned header report).

Inductive traced_step : pool G P → list ev * event → pool G P → Prop :=
  | traced_starts g ps :
      traced_step {| glob := g; pcs := ps; main_ := Starting |} (header, Main) {| glob := g; pcs := ps; main_ := Creating 0 |}
  | traced_creates g ps i : (i < n)%nat →
      traced_step {| glob := g; pcs := ps; main_ := Creating i |} ([], Creates i)
                  {| glob := g; pcs := ps ++ [start i]; main_ := Creating (S i) |}
  | traced_all_created g ps i : ¬ (i < n)%nat →
      traced_step {| glob := g; pcs := ps; main_ := Creating i |} ([], Main) {| glob := g; pcs := ps; main_ := Joining 0 |}
  | traced_joins g ps i p : (i < n)%nat → ps !! i = Some p → returned p = true →
      traced_step {| glob := g; pcs := ps; main_ := Joining i |} ([], Joins i) {| glob := g; pcs := ps; main_ := Joining (S i) |}
  | traced_returns g ps i : ¬ (i < n)%nat →
      traced_step {| glob := g; pcs := ps; main_ := Joining i |} (report g, Main) {| glob := g; pcs := ps; main_ := Returned |}
  | traced_thread g ps m j p a g' p' : ps !! j = Some p → thread j g p a g' p' →
      traced_step {| glob := g; pcs := ps; main_ := m |} (a, Thread j (does p p')) {| glob := g'; pcs := <[j:=p']> ps; main_ := m |}.

(** The runs are those of the system, with more said about the steps. *)
Lemma traced_untraced s l s' : traced_step s l s' → step s l.1 s'.
Proof. destruct 1; cbn [fst]; [apply main_starts|by apply main_creates|by apply main_all_created|by eapply main_joins|by apply main_returns|by eapply thread_steps]. Qed.

Lemma untraced_traced s a s' : step s a s' → ∃ e, traced_step s (a, e) s'.
Proof.
  destruct 1; eexists; [apply traced_starts|by apply traced_creates|by apply traced_all_created|by eapply traced_joins|by apply traced_returns|by eapply traced_thread].
Qed.

Lemma run_untraced s0 tr s : run traced_step s0 tr s → run step s0 tr.*1 s.
Proof. induction 1; [apply run_start|]. rewrite fmap_app. eapply run_step; [done|by apply traced_untraced]. Qed.

Lemma run_traced s0 os s : run step s0 os s → ∃ tr, run traced_step s0 tr s ∧ tr.*1 = os.
Proof.
  induction 1 as [|os s a s' Hr (tr & Ht & <-) Hs]; [exists []; by split; [apply run_start|]|].
  destruct (untraced_traced _ _ _ Hs) as [e He]. exists (tr ++ [(a, e)]). split; [by eapply run_step|by rewrite fmap_app].
Qed.

(** *** With a lock

    The accesses of the threads lie between their locking and unlocking, and at most one
    thread is there. *)
Context (inside : P → bool).
Hypothesis start_outside : ∀ i, inside (start i) = false.
Hypothesis does_inside : ∀ j g p a g' p', thread j g p a g' p' →
  match does p p' with
  | Reads | Writes => inside p = true ∧ inside p' = true
  | Acquires => inside p = false ∧ inside p' = true
  | Releases => inside p = true ∧ inside p' = false
  | Retries | Other => inside p' = inside p
  end.

Definition one_inside (ps : list P) : Prop := ∀ t u, at_thread inside ps t = true → at_thread inside ps u = true → t = u.

Record guarded (tr : list event) (ps : list P) : Prop := {
  (* an access of a thread that has left is followed by its unlocking *)
  gd_left i t m : tr !! i = Some (Thread t m) → accesses m = true →
    at_thread inside ps t = true ∨ ∃ r, (i < r)%nat ∧ tr !! r = Some (Thread t Releases);
  (* who is inside has locked after all that was unlocked *)
  gd_entered t : at_thread inside ps t = true →
    ∃ q, tr !! q = Some (Thread t Acquires) ∧ ∀ r u, tr !! r = Some (Thread u Releases) → (r < q)%nat;
  gd_ordered i j : (i < j)%nat → conflict tr i j → happens_before tr i j }.

Lemma guarded_other tr ps e : guarded tr ps →
  (∀ ps', (∀ t, at_thread inside ps' t = at_thread inside ps t) → (match e with Thread _ (Retries | Other) | Creates _ | Joins _ | Main => True | _ => False end) →
   guarded (tr ++ [e]) ps').
Proof.
  intros [Hl He Ho] ps' Hps Hev. split.
  - intros i t m [[_ Hi]|[_ Hi]]%lookup_snoc_Some Hm; [|by subst; destruct m].
    rewrite Hps. destruct (Hl _ _ _ Hi Hm) as [?|(r & ? & Hr)]; [by left|right]. exists r. split; [done|by apply lookup_app_l_Some].
  - intros t. rewrite Hps. intros (q & Hq & Hall)%He. exists q. split; [by apply lookup_app_l_Some|].
    intros r u [[_ Hr]|[_ Hr]]%lookup_snoc_Some; [by eapply Hall|by subst].
  - intros i j Hij (t & u & m & m' & Hi & Hj & Htu & Hm & Hm' & Hw).
    apply lookup_snoc_Some in Hj as [[Hlt Hj]|[_ Hj]]; [|by subst; destruct m'].
    apply lookup_snoc_Some in Hi as [[_ Hi]|[-> _]]; [|lia].
    apply happens_before_snoc, Ho; [done|]. by exists t, u, m, m'.
Qed.

(** The thread [j] takes a step. *)
Section thread_step.
Context (tr : list event) (ps : list P) (j : nat) (p p' : P).
Hypothesis I : guarded tr ps.
Hypothesis one : one_inside ps.
Hypothesis Hj : ps !! j = Some p.
Notation after := (<[j:=p']> ps).

Lemma at_self : at_thread inside ps j = inside p.
Proof. unfold at_thread. by rewrite Hj. Qed.
Lemma at_after t : at_thread inside after t = if decide (t = j) then inside p' else at_thread inside ps t.
Proof. by eapply at_thread_insert. Qed.

Lemma guarded_acquires : inside p = false → inside p' = true →
  (∀ t, at_thread inside ps t = false) → guarded (tr ++ [Thread j Acquires]) after.
Proof.
  intros Hp Hp' Hnone. destruct I as [Hl He Ho]. split.
  - intros i t m [[_ Hi]|[_ Hi]]%lookup_snoc_Some Hm; [|by injection Hi as -> <-].
    destruct (Hl _ _ _ Hi Hm) as [H|(r & ? & Hr)]; [by rewrite Hnone in H|right]. exists r. split; [done|by apply lookup_app_l_Some].
  - intros t. rewrite at_after. case_decide as Ht; [rewrite Ht|by rewrite Hnone]. intros _.
    exists (length tr). split; [by rewrite lookup_app_r // Nat.sub_diag|].
    intros r u [[Hr _]|[_ Hr]]%lookup_snoc_Some; [done|by injection Hr].
  - intros i k Hik (t & u & m & m' & Hi & Hk & Htu & Hm & Hm' & Hw).
    apply lookup_snoc_Some in Hk as [[Hlt Hk]|[_ Hk]]; [|injection Hk as -> <-; done].
    apply lookup_snoc_Some in Hi as [[_ Hi]|[-> _]]; [|lia].
    apply happens_before_snoc, Ho; [done|]. by exists t, u, m, m'.
Qed.

Lemma guarded_releases : inside p = true → inside p' = false → guarded (tr ++ [Thread j Releases]) after.
Proof.
  intros Hp Hp'. destruct I as [Hl He Ho]. split.
  - intros i t m [[Hlt Hi]|[_ Hi]]%lookup_snoc_Some Hm; [|by injection Hi as -> <-].
    rewrite at_after. destruct (decide (t = j)) as [->|].
    { right. exists (length tr). split; [done|by rewrite lookup_app_r // Nat.sub_diag]. }
    destruct (Hl _ _ _ Hi Hm) as [?|(r & ? & Hr)]; [by left|right]. exists r. split; [done|by apply lookup_app_l_Some].
  - intros t. rewrite at_after. case_decide as Ht; [by rewrite Hp'|]. intros H. destruct Ht. apply one; [done|by rewrite at_self].
  - intros i k Hik (t & u & m & m' & Hi & Hk & Htu & Hm & Hm' & Hw).
    apply lookup_snoc_Some in Hk as [[Hlt Hk]|[_ Hk]]; [|injection Hk as -> <-; done].
    apply lookup_snoc_Some in Hi as [[_ Hi]|[-> _]]; [|lia].
    apply happens_before_snoc, Ho; [done|]. by exists t, u, m, m'.
Qed.

Lemma guarded_accesses m : accesses m = true → inside p = true → inside p' = true → guarded (tr ++ [Thread j m]) after.
Proof.
  intros Hm Hp Hp'. destruct I as [Hl He Ho].
  assert (∀ t, at_thread inside after t = at_thread inside ps t) as Hsame.
  { intros t. rewrite at_after. case_decide as E; [by rewrite E at_self Hp Hp'|done]. }
  assert (∀ r u, (tr ++ [Thread j m]) !! r = Some (Thread u Releases) → tr !! r = Some (Thread u Releases)) as Hrel.
  { intros r u [[_ Hr]|[_ Hr]]%lookup_snoc_Some; [done|by injection Hr as _ ->]. }
  split.
  - intros i t m' [[_ Hi]|[_ Hi]]%lookup_snoc_Some Hm'; rewrite Hsame; [|injection Hi as <- <-; left; by rewrite at_self].
    destruct (Hl _ _ _ Hi Hm') as [?|(r & ? & Hr)]; [by left|right]. exists r. split; [done|by apply lookup_app_l_Some].
  - intros t. rewrite Hsame. intros (q & Hq & Hall)%He. exists q. split; [by apply lookup_app_l_Some|]. eauto.
  - intros i k Hik (t & u & m1 & m2 & Hi & Hk & Htu & Hm1 & Hm2 & Hw).
    apply lookup_snoc_Some in Hi as [[Hlti Hi]|[Ei _]].
    2: { apply lookup_lt_Some in Hk. rewrite length_app /= in Hk. lia. }
    apply lookup_snoc_Some in Hk as [[Hlt Hk]|[Ek Hk]].
    { apply happens_before_snoc, Ho; [done|]. by exists t, u, m1, m2. }
    injection Hk as <- <-.
    destruct (Hl _ _ _ Hi Hm1) as [H|(r & Hir & Hr)]; [destruct Htu; apply one; [done|by rewrite at_self]|].
    destruct (He j) as (q & Hq & Hall); [by rewrite at_self|].
    assert (q < length tr)%nat as Hql by by eapply lookup_lt_Some.
    pose proof (lookup_app_l_Some tr [Thread j m]) as Hsnoc.
    eapply hb_trans; [eapply (hb_thread _ i r); [done|by apply Hsnoc|by apply Hsnoc|done]|].
    eapply hb_trans; [eapply (hb_lock _ r q); [by eapply Hall|by apply Hsnoc|by apply Hsnoc]|].
    eapply (hb_thread _ q k); [lia|by apply Hsnoc|rewrite Ek lookup_app_r // Nat.sub_diag //|done].
Qed.
End thread_step.

Lemma guarded_thread tr ps j g p a g' p' : guarded tr ps → one_inside ps → one_inside (<[j:=p']> ps) →
  ps !! j = Some p → thread j g p a g' p' → guarded (tr ++ [Thread j (does p p')]) (<[j:=p']> ps).
Proof.
  intros I H1 H2 Hj Ht. pose proof (does_inside _ _ _ _ _ _ Ht) as Hd.
  assert (inside p' = inside p → ∀ t, at_thread inside (<[j:=p']> ps) t = at_thread inside ps t) as Hsame.
  { intros E t. rewrite (at_after ps j p p' Hj). case_decide; [subst|done]. by rewrite E (at_self ps j p Hj). }
  destruct (does p p') eqn:E.
  - destruct Hd. by eapply guarded_accesses.
  - destruct Hd. by eapply guarded_accesses.
  - destruct Hd as [Hp Hp']. eapply guarded_acquires; [done..|]. intros t.
    destruct (decide (t = j)) as [->|Hne]; [by rewrite (at_self ps j p Hj)|].
    destruct (at_thread inside ps t) eqn:Et; [|done]. exfalso. apply (Hne).
    apply H2; rewrite (at_after ps j p p' Hj); [by rewrite (decide_False (P:=(t = j)))|by rewrite (decide_True (P:=(j = j)))].
  - destruct Hd. by eapply guarded_releases.
  - eapply guarded_other; [done|by apply Hsame|done].
  - eapply guarded_other; [done|by apply Hsame|done].
Qed.

Lemma guarded_run g0 : (∀ os s, run step (fj_init g0) os s → one_inside (pcs s)) →
  ∀ tr s, run traced_step (fj_init g0) tr s → guarded tr.*2 (pcs s).
Proof.
  intros Hone. induction 1 as [|tr s l s' Hr IH Hs]; [split; [by intros i t m ?|by intros t ?|]|].
  { by intros i j _ (t & u & m & m' & ? & _). }
  pose proof (Hone _ _ (run_untraced _ _ _ Hr)) as H1.
  pose proof (Hone _ _ (run_untraced _ _ _ (run_step _ _ _ _ _ _ Hr Hs))) as H2.
  rewrite fmap_app. destruct Hs; cbn [fmap list_fmap snd pcs] in *; try (eapply guarded_other; [exact IH|done|done]).
  - eapply guarded_other; [exact IH| |done]. intros t. by apply at_thread_snoc.
  - by eapply guarded_thread.
Qed.

(** Then no run has a data race. *)
Lemma locked_race_free g0 : (∀ os s, run step (fj_init g0) os s → one_inside (pcs s)) →
  ∀ tr s, run traced_step (fj_init g0) tr s → ¬ data_race tr.*2.
Proof. intros Hone tr s Hr (i & j & Hij & Hc & Hn). by apply Hn, (gd_ordered _ _ (guarded_run _ Hone _ _ Hr)). Qed.
End traced.

(** ** Without a lock

    The threads are created before the first is joined: without a lock nothing that one of
    them does happens before anything another does. *)

Definition unlocked (tr : list event) : Prop := ∀ i t, tr !! i ≠ Some (Thread t Releases).
Definition joined_late (tr : list event) : Prop :=
  ∀ i j t u, (i < j)%nat → tr !! i = Some (Joins t) → tr !! j ≠ Some (Creates u).

(** What can happen after the step [i] of the thread [t]. *)
Definition later (tr : list event) (t : nat) (k : nat) : Prop :=
  ∃ e, tr !! k = Some e ∧
    (actor e = Some t ∨ actor e = None ∧ ∃ r u, (r ≤ k)%nat ∧ tr !! r = Some (Joins u)).

Lemma later_step tr t i j : unlocked tr → joined_late tr → happens_before tr i j → later tr t i → later tr t j.
Proof.
  intros Hu Hj. induction 1 as [i j e e' Hij Hi He Ha|i j u m Hij Hi He|i j u m Hij Hi He|i j u v Hij Hi He|i j k _ IH1 _ IH2];
    [..|by intros ?%IH1%IH2]; intros (d & Hd & H); simplify_eq.
  - exists e'. split; [done|]. destruct H as [?|(? & r & u & Hr & HJ)]; [left; congruence|right].
    split; [congruence|]. exists r, u. split; [lia|done].
  - destruct H as [[=]|(_ & r & v & Hr & HJ)]. destruct (decide (r = i)) as [->|]; [congruence|].
    by destruct (Hj r i v u ltac:(lia) HJ).
  - exists (Joins u). split; [done|]. right. split; [done|]. exists j, u. done.
  - by destruct (Hu i u).
Qed.

Lemma unordered tr i j t u m m' : unlocked tr → joined_late tr → t ≠ u →
  tr !! i = Some (Thread t m) → tr !! j = Some (Thread u m') → ¬ happens_before tr i j.
Proof.
  intros Hu Hl Htu Hi Hj Hb. destruct (later_step tr t i j Hu Hl Hb) as (e & He & H).
  { exists (Thread t m). split; [done|]. by left. }
  assert (e = Thread u m') as -> by congruence. destruct H as [[= ?]|[[=] _]]. congruence.
Qed.

Section unlocked.
Context {G P : Type} (thread : nat → G → P → list ev → G → P → Prop).
Context (n : nat) (start : nat → P) (returned : P → bool) (header : list ev) (report : G → list ev).
Context (does : P → P → memory_event).
Notation tstep := (traced_step thread n start returned header report does).
Hypothesis no_lock : ∀ p p', does p p' ≠ Releases.

Lemma trace_joined_late g0 tr s : run tstep (fj_init g0) tr s →
  joined_late tr.*2 ∧ unlocked tr.*2 ∧
  (match main_ s with Starting | Creating _ => ∀ i t, tr.*2 !! i ≠ Some (Joins t) | _ => True end).
Proof.
  induction 1 as [|tr s l s' Hr (Hl & Hu & Hm) Hs]; [by split_and!|]. rewrite fmap_app.
  split_and!.
  - intros i j t u Hij Hi Hj. apply lookup_snoc_Some in Hj as [[Hlt Hj]|[-> Hj]].
    + apply lookup_snoc_Some in Hi as [[_ Hi]|[-> _]]; [exact (Hl _ _ _ _ Hij Hi Hj)|lia].
    + apply lookup_snoc_Some in Hi as [[_ Hi]|[? _]]; [|lia]. destruct Hs; simplify_eq/=; exact (Hm _ _ Hi).
  - intros i t [[_ Hi]|[_ Hi]]%lookup_snoc_Some; [exact (Hu _ _ Hi)|]. destruct Hs; simplify_eq/=. by eapply no_lock.
  - destruct Hs; simpl in *; try done; try (intros k t [[_ Hi]|[_ Hi]]%lookup_snoc_Some; [exact (Hm _ _ Hi)|done]).
    destruct m; try done; intros k t [[_ Hi]|[_ Hi]]%lookup_snoc_Some; try exact (Hm _ _ Hi); done.
Qed.

(** A write and another access by two threads are a data race. *)
Lemma two_threads_race g0 tr s i j t u m : run tstep (fj_init g0) tr s → t ≠ u →
  tr.*2 !! i = Some (Thread t Writes) → tr.*2 !! j = Some (Thread u m) → accesses m = true → data_race tr.*2.
Proof.
  intros Hr Htu Hi Hj Hm. destruct (trace_joined_late _ _ _ Hr) as (Hl & Hu & _).
  destruct (decide (i < j)%nat).
  - exists i, j. split_and!; [done|exists t, u, Writes, m; by auto 10|by eapply unordered].
  - assert (i ≠ j) by congruence.
    exists j, i. split_and!; [lia|exists u, t, m, Writes; by auto 10|by eapply (unordered _ j i u t)].
Qed.
End unlocked.

(** ** Waiting loops

    A turn of a loop that waits leaves everything as it is, so that a run is one without
    such turns but for these. *)

Definition goes_on (l : list ev * event) : bool := match l.2 with Thread _ Retries => false | _ => true end.

Section retries.
Context {G P : Type} (thread : nat → G → P → list ev → G → P → Prop).
Context (n : nat) (start : nat → P) (returned : P → bool) (header : list ev) (report : G → list ev).
Context (does : P → P → memory_event).
Hypothesis retry_stays : ∀ j g p a g' p', thread j g p a g' p' → does p p' = Retries → a = [] ∧ g' = g ∧ p' = p.

(** The threads without their retries. *)
Definition moving (j : nat) (g : G) (p : P) (a : list ev) (g' : G) (p' : P) : Prop := thread j g p a g' p' ∧ does p p' ≠ Retries.

Notation tstep := (traced_step thread n start returned header report does).
Notation mstep := (fj_step moving n start returned header report).

Lemma run_moving s0 tr s : run tstep s0 tr s →
  ∃ os, run mstep s0 os s ∧ length os = length (filter goes_on tr) ∧ output os = output tr.*1.
Proof.
  induction 1 as [|tr s l s' Hr (os & Ho & Hl & Eo) Hs]; [exists []; by split; [apply run_start|]|].
  rewrite filter_app length_app fmap_app /output concat_app. unfold output in Eo. rewrite -Eo.
  assert (∀ a e, mstep s a s' → goes_on (a, e) → ∃ os', run mstep s0 os' s' ∧
    length os' = (length (filter goes_on tr) + length (filter goes_on [(a, e)]))%nat ∧ concat os' = concat os ++ concat [(a, e)].*1) as Hgo.
  { intros a e Hm Hg. exists (os ++ [a]). split; [by eapply run_step|]. rewrite filter_cons_True // length_app concat_app Hl. done. }
  destruct Hs as [| | | | |g ps m j p a g' p' Hp Ht]; try (apply Hgo; [by econstructor|done]).
  destruct (decide (does p p' = Retries)) as [E|E].
  - destruct (retry_stays _ _ _ _ _ _ Ht E) as (-> & -> & ->). exists os. rewrite list_insert_id // E.
    change (filter goes_on [([], Thread j Retries)]) with (@nil (list ev * event)). split_and!; [done|simpl; lia|by rewrite /= app_nil_r].
  - apply Hgo; [by eapply thread_steps|]. unfold goes_on. simpl. by destruct (does p p').
Qed.

(** And a run of the others is one of all. *)
Lemma moving_run s0 os s : run mstep s0 os s → ∃ tr, run tstep s0 tr s ∧ Forall goes_on tr ∧ tr.*1 = os.
Proof.
  induction 1 as [|os s a s' Hr (tr & Ht & Hg & <-) Hs]; [exists []; by split; [apply run_start|]|].
  assert (∃ e, tstep s (a, e) s' ∧ goes_on (a, e)) as (e & He & Hge).
  { destruct Hs as [| | | | |g ps m j p a g' p' Hp [Ht' E]]; eexists; (split; [by econstructor|]); try done.
    unfold goes_on. simpl. by destruct (does p p'). }
  exists (tr ++ [(a, e)]). split_and!; [by eapply run_step|by apply Forall_app_2; [|apply Forall_singleton]|by rewrite fmap_app].
Qed.
End retries.
