(* ===== verification/BoundedQueue.v ===== *)
(** * Exercise 24, section 4: the bounded queue of a producer and its consumers

    Model of [BQueue], [bq_push], [bq_pop], [bq_close], [producer], [consumer] and
    [section_condvar] of [exercises/24_threads/threads.c], as a system of threads that
    interleave.  Every function is a step relation on its program counter and the shared
    state; a step is the code between two calls of the thread library.  A step that would
    be undefined (an index outside the array, an overflow) is missing, so that progress
    includes the absence of undefined behaviour.  [pthread_cond_wait] may wake up
    spuriously, [pthread_cond_signal] wakes at least one sleeper. *)

From S2P Require Import Prelude Machine CString Double Printf SepLogic Pure Interleave.
#[local] Open Scope Z_scope.

Definition QCAP : Z := 8.
Definition NITEMS : Z := 20.

(** ** The shared state *)

Record BQueue := { data : list Z; head : Z; tail : Z; count : Z; closed : Z }.

(** The condition variables; the two members of [BQueue]. *)
Inductive cond := not_full | not_empty.

#[export] Instance cond_eq_dec : EqDecision cond.
Proof. solve_decision. Defined.

(** The queue, the owner of its mutex and the threads asleep on each condition. *)
Record shared := { q : BQueue; owner : option nat; asleep : cond → gset nat }.

Definition set_q (x : BQueue) (g : shared) : shared := {| q := x; owner := owner g; asleep := asleep g |}.
Definition set_owner (o : option nat) (g : shared) : shared := {| q := q g; owner := o; asleep := asleep g |}.
Definition set_asleep (c : cond) (s : gset nat) (g : shared) : shared :=
  {| q := q g; owner := owner g; asleep := λ d, if decide (d = c) then s else asleep g d |}.

(** The thread library: [pthread_mutex_lock] blocks while there is an owner;
    [pthread_cond_wait] releases the mutex and puts the thread to sleep, and locks again
    when it is awake. *)
Definition unlock : shared → shared := set_owner None.
Definition sleep (c : cond) (t : nat) (g : shared) : shared := set_owner None (set_asleep c ({[t]} ∪ asleep g c) g).
Definition wake (c : cond) (woken : gset nat) (g : shared) : shared := set_asleep c (asleep g c ∖ woken) g.

(** The sleepers a signal may wake. *)
Definition signals (c : cond) (g : shared) (woken : gset nat) : Prop :=
  woken ⊆ asleep g c ∧ (asleep g c ≠ ∅ → woken ≠ ∅).

(** ** The operations on the ring *)

(** [q->data[q->tail] = val; q->tail = (q->tail + 1) % QCAP; q->count++;] *)
Definition put (val : Z) (x : BQueue) : option BQueue :=
  if (0 <=? tail x) && (tail x <? QCAP) && Machine.in_int (count x + 1)
  then Some {| data := <[Z.to_nat (tail x) := val]> (data x); head := head x;
               tail := Z.rem (tail x + 1) QCAP; count := count x + 1; closed := closed x |}
  else None.

(** [*out = q->data[q->head]; q->head = (q->head + 1) % QCAP; q->count--;] *)
Definition take_out (x : BQueue) : option (Z * BQueue) :=
  if (0 <=? head x) && (head x <? QCAP) && Machine.in_int (count x - 1)
  then v ← data x !! Z.to_nat (head x);
       Some (v, {| data := data x; head := Z.rem (head x + 1) QCAP;
                   tail := tail x; count := count x - 1; closed := closed x |})
  else None.

Definition close (x : BQueue) : BQueue :=
  {| data := data x; head := head x; tail := tail x; count := count x; closed := 1 |}.

(** ** The functions *)

(** What a step does for the observer; [Spurious] wakeups are told apart. *)
Inductive act := Tau | Pushed (v size : Z) | Popped (v : Z) | Printed (s : string) | Spurious.

Inductive push_pc :=
  | push_lock | push_loop | push_asleep | push_body
  | push_signal (size_now : Z) | push_unlock (size_now : Z) | push_return (size_now : Z).

#[export] Instance push_pc_eq_dec : EqDecision push_pc.
Proof. solve_decision. Defined.

(** [bq_push(q, val)] by thread [t]. *)
Inductive bq_push (t : nat) (val : Z) : shared → push_pc → act → shared → push_pc → Prop :=
  | push_locks g : owner g = None → bq_push t val g push_lock Tau (set_owner (Some t) g) push_loop
  | push_waits g : count (q g) = QCAP → bq_push t val g push_loop Tau (sleep not_full t g) push_asleep
  | push_goes g : count (q g) ≠ QCAP → bq_push t val g push_loop Tau g push_body
  | push_wakes g : t ∉ asleep g not_full → owner g = None →
      bq_push t val g push_asleep Tau (set_owner (Some t) g) push_loop
  | push_spurious g : t ∈ asleep g not_full →
      bq_push t val g push_asleep Spurious (wake not_full {[t]} g) push_asleep
  | push_puts g x : put val (q g) = Some x →
      bq_push t val g push_body (Pushed val (count x)) (set_q x g) (push_signal (count x))
  | push_signals g n woken : signals not_empty g woken →
      bq_push t val g (push_signal n) Tau (wake not_empty woken g) (push_unlock n)
  | push_unlocks g n : bq_push t val g (push_unlock n) Tau (unlock g) (push_return n).

Inductive pop_pc :=
  | pop_lock | pop_loop | pop_asleep | pop_body | pop_empty
  | pop_signal (v : Z) | pop_unlock (v : Z) | pop_return (r : option Z).

(** [bq_pop(q, &out)]: [Some out], or [None] for 0. *)
Inductive bq_pop (t : nat) : shared → pop_pc → act → shared → pop_pc → Prop :=
  | pop_locks g : owner g = None → bq_pop t g pop_lock Tau (set_owner (Some t) g) pop_loop
  | pop_waits g : count (q g) = 0 ∧ closed (q g) = 0 →
      bq_pop t g pop_loop Tau (sleep not_empty t g) pop_asleep
  | pop_goes g : ¬ (count (q g) = 0 ∧ closed (q g) = 0) → bq_pop t g pop_loop Tau g pop_body
  | pop_wakes g : t ∉ asleep g not_empty → owner g = None →
      bq_pop t g pop_asleep Tau (set_owner (Some t) g) pop_loop
  | pop_spurious g : t ∈ asleep g not_empty →
      bq_pop t g pop_asleep Spurious (wake not_empty {[t]} g) pop_asleep
  | pop_finds_empty g : count (q g) = 0 → bq_pop t g pop_body Tau g pop_empty
  | pop_takes g v x : count (q g) ≠ 0 → take_out (q g) = Some (v, x) →
      bq_pop t g pop_body (Popped v) (set_q x g) (pop_signal v)
  | pop_unlocks_empty g : bq_pop t g pop_empty Tau (unlock g) (pop_return None)
  | pop_signals g v woken : signals not_full g woken →
      bq_pop t g (pop_signal v) Tau (wake not_full woken g) (pop_unlock v)
  | pop_unlocks g v : bq_pop t g (pop_unlock v) Tau (unlock g) (pop_return (Some v)).

Inductive close_pc := close_lock | close_set | close_broadcast | close_unlock | close_return.

#[export] Instance close_pc_eq_dec : EqDecision close_pc.
Proof. solve_decision. Defined.

Inductive bq_close (t : nat) : shared → close_pc → act → shared → close_pc → Prop :=
  | close_locks g : owner g = None → bq_close t g close_lock Tau (set_owner (Some t) g) close_set
  | close_sets g : bq_close t g close_set Tau (set_q (close (q g)) g) close_broadcast
  | close_broadcasts g : bq_close t g close_broadcast Tau (wake not_empty (asleep g not_empty) g) close_unlock
  | close_unlocks g : bq_close t g close_unlock Tau (unlock g) close_return.

(** The producer: [i] is the variable of its loop. *)
Inductive producer_pc := Producing (i : Z) (p : push_pc) | Closing (p : close_pc) | ProducerDone.

#[export] Instance producer_pc_eq_dec : EqDecision producer_pc.
Proof. solve_decision. Defined.

Definition pushed_line (i n : Z) : string :=
  default ""%string (format "  P: pushed %2d  (queue size %d)\n" [AInt i; AInt n]).

Inductive producer (t : nat) : shared → producer_pc → act → shared → producer_pc → Prop :=
  | producer_push g i p a g' p' : bq_push t i g p a g' p' → producer t g (Producing i p) a g' (Producing i p')
  | producer_next g i n : i + 1 < NITEMS →
      producer t g (Producing i (push_return n)) (Printed (pushed_line i n)) g (Producing (i + 1) push_lock)
  | producer_last g i n : ¬ i + 1 < NITEMS →
      producer t g (Producing i (push_return n)) (Printed (pushed_line i n)) g (Closing close_lock)
  | producer_close g p a g' p' : bq_close t g p a g' p' → producer t g (Closing p) a g' (Closing p')
  | producer_returns g : producer t g (Closing close_return) Tau g ProducerDone.

Inductive consumer_pc := Consuming (sum n : Z) (p : pop_pc) | ConsumerDone (sum n : Z).

Definition consumed_line (n sum : Z) : string :=
  default ""%string (format "  C: consumed %d items, sum=%d\n" [AInt n; AInt sum]).

Inductive consumer (t : nat) : shared → consumer_pc → act → shared → consumer_pc → Prop :=
  | consumer_pop g sum n p a g' p' :
      bq_pop t g p a g' p' → consumer t g (Consuming sum n p) a g' (Consuming sum n p')
  | consumer_adds g sum n v : INT_MIN ≤ sum + v ≤ INT_MAX → n + 1 ≤ INT_MAX →
      consumer t g (Consuming sum n (pop_return (Some v))) Tau g (Consuming (sum + v) (n + 1) pop_lock)
  | consumer_returns g sum n :
      consumer t g (Consuming sum n (pop_return None)) (Printed (consumed_line n sum)) g (ConsumerDone sum n).

(** ** The threads of [section_condvar]

    Thread 0 is the producer, thread [j + 1] the consumer [j]; the section has two
    consumers, the model any number. *)
Record system := { mem : shared; prod : producer_pc; cons_ : list consumer_pc }.

Inductive step : system → act → system → Prop :=
  | prod_steps g p cs a g' p' : producer 0 g p a g' p' →
      step {| mem := g; prod := p; cons_ := cs |} a {| mem := g'; prod := p'; cons_ := cs |}
  | cons_steps g p cs j c a g' c' : cs !! j = Some c → consumer (S j) g c a g' c' →
      step {| mem := g; prod := p; cons_ := cs |} a {| mem := g'; prod := p; cons_ := <[j:=c']> cs |}.

Definition bq_init : BQueue := {| data := replicate 8 0; head := 0; tail := 0; count := 0; closed := 0 |}.

Definition section_condvar (consumers : nat) : system :=
  {| mem := {| q := bq_init; owner := None; asleep := λ _, ∅ |};
     prod := Producing 0 push_lock;
     cons_ := replicate consumers (Consuming 0 0 pop_lock) |}.

Definition all_done (s : system) : Prop :=
  prod s = ProducerDone ∧ ∀ c, c ∈ cons_ s → ∃ sum n, c = ConsumerDone sum n.

#[local] Notation run := (Interleave.run step).

(** ** The ring *)

Definition ring_wf (x : BQueue) : Prop :=
  length (data x) = 8%nat ∧ 0 ≤ head x < 8 ∧ 0 ≤ count x ≤ 8 ∧ tail x = (head x + count x) mod 8.

(** Slot [k] after the head, and the elements from the head on. *)
Definition slot (x : BQueue) (k : nat) : nat := Z.to_nat ((head x + Z.of_nat k) mod 8).
Definition contents (x : BQueue) : list Z := (λ k, nth (slot x k) (data x) 0) <$> seq 0 (Z.to_nat (count x)).

Lemma contents_length x : length (contents x) = Z.to_nat (count x).
Proof. unfold contents. by rewrite length_fmap length_seq. Qed.

Lemma put_ok v x :
  ring_wf x → count x ≠ QCAP →
  ∃ x', put v x = Some x' ∧ ring_wf x' ∧ contents x' = contents x ++ [v] ∧
        closed x' = closed x ∧ count x' = count x + 1.
Proof.
  intros (Hl & Hh & Hc & Ht) Hne. unfold QCAP in *. unfold put, QCAP.
  pose proof (Z.mod_pos_bound (head x + count x) 8 ltac:(lia)) as Hb.
  destruct (Z.leb_spec 0 (tail x)); [|lia]. destruct (Z.ltb_spec (tail x) 8); [|lia].
  assert (Machine.in_int (count x + 1) = true) as -> by (apply in_int_spec; unfold INT_MIN, INT_MAX; lia).
  eexists. split; [reflexivity|]. unfold ring_wf, contents, slot. cbn [data head tail count closed].
  rewrite length_insert. split_and!; try done; try lia.
  - rewrite Z.rem_mod_nonneg; [|lia..]. rewrite Ht Zplus_mod_idemp_l. f_equal. lia.
  - replace (Z.to_nat (count x + 1)) with (S (Z.to_nat (count x))) by lia.
    rewrite seq_S fmap_app. simpl. f_equal.
    + apply list_fmap_ext. intros i k [-> Hk]%lookup_seq. rewrite Nat.add_0_l.
      assert (Z.to_nat ((head x + Z.of_nat i) mod 8) ≠ Z.to_nat (tail x)) as Hi.
      { rewrite Ht. intros E. apply Z2Nat.inj in E; [|apply Z.mod_pos_bound; lia..].
        revert E. clear -Hh Hc Hne Hk. Z.to_euclidean_division_equations. lia. }
      rewrite !nth_lookup list_lookup_insert_ne //.
    + f_equal. replace (Z.of_nat (Z.to_nat (count x))) with (count x) by lia. rewrite -Ht.
      rewrite nth_lookup list_lookup_insert_eq //; lia.
Qed.

Lemma take_out_ok x :
  ring_wf x → count x ≠ 0 →
  ∃ v x', take_out x = Some (v, x') ∧ ring_wf x' ∧ contents x = v :: contents x' ∧
        closed x' = closed x ∧ count x' = count x - 1.
Proof.
  intros (Hl & Hh & Hc & Ht) Hne. unfold take_out, QCAP.
  destruct (Z.leb_spec 0 (head x)); [|lia]. destruct (Z.ltb_spec (head x) 8); [|lia].
  assert (Machine.in_int (count x - 1) = true) as -> by (apply in_int_spec; unfold INT_MIN, INT_MAX; lia).
  assert (is_Some (data x !! Z.to_nat (head x))) as [v Hv] by (apply lookup_lt_is_Some; lia).
  simpl. rewrite Hv. simpl. do 2 eexists. split; [reflexivity|].
  unfold ring_wf, contents, slot. cbn [data head tail count closed].
  assert (Z.rem (head x + 1) 8 = (head x + 1) mod 8) as -> by (apply Z.rem_mod_nonneg; lia).
  pose proof (Z.mod_pos_bound (head x + 1) 8 ltac:(lia)) as Hb.
  split_and!; try done; try lia.
  - rewrite Ht Zplus_mod_idemp_l. f_equal. lia.
  - replace (Z.to_nat (count x)) with (S (Z.to_nat (count x - 1))) by lia. simpl. f_equal.
    + rewrite Z.add_0_r Z.mod_small; [|lia]. by rewrite nth_lookup Hv.
    + apply list_eq. intros k. rewrite !list_lookup_fmap.
      destruct (decide (k < Z.to_nat (count x - 1))%nat).
      * rewrite !lookup_seq_lt //. simpl. rewrite Zplus_mod_idemp_l. do 4 f_equal. lia.
      * by rewrite !lookup_seq_ge; [|lia..].
Qed.

Lemma count_contents x : ring_wf x → count x = Z.of_nat (length (contents x)).
Proof. intros (_ & _ & Hc & _). rewrite contents_length. lia. Qed.

(** ** Traces and what each thread has done *)

Definition pushed (tr : list act) : list Z := omap (λ a, match a with Pushed v _ => Some v | _ => None end) tr.
Definition popped (tr : list act) : list Z := omap (λ a, match a with Popped v => Some v | _ => None end) tr.

(** The pushes made, and what a consumer has taken. *)
Definition prod_pushed (p : producer_pc) : Z :=
  match p with
  | Producing i (push_signal _ | push_unlock _ | push_return _) => i + 1
  | Producing i _ => i
  | _ => NITEMS
  end.

Definition in_flight (p : pop_pc) : option Z :=
  match p with pop_signal v | pop_unlock v => Some v | pop_return r => r | _ => None end.

Definition cons_sum (c : consumer_pc) : Z :=
  match c with Consuming sum _ p => sum + default 0 (in_flight p) | ConsumerDone sum _ => sum end.
Definition cons_num (c : consumer_pc) : Z :=
  match c with Consuming _ n p => n + (if in_flight p then 1 else 0) | ConsumerDone _ n => n end.

(** Being between [lock] and [unlock]. *)
Definition prod_cs (p : producer_pc) : bool :=
  match p with
  | Producing _ (push_loop | push_body | push_signal _ | push_unlock _) => true
  | Closing (close_set | close_broadcast | close_unlock) => true
  | _ => false
  end.
Definition cons_cs (c : consumer_pc) : bool :=
  match c with
  | Consuming _ _ (pop_loop | pop_body | pop_empty | pop_signal _ | pop_unlock _) => true
  | _ => false
  end.

(** [inside s t]: thread [t] is in its critical section. *)
Definition inside (p : producer_pc) (cs : list consumer_pc) (t : nat) : bool :=
  match t with O => prod_cs p | S j => match cs !! j with Some c => cons_cs c | None => false end end.

Definition is_closed (p : producer_pc) : bool :=
  match p with Closing (close_broadcast | close_unlock | close_return) | ProducerDone => true | _ => false end.

(** A consumer that has not finished, and is not asleep. *)
Definition active (g : shared) (j : nat) (c : consumer_pc) : Prop :=
  S j ∉ asleep g not_empty ∧ match c with Consuming _ _ (pop_return None) | ConsumerDone _ _ => False | _ => True end.

(** ** The invariant *)

(** A consumer that has found the queue closed and empty. *)
Definition finished (c : consumer_pc) : bool :=
  match c with Consuming _ _ (pop_empty | pop_return None) | ConsumerDone _ _ => true | _ => false end.

Record Inv (tr : list act) (s : system) : Prop := {
  i_ring : ring_wf (q (mem s));
  i_fifo : pushed tr = popped tr ++ contents (q (mem s));
  i_pushed : pushed tr = seqZ 0 (prod_pushed (prod s));
  i_sum : zsum (cons_sum <$> cons_ s) = zsum (popped tr);
  i_num : zsum (cons_num <$> cons_ s) = Z.of_nat (length (popped tr));
  i_item i p : prod s = Producing i p → 0 ≤ i < NITEMS;
  i_owner t : owner (mem s) = Some t ↔ inside (prod s) (cons_ s) t = true;
  i_sleeps_full t : t ∈ asleep (mem s) not_full → t = 0%nat ∧ ∃ i, prod s = Producing i push_asleep;
  i_sleeps_empty t : t ∈ asleep (mem s) not_empty →
    ∃ j sum n, t = S j ∧ cons_ s !! j = Some (Consuming sum n pop_asleep);
  i_closed : closed (q (mem s)) = b2z (is_closed (prod s));
  i_room i : prod s = Producing i push_body → count (q (mem s)) ≠ QCAP;
  i_body j sum n : cons_ s !! j = Some (Consuming sum n pop_body) →
    ¬ (count (q (mem s)) = 0 ∧ closed (q (mem s)) = 0);
  i_over j c : cons_ s !! j = Some c → finished c = true → count (q (mem s)) = 0 ∧ closed (q (mem s)) = 1;
  i_wait_full : 0%nat ∈ asleep (mem s) not_full →
    count (q (mem s)) = QCAP ∨ ∃ j sum n v, cons_ s !! j = Some (Consuming sum n (pop_signal v));
  i_wait_empty : asleep (mem s) not_empty ≠ ∅ → count (q (mem s)) ≠ 0 →
    (∃ j c, cons_ s !! j = Some c ∧ active (mem s) j c) ∨ ∃ i n, prod s = Producing i (push_signal n);
  i_wait_closed : asleep (mem s) not_empty ≠ ∅ → closed (q (mem s)) ≠ 0 → prod s = Closing close_broadcast;
}.

Lemma inside_insert p cs j c c' t :
  cs !! j = Some c → inside p (<[j:=c']> cs) t = if decide (t = S j) then cons_cs c' else inside p cs t.
Proof.
  intros Hj. destruct t as [|k]; simpl; [done|]. destruct (decide (S k = S j)) as [E|E].
  - injection E as ->. rewrite list_lookup_insert_eq //. by apply lookup_lt_Some in Hj.
  - rewrite list_lookup_insert_ne //. congruence.
Qed.

Lemma inv_init n : Inv [] (section_condvar n).
Proof.
  assert (∀ j c, replicate n (Consuming 0 0 pop_lock) !! j = Some c → c = Consuming 0 0 pop_lock) as Hc.
  { intros j c [-> _]%lookup_replicate. done. }
  split; simpl; try done.
  - rewrite (zsum_replicate cons_sum) /=. lia.
  - rewrite (zsum_replicate cons_num) /=. lia.
  - intros i p [= <- <-]. done.
  - intros [|t]; simpl; [done|]. destruct (_ !! t) eqn:E; [apply Hc in E as ->|]; done.
  - intros j sum k E%Hc. done.
  - intros j c E%Hc. by subst.
Qed.

Lemma pushed_snoc tr a : pushed (tr ++ [a]) = pushed tr ++ match a with Pushed v _ => [v] | _ => [] end.
Proof. unfold pushed. rewrite omap_app. by destruct a. Qed.
Lemma popped_snoc tr a : popped (tr ++ [a]) = popped tr ++ match a with Popped v => [v] | _ => [] end.
Proof. unfold popped. rewrite omap_app. by destruct a. Qed.

(** The thread that owns the mutex is alone inside. *)
Lemma inside_unique tr s t t' : Inv tr s →
  inside (prod s) (cons_ s) t = true → inside (prod s) (cons_ s) t' = true → t = t'.
Proof. intros I Ht%(i_owner _ _ I) Ht'%(i_owner _ _ I). congruence. Qed.

(** *** The producer's steps *)

Section producer.
Context (tr : list act) (g : shared) (p : producer_pc) (cs : list consumer_pc).
Context (I : Inv tr {| mem := g; prod := p; cons_ := cs |}).

(** What the consumers rely on is unchanged when the queue is. *)
Lemma prod_keeps_queue a p' g' :
  q g' = q g → match a with Pushed _ _ | Popped _ => False | _ => True end →
  (∀ i k, p' = Producing i k → 0 ≤ i < NITEMS) →
  prod_pushed p' = prod_pushed p → is_closed p' = is_closed p →
  (∀ t, owner g' = Some t ↔ inside p' cs t = true) →
  (∀ t, t ∈ asleep g' not_full → t = 0%nat ∧ ∃ i, p' = Producing i push_asleep) →
  asleep g' not_empty ⊆ asleep g not_empty →
  (∀ i, p' = Producing i push_body → count (q g) ≠ QCAP) →
  (0%nat ∈ asleep g' not_full → count (q g) = QCAP ∨ 0%nat ∈ asleep g not_full) →
  (asleep g' not_empty ≠ ∅ → count (q g) ≠ 0 →
     (∃ j c, cs !! j = Some c ∧ active g' j c) ∨ ∃ i n, p' = Producing i (push_signal n)) →
  (asleep g' not_empty ≠ ∅ → closed (q g) ≠ 0 → p' = Closing close_broadcast) →
  Inv (tr ++ [a]) {| mem := g'; prod := p'; cons_ := cs |}.
Proof.
  intros Hq Ha Hi Hp Hc Ho Hf He Hb Hwf Hwe Hwc.
  assert (pushed (tr ++ [a]) = pushed tr) as Ep by (rewrite pushed_snoc; destruct a; try done; by rewrite app_nil_r).
  assert (popped (tr ++ [a]) = popped tr) as Eo by (rewrite popped_snoc; destruct a; try done; by rewrite app_nil_r).
  destruct I. simpl in *. split; simpl; rewrite ?Hq ?Ep ?Eo ?Hp ?Hc; try done.
  - intros t Ht. apply i_sleeps_empty0. set_solver.
  - intros H. destruct (Hwf H); auto.
Qed.

Lemma asleep_set_eq c s : asleep (set_asleep c s g) c = s.
Proof. simpl. by destruct (decide (c = c)). Qed.

(** The sleepers that a signal of the producer leaves. *)
Lemma prod_wakes woken : woken ⊆ asleep g not_empty →
  (asleep g not_empty ≠ ∅ → woken ≠ ∅) → asleep g not_empty ∖ woken ≠ ∅ →
  ∃ j c, cs !! j = Some c ∧ active (wake not_empty woken g) j c.
Proof.
  intros Hs Hn Hne. assert (woken ≠ ∅) as Hw by (apply Hn; set_solver).
  apply set_choose_L in Hw as [t Ht].
  destruct (i_sleeps_empty _ _ I t) as (j & sum & n & -> & Hj); [simpl; set_solver|].
  exists j, (Consuming sum n pop_asleep). split; [exact Hj|]. split; [simpl; set_solver|done].
Qed.

End producer.

Ltac owner_case I :=
  let j := fresh in let H0 := fresh in let Hj := fresh in
  intros [|j];
  [ pose proof (i_owner _ _ I 0%nat) as H0; simpl in *; intuition congruence
  | pose proof (i_owner _ _ I 0%nat) as H0; pose proof (i_owner _ _ I (S j)) as Hj;
    simpl in *; intuition congruence ].

(** The obligations of [prod_keeps_queue] that hold because nothing relevant changes. *)
Ltac prod_field I :=
  lazymatch goal with
  | |- ∀ t, _ ↔ _ => owner_case I
  | |- ∀ i k, _ = Producing i k → _ =>
      intros ?? [=]; subst; pose proof (i_item _ _ I _ _ eq_refl); simpl in *; try lia
  | |- ∀ t, t ∈ _ → t = 0%nat ∧ _ =>
      let t := fresh in let Ht := fresh in
      intros t Ht; first [ by destruct (i_sleeps_full _ _ I t Ht) as [_ [? [=]]]
                         | exfalso; destruct (i_sleeps_full _ _ I t Ht) as [-> _]; contradiction
                         | split; [pose proof (i_sleeps_full _ _ I t); simpl in *; set_solver|by eexists] ]
  | |- 0%nat ∈ _ → _ => set_solver
  | |- _ ≠ ∅ → count _ ≠ 0 → _ =>
      let Ha := fresh in let Hc := fresh in let Hx := fresh in
      intros Ha Hc; destruct (i_wait_empty _ _ I Ha Hc) as [Hx|(? & ? & [=])]; left; exact Hx
  | |- _ ≠ ∅ → closed _ ≠ 0 → _ =>
      let Ha := fresh in let Hc := fresh in
      intros Ha Hc; by discriminate (i_wait_closed _ _ I Ha Hc)
  end.

(** The steps that change the queue. *)
Lemma producer_puts tr g cs i x :
  Inv tr {| mem := g; prod := Producing i push_body; cons_ := cs |} → put i (q g) = Some x →
  Inv (tr ++ [Pushed i (count x)])
    {| mem := set_q x g; prod := Producing i (push_signal (count x)); cons_ := cs |}.
Proof.
  intros I Hput. pose proof I as I'.
  destruct I' as [Hr Hfi Hpu Hsu Hnu Hitem Hown Hsf Hse Hcl Hroom Hbo Hov Hwf Hwe Hwc]; simpl in *.
  destruct (put_ok i (q g) Hr (Hroom i eq_refl)) as (x' & Hx & Hwf' & Hcont & Hclosed & Hcount).
  assert (x' = x) as -> by congruence. specialize (Hitem i _ eq_refl).
  assert (∀ j c, cs !! j = Some c → cons_cs c = false) as Hout.
  { intros j c Hj. destruct (cons_cs c) eqn:E; [|done].
    assert (0%nat = S j) by (apply (inside_unique _ _ _ _ I); simpl; rewrite ?Hj //). done. }
  split; simpl; rewrite ?pushed_snoc ?popped_snoc ?app_nil_r; try done.
  - by rewrite Hfi Hcont app_assoc.
  - rewrite Hpu. rewrite seqZ_app; [|lia..]. by rewrite Z.add_0_l.
  - intros i' k [= <- _]. done.
  - intros t Ht. by destruct (Hsf t Ht) as [_ [? [=]]].
  - rewrite Hclosed Hcl //.
  - intros j sum n Hj. by apply Hout in Hj.
  - intros j c Hj Hf. destruct (Hov j c Hj Hf). rewrite Hcl in H0. done.
  - intros Ht. by destruct (Hsf 0%nat Ht) as [_ [? [=]]].
  - intros _ _. right. by do 2 eexists.
  - intros _ Hc. rewrite Hclosed Hcl in Hc. done.
Qed.

Lemma producer_closes tr g cs :
  Inv tr {| mem := g; prod := Closing close_set; cons_ := cs |} →
  Inv (tr ++ [Tau]) {| mem := set_q (close (q g)) g; prod := Closing close_broadcast; cons_ := cs |}.
Proof.
  intros I. pose proof I as I'.
  destruct I' as [Hr Hfi Hpu Hsu Hnu Hitem Hown Hsf Hse Hcl Hroom Hbo Hov Hwf Hwe Hwc]; simpl in *.
  split; simpl; rewrite ?pushed_snoc ?popped_snoc ?app_nil_r; try done.
  - intros t Ht. by destruct (Hsf t Ht) as [_ [? [=]]].
  - intros j sum n Hj [_ [=]].
  - intros j c Hj Hf. by destruct (Hov j c Hj Hf).
  - intros Ha Hc. destruct (Hwe Ha Hc) as [Hx|(? & ? & [=])]. left. exact Hx.
Qed.

Lemma producer_inv tr g p cs a g' p' :
  Inv tr {| mem := g; prod := p; cons_ := cs |} → producer 0 g p a g' p' →
  Inv (tr ++ [a]) {| mem := g'; prod := p'; cons_ := cs |}.
Proof.
  intros I H. inversion H as [? i pp ? ? pp' Hp|? i n Hi|? i n Hi|? pp ? ? pp' Hp| ]; subst.
  - inversion Hp as [| | | | |? x Hput|? n woken [Hw1 Hw2]|]; subst.
    6: by apply producer_puts.
    all: apply (prod_keeps_queue _ _ _ _ I); simpl; try done; try prod_field I.
    + set_solver.
    + intros Ha _. left. by apply (prod_wakes _ _ _ _ I).
    + intros Ha Hc. assert (asleep g not_empty ≠ ∅) as Hne by set_solver.
      discriminate (i_wait_closed _ _ I Hne Hc).
  - apply (prod_keeps_queue _ _ _ _ I); simpl; try done; try prod_field I.
  - apply (prod_keeps_queue _ _ _ _ I); simpl; try done; try prod_field I.
    pose proof (i_item _ _ I _ _ eq_refl). lia.
  - inversion Hp; subst.
    2: by apply producer_closes.
    all: apply (prod_keeps_queue _ _ _ _ I); simpl; try done; try prod_field I.
    all: set_solver.
  - apply (prod_keeps_queue _ _ _ _ I); simpl; try done; try prod_field I.
Qed.

(** *** The consumers' steps *)

Lemma insert_cases (cs : list consumer_pc) j c' k x :
  <[j:=c']> cs !! k = Some x → (k = j ∧ x = c') ∨ (k ≠ j ∧ cs !! k = Some x).
Proof. intros [(-> & -> & _)|[Hne H]]%list_lookup_insert_Some; auto. Qed.

Lemma insert_self (cs : list consumer_pc) j c c' : cs !! j = Some c → <[j:=c']> cs !! j = Some c'.
Proof. intros H. apply list_lookup_insert_eq. by eapply lookup_lt_Some. Qed.

Lemma insert_other (cs : list consumer_pc) j c' k : k ≠ j → <[j:=c']> cs !! k = cs !! k.
Proof. intros H. apply list_lookup_insert_ne. congruence. Qed.

Section consumer.
Context (tr : list act) (g : shared) (p : producer_pc) (cs : list consumer_pc).
Context (I : Inv tr {| mem := g; prod := p; cons_ := cs |}).
Context (j : nat) (c : consumer_pc) (Hj : cs !! j = Some c).

Lemma cons_keeps_queue a g' c' :
  q g' = q g → match a with Pushed _ _ | Popped _ => False | _ => True end →
  cons_sum c' = cons_sum c → cons_num c' = cons_num c →
  (∀ t, owner g' = Some t ↔ inside p (<[j:=c']> cs) t = true) →
  asleep g' not_full ⊆ asleep g not_full →
  (∀ t, t ∈ asleep g' not_empty →
     (t = S j ∧ ∃ sum n, c' = Consuming sum n pop_asleep) ∨ (t ≠ S j ∧ t ∈ asleep g not_empty)) →
  (∀ sum n, c' = Consuming sum n pop_body → ¬ (count (q g) = 0 ∧ closed (q g) = 0)) →
  (finished c' = true → finished c = true ∨ (count (q g) = 0 ∧ closed (q g) = 1)) →
  (0%nat ∈ asleep g' not_full → ∀ sum n v, c ≠ Consuming sum n (pop_signal v)) →
  (asleep g' not_empty ≠ ∅ → count (q g) ≠ 0 →
     active g' j c' ∨ asleep g not_empty ≠ ∅ ∧ ¬ active g j c) →
  (asleep g' not_empty ≠ ∅ → closed (q g) ≠ 0 → asleep g not_empty ≠ ∅) →
  Inv (tr ++ [a]) {| mem := g'; prod := p; cons_ := <[j:=c']> cs |}.
Proof.
  intros Hq Ha Hs Hn Ho Hf He Hb Hfin Hwf Hwe Hwc.
  assert (pushed (tr ++ [a]) = pushed tr) as Ep by (rewrite pushed_snoc; destruct a; try done; by rewrite app_nil_r).
  assert (popped (tr ++ [a]) = popped tr) as Eo by (rewrite popped_snoc; destruct a; try done; by rewrite app_nil_r).
  destruct I. simpl in *. split; simpl; rewrite ?Hq ?Ep ?Eo; try done.
  - rewrite (zsum_insert _ _ _ _ _ Hj). lia.
  - rewrite (zsum_insert _ _ _ _ _ Hj). lia.
  - intros t Ht. apply i_sleeps_full0. set_solver.
  - intros t Ht. destruct (He t Ht) as [(-> & sum & n & ->)|[Hne Ht']].
    + exists j, sum, n. split; [done|]. by eapply insert_self.
    + destruct (i_sleeps_empty0 t Ht') as (k & sum & n & -> & Hk). exists k, sum, n. split; [done|].
      rewrite insert_other //. congruence.
  - intros k sum n Hk. apply insert_cases in Hk as [[-> Hk]|[Hne Hk]]; [by eapply Hb|by eapply i_body0].
  - intros k x Hk Hx. apply insert_cases in Hk as [[-> ->]|[Hne Hk]]; [|by eapply i_over0].
    destruct (Hfin Hx); [by eapply i_over0|done].
  - intros Ht. destruct i_wait_full0 as [?|(k & sum & n & v & Hk)]; [set_solver|by left|].
    right. exists k, sum, n, v. rewrite insert_other //. intros ->. apply (Hwf Ht sum n v). congruence.
  - intros Hne Hc. destruct (Hwe Hne Hc) as [Hact|[Hne' Hna]].
    + left. exists j, c'. split; [by eapply insert_self|done].
    + destruct (i_wait_empty0 Hne' Hc) as [(k & x & Hk & Hx)|?]; [|by right].
      assert (k ≠ j) as Hkj by (intros ->; apply Hna; congruence).
      left. exists k, x. split; [by rewrite insert_other|]. destruct Hx as [Hx1 Hx2]. split; [|done].
      intros Hin. destruct (He _ Hin) as [[E _]|[_ Hin']]; [congruence|done].
  - intros Hne Hc. apply i_wait_closed0; auto.
Qed.

Lemma cons_takes sum n v x :
  c = Consuming sum n pop_body → count (q g) ≠ 0 → take_out (q g) = Some (v, x) →
  Inv (tr ++ [Popped v])
    {| mem := set_q x g; prod := p; cons_ := <[j:=Consuming sum n (pop_signal v)]> cs |}.
Proof.
  intros -> Hc Ht. pose proof I as I'.
  destruct I' as [Hr Hfi Hpu Hsu Hnu Hitem Hown Hsf Hse Hcl Hroom Hbo Hov Hwf Hwe Hwc]; simpl in *.
  destruct (take_out_ok (q g) Hr Hc) as (v' & x' & Hx & Hwf' & Hcont & Hclosed & Hcount).
  simplify_eq. assert (prod_cs p = false) as Hpout.
  { destruct (prod_cs p) eqn:E; [|done].
    assert (0%nat = S j) by (apply (inside_unique _ _ _ _ I); simpl; rewrite ?Hj //). done. }
  assert (∀ k y, k ≠ j → cs !! k = Some y → cons_cs y = false) as Hout.
  { intros k y Hne Hk. destruct (cons_cs y) eqn:E; [|done].
    assert (S k = S j) by (apply (inside_unique _ _ _ _ I); simpl; rewrite ?Hj ?Hk //). congruence. }
  split; simpl; rewrite ?pushed_snoc ?popped_snoc ?app_nil_r; try done.
  - by rewrite Hfi Hcont -app_assoc.
  - rewrite (zsum_insert _ _ _ _ _ Hj) zsum_app Hsu. simpl. lia.
  - rewrite (zsum_insert _ _ _ _ _ Hj) length_app Hnu. simpl. lia.
  - intros t. rewrite (inside_insert _ _ _ _ _ _ Hj). destruct (decide (t = S j)) as [->|Hne]; [|done].
    rewrite Hown /= Hj. done.
  - intros t Hin. destruct (Hse t Hin) as (k & s & m & -> & Hk). exists k, s, m. split; [done|].
    rewrite insert_other //. intros ->. congruence.
  - by rewrite Hclosed.
  - intros i ->. done.
  - intros k s m Hk. apply insert_cases in Hk as [[_ [=]]|[Hne Hk]]. by apply Hout in Hk.
  - intros k y Hk Hy. apply insert_cases in Hk as [[_ ->]|[Hne Hk]]; [done|].
    destruct (Hov k y Hk Hy). contradiction.
  - intros _. right. exists j, sum, n, v. by eapply insert_self.
  - intros _ _. left. exists j, (Consuming sum n (pop_signal v)). split; [by eapply insert_self|].
    split; [|done]. intros Hin. destruct (Hse _ Hin) as (k & s & m & [= <-] & Hk). congruence.
  - rewrite Hclosed. done.
Qed.
End consumer.

Ltac cons_owner I j Hj :=
  let t := fresh in let Hne := fresh in let H1 := fresh in let H2 := fresh in
  intros t; rewrite (inside_insert _ _ _ _ _ _ Hj);
  pose proof (i_owner _ _ I (S j)) as H1; pose proof (i_owner _ _ I t) as H2;
  simpl in *; rewrite Hj in H1; simpl in *;
  destruct (decide (t = S j)) as [->|Hne]; intuition congruence.

Lemma consumer_inv tr g p cs j c a g' c' :
  Inv tr {| mem := g; prod := p; cons_ := cs |} → cs !! j = Some c → consumer (S j) g c a g' c' →
  Inv (tr ++ [a]) {| mem := g'; prod := p; cons_ := <[j:=c']> cs |}.
Proof.
  intros I Hj H.
  assert (∀ t, t ∈ asleep g not_empty → (∀ sum n, c ≠ Consuming sum n pop_asleep) → t ≠ S j) as Hne.
  { intros t Ht Hc ->. destruct (i_sleeps_empty _ _ I _ Ht) as (k & s & m & [= <-] & Hk). simpl in Hk.
    apply (Hc s m). congruence. }
  assert ((∀ sum n, c ≠ Consuming sum n pop_asleep) → S j ∉ asleep g not_empty) as Hawake.
  { intros Hc Hin. by apply (Hne _ Hin Hc). }
  inversion H as [? sum n pp ? ? pp' Hp| ? sum n v Hs Hn|? sum n]; subst.
  - inversion Hp as [| | | | | | | |? v woken [Hw1 Hw2]|]; subst.
    7: by eapply cons_takes.
    all: apply (cons_keeps_queue _ _ _ _ I _ _ Hj); simpl; try done; try (by cons_owner I j Hj).
    all: try (intros t Ht; right; split; [by apply Hne|exact Ht]).
    all: try (intros _ _; left; split; [by apply Hawake|done]).
    + (* pop_waits *) intros t Ht. destruct (decide (t = S j)) as [->|]; [left; split; [done|by do 2 eexists]|].
      right. set_solver.
    + intros _ Hc. by destruct H0.
    + intros _ Hc. by destruct H0.
    + (* pop_wakes *) intros t Ht. right. split; [congruence|done].
    + intros _ _. left. by split.
    + (* pop_spurious *) intros t Ht. right. set_solver.
    + intros _ _. left. split; [simpl; set_solver|done].
    + set_solver.
    + (* pop_finds_empty *) intros _. right. split; [done|].
      pose proof (i_closed _ _ I) as Hcl. pose proof (i_body _ _ I _ _ _ Hj) as Hb. simpl in *.
      destruct (is_closed p); simpl in Hcl; [done|]. by destruct Hb.
    + auto.
    + (* pop_unlocks_empty *) intros _ Hc. by destruct (i_over _ _ I _ _ Hj eq_refl).
    + (* pop_signals *) set_solver.
    + intros Hin sum' n' v' _. assert (woken ≠ ∅) as [t Ht]%set_choose_L by (apply Hw2; set_solver).
      destruct (i_sleeps_full _ _ I t) as [-> _]; set_solver.
  - (* consumer_adds *)
    apply (cons_keeps_queue _ _ _ _ I _ _ Hj); simpl; try done; try (by cons_owner I j Hj); try lia.
    + intros t Ht. right. split; [by apply Hne|done].
    + intros _ _. left. split; [by apply Hawake|done].
  - (* consumer_returns *)
    apply (cons_keeps_queue _ _ _ _ I _ _ Hj); simpl; try done; try (by cons_owner I j Hj); try lia.
    + intros t Ht. right. split; [by apply Hne|done].
    + intros _ Hc. by destruct (i_over _ _ I _ _ Hj eq_refl).
Qed.

Lemma run_inv n tr s : run (section_condvar n) tr s → Inv tr s.
Proof.
  induction 1 as [|tr s a s' _ IH Hs]; [apply inv_init|].
  destruct Hs; [by eapply producer_inv|by eapply consumer_inv].
Qed.

(** ** Progress

    When no thread can go on, all have finished: no wakeup is lost, and no step is
    missing. *)

Definition can_go (s : system) : Prop := ∃ a s', step s a s' ∧ a ≠ Spurious.

Lemma push_goes_on g t i p :
  (p = push_body → is_Some (put i (q g))) →
  (p = push_lock ∨ p = push_asleep → owner g = None) → (p = push_asleep → t ∉ asleep g not_full) →
  (∀ n, p ≠ push_return n) → ∃ a g' p', bq_push t i g p a g' p' ∧ a ≠ Spurious.
Proof.
  intros Hput Ho Ha Hr. destruct p as [| | | |n|n|n].
  - do 3 eexists. split; [apply push_locks; auto|done].
  - destruct (decide (count (q g) = QCAP)); do 3 eexists; (split; [by constructor|done]).
  - do 3 eexists. split; [apply push_wakes; auto|done].
  - destruct Hput as [x Hx]; [done|]. do 3 eexists. split; [by apply push_puts|done].
  - do 3 eexists. split; [apply (push_signals _ _ _ _ (asleep g not_empty)); done|done].
  - do 3 eexists. split; [apply push_unlocks|done].
  - by destruct (Hr n).
Qed.

Lemma pop_goes_on g t p :
  ring_wf (q g) →
  (p = pop_lock ∨ p = pop_asleep → owner g = None) → (p = pop_asleep → t ∉ asleep g not_empty) →
  (∀ r, p ≠ pop_return r) → ∃ a g' p', bq_pop t g p a g' p' ∧ a ≠ Spurious.
Proof.
  intros Hw Ho Ha Hr. destruct p as [| | | | |v|v|r].
  - do 3 eexists. split; [apply pop_locks; auto|done].
  - destruct (decide (count (q g) = 0 ∧ closed (q g) = 0)); do 3 eexists; (split; [by constructor|done]).
  - do 3 eexists. split; [apply pop_wakes; auto|done].
  - destruct (decide (count (q g) = 0)) as [Hc|Hc].
    + do 3 eexists. split; [by apply pop_finds_empty|done].
    + destruct (take_out_ok _ Hw Hc) as (v & x & Hx & _).
      do 3 eexists. split; [by eapply pop_takes|done].
  - do 3 eexists. split; [apply pop_unlocks_empty|done].
  - do 3 eexists. split; [apply (pop_signals _ _ _ (asleep g not_full)); done|done].
  - do 3 eexists. split; [apply pop_unlocks|done].
  - by destruct (Hr r).
Qed.

Section progress.
Context (tr : list act) (s : system) (I : Inv tr s).

Lemma owner_goes_on t : owner (mem s) = Some t → can_go s.
Proof.
  destruct s as [g p cs]. simpl. intros Ho. pose proof I as I'.
  destruct I' as [Hr Hfi Hpu Hsu Hnu Hitem Hown Hsf Hse Hcl Hroom Hbo Hov Hwf Hwe Hwc]; simpl in *.
  apply Hown in Ho as Hin. destruct t as [|j]; simpl in Hin.
  - destruct p as [i pp|pp|]; simpl in Hin; [| |done].
    + destruct (push_goes_on g 0 i pp) as (a & g' & p' & Hs & Ha).
      * intros ->. destruct (put_ok i (q g) Hr (Hroom i eq_refl)) as (x & Hx & _). by exists x.
      * intros [->| ->]; done.
      * intros ->. done.
      * intros n ->. done.
      * exists a, {| mem := g'; prod := Producing i p'; cons_ := cs |}. split; [by repeat constructor|done].
    + destruct pp; simpl in Hin; try done; do 2 eexists; (split; [apply prod_steps, producer_close; constructor|done]).
  - destruct (cs !! j) as [c|] eqn:Hj; [|done]. destruct c as [sum n pp|]; [|done].
    destruct (pop_goes_on g (S j) pp Hr) as (a & g' & p' & Hs & Ha).
    + intros [->| ->]; done.
    + intros ->. done.
    + intros r ->. done.
    + exists a, {| mem := g'; prod := p; cons_ := <[j:=Consuming sum n p']> cs |}.
      split; [|done]. eapply cons_steps; [done|by constructor].
Qed.

(** An awake consumer goes on when the mutex is free. *)
Lemma consumer_goes_on j c :
  owner (mem s) = None → cons_ s !! j = Some c → (∀ sum n, c ≠ ConsumerDone sum n) →
  S j ∉ asleep (mem s) not_empty →
  (∀ sum n v, c = Consuming sum n (pop_return (Some v)) → INT_MIN ≤ sum + v ≤ INT_MAX ∧ n + 1 ≤ INT_MAX) →
  can_go s.
Proof.
  destruct s as [g p cs]. simpl. intros Ho Hj Hd Ha Hfit. pose proof (i_ring _ _ I) as Hr. simpl in Hr.
  destruct c as [sum n pp|sum n]; [|by destruct (Hd sum n)].
  assert ((∃ r, pp = pop_return r) ∨ ∀ r, pp ≠ pop_return r) as [[r ->]|Hne].
  { destruct pp; try (by right); left; by eexists. }
  - destruct r as [v|].
    + destruct (Hfit sum n v eq_refl). do 2 eexists. split; [by eapply cons_steps, consumer_adds|done].
    + do 2 eexists. split; [by eapply cons_steps, consumer_returns|done].
  - destruct (pop_goes_on g (S j) pp Hr) as (a & g' & p' & Hs & Hsp); [auto..|].
    do 2 eexists. split; [by eapply cons_steps, consumer_pop|done].
Qed.

Lemma producer_goes_on :
  owner (mem s) = None → prod s ≠ ProducerDone → 0%nat ∉ asleep (mem s) not_full → can_go s.
Proof.
  destruct s as [g p cs]. simpl. intros Ho Hd Ha.
  destruct p as [i pp|pp|]; [| |done].
  - assert ((∃ n, pp = push_return n) ∨ ∀ n, pp ≠ push_return n) as [[n ->]|Hne].
    { destruct pp; try (by right); left; by eexists. }
    + destruct (decide (i + 1 < NITEMS)); do 2 eexists; (split; [by constructor; constructor|done]).
    + destruct (push_goes_on g 0 i pp) as (a & g' & p' & Hs & Hsp); [|auto..|].
      * intros ->. destruct (put_ok i (q g) (i_ring _ _ I) (i_room _ _ I i eq_refl)) as (x & Hx & _). by exists x.
      * do 2 eexists. split; [by apply prod_steps, producer_push|done].
  - destruct pp; try (do 2 eexists; (split; [apply prod_steps, producer_close; by constructor|done])).
    do 2 eexists. split; [apply prod_steps, producer_returns|done].
Qed.
End progress.

(** ** Bounds *)

(** What the consumers hold is never negative. *)
Definition nonneg (c : consumer_pc) : Prop :=
  match c with
  | Consuming sum n p => 0 ≤ sum ∧ 0 ≤ n ∧ 0 ≤ default 0 (in_flight p)
  | ConsumerDone sum n => 0 ≤ sum ∧ 0 ≤ n
  end.

Lemma pushed_nonneg tr s v : Inv tr s → v ∈ pushed tr → 0 ≤ v.
Proof. intros I. rewrite (i_pushed _ _ I). intros H%elem_of_seqZ. lia. Qed.

Lemma take_out_head x v x' : ring_wf x → count x ≠ 0 → take_out x = Some (v, x') → v ∈ contents x.
Proof.
  intros Hw Hc Ht. destruct (take_out_ok _ Hw Hc) as (v' & y & Hy & _ & E & _).
  assert (v' = v) as -> by congruence. rewrite E. by left.
Qed.

Lemma run_shape n tr s :
  run (section_condvar n) tr s → length (cons_ s) = n ∧ Forall nonneg (cons_ s).
Proof.
  induction 1 as [|tr s a s' Hrun [IHl IHn] Hs].
  - split; [apply length_replicate|]. apply Forall_replicate. done.
  - apply run_inv in Hrun as I. destruct Hs as [|g p cs j c a g' c' Hj Hc]; [done|]. simpl in *.
    split; [by rewrite length_insert|]. apply Forall_insert; [done|].
    pose proof (Forall_lookup_1 _ _ _ _ IHn Hj) as Hnn.
    inversion Hc as [? sum m pp ? ? pp' Hp| |]; subst; simpl in *; [|lia..].
    destruct Hnn as (? & ? & ?).
    inversion Hp; subst; simpl in *; try (split_and!; lia). split_and!; [done|done|].
    apply (pushed_nonneg _ _ _ I). rewrite (i_fifo _ _ I). apply elem_of_app. right.
    eapply take_out_head; [exact (i_ring _ _ I)|done|done].
Qed.

Lemma prod_pushed_range tr s : Inv tr s → 0 ≤ prod_pushed (prod s) ≤ NITEMS.
Proof.
  intros I. unfold NITEMS. destruct (prod s) as [i pp|pp|] eqn:E; [|simpl; unfold NITEMS; lia..].
  pose proof (i_item _ _ I _ _ E). unfold NITEMS in *. destruct pp; simpl; lia.
Qed.

Lemma popped_bounds tr s : Inv tr s → 0 ≤ zsum (popped tr) ≤ 190 ∧ Z.of_nat (length (popped tr)) ≤ NITEMS.
Proof.
  intros I. pose proof (prod_pushed_range _ _ I) as Hk. set (k := prod_pushed (prod s)) in *.
  assert (∀ l, (∀ v, v ∈ l → 0 ≤ v) → 0 ≤ zsum l) as Hpos.
  { intros l. induction l as [|x l IH]; intros Hl; simpl; [done|].
    pose proof (Hl x ltac:(by left)). specialize (IH (λ v Hv, Hl v ltac:(by right))). lia. }
  pose proof (i_fifo _ _ I) as Hf. pose proof (i_pushed _ _ I) as Hp. fold k in Hp.
  assert (∀ v, v ∈ popped tr → 0 ≤ v) as H1.
  { intros v Hv. apply (pushed_nonneg _ _ _ I). rewrite Hf. set_solver. }
  assert (∀ v, v ∈ contents (q (mem s)) → 0 ≤ v) as H2.
  { intros v Hv. apply (pushed_nonneg _ _ _ I). rewrite Hf. set_solver. }
  apply Hpos in H1, H2. rewrite Hp in Hf.
  assert (zsum (seqZ 0 k) ≤ 190) as Hb.
  { unfold NITEMS in Hk. assert (k = Z.of_nat (Z.to_nat k)) as -> by lia.
    assert (Z.to_nat k ≤ 20)%nat as Hn by lia. revert Hn. generalize (Z.to_nat k). intros m Hm.
    do 21 (destruct m as [|m]; [by vm_compute|]). lia. }
  rewrite Hf zsum_app in Hb. split; [lia|].
  apply (f_equal length) in Hf. rewrite length_seqZ length_app in Hf. lia.
Qed.

Lemma nonneg_sum c : nonneg c → 0 ≤ cons_sum c.
Proof. destruct c as [? ? p|]; simpl; lia. Qed.

Lemma nonneg_num c : nonneg c → 0 ≤ cons_num c.
Proof. destruct c as [? ? p|]; simpl; [|lia]. destruct (in_flight p); lia. Qed.

Lemma consumer_fits n tr s j sum m v :
  run (section_condvar n) tr s → cons_ s !! j = Some (Consuming sum m (pop_return (Some v))) →
  INT_MIN ≤ sum + v ≤ INT_MAX ∧ m + 1 ≤ INT_MAX.
Proof.
  intros Hr Hj. pose proof (run_inv _ _ _ Hr) as I. pose proof (run_shape _ _ _ Hr) as [_ Hn].
  pose proof (popped_bounds _ _ I) as [Hs Hl].
  destruct (zsum_bounds cons_sum (cons_ s) j _ (Forall_impl _ _ _ Hn nonneg_sum) Hj) as [H1 H2].
  destruct (zsum_bounds cons_num (cons_ s) j _ (Forall_impl _ _ _ Hn nonneg_num) Hj) as [H3 H4].
  rewrite (i_sum _ _ I) in H2. rewrite (i_num _ _ I) in H4. simpl in *.
  unfold INT_MIN, INT_MAX, NITEMS in *. lia.
Qed.

(** Every consumer is finished or asleep, or one of them is neither. *)
Lemma awake_or_not (A : gset nat) (cs : list consumer_pc) :
  (∃ j c, cs !! j = Some c ∧ (∀ sum n, c ≠ ConsumerDone sum n) ∧ S j ∉ A) ∨
  (∀ j c, cs !! j = Some c → (∃ sum n, c = ConsumerDone sum n) ∨ S j ∈ A).
Proof.
  assert (∀ k, (∃ j c, cs !! j = Some c ∧ (∀ sum n, c ≠ ConsumerDone sum n) ∧ S j ∉ A) ∨
    (∀ j c, (j < k)%nat → cs !! j = Some c → (∃ sum n, c = ConsumerDone sum n) ∨ S j ∈ A)) as H.
  { induction k as [|k [IH|IH]]; [right; lia|by left|].
    destruct (cs !! k) as [c|] eqn:Hk.
    - destruct (decide (S k ∈ A)) as [Hin|Hin].
      + right. intros j x Hjk Hj. destruct (decide (j = k)) as [->|]; [by right|]. apply IH; [lia|done].
      + destruct c as [sum n pp|sum n].
        * left. exists k, (Consuming sum n pp). done.
        * right. intros j x Hjk Hj. destruct (decide (j = k)) as [->|]; [|apply IH; [lia|done]].
          left. exists sum, n. congruence.
    - right. intros j x Hjk Hj. apply IH; [|done]. destruct (decide (j = k)) as [->|]; [congruence|lia]. }
  destruct (H (length cs)) as [?|H']; [by left|]. right. intros j c Hj. apply H'; [|done].
  by apply lookup_lt_Some in Hj.
Qed.

Lemma progress n tr s : (0 < n)%nat → run (section_condvar n) tr s → all_done s ∨ can_go s.
Proof.
  intros Hn Hr. pose proof (run_inv _ _ _ Hr) as I. pose proof (run_shape _ _ _ Hr) as [Hlen _].
  destruct (owner (mem s)) as [t|] eqn:Ho; [right; by eapply owner_goes_on|].
  destruct (awake_or_not (asleep (mem s) not_empty) (cons_ s)) as [(j & c & Hj & Hd & Ha)|Hall].
  { right. eapply consumer_goes_on; try done. intros sum m v ->. by eapply consumer_fits. }
  destruct (decide (0%nat ∈ asleep (mem s) not_full)) as [Hs|Hs].
  - (* the producer asleep *) exfalso.
    destruct (i_sleeps_full _ _ I _ Hs) as [_ [i Hp]].
    assert (count (q (mem s)) = QCAP) as Hc.
    { destruct (i_wait_full _ _ I Hs) as [?|(j & sum & m & v & Hj)]; [done|].
      assert (owner (mem s) = Some (S j)); [|congruence]. apply (i_owner _ _ I). simpl. by rewrite Hj. }
    destruct (lookup_lt_is_Some_2 (cons_ s) 0) as [c0 Hc0]; [lia|].
    destruct (Hall 0%nat c0 Hc0) as [(sum & m & ->)|Hin].
    + destruct (i_over _ _ I _ _ Hc0 eq_refl). rewrite Hc in H. done.
    + destruct (i_wait_empty _ _ I) as [(k & c & Hk & Ha & Hact)|(i' & m & Hp')]; [set_solver|by rewrite Hc| |congruence].
      destruct (Hall k c Hk) as [(sum & m & ->)|?]; done.
  - destruct (decide (prod s = ProducerDone)) as [Hp|Hp]; [|right; by eapply producer_goes_on].
    left. split; [done|]. intros c [j Hj]%list_elem_of_lookup.
    destruct (Hall j c Hj) as [?|Hin]; [done|exfalso].
    pose proof (i_closed _ _ I) as Hcl. rewrite Hp in Hcl. simpl in Hcl.
    assert (prod s = Closing close_broadcast); [|congruence].
    apply (i_wait_closed _ _ I); [set_solver|by rewrite Hcl].
Qed.

(** ** Termination

    A measure that every step decreases, except a spurious wakeup.  A thread that sleeps
    weighs less than one that was woken; a signal and the broadcast pay for the threads
    they wake, [bq_push] for the element it puts, which pays for its [bq_pop]. *)

Definition push_weight (A : gset nat) (t n : nat) (p : push_pc) : Z :=
  match p with
  | push_lock => 6 | push_loop => 5 | push_body => 4
  | push_asleep => if decide (t ∈ A) then 1 else 7
  | push_signal _ => 10 + 7 * n | push_unlock _ => 9 | push_return _ => 8
  end.

Definition producer_weight (A : gset nat) (n : nat) (p : producer_pc) : Z :=
  match p with
  | Producing i p => (NITEMS - prod_pushed (Producing i p)) * (100 + 10 * n) + 7 * n + 10 + push_weight A 0 n p
  | Closing close_lock => 7 * n + 9
  | Closing close_set => 7 * n + 8
  | Closing close_broadcast => 7 * n + 7
  | Closing close_unlock => 2
  | Closing close_return => 1
  | ProducerDone => 0
  end.

Definition consumer_weight (A : gset nat) (j : nat) (c : consumer_pc) : Z :=
  match c with
  | Consuming _ _ p =>
    match p with
    | pop_lock => 6 | pop_loop => 5 | pop_body => 4 | pop_empty => 3
    | pop_asleep => if decide (S j ∈ A) then 1 else 7
    | pop_signal _ => 20 | pop_unlock _ => 9 | pop_return (Some _) => 8 | pop_return None => 2
    end
  | ConsumerDone _ _ => 0
  end.

Definition consumers_weight (A : gset nat) (cs : list consumer_pc) : Z := zsum (imap (consumer_weight A) cs).

Definition weight (s : system) : Z :=
  producer_weight (asleep (mem s) not_full) (length (cons_ s)) (prod s) +
  consumers_weight (asleep (mem s) not_empty) (cons_ s) + 40 * count (q (mem s)).

Lemma consumers_weight_insert A cs j c c' :
  cs !! j = Some c →
  consumers_weight A (<[j:=c']> cs) = consumers_weight A cs - consumer_weight A j c + consumer_weight A j c'.
Proof. apply zsum_imap_insert. Qed.

Lemma consumers_weight_any A A' cs : consumers_weight A' cs ≤ consumers_weight A cs + 6 * length cs.
Proof. apply zsum_imap_le. intros j [? ? []|]; simpl; repeat case_decide; lia. Qed.

Lemma consumers_weight_more A A' cs : A ⊆ A' → consumers_weight A' cs ≤ consumers_weight A cs.
Proof.
  intros HA. rewrite -(Z.add_0_r (consumers_weight A cs)) -(Z.mul_0_l (length cs)). apply zsum_imap_le.
  intros j [? ? []|]; simpl; repeat case_decide; set_solver by lia.
Qed.

Lemma consumers_weight_nonneg A cs : 0 ≤ consumers_weight A cs.
Proof. apply zsum_imap_nonneg. intros j [? ? [| | | | | | |[]]|]; simpl; try case_decide; lia. Qed.

Lemma producer_weight_any A A' n p : producer_weight A' n p ≤ producer_weight A n p + 6.
Proof. destruct p as [i []|[]|]; simpl; repeat case_decide; lia. Qed.

Lemma put_count v x x' : put v x = Some x' → count x' = count x + 1.
Proof. unfold put. intros H. case_match; [|done]. by injection H as <-. Qed.

Lemma take_out_count v x x' : take_out x = Some (v, x') → count x' = count x - 1.
Proof.
  unfold take_out. intros H. case_match; [|done]. simpl in H. destruct (data x !! _); [|done]. by injection H as <- <-.
Qed.

(** What a step may add: nothing, or what a thread that wakes up by itself needs. *)
Definition allowance (n : nat) (a : act) : Z := match a with Spurious => 6 * n + 7 | _ => 0 end.

Lemma step_weight tr s a s' :
  Inv tr s → step s a s' → weight s' + 1 ≤ weight s + allowance (length (cons_ s)) a.
Proof.
  intros I Hs. destruct Hs as [g p cs a g' p' Hp|g p cs j c a g' c' Hj Hc];
    unfold weight; cbn [mem prod cons_].
  - pose proof (i_item _ _ I) as Hi. cbn [prod] in Hi.
    inversion Hp as [? i pp ? ? pp' Hpp|? i m Hm|? i m Hm|? pp ? ? pp' Hpp|?]; subst.
    + specialize (Hi _ _ eq_refl). unfold NITEMS in Hi.
      inversion Hpp; subst; cbn [producer_weight push_weight prod_pushed allowance q asleep set_owner set_asleep set_q sleep wake unlock];
        unfold NITEMS; repeat (rewrite decide_True; [|done]); repeat case_decide; try done; try lia.
      all: try (pose proof (put_count _ _ _ H)); try set_solver; try lia.
      pose proof (consumers_weight_any (asleep g not_empty) (asleep g not_empty ∖ woken) cs). lia.
    + specialize (Hi _ _ eq_refl). simpl. unfold NITEMS. lia.
    + specialize (Hi _ _ eq_refl). simpl. unfold NITEMS in *. assert (i = 19) as -> by lia. lia.
    + inversion Hpp; subst; simpl; try lia.
      pose proof (consumers_weight_any (asleep g not_empty) (asleep g not_empty ∖ asleep g not_empty) cs). lia.
    + simpl. lia.
  - rewrite length_insert (consumers_weight_insert _ _ _ c c') //.
    inversion Hc as [? sum m pp ? ? pp' Hpp|? sum m v Hb Hb'|? sum m]; subst; [|simpl; lia..].
    inversion Hpp; subst; cbn [consumer_weight allowance q asleep set_owner set_asleep set_q sleep wake unlock];
      repeat case_decide; try done; try lia.
    all: try (pose proof (take_out_count _ _ _ H0)); try set_solver; try lia.
    + pose proof (consumers_weight_more (asleep g not_empty) ({[S j]} ∪ asleep g not_empty) cs (union_subseteq_r _ _)). lia.
    + pose proof (consumers_weight_any (asleep g not_empty) (asleep g not_empty ∖ {[S j]}) cs). lia.
    + pose proof (producer_weight_any (asleep g not_full) (asleep g not_full ∖ woken) (length cs) p). lia.
Qed.

Definition spurious (tr : list act) : Z := zsum (map (λ a, match a with Spurious => 1 | _ => 0 end) tr).

Lemma spurious_snoc tr a : spurious (tr ++ [a]) = spurious tr + match a with Spurious => 1 | _ => 0 end.
Proof. unfold spurious. rewrite map_app zsum_app. simpl. lia. Qed.

Lemma weight_init n : weight (section_condvar n) = 2016 + 213 * n.
Proof.
  unfold weight, section_condvar, NITEMS. cbn [mem prod cons_ asleep q bq_init count]. rewrite length_replicate.
  assert (∀ f : nat → consumer_pc → Z, (∀ j, f j (Consuming 0 0 pop_lock) = 6) →
    zsum (imap f (replicate n (Consuming 0 0 pop_lock))) = 6 * n) as H.
  { induction n as [|n IH]; intros f Hf; [done|]. cbn [replicate imap zsum foldr].
    specialize (IH (f ∘ S) (λ j, Hf (S j))). rewrite Hf. unfold zsum in IH. lia. }
  unfold consumers_weight. rewrite H //. simpl. unfold NITEMS. lia.
Qed.

Lemma weight_nonneg tr s : Inv tr s → 0 ≤ weight s.
Proof.
  intros I. pose proof (consumers_weight_nonneg (asleep (mem s) not_empty) (cons_ s)).
  destruct (i_ring _ _ I) as (_ & _ & Hc & _). pose proof (prod_pushed_range _ _ I) as Hp.
  unfold weight. destruct (prod s) as [i []|[]|]; simpl in *; try case_decide; unfold NITEMS in *; nia.
Qed.

Lemma run_weight n tr s :
  run (section_condvar n) tr s → weight s + length tr ≤ 2016 + 213 * n + (6 * n + 7) * spurious tr.
Proof.
  induction 1 as [|tr s a s' Hrun IH Hs]; [rewrite weight_init /spurious /=; lia|].
  pose proof (run_inv _ _ _ Hrun) as I. pose proof (run_shape _ _ _ Hrun) as [Hl _].
  pose proof (step_weight _ _ _ _ I Hs) as Hw. rewrite Hl in Hw.
  rewrite length_app spurious_snoc. destruct a; simpl in *; lia.
Qed.

(** ** What the queue promises *)

Lemma push_size n tr s v k : run (section_condvar n) tr s → Pushed v k ∈ tr → 1 ≤ k ≤ QCAP.
Proof.
  induction 1 as [|tr s a s' Hrun IH Hs]; [by intros ?%elem_of_nil|].
  rewrite elem_of_app list_elem_of_singleton. intros [?|<-]; [by apply IH|]. apply run_inv in Hrun as I.
  inversion Hs as [? ? ? ? ? ? Hp|? ? ? ? ? ? ? ? ? Hc]; subst.
  - inversion Hp as [? ? ? ? ? ? Hpp| | |? ? ? ? ? Hpp|]; subst; inversion Hpp; subst.
    destruct (put_ok v (q g) (i_ring _ _ I)) as (x' & Hx & (_ & _ & Hw & _) & _ & _ & Hc).
    { by eapply (i_room _ _ I). }
    assert (x' = x) as -> by congruence. destruct (i_ring _ _ I) as (_ & _ & ? & _). simpl in *. unfold QCAP. lia.
  - inversion Hc as [? ? ? ? ? ? ? Hpp| |]; subst; inversion Hpp.
Qed.

(** When all threads have returned, everything has been handed over. *)
Lemma all_done_totals n tr s :
  (0 < n)%nat → run (section_condvar n) tr s → all_done s →
  popped tr = seqZ 0 NITEMS ∧ zsum (cons_sum <$> cons_ s) = 190 ∧ zsum (cons_num <$> cons_ s) = NITEMS.
Proof.
  intros Hn Hr [Hp Hc]. apply run_inv in Hr as I. destruct (run_shape _ _ _ Hr) as [Hl _].
  destruct (lookup_lt_is_Some_2 (cons_ s) 0) as [c Hc0]; [lia|].
  destruct (Hc c) as (sum & m & ->); [by eapply list_elem_of_lookup_2|].
  destruct (i_over _ _ I _ _ Hc0 eq_refl) as [H0 _].
  pose proof (i_fifo _ _ I) as Hf. rewrite (i_pushed _ _ I) Hp in Hf.
  assert (contents (q (mem s)) = []) as E.
  { apply length_zero_iff_nil. rewrite contents_length H0. done. }
  rewrite E app_nil_r /= in Hf. rewrite (i_sum _ _ I) (i_num _ _ I) -Hf. done.
Qed.

(** Without further spurious wakeups every run is carried to its end. *)
Lemma can_finish n tr s :
  (0 < n)%nat → run (section_condvar n) tr s →
  ∃ tr' s', run s tr' s' ∧ Forall (λ a, a ≠ Spurious) tr' ∧ all_done s'.
Proof.
  intros Hn. apply (run_ends _ _ _ _ weight); clear tr s.
  - intros tr s Hr. by eapply weight_nonneg, run_inv.
  - intros tr s a s' Hr Hs Ha. pose proof (step_weight _ _ _ _ (run_inv _ _ _ Hr) Hs).
    destruct a; simpl in *; lia || done.
  - intros tr s Hr. by eapply progress.
Qed.

(** C13. Safety of the bounded queue, for any number of consumers and any interleaving,
    spurious wakeups included: at most one thread is between its lock and its unlock; the
    count stays between 0 and the capacity and every size reported for a push is between
    1 and the capacity; what was pushed is, in order, what was popped followed by what
    the ring holds; the items pushed are 0, 1, ... in order; and no sleeper is counted
    that is not at its [pthread_cond_wait]. *)
Theorem bounded_queue_safe (n : nat) tr s :
  run (section_condvar n) tr s →
  (∀ t t', inside (prod s) (cons_ s) t = true → inside (prod s) (cons_ s) t' = true → t = t') ∧
  0 ≤ count (q (mem s)) ≤ QCAP ∧
  (∀ v k, Pushed v k ∈ tr → 1 ≤ k ≤ QCAP) ∧
  pushed tr = popped tr ++ contents (q (mem s)) ∧
  (∃ k, 0 ≤ k ≤ NITEMS ∧ pushed tr = seqZ 0 k) ∧
  (∀ t, t ∈ asleep (mem s) not_full → t = 0%nat ∧ ∃ i, prod s = Producing i push_asleep) ∧
  (∀ t, t ∈ asleep (mem s) not_empty → ∃ j sum m, t = S j ∧ cons_ s !! j = Some (Consuming sum m pop_asleep)).
Proof.
  intros Hr. apply run_inv in Hr as I. split_and!.
  - intros t t'. by eapply inside_unique.
  - apply (i_ring _ _ I).
  - apply (i_ring _ _ I).
  - intros v k. by eapply push_size.
  - apply (i_fifo _ _ I).
  - exists (prod_pushed (prod s)). split; [by eapply prod_pushed_range|apply (i_pushed _ _ I)].
  - apply (i_sleeps_full _ _ I).
  - apply (i_sleeps_empty _ _ I).
Qed.

(** C14. Liveness of the producer and its consumers, for at least one consumer: a system
    that has not finished can always take a step that is not a spurious wakeup (no lost
    wakeup, no deadlock, no undefined behaviour); a run is no longer than a bound in the
    number of consumers and of spurious wakeups, so that every run ends unless it wakes
    up spuriously for ever; it can be carried to its end from every state; and at the end
    the items 0 to 19 have been popped in order, with 190 as the total of the consumers'
    sums and 20 as that of their counts. *)
Theorem producer_consumer_live (n : nat) tr s :
  (0 < n)%nat → run (section_condvar n) tr s →
  (all_done s ∨ ∃ a s', step s a s' ∧ a ≠ Spurious) ∧
  length tr ≤ 2016 + 213 * n + (6 * n + 7) * spurious tr ∧
  (∃ tr' s', run s tr' s' ∧ Forall (λ a, a ≠ Spurious) tr' ∧ all_done s') ∧
  (all_done s →
     popped tr = seqZ 0 NITEMS ∧ zsum (cons_sum <$> cons_ s) = 190 ∧ zsum (cons_num <$> cons_ s) = NITEMS).
Proof.
  intros Hn Hr. split_and!; [by eapply progress| |by eapply can_finish|by apply (all_done_totals n)].
  pose proof (run_weight _ _ _ Hr). pose proof (weight_nonneg _ _ (run_inv _ _ _ Hr)). lia.
Qed.

(** A run of the two consumers of the program: the first consumer falls asleep, the
    producer pushes 0 and wakes it. *)

Lemma bounded_queue_safe_witness :
  ∃ s, run (section_condvar 2) [Tau; Tau; Tau; Tau; Pushed 0 1] s ∧ 0 ≤ count (q (mem s)) ≤ QCAP.
Proof.
  assert (∃ s, run (section_condvar 2) [Tau; Tau; Tau; Tau; Pushed 0 1] s) as [s Hs].
  { eexists. eapply (run_step _ _ [Tau; Tau; Tau; Tau]).
    { eapply (run_step _ _ [Tau; Tau; Tau]).
      { eapply (run_step _ _ [Tau; Tau]).
        { eapply (run_step _ _ [Tau]).
          { eapply (run_step _ _ []); [apply run_start|].
            eapply (cons_steps _ _ _ 0); [done|]. apply consumer_pop, pop_locks. done. }
          eapply (cons_steps _ _ _ 0); [done|]. apply consumer_pop, pop_waits. done. }
        apply prod_steps, producer_push, push_locks. done. }
      apply prod_steps, producer_push, push_goes. done. }
    apply prod_steps, producer_push, (push_puts _ _ _ {| data := [0; 0; 0; 0; 0; 0; 0; 0]; head := 0; tail := 1; count := 1; closed := 0 |}). done. }
  exists s. split; [exact Hs|]. apply (bounded_queue_safe 2 _ s Hs).
Defined.

Lemma producer_consumer_live_witness :
  (0 < 2)%nat ∧ ∃ tr s, run (section_condvar 2) tr s ∧ all_done s ∧ popped tr = seqZ 0 20.
Proof.
  split; [lia|].
  destruct (producer_consumer_live 2 [] (section_condvar 2) ltac:(lia) (run_start _ _)) as (_ & _ & (tr & s & Hr & _ & Hd) & _).
  exists tr, s. split_and!; [exact Hr|exact Hd|].
  destruct (producer_consumer_live 2 tr s ltac:(lia) Hr) as (_ & _ & _ & Ht).
  destruct (Ht Hd) as [Hp _]. exact Hp.
Defined.
