(* ===== verification/Threads.v ===== *)
(** * Exercise 24: threads

    Model of [exercises/24_threads/threads.c] apart from the bounded queue, which is in
    BoundedQueue.  The sections with shared state are systems of threads that interleave
    (see Interleave); the workers of section 1 share only the allocator and run in any
    order between their creation and their [pthread_join]. *)

From S2P Require Import Prelude Machine CString Double Printf SepLogic Pure Interleave Races BoundedQueue.
#[local] Open Scope Z_scope.

Definition NTHREADS : nat := 4.
Definition ITERS : Z := 500000.

(** [printf] of the main thread and of the threads. *)
Definition say (fmt : string) (args : list parg) : ev := Out (default ""%string (format fmt args)).

(** ** Section 2: the race

    [g_unsafe++] reads the variable and writes it, as the comment of the section says.  The
    steps serve to find the data race: an execution that has one is undefined, and nothing
    is said about the value it leaves or prints. *)

Inductive unsafe_pc := u_loop (i : Z) | u_store (i v : Z) | u_done.

Inductive unsafe_inc : Z → unsafe_pc → list ev → Z → unsafe_pc → Prop :=
  | unsafe_loads g_unsafe i : i < ITERS → unsafe_inc g_unsafe (u_loop i) [] g_unsafe (u_store i g_unsafe)
  | unsafe_stores g_unsafe i v : LONG_MIN ≤ v + 1 ≤ LONG_MAX → unsafe_inc g_unsafe (u_store i v) [] (v + 1) (u_loop (i + 1))
  | unsafe_returns g_unsafe i : ¬ i < ITERS → unsafe_inc g_unsafe (u_loop i) [] g_unsafe u_done.

Definition u_returned (p : unsafe_pc) : bool := match p with u_done => true | _ => false end.

(** What the steps of a thread are to [g_unsafe]. *)
Definition u_does (p p' : unsafe_pc) : memory_event :=
  match p, p' with u_loop _, u_store _ _ => Reads | u_store _ _, _ => Writes | _, _ => Other end.

Definition expected : Z := Z.of_nat NTHREADS * ITERS.

Definition race_report (g_unsafe : Z) : list ev :=
  [say "  expected: %ld\n" [AInt expected]; say "  actual:   %ld\n" [AInt g_unsafe];
   if g_unsafe =? expected
   then say "  (got lucky — no race observed; try again or add more threads)\n" []
   else say "  lost %ld increments to the race\n" [AInt (expected - g_unsafe)];
   say "\n" []].

Definition race_step : pool Z unsafe_pc → list ev * event → pool Z unsafe_pc → Prop :=
  traced_step (λ _, unsafe_inc) NTHREADS (λ _, u_loop 0) u_returned [say "=== 2. Race condition ===\n" []] race_report u_does.
Definition section_race : pool Z unsafe_pc := fj_init 0.

(** ** Section 3: the mutex *)

Record guarded := { g_safe : Z; g_mutex : option nat }.

Inductive safe_pc := s_loop (i : Z) | s_load (i : Z) | s_store (i v : Z) | s_unlock (i : Z) | s_done.

Inductive safe_inc (t : nat) : guarded → safe_pc → list ev → guarded → safe_pc → Prop :=
  | safe_locks x i : i < ITERS → g_mutex x = None →
      safe_inc t x (s_loop i) [] {| g_safe := g_safe x; g_mutex := Some t |} (s_load i)
  | safe_loads x i : safe_inc t x (s_load i) [] x (s_store i (g_safe x))
  | safe_stores x i v : LONG_MIN ≤ v + 1 ≤ LONG_MAX →
      safe_inc t x (s_store i v) [] {| g_safe := v + 1; g_mutex := g_mutex x |} (s_unlock i)
  | safe_unlocks x i : safe_inc t x (s_unlock i) [] {| g_safe := g_safe x; g_mutex := None |} (s_loop (i + 1))
  | safe_returns x i : ¬ i < ITERS → safe_inc t x (s_loop i) [] x s_done.

Definition s_returned (p : safe_pc) : bool := match p with s_done => true | _ => false end.

(** And to [g_safe] and its mutex. *)
Definition s_does (p p' : safe_pc) : memory_event :=
  match p, p' with
  | s_loop _, s_load _ => Acquires | s_load _, _ => Reads | s_store _ _, _ => Writes | s_unlock _, _ => Releases | _, _ => Other
  end.

Definition mutex_report (x : guarded) : list ev :=
  [say "  expected: %ld\n" [AInt expected]; say "  actual:   %ld\n" [AInt (g_safe x)];
   say "  correct:  %s\n" [AStr (if (g_safe x =? expected)%Z then "yes" else "NO — bug!")%string]; say "\n" []].

Definition mutex_step : pool guarded safe_pc → list ev → pool guarded safe_pc → Prop :=
  fj_step safe_inc NTHREADS (λ _, s_loop 0) s_returned [say "=== 3. Mutex ===\n" []] mutex_report.
Definition mutex_traced : pool guarded safe_pc → list ev * event → pool guarded safe_pc → Prop :=
  traced_step safe_inc NTHREADS (λ _, s_loop 0) s_returned [say "=== 3. Mutex ===\n" []] mutex_report s_does.
Definition section_mutex : pool guarded safe_pc := fj_init {| g_safe := 0; g_mutex := None |}.

(** ** Section 6: two locks in one order *)

Record locks := { lock_a : option nat; lock_b : option nat }.

Inductive order_pc := o_lock_a | o_lock_b | o_print | o_unlock_b | o_unlock_a | o_done.

#[export] Instance order_pc_eq_dec : EqDecision order_pc.
Proof. solve_decision. Defined.

Definition holds_line (id : nat) : ev := say "  thread %d: holds A and B\n" [AInt (Z.of_nat id)].

(** Thread [t]; [ids[t] = t]. *)
Inductive safe_order (t : nat) : locks → order_pc → list ev → locks → order_pc → Prop :=
  | order_locks_a x : lock_a x = None →
      safe_order t x o_lock_a [] {| lock_a := Some t; lock_b := lock_b x |} o_lock_b
  | order_locks_b x : lock_b x = None →
      safe_order t x o_lock_b [] {| lock_a := lock_a x; lock_b := Some t |} o_print
  | order_prints x : safe_order t x o_print [holds_line t] x o_unlock_b
  | order_unlocks_b x : safe_order t x o_unlock_b [] {| lock_a := lock_a x; lock_b := None |} o_unlock_a
  | order_unlocks_a x : safe_order t x o_unlock_a [] {| lock_a := None; lock_b := lock_b x |} o_done.

Definition o_returned (p : order_pc) : bool := match p with o_done => true | _ => false end.

Definition pitfalls_report (_ : locks) : list ev :=
  (λ fmt, say fmt []) <$>
  ["  lock ordering OK — no deadlock\n"; "\n  Pitfall summary:\n";
   "  DEADLOCK:  thread A holds lock1, waits for lock2;\n";
   "             thread B holds lock2, waits for lock1.\n";
   "  FIX:       always acquire locks in the same global order.\n"; "\n";
   "  SPURIOUS WAKEUP: cond_wait returns without a signal.\n";
   "  FIX:       use while(!condition) cond_wait, never if.\n"; "\n";
   "  STACK RETURN: returning &local_var from thread fn.\n";
   "  FIX:       heap-allocate the result; caller frees it.\n"; "\n"]%string.

Definition pitfalls_step : pool locks order_pc → list ev → pool locks order_pc → Prop :=
  fj_step safe_order 2 (λ _, o_lock_a) o_returned [say "=== 6. Pitfalls ===\n" []] pitfalls_report.
Definition section_pitfalls : pool locks order_pc := fj_init {| lock_a := None; lock_b := None |}.

(** ** The race *)

(** The stores a thread has made. *)
Definition u_stores (p : unsafe_pc) : Z :=
  match p with u_loop i => i | u_store i _ => i | u_done => ITERS end.

(** What a thread has loaded is at most the number [total] of stores made, so that the
    additions do not overflow. *)
Definition u_wf (total : Z) (p : unsafe_pc) : Prop :=
  match p with
  | u_loop i => 0 ≤ i ≤ ITERS
  | u_store i v => 0 ≤ i < ITERS ∧ 0 ≤ v ≤ total
  | u_done => True
  end.

Definition race_inv (o : list ev) (g : Z) (ps : list unsafe_pc) : Prop :=
  let total := zsum (u_stores <$> ps) in
  o = [] ∧ (length ps ≤ NTHREADS)%nat ∧ Forall (u_wf total) ps ∧ 0 ≤ g ≤ total.

Lemma u_stores_range total p : u_wf total p → 0 ≤ u_stores p ≤ ITERS.
Proof. destruct p; simpl; unfold ITERS; lia. Qed.

Lemma u_wf_mono total total' p : total ≤ total' → u_wf total p → u_wf total' p.
Proof. destruct p; simpl; lia. Qed.

Lemma race_total ps total : Forall (u_wf total) ps → zsum (u_stores <$> ps) ≤ length ps * ITERS.
Proof.
  induction 1 as [|p ps Hp Hps IH]; [simpl; lia|]. apply u_stores_range in Hp.
  change (u_stores p + zsum (u_stores <$> ps) ≤ S (length ps) * ITERS). lia.
Qed.

Lemma race_inv_create o g ps : race_inv o g ps → (length ps < NTHREADS)%nat → race_inv o g (ps ++ [u_loop 0]).
Proof.
  intros (-> & Hl & Hw & Hg) Hn. unfold race_inv.
  assert (zsum (u_stores <$> ps ++ [u_loop 0]) = zsum (u_stores <$> ps)) as ->.
  { rewrite fmap_app zsum_app. simpl. lia. }
  split_and!; try done; try lia.
  - rewrite length_app /=. unfold NTHREADS in *. lia.
  - apply Forall_app. split; [done|]. apply Forall_singleton. simpl. unfold ITERS. lia.
Qed.

Lemma race_inv_step o g ps (j : nat) p a g' p' :
  race_inv o g ps → ps !! j = Some p → unsafe_inc g p a g' p' → race_inv (o ++ a) g' (<[j:=p']> ps).
Proof.
  intros (-> & Hl & Hw & Hg) Hj Hs. pose proof (Forall_lookup_1 _ _ _ _ Hw Hj) as Hp.
  unfold race_inv. rewrite (zsum_insert u_stores _ _ _ _ Hj) length_insert.
  inversion Hs as [? i Hi|? i v Hv|? i Hi]; subst; simpl in *.
  - replace (_ - i + i) with (zsum (u_stores <$> ps)) by lia. split_and!; try done; try lia.
    apply Forall_insert; [done|]. simpl. lia.
  - replace (_ - i + (i + 1)) with (zsum (u_stores <$> ps) + 1) by lia. split_and!; try done; try lia.
    apply Forall_insert; [|simpl; lia]. eapply Forall_impl; [exact Hw|]. intros q. apply u_wf_mono. lia.
  - assert (i = ITERS) as -> by lia.
    replace (_ - ITERS + ITERS) with (zsum (u_stores <$> ps)) by lia. split_and!; try done; try lia.
    apply Forall_insert; done.
Qed.

Definition u_weight (p : unsafe_pc) : Z :=
  match p with u_loop i => Z.max 0 (2 * (ITERS - i)) + 1 | u_store i _ => Z.max 0 (2 * (ITERS - i)) | u_done => 0 end.

Lemma u_weight_step g p a g' p' total : u_wf total p → unsafe_inc g p a g' p' → u_weight p' + 1 ≤ u_weight p.
Proof. intros Hw Hs. inversion Hs; subst; simpl in *; lia. Qed.

Lemma race_thread_progress o g ps : race_inv o g ps →
  (∀ j p, ps !! j = Some p → u_returned p = true) ∨ ∃ j p a g' p', ps !! j = Some p ∧ unsafe_inc g p a g' p'.
Proof.
  intros (_ & Hl & Hw & Hg & _). pose proof (race_total _ _ Hw) as Ht.
  destruct (all_or_one u_returned ps) as [?|(j & p & Hj & Hp)]; [by left|right].
  pose proof (Forall_lookup_1 _ _ _ _ Hw Hj) as Hwp. destruct p as [i|i v|]; [| |done].
  - destruct (decide (i < ITERS)); do 5 eexists; (split; [exact Hj|by constructor]).
  - do 5 eexists. split; [exact Hj|]. constructor. simpl in Hwp. unfold NTHREADS, ITERS, LONG_MIN, LONG_MAX in *. lia.
Qed.

Lemma u_returned_stays (j : nat) g p a g' p' : unsafe_inc g p a g' p' → u_returned p = false.
Proof. by destruct 1. Qed.

Lemma race_inv_thread o g ps (j : nat) p a g' p' :
  race_inv o g ps → ps !! j = Some p → unsafe_inc g p a g' p' → u_weight p' + 1 ≤ u_weight p.
Proof. intros (_ & _ & Hw & _) Hj. eapply u_weight_step, Forall_lookup_1; done. Qed.

Lemma race_inv_init : race_inv [] 0 [].
Proof. unfold race_inv. split_and!; simpl; try done; try lia. Qed.

(** A program whose threads are those of section 2. *)
Section racing.
Context (header : list ev) (report : Z → list ev).
Notation step := (fj_step (λ _, unsafe_inc) NTHREADS (λ _, u_loop 0) u_returned header report).
Notation tstep := (traced_step (λ _, unsafe_inc) NTHREADS (λ _, u_loop 0) u_returned header report u_does).

(** A thread that has gone through its loop has written. *)
Lemma trace_writes tr s : run tstep (fj_init 0) tr s →
  ∀ j p, pcs s !! j = Some p → 1 ≤ u_stores p → ∃ i, tr.*2 !! i = Some (Thread j Writes).
Proof.
  induction 1 as [|tr s l s' Hr IH Hs]; [done|]. rewrite fmap_app.
  assert (∀ j p, pcs s !! j = Some p → 1 ≤ u_stores p → ∃ i, (tr.*2 ++ [l].*2) !! i = Some (Thread j Writes)) as Hold.
  { intros j p Hj Hp. destruct (IH j p Hj Hp) as [i Hi]. exists i. by apply lookup_app_l_Some. }
  destruct Hs as [| | | | |g ps m j p a g' p' Hp Ht]; cbn [pcs] in *; try exact Hold.
  - intros j p [[_ Hj]|[_ <-]]%lookup_snoc_Some; [by eapply Hold|]. simpl. lia.
  - intros k q [(-> & <- & _)|[_ Hk]]%list_lookup_insert_Some Hq; [|by eapply Hold].
    inversion Ht; subst; try (eapply Hold; [exact Hp|simpl in *; lia]).
    exists (length tr). rewrite lookup_app_r length_fmap // Nat.sub_diag. done.
Qed.

Lemma two_done tr s : run tstep (fj_init 0) tr s → fj_ended s →
  pcs s !! 0%nat = Some u_done ∧ pcs s !! 1%nat = Some u_done.
Proof.
  intros Hr He.
  destruct (fj_final _ _ _ _ _ _ _ race_inv race_inv_init (λ o g ps H _, race_inv_create o g ps H ltac:(done))
    race_inv_step u_returned_stays _ _ (run_untraced _ _ _ _ _ _ _ _ _ _ Hr) He) as (o & _ & _ & Hl & Hret).
  assert (∀ j, (j < 4)%nat → pcs s !! j = Some u_done) as Hj; [|split; apply Hj; lia].
  intros j Hj. destruct (lookup_lt_is_Some_2 (pcs s) j) as [p Hp]; [by rewrite Hl|]. rewrite Hp.
  pose proof (Forall_lookup_1 _ _ _ _ Hret Hp). by destruct p.
Qed.

(** Every execution that comes to its end has a data race. *)
Lemma unsafe_races tr s : run tstep (fj_init 0) tr s → fj_ended s → data_race tr.*2.
Proof.
  intros Hr He. destruct (two_done _ _ Hr He) as [H0 H1].
  destruct (trace_writes _ _ Hr 0%nat _ H0) as [i Hi]; [done|]. destruct (trace_writes _ _ Hr 1%nat _ H1) as [j Hj]; [done|].
  eapply (two_threads_race _ _ _ _ _ _ _); [|exact Hr| |exact Hi|exact Hj|done]; [|done]. by intros [] [].
Qed.

(** And every execution can be carried there. *)
Lemma unsafe_comes_to_race tr s : run tstep (fj_init 0) tr s → ∃ tr' s', run tstep s tr' s' ∧ data_race (tr ++ tr').*2.
Proof.
  intros Hr. assert (∀ p, 0 ≤ u_weight p) as Hw by (intros []; simpl; lia).
  assert (nat → u_weight (u_loop 0) ≤ 2 * ITERS + 1) as Hb by (intros _; simpl; unfold ITERS; lia).
  destruct (fj_ends _ _ _ _ header report _ race_inv race_inv_init (λ o g ps H _, race_inv_create o g ps H ltac:(done))
      race_inv_step u_returned_stays u_weight (2 * ITERS + 1) Hw Hb race_inv_thread race_thread_progress _ _
      (run_untraced _ _ _ _ _ _ _ _ _ _ Hr)) as (os & s' & Ho & He).
  destruct (run_traced _ _ _ _ _ _ u_does _ _ _ Ho) as (tr' & Ht & _). exists tr', s'. split; [done|].
  eapply unsafe_races; [by eapply run_app|done].
Qed.
End racing.

(** ** The mutex *)

Definition s_stores (p : safe_pc) : Z :=
  match p with s_loop i | s_load i | s_store i _ => i | s_unlock i => i + 1 | s_done => ITERS end.

Definition s_wf (p : safe_pc) : Prop :=
  match p with s_loop i => 0 ≤ i ≤ ITERS | s_load i | s_store i _ | s_unlock i => 0 ≤ i < ITERS | s_done => True end.

(** Between lock and unlock. *)
Definition s_inside (p : safe_pc) : bool :=
  match p with s_load _ | s_store _ _ | s_unlock _ => true | _ => false end.
Definition inside_at : list safe_pc → nat → bool := at_thread s_inside.

Record mutex_inv (o : list ev) (x : guarded) (ps : list safe_pc) : Prop := {
  m_out : o = [];
  m_length : (length ps ≤ NTHREADS)%nat;
  m_wf : Forall s_wf ps;
  m_total : g_safe x = zsum (s_stores <$> ps);
  m_owner t : g_mutex x = Some t ↔ inside_at ps t = true;
  m_loaded t i v : ps !! t = Some (s_store i v) → v = g_safe x;
}.

Lemma s_stores_range p : s_wf p → 0 ≤ s_stores p ≤ ITERS.
Proof. destruct p; simpl; unfold ITERS; lia. Qed.

Lemma mutex_total ps : Forall s_wf ps → 0 ≤ zsum (s_stores <$> ps) ≤ length ps * ITERS.
Proof.
  induction 1 as [|p ps Hp Hps IH]; [simpl; lia|]. apply s_stores_range in Hp.
  change (0 ≤ s_stores p + zsum (s_stores <$> ps) ≤ S (length ps) * ITERS). lia.
Qed.

Lemma mutex_inv_create o x ps :
  mutex_inv o x ps → (length ps < NTHREADS)%nat → mutex_inv o x (ps ++ [s_loop 0]).
Proof.
  intros [Ho Hl Hw Ht Hown Hld] Hn. split; try done.
  - rewrite length_app /=. lia.
  - apply Forall_app. split; [done|]. apply Forall_singleton. simpl. unfold ITERS. lia.
  - rewrite Ht fmap_app zsum_app. simpl. lia.
  - intros t. by rewrite Hown /inside_at at_thread_snoc.
  - intros t i v Hv. apply lookup_snoc_Some in Hv as [[_ Hv]|[_ [=]]]. by eapply Hld.
Qed.

Lemma mutex_inv_step o x ps j p a x' p' :
  mutex_inv o x ps → ps !! j = Some p → safe_inc j x p a x' p' → mutex_inv (o ++ a) x' (<[j:=p']> ps).
Proof.
  intros [-> Hl Hw Ht Hown Hld] Hj Hs. pose proof (Forall_lookup_1 _ _ _ _ Hw Hj) as Hp.
  assert (s_inside p = true → g_mutex x = Some j) as Hin.
  { intros H. apply Hown. unfold inside_at, at_thread. by rewrite Hj. }
  assert (s_inside p = true → ∀ t i v q, <[j:=q]> ps !! t = Some (s_store i v) → t = j) as Hone.
  { intros H t i v q Hq. destruct (decide (t = j)) as [|Hne]; [done|]. rewrite list_lookup_insert_ne // in Hq.
    assert (g_mutex x = Some t) as E by (apply Hown; unfold inside_at, at_thread; by rewrite Hq). rewrite Hin // in E. congruence. }
  assert (Hlk : ∀ q, <[j:=q]> ps !! j = Some q) by (intros; apply list_lookup_insert_eq; by eapply lookup_lt_Some).
  inversion Hs; subst; split; simpl in *; rewrite ?length_insert; try done;
    try (rewrite (zsum_insert s_stores _ _ _ _ Hj) /=; lia);
    try (apply Forall_insert; [done|]; simpl; unfold ITERS in *; lia);
    try (intros t; rewrite /inside_at (at_thread_insert _ _ _ _ _ _ Hj) /=; specialize (Hown t); unfold inside_at in Hown; case_decide; subst; naive_solver congruence).
  - intros t k v [(-> & [=] & _)|[_ Hv]]%list_lookup_insert_Some; by eapply Hld.
  - intros t k v [(-> & [= _ <-] & _)|[_ Hv]]%list_lookup_insert_Some; [done|by eapply Hld].
  - rewrite (zsum_insert s_stores _ _ _ _ Hj) /=. rewrite (Hld _ _ _ Hj). lia.
  - intros t k w Hw'. pose proof (Hone eq_refl _ _ _ _ Hw') as ->. rewrite Hlk in Hw'. done.
  - intros t k v [(-> & [=] & _)|[_ Hv]]%list_lookup_insert_Some; by eapply Hld.
  - intros t. rewrite /inside_at (at_thread_insert _ _ _ _ _ _ Hj). case_decide; subst; [|done].
    rewrite Hown. unfold inside_at, at_thread. by rewrite Hj.
  - intros t k v [(-> & [=] & _)|[_ Hv]]%list_lookup_insert_Some; by eapply Hld.
Qed.

Definition s_weight (p : safe_pc) : Z :=
  match p with
  | s_loop i => Z.max 0 (4 * (ITERS - i)) + 1 | s_load i => Z.max 0 (4 * (ITERS - i))
  | s_store i _ => Z.max 0 (4 * (ITERS - i) - 1) | s_unlock i => Z.max 0 (4 * (ITERS - i) - 2) | s_done => 0
  end.

Lemma s_weight_step o x ps j p a x' p' :
  mutex_inv o x ps → ps !! j = Some p → safe_inc j x p a x' p' → s_weight p' + 1 ≤ s_weight p.
Proof.
  intros I Hj Hs. pose proof (Forall_lookup_1 _ _ _ _ (m_wf _ _ _ I) Hj) as Hp.
  inversion Hs; subst; simpl in *; lia.
Qed.

Lemma s_returned_stays (j : nat) x p a x' p' : safe_inc j x p a x' p' → s_returned p = false.
Proof. by destruct 1. Qed.

Lemma mutex_inv_init : mutex_inv [] {| g_safe := 0; g_mutex := None |} [].
Proof. split; try done. simpl. lia. Qed.

(** The owner can go on; when there is none, every thread can. *)
Lemma mutex_thread_progress o x ps : mutex_inv o x ps →
  (∀ j p, ps !! j = Some p → s_returned p = true) ∨ ∃ j p a x' p', ps !! j = Some p ∧ safe_inc j x p a x' p'.
Proof.
  intros [-> Hl Hw Ht Hown Hld]. destruct (mutex_total _ Hw) as [Hlo Hhi].
  assert (∀ j p, ps !! j = Some p → s_inside p = true → ∃ a x' p', safe_inc j x p a x' p') as Hin.
  { intros j p Hj Hp. destruct p as [|i|i v|i|]; try done; do 3 eexists; constructor.
    rewrite (Hld _ _ _ Hj) Ht. unfold NTHREADS, ITERS, LONG_MIN, LONG_MAX in *. lia. }
  destruct (g_mutex x) as [t|] eqn:E.
  - pose proof (proj1 (Hown t) eq_refl) as H. unfold inside_at, at_thread in H. destruct (ps !! t) as [p|] eqn:Hp; [|done].
    right. destruct (Hin _ _ Hp H) as (a & x' & p' & Hs). eauto 10.
  - destruct (all_or_one s_returned ps) as [?|(j & p & Hj & Hp)]; [by left|right].
    destruct (s_inside p) eqn:Hi; [destruct (Hin _ _ Hj Hi) as (a & x' & p' & Hs); eauto 10|].
    destruct p as [i| | | |]; try done.
    destruct (decide (i < ITERS)); do 5 eexists; (split; [exact Hj|by constructor]).
Qed.

(** C16. The mutex of section 3: at most one thread is between lock and unlock, no
    interleaving deadlocks or overflows, every run ends, and at the end the count is
    exactly 2000000, so that the section always prints the same text. *)
Theorem mutex_correct :
  (∀ tr s, run mutex_step section_mutex tr s →
     (∀ t t', inside_at (pcs s) t = true → inside_at (pcs s) t' = true → t = t') ∧
     Z.of_nat (length tr) ≤ 4 * (4 * ITERS + 3) + 3 ∧
     ∃ tr' s', run mutex_step s tr' s' ∧ fj_ended s') ∧
  (∀ tr s, run mutex_step section_mutex tr s → fj_ended s →
     g_safe (glob s) = 2000000 ∧
     stdout (output tr) = String.concat (String nl "") ["=== 3. Mutex ==="; "  expected: 2000000"; "  actual:   2000000"; "  correct:  yes"; ""; ""]).
Proof.
  assert (∀ p, 0 ≤ s_weight p) as Hw by (intros []; simpl; lia).
  assert (nat → s_weight (s_loop 0) ≤ 4 * ITERS + 1) as Hb by (intros _; simpl; unfold ITERS; lia).
  split.
  - intros tr s Hr. split_and!.
    + destruct (fj_invariant _ _ _ _ _ _ _ mutex_inv mutex_inv_init mutex_inv_create mutex_inv_step s_returned_stays _ _ Hr)
        as (_ & o & I & _). intros t t' Ht%(m_owner _ _ _ I) Ht'%(m_owner _ _ _ I). congruence.
    + apply (fj_run_length _ _ _ _ _ _ _ mutex_inv mutex_inv_init mutex_inv_create mutex_inv_step
        s_returned_stays s_weight (4 * ITERS + 1) Hw Hb s_weight_step _ _ Hr).
    + apply (fj_ends _ _ _ _ _ _ _ mutex_inv mutex_inv_init mutex_inv_create mutex_inv_step
        s_returned_stays s_weight (4 * ITERS + 1) Hw Hb s_weight_step mutex_thread_progress _ _ Hr).
  - intros tr s Hr He.
    destruct (fj_final _ _ _ _ _ _ _ mutex_inv mutex_inv_init mutex_inv_create mutex_inv_step s_returned_stays _ _ Hr He)
      as (o & I & Ho & Hl & Hret).
    assert (g_safe (glob s) = 2000000) as Hg.
    { rewrite (m_total _ _ _ I) (zsum_const _ _ ITERS) ?Hl //. eapply Forall_impl; [exact Hret|]. by intros []. }
    split; [done|]. rewrite Ho (m_out _ _ _ I) /mutex_report Hg. vm_compute. done.
Qed.

(** The accesses to [g_safe] are between lock and unlock. *)
Lemma s_does_inside (j : nat) x p a x' p' : safe_inc j x p a x' p' →
  match s_does p p' with
  | Reads | Writes => s_inside p = true ∧ s_inside p' = true
  | Acquires => s_inside p = false ∧ s_inside p' = true
  | Releases => s_inside p = true ∧ s_inside p' = false
  | Retries | Other => s_inside p' = s_inside p
  end.
Proof. by destruct 1. Qed.

Lemma mutex_race_free tr s : run mutex_traced section_mutex tr s → ¬ data_race tr.*2.
Proof.
  apply (locked_race_free _ _ _ _ _ _ _ s_inside); [done|exact s_does_inside|]. intros os s' Hr t u Ht Hu.
  destruct (fj_invariant _ _ _ _ _ _ _ mutex_inv mutex_inv_init mutex_inv_create mutex_inv_step s_returned_stays _ _ Hr)
    as (_ & o & I & _). apply (m_owner _ _ _ I) in Ht, Hu. congruence.
Qed.

(** ** Two locks in one order *)

Definition has_a (p : order_pc) : bool := match p with o_lock_a | o_done => false | _ => true end.
Definition has_b (p : order_pc) : bool := match p with o_print | o_unlock_b => true | _ => false end.
Definition has_printed (p : order_pc) : bool := match p with o_unlock_b | o_unlock_a | o_done => true | _ => false end.

Record order_inv (o : list ev) (x : locks) (ps : list order_pc) : Prop := {
  p_out : ∃ ord : list nat, o = holds_line <$> ord ∧ NoDup ord ∧ ∀ t, t ∈ ord ↔ at_thread has_printed ps t = true;
  p_owner_a t : lock_a x = Some t ↔ at_thread has_a ps t = true;
  p_owner_b t : lock_b x = Some t ↔ at_thread has_b ps t = true;
}.

Lemma order_inv_init : order_inv [] {| lock_a := None; lock_b := None |} [].
Proof.
  split; simpl; [exists []; split_and!; [done|constructor|]|..]; intros t; try done.
  rewrite elem_of_nil. done.
Qed.

Lemma order_inv_create o x ps : order_inv o x ps → (length ps < 2)%nat → order_inv o x (ps ++ [o_lock_a]).
Proof.
  intros [(ord & ? & ? & Hord) Ha Hb] _. split; [exists ord; split_and!; [done|done|]|..];
    intros t; rewrite at_thread_snoc //.
Qed.

Lemma order_inv_step o x ps j p a x' p' :
  order_inv o x ps → ps !! j = Some p → safe_order j x p a x' p' → order_inv (o ++ a) x' (<[j:=p']> ps).
Proof.
  intros [(ord & -> & Hnd & Hord) Ha Hb] Hj Hs.
  assert (∀ f, at_thread f ps j = f p) as Hat by (intros f; unfold at_thread; by rewrite Hj).
  assert (Hrw : ∀ f t, at_thread f (<[j:=p']> ps) t = if decide (t = j) then f p' else at_thread f ps t)
    by (intros; by eapply at_thread_insert).
  pose proof (Ha j) as Haj. pose proof (Hb j) as Hbj. rewrite !Hat in Haj Hbj.
  split; [|intros t; rewrite Hrw; specialize (Ha t); specialize (Hb t);
    case_decide; subst; rewrite ?Hat in Ha Hb; inversion Hs; subst; simpl in *; naive_solver congruence..].
  destruct (decide (p = o_print)) as [->|Hp].
  - inversion Hs; subst. exists (ord ++ [j]). split_and!.
    + by rewrite fmap_app.
    + apply NoDup_app. split_and!; [done| |apply NoDup_singleton].
      intros t Ht%Hord ->%list_elem_of_singleton. by rewrite Hat in Ht.
    + intros t. rewrite elem_of_app list_elem_of_singleton Hord Hrw. case_decide; naive_solver.
  - exists ord. split_and!; [|done|].
    + inversion Hs; subst; try done; by rewrite app_nil_r.
    + intros t. rewrite Hord Hrw. case_decide as E; [subst|done]. rewrite Hat. by inversion Hs; subst.
Qed.

Lemma o_returned_stays (j : nat) x p a x' p' : safe_order j x p a x' p' → o_returned p = false.
Proof. by destruct 1. Qed.

Definition o_weight (p : order_pc) : Z :=
  match p with o_lock_a => 5 | o_lock_b => 4 | o_print => 3 | o_unlock_b => 2 | o_unlock_a => 1 | o_done => 0 end.

Lemma o_weight_step (o : list ev) (g : locks) (ps : list order_pc) (j : nat) x p a x' p' :
  order_inv o g ps → ps !! j = Some p → safe_order j x p a x' p' → o_weight p' + 1 ≤ o_weight p.
Proof. intros _ _ Hs. by inversion Hs; subst. Qed.

(** Who waits for [lock_b] has [lock_a], so that its owner does not wait. *)
Lemma order_thread_progress o x ps : order_inv o x ps →
  (∀ j p, ps !! j = Some p → o_returned p = true) ∨ ∃ j p a x' p', ps !! j = Some p ∧ safe_order j x p a x' p'.
Proof.
  intros [_ Ha Hb]. unfold at_thread in Ha, Hb. destruct (all_or_one o_returned ps) as [?|(j & p & Hj & Hp)]; [by left|right].
  assert (∀ t, lock_a x = Some t → ∃ j p a x' p', ps !! j = Some p ∧ safe_order j x p a x' p') as Hown.
  { intros t Ht. pose proof (proj1 (Ha t) Ht) as H. destruct (ps !! t) as [q|] eqn:Hq; [|done].
    destruct q; try done; [|by do 5 eexists; split; [exact Hq|constructor]..].
    do 5 eexists. split; [exact Hq|]. constructor. destruct (lock_b x) as [u|] eqn:E; [|done].
    pose proof (proj1 (Hb u) eq_refl) as Hu. destruct (ps !! u) as [r|] eqn:Hr; [|done].
    assert (lock_a x = Some u) by (apply Ha; rewrite Hr; by destruct r). assert (u = t) as -> by congruence.
    rewrite Hq in Hr. by injection Hr as <-. }
  destruct (lock_a x) as [t|] eqn:E; [by eapply Hown|].
  destruct (decide (p = o_lock_a)) as [->|Hne]; [do 5 eexists; split; [exact Hj|by constructor]|].
  pose proof (proj2 (Ha j)) as H. rewrite Hj in H. destruct p; try done; by specialize (H eq_refl).
Qed.

(** The lock order of section 6 is free of deadlock: every run ends, at most one
    thread at a time holds each lock, and the section prints the line of each thread
    once, in one of the two orders, between its heading and its summary. *)
Theorem safe_order_no_deadlock :
  (∀ tr s, run pitfalls_step section_pitfalls tr s →
     (∀ t t', at_thread has_a (pcs s) t = true → at_thread has_a (pcs s) t' = true → t = t') ∧
     (length tr ≤ 17)%nat ∧ ∃ tr' s', run pitfalls_step s tr' s' ∧ fj_ended s') ∧
  (∀ tr s, run pitfalls_step section_pitfalls tr s → fj_ended s →
     ∃ ord, (ord = [0%nat; 1%nat] ∨ ord = [1%nat; 0%nat]) ∧
       output tr = [say "=== 6. Pitfalls ===\n" []] ++ (holds_line <$> ord) ++ pitfalls_report (glob s)).
Proof.
  assert (∀ p, 0 ≤ o_weight p) as Hw by (by intros []).
  assert (nat → o_weight o_lock_a ≤ 5) as Hb by done.
  split.
  - intros tr s Hr. split_and!.
    + destruct (fj_invariant _ _ _ _ _ _ _ order_inv order_inv_init order_inv_create order_inv_step o_returned_stays _ _ Hr)
        as (_ & o & I & _). intros t t' Ht%(p_owner_a _ _ _ I) Ht'%(p_owner_a _ _ _ I). congruence.
    + pose proof (fj_run_length _ _ _ _ _ _ _ order_inv order_inv_init order_inv_create order_inv_step
        o_returned_stays o_weight 5 Hw Hb ltac:(by intros; eapply o_weight_step) _ _ Hr). lia.
    + apply (fj_ends _ _ _ _ _ _ _ order_inv order_inv_init order_inv_create order_inv_step
        o_returned_stays o_weight 5 Hw Hb ltac:(by intros; eapply o_weight_step) order_thread_progress _ _ Hr).
  - intros tr s Hr He.
    destruct (fj_final _ _ _ _ _ _ _ order_inv order_inv_init order_inv_create order_inv_step o_returned_stays _ _ Hr He)
      as (o & [(ord & -> & Hnd & Hord) _ _] & Ho & Hl & Hret).
    exists ord. split; [|exact Ho].
    assert (ord ≡ₚ [0%nat; 1%nat]) as Hp.
    { apply NoDup_Permutation; [done|repeat constructor; set_solver|]. intros t. rewrite Hord /at_thread.
      destruct (pcs s) as [|p0 [|p1 []]]; try done. apply Forall_cons in Hret as [H0 [H1 _]%Forall_cons].
      destruct p0, p1; try done. destruct t as [|[|t]]; simpl; set_solver. }
    by apply Permutation_length_2_inv.
Qed.

(** ** Section 1: arguments and results through the heap

    The workers share nothing but the allocator, so that a worker runs in one go at some
    point after its creation: [sched k] lists the threads that run at the [k]-th call of
    the thread library; a thread that has not run when it is joined runs then.  Every
    call of [malloc], of any thread, may fail. *)

Record WorkArgs := { a_id : Z; a_n : Z }.
Record WorkResult := { r_id : Z; r_sum : Z }.

Inductive obj := ORaw | OArgs (a : WorkArgs) | OResult (r : WorkResult).

#[export] Instance obj_args : Prism obj WorkArgs :=
  {| to_obj := OArgs; of_obj o := match o with OArgs a => Some a | _ => None end; of_to_obj _ := eq_refl |}.
#[export] Instance obj_result : Prism obj WorkResult :=
  {| to_obj := OResult; of_obj o := match o with OResult r => Some r | _ => None end; of_to_obj _ := eq_refl |}.

(** [for (int i = 1; i <= a->n; i++) sum += i;] *)
Definition sum_loop (arg : ptr) (fuel : nat) : Z * Z → M obj Z :=
  loop fuel (λ '(i, sum),
    a <- load arg ;;
    if i <=? a_n a then
      sum' <- long_chk (sum + i) ;;
      i' <- int_chk (i + 1) ;;
      ret (inl (i', sum'))
    else ret (inr sum)).

Definition worker (arg : ptr) : M obj ptr :=
  a <- load arg ;;
  sum <- sum_loop arg (S (Z.to_nat (a_n a))) (1, 0) ;;
  res <- malloc ORaw ;;
  match res with
  | None => free arg ;;; ret NULL
  | Some _ =>
      a <- load arg ;;
      store res {| r_id := a_id a; r_sum := sum |} ;;;
      free arg ;;;
      ret res
  end.

(** A thread that has been created: it has not run, it has returned, it was joined. *)
Inductive thread := Pending (arg : ptr) | Finished (res : ptr) | Joined.

Definition run_thread (t : thread) : M obj thread :=
  match t with Pending arg => res <- worker arg ;; ret (Finished res) | _ => ret t end.

Definition run_at (j : nat) (ts : list thread) : M obj (list thread) :=
  match ts !! j with Some t => t' <- run_thread t ;; ret (<[j:=t']> ts) | None => ret ts end.

Definition run_all (js : list nat) (ts : list thread) : M obj (list thread) := for_list js run_at ts.

Definition pthread_join (i : nat) (ts : list thread) : M obj (ptr * list thread) :=
  ts <- run_at i ts ;;
  match ts !! i with Some (Finished res) => ret (res, <[i:=Joined]> ts) | _ => undefined end.

Definition section_basics (sched : nat → list nat) : M obj unit :=
  printf "=== 1. Thread basics ===\n" [] ;;;
  ts <- for_range 0 4 (λ i ts,
    a <- malloc ORaw ;;
    match a with
    | None => die "malloc failed\n"
    | Some _ =>
        store a {| a_id := i; a_n := (i + 1) * 10 |} ;;;
        run_all (sched (Z.to_nat i)) (ts ++ [Pending a])
    end) [] ;;
  for_range 0 4 (λ i ts,
    ts <- run_all (sched (4 + Z.to_nat i)%nat) ts ;;
    let* (res, ts) := pthread_join (Z.to_nat i) ts in
    match res with
    | None => eprintf "  thread %d: allocation failed\n" [AInt i] ;;; ret ts
    | Some _ =>
        r <- load res ;;
        n1 <- int_chk (r_id r + 1) ;;
        n <- int_chk (n1 * 10) ;;
        printf "  thread %d: sum(1..%d) = %ld\n" [AInt (r_id r); AInt n; AInt (r_sum r)] ;;;
        free res ;;;
        ret ts
    end) ts ;;;
  printf "\n" [].

Section basics.
Context (mf : bool) (X : Z → Prop) (HX : mf = true → X 1).
Implicit Types (ts : list thread).

Lemma wp_sum_loop l a fuel i sum (Q : Z → list ev → hpropI obj) :
  0 ≤ a_n a < INT_MAX → 1 ≤ i → 2 * sum = i * (i - 1) → i ≤ a_n a + 1 → a_n a + 1 - i < Z.of_nat fuel →
  l ↦ OArgs a -∗ (l ↦ OArgs a -∗ Q (a_n a * (a_n a + 1) / 2) []) -∗
  wp mf X (sum_loop (Some l) fuel (i, sum)) Q.
Proof.
  intros Hn. revert i sum Q. induction fuel as [|fuel IH]; intros i sum Q Hi Hsum Hle Hf; [lia|]. iIntros "Hl HQ".
  iApply wp_loop. wp_step. wp_step. destruct (Z.leb_spec i (a_n a)).
  - assert (0 ≤ sum + i ≤ LONG_MAX) by (unfold INT_MAX, LONG_MAX in *; nia).
    do 5 wp_step. cbn [app]. rewrite -/(sum_loop (Some l) fuel). iApply (IH with "Hl HQ"); lia.
  - wp_step. assert (i = a_n a + 1) as -> by lia.
    assert (a_n a * (a_n a + 1) / 2 = sum) as -> by (symmetry; apply Z.div_unique_exact; lia). by iApply "HQ".
Qed.

Definition args_of (j : nat) : WorkArgs := {| a_id := j; a_n := (j + 1) * 10 |}.
Definition result_of (j : nat) : WorkResult :=
  {| r_id := j; r_sum := a_n (args_of j) * (a_n (args_of j) + 1) / 2 |}.

(** What belongs to thread [j]. *)
Definition thread_rep (j : nat) (t : thread) : hpropI obj :=
  match t with
  | Pending arg => ⌈(j < 4)%nat⌉ ∗ ∃ l, ⌈arg = Some l⌉ ∗ l ↦ OArgs (args_of j)
  | Finished (Some l) => l ↦ OResult (result_of j)
  | Finished None => ⌈mf = true⌉
  | Joined => emp
  end.

Definition is_joined (t : thread) : bool := match t with Joined => true | _ => false end.

Lemma wp_run_thread j t :
  thread_rep j t ⊢ wp mf X (run_thread t)
    (λ t' o, ⌈o = [] ∧ is_joined t' = is_joined t ∧ ∀ a, t' ≠ Pending a⌉ ∗ thread_rep j t').
Proof.
  iIntros "Ht". destruct t as [arg|res|]; simpl; [|wp_step; iFrame; done..].
  iDestruct "Ht" as "[%Hj (%l & -> & Hl)]". wp_step. unfold worker. wp_step. wp_step. wp_step.
  iApply (wp_sum_loop with "Hl"); try (unfold args_of, INT_MAX; simpl; lia). iIntros "Hl". wp_step.
  iApply wp_malloc. iIntros ([r|]) "%Hr Hr"; simpl; wp_run; iFrame; iPureIntro; auto.
Qed.

Lemma wp_run_at j ts :
  ([∗ list] k ↦ t ∈ ts, thread_rep k t) ⊢ wp mf X (run_at j ts)
    (λ ts' o, ⌈o = [] ∧ is_joined <$> ts' = is_joined <$> ts ∧ (∀ a, ts' !! j ≠ Some (Pending a))⌉ ∗
              [∗ list] k ↦ t ∈ ts', thread_rep k t).
Proof.
  iIntros "Hts". unfold run_at. destruct (ts !! j) as [t|] eqn:Hj; [|wp_step; iFrame; iPureIntro; naive_solver].
  iDestruct (big_sepL_insert_acc with "Hts") as "[Ht Hts]"; [exact Hj|]. wp_step.
  iApply (wp_wand with "[Ht]"); [by iApply wp_run_thread|]. iIntros (t' o) "[%H Ht]". destruct H as (-> & Ej & Hp).
  wp_step. iSplitR; [|by iApply "Hts"]. iPureIntro. split_and!; [done| |].
  - rewrite list_fmap_insert Ej. apply list_insert_id. by rewrite list_lookup_fmap Hj.
  - intros a. rewrite list_lookup_insert_eq; [congruence|by eapply lookup_lt_Some].
Qed.

Lemma wp_run_all js ts :
  ([∗ list] k ↦ t ∈ ts, thread_rep k t) ⊢ wp mf X (run_all js ts)
    (λ ts' o, ⌈o = [] ∧ is_joined <$> ts' = is_joined <$> ts⌉ ∗ [∗ list] k ↦ t ∈ ts', thread_rep k t).
Proof.
  revert ts. induction js as [|j js IH]; iIntros (ts) "Hts"; unfold run_all; simpl.
  - wp_step. iFrame. done.
  - wp_step. iApply (wp_wand with "[Hts]"); [by iApply wp_run_at|]. iIntros (ts1 o) "[%H Hts]". destruct H as (-> & E & _).
    iApply (wp_wand with "[Hts]"); [by iApply IH|]. iIntros (ts2 o) "[%H Hts]". destruct H as (-> & E2).
    iFrame. by rewrite E2.
Qed.

(** What joining thread [j] writes. *)
Definition sum_line (j : Z) : ev :=
  say "  thread %d: sum(1..%d) = %ld\n" [AInt j; AInt ((j + 1) * 10); AInt ((j + 1) * 10 * ((j + 1) * 10 + 1) / 2)].
Definition failed_line (j : Z) : ev := Err (default ""%string (format "  thread %d: allocation failed\n" [AInt j])).
Definition line_ok (j : nat) (e : ev) : Prop := e = sum_line j ∨ mf = true ∧ e = failed_line j.
Definition lines_ok (o : list ev) : Prop := ∀ j e, o !! j = Some e → line_ok j e.

Lemma lines_ok_snoc o e : lines_ok o → line_ok (length o) e → lines_ok (o ++ [e]).
Proof.
  intros Ho He j x Hx. apply lookup_snoc_Some in Hx as [[_ Hx]|[-> <-]]; [by apply Ho|done].
Qed.

Lemma wp_pthread_join i ts :
  (i < length ts)%nat → is_joined <$> ts = replicate i true ++ replicate (length ts - i) false →
  ([∗ list] k ↦ t ∈ ts, thread_rep k t) ⊢ wp mf X (pthread_join i ts)
    (λ '(res, ts') o, ⌈o = [] ∧ is_joined <$> ts' = replicate (S i) true ++ replicate (length ts - S i) false ∧
                       length ts' = length ts⌉ ∗
       thread_rep i (Finished res) ∗ [∗ list] k ↦ t ∈ ts', thread_rep k t).
Proof.
  intros Hi Hj. iIntros "Hts". unfold pthread_join. wp_step. iApply (wp_wand with "[Hts]"); [by iApply wp_run_at|].
  iIntros (ts1 o) "[%H Hts]". destruct H as (-> & E & Hp).
  assert (length ts1 = length ts) as Hl by (rewrite -(length_fmap is_joined) E length_fmap; done).
  destruct (lookup_lt_is_Some_2 ts1 i) as [t Ht]; [lia|].
  assert (is_joined t = false) as Ejt.
  { assert ((is_joined <$> ts1) !! i = Some (is_joined t)) as H by by rewrite list_lookup_fmap Ht.
    rewrite E Hj lookup_app_r ?length_replicate // Nat.sub_diag in H.
    destruct (length ts - i)%nat eqn:En; [lia|]. simpl in H. congruence. }
  rewrite Ht. destruct t as [a|res|]; [by destruct (Hp a)| |done].
  iDestruct (big_sepL_insert_acc with "Hts") as "[Ht Hts]"; [exact Ht|]. wp_step. iFrame "Ht".
  iSplitR; [|by iApply ("Hts" $! Joined)]. iPureIntro. rewrite length_insert. split_and!; [done| |done].
  rewrite list_fmap_insert E Hj insert_app_r_alt ?length_replicate // Nat.sub_diag.
  rewrite -Nat.add_1_r replicate_add -app_assoc. f_equal.
  destruct (length ts - i)%nat eqn:En; [lia|]. replace (length ts - (i + 1))%nat with n by lia. done.
Qed.

(** The joining loop: threads below [i] have been joined and their lines written. *)
Definition joining (i : Z) (ts : list thread) (o : list ev) : hpropI obj :=
  ⌈length ts = 4%nat ∧ is_joined <$> ts = replicate (Z.to_nat i) true ++ replicate (4 - Z.to_nat i) false ∧
   length o = Z.to_nat i ∧ lines_ok o⌉ ∗ [∗ list] k ↦ t ∈ ts, thread_rep k t.

Definition creating (i : Z) (ts : list thread) (o : list ev) : hpropI obj :=
  ⌈length ts = Z.to_nat i ∧ is_joined <$> ts = replicate (Z.to_nat i) false ∧ o = []⌉ ∗
  [∗ list] k ↦ t ∈ ts, thread_rep k t.

Lemma sum_line_format j : 0 ≤ j < 4 →
  format "  thread %d: sum(1..%d) = %ld\n" [AInt j; AInt ((j + 1) * 10); AInt ((j + 1) * 10 * ((j + 1) * 10 + 1) / 2)]
  = Some (default ""%string (format "  thread %d: sum(1..%d) = %ld\n" [AInt j; AInt ((j + 1) * 10); AInt ((j + 1) * 10 * ((j + 1) * 10 + 1) / 2)])).
Proof. intros Hj. assert (j = 0 ∨ j = 1 ∨ j = 2 ∨ j = 3) as [-> |[-> |[-> | ->]]] by lia; by vm_compute. Qed.

Lemma wp_section_basics sched :
  ⊢ wp mf X (section_basics sched) (λ _ o,
      ⌈∃ o', o = [say "=== 1. Thread basics ===\n" []] ++ o' ++ [say "\n" []] ∧ length o' = 4%nat ∧ lines_ok o'⌉).
Proof.
  iStartProof. unfold section_basics. do 3 wp_step.
  iApply (wp_for_range _ _ creating); [lia| |by unfold creating; simpl; iSplit|].
  { intros i ts o Hi. iIntros "[%H Hts]". destruct H as (Hl & Ej & ->).
    iApply wp_malloc_or_die; [by eexists|exact HX|]. iIntros (l) "Hl". do 2 wp_step.
    iApply (wp_wand with "[Hts Hl]"); [iApply wp_run_all|].
    - rewrite big_sepL_app. iFrame "Hts". simpl. iSplit; [|done]. iSplit; [iPureIntro; lia|]. iExists l.
      iSplit; [done|]. unfold args_of. rewrite Nat.add_0_r Hl Z2Nat.id; [|lia]. iExact "Hl".
    - iIntros (ts' o) "[%H Hts]". destruct H as (-> & E). iFrame. iPureIntro. rewrite fmap_app Ej /= in E.
      replace (Z.to_nat (i + 1)) with (Z.to_nat i + 1)%nat by lia. rewrite replicate_add. split_and!; [|done|done].
      rewrite -(length_fmap is_joined) E length_app length_replicate. done. }
  iIntros (ts o) "[%H Hts]". destruct H as (Hl & Ej & ->). wp_step.
  iApply (wp_for_range _ _ joining with "[Hts]"); [lia| | |].
  - clear ts Hl Ej. intros i ts o Hi. iIntros "[%H Hts]". destruct H as (Hl & Ej & Ho & Hok). wp_step.
    iApply (wp_wand with "[Hts]"); [iApply (wp_run_all with "Hts")|]. iIntros (ts1 o1) "[%H Hts]". destruct H as (-> & E1).
    assert (length ts1 = 4%nat) as Hl1 by (rewrite -Hl -(length_fmap is_joined) E1 length_fmap; done).
    wp_step. iApply (wp_wand with "[Hts]"); [iApply (wp_pthread_join with "Hts"); [lia|]|].
    { by rewrite E1 Ej Hl1. }
    iIntros ([res ts2] o2) "(%H & Hres & Hts)". destruct H as (-> & E2 & Hl2). rewrite Hl1 in E2, Hl2.
    assert (Z.of_nat (Z.to_nat i) = i) as Ei by lia.
    destruct res as [r|]; simpl.
    + unfold result_of, args_of. simpl. rewrite Ei. do 6 wp_step. cbn [r_id r_sum a_n a_id].
      iApply wp_bind. iApply (wp_printf _ _ _ _ _ _ (sum_line_format i Hi)). do 3 wp_step. unfold joining. iFrame "Hts".
      iPureIntro. replace (Z.to_nat (i + 1)) with (S (Z.to_nat i)) by lia. rewrite length_app Ho. split_and!; [done|exact E2|simpl; lia|].
      apply lines_ok_snoc; [done|]. left. by rewrite Ho Ei.
    + iDestruct "Hres" as "%Hmf". wp_step. wp_step. wp_step. unfold joining. iFrame "Hts".
      iPureIntro. replace (Z.to_nat (i + 1)) with (S (Z.to_nat i)) by lia. rewrite length_app Ho. split_and!; [done|exact E2|simpl; lia|].
      apply lines_ok_snoc; [done|]. right. by rewrite Ho Ei.
  - unfold joining. simpl. iSplit; [|done]. done.
  - iIntros (ts' o) "[%H Hts]". destruct H as (Hl' & Ej' & Ho & Hok). wp_step.
    destruct ts' as [|[] [|[] [|[] [|[] []]]]]; try done. simpl. iPureIntro. by exists o.
Qed.
End basics.

(** The workers of section 1, for every order in which they run and every behaviour
    of the allocator: nothing undefined happens, no overflow in the sums; if the section
    returns, all objects have been freed and each thread has its line, in the order of
    the joins: its sum, or the failure of its allocation; if it exits, with status 1, an
    allocation failed.  When none fails it writes the four sums 1..10 to 1..40. *)
Theorem thread_basics_correct (sched : nat → list nat) :
  runs (section_basics sched)
    (λ _ o, ∃ o', o = [say "=== 1. Thread basics ===\n" []] ++ o' ++ [say "\n" []] ∧
       length o' = 4%nat ∧ ∀ (j : nat) e, o' !! j = Some e → e = sum_line j ∨ e = failed_line j) False ∧
  ∀ orc, lucky orc → ∃ o w, section_basics sched (empty_world orc) = Ret tt o w ∧ heap w = ∅ ∧
    stdout o = String.concat (String nl "") ["=== 1. Thread basics ==="; "  thread 0: sum(1..10) = 55";
      "  thread 1: sum(1..20) = 210"; "  thread 2: sum(1..30) = 465"; "  thread 3: sum(1..40) = 820"; ""; ""].
Proof.
  destruct (wp_runs_lucky (section_basics sched)
    (λ _ o, ∃ o', o = [say "=== 1. Thread basics ===\n" []] ++ o' ++ [say "\n" []] ∧
       length o' = 4%nat ∧ ∀ (j : nat) e, o' !! j = Some e → e = sum_line j ∨ e = failed_line j)
    (λ _ o, o = [say "=== 1. Thread basics ===\n" []] ++ (sum_line <$> [0; 1; 2; 3]) ++ [say "\n" []])) as [H1 H2].
  - intros mf X HX. iStartProof. iApply wp_wand; [by iApply wp_section_basics|]. iIntros (a o) "%H".
    destruct H as (o' & -> & Hl & Hok). iPureIntro. split.
    + exists o'. split_and!; [done|done|]. intros j e [?|[_ ?]]%Hok; auto.
    + intros ->. destruct o' as [|e0 [|e1 [|e2 [|e3 []]]]]; try done.
      assert (∀ (j : nat) e, [e0; e1; e2; e3] !! j = Some e → e = sum_line j) as Hs by (intros j e [?|[? _]]%Hok; done).
      rewrite (Hs 0%nat e0) // (Hs 1%nat e1) // (Hs 2%nat e2) // (Hs 3%nat e3) //.
  - split; [done|]. intros orc L. destruct (H2 orc L) as ([] & o & w & E & Hh & _ & Ho). exists o, w.
    split_and!; [done|done|]. rewrite Ho. by vm_compute.
Qed.

(** ** Section 5: attributes

    The default stack size and the effect of [pthread_attr_setstacksize] belong to the
    system: they are parameters.  The main thread spins while the flag is 0; a turn of
    that loop is labelled [Spin]. *)

Section attributes.
Context (default_stacksize : Z) (setstacksize : Z → Z → Z).

Inductive attrs_act := Does (o : list ev) | Spin.

Inductive detached_pc := d_read (arg : positive) | d_free (arg : positive) (n : Z) | d_print (n : Z) | d_set | d_done.
Inductive stacksz_pc := k_read (arg : positive) | k_free (arg : positive) (n : Z) | k_print (n : Z) | k_done.
Inductive attrs_pc :=
  | a_start | a_malloc_n | a_set_n (n : positive) | a_create_n (n : positive) | a_spin | a_stacksize
  | a_malloc_m | a_set_m (m : positive) | a_create_m (m : positive) | a_join | a_return | a_exit.

(** The shared state: [g_detached_done] and the heap of [int] objects. *)
Record attrs_mem := { g_detached_done : Z; ints : gmap positive Z }.

Record attrs := { a_mem : attrs_mem; a_detached : option detached_pc; a_stacksz : option stacksz_pc; a_main : attrs_pc }.

Inductive detached_fn : attrs_mem → detached_pc → attrs_act → attrs_mem → detached_pc → Prop :=
  | detached_reads g p n : ints g !! p = Some n → detached_fn g (d_read p) (Does []) g (d_free p n)
  | detached_frees g p n : is_Some (ints g !! p) →
      detached_fn g (d_free p n) (Does []) {| g_detached_done := g_detached_done g; ints := delete p (ints g) |} (d_print n)
  | detached_prints g n :
      detached_fn g (d_print n) (Does [say "  fire-and-forget thread: n=%d, done\n" [AInt n]]) g d_set
  | detached_sets g : detached_fn g d_set (Does []) {| g_detached_done := 1; ints := ints g |} d_done.

Inductive stacksz_fn : attrs_mem → stacksz_pc → attrs_act → attrs_mem → stacksz_pc → Prop :=
  | stacksz_reads g p n : ints g !! p = Some n → stacksz_fn g (k_read p) (Does []) g (k_free p n)
  | stacksz_frees g p n : is_Some (ints g !! p) →
      stacksz_fn g (k_free p n) (Does []) {| g_detached_done := g_detached_done g; ints := delete p (ints g) |} (k_print n)
  | stacksz_prints g n :
      stacksz_fn g (k_print n) (Does [say "  custom-stack thread: n=%d, done\n" [AInt n]]) g k_done.

Definition set_int (p : positive) (z : Z) (g : attrs_mem) : attrs_mem :=
  {| g_detached_done := g_detached_done g; ints := <[p:=z]> (ints g) |}.

(** The main thread; it creates the two threads. *)
Inductive attrs_main : attrs → attrs_act → attrs → Prop :=
  | main_attr_init g d k :
      attrs_main {| a_mem := g; a_detached := d; a_stacksz := k; a_main := a_start |}
        (Does [say "=== 5. Thread attributes ===\n" []; say "  default stack size: %zu KB\n" [AInt (default_stacksize / 1024)]])
        {| a_mem := g; a_detached := d; a_stacksz := k; a_main := a_malloc_n |}
  | main_malloc_n g d k n junk : ints g !! n = None →
      attrs_main {| a_mem := g; a_detached := d; a_stacksz := k; a_main := a_malloc_n |} (Does [])
        {| a_mem := set_int n junk g; a_detached := d; a_stacksz := k; a_main := a_set_n n |}
  | main_malloc_n_fails g d k :
      attrs_main {| a_mem := g; a_detached := d; a_stacksz := k; a_main := a_malloc_n |}
        (Does [Err (default ""%string (format "malloc failed\n" []))])
        {| a_mem := g; a_detached := d; a_stacksz := k; a_main := a_exit |}
  | main_set_n g d k n : is_Some (ints g !! n) →
      attrs_main {| a_mem := g; a_detached := d; a_stacksz := k; a_main := a_set_n n |} (Does [])
        {| a_mem := set_int n 99 g; a_detached := d; a_stacksz := k; a_main := a_create_n n |}
  | main_create_n g d k n :
      attrs_main {| a_mem := g; a_detached := d; a_stacksz := k; a_main := a_create_n n |} (Does [])
        {| a_mem := g; a_detached := Some (d_read n); a_stacksz := k; a_main := a_spin |}
  | main_spins g d k : g_detached_done g = 0 →
      attrs_main {| a_mem := g; a_detached := d; a_stacksz := k; a_main := a_spin |} Spin
        {| a_mem := g; a_detached := d; a_stacksz := k; a_main := a_spin |}
  | main_sees_flag g d k : g_detached_done g ≠ 0 →
      attrs_main {| a_mem := g; a_detached := d; a_stacksz := k; a_main := a_spin |}
        (Does [say "  detached thread finished\n" []])
        {| a_mem := g; a_detached := d; a_stacksz := k; a_main := a_stacksize |}
  | main_stacksize g d k :
      attrs_main {| a_mem := g; a_detached := d; a_stacksz := k; a_main := a_stacksize |}
        (Does [say "  custom stack size:  %zu KB\n" [AInt (setstacksize default_stacksize (64 * 1024) / 1024)]])
        {| a_mem := g; a_detached := d; a_stacksz := k; a_main := a_malloc_m |}
  | main_malloc_m g d k m junk : ints g !! m = None →
      attrs_main {| a_mem := g; a_detached := d; a_stacksz := k; a_main := a_malloc_m |} (Does [])
        {| a_mem := set_int m junk g; a_detached := d; a_stacksz := k; a_main := a_set_m m |}
  | main_malloc_m_fails g d k :
      attrs_main {| a_mem := g; a_detached := d; a_stacksz := k; a_main := a_malloc_m |}
        (Does [Err (default ""%string (format "malloc failed\n" []))])
        {| a_mem := g; a_detached := d; a_stacksz := k; a_main := a_exit |}
  | main_set_m g d k m : is_Some (ints g !! m) →
      attrs_main {| a_mem := g; a_detached := d; a_stacksz := k; a_main := a_set_m m |} (Does [])
        {| a_mem := set_int m 7 g; a_detached := d; a_stacksz := k; a_main := a_create_m m |}
  | main_create_m g d k m :
      attrs_main {| a_mem := g; a_detached := d; a_stacksz := k; a_main := a_create_m m |} (Does [])
        {| a_mem := g; a_detached := d; a_stacksz := Some (k_read m); a_main := a_join |}
  | main_join g d : 
      attrs_main {| a_mem := g; a_detached := d; a_stacksz := Some k_done; a_main := a_join |} (Does [say "\n" []])
        {| a_mem := g; a_detached := d; a_stacksz := Some k_done; a_main := a_return |}.

Inductive attrs_step : attrs → attrs_act → attrs → Prop :=
  | attrs_main_steps s a s' : attrs_main s a s' → attrs_step s a s'
  | detached_steps g d k m a g' d' : detached_fn g d a g' d' →
      attrs_step {| a_mem := g; a_detached := Some d; a_stacksz := k; a_main := m |} a
                 {| a_mem := g'; a_detached := Some d'; a_stacksz := k; a_main := m |}
  | stacksz_steps g d k m a g' k' : stacksz_fn g k a g' k' →
      attrs_step {| a_mem := g; a_detached := d; a_stacksz := Some k; a_main := m |} a
                 {| a_mem := g'; a_detached := d; a_stacksz := Some k'; a_main := m |}.

Definition section_attrs : attrs :=
  {| a_mem := {| g_detached_done := 0; ints := ∅ |}; a_detached := None; a_stacksz := None; a_main := a_start |}.

Definition attrs_ended (s : attrs) : Prop := a_main s = a_return ∨ a_main s = a_exit.

Definition attrs_output (tr : list attrs_act) : list ev :=
  concat ((λ a, match a with Does o => o | Spin => [] end) <$> tr).

(** *** What is reachable *)

Definition text_start : list ev :=
  [say "=== 5. Thread attributes ===\n" []; say "  default stack size: %zu KB\n" [AInt (default_stacksize / 1024)]].
Definition text_detached : list ev := text_start ++ [say "  fire-and-forget thread: n=%d, done\n" [AInt 99]].
Definition text_seen : list ev := text_detached ++ [say "  detached thread finished\n" []].
Definition text_stack : list ev :=
  text_seen ++ [say "  custom stack size:  %zu KB\n" [AInt (setstacksize default_stacksize (64 * 1024) / 1024)]].
Definition text_custom : list ev := text_stack ++ [say "  custom-stack thread: n=%d, done\n" [AInt 7]].
Definition malloc_failed : list ev := [Err (default ""%string (format "malloc failed\n" []))].

(** The heap and the output while only the detached thread and the main thread exist. *)
Definition detached_state (d : detached_pc) : (gmap positive Z * Z * list ev) → Prop :=
  match d with
  | d_read p => λ x, x = ({[p := 99]}, 0, text_start)
  | d_free p n => λ x, n = 99 ∧ x = ({[p := 99]}, 0, text_start)
  | d_print n => λ x, n = 99 ∧ x = (∅, 0, text_start)
  | d_set => λ x, x = (∅, 0, text_detached)
  | d_done => λ x, x = (∅, 1, text_detached)
  end.

Definition stacksz_state (k : stacksz_pc) : (gmap positive Z * list ev) → Prop :=
  match k with
  | k_read p => λ x, x = ({[p := 7]}, text_stack)
  | k_free p n => λ x, n = 7 ∧ x = ({[p := 7]}, text_stack)
  | k_print n => λ x, n = 7 ∧ x = (∅, text_stack)
  | k_done => λ x, x = (∅, text_custom)
  end.

Definition attrs_inv (o : list ev) (s : attrs) : Prop :=
  let h := ints (a_mem s) in
  let flag := g_detached_done (a_mem s) in
  let before := a_detached s = None ∧ a_stacksz s = None ∧ flag = 0 in
  let after := a_detached s = Some d_done ∧ flag = 1 in
  match a_main s with
  | a_start => before ∧ h = ∅ ∧ o = []
  | a_malloc_n => before ∧ h = ∅ ∧ o = text_start
  | a_set_n p => before ∧ (∃ z, h = {[p := z]}) ∧ o = text_start
  | a_create_n p => before ∧ h = {[p := 99]} ∧ o = text_start
  | a_spin => a_stacksz s = None ∧ ∃ d, a_detached s = Some d ∧ detached_state d (h, flag, o)
  | a_stacksize => after ∧ a_stacksz s = None ∧ h = ∅ ∧ o = text_seen
  | a_malloc_m => after ∧ a_stacksz s = None ∧ h = ∅ ∧ o = text_stack
  | a_set_m p => after ∧ a_stacksz s = None ∧ (∃ z, h = {[p := z]}) ∧ o = text_stack
  | a_create_m p => after ∧ a_stacksz s = None ∧ h = {[p := 7]} ∧ o = text_stack
  | a_join => after ∧ ∃ k, a_stacksz s = Some k ∧ stacksz_state k (h, o)
  | a_return => after ∧ a_stacksz s = Some k_done ∧ h = ∅ ∧ o = text_custom ++ [say "\n" []]
  | a_exit => a_stacksz s = None ∧ h = ∅ ∧ (before ∧ o = text_start ++ malloc_failed ∨ after ∧ o = text_stack ++ malloc_failed)
  end.

Lemma attrs_output_snoc tr a :
  attrs_output (tr ++ [a]) = attrs_output tr ++ match a with Does o => o | Spin => [] end.
Proof. unfold attrs_output. rewrite fmap_app concat_app /= app_nil_r. done. Qed.

#[local] Ltac split_hyps :=
  repeat match goal with
         | H : ∃ _, _ |- _ => destruct H
         | H : _ ∧ _ |- _ => destruct H
         | H : _ ∨ _ |- _ => destruct H
         end; simplify_eq.
#[local] Ltac open_inv :=
  unfold attrs_inv, set_int in *;
  do 2 (cbn [a_mem a_detached a_stacksz a_main ints g_detached_done detached_state stacksz_state] in *; split_hyps);
  rewrite ?app_nil_r.

Lemma attrs_inv_main o s a s' : attrs_inv o s → attrs_main s a s' →
  attrs_inv (o ++ match a with Does o' => o' | Spin => [] end) s'.
Proof.
  intros I Hs. destruct Hs; repeat match goal with g : attrs_mem |- _ => destruct g as [flag h] end; open_inv;
    rewrite ?insert_singleton_eq; try (split_and!; eauto; fail).
  - split; [done|]. by exists (d_read n).
  - destruct x; open_inv; done.
  - split; [done|]. by exists (k_read m).
Qed.

Lemma attrs_inv_detached o g d k m a g' d' :
  attrs_inv o {| a_mem := g; a_detached := Some d; a_stacksz := k; a_main := m |} → detached_fn g d a g' d' →
  attrs_inv (o ++ match a with Does o' => o' | Spin => [] end) {| a_mem := g'; a_detached := Some d'; a_stacksz := k; a_main := m |}.
Proof.
  intros I Hs. destruct Hs, m; try destruct g as [flag h]; open_inv; try done; split; try done.
  - eexists. split; [done|]. cbn [detached_state]. rewrite lookup_singleton_eq in H. by simplify_eq.
  - eexists. split; [done|]. cbn [detached_state]. by rewrite delete_singleton_eq.
  - eexists. split; [done|]. done.
  - eexists. split; [done|]. done.
Qed.

Lemma attrs_inv_stacksz o g d k m a g' k' :
  attrs_inv o {| a_mem := g; a_detached := d; a_stacksz := Some k; a_main := m |} → stacksz_fn g k a g' k' →
  attrs_inv (o ++ match a with Does o' => o' | Spin => [] end) {| a_mem := g'; a_detached := d; a_stacksz := Some k'; a_main := m |}.
Proof.
  intros I Hs. destruct Hs, m; try destruct g as [flag h]; open_inv; try done; split; try done.
  - eexists. split; [done|]. cbn [stacksz_state]. rewrite lookup_singleton_eq in H. by simplify_eq.
  - eexists. split; [done|]. cbn [stacksz_state]. by rewrite delete_singleton_eq.
  - eexists. split; [done|]. done.
Qed.

Lemma attrs_inv_run tr s : run attrs_step section_attrs tr s → attrs_inv (attrs_output tr) s.
Proof.
  induction 1 as [|tr s a s' Hr IH Hs]; [done|]. rewrite attrs_output_snoc. destruct Hs.
  - by eapply attrs_inv_main.
  - by eapply attrs_inv_detached.
  - by eapply attrs_inv_stacksz.
Qed.

(** *** Progress and termination, up to spinning *)

Definition d_weight (d : option detached_pc) : Z :=
  match d with Some (d_read _) => 4 | Some (d_free _ _) => 3 | Some (d_print _) => 2 | Some d_set => 1 | _ => 0 end.
Definition k_weight (k : option stacksz_pc) : Z :=
  match k with Some (k_read _) => 3 | Some (k_free _ _) => 2 | Some (k_print _) => 1 | _ => 0 end.
Definition a_weight (m : attrs_pc) : Z :=
  match m with
  | a_start => 17 | a_malloc_n => 16 | a_set_n _ => 15 | a_create_n _ => 14 | a_spin => 9 | a_stacksize => 8 | a_malloc_m => 7
  | a_set_m _ => 6 | a_create_m _ => 5 | a_join => 1 | a_return | a_exit => 0
  end.
Definition attrs_weight (s : attrs) : Z := a_weight (a_main s) + d_weight (a_detached s) + k_weight (a_stacksz s).

Lemma attrs_weight_step o s a s' : attrs_inv o s → attrs_step s a s' → a ≠ Spin → attrs_weight s' + 1 ≤ attrs_weight s.
Proof.
  intros I Hs Ha. unfold attrs_weight. destruct Hs as [s a s' Hs|g d k m a g' d' Hs|g d k m a g' k' Hs].
  - destruct Hs; cbn [a_detached a_stacksz a_main a_weight]; try done; try lia; open_inv; simpl; lia.
  - destruct Hs; simpl; lia.
  - destruct Hs; simpl; lia.
Qed.

Lemma attrs_weight_nonneg s : 0 ≤ attrs_weight s.
Proof. destruct s as [g [[]|] [[]|] []]; unfold attrs_weight; simpl; lia. Qed.

Lemma attrs_progress o s : attrs_inv o s → attrs_ended s ∨ ∃ a s', attrs_step s a s' ∧ a ≠ Spin.
Proof.
  intros I. destruct s as [[flag h] d k m]. unfold attrs_ended. simpl.
  assert (∀ a s', attrs_main {| a_mem := {| g_detached_done := flag; ints := h |}; a_detached := d; a_stacksz := k; a_main := m |} a s' →
    a ≠ Spin → ∃ a s', attrs_step {| a_mem := {| g_detached_done := flag; ints := h |}; a_detached := d; a_stacksz := k; a_main := m |} a s' ∧ a ≠ Spin)
    as Hmain by (intros a s' Hs Ha; exists a, s'; split; [by constructor|done]).
  destruct m; try (by auto); right; open_inv;
    try (eapply Hmain; [by apply main_malloc_n_fails|done]); try (eapply Hmain; [by apply main_malloc_m_fails|done]);
    try (eapply Hmain; [econstructor; simpl; rewrite ?lookup_singleton_eq; eauto|done]; fail).
  - destruct x as [p|p n|n| |]; open_inv.
    + do 2 eexists. split; [eapply detached_steps, (detached_reads _ _ 99), lookup_singleton_eq|done].
    + do 2 eexists. split; [eapply detached_steps, detached_frees|done]. rewrite lookup_singleton_eq. by eexists.
    + do 2 eexists. split; [eapply detached_steps, detached_prints|done].
    + do 2 eexists. split; [eapply detached_steps, detached_sets|done].
    + eapply Hmain; [by constructor|done].
  - destruct x as [p|p n|n|]; open_inv.
    + do 2 eexists. split; [eapply stacksz_steps, (stacksz_reads _ _ 7), lookup_singleton_eq|done].
    + do 2 eexists. split; [eapply stacksz_steps, stacksz_frees|done]. rewrite lookup_singleton_eq. by eexists.
    + do 2 eexists. split; [eapply stacksz_steps, stacksz_prints|done].
    + eapply Hmain; [by constructor|done].
Qed.

(** The attributes section, whatever the stack sizes of the system: without spinning
    it can be carried to its end from every state, and every run is bounded up to
    spinning; when it has ended nothing is allocated; when it returns it has written its
    lines in one order, the detached thread's before the main thread's, and it exits only
    when an allocation failed, having reported it. *)
Theorem section_attrs_correct :
  (∀ tr s, run attrs_step section_attrs tr s →
     ∃ tr' s', run attrs_step s tr' s' ∧ Forall (λ a, a ≠ Spin) tr' ∧ attrs_ended s') ∧
  (∀ tr s, run attrs_step section_attrs tr s → Forall (λ a, a ≠ Spin) tr → (length tr ≤ 17)%nat) ∧
  (∀ tr s, run attrs_step section_attrs tr s → attrs_ended s →
     ints (a_mem s) = ∅ ∧
     (a_main s = a_return → attrs_output tr = text_custom ++ [say "\n" []]) ∧
     (a_main s = a_exit → attrs_output tr = text_start ++ malloc_failed ∨ attrs_output tr = text_stack ++ malloc_failed)).
Proof.
  assert (∀ tr s, run attrs_step section_attrs tr s → 0 ≤ attrs_weight s) as Hnn by (intros; apply attrs_weight_nonneg).
  assert (∀ tr s a s', run attrs_step section_attrs tr s → attrs_step s a s' → a ≠ Spin → attrs_weight s' + 1 ≤ attrs_weight s) as Hw.
  { intros tr s a s' Hr Hs Ha. by eapply attrs_weight_step; [apply attrs_inv_run| |]. }
  split_and!.
  - apply (run_ends attrs_step section_attrs (λ a, a ≠ Spin) attrs_ended attrs_weight Hnn Hw).
    intros tr s Hr. by eapply attrs_progress, attrs_inv_run.
  - intros tr s Hr Hok. pose proof (run_length _ _ _ _ Hw _ _ Hr Hok) as H. specialize (Hnn _ _ Hr).
    change (attrs_weight section_attrs) with 17 in H. lia.
  - intros tr s Hr He. apply attrs_inv_run in Hr as I. unfold attrs_inv, attrs_ended in *.
    destruct He as [E|E]; rewrite E in I |- *; split_hyps; split_and!; try done; auto.
Qed.
End attributes.

(** ** The program

    The main thread's part of section 4 (the threads are in BoundedQueue), and [main]: what
    it writes and the status it returns or exits with. *)

Definition act_output (a : act) : list ev := match a with Printed s => [Out s] | _ => [] end.

Definition section_condvar (o : list ev) : Prop :=
  ∃ tr s, run BoundedQueue.step (BoundedQueue.section_condvar 2) tr s ∧ all_done s ∧
    o = [say "=== 4. Condition variable: producer/consumer ===\n" []] ++ concat (act_output <$> tr) ++
        [say "  expected sum across consumers: %d\n" [AInt (NITEMS * (NITEMS - 1) / 2)]; say "\n" []].

(** How the program ends: it returns or exits with a status, or an execution with a data race
    is undefined. *)
Inductive result := Ends (o : list ev) (status : Z) | Undefined.

Inductive main (sched : nat → list nat) (default_stacksize : Z) (setstacksize : Z → Z → Z) : result → Prop :=
  | main_basics_exits orc o1 w c :
      section_basics sched (empty_world orc) = Exit c o1 w → main sched default_stacksize setstacksize (Ends o1 c)
  | main_races orc o1 w tr2 s2 :
      section_basics sched (empty_world orc) = Ret tt o1 w →
      run race_step section_race tr2 s2 → data_race tr2.*2 → main sched default_stacksize setstacksize Undefined
  | main_runs orc o1 w tr2 s2 tr3 s3 o4 tr5 s5 tr6 s6 :
      section_basics sched (empty_world orc) = Ret tt o1 w →
      run race_step section_race tr2 s2 → fj_ended s2 → ¬ data_race tr2.*2 →
      run mutex_step section_mutex tr3 s3 → fj_ended s3 →
      section_condvar o4 →
      run (attrs_step default_stacksize setstacksize) section_attrs tr5 s5 → a_main s5 = a_return →
      run pitfalls_step section_pitfalls tr6 s6 → fj_ended s6 →
      main sched default_stacksize setstacksize
        (Ends (o1 ++ output tr2.*1 ++ output tr3 ++ o4 ++ attrs_output tr5 ++ output tr6) 0)
  | main_attrs_exits orc o1 w tr2 s2 tr3 s3 o4 tr5 s5 :
      section_basics sched (empty_world orc) = Ret tt o1 w →
      run race_step section_race tr2 s2 → fj_ended s2 → ¬ data_race tr2.*2 →
      run mutex_step section_mutex tr3 s3 → fj_ended s3 →
      section_condvar o4 →
      run (attrs_step default_stacksize setstacksize) section_attrs tr5 s5 → a_main s5 = a_exit →
      main sched default_stacksize setstacksize (Ends (o1 ++ output tr2.*1 ++ output tr3 ++ o4 ++ attrs_output tr5) 1).

(** C15. The data race of section 2, which the comment above [g_unsafe] announces.  Every
    execution of the section that comes to its end has a data race, since the threads are
    created before the first is joined and nothing else orders their accesses; every
    execution can be carried to one.  So the program is undefined as soon as it gets past
    section 1.  Section 3 repairs it: with the mutex no execution has a data race, because
    of two accesses by different threads the first is followed by an unlocking that comes
    before the locking the second is preceded by. *)
Theorem data_races :
  (∀ tr s, run race_step section_race tr s →
     (fj_ended s → data_race tr.*2) ∧ ∃ tr' s', run race_step s tr' s' ∧ data_race (tr ++ tr').*2) ∧
  (∀ tr s, run mutex_traced section_mutex tr s → ¬ data_race tr.*2) ∧
  (∀ sched default_stacksize setstacksize orc,
     match section_basics sched (empty_world orc) with Ret _ _ _ => main sched default_stacksize setstacksize Undefined | _ => True end) ∧
  (∀ sched default_stacksize setstacksize r, main sched default_stacksize setstacksize r →
     r = Undefined ∨ ∃ orc o w c, section_basics sched (empty_world orc) = Exit c o w ∧ r = Ends o c).
Proof.
  split_and!.
  - intros tr s Hr. split; [by eapply unsafe_races|by eapply unsafe_comes_to_race].
  - exact mutex_race_free.
  - intros sched d f orc. destruct (section_basics _ _) as [[] o w| | |] eqn:E; try done.
    destruct (unsafe_comes_to_race [say "=== 2. Race condition ===\n" []] race_report [] section_race (run_start _ _)) as (tr & s & Hr & Hrace). by eapply main_races.
  - intros sched d f r [orc o w c E|orc o w tr s E Hr Hrace|orc o1 w tr s tr3 s3 o4 tr5 s5 tr6 s6 E Hr He Hn|orc o1 w tr s tr3 s3 o4 tr5 s5 E Hr He Hn];
      [right; by exists orc, o, w, c|by left|exfalso; by eapply Hn, unsafe_races..].
Qed.
