(* ===== verification/LockFree.v ===== *)
(** * Exercise 29, section 6: the lock-free stack

    Model of [LFStack], [lf_push] and [lf_pop] of [exercises/29_atomics/atomics.c] as step
    relations: a step is one access to shared memory.  A weak compare-and-exchange may
    fail although the values are equal.  Reading a node that is not allocated is
    undefined: there is no step.  The clients are any number of threads that push new
    nodes and pop; a client that recycles may also free a node it has popped or push it
    again. *)

From S2P Require Import Prelude Machine CString Double Printf SepLogic Pure Interleave.
#[local] Open Scope Z_scope.

(** ** Data *)

Record Node := { value : Z; next : ptr }.

(** [s->head], and the nodes that are allocated. *)
Record LFStack := { head : ptr; nodes : gmap positive Node }.

Definition set_head (p : ptr) (g : LFStack) : LFStack := {| head := p; nodes := nodes g |}.
Definition set_nodes (m : gmap positive Node) (g : LFStack) : LFStack := {| head := head g; nodes := m |}.
Definition set_next (n : positive) (p : ptr) (g : LFStack) : LFStack :=
  set_nodes (alter (λ x, {| value := value x; next := p |}) n (nodes g)) g.

(** What a step does for the observer: it takes effect on the stack, or it is a step of
    another kind; [Spurious] is the failure of a weak exchange on equal values. *)
Inductive act := Tau | Push (n : positive) | Pop (r : ptr) | Spurious.

(** ** The operations *)

Inductive push_pc := push_load | push_next (old_head : ptr) | push_cas (old_head : ptr) | push_return.

Inductive lf_push (node : positive) : LFStack → push_pc → act → LFStack → push_pc → Prop :=
  | push_loads s : lf_push node s push_load Tau s (push_next (head s))
  | push_links s old : is_Some (nodes s !! node) →
      lf_push node s (push_next old) Tau (set_next node old s) (push_cas old)
  | push_succeeds s old : head s = old →
      lf_push node s (push_cas old) (Push node) (set_head (Some node) s) push_return
  | push_fails s old : head s ≠ old → lf_push node s (push_cas old) Tau s push_load
  | push_fails_spuriously s old : head s = old → lf_push node s (push_cas old) Spurious s push_load.

Inductive pop_pc := pop_load | pop_next (old_head : positive) | pop_cas (old_head : positive) (new_head : ptr) | pop_return (r : ptr).

Inductive lf_pop : LFStack → pop_pc → act → LFStack → pop_pc → Prop :=
  | pop_loads s old : head s = Some old → lf_pop s pop_load Tau s (pop_next old)
  | pop_empty s : head s = None → lf_pop s pop_load (Pop NULL) s (pop_return NULL)
  | pop_reads s old x : nodes s !! old = Some x → lf_pop s (pop_next old) Tau s (pop_cas old (next x))
  | pop_succeeds s old new : head s = Some old →
      lf_pop s (pop_cas old new) (Pop (Some old)) (set_head new s) (pop_return (Some old))
  | pop_fails s old new : head s ≠ Some old → lf_pop s (pop_cas old new) Tau s pop_load
  | pop_fails_spuriously s old new : head s = Some old → lf_pop s (pop_cas old new) Spurious s pop_load.

(** ** The clients *)

Inductive client_pc := Idle | Pushing (n : positive) (p : push_pc) | Popping (p : pop_pc) | Holding (n : positive).

Inductive client (recycles : bool) : LFStack → client_pc → act → LFStack → client_pc → Prop :=
  | client_new g n v junk : nodes g !! n = None →
      client recycles g Idle Tau (set_nodes (<[n := {| value := v; next := junk |}]> (nodes g)) g) (Pushing n push_load)
  | client_push g n p a g' p' : lf_push n g p a g' p' → client recycles g (Pushing n p) a g' (Pushing n p')
  | client_pushed g n : client recycles g (Pushing n push_return) Tau g Idle
  | client_pop g : client recycles g Idle Tau g (Popping pop_load)
  | client_pops g p a g' p' : lf_pop g p a g' p' → client recycles g (Popping p) a g' (Popping p')
  | client_popped_none g : client recycles g (Popping (pop_return None)) Tau g Idle
  | client_popped g n : client recycles g (Popping (pop_return (Some n))) Tau g (Holding n)
  | client_keeps g n : client recycles g (Holding n) Tau g Idle
  | client_frees g n : recycles = true → is_Some (nodes g !! n) →
      client recycles g (Holding n) Tau (set_nodes (delete n (nodes g)) g) Idle
  | client_again g n : recycles = true → client recycles g (Holding n) Tau g (Pushing n push_load).

Record system := { mem : LFStack; clients : list client_pc }.

Inductive step (recycles : bool) : system → act → system → Prop :=
  | client_steps g cs j c a g' c' : cs !! j = Some c → client recycles g c a g' c' →
      step recycles {| mem := g; clients := cs |} a {| mem := g'; clients := <[j:=c']> cs |}.

Definition empty_stack (threads : nat) : system :=
  {| mem := {| head := NULL; nodes := ∅ |}; clients := replicate threads Idle |}.

(** ** The abstract stack

    The effects of a trace, one after the other, on a list: undefined where a pop takes
    something else than the top. *)
Definition effect (a : act) (st : list positive) : option (list positive) :=
  match a with
  | Push n => Some (n :: st)
  | Pop None => if st is [] then Some [] else None
  | Pop (Some n) => match st with m :: st' => if decide (m = n) then Some st' else None | [] => None end
  | _ => Some st
  end.

Fixpoint replay (tr : list act) (st : list positive) : option (list positive) :=
  match tr with [] => Some st | a :: tr' => st' ← effect a st; replay tr' st' end.

Lemma replay_snoc tr a st : replay (tr ++ [a]) st = (st' ← replay tr st; effect a st').
Proof.
  revert st. induction tr as [|b tr IH]; intros st; simpl; [by destruct (effect a st)|].
  destruct (effect b st); simpl; [apply IH|done].
Qed.

(** The list of the nodes from [p] on. *)
Fixpoint chain (m : gmap positive Node) (p : ptr) (st : list positive) : Prop :=
  match st with
  | [] => p = None
  | n :: st' => p = Some n ∧ ∃ x, m !! n = Some x ∧ chain m (next x) st'
  end.

Lemma chain_ext m m' p st : (∀ n, n ∈ st → m' !! n = m !! n) → chain m p st → chain m' p st.
Proof.
  revert p. induction st as [|n st IH]; intros p Hext; simpl; [done|]. intros (-> & x & Hx & Hc).
  split; [done|]. exists x. rewrite Hext; [|by left]. split; [done|]. apply IH; [|done].
  intros k Hk. apply Hext. by right.
Qed.

Lemma chain_in m p st n : chain m p st → n ∈ st → is_Some (m !! n).
Proof.
  revert p. induction st as [|k st IH]; intros p; simpl; [by intros _ ?%elem_of_nil|].
  intros (-> & x & Hx & Hc) [->|Hn]%elem_of_cons; [by eexists|by eapply IH].
Qed.

(** ** The invariant without recycling *)

(** The node a client has not published yet. *)
Definition owns (c : client_pc) : option positive :=
  match c with Pushing n (push_load | push_next _ | push_cas _) => Some n | _ => None end.

(** What a client knows: its node's link, or a published node and its link. *)
Definition knows (m : gmap positive Node) (published : positive → Prop) (c : client_pc) : Prop :=
  match c with
  | Pushing n (push_cas old) => ∃ x, m !! n = Some x ∧ next x = old
  | Popping (pop_next old) => published old
  | Popping (pop_cas old new) => published old ∧ ∃ x, m !! old = Some x ∧ next x = new
  | _ => True
  end.

Definition published (s : system) (n : positive) : Prop :=
  is_Some (nodes (mem s) !! n) ∧ ∀ j c, clients s !! j = Some c → owns c ≠ Some n.

Record Inv (tr : list act) (s : system) (st : list positive) : Prop := {
  i_replay : replay tr [] = Some st;
  i_chain : chain (nodes (mem s)) (head (mem s)) st;
  i_nodup : NoDup st;
  i_stack n : n ∈ st → published s n;
  i_owned j c n : clients s !! j = Some c → owns c = Some n → is_Some (nodes (mem s) !! n);
  i_unique j k c d n : clients s !! j = Some c → clients s !! k = Some d → owns c = Some n → owns d = Some n → j = k;
  i_knows j c : clients s !! j = Some c → knows (nodes (mem s)) (published s) c;
}.

Lemma lf_inv_init threads : Inv [] (empty_stack threads) [].
Proof.
  assert (∀ j c, replicate threads Idle !! j = Some c → c = Idle) as Hc by (intros j c [-> _]%lookup_replicate; done).
  split; simpl; try done.
  - constructor.
  - by intros n ?%elem_of_nil.
  - by intros j c n ->%Hc.
  - by intros j k c d n ->%Hc.
  - by intros j c ->%Hc.
Qed.

(** A step of client [j] keeps the invariant when it leaves alone the published nodes and
    the nodes of the other clients. *)
Section frame.
Context (tr : list act) (g g' : LFStack) (cs : list client_pc) (st st' : list positive) (j : nat) (c c' : client_pc) (a : act).
Notation before := {| mem := g; clients := cs |}.
Notation after := {| mem := g'; clients := <[j:=c']> cs |}.
Context (I : Inv tr before st) (Hj : cs !! j = Some c).
Hypothesis Hdom : ∀ n, is_Some (nodes g !! n) → is_Some (nodes g' !! n).
Hypothesis Hkeep : ∀ n, published before n → nodes g' !! n = nodes g !! n.
Hypothesis Hothers : ∀ k d n, k ≠ j → cs !! k = Some d → owns d = Some n → nodes g' !! n = nodes g !! n.
Hypothesis Hown : ∀ n, owns c' = Some n → is_Some (nodes g' !! n) ∧ (owns c = Some n ∨ nodes g !! n = None).

Lemma published_mono n : published before n → published after n.
Proof.
  intros [Hn Hp]. split; [by apply Hdom|]. simpl in *. intros k d [(-> & <- & _)|[Hk Hd]]%list_lookup_insert_Some.
  - intros Ho. destruct (Hown n Ho) as [_ [Hc|Hc]]; [by eapply Hp|]. rewrite Hc in Hn. by destruct Hn.
  - by eapply Hp.
Qed.

Lemma published_new n : owns c = Some n → owns c' ≠ Some n → published after n.
Proof.
  intros Hc Hc'. split; [eapply Hdom, (i_owned _ _ _ I); simpl; [exact Hj|done]|].
  simpl. intros k d [(-> & <- & _)|[Hk Hd]]%list_lookup_insert_Some; [done|].
  intros Ho. pose proof (i_unique _ _ _ I j k c d n Hj Hd Hc Ho). done.
Qed.

Lemma lf_inv_frame :
  effect a st = Some st' → chain (nodes g') (head g') st' → NoDup st' →
  (∀ n, n ∈ st' → n ∈ st ∨ (owns c = Some n ∧ owns c' ≠ Some n)) →
  knows (nodes g') (published after) c' →
  Inv (tr ++ [a]) after st'.
Proof.
  intros Ha Hch Hnd Hst Hk. split; simpl; try done.
  - rewrite replay_snoc (i_replay _ _ _ I). exact Ha.
  - intros n [Hn|[H1 H2]]%Hst; [by apply published_mono, (i_stack _ _ _ I)|by apply published_new].
  - intros k d n [(-> & <- & _)|[_ Hd]]%list_lookup_insert_Some Ho; [by apply Hown|].
    by eapply Hdom, (i_owned _ _ _ I).
  - assert (∀ k d n, k ≠ j → cs !! k = Some d → owns d = Some n → owns c' = Some n → False) as Hne.
    { intros k d n Hkj Hd Ho Ho'. destruct (Hown n Ho') as [_ [Hc|Hc]].
      - by pose proof (i_unique _ _ _ I j k c d n Hj Hd Hc Ho).
      - destruct (i_owned _ _ _ I k d n Hd Ho) as [x Hx]. simpl in Hx. congruence. }
    intros k l d e n [(<- & <- & _)|[Hkj Hd]]%list_lookup_insert_Some [(<- & <- & _)|[Hlj He]]%list_lookup_insert_Some H1 H2;
      [done|exfalso; by eapply Hne|exfalso; by eapply Hne|by eapply (i_unique _ _ _ I)].
  - intros k d [(-> & <- & _)|[Hkj Hd]]%list_lookup_insert_Some; [done|].
    pose proof (i_knows _ _ _ I k d Hd) as Hkn. simpl in Hkn.
    destruct d as [|n [| |old|]|[|old|old new|]|]; simpl in *; try done.
    + rewrite (Hothers k _ n (not_eq_sym Hkj) Hd); done.
    + by apply published_mono.
    + destruct Hkn as [Hp Hx]. split; [by apply published_mono|]. by rewrite Hkeep.
Qed.
End frame.

(** The steps, by what they do: a node is made, a step of a push, a step of a pop. *)
Section steps.
Context (tr : list act) (g g' : LFStack) (cs : list client_pc) (j : nat) (a : act).
Notation before := {| mem := g; clients := cs |}.
Notation goes_on a g' c' := (∃ st', Inv (tr ++ [a]) {| mem := g'; clients := <[j:=c']> cs |} st').

Lemma inv_new st n v junk : Inv tr before st → cs !! j = Some Idle → nodes g !! n = None →
  goes_on Tau (set_nodes (<[n:={| value := v; next := junk |}]> (nodes g)) g) (Pushing n push_load).
Proof.
  intros I Hj Hn.
  pose proof (i_chain _ _ _ I) as Hch. pose proof (i_nodup _ _ _ I) as Hnd. simpl in Hch.
  assert (∀ k, is_Some (nodes g !! k) → <[n:={| value := v; next := junk |}]> (nodes g) !! k = nodes g !! k) as Hne.
  { intros k Hk'. apply lookup_insert_ne. intros ->. rewrite Hn in Hk'. by destruct Hk'. }
  exists st. eapply lf_inv_frame; try done; simpl.
  - intros k Hk'. by rewrite Hne.
  - intros k [Hk' _]. by apply Hne.
  - intros k d m _ Hd Ho. apply Hne. by eapply (i_owned _ _ _ I).
  - intros k [= <-]. rewrite lookup_insert_eq. split; [by eexists|by right].
  - eapply chain_ext; [|exact Hch]. intros k Hk'. by apply Hne, (i_stack _ _ _ I).
  - auto.
Qed.

Lemma inv_push st n p p' : Inv tr before st → cs !! j = Some (Pushing n p) → lf_push n g p a g' p' → goes_on a g' (Pushing n p').
Proof.
  intros I Hj Hp. pose proof (i_knows _ _ _ I j _ Hj) as Hk.
  pose proof (i_chain _ _ _ I) as Hch. pose proof (i_nodup _ _ _ I) as Hnd. simpl in Hch.
  inversion Hp; subst; simpl in *.
  - exists st. eapply lf_inv_frame; try done; simpl; auto. intros k [= <-]. split; [|auto]. by eapply (i_owned _ _ _ I).
  - assert (∀ k, k ≠ n → alter (λ x, {| value := value x; next := old |}) n (nodes g) !! k = nodes g !! k) as Hne
      by (intros; by apply lookup_alter_ne).
    destruct H as [x Hx].
    exists st. eapply lf_inv_frame; try done; simpl.
    + intros k [y Hy]. destruct (decide (k = n)) as [->|]; [|rewrite Hne //; by eexists].
      rewrite lookup_alter_eq Hx. by eexists.
    + intros k [_ Hk']. apply Hne. intros ->. by eapply (Hk' j).
    + intros k d m Hkj Hd Ho. apply Hne. intros ->. by pose proof (i_unique _ _ _ I j k _ d n Hj Hd eq_refl Ho).
    + intros k [= <-]. rewrite lookup_alter_eq Hx. split; [by eexists|by left].
    + eapply chain_ext; [|exact Hch]. intros k Hk'. apply Hne. intros ->.
      destruct (i_stack _ _ _ I n Hk') as [_ Hk'']. by eapply (Hk'' j).
    + auto.
    + rewrite lookup_alter_eq Hx. simpl. by eexists.
  - destruct Hk as (x & Hx & Hnx).
    exists (n :: st). eapply lf_inv_frame; try done; simpl; auto.
    + split; [done|]. exists x. split; [done|]. by rewrite Hnx.
    + constructor; [|done]. intros Hin. destruct (i_stack _ _ _ I n Hin) as [_ Hp']. by eapply (Hp' j).
    + intros k [->|Hk']%elem_of_cons; [by right|by left].
  - exists st. eapply lf_inv_frame; try done; simpl; auto. intros k [= <-]. split; [|auto]. by eapply (i_owned _ _ _ I).
  - exists st. eapply lf_inv_frame; try done; simpl; auto. intros k [= <-]. split; [|auto]. by eapply (i_owned _ _ _ I).
Qed.

Lemma inv_pop st p p' : Inv tr before st → cs !! j = Some (Popping p) → lf_pop g p a g' p' → goes_on a g' (Popping p').
Proof.
  intros I Hj Hp. pose proof (i_knows _ _ _ I j _ Hj) as Hk.
  pose proof (i_chain _ _ _ I) as Hch. pose proof (i_nodup _ _ _ I) as Hnd. simpl in Hch.
  inversion Hp; subst; simpl in *.
  - exists st. eapply lf_inv_frame; try done; simpl; auto.
    rewrite H in Hch. destruct st as [|m st]; [done|]. destruct Hch as [[= <-] _].
    eapply published_mono; try done; simpl; auto. apply (i_stack _ _ _ I). by left.
  - exists st. eapply lf_inv_frame; try done; simpl; auto. rewrite H in Hch. by destruct st as [|m st]; [|destruct Hch].
  - exists st. eapply lf_inv_frame; try done; simpl; auto. split; [|by eexists].
    eapply published_mono; try done; simpl; auto.
  - destruct Hk as [_ (x & Hx & Hnx)]. rewrite H in Hch. destruct st as [|m st]; [done|].
    destruct Hch as [[= <-] (y & Hy & Hch)]. assert (x = y) as <- by congruence. rewrite Hnx in Hch.
    apply NoDup_cons in Hnd as [_ Hnd].
    exists st. eapply lf_inv_frame; try done; simpl; auto.
    + by rewrite decide_True.
    + intros k Hk. left. by right.
  - exists st. by eapply lf_inv_frame; simpl; auto.
  - exists st. by eapply lf_inv_frame; simpl; auto.
Qed.
End steps.

Lemma lf_inv_step tr s st a s' : Inv tr s st → step false s a s' → ∃ st', Inv (tr ++ [a]) s' st'.
Proof.
  intros I Hs. destruct Hs as [g cs j c a g' c' Hj Hc]. pose proof (i_chain _ _ _ I) as Hch. pose proof (i_nodup _ _ _ I) as Hnd.
  destruct Hc; try done; [by eapply inv_new|by eapply inv_push| | |by eapply inv_pop|..];
    exists st; by eapply lf_inv_frame; simpl; auto.
Qed.

Lemma lf_run_inv threads tr s : run (step false) (empty_stack threads) tr s → ∃ st, Inv tr s st.
Proof.
  induction 1 as [|tr s a s' Hr [st I] Hs]; [eexists; apply lf_inv_init|by eapply lf_inv_step].
Qed.

(** Every client can go on: in particular no link of a freed node is read. *)
Lemma client_goes_on tr s st j c :
  Inv tr s st → clients s !! j = Some c → ∃ a g' c', client false (mem s) c a g' c'.
Proof.
  intros I Hj. destruct s as [g cs]. simpl in *. pose proof (i_knows _ _ _ I j c Hj) as Hk. simpl in Hk.
  pose proof (λ n, i_owned _ _ _ I j c n Hj) as Ho. simpl in Ho.
  destruct c as [|n [|old|old|]|[|old|old new|[n|]]|n].
  - do 3 eexists. apply client_pop.
  - do 3 eexists. apply client_push, push_loads.
  - do 3 eexists. apply client_push, push_links. by apply Ho.
  - destruct (decide (head g = old)); do 3 eexists; apply client_push; [by apply push_succeeds|by apply push_fails].
  - do 3 eexists. apply client_pushed.
  - destruct (head g) as [p|] eqn:E; do 3 eexists; apply client_pops; [by apply pop_loads|by apply pop_empty].
  - destruct Hk as [[x Hx] _]. do 3 eexists. by eapply client_pops, pop_reads.
  - destruct (decide (head g = Some old)); do 3 eexists; apply client_pops; [by apply pop_succeeds|by apply pop_fails].
  - do 3 eexists. apply client_popped.
  - do 3 eexists. apply client_popped_none.
  - do 3 eexists. apply client_keeps.
Qed.

(** ** Lock freedom

    A weight that every step decreases unless it takes effect or fails spuriously: an
    exchange fails on different values only when another one has succeeded since the
    head was loaded. *)

Definition client_weight (h : ptr) (c : client_pc) : Z :=
  match c with
  | Idle => 8
  | Pushing _ push_load => 7
  | Pushing _ (push_next old) => if decide (old = h) then 6 else 11
  | Pushing _ (push_cas old) => if decide (old = h) then 5 else 10
  | Pushing _ push_return => 9
  | Popping pop_load => 7
  | Popping (pop_next old) => if decide (Some old = h) then 6 else 11
  | Popping (pop_cas old _) => if decide (Some old = h) then 5 else 10
  | Popping (pop_return _) => 10
  | Holding _ => 9
  end.

Definition weight (s : system) : Z := zsum (client_weight (head (mem s)) <$> clients s).

(** The steps that take effect, and the spurious failures. *)
Definition counts (a : act) : Z := match a with Tau => 0 | _ => 1 end.
Definition events (tr : list act) : Z := zsum (counts <$> tr).

Lemma weight_any h h' cs : zsum (client_weight h' <$> cs) ≤ zsum (client_weight h <$> cs) + 5 * length cs.
Proof.
  induction cs as [|c cs IH]; [done|].
  change (client_weight h' c + zsum (client_weight h' <$> cs) ≤ client_weight h c + zsum (client_weight h <$> cs) + 5 * S (length cs)).
  assert (client_weight h' c ≤ client_weight h c + 5); [|lia].
  destruct c as [|? [| | |]|[| | |]|]; simpl; repeat case_decide; lia.
Qed.

Lemma lf_step_weight b s a s' : step b s a s' →
  length (clients s') = length (clients s) ∧ weight s' + 1 ≤ weight s + (5 * length (clients s) + 6) * counts a.
Proof.
  intros Hs. destruct Hs as [g cs j c a g' c' Hj Hc]. unfold weight. simpl. split; [apply length_insert|].
  rewrite (zsum_insert _ _ _ _ _ Hj). pose proof (weight_any (head g) (head g') cs) as Hany.
  assert (client_weight (head g) c = client_weight (head g') c ∧ client_weight (head g') c' + 1 ≤ client_weight (head g) c ∧ head g = head g'
    ∨ a ≠ Tau ∧ client_weight (head g') c' ≤ client_weight (head g') c + 5) as [(Hc1 & Hc2 & ->)|[Ha Hc1]].
  - destruct Hc as [| ? ? ? ? ? ? Hp | | | ? ? ? ? ? Hp | | | | |]; try (left; split_and!; simpl; done || lia);
      inversion Hp; subst; simpl;
      try (left; split_and!; [done|repeat case_decide; congruence || lia|done]);
      (right; split; [done|]; repeat case_decide; simpl in *; congruence || lia).
  - destruct a; simpl; try lia.
  - destruct a; simpl; try done; lia.
Qed.

Lemma lf_run_weight b threads tr s : run (step b) (empty_stack threads) tr s →
  length (clients s) = threads ∧ weight s + length tr ≤ 8 * threads + (5 * threads + 6) * events tr.
Proof.
  induction 1 as [|tr s a s' Hr [Hl IH] Hs].
  - unfold weight, events. simpl. rewrite length_replicate zsum_replicate. simpl. lia.
  - destruct (lf_step_weight _ _ _ _ Hs) as [Hl' Hw]. rewrite Hl' Hl. split; [done|]. rewrite Hl in Hw.
    unfold events in *. rewrite fmap_app zsum_app length_app. simpl. lia.
Qed.

Lemma lf_weight_nonneg s : 0 ≤ weight s.
Proof.
  apply zsum_nonneg, Forall_forall. intros c _. destruct c as [|? [| | |]|[| | |]|]; simpl; repeat case_decide; lia.
Qed.

(** ** Running a schedule

    What client [j] is told to do: start an operation, take its next step, fail
    spuriously, or dispose of the node it holds. *)

Inductive choice := New (n : positive) (v : Z) | StartPop | Go | FailSpuriously | Keep | Free | Again.

Definition exec_push (n : positive) (g : LFStack) (p : push_pc) (spurious : bool) : option (act * LFStack * push_pc) :=
  match p with
  | push_load => Some (Tau, g, push_next (head g))
  | push_next old => if nodes g !! n then Some (Tau, set_next n old g, push_cas old) else None
  | push_cas old =>
      if decide (head g = old) then
        if spurious then Some (Spurious, g, push_load) else Some (Push n, set_head (Some n) g, push_return)
      else Some (Tau, g, push_load)
  | push_return => None
  end.

Definition exec_pop (g : LFStack) (p : pop_pc) (spurious : bool) : option (act * LFStack * pop_pc) :=
  match p with
  | pop_load => match head g with Some old => Some (Tau, g, pop_next old) | None => Some (Pop NULL, g, pop_return NULL) end
  | pop_next old => match nodes g !! old with Some x => Some (Tau, g, pop_cas old (next x)) | None => None end
  | pop_cas old new =>
      if decide (head g = Some old) then
        if spurious then Some (Spurious, g, pop_load) else Some (Pop (Some old), set_head new g, pop_return (Some old))
      else Some (Tau, g, pop_load)
  | pop_return _ => None
  end.

Definition exec_client (recycles : bool) (g : LFStack) (c : client_pc) (k : choice) : option (act * LFStack * client_pc) :=
  match c, k with
  | Idle, New n v =>
      if nodes g !! n then None else Some (Tau, set_nodes (<[n := {| value := v; next := NULL |}]> (nodes g)) g, Pushing n push_load)
  | Idle, StartPop => Some (Tau, g, Popping pop_load)
  | Pushing n push_return, Go => Some (Tau, g, Idle)
  | Pushing n p, Go => '(a, g', p') ← exec_push n g p false; Some (a, g', Pushing n p')
  | Pushing n p, FailSpuriously => '(a, g', p') ← exec_push n g p true; Some (a, g', Pushing n p')
  | Popping (pop_return None), Go => Some (Tau, g, Idle)
  | Popping (pop_return (Some n)), Go => Some (Tau, g, Holding n)
  | Popping p, Go => '(a, g', p') ← exec_pop g p false; Some (a, g', Popping p')
  | Popping p, FailSpuriously => '(a, g', p') ← exec_pop g p true; Some (a, g', Popping p')
  | Holding n, Keep => Some (Tau, g, Idle)
  | Holding n, Free => if recycles then if nodes g !! n then Some (Tau, set_nodes (delete n (nodes g)) g, Idle) else None else None
  | Holding n, Again => if recycles then Some (Tau, g, Pushing n push_load) else None
  | _, _ => None
  end.

Fixpoint exec (recycles : bool) (sched : list (nat * choice)) (s : system) : option (list act * system) :=
  match sched with
  | [] => Some ([], s)
  | (j, k) :: sched =>
      c ← clients s !! j;
      '(a, g', c') ← exec_client recycles (mem s) c k;
      '(tr, s') ← exec recycles sched {| mem := g'; clients := <[j:=c']> (clients s) |};
      Some (a :: tr, s')
  end.

Lemma exec_push_sound n g p b a g' p' : exec_push n g p b = Some (a, g', p') → lf_push n g p a g' p'.
Proof.
  destruct p; simpl; intros H; repeat case_match; simplify_eq; by constructor.
Qed.

Lemma exec_pop_sound g p b a g' p' : exec_pop g p b = Some (a, g', p') → lf_pop g p a g' p'.
Proof. destruct p; simpl; intros H; repeat case_match; simplify_eq; by constructor. Qed.

Lemma exec_client_sound b g c k a g' c' : exec_client b g c k = Some (a, g', c') → client b g c a g' c'.
Proof.
  destruct c as [|n p|p|n]; [| | |].
  - destruct k; simpl; try done.
    + destruct (nodes g !! n) eqn:E; [done|]. intros [= <- <- <-]. by apply client_new.
    + intros [= <- <- <-]. apply client_pop.
  - assert (∀ sp, ('(a, g', p') ← exec_push n g p sp; Some (a, g', Pushing n p')) = Some (a, g', c') →
      client b g (Pushing n p) a g' c') as Hop.
    { intros sp. destruct (exec_push n g p sp) as [[[? ?] ?]|] eqn:E; simpl; [|done].
      intros [= <- <- <-]. by eapply client_push, exec_push_sound. }
    destruct p, k; try done; try (apply (Hop false)); try (apply (Hop true)). intros [= <- <- <-]. apply client_pushed.
  - assert (∀ sp, ('(a, g', p') ← exec_pop g p sp; Some (a, g', Popping p')) = Some (a, g', c') →
      client b g (Popping p) a g' c') as Hop.
    { intros sp. destruct (exec_pop g p sp) as [[[? ?] ?]|] eqn:E; simpl; [|done].
      intros [= <- <- <-]. by eapply client_pops, exec_pop_sound. }
    destruct p as [| | |[]], k; try done; try (apply (Hop false)); try (apply (Hop true)); intros [= <- <- <-]; by constructor.
  - destruct k; simpl; try done.
    + intros [= <- <- <-]. apply client_keeps.
    + destruct b; [|done]. destruct (nodes g !! n) eqn:E; [|done]. intros [= <- <- <-]. apply client_frees; [done|by eexists].
    + destruct b; [|done]. intros [= <- <- <-]. by apply client_again.
Qed.

Lemma exec_sound b sched s tr s' : exec b sched s = Some (tr, s') → run (step b) s tr s'.
Proof.
  revert s tr. induction sched as [|[j k] sched IH]; intros s tr; simpl; [intros [= <- <-]; apply run_start|].
  destruct (clients s !! j) as [c|] eqn:Hj; simpl; [|done].
  destruct (exec_client b (mem s) c k) as [[[a g'] c']|] eqn:E; simpl; [|done].
  destruct (exec b sched _) as [[tr' s1]|] eqn:E'; simpl; [|done]. intros [= <- <-].
  eapply run_cons; [|by apply IH]. destruct s as [g cs]. eapply client_steps; [exact Hj|by eapply exec_client_sound].
Qed.

(** Whole operations. *)
Definition push_all (j : nat) (n : positive) (v : Z) : list (nat * choice) := (j, New n v) :: replicate 4 (j, Go).
Definition pop_all (j : nat) : list (nat * choice) := (j, StartPop) :: replicate 4 (j, Go).

(** The ABA schedule of the comment: client 0 reads the head A and its link B; clients 1
    and 2 pop A and B; client 1 pushes A again; the exchange of client 0 succeeds and
    makes B, which client 2 has popped, the head; client 0 then pops it once more. *)
Definition aba : list (nat * choice) :=
  push_all 0 2 20 ++ push_all 0 1 10 ++ [(0%nat, StartPop); (0%nat, Go); (0%nat, Go)] ++ pop_all 1 ++ pop_all 2 ++
  ((1%nat, Again) :: replicate 4 (1%nat, Go)) ++ [(0%nat, Go); (0%nat, Go); (0%nat, Keep)] ++ pop_all 0.

(** Use after free: client 0 loads the head, client 1 pops that node and frees it. *)
Definition use_after_free : list (nat * choice) :=
  push_all 0 1 10 ++ [(0%nat, StartPop); (0%nat, Go)] ++ pop_all 1 ++ [(1%nat, Free)].

(** C17. The lock-free stack, for any number of threads that push new nodes and pop, and
    any interleaving: the effects, in the order of the successful exchanges, are those of
    a stack; the nodes linked from the head are that stack, without repetition; and every
    thread can take its next step, so that nothing undefined is read and no thread waits
    for another. *)
Theorem lf_stack_linearizable threads tr s :
  run (step false) (empty_stack threads) tr s →
  (∃ st, replay tr [] = Some st ∧ chain (nodes (mem s)) (head (mem s)) st ∧ NoDup st) ∧
  ∀ j c, clients s !! j = Some c → ∃ a g' c', client false (mem s) c a g' c'.
Proof.
  intros [st I]%lf_run_inv. split.
  - exists st. split_and!; [apply I..].
  - intros j c. by eapply client_goes_on.
Qed.

Lemma lf_stack_linearizable_witness :
  ∃ tr s, run (step false) (empty_stack 2) tr s ∧ ∃ st, replay tr [] = Some st ∧ chain (nodes (mem s)) (head (mem s)) st ∧ NoDup st.
Proof.
  destruct (exec false (push_all 0 1 10 ++ push_all 1 2 20 ++ pop_all 0) (empty_stack 2)) as [[tr s]|] eqn:E; [|by vm_compute in E].
  exists tr, s. split; [by apply (exec_sound _ _ _ _ _ E)|].
  apply (lf_stack_linearizable 2 tr s (exec_sound _ _ _ _ _ E)).
Defined.

(** C18. Lock freedom, with recycling clients or without: between two steps that take
    effect on the stack, spurious failures counted with them, the threads together take
    only a bounded number of steps; some operation always completes. *)
Theorem lf_stack_lock_free recycles threads tr s :
  run (step recycles) (empty_stack threads) tr s →
  Z.of_nat (length tr) ≤ 8 * threads + (5 * threads + 6) * events tr.
Proof. intros [_ H]%lf_run_weight. pose proof (lf_weight_nonneg s). lia. Qed.

Lemma lf_stack_lock_free_witness :
  ∃ tr s, run (step true) (empty_stack 3) tr s ∧ Z.of_nat (length tr) ≤ 8 * 3 + (5 * 3 + 6) * events tr.
Proof.
  destruct (exec true aba (empty_stack 3)) as [[tr s]|] eqn:E; [|by vm_compute in E].
  exists tr, s. split; [by apply (exec_sound _ _ _ _ _ E)|].
  apply (lf_stack_lock_free true 3 tr s (exec_sound _ _ _ _ _ E)).
Defined.

(** C19. Reuse breaks the stack: with three threads that push popped nodes again, a run
    exists in which a node is popped that is not on the stack; with two threads that
    free what they pop, one in which a thread reads a freed node. *)
Theorem lf_stack_reuse_unsafe :
  (∃ tr s, run (step true) (empty_stack 3) tr s ∧ replay tr [] = None) ∧
  (∃ tr s old, run (step true) (empty_stack 2) tr s ∧
     clients s !! 0%nat = Some (Popping (pop_next old)) ∧ nodes (mem s) !! old = None ∧
     ¬ ∃ a g' p', lf_pop (mem s) (pop_next old) a g' p').
Proof.
  split.
  - destruct (exec true aba (empty_stack 3)) as [[tr s]|] eqn:E; [|by vm_compute in E].
    exists tr, s. split; [by apply (exec_sound _ _ _ _ _ E)|]. apply (f_equal (fmap fst)) in E. vm_compute in E.
    by simplify_eq.
  - destruct (exec true use_after_free (empty_stack 2)) as [[tr s]|] eqn:E; [|by vm_compute in E].
    exists tr, s, 1%positive. split; [by apply (exec_sound _ _ _ _ _ E)|].
    vm_compute in E. simplify_eq. split_and!; [done|done|]. intros (a & g' & p' & H). by inversion H; subst.
Qed.
