(* ===== verification/Atomics.v ===== *)
(** * Exercise 29: atomics

    Model of [exercises/29_atomics/atomics.c]; the lock-free stack is in LockFree.  An
    atomic operation is one step of its thread, in one order all threads agree on; the
    weaker memory orders of the source allow no other outcome here, where each atomic is
    the only shared variable or guards the other.  The counters that are not atomic are read
    and written in separate steps; an execution with a data race is undefined (Races). *)

From S2P Require Import Prelude Machine CString Double Printf SepLogic Pure Interleave Races Threads LockFree.
#[local] Open Scope Z_scope.

(** ** Atomic operations

    On atomic objects signed arithmetic wraps around; the operations give the old value. *)

Definition fetch_add (x n : Z) : Z * Z := (to_int (x + n), x).
Definition fetch_sub (x n : Z) : Z * Z := (to_int (x - n), x).
Definition fetch_or (x n : Z) : Z * Z := (Z.lor x n, x).
Definition fetch_and (x n : Z) : Z * Z := (Z.land x n, x).

(** [atomic_compare_exchange]: the result, the object and [*expected] after it;
    [spurious] is the failure the weak form is allowed. *)
Definition compare_exchange (spurious : bool) (obj expected desired : Z) : bool * Z * Z :=
  if (obj =? expected) && negb spurious then (true, desired, expected) else (false, obj, obj).

Section sections.
Context {U : Type}.

Definition section1_types : M U unit :=
  puts "═══ 1. Atomic Types and Basic Operations ════\n" ;;;
  let ai := 42 in
  printf "  stored 42, loaded %d\n" [AInt ai] ;;;
  let '(ai, old) := fetch_add ai 10 in
  printf "  fetch_add(10): old=%d, now=%d\n" [AInt old; AInt ai] ;;;
  let '(ai, old) := fetch_sub ai 5 in
  printf "  fetch_sub(5):  old=%d, now=%d\n" [AInt old; AInt ai] ;;;
  let al := 15 in
  let '(al, _) := fetch_or al 240 in
  printf "  fetch_or(0xF0): result=0x%lx\n" [AInt al] ;;;
  let '(al, _) := fetch_and al 51 in
  printf "  fetch_and(0x33): result=0x%lx\n" [AInt al] ;;;
  let flag := 1 in
  printf "  flag=%d\n\n" [AInt flag] ;;;
  put_lines ["  Type aliases (from <stdatomic.h>):"; "    atomic_int, atomic_long, atomic_size_t, atomic_bool ...";
             "    All equivalent to _Atomic <type>\n"]%string.

(** ** Section 3: compare and exchange

    The loop that raises [maximum] to [v]; [sp] lists the spurious failures to come, after
    them the exchange does not fail spuriously. *)
Fixpoint raise_to (sp : list bool) (v cur maximum : Z) : Z * list bool :=
  if cur <? v then
    match sp with
    | [] => let '(ok, maximum, cur) := compare_exchange false maximum cur v in (maximum, [])
    | s :: sp' =>
        let '(ok, maximum, cur) := compare_exchange s maximum cur v in
        if ok then (maximum, sp') else raise_to sp' v cur maximum
    end
  else (maximum, sp).

(** [for (int i = 0; i < 7; i++) { int cur = atomic_load(&maximum); ... }] *)
Definition cas_max (sp : list bool) (values : list Z) (maximum : Z) : Z * list bool :=
  foldl (λ '(m, sp) v, raise_to sp v m m) (maximum, sp) values.

Definition max_values : list Z := [7; 3; 9; 1; 5; 8; 2].

Definition section3_cas (sp : list bool) : M U unit :=
  puts "═══ 3. Compare-and-Exchange (CAS) ════\n" ;;;
  let val := 100 in
  let expected := 100 in
  let '(ok, val, expected) := compare_exchange false val expected 200 in
  printf "  CAS(100→200) when val=100: %s, val now %d\n" [AStr (if (ok : bool) then "success" else "fail")%string; AInt val] ;;;
  let expected := 100 in
  let '(ok, val, expected) := compare_exchange false val expected 300 in
  printf "  CAS(100→300) when val=200: %s, expected updated to %d\n\n" [AStr (if (ok : bool) then "success" else "fail")%string; AInt expected] ;;;
  let '(maximum, _) := cas_max sp max_values 0 in
  printf "  CAS-loop max of {7,3,9,1,5,8,2}: %d\n\n" [AInt maximum] ;;;
  put_lines ["  strong vs weak:"; "    strong: guaranteed to succeed if *obj == *expected";
             "    weak:   may spuriously fail (use inside a retry loop for performance)\n"]%string.

Definition section4_ordering : M U unit :=
  puts "═══ 4. Memory Ordering ════\n" ;;;
  put_lines
    ["  Every atomic operation accepts an optional memory_order argument.";
     "  The default (memory_order_seq_cst) is the strongest and safest.\n";
     "  memory_order_relaxed"; "    Only atomicity; no ordering relative to other memory accesses.";
     "    Use for: independent counters, statistics, reference counts.\n";
     "  memory_order_release  (on a store)"; "  memory_order_acquire  (on a load)";
     "    Acquire-release pair: all stores BEFORE the release are visible";
     "    to threads that subsequently do an acquire on the same atomic.";
     "    Use for: publish-subscribe, passing data between two threads,"; "    implementing mutexes and spinlocks.\n";
     "  memory_order_seq_cst  (default)"; "    Total sequential consistency: all threads agree on the order of";
     "    ALL seq_cst operations across ALL atomics.";
     "    Use for: anything where the relaxed/acq-rel model is unclear.\n"]%string ;;;
  let data := 42 in
  let ready := 1 in
  printf "  acquire/release: ready=%d, data=%d\n\n" [AInt ready; AInt data].
End sections.

(** ** Section 2: the race and the atomic counter *)

(** [puts] and [printf] of the main thread around the threads. *)
Definition line (s : string) : ev := Out (esc s +:+ String nl "")%string.

(** The body of [unsafe_worker] is that of [unsafe_inc] of exercise 24, with its reads and
    writes of a variable that is not atomic. *)
Definition unsafe_worker : Z → unsafe_pc → list ev → Z → unsafe_pc → Prop := unsafe_inc.

Inductive safe_pc := w_loop (i : Z) | w_done.

(** [atomic_long]: the addition wraps around. *)
Definition to_long (z : Z) : Z := (z + 2 ^ 63) mod 2 ^ 64 - 2 ^ 63.

Inductive safe_worker : Z → safe_pc → list ev → Z → safe_pc → Prop :=
  | worker_adds g_safe i : i < ITERS → safe_worker g_safe (w_loop i) [] (to_long (g_safe + 1)) (w_loop (i + 1))
  | worker_returns g_safe i : ¬ i < ITERS → safe_worker g_safe (w_loop i) [] g_safe w_done.

Definition w_returned (p : safe_pc) : bool := match p with w_done => true | _ => false end.

Definition unsafe_report (g_unsafe : Z) : list ev :=
  [say "  unsafe  (data race): expected %d, got %ld  %s\n"
     [AInt expected; AInt g_unsafe; AStr (if (g_unsafe =? expected)%Z then "✓" else "(LOST INCREMENTS)")%string]].

Definition safe_report (g_safe : Z) : list ev :=
  say "  atomic_fetch_add:    expected %d, got %ld  ✓\n\n" [AInt expected; AInt g_safe] ::
  (line <$> ["  memory_order_relaxed: atomicity guaranteed, but no ordering";
             "  guarantees relative to other memory accesses.  Fine for counters\n";
             "  where you only care about the final value.\n"]%string).

Definition unsafe_step : pool Z unsafe_pc → list ev * event → pool Z unsafe_pc → Prop :=
  traced_step (λ _, unsafe_worker) NTHREADS (λ _, u_loop 0) u_returned [line "═══ 2. Race Condition vs Atomic Counter ════\n"] unsafe_report u_does.
Definition safe_step : pool Z safe_pc → list ev → pool Z safe_pc → Prop :=
  fj_step (λ _, safe_worker) NTHREADS (λ _, w_loop 0) w_returned [] safe_report.

(** The section: what it writes, unless the first half has a data race. *)
Inductive section2_counter : result → Prop :=
  | counter_races tr1 s1 : run unsafe_step (fj_init 0) tr1 s1 → data_race tr1.*2 → section2_counter Undefined
  | counter_runs tr1 s1 tr2 s2 : run unsafe_step (fj_init 0) tr1 s1 → fj_ended s1 → ¬ data_race tr1.*2 →
      run safe_step (fj_init 0) tr2 s2 → fj_ended s2 → section2_counter (Ends (output tr1.*1 ++ output tr2) 0).

(** ** Section 5: the spinlock *)

Record spinning := { flag : bool; g_spin_count : Z }.

Inductive spin_pc := p_loop (i : Z) | p_load (i : Z) | p_store (i v : Z) | p_unlock (i : Z) | p_done.

(** [atomic_flag_test_and_set]: the old value, and the flag set. *)
Definition test_and_set (x : spinning) : bool * spinning := (flag x, {| flag := true; g_spin_count := g_spin_count x |}).

(** A turn of the loop of [spin_lock]: the loop is left when the old value was clear. *)
Definition spin_lock (x : spinning) : spinning * bool := let '(old, x) := test_and_set x in (x, negb old).

Definition spin_unlock (x : spinning) : spinning := {| flag := false; g_spin_count := g_spin_count x |}.

Inductive spin_worker : spinning → spin_pc → list ev → spinning → spin_pc → Prop :=
  | spin_tries x x' i left : i < ITERS → spin_lock x = (x', left) → spin_worker x (p_loop i) [] x' (if left then p_load i else p_loop i)
  | spin_loads x i : spin_worker x (p_load i) [] x (p_store i (g_spin_count x))
  | spin_stores x i v : LONG_MIN ≤ v + 1 ≤ LONG_MAX →
      spin_worker x (p_store i v) [] {| flag := flag x; g_spin_count := v + 1 |} (p_unlock i)
  | spin_leaves x i : spin_worker x (p_unlock i) [] (spin_unlock x) (p_loop (i + 1))
  | spin_returns x i : ¬ i < ITERS → spin_worker x (p_loop i) [] x p_done.

(** What the steps are to [g_spin_count] and its lock. *)
Definition p_does (p p' : spin_pc) : memory_event :=
  match p, p' with
  | p_loop _, p_load _ => Acquires | p_loop _, p_loop _ => Retries
  | p_load _, _ => Reads | p_store _ _, _ => Writes | p_unlock _, _ => Releases | _, _ => Other
  end.

Definition p_returned (p : spin_pc) : bool := match p with p_done => true | _ => false end.

Definition spin_header : list ev :=
  line <$> ["═══ 5. Spinlock (atomic_flag) ════\n"; "  atomic_flag is the only type guaranteed lock-free on every platform.";
            "  test_and_set: atomically sets the flag and returns the OLD value.\n"]%string.

Definition spin_report (x : spinning) : list ev :=
  say "  spinlock counter: expected %d, got %ld  ✓\n\n" [AInt expected; AInt (g_spin_count x)] ::
  (line <$> ["  Spinlock vs pthread_mutex:"; "    Spinlock: busy-waits (no syscall) — good for <1µs critical sections";
             "    Mutex:    sleeps the thread (syscall) — better when lock held >1µs\n"]%string).

Definition spin_step : pool spinning spin_pc → list ev * event → pool spinning spin_pc → Prop :=
  traced_step (λ _, spin_worker) NTHREADS (λ _, p_loop 0) p_returned spin_header spin_report p_does.
Definition section5_spinlock : pool spinning spin_pc := fj_init {| flag := false; g_spin_count := 0 |}.

(** ** The loop that raises a maximum *)

Lemma raise_to_max sp v m : (raise_to sp v m m).1 = Z.max m v.
Proof.
  assert (∀ sp' : list bool, m <? v = false → (m, sp').1 = Z.max m v) as Hle by (intros sp' H%Z.ltb_ge; simpl; lia).
  induction sp as [|s sp IH]; simpl; (destruct (m <? v) eqn:E; [|by apply (Hle [])]); apply Z.ltb_lt in E;
    unfold compare_exchange; rewrite Z.eqb_refl /=; [lia|].
  destruct s; simpl; [exact IH|lia].
Qed.

Lemma cas_max_correct sp values m : (cas_max sp values m).1 = foldl Z.max m values.
Proof.
  revert sp m. induction values as [|v values IH]; intros sp m; [done|]. unfold cas_max in *. simpl.
  pose proof (raise_to_max sp v m) as H. destruct (raise_to sp v m m) as [m' sp']. simpl in H. subst. apply IH.
Qed.

(** ** The atomic counter *)

Definition w_adds (p : safe_pc) : Z := match p with w_loop i => i | w_done => ITERS end.
Definition w_wf (p : safe_pc) : Prop := match p with w_loop i => 0 ≤ i ≤ ITERS | w_done => True end.
Definition w_weight (p : safe_pc) : Z := match p with w_loop i => Z.max 0 (ITERS - i) + 1 | w_done => 0 end.

Definition count_inv (o : list ev) (g : Z) (ps : list safe_pc) : Prop :=
  o = [] ∧ (length ps ≤ NTHREADS)%nat ∧ Forall w_wf ps ∧ g = zsum (w_adds <$> ps).

Lemma w_adds_range p : w_wf p → 0 ≤ w_adds p ≤ ITERS.
Proof. destruct p; simpl; unfold ITERS; lia. Qed.

(** Four threads that add at most [ITERS] each. *)
Lemma total_range {P} (f : P → Z) ps :
  (length ps ≤ NTHREADS)%nat → Forall (λ p, 0 ≤ f p ≤ ITERS) ps → 0 ≤ zsum (f <$> ps) ≤ 2000000.
Proof.
  intros Hl H. assert (0 ≤ zsum (f <$> ps) ≤ length ps * ITERS) as Ht.
  { clear Hl. induction H as [|p ps Hp Hps IH]; [simpl; lia|].
    change (0 ≤ f p + zsum (f <$> ps) ≤ S (length ps) * ITERS). lia. }
  unfold NTHREADS, ITERS in *. lia.
Qed.

Lemma to_long_id z : LONG_MIN ≤ z ≤ LONG_MAX → to_long z = z.
Proof. unfold to_long, LONG_MIN, LONG_MAX. intros ?. rewrite Z.mod_small; lia. Qed.

Lemma count_inv_create o g ps : count_inv o g ps → (length ps < NTHREADS)%nat → count_inv o g (ps ++ [w_loop 0]).
Proof.
  intros (-> & Hl & Hw & ->) Hn. split_and!; [done|rewrite length_app /=; lia| |].
  - apply Forall_app. split; [done|]. apply Forall_singleton. simpl. unfold ITERS. lia.
  - rewrite fmap_app zsum_app. simpl. lia.
Qed.

Lemma count_inv_step o g ps (j : nat) p a g' p' :
  count_inv o g ps → ps !! j = Some p → safe_worker g p a g' p' → count_inv (o ++ a) g' (<[j:=p']> ps).
Proof.
  intros (-> & Hl & Hw & ->) Hj Hs. pose proof (Forall_lookup_1 _ _ _ _ Hw Hj) as Hp.
  pose proof (total_range w_adds ps Hl (Forall_impl _ _ _ Hw w_adds_range)) as Ht.
  unfold count_inv. rewrite (zsum_insert w_adds _ _ _ _ Hj) length_insert.
  inversion Hs; subst; simpl in *; split_and!; try done; try (apply Forall_insert; simpl; done || lia); try lia.
  rewrite to_long_id; [lia|]. unfold LONG_MIN, LONG_MAX. lia.
Qed.

Lemma w_weight_step o g ps (j : nat) p a g' p' :
  count_inv o g ps → ps !! j = Some p → safe_worker g p a g' p' → w_weight p' + 1 ≤ w_weight p.
Proof. intros _ _ Hs. inversion Hs; subst; simpl in *; lia. Qed.

Lemma w_returned_stays (j : nat) g p a g' p' : safe_worker g p a g' p' → w_returned p = false.
Proof. by destruct 1. Qed.

Lemma count_thread_progress o g ps : count_inv o g ps →
  (∀ j p, ps !! j = Some p → w_returned p = true) ∨ ∃ j p a g' p', ps !! j = Some p ∧ safe_worker g p a g' p'.
Proof.
  intros _. destruct (all_or_one w_returned ps) as [?|(j & p & Hj & Hp)]; [by left|right].
  destruct p as [i|]; [|done]. destruct (decide (i < ITERS)); do 5 eexists; (split; [exact Hj|by constructor]).
Qed.

Lemma count_inv_init : count_inv [] 0 [].
Proof. split_and!; simpl; done || lia. Qed.

(** ** The spinlock

    The threads of the spinlock, but for the turns in which they find the flag set,
    simulate those of the mutex of exercise 24: the flag is set when the mutex has an owner. *)

Definition to_safe (p : spin_pc) : Threads.safe_pc :=
  match p with
  | p_loop i => s_loop i | p_load i => s_load i | p_store i v => s_store i v | p_unlock i => s_unlock i | p_done => s_done
  end.

Definition spin_sim (x : spinning) (y : guarded) : Prop :=
  g_spin_count x = Threads.g_safe y ∧ flag x = bool_decide (is_Some (g_mutex y)).

Definition spin_inv (o : list ev) (x : spinning) (ps : list spin_pc) : Prop :=
  ∃ y, spin_sim x y ∧ mutex_inv o y (to_safe <$> ps).

(** The steps but for those turns. *)
Definition spin_moves : nat → spinning → spin_pc → list ev → spinning → spin_pc → Prop := moving (λ _, spin_worker) p_does.

Lemma spin_retry_stays (j : nat) x p a x' p' : spin_worker x p a x' p' → p_does p p' = Retries → a = [] ∧ x' = x ∧ p' = p.
Proof.
  destruct 1 as [[f c] x' i left Hi Hl| | | |]; try done. unfold spin_lock, test_and_set in Hl. simpl in Hl. injection Hl as <- <-.
  by destruct f.
Qed.

Lemma spin_simulates x y p a x' p' (j : nat) : spin_sim x y → (s_inside (to_safe p) = true → g_mutex y = Some j) →
  spin_moves j x p a x' p' → ∃ y', spin_sim x' y' ∧ safe_inc j y (to_safe p) a y' (to_safe p').
Proof.
  destruct y as [n m]. intros [Hc Hf] Ho [Hs Hm]. simpl in *.
  destruct Hs as [x x' i left Hi Hl|x i|x i v Hv|x i|x i Hi]; simpl in *.
  - unfold spin_lock, test_and_set in Hl. injection Hl as <- <-. destruct (flag x); [done|].
    destruct m; [by rewrite bool_decide_true in Hf|].
    eexists. split; [|by apply safe_locks]. by split.
  - rewrite Hc. eexists. split; [|apply (safe_loads j (Build_guarded n m))]. by split.
  - eexists. split; [|by apply (safe_stores j (Build_guarded n m))]. by split.
  - eexists. split; [|apply (safe_unlocks j (Build_guarded n m))]. by split.
  - eexists. split; [|by apply safe_returns]. by split.
Qed.

(** A step of the mutex program is one of the spinlock program. *)
Lemma spin_reflects x y p a y' q (j : nat) : spin_sim x y → safe_inc j y (to_safe p) a y' q →
  ∃ x' p', spin_moves j x p a x' p'.
Proof.
  destruct x as [f c]. intros [Hc Hf] Hs. simpl in *. destruct p as [i|i|i v|i|]; simpl in Hs; inversion Hs as [? ? Hi Hm| | | |]; subst; simpl in *.
  - rewrite Hm. do 2 eexists. split; [by apply (spin_tries _ _ _ true)|done].
  - do 2 eexists. split; [by apply spin_returns|done].
  - do 2 eexists. split; [apply spin_loads|done].
  - do 2 eexists. split; [by apply spin_stores|done].
  - do 2 eexists. split; [apply spin_leaves|done].
Qed.

Lemma spin_inv_init : spin_inv [] {| flag := false; g_spin_count := 0 |} [].
Proof. exists {| Threads.g_safe := 0; g_mutex := None |}. split; [done|apply mutex_inv_init]. Qed.

Lemma spin_inv_create o x ps : spin_inv o x ps → (length ps < NTHREADS)%nat → spin_inv o x (ps ++ [p_loop 0]).
Proof.
  intros (y & Hy & I) Hl. exists y. split; [done|]. rewrite fmap_app. apply mutex_inv_create; [done|by rewrite length_fmap].
Qed.

Lemma spin_inv_sim o x ps (j : nat) p a x' p' y :
  spin_sim x y → mutex_inv o y (to_safe <$> ps) → ps !! j = Some p → spin_moves j x p a x' p' →
  ∃ y', spin_sim x' y' ∧ safe_inc j y (to_safe p) a y' (to_safe p').
Proof.
  intros Hy I Hj. apply spin_simulates; [done|]. intros Hp. apply (m_owner _ _ _ I).
  unfold inside_at, at_thread. by rewrite list_lookup_fmap Hj.
Qed.

Lemma spin_inv_step o x ps (j : nat) p a x' p' :
  spin_inv o x ps → ps !! j = Some p → spin_moves j x p a x' p' → spin_inv (o ++ a) x' (<[j:=p']> ps).
Proof.
  intros (y & Hy & I) Hj Hs. destruct (spin_inv_sim _ _ _ _ _ _ _ _ _ Hy I Hj Hs) as (y' & Hy' & Hs').
  exists y'. split; [done|]. rewrite list_fmap_insert. eapply mutex_inv_step; [exact I| |exact Hs'].
  by rewrite list_lookup_fmap Hj.
Qed.

Lemma p_weight_step o x ps (j : nat) p a x' p' :
  spin_inv o x ps → ps !! j = Some p → spin_moves j x p a x' p' → s_weight (to_safe p') + 1 ≤ s_weight (to_safe p).
Proof.
  intros (y & Hy & I) Hj Hs. destruct (spin_inv_sim _ _ _ _ _ _ _ _ _ Hy I Hj Hs) as (y' & Hy' & Hs').
  eapply s_weight_step; [exact I| |exact Hs']. by rewrite list_lookup_fmap Hj.
Qed.

Lemma p_returned_stays (j : nat) x p a x' p' : spin_moves j x p a x' p' → p_returned p = false.
Proof. intros [Hs _]. by destruct Hs. Qed.

Lemma spin_thread_progress o x ps : spin_inv o x ps →
  (∀ j p, ps !! j = Some p → p_returned p = true) ∨ ∃ j p a x' p', ps !! j = Some p ∧ spin_moves j x p a x' p'.
Proof.
  intros (y & Hy & I). destruct (mutex_thread_progress _ _ _ I) as [Hall|(j & p & a & y' & q & Hj & Hs)].
  - left. intros j p Hj. specialize (Hall j (to_safe p)). rewrite list_lookup_fmap Hj in Hall.
    specialize (Hall eq_refl). by destruct p.
  - right. rewrite list_lookup_fmap in Hj. destruct (ps !! j) as [r|] eqn:Er; [|done]. injection Hj as <-.
    destruct (spin_reflects _ _ _ _ _ _ _ Hy Hs) as (x' & p' & Hs'). by exists j, r, a, x', p'.
Qed.

Lemma spin_inv_total o x ps : spin_inv o x ps → length ps = NTHREADS → Forall (λ p, p_returned p = true) ps →
  g_spin_count x = 2000000 ∧ o = [].
Proof.
  intros (y & [Hc _] & I) Hl Hret. rewrite Hc (m_total _ _ _ I) (m_out _ _ _ I) (zsum_const _ _ ITERS) ?length_fmap ?Hl //.
  apply Forall_fmap. eapply Forall_impl; [exact Hret|]. by intros [].
Qed.

(** The runs of section 5 without the turns that find the flag set. *)
Notation spin_moving := (fj_step spin_moves NTHREADS (λ _, p_loop 0) p_returned spin_header spin_report).

Lemma spin_moved tr s : run spin_step section5_spinlock tr s →
  ∃ os, run spin_moving section5_spinlock os s ∧ length os = length (filter goes_on tr) ∧ output os = output tr.*1.
Proof. apply run_moving, spin_retry_stays. Qed.

Lemma spin_inside os s t t' : run spin_moving section5_spinlock os s →
  at_thread (s_inside ∘ to_safe) (pcs s) t = true → at_thread (s_inside ∘ to_safe) (pcs s) t' = true → t = t'.
Proof.
  intros Hr. destruct (fj_invariant _ _ _ _ _ _ _ spin_inv spin_inv_init spin_inv_create spin_inv_step p_returned_stays _ _ Hr)
    as (_ & o & (y & _ & I) & _).
  assert (∀ t, at_thread (s_inside ∘ to_safe) (pcs s) t = true → g_mutex y = Some t) as Hown.
  { intros u Hu. apply (m_owner _ _ _ I). unfold inside_at, at_thread in *. rewrite list_lookup_fmap. by destruct (pcs s !! u). }
  intros Ht%Hown Ht'%Hown. congruence.
Qed.

(** The accesses to [g_spin_count] are between lock and unlock. *)
Lemma p_does_inside (j : nat) x p a x' p' : spin_worker x p a x' p' →
  match p_does p p' with
  | Reads | Writes => s_inside (to_safe p) = true ∧ s_inside (to_safe p') = true
  | Acquires => s_inside (to_safe p) = false ∧ s_inside (to_safe p') = true
  | Releases => s_inside (to_safe p) = true ∧ s_inside (to_safe p') = false
  | Retries | Other => s_inside (to_safe p') = s_inside (to_safe p)
  end.
Proof. destruct 1 as [x x' i [] Hi Hl| | | |]; done. Qed.

Lemma spin_race_free tr s : run spin_step section5_spinlock tr s → ¬ data_race tr.*2.
Proof.
  apply (locked_race_free _ _ _ _ _ _ _ (s_inside ∘ to_safe)); [done|exact p_does_inside|].
  intros os s' Hr t u Ht Hu. destruct (run_traced _ _ _ _ _ _ p_does _ _ _ Hr) as (tr' & Hr' & _).
  destruct (spin_moved _ _ Hr') as (os' & Hm & _). by eapply spin_inside.
Qed.

Lemma spin_bounded tr s : run spin_step section5_spinlock tr s →
  Z.of_nat (length (filter goes_on tr)) ≤ 8000015 ∧
  ∃ tr' s', run spin_step s tr' s' ∧ Forall goes_on tr' ∧ fj_ended s'.
Proof.
  assert (∀ p, 0 ≤ s_weight (to_safe p)) as Hw by (intros []; simpl; lia).
  assert (nat → s_weight (to_safe (p_loop 0)) ≤ 4 * ITERS + 1) as Hb by (intros _; simpl; unfold ITERS; lia).
  intros (os & Hr & Hl & _)%spin_moved. rewrite -Hl. split.
  - pose proof (fj_run_length _ _ _ _ _ _ _ spin_inv spin_inv_init spin_inv_create spin_inv_step
      p_returned_stays _ (4 * ITERS + 1) Hw Hb p_weight_step _ _ Hr) as H. unfold NTHREADS, ITERS in H. lia.
  - destruct (fj_ends _ _ _ _ _ _ _ spin_inv spin_inv_init spin_inv_create spin_inv_step
      p_returned_stays _ (4 * ITERS + 1) Hw Hb p_weight_step spin_thread_progress _ _ Hr) as (os' & s' & Hr' & He).
    destruct (moving_run _ _ _ _ _ _ p_does _ _ _ Hr') as (tr' & Ht & Hg & _). by exists tr', s'.
Qed.

Lemma spin_final tr s : run spin_step section5_spinlock tr s → fj_ended s →
  g_spin_count (glob s) = 2000000 ∧ output tr.*1 = spin_header ++ spin_report (glob s).
Proof.
  intros (os & Hr & _ & Eo)%spin_moved He. rewrite -Eo.
  destruct (fj_final _ _ _ _ _ _ _ spin_inv spin_inv_init spin_inv_create spin_inv_step p_returned_stays _ _ Hr He)
    as (o & I & Ho & Hl & Hret). destruct (spin_inv_total _ _ _ I Hl Hret) as [? ->]. done.
Qed.

(** C20. The counters of exercise 29 under every interleaving.  The atomic counter ends at
    exactly 2000000, in runs that are bounded and can be carried to their end.  So does the
    counter guarded by the spinlock: at most one thread is inside, the accesses to the
    counter, which is not atomic, have no data race, and but for the turns in which a thread
    finds the flag set, which change nothing, every run is bounded; without such turns it
    can be carried to its end, so that no thread waits for a flag nobody clears.  The
    counter of section 2 has a data race in every execution that gets to its end, and every
    execution can be carried to one: the section is undefined. *)
Theorem atomic_counters_correct :
  (∀ tr s, run safe_step (fj_init 0) tr s →
     Z.of_nat (length tr) ≤ 2000015 ∧ (∃ tr' s', run safe_step s tr' s' ∧ fj_ended s') ∧
     (fj_ended s → glob s = 2000000 ∧ output tr = safe_report 2000000)) ∧
  (∀ tr s, run spin_step section5_spinlock tr s →
     Z.of_nat (length (filter goes_on tr)) ≤ 8000015 ∧ (∃ tr' s', run spin_step s tr' s' ∧ Forall goes_on tr' ∧ fj_ended s') ∧
     (∀ t t', at_thread (s_inside ∘ to_safe) (pcs s) t = true → at_thread (s_inside ∘ to_safe) (pcs s) t' = true → t = t') ∧
     ¬ data_race tr.*2 ∧
     (fj_ended s → g_spin_count (glob s) = 2000000 ∧ output tr.*1 = spin_header ++ spin_report (glob s))) ∧
  (∀ tr s, run unsafe_step (fj_init 0) tr s →
     (fj_ended s → data_race tr.*2) ∧ ∃ tr' s', run unsafe_step s tr' s' ∧ data_race (tr ++ tr').*2) ∧
  (∀ r, section2_counter r ↔ r = Undefined).
Proof.
  split_and!.
  - assert (∀ p, 0 ≤ w_weight p) as Hw by (intros []; simpl; lia).
    assert (nat → w_weight (w_loop 0) ≤ ITERS + 1) as Hb by (intros _; simpl; unfold ITERS; lia).
    intros tr s Hr. split_and!.
    + pose proof (fj_run_length _ _ _ _ _ _ _ count_inv count_inv_init count_inv_create count_inv_step
        w_returned_stays w_weight (ITERS + 1) Hw Hb w_weight_step _ _ Hr) as H. unfold NTHREADS, ITERS in H. lia.
    + apply (fj_ends _ _ _ _ _ _ _ count_inv count_inv_init count_inv_create count_inv_step
        w_returned_stays w_weight (ITERS + 1) Hw Hb w_weight_step count_thread_progress _ _ Hr).
    + intros He. destruct (fj_final _ _ _ _ _ _ _ count_inv count_inv_init count_inv_create count_inv_step w_returned_stays _ _ Hr He)
        as (o & (-> & _ & _ & Hg) & Ho & Hl & Hret).
      assert (glob s = 2000000) as E; [|split; [done|by rewrite Ho E]].
      rewrite Hg (zsum_const _ _ ITERS) ?Hl //. eapply Forall_impl; [exact Hret|]. by intros [].
  - intros tr s Hr. destruct (spin_bounded _ _ Hr) as [Hl He]. split_and!; [done|done| |by eapply spin_race_free|by apply spin_final].
    destruct (spin_moved _ _ Hr) as (os & Hm & _). intros t t'. by eapply spin_inside.
  - intros tr s Hr. split; [by eapply unsafe_races|by eapply unsafe_comes_to_race].
  - intros r. split.
    + destruct 1 as [|tr s tr2 s2 Hr He Hn]; [done|]. destruct Hn. by eapply unsafe_races.
    + intros ->. destruct (unsafe_comes_to_race [line "═══ 2. Race Condition vs Atomic Counter ════\n"] unsafe_report [] _ (run_start _ _)) as (tr & s & Hr & Hrace).
      by eapply counter_races.
Qed.

(** ** Section 6: the program's use of the lock-free stack

    One thread; [Failed] is the label of a weak exchange that fails spuriously. *)

Inductive label := Does (o : list ev) | Failed.

Inductive stack_pc :=
  | k_start | k_malloc (i : Z) | k_store (i : Z) (n : positive) | k_push (i : Z) (n : positive) (p : push_pc)
  | k_pop (p : pop_pc) | k_print (n : positive) | k_free (n : positive) | k_done | k_exit.

Definition label_of (a : act) : label := match a with Spurious => Failed | _ => Does [] end.

Definition stack_notes : list ev :=
  line <$>
  [""; "\n  How push works:"; "    1. load current head"; "    2. set node->next = head";
   "    3. CAS: if head unchanged, swing it to node; else retry from 1"; "\n  ABA problem (not fixed here):";
   "    Thread 1 reads head=A. Thread 2 pops A, pushes B, pushes A.";
   "    Thread 1 CAS succeeds (head still looks like A) but next is wrong.";
   "    Fix: hazard pointers, tagged pointers, or epoch-based reclamation.\n"; "  When to use atomics:";
   "    ✓ Simple counters / flags (atomic_fetch_add, atomic_flag)";
   "    ✓ Publish a value to other threads (store/release + load/acquire)";
   "    ✓ Lock-free data structures (CAS loops) when contention is high";
   "    ✗ Invariants spanning multiple variables → use a mutex instead\n"]%string.

Definition set_value (n : positive) (v : Z) (s : LFStack) : LFStack :=
  set_nodes (alter (λ x, {| value := v; next := next x |}) n (nodes s)) s.

Inductive section6_lockfree_stack : LFStack → stack_pc → label → LFStack → stack_pc → Prop :=
  | stack_starts s : section6_lockfree_stack s k_start (Does [line "═══ 6. Lock-free Stack (Treiber Stack) ════\n"]) s (k_malloc 1)
  | stack_mallocs s i n junk : i ≤ 5 → nodes s !! n = None →
      section6_lockfree_stack s (k_malloc i) (Does []) (set_nodes (<[n := junk]> (nodes s)) s) (k_store i n)
  | stack_malloc_fails s i : i ≤ 5 →
      section6_lockfree_stack s (k_malloc i) (Does [Err (default ""%string (format "malloc failed\n" []))]) s k_exit
  | stack_stores s i n : is_Some (nodes s !! n) →
      section6_lockfree_stack s (k_store i n) (Does []) (set_value n (i * 10) s) (k_push i n push_load)
  | stack_pushes s i n p a s' p' : lf_push n s p a s' p' →
      section6_lockfree_stack s (k_push i n p) (label_of a) s' (k_push i n p')
  | stack_pushed s i n : section6_lockfree_stack s (k_push i n push_return) (Does []) s (k_malloc (i + 1))
  | stack_filled s i : ¬ i ≤ 5 →
      section6_lockfree_stack s (k_malloc i) (Does [say "  pop order: " []]) s (k_pop pop_load)
  | stack_pops s p a s' p' : lf_pop s p a s' p' →
      section6_lockfree_stack s (k_pop p) (label_of a) s' (k_pop p')
  | stack_popped s n : section6_lockfree_stack s (k_pop (pop_return (Some n))) (Does []) s (k_print n)
  | stack_prints s n x : nodes s !! n = Some x →
      section6_lockfree_stack s (k_print n) (Does [say "%d " [AInt (value x)]]) s (k_free n)
  | stack_frees s n : is_Some (nodes s !! n) →
      section6_lockfree_stack s (k_free n) (Does []) (set_nodes (delete n (nodes s)) s) (k_pop pop_load)
  | stack_empty s : section6_lockfree_stack s (k_pop (pop_return None)) (Does stack_notes) s k_done.

Record stack_state := { k_mem : LFStack; k_at : stack_pc }.

Inductive stack_step : stack_state → label → stack_state → Prop :=
  | stack_steps s p a s' p' : section6_lockfree_stack s p a s' p' →
      stack_step {| k_mem := s; k_at := p |} a {| k_mem := s'; k_at := p' |}.

Definition stack_init : stack_state := {| k_mem := {| head := NULL; nodes := ∅ |}; k_at := k_start |}.
Definition stack_output (tr : list label) : list ev :=
  concat ((λ a, match a with Does o => o | Failed => [] end) <$> tr).

(** ** The program *)

Inductive main (sp : list bool) : result → Prop :=
  | main_undefined : section2_counter Undefined → main sp Undefined
  | main_runs o2 c2 tr5 s5 tr6 s6 (w : world unit) o1 o3 o4 c :
      section1_types w = Ret tt o1 w → section2_counter (Ends o2 c2) →
      section3_cas sp w = Ret tt o3 w → section4_ordering w = Ret tt o4 w →
      run spin_step section5_spinlock tr5 s5 → fj_ended s5 →
      run stack_step stack_init tr6 s6 → (k_at s6 = k_done ∧ c = 0 ∨ k_at s6 = k_exit ∧ c = 1) →
      main sp (Ends (o1 ++ o2 ++ o3 ++ o4 ++ output tr5.*1 ++ stack_output tr6) c).

(** *** The sections that only compute *)

Lemma section1_writes {U} : ∃ o, writes (U:=U) section1_types tt o ∧
  ∃ t, stdout o = ("═══ 1. Atomic Types and Basic Operations ════" +:+ String nl "" +:+ String nl
    "  stored 42, loaded 42" +:+ String nl "  fetch_add(10): old=42, now=52" +:+ String nl
    "  fetch_sub(5):  old=52, now=47" +:+ String nl "  fetch_or(0xF0): result=0xff" +:+ String nl
    "  fetch_and(0x33): result=0x33" +:+ String nl "  flag=1" +:+ t)%string.
Proof.
  eexists. split; [intros w; vm_compute; reflexivity|]. eexists. vm_compute. reflexivity.
Qed.

(** Section 3, with any spurious failures of the weak exchange: the loop computes the
    maximum of the values, and the section always writes the same text. *)
Lemma cas_section_correct :
  (∀ sp values m, (cas_max sp values m).1 = foldl Z.max m values) ∧
  ∀ sp U, ∃ o, writes (U:=U) (section3_cas sp) tt o ∧
    ∃ t, stdout o = ("═══ 3. Compare-and-Exchange (CAS) ════" +:+ String nl "" +:+ String nl
      "  CAS(100→200) when val=100: success, val now 200" +:+ String nl
      "  CAS(100→300) when val=200: fail, expected updated to 200" +:+ String nl "" +:+ String nl
      "  CAS-loop max of {7,3,9,1,5,8,2}: 9" +:+ t)%string.
Proof.
  split; [intros; apply cas_max_correct|]. intros sp U.
  pose proof (cas_max_correct sp max_values 0) as H. unfold section3_cas.
  destruct (cas_max sp max_values 0) as [m sp']. simpl in H. change (foldl Z.max 0 max_values) with 9 in H. subst m.
  eexists. split; [intros w; vm_compute; reflexivity|]. eexists. vm_compute. reflexivity.
Qed.

(** *** The single-threaded stack *)

(** The list from [p] on, with its values. *)
Fixpoint holds_list (m : gmap positive Node) (p : ptr) (l : list (positive * Z)) : Prop :=
  match l with
  | [] => p = None
  | (n, v) :: l' => p = Some n ∧ ∃ x, m !! n = Some x ∧ value x = v ∧ holds_list m (next x) l'
  end.

(** The stack holds [l]; the only other nodes are [extra]. *)
Definition holds (g : LFStack) (extra : list positive) (l : list (positive * Z)) : Prop :=
  holds_list (nodes g) (head g) l ∧ NoDup (extra ++ l.*1) ∧ ∀ k, is_Some (nodes g !! k) ↔ k ∈ extra ++ l.*1.

Fixpoint pushed_values (k : nat) : list Z := match k with O => [] | S k' => Z.of_nat k * 10 :: pushed_values k' end.

Definition stack_title : list ev := [line "═══ 6. Lock-free Stack (Treiber Stack) ════\n"].
Definition popped_text (l : list Z) : list ev :=
  stack_title ++ [say "  pop order: " []] ++ ((λ v, say "%d " [AInt v]) <$> l).

(** The node [n] was popped and has the value [v]; [l] is left. *)
Definition popped (g : LFStack) (n : positive) (v : Z) (pre : list Z) (l : list (positive * Z)) : Prop :=
  holds g [n] l ∧ (∃ x, nodes g !! n = Some x ∧ value x = v) ∧ pre ++ v :: l.*2 = pushed_values 5.

Definition pushing (g : LFStack) (i : Z) (n : positive) (l : list (positive * Z)) (p : push_pc) : Prop :=
  match p with
  | push_return => holds g [] ((n, i * 10) :: l)
  | _ => holds g [n] l ∧ ∃ x, nodes g !! n = Some x ∧ value x = i * 10 ∧
         match p with push_next old => old = head g | push_cas old => old = head g ∧ next x = old | _ => True end
  end.

Definition popping (g : LFStack) (o : list ev) (p : pop_pc) : Prop :=
  match p with
  | pop_return (Some n) => ∃ v pre l, popped g n v pre l ∧ o = popped_text pre
  | _ => ∃ pre l, pre ++ l.*2 = pushed_values 5 ∧ o = popped_text pre ∧ holds g [] l ∧
      match p with
      | pop_load => True
      | pop_next old => head g = Some old
      | pop_cas old new => head g = Some old ∧ ∃ x, nodes g !! old = Some x ∧ next x = new
      | pop_return _ => l = []
      end
  end.

Definition stack_inv (o : list ev) (s : stack_state) : Prop :=
  let g := k_mem s in
  match k_at s with
  | k_start => o = [] ∧ holds g [] []
  | k_malloc i => ∃ k l, i = Z.of_nat k + 1 ∧ (k ≤ 5)%nat ∧ o = stack_title ∧ holds g [] l ∧ l.*2 = pushed_values k
  | k_store i n => ∃ k l, i = Z.of_nat k + 1 ∧ (k < 5)%nat ∧ o = stack_title ∧ holds g [n] l ∧ l.*2 = pushed_values k
  | k_push i n p => ∃ k l, i = Z.of_nat k + 1 ∧ (k < 5)%nat ∧ o = stack_title ∧ l.*2 = pushed_values k ∧ pushing g i n l p
  | k_pop p => popping g o p
  | k_print n => ∃ v pre l, popped g n v pre l ∧ o = popped_text pre
  | k_free n => ∃ pre l, holds g [n] l ∧ pre ++ l.*2 = pushed_values 5 ∧ o = popped_text pre
  | k_done => nodes g = ∅ ∧ o = popped_text (pushed_values 5) ++ stack_notes
  | k_exit => o = stack_title ++ [Err (default ""%string (format "malloc failed\n" []))]
  end.

Lemma holds_list_ext m m' p l : (∀ n, n ∈ l.*1 → m' !! n = m !! n) → holds_list m p l → holds_list m' p l.
Proof.
  revert p. induction l as [|[n v] l IH]; intros p Hext; simpl; [done|]. intros (-> & x & Hx & Hv & Hc).
  split; [done|]. exists x. rewrite Hext; [|by left]. split_and!; [done|done|]. apply IH; [|done].
  intros k Hk. apply Hext. by right.
Qed.

Lemma alter_is_Some {A} (f : A → A) (m : gmap positive A) n k : is_Some (alter f n m !! k) ↔ is_Some (m !! k).
Proof. rewrite -!elem_of_dom dom_alter_L. done. Qed.

(** Changing the node outside the list. *)
Lemma holds_alter f g n l : holds g [n] l → holds (set_nodes (alter f n (nodes g)) g) [n] l.
Proof.
  intros (Hl & Hnd & Hd). split_and!; [|done|].
  - eapply holds_list_ext; [|exact Hl]. intros k Hk. apply lookup_alter_ne. intros ->.
    simpl in Hnd. by apply NoDup_cons in Hnd as [? _].
  - intros k. simpl. by rewrite alter_is_Some.
Qed.

Lemma holds_new g n x l : nodes g !! n = None → holds g [] l → holds (set_nodes (<[n := x]> (nodes g)) g) [n] l.
Proof.
  intros Hn (Hl & Hnd & Hd).
  assert (n ∉ l.*1) as Hnl. { intros Hin. apply (Hd n) in Hin. rewrite Hn in Hin. by destruct Hin. }
  split_and!.
  - eapply holds_list_ext; [|exact Hl]. intros k Hk. apply lookup_insert_ne. by intros ->.
  - simpl. by apply NoDup_cons.
  - intros k. simpl. rewrite elem_of_cons lookup_insert_is_Some Hd /=. destruct (decide (k = n)); naive_solver.
Qed.

Lemma holds_free g n l : holds g [n] l → holds (set_nodes (delete n (nodes g)) g) [] l.
Proof.
  intros (Hl & Hnd & Hd). simpl in Hnd. apply NoDup_cons in Hnd as [Hn Hnd]. split_and!; [|done|].
  - eapply holds_list_ext; [|exact Hl]. intros k Hk. apply lookup_delete_ne. by intros ->.
  - intros k. simpl. rewrite lookup_delete_is_Some Hd /= elem_of_cons. destruct (decide (k = n)); naive_solver.
Qed.

Lemma holds_empty g : holds g [] [] → nodes g = ∅.
Proof.
  intros (_ & _ & Hd). apply map_eq. intros k. rewrite lookup_empty. destruct (nodes g !! k) eqn:E; [|done].
  assert (k ∈ ([] ++ [] : list positive)) as H by (apply Hd; by eexists). by apply elem_of_nil in H.
Qed.

Lemma pushing_step n s p a s' p' i l :
  pushing s i n l p → lf_push n s p a s' p' → pushing s' i n l p'.
Proof.
  intros I Hs. destruct Hs as [s|s old Hn|s old Hh|s old Hh|s old Hh]; simpl in *.
  - destruct I as (H & x & Hx & Hv & _). split; [done|]. by exists x.
  - destruct I as (H & x & Hx & Hv & ->). split; [by apply holds_alter|].
    rewrite lookup_alter_eq Hx. eexists. split_and!; done.
  - destruct I as ((Hl & Hnd & Hd) & x & Hx & Hv & -> & Hnx). split_and!; [|done|done].
    split; [done|]. exists x. simpl. split_and!; [done|done|]. by rewrite Hnx.
  - destruct I as (_ & x & _ & _ & -> & _). done.
  - destruct I as (H & x & Hx & Hv & _). split; [done|]. by exists x.
Qed.

Lemma popping_step o s p a s' p' :
  popping s o p → lf_pop s p a s' p' → popping s' o p'.
Proof.
  intros I Hs. destruct Hs as [s old Hh|s Hh|s old x Hx|s old new Hh|s old new Hh|s old new Hh]; simpl in *;
    destruct I as (pre & l & Hl & Ho & Hold & I).
  - by exists pre, l.
  - exists pre, l. split_and!; try done. destruct Hold as (Hc & _). destruct l as [|[n v] l]; [done|].
    destruct Hc as [Hc _]. congruence.
  - exists pre, l. split_and!; try done. by exists x.
  - destruct I as (_ & x & Hx & Hnx). destruct Hold as (Hc & Hnd & Hd). destruct l as [|[n v] l]; [congruence|].
    destruct Hc as (Hn & y & Hy & Hv & Hc). assert (n = old) as -> by congruence. assert (y = x) as -> by congruence.
    exists v, pre, l. split; [|done]. split_and!; [|by exists x|done]. split_and!; [by rewrite -Hnx|done|done].
  - destruct I as [I _]. done.
  - by exists pre, l.
Qed.

Lemma stack_output_snoc tr a : stack_output (tr ++ [a]) = stack_output tr ++ match a with Does o => o | Failed => [] end.
Proof. unfold stack_output. rewrite fmap_app concat_app /= app_nil_r. done. Qed.

Lemma label_of_silent a : match label_of a with Does o => o | Failed => [] end = [].
Proof. by destruct a. Qed.

Lemma stack_inv_step o s a s' : stack_inv o s → stack_step s a s' →
  stack_inv (o ++ match a with Does o' => o' | Failed => [] end) s'.
Proof.
  intros I Hs. destruct Hs as [s p a s' p' Hs]. unfold stack_inv in *. simpl in *.
  destruct Hs as [s|s i n junk Hi Hn|s i Hi|s i n Hn|s i n p a s' p' Hp|s i n|s i Hi|s p a s' p' Hp|s n|s n x Hx|s n Hn|s];
    simpl in *; rewrite ?label_of_silent ?app_nil_r.
  - destruct I as [-> H]. exists 0%nat, []. split_and!; try done. lia.
  - destruct I as (k & l & -> & Hk & -> & H & Hl). exists k, l. split_and!; try done; [lia|]. by apply holds_new.
  - destruct I as (k & l & _ & _ & -> & _). done.
  - destruct I as (k & l & -> & Hk & -> & H & Hl). exists k, l. split_and!; try done; [by apply holds_alter|].
    destruct Hn as [x Hx]. unfold set_value. simpl. rewrite lookup_alter_eq Hx. by eexists.
  - destruct I as (k & l & -> & Hk & -> & Hl & H). exists k, l. split_and!; try done. by eapply pushing_step.
  - destruct I as (k & l & -> & Hk & -> & Hl & H). exists (S k), ((n, (Z.of_nat k + 1) * 10) :: l).
    split_and!; [lia|lia|done|done|]. rewrite fmap_cons Hl. simpl. f_equal. lia.
  - destruct I as (k & l & -> & Hk & -> & H & Hl). assert (k = 5%nat) as -> by lia. by exists [], l.
  - by eapply popping_step.
  - done.
  - destruct I as (v & pre & l & (H & (y & Hy & Hv) & Hpre) & ->). assert (y = x) as -> by congruence.
    exists (pre ++ [v]), l. split_and!; [done| |].
    + by rewrite -app_assoc.
    + unfold popped_text. by rewrite fmap_app -!app_assoc Hv.
  - destruct I as (pre & l & H & Hpre & ->). exists pre, l. split_and!; try done. by apply holds_free.
  - destruct I as (pre & l & Hpre & -> & H & ->). rewrite app_nil_r in Hpre. rewrite Hpre.
    split; [by apply holds_empty|done].
Qed.

Lemma stack_inv_run tr s : run stack_step stack_init tr s → stack_inv (stack_output tr) s.
Proof.
  induction 1 as [|tr s a s' Hr IH Hs]; [|rewrite stack_output_snoc; by eapply stack_inv_step].
  split; [done|]. split_and!; [done|constructor|]. intros k. simpl. rewrite lookup_empty. split; [by intros [? ?]|by intros ?%elem_of_nil].
Qed.

(** The single thread finds the head as it left it; each node is worth twenty steps. *)
Definition push_weight (p : push_pc) : Z :=
  match p with push_load => 17 | push_next _ => 16 | push_cas _ => 15 | push_return => 14 end.
Definition pop_weight (p : pop_pc) : Z :=
  match p with pop_load => 10 | pop_next _ => 9 | pop_cas _ _ => 8 | pop_return _ => 7 end.
Definition stack_weight (s : stack_state) : Z :=
  20 * Z.of_nat (size (nodes (k_mem s))) +
  match k_at s with
  | k_start => 300 | k_malloc i => Z.max 0 (6 - i) * 40 + 11 | k_store i _ => Z.max 0 (5 - i) * 40 + 18
  | k_push i _ p => Z.max 0 (5 - i) * 40 + push_weight p
  | k_pop p => pop_weight p | k_print _ => 6 | k_free _ => 5 | k_done | k_exit => 0
  end.

Lemma stack_weight_nonneg s : 0 ≤ stack_weight s.
Proof. destruct s as [g []]; unfold stack_weight; simpl; try destruct p; simpl; lia. Qed.

Lemma size_alter {A} (f : A → A) (m : gmap positive A) n : size (alter f n m) = size m.
Proof. by rewrite -!size_dom dom_alter_L. Qed.

Lemma stack_weight_step o s a s' : stack_inv o s → stack_step s a s' → a ≠ Failed → stack_weight s' + 1 ≤ stack_weight s.
Proof.
  intros I Hs Ha. destruct Hs as [s p a s' p' Hs]. unfold stack_inv, stack_weight in *. simpl in *.
  destruct Hs as [s|s i n junk Hi Hn|s i Hi|s i n Hn|s i n p a s' p' Hp|s i n|s i Hi|s p a s' p' Hp|s n|s n x Hx|s n Hn|s];
    simpl in *; try lia.
  - rewrite map_size_insert_None //. lia.
  - unfold set_value. simpl. rewrite size_alter. lia.
  - destruct I as (k & l & -> & Hk & -> & Hl & H).
    destruct Hp as [s|s old Hn|s old Hh|s old Hh|s old Hh]; simpl in *; rewrite ?size_alter; try lia; [|done].
    destruct H as (_ & x & _ & _ & -> & _). done.
  - destruct Hp as [s old Hh|s Hh|s old x Hx|s old new Hh|s old new Hh|s old new Hh]; simpl in *; try lia; [|done].
    destruct I as (pre & l & _ & _ & _ & [I _]). done.
  - rewrite map_size_delete_Some //. destruct (size (nodes s)) eqn:E; [|lia].
    apply map_size_empty_inv in E. rewrite E lookup_empty in Hn. by destruct Hn.
Qed.

Lemma stack_progress o s : stack_inv o s →
  (k_at s = k_done ∨ k_at s = k_exit) ∨ ∃ a s', stack_step s a s' ∧ a ≠ Failed.
Proof.
  intros I. destruct s as [g m]. unfold stack_inv in I. simpl in *.
  destruct m as [|i|i n|i n p|p|n|n| |]; [right..|by left; left|by left; right].
  - do 2 eexists. split; [apply stack_steps, stack_starts|done].
  - destruct (decide (i ≤ 5)); do 2 eexists; (split; [apply stack_steps; by constructor|done]).
  - destruct I as (k & l & _ & _ & _ & (_ & _ & Hd) & _). do 2 eexists. split; [apply stack_steps, stack_stores|done]. apply Hd. by left.
  - destruct I as (k & l & _ & _ & _ & _ & H). destruct p as [|old|old|]; simpl in H.
    + do 2 eexists. split; [eapply stack_steps, stack_pushes, push_loads|done].
    + destruct H as (_ & x & Hx & _). do 2 eexists. split; [eapply stack_steps, stack_pushes, push_links; by eexists|done].
    + destruct H as (_ & x & _ & _ & -> & _). do 2 eexists. split; [eapply stack_steps, stack_pushes, push_succeeds; done|done].
    + do 2 eexists. split; [eapply stack_steps, stack_pushed|done].
  - destruct p as [|old|old new|[n|]]; simpl in I.
    + destruct (head g) as [old|] eqn:E; do 2 eexists; (split; [eapply stack_steps, stack_pops; by constructor|done]).
    + destruct I as (pre & l & _ & _ & (Hc & _) & Hh). destruct l as [|[n v] l]; [simpl in Hc; congruence|].
      destruct Hc as (Hn & x & Hx & _). assert (n = old) as -> by congruence.
      do 2 eexists. split; [by eapply stack_steps, stack_pops, pop_reads|done].
    + destruct I as (pre & l & _ & _ & _ & Hh & _). do 2 eexists. split; [by eapply stack_steps, stack_pops, pop_succeeds|done].
    + do 2 eexists. split; [eapply stack_steps, stack_popped|done].
    + do 2 eexists. split; [eapply stack_steps, stack_empty|done].
  - destruct I as (v & pre & l & (_ & (x & Hx & _) & _) & _). do 2 eexists. split; [by eapply stack_steps, stack_prints|done].
  - destruct I as (pre & l & (_ & _ & Hd) & _). do 2 eexists. split; [apply stack_steps, stack_frees|done]. apply Hd. by left.
Qed.

(** The use of the lock-free stack by the program, with spurious failures of the weak
    exchange: every run is bounded but for those failures and can be carried to its end;
    at the end the five values have been written in the reverse of the order of the
    pushes and every node is freed; it exits only when an allocation failed. *)
Theorem stack_section_correct :
  (∀ tr s, run stack_step stack_init tr s →
     ∃ tr' s', run stack_step s tr' s' ∧ Forall (λ a, a ≠ Failed) tr' ∧ (k_at s' = k_done ∨ k_at s' = k_exit)) ∧
  (∀ tr s, run stack_step stack_init tr s → Forall (λ a, a ≠ Failed) tr → (length tr ≤ 300)%nat) ∧
  (∀ tr s, run stack_step stack_init tr s → k_at s = k_done →
     nodes (k_mem s) = ∅ ∧
     stack_output tr = [line "═══ 6. Lock-free Stack (Treiber Stack) ════\n"; say "  pop order: " []] ++
       ((λ v, say "%d " [AInt v]) <$> [50; 40; 30; 20; 10]) ++ stack_notes) ∧
  (∀ tr s, run stack_step stack_init tr s → k_at s = k_exit →
     stack_output tr = [line "═══ 6. Lock-free Stack (Treiber Stack) ════\n"; Err (default ""%string (format "malloc failed\n" []))]).
Proof.
  assert (∀ tr s, run stack_step stack_init tr s → 0 ≤ stack_weight s) as Hnn by (intros; apply stack_weight_nonneg).
  assert (∀ tr s a s', run stack_step stack_init tr s → stack_step s a s' → a ≠ Failed → stack_weight s' + 1 ≤ stack_weight s) as Hw.
  { intros tr s a s' Hr Hs Ha. by eapply stack_weight_step; [apply stack_inv_run| |]. }
  split_and!.
  - apply (run_ends stack_step stack_init (λ a, a ≠ Failed) _ stack_weight Hnn Hw).
    intros tr s Hr. by eapply stack_progress, stack_inv_run.
  - intros tr s Hr Hok. pose proof (run_length _ _ _ _ Hw _ _ Hr Hok) as H. specialize (Hnn _ _ Hr).
    change (stack_weight stack_init) with 300 in H. lia.
  - intros tr s Hr He. apply stack_inv_run in Hr. unfold stack_inv in Hr. rewrite He in Hr. destruct Hr as [-> ->]. done.
  - intros tr s Hr He. apply stack_inv_run in Hr. unfold stack_inv in Hr. rewrite He in Hr. done.
Qed.
