(* ===== verification/Functions.v ===== *)
(** * Exercise 04: functions

    Model of [exercises/04_functions/functions.c].  The recursive functions take a bound
    on the depth of the recursion; for arguments of at least 0 the argument itself is
    enough, and a negative argument runs down to the least [int]. *)

From S2P Require Import Prelude Machine CString Double Printf SepLogic Pure.
#[local] Open Scope Z_scope.

(** The only objects are [int] variables whose address is taken. *)
#[export] Instance obj_int : Prism Z Z := {| to_obj := id; of_obj := Some; of_to_obj _ := eq_refl |}.

Definition add (a b : Z) : M Z Z :=
  result <- int_chk (a + b) ;;
  ret result.

Definition max3 (a b c : Z) : Z :=
  let m := if b <? a then a else b in
  if c <? m then m else c.

Definition arr_at (arr : list Z) (i : Z) : M Z Z :=
  if i <? 0 then undefined else match arr !! Z.to_nat i with Some z => ret z | None => undefined end.

Definition average (arr : list Z) (len : Z) : M Z double :=
  sum <- for_range 0 len (λ i sum, x <- arr_at arr i ;; int_chk (sum + x)) 0 ;;
  ret (d_div (d_of_Z sum) (d_of_Z len)).

Definition swap (a b : ptr) : M Z unit :=
  temp <- load a ;;
  y <- load b ;;
  store a (y : Z) ;;;
  store b (temp : Z).

Fixpoint factorial (fuel : nat) (n : Z) : M Z Z :=
  match fuel with
  | O => λ _, NoFuel
  | S fuel =>
      if n =? 0 then ret 1
      else
        m <- int_chk (n - 1) ;;
        r <- factorial fuel m ;;
        int_chk (n * r)
  end.

Fixpoint fibonacci (fuel : nat) (n : Z) : M Z Z :=
  match fuel with
  | O => λ _, NoFuel
  | S fuel =>
      if n =? 0 then ret 0
      else if n =? 1 then ret 1
      else
        m <- int_chk (n - 1) ;;
        a <- fibonacci fuel m ;;
        m <- int_chk (n - 2) ;;
        b <- fibonacci fuel m ;;
        int_chk (a + b)
  end.

Definition scores : list Z := [88; 72; 95; 60; 83].

Definition main : M Z Z :=
  printf "=== Basic functions ===\n" [] ;;;
  r <- add 3 4 ;; printf "add(3, 4)     = %d\n" [AInt r] ;;;
  printf "max3(7, 2, 9) = %d\n" [AInt (max3 7 2 9)] ;;;
  printf "\n=== Passing arrays ===\n" [] ;;;
  let len := Z.of_nat (length scores) in
  avg <- average scores len ;; printf "average       = %.1f\n" [ADbl avg] ;;;
  printf "\n=== Scope ===\n" [] ;;;
  let result := 100 in
  printf "result before call: %d\n" [AInt result] ;;;
  add 3 4 ;;;
  printf "result after call:  %d\n" [AInt result] ;;;
  printf "\n=== Pass by value vs pointer ===\n" [] ;;;
  px <- local 5 ;;
  py <- local 10 ;;
  x <- load px ;; y <- load py ;;
  printf "before swap: x=%d y=%d\n" [AInt x; AInt y] ;;;
  swap px py ;;;
  x <- load px ;; y <- load py ;;
  printf "after swap:  x=%d y=%d\n" [AInt x; AInt y] ;;;
  printf "\n=== Recursion: factorial ===\n" [] ;;;
  for_range 0 8 (λ i _, f <- factorial 8 i ;; printf "%d! = %d\n" [AInt i; AInt f]) tt ;;;
  printf "\n=== Recursion: Fibonacci ===\n" [] ;;;
  for_range 0 10 (λ i _, f <- fibonacci 10 i ;; printf "fib(%d) = %d\n" [AInt i; AInt f]) tt ;;;
  free px ;;; free py ;;;
  ret 0.

(** ** The recursive functions *)

(** n! *)
Fixpoint fact (n : nat) : Z := match n with O => 1 | S k => Z.of_nat n * fact k end.

(** The Fibonacci numbers, by iteration: [fib_pair n] is fib(n), fib(n+1). *)
Fixpoint fib_pair (n : nat) : Z * Z :=
  match n with O => (0, 1) | S k => let '(a, b) := fib_pair k in (b, a + b) end.
Definition fib (n : nat) : Z := (fib_pair n).1.

Lemma fib_S n : fib (S (S n)) = fib n + fib (S n).
Proof. unfold fib. simpl. by destruct (fib_pair n). Qed.

Lemma fib_mono_pos n : 0 ≤ fib n ∧ fib n ≤ fib (S n).
Proof.
  assert (∀ k, (k ≤ n)%nat → 0 ≤ fib k ∧ fib k ≤ fib (S k)) as H; [|by apply H].
  induction n as [|n IH]; intros k Hk; [by destruct k; [|lia]|].
  destruct (decide (k ≤ n)%nat); [by apply IH|]. assert (k = S n) as -> by lia.
  destruct (IH n ltac:(lia)). rewrite fib_S. lia.
Qed.

Lemma fact_pos n : 0 < fact n.
Proof. induction n as [|n IH]; [done|]. change (0 < Z.of_nat (S n) * fact n). lia. Qed.

Lemma fact_ge n m : (n ≤ m)%nat → fact n ≤ fact m.
Proof.
  induction 1 as [|m Hm IH]; [done|]. change (fact n ≤ Z.of_nat (S m) * fact m). pose proof (fact_pos m). nia.
Qed.

Lemma fib_ge n m : (n ≤ m)%nat → fib n ≤ fib m.
Proof. induction 1 as [|m Hm IH]; [done|]. destruct (fib_mono_pos m). lia. Qed.

Lemma fact_13 : fact 12 ≤ INT_MAX ∧ INT_MAX < fact 13.
Proof. split; vm_compute; congruence. Qed.
Lemma fib_47 : fib 46 ≤ INT_MAX ∧ INT_MAX < fib 47.
Proof. split; vm_compute; congruence. Qed.

Lemma factorial_small fuel n : (n < fuel)%nat → (n ≤ 12)%nat → yields (factorial fuel (Z.of_nat n)) (fact n).
Proof.
  revert fuel. induction n as [|n IH]; intros [|fuel] Hf Hn; try lia; [apply yields_ret|].
  cbn [factorial]. destruct (Z.eqb_spec (Z.of_nat (S n)) 0); [lia|].
  eapply yields_bind; [apply yields_int_chk; unfold INT_MIN, INT_MAX; lia|].
  replace (Z.of_nat (S n) - 1) with (Z.of_nat n) by lia.
  eapply yields_bind; [apply IH; lia|]. apply yields_int_chk.
  pose proof (fact_pos (S n)). pose proof (fact_ge (S n) 12 Hn). destruct fact_13.
  change (INT_MIN ≤ fact (S n) ≤ INT_MAX). unfold INT_MIN. lia.
Qed.

Lemma factorial_large fuel n : (n < fuel)%nat → (12 < n)%nat → Z.of_nat n ≤ INT_MAX → is_undefined (factorial fuel (Z.of_nat n)).
Proof.
  revert fuel. induction n as [|n IH]; intros [|fuel] Hf Hn Hmax; try lia.
  cbn [factorial]. destruct (Z.eqb_spec (Z.of_nat (S n)) 0); [lia|].
  eapply undefined_bind_r; [apply yields_int_chk; unfold INT_MIN in *; lia|].
  replace (Z.of_nat (S n) - 1) with (Z.of_nat n) by lia.
  destruct (decide (12 < n)%nat); [apply undefined_bind, IH; lia|].
  assert (n = 12%nat) as -> by lia.
  eapply undefined_bind_r; [apply factorial_small; lia|]. apply undefined_int_chk. vm_compute. intros [_ H]. by apply H.
Qed.

Lemma fibonacci_small fuel n : (n < fuel)%nat → (n ≤ 46)%nat → yields (fibonacci fuel (Z.of_nat n)) (fib n).
Proof.
  revert n. induction fuel as [|fuel IH]; intros n Hf Hn; [lia|]. cbn [fibonacci].
  destruct n as [|[|n]]; [apply yields_ret..|].
  destruct (Z.eqb_spec (Z.of_nat (S (S n))) 0); [lia|]. destruct (Z.eqb_spec (Z.of_nat (S (S n))) 1); [lia|].
  eapply yields_bind; [apply yields_int_chk; unfold INT_MIN, INT_MAX; lia|].
  replace (Z.of_nat (S (S n)) - 1) with (Z.of_nat (S n)) by lia. eapply yields_bind; [apply IH; lia|].
  eapply yields_bind; [apply yields_int_chk; unfold INT_MIN, INT_MAX; lia|].
  replace (Z.of_nat (S (S n)) - 2) with (Z.of_nat n) by lia. eapply yields_bind; [apply IH; lia|].
  replace (fib (S n) + fib n) with (fib (S (S n))) by (rewrite fib_S; lia). apply yields_int_chk.
  destruct (fib_mono_pos (S (S n))). pose proof (fib_ge (S (S n)) 46 Hn). destruct fib_47. unfold INT_MIN. lia.
Qed.

Lemma fibonacci_large fuel n : (n < fuel)%nat → (46 < n)%nat → Z.of_nat n ≤ INT_MAX → is_undefined (fibonacci fuel (Z.of_nat n)).
Proof.
  revert n. induction fuel as [|fuel IH]; intros n Hf Hn Hmax; [lia|]. cbn [fibonacci].
  destruct n as [|[|n]]; [lia..|].
  destruct (Z.eqb_spec (Z.of_nat (S (S n))) 0); [lia|]. destruct (Z.eqb_spec (Z.of_nat (S (S n))) 1); [lia|].
  eapply undefined_bind_r; [apply yields_int_chk; unfold INT_MIN in *; lia|].
  replace (Z.of_nat (S (S n)) - 1) with (Z.of_nat (S n)) by lia.
  destruct (decide (46 < S n)%nat); [apply undefined_bind, IH; lia|]. assert (n = 45%nat) as -> by lia.
  eapply undefined_bind_r; [apply (fibonacci_small fuel 46); lia|].
  eapply undefined_bind_r; [apply yields_int_chk; by vm_compute|].
  eapply undefined_bind_r; [apply (fibonacci_small fuel 45); lia|]. apply undefined_int_chk. vm_compute. intros [_ H]. by apply H.
Qed.

(** A negative argument: the recursion ends at the overflow of [n - 1]. *)
Lemma recursion_negative (f : nat → Z → M Z Z) :
  (∀ fuel n, n < 0 → ∃ k, f (S fuel) n = bind (int_chk (n - 1)) (λ m, bind (f fuel m) (k n m))) →
  ∀ fuel n, INT_MIN ≤ n < 0 → n - INT_MIN < Z.of_nat fuel → is_undefined (f fuel n).
Proof.
  intros Hf. induction fuel as [|fuel IH]; intros n Hn Hfuel; [lia|]. destruct (Hf fuel n) as [k ->]; [lia|].
  destruct (decide (n = INT_MIN)) as [->|]; [apply undefined_bind, undefined_int_chk; unfold INT_MIN, INT_MAX; lia|].
  eapply undefined_bind_r; [apply yields_int_chk; unfold INT_MIN, INT_MAX in *; lia|]. apply undefined_bind, IH; lia.
Qed.

Lemma factorial_negative fuel n : INT_MIN ≤ n < 0 → n - INT_MIN < Z.of_nat fuel → is_undefined (factorial fuel n).
Proof.
  apply recursion_negative. clear. intros fuel n Hn. exists (λ n _ r, int_chk (n * r)). cbn [factorial].
  destruct (Z.eqb_spec n 0); [lia|]. done.
Qed.

Lemma fibonacci_negative fuel n : INT_MIN ≤ n < 0 → n - INT_MIN < Z.of_nat fuel → is_undefined (fibonacci fuel n).
Proof.
  apply recursion_negative. clear. intros fuel n Hn.
  exists (λ n _ a, bind (int_chk (n - 2)) (λ m, bind (fibonacci fuel m) (λ b, int_chk (a + b)))). cbn [fibonacci].
  destruct (Z.eqb_spec n 0); [lia|]. destruct (Z.eqb_spec n 1); [lia|]. done.
Qed.

(** The recursive functions against their definitions: with a bound above the
    argument [factorial] is the factorial up to 12 and [fibonacci] the Fibonacci number,
    computed by iteration, up to 46; above that they overflow, which is undefined; a
    negative argument ends in the overflow of the argument. *)
Theorem recursive_functions_correct :
  (∀ fuel n, (n < fuel)%nat → (n ≤ 12)%nat → yields (factorial fuel (Z.of_nat n)) (fact n)) ∧
  (∀ fuel n, (n < fuel)%nat → (n ≤ 46)%nat → yields (fibonacci fuel (Z.of_nat n)) (fib n)) ∧
  (∀ fuel n, (n < fuel)%nat → (12 < n)%nat → Z.of_nat n ≤ INT_MAX → is_undefined (factorial fuel (Z.of_nat n))) ∧
  (∀ fuel n, (n < fuel)%nat → (46 < n)%nat → Z.of_nat n ≤ INT_MAX → is_undefined (fibonacci fuel (Z.of_nat n))) ∧
  (∀ fuel n, INT_MIN ≤ n < 0 → n - INT_MIN < Z.of_nat fuel →
     is_undefined (factorial fuel n) ∧ is_undefined (fibonacci fuel n)).
Proof.
  split_and!; [exact factorial_small|exact fibonacci_small|exact factorial_large|exact fibonacci_large|].
  intros fuel n Hn Hf. split; [by apply factorial_negative|by apply fibonacci_negative].
Qed.

(** ** The other functions *)

Lemma max3_spec a b c : max3 a b c = Z.max a (Z.max b c).
Proof. unfold max3. zb; lia. Qed.

(** [swap] exchanges two variables, and does nothing to one passed twice. *)
Lemma wp_swap mf X (la lb : positive) (a b : Z) (Q : unit → list ev → hpropI Z) :
  la ↦ a -∗ lb ↦ b -∗ (la ↦ b -∗ lb ↦ a -∗ Q tt []) -∗ wp mf X (swap (Some la) (Some lb)) Q.
Proof. iIntros "Ha Hb HQ". unfold swap. wp_run. iApply ("HQ" with "Ha Hb"). Qed.

Lemma wp_swap_same mf X (l : positive) (a : Z) (Q : unit → list ev → hpropI Z) :
  l ↦ a -∗ (l ↦ a -∗ Q tt []) -∗ wp mf X (swap (Some l) (Some l)) Q.
Proof. iIntros "Ha HQ". unfold swap. wp_run. by iApply "HQ". Qed.

Definition zsum_list (l : list Z) : Z := foldl Z.add 0 l.

(** [average] is the correctly rounded quotient of the sum by the length, when no partial
    sum overflows. *)
Lemma average_spec arr :
  (∀ k, (k ≤ length arr)%nat → INT_MIN ≤ zsum_list (take k arr) ≤ INT_MAX) →
  yields (average arr (Z.of_nat (length arr))) (d_div (d_of_Z (zsum_list arr)) (d_of_Z (Z.of_nat (length arr)))).
Proof.
  intros Hs. unfold average.
  destruct (writes_for_range (U:=Z) (λ i s o, s = zsum_list (take (Z.to_nat i) arr) ∧ o = []) 0 (Z.of_nat (length arr))
    (λ i sum, bind (arr_at arr i) (λ x, int_chk (sum + x))) 0) as (s & o & Hw & -> & ->); [lia| |done|].
  - intros i s o Hi [-> ->]. destruct (lookup_lt_is_Some_2 arr (Z.to_nat i)) as [x Hx]; [lia|].
    assert (zsum_list (take (Z.to_nat (i + 1)) arr) = zsum_list (take (Z.to_nat i) arr) + x) as E.
    { replace (Z.to_nat (i + 1)) with (S (Z.to_nat i)) by lia. rewrite (take_S_r _ _ _ Hx). unfold zsum_list.
      by rewrite foldl_app. }
    exists (zsum_list (take (Z.to_nat i) arr) + x), []. split; [|split; [by rewrite E|done]].
    eapply yields_bind; [unfold arr_at; destruct (Z.ltb_spec i 0); [lia|]; rewrite Hx; apply yields_ret|].
    apply yields_int_chk. rewrite -E. apply Hs. lia.
  - rewrite Nat2Z.id firstn_all in Hw. eapply yields_bind; [exact Hw|apply yields_ret].
Qed.

Definition main_text : string := esc (concat_str [
  "=== Basic functions ===\n"; "add(3, 4)     = 7\n"; "max3(7, 2, 9) = 9\n"; "\n=== Passing arrays ===\n"; "average       = 79.6\n";
  "\n=== Scope ===\n"; "result before call: 100\n"; "result after call:  100\n";
  "\n=== Pass by value vs pointer ===\n"; "before swap: x=5 y=10\n"; "after swap:  x=10 y=5\n";
  "\n=== Recursion: factorial ===\n"; "0! = 1\n"; "1! = 1\n"; "2! = 2\n"; "3! = 6\n"; "4! = 24\n"; "5! = 120\n"; "6! = 720\n"; "7! = 5040\n";
  "\n=== Recursion: Fibonacci ===\n"; "fib(0) = 0\n"; "fib(1) = 1\n"; "fib(2) = 1\n"; "fib(3) = 2\n"; "fib(4) = 3\n"; "fib(5) = 5\n";
  "fib(6) = 8\n"; "fib(7) = 13\n"; "fib(8) = 21\n"; "fib(9) = 34\n"])%string.

Lemma functions_main_correct : runs main (λ r o, r = 0 ∧ stdout o = main_text ∧ stderr o = ""%string) False.
Proof. run_program. Qed.
