(* ===== verification/Pointers.v ===== *)
(** * Exercise 06: pointers

    Model of [exercises/06_pointers/pointers.c].  A pointer is an address with an offset
    into the array there; moving it outside the array, its end excepted, is undefined,
    and so is reading or writing through it at the end.  What [%p] prints is the address. *)

From S2P Require Import Prelude Machine CString Double Printf SepLogic Pure.
#[local] Open Scope Z_scope.

Inductive obj := OInts (l : list Z) | OChars (s : list ascii) | OPtr (p : ptr).

#[export] Instance obj_ints : Prism obj (list Z) :=
  {| to_obj := OInts; of_obj o := match o with OInts l => Some l | _ => None end; of_to_obj _ := eq_refl |}.
#[export] Instance obj_chars : Prism obj (list ascii) :=
  {| to_obj := OChars; of_obj o := match o with OChars s => Some s | _ => None end; of_to_obj _ := eq_refl |}.
#[export] Instance obj_ptr : Prism obj ptr :=
  {| to_obj := OPtr; of_obj o := match o with OPtr p => Some p | _ => None end; of_to_obj _ := eq_refl |}.

(** A pointer into an array. *)
Record cptr := { block : ptr; off : Z }.
Definition at_ (p : ptr) (i : Z) : cptr := {| block := p; off := i |}.

Section arrays.
Context {T : Type} `{!Prism obj (list T)}.

Definition deref (p : cptr) : M obj T :=
  l <- load (block p) ;;
  if off p <? 0 then undefined else match l !! Z.to_nat (off p) with Some x => ret x | None => undefined end.

Definition assign (p : cptr) (x : T) : M obj unit :=
  l <- load (block p) ;;
  if (0 <=? off p) && (off p <? Z.of_nat (length l)) then store (block p) (<[Z.to_nat (off p) := x]> l) else undefined.

(** [p + n] *)
Definition advance (p : cptr) (n : Z) : M obj cptr :=
  l <- load (T:=list T) (block p) ;;
  if (0 <=? off p + n) && (off p + n <=? Z.of_nat (length l)) then ret (at_ (block p) (off p + n)) else undefined.
End arrays.

(** An [int] variable is an array of one. *)
Definition double_it (n : cptr) : M obj Z :=
  x <- deref n ;;
  y <- int_chk (x * 2) ;;
  assign n y ;;;
  deref n.

(** The loop of [reverse]; each turn brings the pointers two closer. *)
Definition reverse_loop (fuel : nat) : cptr * cptr → M obj unit :=
  loop fuel (λ '(lp, rp),
    if off lp <? off rp then
      tmp <- deref (T:=ascii) lp ;;
      y <- deref (T:=ascii) rp ;;
      assign lp y ;;;
      assign rp tmp ;;;
      lp <- advance (T:=ascii) lp 1 ;;
      rp <- advance (T:=ascii) rp (-1) ;;
      ret (inl (lp, rp))
    else ret (inr tt)).

(** [s + len - 1] is [(s + len) - 1]. *)
Definition reverse (s : cptr) (len : Z) : M obj unit :=
  e <- advance (T:=ascii) s len ;;
  rp <- advance (T:=ascii) e (-1) ;;
  reverse_loop (S (Z.to_nat len)) (s, rp).

(** The characters up to the NUL. *)
Fixpoint c_text (l : list ascii) : option string :=
  match l with
  | [] => None
  | c :: l' => if Ascii.eqb c "000"%char then Some ""%string else String c <$> c_text l'
  end.

Definition text_of (p : ptr) : M obj string :=
  l <- load p ;; match c_text l with Some s => ret s | None => undefined end.

Definition c_str (s : string) : list ascii := list_ascii_of_string s ++ ["000"%char].

(** [while ( *ps != NUL ) { printf("%c ", *ps); ps++; }] *)
Definition print_chars (fuel : nat) : cptr → M obj unit :=
  loop fuel (λ ps,
    c <- deref (T:=ascii) ps ;;
    if Ascii.eqb c "000"%char then ret (inr tt)
    else
      printf "%c " [AInt (code c)] ;;;
      ps <- advance (T:=ascii) ps 1 ;;
      ret (inl ps)).

(** [strstr]: where the first occurrence of [needle] starts. *)
Fixpoint strstr (hay needle : string) : option Z :=
  if String.prefix needle hay then Some 0
  else match hay with EmptyString => None | String _ hay' => Z.succ <$> strstr hay' needle end.

(** ** The program *)

Definition main_address : M obj unit :=
  printf "=== Address-of (&) and dereference (*) ===\n" [] ;;;
  px <- local (OInts [42]) ;;
  let p := at_ px 0 in
  x <- deref p ;; printf "x        = %d\n" [AInt x] ;;;
  printf "&x       = %p\n" [APtr px] ;;;
  printf "p        = %p\n" [APtr (block p)] ;;;
  v <- deref p ;; printf "*p       = %d\n" [AInt v] ;;;
  assign p 99 ;;;
  x <- deref (at_ px 0) ;; printf "after *p = 99, x = %d\n" [AInt x] ;;;
  free px.

Definition main_types : M obj unit :=
  printf "\n=== Pointer types ===\n" [] ;;;
  let d := lit 314 2 in
  printf "double  *pd: sizeof(d)=%zu, sizeof(pd)=%zu\n" [AInt 8; AInt 8] ;;;
  printf "*pd      = %.2f\n" [ADbl d] ;;;
  printf "*pc      = '%c'\n" [AInt 90] ;;;
  printf "sizeof(int*)    = %zu\n" [AInt 8] ;;;
  printf "sizeof(double*) = %zu\n" [AInt 8] ;;;
  printf "sizeof(char*)   = %zu\n" [AInt 8].

Definition main_arithmetic : M obj unit :=
  printf "\n=== Pointer arithmetic ===\n" [] ;;;
  arr <- local (OInts [10; 20; 30; 40; 50]) ;;
  let pa := at_ arr 0 in
  v <- deref (T:=Z) pa ;; printf "pa   points to arr[0] = %d\n" [AInt v] ;;;
  pa <- advance (T:=Z) pa 1 ;;
  v <- deref (T:=Z) pa ;; printf "pa++ points to arr[1] = %d\n" [AInt v] ;;;
  pa <- advance (T:=Z) pa 2 ;;
  v <- deref (T:=Z) pa ;; printf "pa+2 points to arr[3] = %d\n" [AInt v] ;;;
  printf "\nTraversing via pointer arithmetic:\n" [] ;;;
  for_range 0 5 (λ i _,
    q <- advance (T:=Z) (at_ arr 0) i ;; v <- deref (T:=Z) q ;; printf "*(arr+%d) = %d\n" [AInt i; AInt v]) tt ;;;
  first <- advance (T:=Z) (at_ arr 0) 0 ;;
  last <- advance (T:=Z) (at_ arr 0) 4 ;;
  printf "\nelements between first and last: %td\n" [AInt (off last - off first)] ;;;
  free arr.

Definition main_strings : M obj unit :=
  printf "\n=== Pointers and strings ===\n" [] ;;;
  word <- local (OChars (c_str "Hello")) ;;
  printf "chars: " [] ;;;
  print_chars 6 (at_ word 0) ;;;
  printf "\n" [] ;;;
  let sentence := "find the needle here"%string in
  match strstr sentence "needle" with
  | Some i => printf "found \q%s\q at index %td\n" [AStr (drop_str (Z.to_nat i) sentence); AInt i]
  | None => ret tt
  end ;;;
  free word.

Definition main_pointers : M obj unit :=
  printf "\n=== Pointer to pointer ===\n" [] ;;;
  val <- local (OInts [7]) ;;
  pp <- local (OPtr val) ;;
  v <- deref (T:=Z) (at_ val 0) ;; printf "val    = %d\n" [AInt v] ;;;
  q <- load (T:=ptr) pp ;; v <- deref (T:=Z) (at_ q 0) ;; printf "*ptr   = %d\n" [AInt v] ;;;
  q <- load (T:=ptr) pp ;; v <- deref (T:=Z) (at_ q 0) ;; printf "**pptr = %d\n" [AInt v] ;;;
  printf "\n=== NULL pointer ===\n" [] ;;;
  let null_ptr := NULL in
  match null_ptr with
  | None => printf "null_ptr is NULL — safe to check before dereferencing\n" []
  | Some _ => ret tt
  end ;;;
  free pp ;;; free val.

Definition main_functions : M obj unit :=
  printf "\n=== Passing pointers to functions ===\n" [] ;;;
  pn <- local (OInts [5]) ;;
  n <- deref (T:=Z) (at_ pn 0) ;; printf "before double_it: n = %d\n" [AInt n] ;;;
  double_it (at_ pn 0) ;;;
  n <- deref (T:=Z) (at_ pn 0) ;; printf "after  double_it: n = %d\n" [AInt n] ;;;
  s <- local (OChars (c_str "abcde")) ;;
  t <- text_of s ;; printf "before reverse: %s\n" [AStr t] ;;;
  t <- text_of s ;; reverse (at_ s 0) (strlen t) ;;;
  t <- text_of s ;; printf "after  reverse: %s\n" [AStr t] ;;;
  free s ;;; free pn.

Definition main : M obj Z :=
  main_address ;;; main_types ;;; main_arithmetic ;;; main_strings ;;; main_pointers ;;; main_functions ;;;
  ret 0.

(** ** Properties *)

Section props.
Context (mf : bool) (X : Z → Prop).

Lemma wp_deref {T} `{!Prism obj (list T)} l (xs : list T) i x (Q : T → list ev → hpropI obj) :
  0 ≤ i → xs !! Z.to_nat i = Some x →
  l ↦ to_obj xs -∗ (l ↦ to_obj xs -∗ Q x []) -∗ wp mf X (deref (at_ (Some l) i)) Q.
Proof.
  iIntros (Hi Hx) "Hl HQ". unfold deref, at_. simpl. iApply wp_bind.
  iApply (wp_load with "Hl"); [apply of_to_obj|]. iIntros "Hl". destruct (Z.ltb_spec i 0); [lia|]. rewrite Hx.
  wp_step. by iApply "HQ".
Qed.

Lemma wp_assign {T} `{!Prism obj (list T)} l (xs : list T) i x (Q : unit → list ev → hpropI obj) :
  0 ≤ i < Z.of_nat (length xs) →
  l ↦ to_obj xs -∗ (l ↦ to_obj (<[Z.to_nat i := x]> xs) -∗ Q tt []) -∗ wp mf X (assign (at_ (Some l) i) x) Q.
Proof.
  iIntros (Hi) "Hl HQ". unfold assign, at_. simpl. iApply wp_bind.
  iApply (wp_load with "Hl"); [apply of_to_obj|]. iIntros "Hl".
  destruct (Z.leb_spec 0 i); [|lia]. destruct (Z.ltb_spec i (Z.of_nat (length xs))); [|lia]. simpl.
  iApply (wp_store with "Hl"). iIntros "Hl". by iApply "HQ".
Qed.

Lemma wp_advance {T} `{!Prism obj (list T)} l (xs : list T) i n (Q : cptr → list ev → hpropI obj) :
  0 ≤ i + n ≤ Z.of_nat (length xs) →
  l ↦ to_obj xs -∗ (l ↦ to_obj xs -∗ Q (at_ (Some l) (i + n)) []) -∗ wp mf X (advance (T:=T) (at_ (Some l) i) n) Q.
Proof.
  iIntros (Hi) "Hl HQ". unfold advance, at_. simpl. iApply wp_bind.
  iApply (wp_load with "Hl"); [apply of_to_obj|]. iIntros "Hl".
  destruct (Z.leb_spec 0 (i + n)); [|lia]. destruct (Z.leb_spec (i + n) (Z.of_nat (length xs))); [|lia]. simpl.
  wp_step. by iApply "HQ".
Qed.

(** The loop reverses what lies between its pointers, both included. *)
Lemma wp_reverse_loop l fuel : ∀ (pre mid post : list ascii) (Q : unit → list ev → hpropI obj),
  (length mid < fuel)%nat → (0 < length mid)%nat ∨ (0 < length pre)%nat →
  l ↦ OChars (pre ++ mid ++ post) -∗ (l ↦ OChars (pre ++ rev mid ++ post) -∗ Q tt []) -∗
  wp mf X (reverse_loop fuel (at_ (Some l) (Z.of_nat (length pre)), at_ (Some l) (Z.of_nat (length pre + length mid) - 1))) Q.
Proof.
  induction fuel as [|fuel IH]; intros pre mid post Q Hf Hne; [lia|]. iIntros "Hl HQ".
  iApply wp_loop. cbn [off at_].
  destruct (Z.ltb_spec (Z.of_nat (length pre)) (Z.of_nat (length pre + length mid) - 1)) as [Hlt|Hge].
  - destruct mid as [|x mid]; simpl in *; [lia|]. destruct mid as [|y mid _] using rev_ind; simpl in *; [lia|].
    rewrite length_app /= in Hlt Hf |- *.
    iApply wp_bind. iApply (wp_deref (T:=ascii) with "Hl"); [lia| |].
    { rewrite Nat2Z.id lookup_app_r // Nat.sub_diag. done. }
    iIntros "Hl". iApply wp_bind.
    iApply (wp_deref (T:=ascii) _ _ _ y with "Hl"); [lia| |].
    { replace (Z.to_nat _) with (length (pre ++ x :: mid)) by (rewrite length_app /=; lia).
      rewrite (_ : pre ++ x :: (mid ++ [y]) ++ post = (pre ++ x :: mid) ++ y :: post); [|by rewrite -!app_assoc].
      by rewrite list_lookup_middle. }
    iIntros "Hl". iApply wp_bind. iApply (wp_assign (T:=ascii) with "Hl"); [rewrite ?length_app /= ?length_app /=; lia|].
    iIntros "Hl". rewrite Nat2Z.id insert_app_r_alt // Nat.sub_diag. simpl.
    iApply wp_bind. iApply (wp_assign (T:=ascii) with "Hl"); [rewrite ?length_app /= ?length_app /=; lia|].
    iIntros "Hl".
    assert (<[Z.to_nat (Z.of_nat (length pre + S (length mid + 1)) - 1):=x]> (pre ++ y :: (mid ++ [y]) ++ post)
            = (pre ++ [y]) ++ mid ++ (x :: post)) as ->.
    { replace (Z.to_nat _) with (length (pre ++ y :: mid)) by (rewrite length_app /=; lia).
      rewrite (_ : pre ++ y :: (mid ++ [y]) ++ post = (pre ++ y :: mid) ++ y :: post); [|by rewrite -!app_assoc].
      rewrite insert_app_r_alt // Nat.sub_diag /= -!app_assoc. done. }
    iApply wp_bind. iApply (wp_advance (T:=ascii) with "Hl"); [rewrite ?length_app /= ?length_app /=; lia|]. iIntros "Hl".
    iApply wp_bind. iApply (wp_advance (T:=ascii) with "Hl"); [rewrite ?length_app /= ?length_app /=; lia|]. iIntros "Hl".
    wp_step. cbn [app]. rewrite -/(reverse_loop fuel).
    replace (Z.of_nat (length pre) + 1) with (Z.of_nat (length (pre ++ [y]))) by (rewrite length_app /=; lia).
    replace (Z.of_nat (length pre + S (length mid + 1)) - 1 + -1) with (Z.of_nat (length (pre ++ [y]) + length mid) - 1)
      by (rewrite length_app /=; lia).
    iApply (IH with "Hl"); [lia|rewrite length_app /=; lia|].
    iIntros "Hl". iApply "HQ". rewrite rev_app_distr /= -!app_assoc /=. done.
  - wp_step. iApply "HQ". assert (rev mid = mid) as -> by (destruct mid as [|? [|? ?]]; simpl in *; done || lia). done.
Qed.

Lemma wp_reverse l (pre str post : list ascii) (Q : unit → list ev → hpropI obj) :
  (0 < length str)%nat →
  l ↦ OChars (pre ++ str ++ post) -∗ (l ↦ OChars (pre ++ rev str ++ post) -∗ Q tt []) -∗
  wp mf X (reverse (at_ (Some l) (Z.of_nat (length pre))) (Z.of_nat (length str))) Q.
Proof.
  iIntros (Hs) "Hl HQ". unfold reverse.
  iApply wp_bind. iApply (wp_advance (T:=ascii) with "Hl"); [rewrite !length_app; lia|]. iIntros "Hl".
  iApply wp_bind. iApply (wp_advance (T:=ascii) with "Hl"); [rewrite !length_app; lia|]. iIntros "Hl".
  replace (Z.of_nat (length pre) + Z.of_nat (length str) + -1) with (Z.of_nat (length pre + length str) - 1) by lia.
  iApply (wp_reverse_loop with "Hl"); [lia|lia|]. done.
Qed.
End props.

(** The text of a string in an array, reversed there. *)
Definition reverse_client (s : list ascii) : M obj (list ascii) :=
  p <- local (OChars (s ++ ["000"%char])) ;;
  reverse (at_ p 0) (Z.of_nat (length s)) ;;;
  l <- load p ;;
  free p ;;;
  ret l.

(** [reverse] reverses every string of at least one character in place, keeping its
    terminator and reading and writing nothing outside it; on the empty string the
    pointer to its last character is formed before the start of the array, which is
    undefined. *)
Theorem reverse_correct :
  (∀ s, s ≠ [] → runs (reverse_client s) (λ l o, l = rev s ++ ["000"%char] ∧ o = []) False) ∧
  (∀ w, reverse_client [] w = UB).
Proof.
  split.
  - intros s Hs. apply wp_runs. intros mf X _ _. iStartProof. unfold reverse_client. wp_step.
    iApply wp_local. iIntros (l) "Hl". iApply wp_bind.
    iApply (wp_reverse mf X l [] s ["000"%char] with "Hl"); [destruct s; simpl; done || lia|].
    iIntros "Hl". simpl. wp_run. done.
  - intros w. unfold reverse_client, reverse, local, bind, advance, at_, load, load_obj, bind. simpl.
    rewrite lookup_insert_eq /= lookup_insert_eq /=. done.
Qed.

Definition main_text : string := esc (concat_str [
  "=== Address-of (&) and dereference (*) ===\n"; "x        = 42\n"; "&x       = 0x2\n"; "p        = 0x2\n"; "*p       = 42\n";
  "after *p = 99, x = 99\n"; "\n=== Pointer types ===\n"; "double  *pd: sizeof(d)=8, sizeof(pd)=8\n"; "*pd      = 3.14\n"; "*pc      = 'Z'\n";
  "sizeof(int*)    = 8\n"; "sizeof(double*) = 8\n"; "sizeof(char*)   = 8\n";
  "\n=== Pointer arithmetic ===\n"; "pa   points to arr[0] = 10\n"; "pa++ points to arr[1] = 20\n"; "pa+2 points to arr[3] = 40\n";
  "\nTraversing via pointer arithmetic:\n"; "*(arr+0) = 10\n"; "*(arr+1) = 20\n"; "*(arr+2) = 30\n"; "*(arr+3) = 40\n"; "*(arr+4) = 50\n";
  "\nelements between first and last: 4\n"; "\n=== Pointers and strings ===\n"; "chars: H e l l o \n"; "found \qneedle here\q at index 9\n";
  "\n=== Pointer to pointer ===\n"; "val    = 7\n"; "*ptr   = 7\n"; "**pptr = 7\n"; "\n=== NULL pointer ===\n";
  "null_ptr is NULL — safe to check before dereferencing\n"; "\n=== Passing pointers to functions ===\n";
  "before double_it: n = 5\n"; "after  double_it: n = 10\n"; "before reverse: abcde\n"; "after  reverse: edcba\n"])%string.

Lemma pointers_main_correct : runs main (λ r o, r = 0 ∧ stdout o = main_text ∧ stderr o = ""%string) False.
Proof. run_program. Qed.
