(* ===== verification/FunctionPointers.v ===== *)
(** * Exercise 11: function pointers

    Model of [exercises/11_function_pointers/function_pointers.c]: a function pointer is
    the function, or NULL.  [qsort], [sin] and [cos] belong to the C library and are
    parameters of [main]. *)

From S2P Require Import Prelude Machine CString Double Printf SepLogic Pure.
#[local] Open Scope Z_scope.

Section functions.
Context {U : Type}.

Definition BinaryOp : Type := Z → Z → M U Z.
Definition IntCallback : Type := Z → M U unit.

Definition M_PI : double := lit 314159265358979323846 20.

Definition add (a b : Z) : M U Z := int_chk (a + b).
Definition subtract (a b : Z) : M U Z := int_chk (a - b).
Definition multiply (a b : Z) : M U Z := int_chk (a * b).

Definition print_value : IntCallback := λ x, printf "  %d\n" [AInt x].
Definition print_doubled : IntCallback := λ x, y <- int_chk (x * 2) ;; printf "  %d\n" [AInt y].
Definition print_square : IntCallback := λ x, y <- int_chk (x * x) ;; printf "  %d\n" [AInt y].

Definition apply_to_pi (fn : double → double) : double := fn M_PI.

Definition arr_at (arr : list Z) (i : Z) : M U Z :=
  if i <? 0 then undefined else match arr !! Z.to_nat i with Some z => ret z | None => undefined end.

Definition map (arr : list Z) (len : Z) (fn : IntCallback) : M U unit :=
  for_range 0 len (λ i _, x <- arr_at arr i ;; fn x) tt.

Definition reduce (arr : list Z) (len initial : Z) (op : BinaryOp) : M U Z :=
  for_range 0 len (λ i acc, x <- arr_at arr i ;; op acc x) initial.

(** The table has an entry for each character up to ['-'], NULL where none is given. *)
Definition table : list (option BinaryOp) := replicate 42 None ++ [Some multiply; Some add; None; Some subtract].

(** [op] is a [char], signed. *)
Definition dispatch (a b op : Z) : M U Z :=
  if (op <? 0) || (Z.of_nat (length table) <=? op) || (match table !! Z.to_nat op with Some (Some _) => false | _ => true end) then
    eprintf "unknown op '%c'\n" [AInt op] ;;;
    ret 0
  else
    match table !! Z.to_nat op with Some (Some f) => f a b | _ => undefined end.

Definition get_operation (op : Z) : option BinaryOp :=
  if op =? 43 then Some add
  else if op =? 45 then Some subtract
  else if op =? 42 then Some multiply
  else None.

Definition cmp_int_asc (ia ib : Z) : Z := b2z (ib <? ia) - b2z (ia <? ib).
Definition cmp_int_desc (ia ib : Z) : Z := b2z (ia <? ib) - b2z (ib <? ia).
Definition cmp_str (a b : string) : Z := strcmp a b.

(** ** The program *)

Section main.
Context (qsort : list Z → (Z → Z → Z) → list Z) (qsort_str : list string → (string → string → Z) → list string).
Context (sin cos : double → double).

Definition print_row (l : list Z) : M U unit := for_list l (λ x _, printf "%d " [AInt x]) tt ;;; printf "\n" [].

Definition main_callbacks : M U unit :=
  printf "=== Basic function pointer ===\n" [] ;;;
  let op := add in
  r <- op 3 4 ;; printf "op(3, 4)  = %d\n" [AInt r] ;;;
  r <- op 3 4 ;; printf "(*op)(3,4)= %d\n" [AInt r] ;;;
  let op := multiply in
  r <- op 3 4 ;; printf "op(3, 4)  = %d  (now multiply)\n" [AInt r] ;;;
  let fn := subtract in
  r <- fn 10 3 ;; printf "fn(10, 3) = %d\n" [AInt r] ;;;
  printf "\n=== map with callbacks ===\n" [] ;;;
  let arr := [1; 2; 3; 4; 5] in
  let len := Z.of_nat (length arr) in
  printf "print_value:\n" [] ;;; map arr len print_value ;;;
  printf "print_doubled:\n" [] ;;; map arr len print_doubled ;;;
  printf "print_square:\n" [] ;;; map arr len print_square ;;;
  printf "\n=== reduce ===\n" [] ;;;
  sum <- reduce arr len 0 add ;;
  product <- reduce arr len 1 multiply ;;
  printf "sum     = %d\n" [AInt sum] ;;;
  printf "product = %d\n" [AInt product].

Definition main_tables : M U unit :=
  printf "\n=== dispatch table ===\n" [] ;;;
  r <- dispatch 10 3 43 ;; printf "dispatch(10, 3, '+') = %d\n" [AInt r] ;;;
  r <- dispatch 10 3 45 ;; printf "dispatch(10, 3, '-') = %d\n" [AInt r] ;;;
  r <- dispatch 10 3 42 ;; printf "dispatch(10, 3, '*') = %d\n" [AInt r] ;;;
  printf "\n=== returning a function pointer ===\n" [] ;;;
  for_list [43; 45; 42] (λ c _,
    match get_operation c with
    | Some f => r <- f 6 2 ;; printf "get_operation('%c')(6, 2) = %d\n" [AInt c; AInt r]
    | None => ret tt
    end) tt ;;;
  printf "\n=== apply to math functions ===\n" [] ;;;
  printf "sin(pi)  = %.4f\n" [ADbl (apply_to_pi sin)] ;;;
  printf "cos(pi)  = %.4f\n" [ADbl (apply_to_pi cos)] ;;;
  printf "sqrt(pi) = %.4f\n" [ADbl (apply_to_pi d_sqrt)].

Definition main_qsort : M U unit :=
  printf "\n=== qsort ===\n" [] ;;;
  let nums := [42; 7; 19; 3; 55; 1; 28] in
  let nums := qsort nums cmp_int_asc in
  printf "ascending:  " [] ;;; print_row nums ;;;
  let nums := qsort nums cmp_int_desc in
  printf "descending: " [] ;;; print_row nums ;;;
  let words := ["banana"; "apple"; "cherry"; "date"]%string in
  let words := qsort_str words cmp_str in
  printf "sorted strings: " [] ;;; for_list words (λ s _, printf "%s " [AStr s]) tt ;;; printf "\n" [] ;;;
  printf "\n=== array of function pointers ===\n" [] ;;;
  for_list [("add"%string, add); ("subtract"%string, subtract); ("multiply"%string, multiply)] (λ '(name, f) _,
    r <- f 8 3 ;; printf "%-10s(8, 3) = %d\n" [AStr name; AInt r]) tt.

Definition main : M U Z := main_callbacks ;;; main_tables ;;; main_qsort ;;; ret 0.
End main.

(** ** Properties *)

Lemma table_spec op : 0 ≤ op → match table !! Z.to_nat op with Some x => x | None => None end = get_operation op.
Proof.
  intros Hop. destruct (decide (op < 46)) as [Hlt|].
  - assert (∃ n, op = Z.of_nat n ∧ (n < 46)%nat) as (n & -> & Hn) by (exists (Z.to_nat op); lia).
    rewrite Nat2Z.id. do 46 (destruct n as [|n]; [reflexivity|]). lia.
  - rewrite lookup_ge_None_2; [|change (length table) with 46%nat; lia].
    unfold get_operation. zb; try lia. done.
Qed.

(** The dispatch table is equivalent to the switch of [get_operation], for every
    character: [dispatch] calls the function the switch returns, and where the switch
    returns NULL it reports the character and returns 0; no entry outside the table is
    read and no NULL called. *)
Theorem dispatch_equivalent a b op : ∀ w,
  dispatch a b op w =
  match get_operation op with
  | Some f => f a b w
  | None => bind (eprintf "unknown op '%c'\n" [AInt op]) (λ _, ret 0) w
  end.
Proof.
  intros w. unfold dispatch. change (Z.of_nat (length table)) with 46.
  destruct (Z.ltb_spec op 0) as [Hneg|Hpos]; simpl.
  - unfold get_operation. zb; try lia. done.
  - pose proof (table_spec op Hpos) as Ht. destruct (table !! Z.to_nat op) as [[f|]|] eqn:E; rewrite -Ht ?orb_true_r //.
    apply lookup_lt_Some in E. change (length table) with 46%nat in E. destruct (Z.leb_spec 46 op); [lia|done].
Qed.

(** The partial results of a reduction. *)
Definition partial (f : Z → Z → Z) (l : list Z) (acc : Z) (k : nat) : Z := foldl f acc (take k l).

Lemma reduce_fold (f : Z → Z → Z) (op : BinaryOp) arr acc :
  (∀ a b, op a b = int_chk (f a b)) →
  (∀ k, (0 < k ≤ length arr)%nat → INT_MIN ≤ partial f arr acc k ≤ INT_MAX) →
  yields (reduce arr (Z.of_nat (length arr)) acc op) (foldl f acc arr).
Proof.
  intros Hop Hs. unfold reduce.
  destruct (writes_for_range (U:=U) (λ i s o, s = partial f arr acc (Z.to_nat i) ∧ o = []) 0 (Z.of_nat (length arr))
    (λ i acc, bind (arr_at arr i) (λ x, op acc x)) acc) as (s & o & Hw & -> & ->); [lia| |done|].
  - intros i s o Hi [-> ->]. destruct (lookup_lt_is_Some_2 arr (Z.to_nat i)) as [x Hx]; [lia|].
    assert (partial f arr acc (Z.to_nat (i + 1)) = f (partial f arr acc (Z.to_nat i)) x) as E.
    { unfold partial. replace (Z.to_nat (i + 1)) with (S (Z.to_nat i)) by lia. by rewrite (take_S_r _ _ _ Hx) foldl_app. }
    exists (f (partial f arr acc (Z.to_nat i)) x), []. split; [|split; [by rewrite E|done]].
    eapply yields_bind; [unfold arr_at; destruct (Z.ltb_spec i 0); [lia|]; rewrite Hx; apply yields_ret|].
    rewrite Hop. apply yields_int_chk. rewrite -E. apply Hs. lia.
  - unfold partial in Hw. rewrite Nat2Z.id firstn_all in Hw. exact Hw.
Qed.

Lemma writes_map (fn : IntCallback) (line : Z → ev) arr :
  (∀ x, x ∈ arr → writes (fn x) tt [line x]) →
  writes (map arr (Z.of_nat (length arr)) fn) tt (line <$> arr).
Proof.
  intros Hf. unfold map.
  destruct (writes_for_range (U:=U) (λ i _ o, o = line <$> take (Z.to_nat i) arr) 0 (Z.of_nat (length arr))
    (λ i _, bind (arr_at arr i) fn) tt) as ([] & o & Hw & ->); [lia| |done|].
  - intros i [] o Hi ->. destruct (lookup_lt_is_Some_2 arr (Z.to_nat i)) as [x Hx]; [lia|].
    exists tt, [line x]. split.
    + eapply yields_bind; [unfold arr_at; destruct (Z.ltb_spec i 0); [lia|]; rewrite Hx; apply yields_ret|].
      apply Hf. by eapply list_elem_of_lookup_2.
    + replace (Z.to_nat (i + 1)) with (S (Z.to_nat i)) by lia. by rewrite (take_S_r _ _ _ Hx) fmap_app.
  - by rewrite Nat2Z.id firstn_all in Hw.
Qed.

(** [reduce] and [map] over a whole array: with addition or multiplication, when no
    partial result overflows, the fold of the array; the callbacks are called on the
    elements in order. *)
Theorem map_reduce_correct :
  (∀ arr acc, (∀ k, (0 < k ≤ length arr)%nat → INT_MIN ≤ partial Z.add arr acc k ≤ INT_MAX) →
     yields (reduce arr (Z.of_nat (length arr)) acc add) (foldl Z.add acc arr)) ∧
  (∀ arr acc, (∀ k, (0 < k ≤ length arr)%nat → INT_MIN ≤ partial Z.mul arr acc k ≤ INT_MAX) →
     yields (reduce arr (Z.of_nat (length arr)) acc multiply) (foldl Z.mul acc arr)) ∧
  (∀ arr, writes (map arr (Z.of_nat (length arr)) print_value) tt
     ((λ x, Out (default ""%string (format "  %d\n" [AInt x]))) <$> arr)) ∧
  (∀ arr, (∀ x, x ∈ arr → INT_MIN ≤ x * x ≤ INT_MAX) →
     writes (map arr (Z.of_nat (length arr)) print_square) tt
       ((λ x, Out (default ""%string (format "  %d\n" [AInt (x * x)]))) <$> arr)).
Proof.
  split_and!.
  - intros arr acc. by apply reduce_fold.
  - intros arr acc. by apply reduce_fold.
  - intros arr. apply (writes_map _ (λ x, Out (default ""%string (format "  %d\n" [AInt x])))). intros x _. by intros w.
  - intros arr Hx. apply (writes_map _ (λ x, Out (default ""%string (format "  %d\n" [AInt (x * x)])))).
    intros x Hin. eapply yields_bind; [by apply yields_int_chk, Hx|]. by intros w.
Qed.
End functions.
