(* ===== verification/MultiFile.v ===== *)
(** * Exercise 19: a program of several files

    Model of [exercises/19_multi_file]: Module [Vec2] is [vec2.c], Module [Stats] is
    [stats.c], and [main] uses both, as [main.c] does.  The global variable
    [stats_calls] is passed to the functions of [Stats] and returned by them. *)

From S2P Require Import Prelude Machine CString Double Printf SepLogic Pure.
#[local] Open Scope Z_scope.

(** The program has no heap. *)
#[local] Abbreviation U := Empty_set.

Module Vec2.

Record Vec2 := { x : double; y : double }.

Definition sq (x : double) : double := d_mul x x.

Definition vec2 (x y : double) : Vec2 := {| x := x; y := y |}.
Definition vec2_add (a b : Vec2) : Vec2 := {| x := d_add (x a) (x b); y := d_add (y a) (y b) |}.
Definition vec2_sub (a b : Vec2) : Vec2 := {| x := d_sub (x a) (x b); y := d_sub (y a) (y b) |}.
Definition vec2_scale (v : Vec2) (s : double) : Vec2 := {| x := d_mul (x v) s; y := d_mul (y v) s |}.
Definition vec2_dot (a b : Vec2) : double := d_add (d_mul (x a) (x b)) (d_mul (y a) (y b)).
Definition vec2_len (v : Vec2) : double := d_sqrt (d_add (sq (x v)) (sq (y v))).

Definition vec2_norm (v : Vec2) : Vec2 :=
  let len := vec2_len v in
  if d_eq len d_zero then {| x := d_zero; y := d_zero |}
  else vec2_scale v (d_div (d_of_Z 1) len).

Definition vec2_print (label : string) (v : Vec2) : M U unit :=
  printf "%-10s = (%.3f, %.3f)\n" [AStr label; ADbl (x v); ADbl (y v)].

End Vec2.

Module Stats.

Definition arr_at (arr : list double) (i : Z) : M U double :=
  if i <? 0 then undefined else match arr !! Z.to_nat i with Some z => ret z | None => undefined end.

(** Each function takes and returns [stats_calls]. *)
Definition stats_mean (arr : list double) (n stats_calls : Z) : M U (double * Z) :=
  stats_calls <- int_chk (stats_calls + 1) ;;
  sum <- for_range 0 n (λ i sum, x <- arr_at arr i ;; ret (d_add sum x)) d_zero ;;
  ret (d_div sum (d_of_Z n), stats_calls).

Definition stats_variance (arr : list double) (n stats_calls : Z) : M U (double * Z) :=
  stats_calls <- int_chk (stats_calls + 1) ;;
  let* (m, stats_calls) := stats_mean arr n stats_calls in
  stats_calls <- int_chk (stats_calls - 1) ;;
  sum <- for_range 0 n (λ i sum, x <- arr_at arr i ;; ret (d_add sum (d_mul (d_sub x m) (d_sub x m)))) d_zero ;;
  ret (d_div sum (d_of_Z n), stats_calls).

Definition stats_stddev (arr : list double) (n stats_calls : Z) : M U (double * Z) :=
  stats_calls <- int_chk (stats_calls + 1) ;;
  let* (v, stats_calls) := stats_variance arr n stats_calls in
  ret (d_sqrt v, stats_calls).

Definition stats_min (arr : list double) (n stats_calls : Z) : M U (double * Z) :=
  stats_calls <- int_chk (stats_calls + 1) ;;
  m <- arr_at arr 0 ;;
  m <- for_range 1 n (λ i m, x <- arr_at arr i ;; ret (if d_lt x m then x else m)) m ;;
  ret (m, stats_calls).

Definition stats_max (arr : list double) (n stats_calls : Z) : M U (double * Z) :=
  stats_calls <- int_chk (stats_calls + 1) ;;
  m <- arr_at arr 0 ;;
  m <- for_range 1 n (λ i m, x <- arr_at arr i ;; ret (if d_gt x m then x else m)) m ;;
  ret (m, stats_calls).

End Stats.

Import Vec2 Stats.

Definition data : list double := d_of_Z <$> [4; 7; 13; 2; 1; 9; 6; 3].

Definition main_vec2 : M U unit :=
  printf "=== vec2 module ===\n" [] ;;;
  let a := vec2 (d_of_Z 3) (d_of_Z 4) in
  let b := vec2 (d_of_Z 1) (d_of_Z 2) in
  vec2_print "a" a ;;;
  vec2_print "b" b ;;;
  vec2_print "a+b" (vec2_add a b) ;;;
  vec2_print "a-b" (vec2_sub a b) ;;;
  vec2_print "a*2" (vec2_scale a (d_of_Z 2)) ;;;
  vec2_print "norm(a)" (vec2_norm a) ;;;
  printf "%-10s = %.3f\n" [AStr "dot(a,b)"; ADbl (vec2_dot a b)] ;;;
  printf "%-10s = %.3f\n" [AStr "len(a)"; ADbl (vec2_len a)].

Definition main_stats (stats_calls : Z) : M U unit :=
  printf "\n=== stats module ===\n" [] ;;;
  let n := Z.of_nat (length data) in
  printf "data:     " [] ;;;
  for_range 0 n (λ i _, x <- arr_at data i ;; printf "%.0f " [ADbl x]) tt ;;;
  printf "\n" [] ;;;
  let* (r, stats_calls) := stats_mean data n stats_calls in printf "mean:     %.3f\n" [ADbl r] ;;;
  let* (r, stats_calls) := stats_variance data n stats_calls in printf "variance: %.3f\n" [ADbl r] ;;;
  let* (r, stats_calls) := stats_stddev data n stats_calls in printf "stddev:   %.3f\n" [ADbl r] ;;;
  let* (r, stats_calls) := stats_min data n stats_calls in printf "min:      %.3f\n" [ADbl r] ;;;
  let* (r, stats_calls) := stats_max data n stats_calls in printf "max:      %.3f\n" [ADbl r] ;;;
  printf "stats_calls (extern): %d\n" [AInt stats_calls].

Definition main : M U Z :=
  main_vec2 ;;;
  main_stats 0 ;;;
  printf "\n=== Module independence ===\n" [] ;;;
  printf "vec2.h exports %d functions\n" [AInt 8] ;;;
  printf "stats.h exports %d functions + 1 extern variable\n" [AInt 5] ;;;
  printf "static helpers in vec2.c are invisible to main.c\n" [] ;;;
  ret 0.

Definition main_text : string := esc (concat_str [
  "=== vec2 module ===\n"; "a          = (3.000, 4.000)\n"; "b          = (1.000, 2.000)\n"; "a+b        = (4.000, 6.000)\n";
  "a-b        = (2.000, 2.000)\n"; "a*2        = (6.000, 8.000)\n"; "norm(a)    = (0.600, 0.800)\n"; "dot(a,b)   = 11.000\n"; "len(a)     = 5.000\n";
  "\n=== stats module ===\n"; "data:     4 7 13 2 1 9 6 3 \n"; "mean:     5.625\n"; "variance: 13.984\n"; "stddev:   3.740\n";
  "min:      1.000\n"; "max:      13.000\n"; "stats_calls (extern): 6\n"; "\n=== Module independence ===\n";
  "vec2.h exports 8 functions\n"; "stats.h exports 5 functions + 1 extern variable\n"; "static helpers in vec2.c are invisible to main.c\n"])%string.

Lemma multi_file_main_correct : runs main (λ r o, r = 0 ∧ stdout o = main_text ∧ stderr o = ""%string) False.
Proof. run_program. Qed.

(** ** Properties *)

Lemma cmp_lex_trans (e1 e2 e3 : Z) (m1 m2 m3 : positive) :
  match e1 ?= e2 with Eq => (m1 ?= m2)%positive | c => c end = Lt →
  match e2 ?= e3 with Eq => (m2 ?= m3)%positive | c => c end = Lt →
  match e1 ?= e3 with Eq => (m1 ?= m3)%positive | c => c end = Lt.
Proof.
  destruct (Z.compare_spec e1 e2), (Z.compare_spec e2 e3), (Z.compare_spec e1 e3); try done; try lia;
    rewrite ?Pos.compare_lt_iff; lia.
Qed.

(** The order of [double] is transitive, NaN and infinities included. *)
Lemma d_lt_trans (a b c : double) : d_lt a b = true → d_lt b c = true → d_lt a c = true.
Proof.
  assert (∀ s e1 e2 m1 m2, d_lt (S754_finite s m1 e1) (S754_finite s m2 e2) = true ↔
    if s then match e2 ?= e1 with Eq => (m2 ?= m1)%positive | c => c end = Lt
    else match e1 ?= e2 with Eq => (m1 ?= m2)%positive | c => c end = Lt) as E.
  { clear. intros s e1 e2 m1 m2. unfold d_lt, SFltb, SFcompare. rewrite -!/(Pos.compare _ _).
    rewrite (Z.compare_antisym e1 e2) (Pos.compare_antisym m1 m2).
    destruct s, (e1 ?= e2); simpl; try done; by destruct (m1 ?= m2)%positive. }
  destruct a as [[]|[]| |[] ma ea], b as [[]|[]| |[] mb eb], c as [[]|[]| |[] mc ec]; try done;
    rewrite !E; intros; by eapply cmp_lex_trans.
Qed.

Lemma yields_arr_at arr i d : 0 ≤ i → arr !! Z.to_nat i = Some d → yields (arr_at arr i) d.
Proof. intros Hi Hd w. unfold arr_at. destruct (Z.ltb_spec i 0); [lia|]. by rewrite Hd. Qed.

(** A loop over an array from an index on is a fold. *)
Lemma fold_loop (f : double → double → double) (k : nat) arr s :
  (k ≤ length arr)%nat →
  yields (for_range (Z.of_nat k) (Z.of_nat (length arr)) (λ i s, bind (arr_at arr i) (λ x, ret (f s x))) s)
    (foldl f s (drop k arr)).
Proof.
  intros Hk.
  destruct (writes_for_range (U:=U) (λ i r o, r = foldl f s (take (Z.to_nat i - k) (drop k arr)) ∧ o = []) (Z.of_nat k) (Z.of_nat (length arr))
    (λ i s, bind (arr_at arr i) (λ x, ret (f s x))) s) as (r & o & Hw & -> & ->); [lia| | |].
  - intros i r o Hi [-> ->]. destruct (lookup_lt_is_Some_2 arr (Z.to_nat i)) as [x Hx]; [lia|].
    eexists _, []. split; [eapply yields_bind; [apply yields_arr_at; [lia|exact Hx]|apply yields_ret]|]. split; [|done].
    replace (Z.to_nat (i + 1) - k)%nat with (S (Z.to_nat i - k)) by lia.
    rewrite (take_S_r _ _ x) ?foldl_app // lookup_drop. by replace (k + (Z.to_nat i - k))%nat with (Z.to_nat i) by lia.
  - by rewrite Nat2Z.id Nat.sub_diag take_0.
  - rewrite Nat2Z.id take_ge in Hw; [exact Hw|rewrite length_drop; lia].
Qed.

Definition mean (arr : list double) : double := d_div (foldl d_add d_zero arr) (d_of_Z (Z.of_nat (length arr))).
Definition variance (arr : list double) : double :=
  d_div (foldl (λ s x, d_add s (d_mul (d_sub x (mean arr)) (d_sub x (mean arr)))) d_zero arr) (d_of_Z (Z.of_nat (length arr))).

Lemma stats_mean_spec arr c :
  INT_MIN ≤ c < INT_MAX → yields (stats_mean arr (Z.of_nat (length arr)) c) (mean arr, c + 1).
Proof.
  intros Hc. unfold stats_mean. eapply yields_bind; [apply yields_int_chk; lia|].
  eapply yields_bind; [apply (fold_loop d_add 0); lia|]. rewrite drop_0. apply yields_ret.
Qed.

Lemma stats_variance_spec arr c :
  INT_MIN ≤ c < INT_MAX - 1 → yields (stats_variance arr (Z.of_nat (length arr)) c) (variance arr, c + 1).
Proof.
  intros Hc. unfold stats_variance. eapply yields_bind; [apply yields_int_chk; lia|].
  eapply yields_bind; [apply stats_mean_spec; lia|]. cbv beta iota.
  eapply yields_bind; [apply yields_int_chk; lia|]. replace (c + 1 + 1 - 1) with (c + 1) by lia.
  eapply yields_bind; [apply (fold_loop (λ s x, d_add s (d_mul (d_sub x (mean arr)) (d_sub x (mean arr)))) 0); lia|].
  rewrite drop_0. apply yields_ret.
Qed.

Lemma stats_stddev_spec arr c :
  INT_MIN ≤ c < INT_MAX - 2 → yields (stats_stddev arr (Z.of_nat (length arr)) c) (d_sqrt (variance arr), c + 2).
Proof.
  intros Hc. unfold stats_stddev. eapply yields_bind; [apply yields_int_chk; lia|].
  eapply yields_bind; [apply stats_variance_spec; lia|]. replace (c + 1 + 1) with (c + 2) by lia. apply yields_ret.
Qed.

Lemma d_lt_irrefl (a : double) : d_lt a a = false.
Proof.
  destruct a as [[]|[]| |s m e]; try done. unfold d_lt, SFltb, SFcompare. rewrite Z.compare_refl -/(Pos.compare m m) Pos.compare_refl.
  by destruct s.
Qed.

(** Choosing the better of two by a strict order leaves an element that none of the
    others is better than. *)
Lemma best_of (lt : double → double → bool) :
  (∀ a, lt a a = false) → (∀ a b c, lt a b = true → lt b c = true → lt a c = true) →
  ∀ l m, let m' := foldl (λ m x, if lt x m then x else m) m l in
  m' ∈ m :: l ∧ (m' = m ∨ lt m' m = true) ∧ ∀ x, x ∈ m :: l → lt x m' = false.
Proof.
  intros Hirr Htr. induction l as [|y l IH]; intros m; simpl; [set_solver|]. destruct (lt y m) eqn:E.
  - destruct (IH y) as (Hin & Hle & Hbest). split_and!; [set_solver| |].
    { right. destruct Hle as [->|Hle]; [done|by eapply Htr]. }
    intros x [->|Hx]%elem_of_cons; [|by apply Hbest].
    destruct (lt m _) eqn:E2; [|done]. rewrite -(Hbest y); [|set_solver]. symmetry. by eapply Htr.
  - destruct (IH m) as (Hin & Hle & Hbest). split_and!; [set_solver|done|].
    intros x [->|[->|Hx]%elem_of_cons]%elem_of_cons; [apply Hbest; set_solver| |apply Hbest; set_solver].
    destruct Hle as [Heq|Hle]; [by rewrite Heq|]. apply not_true_iff_false. intros E2. by rewrite (Htr _ _ _ E2 Hle) in E.
Qed.

(** [stats_min] and [stats_max] share their loop. *)
Lemma best_loop (lt : double → double → bool) arr c :
  (∀ a, lt a a = false) → (∀ a b c, lt a b = true → lt b c = true → lt a c = true) →
  INT_MIN ≤ c < INT_MAX → arr ≠ [] →
  ∃ m, yields (bind (int_chk (c + 1)) (λ c, bind (arr_at arr 0) (λ m,
    bind (for_range 1 (Z.of_nat (length arr)) (λ i m, bind (arr_at arr i) (λ x, ret (if lt x m then x else m))) m) (λ m, ret (m, c)))))
    (m, c + 1) ∧ m ∈ arr ∧ ∀ x, x ∈ arr → lt x m = false.
Proof.
  intros Hirr Htr Hc Hne. destruct arr as [|a l]; [done|]. eexists. split.
  - eapply yields_bind; [apply yields_int_chk; lia|]. eapply yields_bind; [by apply (yields_arr_at _ 0 a)|].
    eapply yields_bind; [apply (fold_loop (λ m x, if lt x m then x else m) 1); simpl; lia|]. apply yields_ret.
  - destruct (best_of lt Hirr Htr l a) as (? & _ & ?). done.
Qed.

(** C21. The statistics of a non-empty array, whatever its elements are, NaN and infinities
    included, as long as the counter of calls does not overflow: the mean and the variance
    are those of the rounded sums, in the order of the array; the minimum (maximum) is
    an element that no element is less (greater) than.  Each call counts as one in
    [stats_calls], but [stats_stddev] as two.  On an empty array the mean is NaN and the
    minimum and the maximum are undefined. *)
Theorem stats_correct :
  (∀ arr c, INT_MIN ≤ c < INT_MAX - 2 → arr ≠ [] →
     let n := Z.of_nat (length arr) in
     yields (stats_mean arr n c) (mean arr, c + 1) ∧
     yields (stats_variance arr n c) (variance arr, c + 1) ∧
     yields (stats_stddev arr n c) (d_sqrt (variance arr), c + 2) ∧
     (∃ m, yields (stats_min arr n c) (m, c + 1) ∧ m ∈ arr ∧ ∀ x, x ∈ arr → d_lt x m = false) ∧
     (∃ m, yields (stats_max arr n c) (m, c + 1) ∧ m ∈ arr ∧ ∀ x, x ∈ arr → d_gt x m = false)) ∧
  (∀ c, INT_MIN ≤ c < INT_MAX →
     yields (stats_mean [] 0 c) (S754_nan, c + 1) ∧
     is_undefined (stats_min [] 0 c) ∧ is_undefined (stats_max [] 0 c)).
Proof.
  split.
  - intros arr c Hc Hne n. split_and!.
    + apply stats_mean_spec. lia.
    + apply stats_variance_spec. lia.
    + by apply stats_stddev_spec.
    + apply (best_loop d_lt); [exact d_lt_irrefl|exact d_lt_trans|lia|done].
    + apply (best_loop d_gt); [exact d_lt_irrefl|intros x y z Hxy Hyz; exact (d_lt_trans z y x Hyz Hxy)|lia|done].
  - intros c Hc. split_and!.
    + exact (stats_mean_spec [] c Hc).
    + eapply undefined_bind_r; [apply yields_int_chk; lia|]. by intros w.
    + eapply undefined_bind_r; [apply yields_int_chk; lia|]. by intros w.
Qed.
