(* ===== verification/Variables.v ===== *)
(** * Exercises 01 and 02: the first program, and variables

    Model of [exercises/01_hello_world/hello_world.c] and of
    [exercises/02_variables/variables.c].  The sizes of the types are those of a 64-bit
    platform of the LP64 kind, [char] is signed. *)

From S2P Require Import Prelude Machine CString Double Printf SepLogic Pure.
#[local] Open Scope Z_scope.

#[local] Abbreviation U := Empty_set.

Definition hello_main : M U Z :=
  printf "Hello, World!\n" [] ;;;
  ret 0.

(** The float nearest to the decimal literal [m / 10^k], as a double. *)
Definition lit_f (m k : Z) : double := SFdiv 24 128 (raw_pos m) (raw_pos (10 ^ k)).

(** [a / b] on [int]: towards zero; by 0, and INT_MIN by -1, undefined. *)
Definition int_div (a b : Z) : M U Z := if b =? 0 then undefined else int_chk (Z.quot a b).

(** [(int)x] *)
Definition int_of_double (x : double) : M U Z := match d_trunc x with Some z => ret z | None => undefined end.

Definition main_types : M U unit :=
  let c := 65 in
  let s := 32000 in
  let i := INT_MIN in
  let ll := 9876543210 in
  printf "=== Integer types ===\n" [] ;;;
  printf "char:   %c  (%d)\n" [AInt c; AInt c] ;;;
  printf "short:  %d\n" [AInt s] ;;;
  printf "int:    %d\n" [AInt i] ;;;
  printf "long long: %lld\n" [AInt ll] ;;;
  let ui := 4294967295 in
  let uc := 255 in
  printf "\n=== Unsigned integers ===\n" [] ;;;
  printf "unsigned int:  %u\n" [AInt ui] ;;;
  printf "unsigned char: %u\n" [AInt uc] ;;;
  let f := lit_f 314 2 in
  let d := lit 3141592653589793 15 in
  printf "\n=== Floating point ===\n" [] ;;;
  printf "float:  %.7f\n" [ADbl f] ;;;
  printf "double: %.15f\n" [ADbl d].

Definition main_sizeof : M U unit :=
  printf "\n=== sizeof (bytes) ===\n" [] ;;;
  printf "char:   %zu\n" [AInt 1] ;;;
  printf "short:  %zu\n" [AInt 2] ;;;
  printf "int:    %zu\n" [AInt 4] ;;;
  printf "long:   %zu\n" [AInt 8] ;;;
  printf "long long: %zu\n" [AInt 8] ;;;
  printf "float:  %zu\n" [AInt 4] ;;;
  printf "double: %zu\n" [AInt 8].

Definition main_casts : M U unit :=
  let a := 7 in
  let b := 2 in
  truncated <- int_div a b ;;
  printf "\n=== Type casting ===\n" [] ;;;
  printf "7 / 2 (int / int)      = %d  (truncates)\n" [AInt truncated] ;;;
  let exact := d_div (d_of_Z a) (d_of_Z b) in
  printf "(double)7 / 2          = %.1f\n" [ADbl exact] ;;;
  let pi := lit 399 2 in
  pi_int <- int_of_double pi ;;
  printf "(int)3.99              = %d  (truncates, does not round)\n" [AInt pi_int] ;;;
  let letter := 97 in
  printf "\n'a' + 1 = '%c' (%d)\n" [AInt (letter + 1); AInt (letter + 1)].

Definition main : M U Z :=
  main_types ;;; main_sizeof ;;; main_casts ;;; ret 0.

Definition main_text : string := esc (concat_str [
  "=== Integer types ===\n"; "char:   A  (65)\n"; "short:  32000\n"; "int:    -2147483648\n"; "long long: 9876543210\n";
  "\n=== Unsigned integers ===\n"; "unsigned int:  4294967295\n"; "unsigned char: 255\n";
  "\n=== Floating point ===\n"; "float:  3.1400001\n"; "double: 3.141592653589793\n";
  "\n=== sizeof (bytes) ===\n"; "char:   1\n"; "short:  2\n"; "int:    4\n"; "long:   8\n"; "long long: 8\n"; "float:  4\n"; "double: 8\n";
  "\n=== Type casting ===\n"; "7 / 2 (int / int)      = 3  (truncates)\n"; "(double)7 / 2          = 3.5\n";
  "(int)3.99              = 3  (truncates, does not round)\n"; "\n'a' + 1 = 'b' (98)\n"])%string.

Lemma hello_main_correct : runs hello_main (λ r o, r = 0 ∧ stdout o = esc "Hello, World!\n" ∧ stderr o = ""%string) False.
Proof. run_program. Qed.

Lemma variables_main_correct : runs main (λ r o, r = 0 ∧ stdout o = main_text ∧ stderr o = ""%string) False.
Proof. run_program. Qed.

(** Division is undefined by 0 and where the quotient is no [int]. *)
Lemma int_div_spec a b :
  INT_MIN ≤ a ≤ INT_MAX → INT_MIN ≤ b ≤ INT_MAX → b ≠ 0 → (a, b) ≠ (INT_MIN, -1) → yields (int_div a b) (Z.quot a b).
Proof.
  intros Ha Hb Hb0 Hab. unfold int_div. destruct (Z.eqb_spec b 0); [done|]. apply yields_int_chk.
  assert (Z.abs (Z.quot a b) ≤ Z.abs a) as Hq.
  { rewrite -Z.quot_abs //. apply Z.quot_le_upper_bound; nia. }
  destruct (decide (Z.quot a b = INT_MAX + 1)) as [E|]; [|unfold INT_MIN, INT_MAX in *; lia].
  exfalso. apply Hab. pose proof (Z.quot_rem' a b). pose proof (Z.rem_bound_abs a b Hb0). unfold INT_MIN, INT_MAX in *.
  assert (a = -2147483648) as -> by lia. f_equal. nia.
Qed.
