(* ===== verification/ControlFlow.v ===== *)
(** * Exercise 03: control flow

    Model of [exercises/03_control_flow/control_flow.c].  The branches of [main] are
    definitions of the variable they test. *)

From S2P Require Import Prelude Machine CString Double Printf SepLogic Pure.
#[local] Open Scope Z_scope.

#[local] Abbreviation U := Empty_set.

Definition comfort (temp : Z) : M U unit :=
  if 90 <=? temp then printf "Hot\n" []
  else if 70 <=? temp then printf "Comfortable\n" []
  else if 50 <=? temp then printf "Cool\n" []
  else printf "Cold\n" [].

Definition warm_and_humid (temp humidity : Z) : M U unit :=
  if (70 <=? temp) && (80 <=? humidity) then printf "Warm and humid\n" [] else ret tt.

Definition day_line (day : Z) : M U unit :=
  if day =? 1 then printf "Monday\n" []
  else if day =? 2 then printf "Tuesday\n" []
  else if day =? 3 then printf "Wednesday\n" []
  else if day =? 4 then printf "Thursday\n" []
  else if day =? 5 then printf "Friday\n" []
  else if (day =? 6) || (day =? 7) then printf "Weekend\n" []
  else printf "Invalid day\n" [].

Definition grade_line (grade : Z) : M U unit :=
  if grade =? 65 then printf "Excellent\n" []
  else if grade =? 66 then printf "Good\n" []
  else if grade =? 67 then printf "Average\n" []
  else printf "Below average\n" [].

(** [for (int i = n; i > 0; i--)] *)
Definition count_down (fuel : nat) : Z → M U unit :=
  loop fuel (λ i, if 0 <? i then printf "%d " [AInt i] ;;; i <- int_chk (i - 1) ;; ret (inl i) else ret (inr tt)).

Definition table (n : Z) : M U unit :=
  for_range 1 (n + 1) (λ row _,
    for_range 1 (n + 1) (λ col _, p <- int_chk (row * col) ;; printf "%3d" [AInt p]) tt ;;;
    printf "\n" []) tt.

(** [while (n <= limit) { printf("%d ", n); n *= 2; }] *)
Definition doubling (limit : Z) (fuel : nat) : Z → M U unit :=
  loop fuel (λ n, if n <=? limit then printf "%d " [AInt n] ;;; n <- int_chk (n * 2) ;; ret (inl n) else ret (inr tt)).

(** The loop with [break] and [continue]. *)
Definition skipping (fuel : nat) : Z → M U unit :=
  loop fuel (λ i,
    if i <=? 20 then
      if i =? 15 then ret (inr tt)
      else if Z.rem i 3 =? 0 then i <- int_chk (i + 1) ;; ret (inl i)
      else printf "%d " [AInt i] ;;; i <- int_chk (i + 1) ;; ret (inl i)
    else ret (inr tt)).

(** [do { ... } while (x < 3)] *)
Definition do_while (fuel : nat) : Z → M U unit :=
  loop fuel (λ x,
    printf "x = %d\n" [AInt x] ;;;
    x <- int_chk (x + 1) ;;
    if x <? 3 then ret (inl x) else ret (inr tt)).

Definition main : M U Z :=
  printf "=== if / else ===\n" [] ;;;
  let temp := 72 in
  comfort temp ;;;
  let humidity := 85 in
  warm_and_humid temp humidity ;;;
  printf "\n=== switch ===\n" [] ;;;
  day_line 3 ;;;
  grade_line 66 ;;;
  printf "\n=== for loop ===\n" [] ;;;
  for_range 0 5 (λ i _, printf "%d " [AInt i]) tt ;;;
  printf "\n" [] ;;;
  count_down 6 5 ;;;
  printf "\n" [] ;;;
  printf "\nMultiplication table (1-4):\n" [] ;;;
  table 4 ;;;
  printf "\n=== while loop ===\n" [] ;;;
  doubling 16 6 1 ;;;
  printf "\n" [] ;;;
  printf "\nSkip multiples of 3, stop at 15:\n" [] ;;;
  skipping 20 1 ;;;
  printf "\n" [] ;;;
  printf "\n=== do-while ===\n" [] ;;;
  do_while 2 100 ;;;
  ret 0.

Definition main_text : string := esc (concat_str [
  "=== if / else ===\n"; "Comfortable\n"; "Warm and humid\n"; "\n=== switch ===\n"; "Wednesday\n"; "Good\n";
  "\n=== for loop ===\n"; "0 1 2 3 4 \n"; "5 4 3 2 1 \n"; "\nMultiplication table (1-4):\n";
  "  1  2  3  4\n"; "  2  4  6  8\n"; "  3  6  9 12\n"; "  4  8 12 16\n"; "\n=== while loop ===\n"; "1 2 4 8 16 \n";
  "\nSkip multiples of 3, stop at 15:\n"; "1 2 4 5 7 8 10 11 13 14 \n"; "\n=== do-while ===\n"; "x = 100\n"])%string.

Lemma control_flow_main_correct : runs main (λ r o, r = 0 ∧ stdout o = main_text ∧ stderr o = ""%string) False.
Proof. run_program. Qed.

(** The doubling loop ends for every limit of less than 2^30, when given a turn for each
    power of two up to it; above, it overflows. *)
Lemma doubling_ends limit k fuel n :
  0 < n → n * 2 ^ Z.of_nat k > limit → limit < 2 ^ 30 → (k < fuel)%nat →
  ∃ o, writes (doubling limit fuel n) tt o.
Proof.
  revert fuel n. induction k as [|k IH]; intros [|fuel] n Hn Hk Hl Hf; try lia.
  - exists []. apply writes_loop_done. destruct (Z.leb_spec n limit); [lia|]. apply yields_ret.
  - destruct (decide (n ≤ limit)) as [Hle|Hgt].
    + destruct (IH fuel (n * 2)) as [o Ho]; [lia| |lia|lia|].
      { rewrite Nat2Z.inj_succ Z.pow_succ_r in Hk; lia. }
      exists ([Out (default ""%string (format "%d " [AInt n]))] ++ o). apply (writes_loop_again _ _ _ (n * 2)); [|exact Ho].
      destruct (Z.leb_spec n limit); [|lia].
      apply (writes_bind _ _ tt _ [_] []); [by intros w|]. eapply yields_bind; [|apply yields_ret].
      apply yields_int_chk. unfold INT_MIN, INT_MAX. lia.
    + exists []. apply writes_loop_done. destruct (Z.leb_spec n limit); [lia|]. apply yields_ret.
Qed.
