(* ===== verification/ArraysStrings.v ===== *)
(** * Exercise 05: arrays and strings

    Model of [exercises/05_arrays_strings/arrays_strings.c].  A [char] array is the list
    of its bytes, those not yet written being indeterminate ([None]); a string function
    that reads such a byte, or reads or writes past the end, is undefined. *)

From S2P Require Import Prelude Machine CString Double Printf SepLogic Pure.
#[local] Open Scope Z_scope.

#[local] Abbreviation U := Empty_set.
#[local] Abbreviation buf := (list (option ascii)).
Definition NUL : ascii := "000"%char.

Definition bytes (s : string) : buf := Some <$> list_ascii_of_string s.

(** [char b[n];] and [char b[n] = s;] *)
Definition uninit (n : nat) : buf := replicate n None.
Definition init (n : nat) (s : string) : buf := take n (bytes s ++ replicate n (Some NUL)).
(** [char b[] = s;] *)
Definition literal (s : string) : buf := bytes s ++ [Some NUL].

Definition arr_at {T} (l : list T) (i : Z) : M U T :=
  if i <? 0 then undefined else match l !! Z.to_nat i with Some x => ret x | None => undefined end.
Definition char_at (b : buf) (i : Z) : M U ascii :=
  c <- arr_at b i ;; match c with Some c => ret c | None => undefined end.
Definition set_char (b : buf) (i : Z) (c : ascii) : M U buf :=
  if (0 <=? i) && (i <? Z.of_nat (length b)) then ret (<[Z.to_nat i := Some c]> b) else undefined.

(** The string in a buffer: what [%s] prints. *)
Fixpoint c_text (b : buf) : option string :=
  match b with
  | Some c :: b' => if Ascii.eqb c NUL then Some ""%string else String c <$> c_text b'
  | _ => None
  end.
Definition text (b : buf) : M U string := match c_text b with Some s => ret s | None => undefined end.

(** [bs] written at offset [k]. *)
Definition write_at (k : nat) (bs b : buf) : M U buf :=
  if (k + length bs <=? length b)%nat then ret (take k b ++ bs ++ drop (k + length bs) b) else undefined.

Definition strcpy (b : buf) (s : string) : M U buf := write_at 0 (literal s) b.
Definition strcat (b : buf) (s : string) : M U buf := t <- text b ;; write_at (String.length t) (literal s) b.
Definition strncpy (b : buf) (s : string) (n : nat) : M U buf := write_at 0 (init n s) b.

Fixpoint strchr (s : string) (c : ascii) : option Z :=
  match s with
  | EmptyString => None
  | String x s' => if Ascii.eqb x c then Some 0 else Z.succ <$> strchr s' c
  end.
Fixpoint strstr (hay needle : string) : option Z :=
  if String.prefix needle hay then Some 0
  else match hay with EmptyString => None | String _ hay' => Z.succ <$> strstr hay' needle end.

(** ** The program *)

Definition main_arrays : M U unit :=
  printf "=== Fixed arrays ===\n" [] ;;;
  let nums := [10; 20; 30; 40; 50] in
  let len := Z.of_nat (length nums) in
  for_range 0 len (λ i _, x <- arr_at nums i ;; printf "nums[%d] = %d\n" [AInt i; AInt x]) tt ;;;
  let partial := [1; 2; 0; 0; 0] in
  printf "\npartial[]: " [] ;;;
  for_range 0 5 (λ i _, x <- arr_at partial i ;; printf "%d " [AInt x]) tt ;;;
  printf "\n" [] ;;;
  printf "\n=== 2D array ===\n" [] ;;;
  let grid := [[1; 2; 3; 4]; [5; 6; 7; 8]; [9; 10; 11; 12]] in
  for_range 0 3 (λ r _,
    for_range 0 4 (λ c _, row <- arr_at grid r ;; x <- arr_at row c ;; printf "%3d" [AInt x]) tt ;;;
    printf "\n" []) tt.

Definition main_strings : M U unit :=
  printf "\n=== Strings ===\n" [] ;;;
  let greeting := init 20 "Hello" in
  s <- text greeting ;; printf "greeting      = \q%s\q\n" [AStr s] ;;;
  s <- text greeting ;; printf "strlen        = %zu\n" [AInt (strlen s)] ;;;
  printf "sizeof        = %zu\n" [AInt (Z.of_nat (length greeting))] ;;;
  let word := literal "World" in
  s <- text word ;; printf "word          = \q%s\q  (sizeof=%zu)\n" [AStr s; AInt (Z.of_nat (length word))].

(** The truncating copy into [safe]. *)
Definition safe_copy (n : nat) (s : string) : M U buf :=
  let safe := uninit n in
  safe <- strncpy safe s (n - 1) ;;
  set_char safe (Z.of_nat n - 1) NUL.

Definition main_functions : M U unit :=
  printf "\n=== String functions ===\n" [] ;;;
  let dst := uninit 20 in
  dst <- strcpy dst "Hello" ;;
  s <- text dst ;; printf "strcpy        = \q%s\q\n" [AStr s] ;;;
  dst <- strcat dst ", World" ;;
  s <- text dst ;; printf "strcat        = \q%s\q\n" [AStr s] ;;;
  printf "strcmp equal  = %d\n" [AInt (strcmp "abc" "abc")] ;;;
  printf "strcmp less   = %d\n" [AInt (strcmp "abc" "abd")] ;;;
  printf "strcmp great  = %d\n" [AInt (strcmp "abd" "abc")] ;;;
  safe <- safe_copy 10 "TooLongString" ;;
  s <- text safe ;; printf "strncpy safe  = \q%s\q\n" [AStr s] ;;;
  let sentence := "find the dot."%string in
  match strchr sentence "."%char with Some i => printf "strchr '.'    = index %td\n" [AInt i] | None => ret tt end ;;;
  match strstr sentence "the" with Some i => printf "strstr \qthe\q  = index %td\n" [AInt i] | None => ret tt end.

(** [for (int i = 0; msg[i] != NUL; i++)] *)
Definition print_msg (msg : buf) (fuel : nat) : Z → M U unit :=
  loop fuel (λ i,
    c <- char_at msg i ;;
    if Ascii.eqb c NUL then ret (inr tt)
    else
      printf "msg[%d] = '%c'  (%d)\n" [AInt i; AInt (code c); AInt (code c)] ;;;
      i <- int_chk (i + 1) ;;
      ret (inl i)).

Definition main_characters : M U unit :=
  printf "\n=== Iterating characters ===\n" [] ;;;
  let msg := literal "Hello" in
  print_msg msg (length msg) 0 ;;;
  printf "\n=== Modifying in place ===\n" [] ;;;
  let name := literal "alice" in
  name <- set_char name 0 "A"%char ;;
  s <- text name ;; printf "capitalized   = \q%s\q\n" [AStr s].

Definition main : M U Z :=
  main_arrays ;;; main_strings ;;; main_functions ;;; main_characters ;;; ret 0.

Definition main_text : string := esc (concat_str [
  "=== Fixed arrays ===\n"; "nums[0] = 10\n"; "nums[1] = 20\n"; "nums[2] = 30\n"; "nums[3] = 40\n"; "nums[4] = 50\n";
  "\npartial[]: 1 2 0 0 0 \n"; "\n=== 2D array ===\n"; "  1  2  3  4\n"; "  5  6  7  8\n"; "  9 10 11 12\n";
  "\n=== Strings ===\n"; "greeting      = \qHello\q\n"; "strlen        = 5\n"; "sizeof        = 20\n"; "word          = \qWorld\q  (sizeof=6)\n";
  "\n=== String functions ===\n"; "strcpy        = \qHello\q\n"; "strcat        = \qHello, World\q\n";
  "strcmp equal  = 0\n"; "strcmp less   = -1\n"; "strcmp great  = 1\n"; "strncpy safe  = \qTooLongSt\q\n";
  "strchr '.'    = index 12\n"; "strstr \qthe\q  = index 5\n";
  "\n=== Iterating characters ===\n"; "msg[0] = 'H'  (72)\n"; "msg[1] = 'e'  (101)\n"; "msg[2] = 'l'  (108)\n"; "msg[3] = 'l'  (108)\n"; "msg[4] = 'o'  (111)\n";
  "\n=== Modifying in place ===\n"; "capitalized   = \qAlice\q\n"])%string.

Lemma arrays_strings_main_correct : runs main (λ r o, r = 0 ∧ stdout o = main_text ∧ stderr o = ""%string) False.
Proof. run_program. Qed.

(** ** The string functions on any input *)

(** A C string has no NUL inside. *)
Definition is_text (s : string) : Prop := NUL ∉ list_ascii_of_string s.

Lemma c_text_literal s rest : is_text s → c_text (literal s ++ rest) = Some s.
Proof.
  unfold is_text, literal, bytes. induction s as [|c s IH]; [done|]. simpl. intros Hs.
  destruct (Ascii.eqb_spec c NUL) as [->|]; [set_solver|]. rewrite IH; [done|set_solver].
Qed.

Lemma c_text_Some b s : c_text b = Some s → is_text s ∧ ∃ rest, b = literal s ++ rest.
Proof.
  unfold is_text, literal, bytes. revert s. induction b as [|[c|] b IH]; intros s Hs; try done. simpl in Hs.
  destruct (Ascii.eqb_spec c NUL) as [->|Hc]; simplify_eq.
  - split; [set_solver|by exists b].
  - apply fmap_Some in Hs as (t & Ht & ->). destruct (IH t Ht) as [? [rest ->]]. split; [set_solver|by exists rest].
Qed.

Lemma length_bytes s : length (bytes s) = String.length s.
Proof. unfold bytes. rewrite length_fmap. induction s as [|c s IH]; simpl; congruence. Qed.
Lemma length_literal s : length (literal s) = S (String.length s).
Proof. unfold literal. rewrite length_app length_bytes /=. lia. Qed.

Lemma write_at_fits k bs b :
  (k + length bs ≤ length b)%nat → yields (write_at k bs b) (take k b ++ bs ++ drop (k + length bs) b).
Proof. intros H. unfold write_at. destruct (Nat.leb_spec (k + length bs) (length b)); [apply yields_ret|lia]. Qed.

Lemma write_at_overrun k bs b : (length b < k + length bs)%nat → is_undefined (write_at k bs b).
Proof. intros H w. unfold write_at. by destruct (Nat.leb_spec (k + length bs) (length b)); [lia|]. Qed.

Lemma literal_app t s : literal (t +:+ s) = bytes t ++ literal s.
Proof. unfold literal, bytes. induction t as [|c t IH]; [done|]. simpl. by f_equal. Qed.

Lemma is_text_app t s : is_text t → is_text s → is_text (t +:+ s).
Proof. unfold is_text. induction t as [|c t IH]; [done|]. simpl. set_solver. Qed.

Lemma yields_text b s : c_text b = Some s → yields (text b) s.
Proof. intros H. unfold text. rewrite H. apply yields_ret. Qed.

Lemma strcpy_fits b s :
  is_text s → (String.length s < length b)%nat →
  ∃ b', yields (strcpy b s) b' ∧ c_text b' = Some s ∧ length b' = length b.
Proof.
  intros Hs Hl. eexists. split; [apply write_at_fits; rewrite length_literal; lia|].
  rewrite take_0 app_nil_l. split; [by apply c_text_literal|]. rewrite length_app length_drop length_literal. lia.
Qed.

Lemma strcat_fits b t s :
  c_text b = Some t → is_text s → (String.length t + String.length s < length b)%nat →
  ∃ b', yields (strcat b s) b' ∧ c_text b' = Some (t +:+ s)%string ∧ length b' = length b.
Proof.
  intros Hb Hs Hl. destruct (c_text_Some b t Hb) as [Ht [rest ->]].
  eexists. split; [eapply yields_bind; [by apply yields_text|]; apply write_at_fits; rewrite length_literal; lia|].
  assert (take (String.length t) (literal t ++ rest) = bytes t) as ->.
  { unfold literal. by rewrite -app_assoc -(length_bytes t) take_app_length. }
  rewrite app_assoc -literal_app. split; [by apply c_text_literal, is_text_app|].
  rewrite length_app length_literal in Hl. rewrite length_app length_literal length_drop length_app !length_literal string_app_length. lia.
Qed.

Lemma strcpy_overrun b s : (length b ≤ String.length s)%nat → is_undefined (strcpy b s).
Proof. intros Hl. apply write_at_overrun. rewrite length_literal. lia. Qed.

Lemma strcat_overrun b t s :
  c_text b = Some t → (length b ≤ String.length t + String.length s)%nat → is_undefined (strcat b s).
Proof.
  intros Hb Hl. eapply undefined_bind_r; [by apply yields_text|]. apply write_at_overrun. rewrite length_literal. lia.
Qed.

Lemma bytes_take n s : take n (bytes s) = bytes (take_str n s).
Proof. unfold bytes. revert s. induction n as [|n IH]; intros [|c s]; try done. simpl. f_equal. apply IH. Qed.
Lemma is_text_take n s : is_text s → is_text (take_str n s).
Proof. unfold is_text. revert s. induction n as [|n IH]; intros [|c s]; simpl; set_solver. Qed.

Lemma c_text_init m k s :
  is_text s → (m ≤ k)%nat → c_text (take m (bytes s ++ replicate k (Some NUL)) ++ [Some NUL]) = Some (take_str m s).
Proof.
  unfold is_text, bytes. revert k s. induction m as [|m IH]; intros [|k] s Hs Hk; try (done || lia).
  destruct s as [|c s]; [done|]. cbn in Hs. assert (E : NUL ∉ list_ascii_of_string s) by set_solver.
  apply (IH (S k)) in E; [|lia]. simpl in E |- *. destruct (Ascii.eqb_spec c NUL) as [->|]; [set_solver|]. by rewrite E.
Qed.

(** The string functions on every buffer and every string: [strcpy] and [strcat] are
    defined exactly when the result fits with its terminator, and then leave the string,
    or the concatenation, in a buffer of the same size; the copy with [strncpy] and a final
    NUL leaves the first [n - 1] characters of any string in a buffer of [n]. *)
Theorem string_functions_correct :
  (∀ b s, is_text s →
     if (String.length s <? length b)%nat
     then ∃ b', yields (strcpy b s) b' ∧ c_text b' = Some s ∧ length b' = length b
     else is_undefined (strcpy b s)) ∧
  (∀ b t s, c_text b = Some t → is_text s →
     if (String.length t + String.length s <? length b)%nat
     then ∃ b', yields (strcat b s) b' ∧ c_text b' = Some (t +:+ s)%string ∧ length b' = length b
     else is_undefined (strcat b s)) ∧
  (∀ n s, is_text s → (0 < n)%nat →
     ∃ b, yields (safe_copy n s) b ∧ c_text b = Some (take_str (n - 1) s) ∧ length b = n).
Proof.
  split_and!.
  - intros b s Hs. destruct (Nat.ltb_spec (String.length s) (length b)); [by apply strcpy_fits|by apply strcpy_overrun].
  - intros b t s Hb Hs.
    destruct (Nat.ltb_spec (String.length t + String.length s) (length b)); [by apply strcat_fits|by eapply strcat_overrun].
  - intros n s Hs Hn. unfold safe_copy. set (m := (n - 1)%nat).
    assert (length (init m s) = m) as Hi.
    { unfold init. rewrite length_take length_app length_replicate length_bytes. lia. }
    eexists. split.
    { eapply yields_bind; [apply write_at_fits; rewrite Hi /uninit length_replicate; lia|]. simpl.
      unfold set_char. rewrite length_app length_drop Hi /uninit length_replicate.
      destruct (Z.leb_spec 0 (Z.of_nat n - 1)); [|lia]. destruct (Z.ltb_spec (Z.of_nat n - 1) (Z.of_nat (m + (n - m)))); [|lia].
      apply yields_ret. }
    replace (Z.to_nat (Z.of_nat n - 1)) with m by lia. rewrite insert_app_r_alt ?Hi // Nat.sub_diag.
    rewrite drop_replicate. replace (n - m)%nat with 1%nat by lia. simpl. split.
    + apply c_text_init; [done|lia].
    + rewrite length_app Hi /=. lia.
Qed.
