(* ===== verification/Structs.v ===== *)
(** * Exercise 07: structs

    Model of [exercises/07_structs/structs.c].  The students whose address is taken and
    the nodes of the chain are objects; a character array inside a struct is the text it
    holds, which must leave room for the terminator. *)

From S2P Require Import Prelude Machine CString Double Printf SepLogic Pure.
#[local] Open Scope Z_scope.

Record Point := { x : double; y : double }.
Record Student := { name : string; age : Z; gpa : double }.
Record Address := { street : string; city : string; state : string }.
Record Person := { p_name : string; p_age : Z; address : Address }.
Record Node := { value : Z; next : ptr }.

Inductive obj := OStudent (s : Student) | ONode (n : Node).
#[export] Instance obj_student : Prism obj Student :=
  {| to_obj := OStudent; of_obj o := match o with OStudent s => Some s | _ => None end; of_to_obj _ := eq_refl |}.
#[export] Instance obj_chain_node : Prism obj Node :=
  {| to_obj := ONode; of_obj o := match o with ONode n => Some n | _ => None end; of_to_obj _ := eq_refl |}.

Definition make_point (x y : double) : Point := {| x := x; y := y |}.

Definition distance (a b : Point) : double :=
  let dx := d_sub (x a) (x b) in
  let dy := d_sub (y a) (y b) in
  d_sqrt (d_add (d_mul dx dx) (d_mul dy dy)).

Definition print_student (s : Student) : M obj unit :=
  printf "%-10s  age=%-3d  gpa=%.1f\n" [AStr (name s); AInt (age s); ADbl (gpa s)].

Definition set_age (a : Z) (s : Student) : Student := {| name := name s; age := a; gpa := gpa s |}.

Definition birthday (p : ptr) : M obj unit :=
  s <- load (T:=Student) p ;;
  a <- int_chk (age s + 1) ;;
  update (T:=Student) p (set_age a).

Definition print_person (p : Person) : M obj unit :=
  printf "%s (age %d)\n" [AStr (p_name p); AInt (p_age p)] ;;;
  printf "  %s, %s %s\n" [AStr (street (address p)); AStr (city (address p)); AStr (state (address p))].

(** [strcpy] into a [char[cap]]: the text with its terminator must fit. *)
Definition strcpy (cap : Z) (s : string) : M obj string := if strlen s <? cap then ret s else undefined.

Definition set_city (c : string) (p : Person) : Person :=
  {| p_name := p_name p; p_age := p_age p;
     address := {| street := street (address p); city := c; state := state (address p) |} |}.

(** [while (cur != NULL)] *)
Definition walk (fuel : nat) : ptr → M obj unit :=
  loop fuel (λ cur,
    match cur with
    | None => ret (inr tt)
    | Some _ =>
        n <- load (T:=Node) cur ;; printf "node value = %d\n" [AInt (value n)] ;;;
        n <- load (T:=Node) cur ;; ret (inl (next n))
    end).

Definition set_link (q : ptr) (n : Node) : Node := {| value := value n; next := q |}.

Definition main_points : M obj unit :=
  printf "=== Basic struct ===\n" [] ;;;
  let p1 := {| x := d_of_Z 3; y := d_of_Z 4 |} in
  let p2 := {| x := d_of_Z 0; y := d_of_Z 0 |} in
  printf "p1 = (%.1f, %.1f)\n" [ADbl (x p1); ADbl (y p1)] ;;;
  printf "p2 = (%.1f, %.1f)\n" [ADbl (x p2); ADbl (y p2)] ;;;
  printf "distance(p1, p2) = %.2f\n" [ADbl (distance p1 p2)] ;;;
  let p3 := make_point (d_of_Z 6) (d_of_Z 8) in
  printf "p3 = (%.1f, %.1f)\n" [ADbl (x p3); ADbl (y p3)].

(** [s1] and [s2] live until the end of [main], which uses [s2] again. *)
Definition main_students : M obj (ptr * ptr) :=
  printf "\n=== typedef struct ===\n" [] ;;;
  s1 <- local (OStudent {| name := "Alice"; age := 20; gpa := lit 38 1 |}) ;;
  bob <- strcpy 32 "Bob" ;;
  s2 <- local (OStudent {| name := bob; age := 22; gpa := lit 31 1 |}) ;;
  s <- load (T:=Student) s1 ;; print_student s ;;;
  s <- load (T:=Student) s2 ;; print_student s ;;;
  birthday s1 ;;;
  printf "after birthday: " [] ;;;
  s <- load (T:=Student) s1 ;; print_student s ;;;
  printf "\n=== Array of structs ===\n" [] ;;;
  let roster := [{| name := "Carol"; age := 19; gpa := lit 35 1 |}; {| name := "Dave"; age := 21; gpa := lit 29 1 |};
                 {| name := "Eve"; age := 20; gpa := lit 37 1 |}] in
  for_list roster (λ s _, print_student s) tt ;;;
  ret (s1, s2).

Definition main_nested : M obj unit :=
  printf "\n=== Nested structs ===\n" [] ;;;
  let person := {| p_name := "Frank"; p_age := 35;
                   address := {| street := "123 Main St"; city := "Springfield"; state := "IL" |} |} in
  print_person person ;;;
  c <- strcpy 32 "Shelbyville" ;;
  let person := set_city c person in
  printf "moved to: %s, %s\n" [AStr (city (address person)); AStr (state (address person))].

Definition main_arrow (s2 : ptr) : M obj unit :=
  printf "\n=== Pointer to struct (arrow operator) ===\n" [] ;;;
  let sp := s2 in
  s <- load (T:=Student) sp ;; printf "via pointer: %s, age %d\n" [AStr (name s); AInt (age s)] ;;;
  update (T:=Student) sp (set_age 99) ;;;
  s <- load (T:=Student) s2 ;; printf "after sp->age = 99: %d\n" [AInt (age s)].

Definition main_chain : M obj unit :=
  printf "\n=== Self-referential struct ===\n" [] ;;;
  n1 <- local (ONode {| value := 10; next := NULL |}) ;;
  n2 <- local (ONode {| value := 20; next := NULL |}) ;;
  n3 <- local (ONode {| value := 30; next := NULL |}) ;;
  update (T:=Node) n1 (set_link n2) ;;;
  update (T:=Node) n2 (set_link n3) ;;;
  fuel <- heap_fuel ;;
  walk fuel n1 ;;;
  free n1 ;;; free n2 ;;; free n3.

Definition main : M obj Z :=
  main_points ;;;
  let* (s1, s2) := main_students in
  main_nested ;;;
  main_arrow s2 ;;;
  main_chain ;;;
  free s1 ;;; free s2 ;;;
  ret 0.

Definition main_text : string := esc (concat_str [
  "=== Basic struct ===\n"; "p1 = (3.0, 4.0)\n"; "p2 = (0.0, 0.0)\n"; "distance(p1, p2) = 5.00\n"; "p3 = (6.0, 8.0)\n";
  "\n=== typedef struct ===\n"; "Alice       age=20   gpa=3.8\n"; "Bob         age=22   gpa=3.1\n"; "after birthday: Alice       age=21   gpa=3.8\n";
  "\n=== Array of structs ===\n"; "Carol       age=19   gpa=3.5\n"; "Dave        age=21   gpa=2.9\n"; "Eve         age=20   gpa=3.7\n";
  "\n=== Nested structs ===\n"; "Frank (age 35)\n"; "  123 Main St, Springfield IL\n"; "moved to: Shelbyville, IL\n";
  "\n=== Pointer to struct (arrow operator) ===\n"; "via pointer: Bob, age 22\n"; "after sp->age = 99: 99\n";
  "\n=== Self-referential struct ===\n"; "node value = 10\n"; "node value = 20\n"; "node value = 30\n"])%string.

Lemma structs_main_correct : runs main (λ r o, r = 0 ∧ stdout o = main_text ∧ stderr o = ""%string) False.
Proof. run_program. Qed.

(** [birthday] changes the age alone, and is undefined for the oldest. *)
Lemma wp_birthday mf X l (s : Student) (Q : unit → list ev → hpropI obj) :
  INT_MIN ≤ age s < INT_MAX →
  l ↦ OStudent s -∗ (l ↦ OStudent (set_age (age s + 1) s) -∗ Q tt []) -∗ wp mf X (birthday (Some l)) Q.
Proof.
  iIntros (Hs) "Hl HQ". unfold birthday. iApply wp_bind. iApply (wp_load with "Hl"); [done|]. iIntros "Hl".
  iApply wp_bind. iApply wp_int_chk; [lia|].
  iApply (wp_update with "Hl"); [done|]. iIntros "Hl". by iApply "HQ".
Qed.
