(* ===== verification/Preprocessor.v ===== *)
(** * Exercise 14: the preprocessor

    Model of [exercises/14_preprocessor/preprocessor.c].  The argument of a macro is an
    expression that is evaluated each time its parameter occurs in the body: it is a
    computation, not a value.  The operands of an operator are evaluated from left to
    right, one of the orders C allows.  What the compiler chooses (the platform, DEBUG,
    the file name, the date and the time) is a parameter. *)

From S2P Require Import Prelude Machine CString Double Printf SepLogic Pure.
#[local] Open Scope Z_scope.

#[local] Abbreviation U := Empty_set.
#[local] Abbreviation expr := (M U Z).

(** ** The macros *)

Definition PI_text : string := "3.14159265358979323846".
Definition PI : double := lit 314159265358979323846 20.
Definition MAX_NAME : Z := 64.
Definition KILO : Z := 1024.
Definition MEGA : expr := int_chk (KILO * KILO).
Definition GREETING : string := "Hello".

Definition SQ (x : expr) : expr := a <- x ;; b <- x ;; int_chk (a * b).
Definition MAX (a b : expr) : expr := x <- a ;; y <- b ;; if y <? x then a else b.
Definition MIN (a b : expr) : expr := x <- a ;; y <- b ;; if x <? y then a else b.
Definition ABS (x : expr) : expr := v <- x ;; if v <? 0 then v <- x ;; int_chk (- v) else x.
Definition CLAMP (v lo hi : expr) : expr := MAX lo (MIN v hi).
Definition ARRAY_LEN {T} (arr : list T) : Z := Z.of_nat (length arr).
Definition SWAP {T} (a b : T) : T * T := let tmp := a in let a := b in let b := tmp in (a, b).

Definition LOG (fmt : string) (args : list parg) : M U unit := printf ("[LOG] " +:+ fmt +:+ "\n")%string args.

(** [#cond], [__FILE__] and [__LINE__] are the arguments [text], [file] and [line]. *)
Definition ASSERT (text file : string) (line : Z) (cond : M U bool) : M U unit :=
  c <- cond ;;
  if c then ret tt else printf "ASSERT failed: %s  (%s:%d)\n" [AStr text; AStr file; AInt line].

Definition VERSION_MAJOR : Z := 1.
Definition VERSION_MINOR : Z := 3.

(** What is defined when the file is compiled. *)
Record config := {
  win32 : bool; apple : bool; linux : bool; debug : bool;
  FILE : string; DATE : string; TIME : string }.

Definition PLATFORM (cfg : config) : string :=
  if win32 cfg then "Windows" else if apple cfg then "macOS" else if linux cfg then "Linux" else "Unknown".

Definition DBG (cfg : config) (func : string) (line : Z) (fmt : string) (args : list parg) : M U unit :=
  if debug cfg then printf ("[DBG %s:%d] " +:+ fmt +:+ "\n")%string (AStr func :: AInt line :: args) else ret tt.

Definition PRINT_ARRAY (arr : list Z) (len : Z) (fmt : string) : M U unit :=
  printf "[" [] ;;;
  for_range 0 len (λ i _,
    n <- int_chk (len - 1) ;;
    match arr !! Z.to_nat i with
    | Some x => printf (if i <? n then (fmt +:+ ", ")%string else fmt) [AInt x]
    | None => undefined
    end) tt ;;;
  printf "]\n" [].

(** ** The program *)

Section main.
Context (cfg : config).

Definition show_function_info : M U unit := printf "called from function: %s\n" [AStr "show_function_info"].

Definition demo_multiline_macro (arr : list Z) (len : Z) : M U unit :=
  printf "PRINT_ARRAY: " [] ;;;
  PRINT_ARRAY arr len "%d".

(** [snprintf(name, size, text)]: cut to the size. *)
Definition snprintf (size : Z) (s : string) : string := take_str (Z.to_nat (size - 1)) s.

Definition main_objects : M U unit :=
  printf "=== Object-like macros ===\n" [] ;;;
  printf "PI      = %.10f\n" [ADbl PI] ;;;
  printf "KILO    = %d\n" [AInt KILO] ;;;
  m <- MEGA ;; printf "MEGA    = %d\n" [AInt m] ;;;
  printf "GREETING= %s\n" [AStr GREETING] ;;;
  let name := snprintf MAX_NAME "Alice" in
  printf "name    = %s  (MAX_NAME=%d)\n" [AStr name; AInt MAX_NAME].

Definition nums : list Z := [10; 20; 30; 40; 50].

(** Returns [a] and [b], which are swapped again later. *)
Definition main_functions : M U (Z * Z) :=
  printf "\n=== Function-like macros ===\n" [] ;;;
  r <- SQ (ret 5) ;; printf "SQ(5)            = %d\n" [AInt r] ;;;
  r <- MAX (ret 3) (ret 7) ;; printf "MAX(3, 7)        = %d\n" [AInt r] ;;;
  r <- MIN (ret 3) (ret 7) ;; printf "MIN(3, 7)        = %d\n" [AInt r] ;;;
  r <- ABS (ret (-42)) ;; printf "ABS(-42)         = %d\n" [AInt r] ;;;
  r <- CLAMP (ret 15) (ret 0) (ret 10) ;; printf "CLAMP(15, 0, 10) = %d\n" [AInt r] ;;;
  r <- CLAMP (ret (-3)) (ret 0) (ret 10) ;; printf "CLAMP(-3, 0, 10) = %d\n" [AInt r] ;;;
  printf "ARRAY_LEN(nums)  = %zu\n" [AInt (ARRAY_LEN nums)] ;;;
  let a := 3 in
  let b := 9 in
  printf "before SWAP: a=%d b=%d\n" [AInt a; AInt b] ;;;
  let '(a, b) := SWAP a b in
  printf "after  SWAP: a=%d b=%d\n" [AInt a; AInt b] ;;;
  printf "\n=== Precedence hazard ===\n" [] ;;;
  r <- SQ (int_chk (1 + 2)) ;; printf "SQ(1+2) = %d  (would be 5 without parentheses)\n" [AInt r] ;;;
  ret (a, b).

Definition main_strings : M U unit :=
  printf "\n=== Stringification (#) ===\n" [] ;;;
  printf "STRINGIFY(hello world) = \q%s\q\n" [AStr "hello world"] ;;;
  printf "PI as string           = \q%s\q\n" [AStr PI_text] ;;;
  printf "\n=== Token pasting (##) ===\n" [] ;;;
  let user_key := 42 in
  let user_val := snprintf 32 "Alice" in
  printf "user_key=%d  user_val=%s\n" [AInt user_key; AStr user_val].

Definition main_log : M U unit :=
  printf "\n=== Variadic macro (LOG) ===\n" [] ;;;
  LOG "server started on port %d" [AInt 8080] ;;;
  LOG "connected: %s" [AStr "192.168.1.1"] ;;;
  LOG "%s" [AStr "no variadic args — format string is the only required arg"] ;;;
  printf "\n=== ASSERT macro ===\n" [] ;;;
  ASSERT "1 + 1 == 2" (FILE cfg) 159 (s <- int_chk (1 + 1) ;; ret (s =? 2)) ;;;
  ASSERT "SQ(3) == 9" (FILE cfg) 160 (s <- SQ (ret 3) ;; ret (s =? 9)) ;;;
  ASSERT "MAX(2, 5) == 10" (FILE cfg) 161 (s <- MAX (ret 2) (ret 5) ;; ret (s =? 10)).

Definition main_predefined : M U unit :=
  printf "\n=== Predefined macros ===\n" [] ;;;
  printf "__FILE__ = %s\n" [AStr (FILE cfg)] ;;;
  printf "__LINE__ = %d\n" [AInt 166] ;;;
  printf "__DATE__ = %s\n" [AStr (DATE cfg)] ;;;
  printf "__TIME__ = %s\n" [AStr (TIME cfg)] ;;;
  show_function_info ;;;
  printf "\n=== Conditional compilation ===\n" [] ;;;
  printf "PLATFORM        = %s\n" [AStr (PLATFORM cfg)] ;;;
  printf "VERSION         = %s.%s\n" [AStr (dec VERSION_MAJOR); AStr (dec VERSION_MINOR)] ;;;
  DBG cfg "main" 176 "%s" [AStr "this only appears when compiled with -DDEBUG"].

Definition main : M U Z :=
  main_objects ;;;
  let* (a, b) := main_functions in
  main_strings ;;;
  main_log ;;;
  main_predefined ;;;
  printf "\n=== do-while(0) wrapper ===\n" [] ;;;
  let '(a, b) := SWAP a b in
  printf "SWAP result: a=%d b=%d\n" [AInt a; AInt b] ;;;
  printf "\n=== Multiline macro ===\n" [] ;;;
  demo_multiline_macro nums (ARRAY_LEN nums) ;;;
  ret 0.

End main.

Definition linux_build : config :=
  {| win32 := false; apple := false; linux := true; debug := false;
     FILE := "preprocessor.c"; DATE := "Jan  1 2026"; TIME := "00:00:00" |}.

Definition main_text : string := esc (concat_str [
  "=== Object-like macros ===\n"; "PI      = 3.1415926536\n"; "KILO    = 1024\n"; "MEGA    = 1048576\n"; "GREETING= Hello\n"; "name    = Alice  (MAX_NAME=64)\n";
  "\n=== Function-like macros ===\n"; "SQ(5)            = 25\n"; "MAX(3, 7)        = 7\n"; "MIN(3, 7)        = 3\n"; "ABS(-42)         = 42\n";
  "CLAMP(15, 0, 10) = 10\n"; "CLAMP(-3, 0, 10) = 0\n"; "ARRAY_LEN(nums)  = 5\n"; "before SWAP: a=3 b=9\n"; "after  SWAP: a=9 b=3\n";
  "\n=== Precedence hazard ===\n"; "SQ(1+2) = 9  (would be 5 without parentheses)\n"; "\n=== Stringification (#) ===\n";
  "STRINGIFY(hello world) = \qhello world\q\n"; "PI as string           = \q3.14159265358979323846\q\n"; "\n=== Token pasting (##) ===\n"; "user_key=42  user_val=Alice\n";
  "\n=== Variadic macro (LOG) ===\n"; "[LOG] server started on port 8080\n"; "[LOG] connected: 192.168.1.1\n";
  "[LOG] no variadic args — format string is the only required arg\n"; "\n=== ASSERT macro ===\n"; "ASSERT failed: MAX(2, 5) == 10  (preprocessor.c:161)\n";
  "\n=== Predefined macros ===\n"; "__FILE__ = preprocessor.c\n"; "__LINE__ = 166\n"; "__DATE__ = Jan  1 2026\n"; "__TIME__ = 00:00:00\n";
  "called from function: show_function_info\n"; "\n=== Conditional compilation ===\n"; "PLATFORM        = Linux\n"; "VERSION         = 1.3\n";
  "\n=== do-while(0) wrapper ===\n"; "SWAP result: a=3 b=9\n"; "\n=== Multiline macro ===\n"; "PRINT_ARRAY: [10, 20, 30, 40, 50]\n"])%string.

Lemma preprocessor_main_correct : runs (main linux_build) (λ r o, r = 0 ∧ stdout o = main_text ∧ stderr o = ""%string) False.
Proof. run_program. Qed.

(** ** What the macros evaluate *)

Lemma writes_SQ x v o : writes x v o → INT_MIN ≤ v * v ≤ INT_MAX → writes (SQ x) (v * v) (o ++ o).
Proof.
  intros Hx Hv. unfold SQ. eapply writes_bind; [exact Hx|]. rewrite -(app_nil_r o). eapply writes_bind; [exact Hx|].
  by apply yields_int_chk.
Qed.

Lemma writes_MAX a b x y o o' :
  writes a x o → writes b y o' → writes (MAX a b) (Z.max x y) (o ++ o' ++ if y <? x then o else o').
Proof.
  intros Ha Hb. unfold MAX. eapply writes_bind; [exact Ha|]. eapply writes_bind; [exact Hb|].
  destruct (Z.ltb_spec y x); [by rewrite Z.max_l; [|lia]|by rewrite Z.max_r].
Qed.

Lemma writes_MIN a b x y o o' :
  writes a x o → writes b y o' → writes (MIN a b) (Z.min x y) (o ++ o' ++ if x <? y then o else o').
Proof.
  intros Ha Hb. unfold MIN. eapply writes_bind; [exact Ha|]. eapply writes_bind; [exact Hb|].
  destruct (Z.ltb_spec x y); [by rewrite Z.min_l; [|lia]|by rewrite Z.min_r].
Qed.

(** The function-like macros on arguments that are any expressions, with their
    effects: [SQ] evaluates its argument twice and is undefined on overflow; [MAX] and
    [MIN] evaluate both arguments and the winner again; [ABS] is undefined on INT_MIN;
    [CLAMP] of arguments without effects is the value forced into the interval, and the
    lower bound when the interval is empty. *)
Theorem macros_correct :
  (∀ x v o, writes x v o →
     if Machine.in_int (v * v) then writes (SQ x) (v * v) (o ++ o) else is_undefined (SQ x)) ∧
  (∀ a b x y o o', writes a x o → writes b y o' →
     writes (MAX a b) (Z.max x y) (o ++ o' ++ if y <? x then o else o') ∧
     writes (MIN a b) (Z.min x y) (o ++ o' ++ if x <? y then o else o')) ∧
  (∀ x v o, writes x v o → INT_MIN ≤ v ≤ INT_MAX →
     if v =? INT_MIN then is_undefined (ABS x) else writes (ABS x) (Z.abs v) (o ++ o)) ∧
  (∀ v lo hi x l h, yields v x → yields lo l → yields hi h →
     yields (CLAMP v lo hi) (Z.max l (Z.min x h)) ∧ (l ≤ h → l ≤ Z.max l (Z.min x h) ≤ h)).
Proof.
  split_and!.
  - intros x v o Hx. destruct (Machine.in_int (v * v)) eqn:E; [apply in_int_spec in E; by apply writes_SQ|].
    do 2 (eapply undefined_bind_r; [exact Hx|]). intros w. unfold int_chk. by rewrite E.
  - intros a b x y o o' Ha Hb. split; [by apply writes_MAX|by apply writes_MIN].
  - intros x v o Hx Hv. unfold ABS. destruct (Z.eqb_spec v INT_MIN) as [->|Hne].
    + do 2 (eapply undefined_bind_r; [exact Hx|]; simpl). by intros w.
    + eapply writes_bind; [exact Hx|]. destruct (Z.ltb_spec v 0).
      * rewrite -(app_nil_r o) Z.abs_neq; [|lia]. eapply writes_bind; [exact Hx|]. apply yields_int_chk. unfold INT_MIN, INT_MAX in *. lia.
      * by rewrite Z.abs_eq.
  - intros v lo hi x l h Hv Hlo Hhi. split; [|lia]. unfold CLAMP, yields.
    assert (writes (MIN v hi) (Z.min x h) []) as Hm.
    { pose proof (writes_MIN v hi x h [] [] Hv Hhi) as H. by destruct (x <? h). }
    pose proof (writes_MAX lo (MIN v hi) l (Z.min x h) [] [] Hlo Hm) as H. by destruct (Z.min x h <? l).
Qed.
