(* ===== verification/Regex.v ===== *)
(** * Exercise 32: POSIX regular expressions

    Model of [exercises/32_regex/regex_demo.c].  [regcomp], [regexec] and [regerror]
    belong to the C library and are parameters: of [regexec] the code relies on the
    offsets it reports lying inside the string.  A compiled expression is an object of the
    heap, which [regfree] frees. *)

From S2P Require Import Prelude Machine CString Double Printf SepLogic Pure.
#[local] Open Scope Z_scope.

(** Flags of the two functions; their values are those of glibc. *)
Definition REG_EXTENDED : Z := 1.
Definition REG_ICASE : Z := 2.
Definition REG_NEWLINE : Z := 4.
Definition REG_NOTBOL : Z := 1.

(** What [regexec] stores in [pmatch]: the offsets of the match and of its groups. *)
Definition pmatch : Type := list (Z * Z).

(** Entry [i]; unused entries are -1. *)
Definition entry (pm : pmatch) (i : nat) : Z * Z := nth i pm (-1, -1).
Definition rm_so (pm : pmatch) (i : nat) : Z := (entry pm i).1.
Definition rm_eo (pm : pmatch) (i : nat) : Z := (entry pm i).2.

(** [s] up to its terminator from offset [k] on; there is nothing after it. *)
Definition from {U} (s : string) (k : Z) : M U string :=
  if (0 <=? k) && (k <=? strlen s) then ret (drop_str (Z.to_nat k) s) else undefined.

Section regex.
Context {regex : Type}.
Context (regcomp : string → Z → Z + regex) (regerror : Z → string).
Context (regexec : regex → string → Z → option pmatch).
(** What [regcomp] returns when there is no memory. *)
Context (REG_ESPACE : Z).

#[local] Instance obj_regex : Prism regex regex := {| to_obj := id; of_obj := Some; of_to_obj _ := eq_refl |}.

(** The message is cut to the 256 bytes of [buf]. *)
Definition compile_failed (pattern : string) (rc : Z) : M regex ptr :=
  eprintf "regcomp(\q%s\q): %s\n" [AStr pattern; AStr (take_str 255 (regerror rc))] ;;;
  exit 1.

Definition compile (pattern : string) (cflags : Z) : M regex ptr :=
  match regcomp pattern cflags with
  | inl rc => compile_failed pattern rc
  | inr re =>
      p <- malloc re ;;
      match p with None => compile_failed pattern REG_ESPACE | Some _ => ret p end
  end.

(** [regexec] on a compiled expression, and [regfree]. *)
Definition exec (re : ptr) (s : string) (eflags : Z) : M regex (option pmatch) :=
  r <- load re ;; ret (regexec r s eflags).
Definition regfree (re : ptr) : M regex unit := free re.

Definition print_match (src : string) (pm : pmatch) (idx : nat) : M regex unit :=
  let start := to_int (rm_so pm idx) in
  let end_ := to_int (rm_eo pm idx) in
  if start <? 0 then printf "<no match>" []
  else s <- from src start ;; printf "\q%.*s\q" [AInt (end_ - start); AStr s].

Definition section1_concepts : M regex unit :=
  put_lines [
    "═══ 1. POSIX Regex Concepts ════\n"; "  Two flavours:";
    "    BRE (Basic):    default; ( ) { } + ? | must be escaped: \\( \\)";
    "    ERE (Extended): REG_EXTENDED flag; (, ), +, ?, | are metacharacters\n"; "  Lifecycle:";
    "    regcomp(re, pattern, cflags) — compile pattern into regex_t";
    "    regexec(re, str, nmatch, pmatch, eflags) — match against string";
    "    regfree(re)                  — free resources (always call)\n"; "  cflags (compile flags):";
    "    REG_EXTENDED  ERE syntax"; "    REG_ICASE     case-insensitive";
    "    REG_NEWLINE   ^ and $ match line boundaries; . does not match \\n\n"; "  eflags (execute flags):";
    "    REG_NOTBOL    ^ does not match at the start of this string";
    "    REG_NOTEOL    $ does not match at the end of this string\n"; "  Return codes:";
    "    0         match found"; "    REG_NOMATCH  no match"; "    other     error — decode with regerror()\n"]%string.

Definition section2_basic : M regex unit :=
  puts "═══ 2. Basic Match / No-match ════\n" ;;;
  re <- compile (esc "[0-9]+\\.[0-9]+") REG_EXTENDED ;;
  let inputs := ["price: 3.14"; "no numbers here"; "v2 and 1.0.0"]%string in
  for_list inputs (λ input _,
    rc <- exec re input 0 ;;
    printf "  \q%-20s  →  " [AStr input] ;;;
    match rc with
    | Some m =>
        printf "match at [%d,%d): " [AInt (rm_so m 0); AInt (rm_eo m 0)] ;;;
        print_match input m 0
    | None => printf "no match" []
    end ;;;
    puts "") tt ;;;
  regfree re ;;;
  puts "".

Definition section3_groups : M regex unit :=
  puts "═══ 3. Capture Groups ════\n" ;;;
  puts "  Pattern: ^([A-Za-z_][A-Za-z0-9_]*)\\s*=\\s*(.+)$" ;;;
  puts "  Matches  key = value  lines; groups 1=key, 2=value\n" ;;;
  re <- compile (esc "^([A-Za-z_][A-Za-z0-9_]*)[ \t]*=[ \t]*(.+)$") REG_EXTENDED ;;
  let lines := ["host = localhost"; "port = 8080"; "debug=true"; "# comment line"; "bad line"]%string in
  for_list lines (λ line _,
    rc <- exec re line 0 ;;
    printf "  %-22s  →  " [AStr line] ;;;
    match rc with
    | Some pm =>
        printf "key=" [] ;;; print_match line pm 1 ;;;
        printf "  val=" [] ;;; print_match line pm 2
    | None => printf "no match" []
    end ;;;
    puts "") tt ;;;
  regfree re ;;;
  puts "".

(** The loop of section 4: [p] is the offset into [ml]; it ends at the end of the text. *)
Definition match_lines (re : ptr) (ml : string) (fuel : nat) : Z → M regex unit :=
  loop fuel (λ p,
    s <- from ml p ;;
    rc <- exec re s (if p =? 0 then 0 else REG_NOTBOL) ;;
    match rc with
    | None => ret (inr tt)
    | Some m =>
        q <- from ml (p + rm_so m 0) ;;
        printf "    matched: \q%.*s\q\n" [AInt (to_int (rm_eo m 0 - rm_so m 0)); AStr q] ;;;
        let p := p + rm_eo m 0 in
        s <- from ml p ;;
        if strlen s =? 0 then ret (inr tt) else ret (inl p)
    end).

Definition section4_flags : M regex unit :=
  puts "═══ 4. Flags: REG_ICASE and REG_NEWLINE ════\n" ;;;
  re <- compile "hello" (Z.lor REG_EXTENDED REG_ICASE) ;;
  let tests := ["Hello World"; "HELLO!"; "goodbye"]%string in
  for_list tests (λ test _,
    rc <- exec re test 0 ;;
    printf "  REG_ICASE  \qhello\q vs \q%s\q: %s\n"
      [AStr test; AStr (match rc with Some _ => "match" | None => "no match" end)]) tt ;;;
  regfree re ;;;
  puts "" ;;;
  re <- compile "^[0-9]+$" (Z.lor REG_EXTENDED REG_NEWLINE) ;;
  let ml := esc "abc\n42\nxyz" in
  printf "  REG_NEWLINE  ^[0-9]+$  in %s:\n" [AStr (esc "\qabc\\n42\\nxyz\q")] ;;;
  match_lines re ml (S (String.length ml)) 0 ;;;
  regfree re ;;;
  puts "".

(** The scan loop; the state is [cursor], [eflags] and [first]. *)
Definition scan (re : ptr) (text : string) (fuel : nat) : Z * Z * bool → M regex unit :=
  loop fuel (λ '(cursor, eflags, first),
    s <- from text cursor ;;
    rc <- exec re s eflags ;;
    match rc with
    | None => ret (inr tt)
    | Some m =>
        (if (first : bool) then ret tt else printf ", " []) ;;;
        q <- from text (cursor + rm_so m 0) ;;
        printf "\q%.*s\q" [AInt (to_int (rm_eo m 0 - rm_so m 0)); AStr q] ;;;
        let cursor := cursor + rm_eo m 0 in
        let cursor := if rm_eo m 0 =? rm_so m 0 then cursor + 1 else cursor in
        ret (inl (cursor, REG_NOTBOL, false))
    end).

Definition section5_scan : M regex unit :=
  puts "═══ 5. Scan Loop: All Matches ════\n" ;;;
  re <- compile "[A-Z][a-z]+" REG_EXTENDED ;;
  let text := "The Quick Brown Fox jumped over the Lazy Dog"%string in
  printf "  text: \q%s\q\n  capitalised words: " [AStr text] ;;;
  scan re text (S (S (String.length text))) (0, 0, true) ;;;
  puts "\n" ;;;
  regfree re ;;;
  put_lines ["  Scan loop pattern:"; "    cursor = start of text"; "    while regexec(re, cursor, 1, &m, eflags) == 0:";
    "      process cursor[m.rm_so .. m.rm_eo)"; "      cursor += m.rm_eo;  eflags |= REG_NOTBOL;\n"]%string.

Definition check (label : string) (re : ptr) (input : string) : M regex unit :=
  rc <- exec re input 0 ;;
  let full := match rc with Some m => (rm_so m 0 =? 0) && (rm_eo m 0 =? to_int (strlen input)) | None => false end in
  printf "  %-12s  %-28s  %s\n" [AStr label; AStr input; AStr (if full then "valid" else "INVALID")].

Definition check_all (label pattern : string) (inputs : list string) : M regex unit :=
  re <- compile pattern REG_EXTENDED ;;
  for_list inputs (λ input _, check label re input) tt ;;;
  regfree re ;;;
  puts "".

Definition section6_patterns : M regex unit :=
  puts "═══ 6. Common Patterns ════\n" ;;;
  check_all "IPv4" (esc ("^((25[0-5]|2[0-4][0-9]|[01]?[0-9][0-9]?)\\.){3}" +:+ "(25[0-5]|2[0-4][0-9]|[01]?[0-9][0-9]?)$"))
    ["192.168.1.1"; "10.0.0.255"; "999.1.1.1"; "1.2.3"]%string ;;;
  check_all "ISO date" "^[0-9]{4}-(0[1-9]|1[0-2])-(0[1-9]|[12][0-9]|3[01])$"
    ["2026-06-06"; "1999-12-31"; "2026-13-01"; "26-1-1"]%string ;;;
  check_all "C ident" "^[A-Za-z_][A-Za-z0-9_]*$" ["my_var"; "_internal"; "2bad"; "has space"]%string ;;;
  put_lines ["  Notes:"; "  - Anchor with ^ and $ to validate the whole string";
    "  - POSIX ERE has no \\d \\w \\s — use [0-9] [A-Za-z0-9_] [ \\t]";
    "  - For full Unicode/PCRE features, use the PCRE2 library (pcre2.h)\n"]%string.

Definition main : M regex Z :=
  section1_concepts ;;;
  section2_basic ;;;
  section3_groups ;;;
  section4_flags ;;;
  section5_scan ;;;
  section6_patterns ;;;
  ret 0.

(** ** The scan loop *)

(** The matches from offset [c] on, each search starting where the last match ended. *)
Inductive scans (re : regex) (text : string) : Z → Z → list (Z * Z) → Prop :=
  | scans_end c eflags :
      regexec re (drop_str (Z.to_nat c) text) eflags = None → scans re text c eflags []
  | scans_next c eflags m ms :
      regexec re (drop_str (Z.to_nat c) text) eflags = Some m →
      scans re text (c + rm_eo m 0) REG_NOTBOL ms →
      scans re text c eflags ((c + rm_so m 0, c + rm_eo m 0) :: ms).

Definition substr (s : string) (a b : Z) : string := take_str (Z.to_nat (b - a)) (drop_str (Z.to_nat a) s).
Definition quoted (s : string) : string := String dquote (s +:+ String dquote "")%string.
Definition word (text : string) (m : Z * Z) : string := quoted (substr text m.1 m.2).

(** The matches follow one another from [c] to the end of a text of length [n]. *)
Fixpoint in_order (c n : Z) (ms : list (Z * Z)) : Prop :=
  match ms with
  | [] => True
  | (a, b) :: ms' => c ≤ a ∧ a < b ∧ b ≤ n ∧ in_order b n ms'
  end.

(** What POSIX says of the offsets: the match, and each group that took part in it, lies
    inside the string. *)
Definition valid_offsets : Prop :=
  ∀ re s eflags pm, regexec re s eflags = Some pm →
    0 ≤ rm_so pm 0 ≤ rm_eo pm 0 ∧ rm_eo pm 0 ≤ strlen s ∧
    ∀ i, rm_so pm i = -1 ∨ 0 ≤ rm_so pm i ≤ rm_eo pm i ∧ rm_eo pm i ≤ strlen s.

(** An expression that matches no empty string. *)
Definition never_empty (re : regex) : Prop :=
  ∀ s eflags pm, regexec re s eflags = Some pm → rm_so pm 0 < rm_eo pm 0.

Lemma strlen_drop k s : strlen (drop_str k s) = Z.max 0 (strlen s - Z.of_nat k).
Proof.
  unfold strlen. revert s. induction k as [|k IH]; intros [|c s]; simpl; try lia. rewrite IH. lia.
Qed.

Lemma from_inside {U} s k : 0 ≤ k ≤ strlen s → yields (from (U:=U) s k) (drop_str (Z.to_nat k) s).
Proof.
  intros Hk. unfold from. destruct (Z.leb_spec 0 k); [|lia]. destruct (Z.leb_spec k (strlen s)); [|lia]. apply yields_ret.
Qed.

Lemma from_outside {U} s k : strlen s < k → is_undefined (from (U:=U) s k).
Proof. intros Hk w. unfold from. destruct (Z.leb_spec k (strlen s)); [lia|]. by rewrite andb_false_r. Qed.

Lemma format_word n s : 0 ≤ n → format "\q%.*s\q" [AInt n; AStr s] = Some (quoted (take_str (Z.to_nat n) s)).
Proof.
  intros Hn. unfold format, quoted. vm_compute (parse _ _). simpl. unfold conv, star_prec, fmt_str, fpad. simpl.
  destruct (Z.ltb_spec n 0); [lia|]. done.
Qed.

Context (mf : bool) (X : Z → Prop).
Hypothesis offsets : valid_offsets.

Lemma wp_exec l re s eflags (Q : option pmatch → list ev → hpropI regex) :
  l ↦ re -∗ (l ↦ re -∗ Q (regexec re s eflags) []) -∗ wp mf X (exec (Some l) s eflags) Q.
Proof.
  iIntros "Hl HQ". unfold exec. iApply wp_bind. iApply (wp_load with "Hl"); [done|]. iIntros "Hl".
  iApply wp_ret. by iApply "HQ".
Qed.

Lemma wp_from {s k} (Q : string → list ev → hpropI regex) :
  0 ≤ k ≤ strlen s → Q (drop_str (Z.to_nat k) s) [] ⊢ wp mf X (from s k) Q.
Proof. intros Hk. apply wp_writes. by apply from_inside. Qed.

(** The text of the match [m] found at [c]. *)
Lemma format_match text c m :
  strlen text ≤ INT_MAX → 0 ≤ c → 0 ≤ rm_so m 0 ≤ rm_eo m 0 → c + rm_eo m 0 ≤ strlen text →
  format "\q%.*s\q" [AInt (to_int (rm_eo m 0 - rm_so m 0)); AStr (drop_str (Z.to_nat (c + rm_so m 0)) text)] =
  Some (word text (c + rm_so m 0, c + rm_eo m 0)).
Proof.
  intros Ht Hc Hm He. rewrite to_int_id; [|unfold INT_MIN, INT_MAX in *; lia]. rewrite format_word; [|lia].
  unfold word, substr. simpl. by replace (c + rm_eo m 0 - (c + rm_so m 0)) with (rm_eo m 0 - rm_so m 0) by lia.
Qed.

(** The words as the scan loop writes them. *)
Fixpoint listing (text : string) (first : bool) (ms : list (Z * Z)) : string :=
  match ms with
  | [] => ""
  | m :: ms' => (if first then "" else ", ") +:+ word text m +:+ listing text false ms'
  end%string.

Lemma listing_join text ms : listing text true ms = join_str ", " (word text <$> ms).
Proof.
  destruct ms as [|m ms]; [done|]. cbn [listing]. rewrite string_app_nil_l.
  revert m. induction ms as [|m' ms IH]; intros m; [by rewrite string_app_nil_r|].
  cbn [listing]. rewrite IH. done.
Qed.

(** An expression that matches no empty string: the loop ends within a turn for each
    character and one more, having listed the successive matches. *)
Lemma wp_scan l re text : never_empty re → strlen text ≤ INT_MAX →
  ∀ fuel c eflags first (Q : unit → list ev → hpropI regex),
  0 ≤ c ≤ strlen text → (Z.to_nat (strlen text - c) < fuel)%nat →
  l ↦ re -∗
  (∀ ms o, ⌈scans re text c eflags ms ∧ in_order c (strlen text) ms ∧ stdout o = listing text first ms ∧ stderr o = ""%string⌉ -∗
     l ↦ re -∗ Q tt o) -∗
  wp mf X (scan (Some l) text fuel (c, eflags, first)) Q.
Proof.
  intros Hre Ht. induction fuel as [|fuel IH]; intros c eflags first Q Hc Hf; [lia|].
  iIntros "Hl HQ". iApply wp_loop. iApply wp_bind. iApply wp_from; [lia|].
  iApply wp_bind. iApply (wp_exec with "Hl"). iIntros "Hl".
  destruct (regexec re _ eflags) as [m|] eqn:E.
  - destruct (offsets _ _ _ _ E) as (Hso & Heo & _). pose proof (Hre _ _ _ E) as Hne.
    rewrite strlen_drop in Heo.
    iApply wp_bind. iApply (wp_wand _ _ _ (λ _ o, ⌈o = if first then [] else [Out ", "%string]⌉%I) with "[]").
    { destruct first; wp_step; done. }
    iIntros ([] o1) "->". iApply wp_bind. iApply wp_from; [lia|]. iApply wp_bind.
    iApply wp_printf; [apply format_match; lia|].
    destruct (Z.eqb_spec (rm_eo m 0) (rm_so m 0)); [lia|].
    iApply wp_ret. cbn [app]. rewrite -/(scan _ _ fuel).
    iApply (IH with "Hl"); [lia|lia|]. iIntros (ms o) "%H Hl". destruct H as (Hs & Hord & Ho & He).
    iApply ("HQ" with "[] Hl"). iPureIntro. split_and!.
    + by eapply scans_next.
    + simpl. split_and!; [lia..|done].
    + cbn [listing]. destruct first; cbn [app stdout]; by rewrite Ho ?string_app_nil_l ?string_app_nil_r.
    + destruct first; cbn [app stderr]; done.
  - iApply wp_ret. iApply ("HQ" $! [] with "[] Hl"). iPureIntro. split_and!; [by constructor|done..].
Qed.

(** An expression that matches everywhere is carried past the end of the text. *)
Lemma ub_bind {U A B} (m : M U A) (k : A → M U B) a o w : m w = Ret a o w → k a w = UB → bind m k w = UB.
Proof. intros H1 H2. unfold bind. by rewrite H1 H2. Qed.

Lemma scan_past_end l re text : (∀ s eflags, is_Some (regexec re s eflags)) → strlen text ≤ INT_MAX →
  ∀ fuel c eflags first w, 0 ≤ c → (Z.to_nat (strlen text + 1 - c) < fuel)%nat → heap w !! l = Some re →
  scan (Some l) text fuel (c, eflags, first) w = UB.
Proof.
  intros Hall Ht. induction fuel as [|fuel IH]; intros c eflags first w Hc Hf Hl; [lia|].
  cbn [scan loop]. destruct (decide (c ≤ strlen text)) as [Hin|Hout].
  2:{ unfold bind at 1 2. by rewrite from_outside; [|lia]. }
  destruct (Hall (drop_str (Z.to_nat c) text) eflags) as [m E].
  destruct (offsets _ _ _ _ E) as (Hso & Heo & _). rewrite strlen_drop in Heo.
  set (c' := if rm_eo m 0 =? rm_so m 0 then c + rm_eo m 0 + 1 else c + rm_eo m 0).
  assert (c < c') as Hc' by (subst c'; destruct (Z.eqb_spec (rm_eo m 0) (rm_so m 0)); lia).
  destruct first; (eapply (ub_bind _ _ (inl (c', REG_NOTBOL, false))); [|apply IH; [lia|lia|done]];
  unfold bind at 1; (rewrite from_inside; [|lia]);
  unfold exec, load, load_obj, bind; rewrite Hl; cbn [of_obj obj_regex]; unfold ret; cbn; rewrite E;
  unfold printf at 1; cbn; rewrite from_inside; try lia; unfold printf; rewrite format_match; try lia; subst c'; reflexivity).
Qed.

(** ** The other functions *)

Lemma wp_compile pattern cflags (Q : ptr → list ev → hpropI regex) :
  (mf = true → X 1) → ((∃ rc, regcomp pattern cflags = inl rc) → X 1) →
  (∀ l re, ⌈regcomp pattern cflags = inr re⌉ -∗ l ↦ re -∗ Q (Some l) []) ⊢ wp mf X (compile pattern cflags) Q.
Proof.
  intros Hmf Hrc. iIntros "HQ". unfold compile, compile_failed. destruct (regcomp pattern cflags) as [rc|re] eqn:E.
  - do 2 wp_step. iApply (wp_exit with "HQ"). apply Hrc. eauto.
  - wp_step. iApply wp_malloc. iIntros ([l|]) "%Hp Hl".
    + wp_step. by iApply ("HQ" with "[] Hl").
    + do 2 wp_step. iApply (wp_exit with "HQ"). auto.
Qed.

Lemma wp_print_match src pm idx (Q : unit → list ev → hpropI regex) :
  strlen src ≤ INT_MAX → rm_so pm idx = -1 ∨ 0 ≤ rm_so pm idx ≤ rm_eo pm idx ∧ rm_eo pm idx ≤ strlen src →
  (∀ s, Q tt [Out s]) ⊢ wp mf X (print_match src pm idx) Q.
Proof.
  intros Hs Hpm. iIntros "HQ". unfold print_match. destruct Hpm as [->|[Hso Heo]].
  { change (to_int (-1) <? 0) with true. wp_step. iApply "HQ". }
  rewrite !to_int_id; [|unfold INT_MIN, INT_MAX in *; lia..]. destruct (Z.ltb_spec (rm_so pm idx) 0); [lia|].
  iApply wp_bind. iApply wp_from; [lia|]. iApply wp_printf; [apply format_word; lia|]. iApply "HQ".
Qed.

(** A loop that searches each of the texts with the same expression. *)
Lemma wp_each l re (inputs : list string) (f : string → unit → M regex unit) (Q : unit → list ev → hpropI regex) :
  (∀ input, input ∈ inputs → l ↦ re ⊢ wp mf X (f input tt) (λ _ o, l ↦ re ∗ ⌈stderr o = ""%string⌉)) →
  l ↦ re -∗ (∀ o, l ↦ re -∗ ⌈stderr o = ""%string⌉ -∗ Q tt o) -∗ wp mf X (for_list inputs f tt) Q.
Proof.
  intros Hf. iIntros "Hl HQ".
  iApply (wp_for_list mf X (λ _ _ o, l ↦ re ∗ ⌈stderr o = ""%string⌉)%I with "[Hl]").
  - intros gone x rest [] o Hin. iIntros "[Hl %Ho]". iApply (wp_wand with "[Hl]").
    { iApply (Hf x with "Hl"). rewrite Hin. set_solver. }
    iIntros ([] o') "[Hl %Ho']". iFrame "Hl". iPureIntro. by rewrite stderr_app Ho Ho'.
  - by iFrame "Hl".
  - iIntros ([] o) "[Hl %Ho]". by iApply ("HQ" with "Hl").
Qed.

(** No event of the list is a message. *)
Ltac no_errors :=
  iPureIntro; repeat progress (cbn [stderr app]; rewrite ?stderr_app);
  repeat match goal with H : stderr _ = _ |- _ => rewrite H; clear H end; done.

(** The loop of section 4 ends, whatever lines it finds. *)
Lemma wp_match_lines l re ml : never_empty re → strlen ml ≤ INT_MAX →
  ∀ fuel p (Q : unit → list ev → hpropI regex),
  0 ≤ p ≤ strlen ml → (Z.to_nat (strlen ml - p) < fuel)%nat →
  l ↦ re -∗ (∀ o, l ↦ re -∗ ⌈stderr o = ""%string⌉ -∗ Q tt o) -∗ wp mf X (match_lines (Some l) ml fuel p) Q.
Proof.
  intros Hre Ht. induction fuel as [|fuel IH]; intros p Q Hp Hf; [lia|]. iIntros "Hl HQ".
  iApply wp_loop. iApply wp_bind. iApply wp_from; [lia|]. iApply wp_bind. iApply (wp_exec with "Hl"). iIntros "Hl".
  destruct (regexec re _ _) as [m|] eqn:E; [|iApply wp_ret; by iApply ("HQ" with "Hl")].
  destruct (offsets _ _ _ _ E) as (Hso & Heo & _). pose proof (Hre _ _ _ E) as Hne. rewrite strlen_drop in Heo.
  iApply wp_bind. iApply wp_from; [lia|]. wp_step. wp_step.
  iApply wp_bind. iApply wp_from; [lia|]. destruct (strlen (drop_str _ ml) =? 0).
  - iApply wp_ret. cbn [app]. by iApply ("HQ" with "Hl").
  - iApply wp_ret. cbn [app]. rewrite -/(match_lines _ _ fuel). iApply (IH with "Hl"); [lia|lia|].
    iIntros (o) "Hl %Ho". by iApply ("HQ" with "Hl").
Qed.

Lemma wp_check label l re input :
  l ↦ re ⊢ wp mf X (check label (Some l) input) (λ _ o, l ↦ re ∗ ⌈stderr o = ""%string⌉).
Proof. iIntros "Hl". unfold check. wp_step. iApply (wp_exec with "Hl"). iIntros "Hl". wp_step. by iFrame. Qed.

Section main.
Hypotheses (memory : mf = true → X 1) (failed : (∃ pattern cflags rc, regcomp pattern cflags = inl rc) → X 1).

Lemma wp_compile_ok pattern cflags (Q : ptr → list ev → hpropI regex) :
  (∀ l re, ⌈regcomp pattern cflags = inr re⌉ -∗ l ↦ re -∗ Q (Some l) []) ⊢ wp mf X (compile pattern cflags) Q.
Proof. apply wp_compile; [done|]. intros [rc ?]. apply failed. eauto. Qed.

(** A part of the program: it leaves nothing on the heap and writes no error. *)
Definition quiet (m : M regex unit) : Prop := ⊢ wp mf X m (λ _ o, ⌈stderr o = ""%string⌉).

Lemma quiet_section1 : quiet section1_concepts.
Proof. unfold quiet. iStartProof. unfold section1_concepts. by wp_step. Qed.

Lemma quiet_section2 : quiet section2_basic.
Proof.
  unfold quiet. iStartProof. unfold section2_basic. do 3 wp_step. iApply wp_compile_ok. iIntros (l re) "_ Hl".
  wp_step. iApply (wp_each with "Hl").
  - intros input Hin. iIntros "Hl". wp_step. iApply (wp_exec with "Hl"). iIntros "Hl". do 3 wp_step.
    assert (strlen input ≤ 100) as Hs by (revert Hin; rewrite !elem_of_cons elem_of_nil; intros; destruct_or!; subst; done).
    destruct (regexec re input 0) as [m|] eqn:E; [|do 2 wp_step; by iFrame].
    destruct (offsets _ _ _ _ E) as (_ & _ & Hm). do 2 wp_step.
    iApply wp_print_match; [unfold INT_MAX; lia|apply Hm|]. iIntros (s). wp_step. by iFrame.
  - iIntros (o) "Hl %Ho". unfold regfree. do 3 wp_step. no_errors.
Qed.

Lemma quiet_section3 : quiet section3_groups.
Proof.
  unfold quiet. iStartProof. unfold section3_groups. do 7 wp_step. iApply wp_compile_ok. iIntros (l re) "_ Hl".
  wp_step. iApply (wp_each with "Hl").
  - intros input Hin. iIntros "Hl". wp_step. iApply (wp_exec with "Hl"). iIntros "Hl". do 3 wp_step.
    assert (strlen input ≤ 100) as Hs by (revert Hin; rewrite !elem_of_cons elem_of_nil; intros; destruct_or!; subst; done).
    destruct (regexec re input 0) as [m|] eqn:E; [|do 2 wp_step; by iFrame].
    destruct (offsets _ _ _ _ E) as (_ & _ & Hm). do 3 wp_step.
    iApply wp_print_match; [unfold INT_MAX; lia|apply Hm|]. iIntros (s). do 2 wp_step.
    iApply wp_print_match; [unfold INT_MAX; lia|apply Hm|]. iIntros (s'). wp_step. by iFrame.
  - iIntros (o) "Hl %Ho". unfold regfree. do 3 wp_step. no_errors.
Qed.

Lemma quiet_section4 :
  (∀ re, regcomp "^[0-9]+$" (Z.lor REG_EXTENDED REG_NEWLINE) = inr re → never_empty re) → quiet section4_flags.
Proof.
  intros Hne. unfold quiet. iStartProof. unfold section4_flags. do 3 wp_step. iApply wp_compile_ok. iIntros (l re) "_ Hl".
  wp_step. iApply (wp_each with "Hl").
  { intros input Hin. iIntros "Hl". wp_step. iApply (wp_exec with "Hl"). iIntros "Hl". wp_step. by iFrame. }
  iIntros (o) "Hl %Ho". unfold regfree. do 5 wp_step. iApply wp_compile_ok. iIntros (l2 re2) "%E Hl".
  do 3 wp_step. iApply (wp_match_lines with "Hl"); [by apply Hne|by vm_compute|by vm_compute|by vm_compute; lia|].
  iIntros (o') "Hl %Ho'". do 3 wp_step. no_errors.
Qed.

Lemma quiet_section5 :
  (∀ re, regcomp "[A-Z][a-z]+" REG_EXTENDED = inr re → never_empty re) → quiet section5_scan.
Proof.
  intros Hne. unfold quiet. iStartProof. unfold section5_scan. do 3 wp_step. iApply wp_compile_ok. iIntros (l re) "%E Hl".
  do 3 wp_step. iApply (wp_scan with "Hl"); [by apply Hne|by vm_compute|by vm_compute|by vm_compute; lia|].
  iIntros (ms o) "%H Hl". destruct H as (_ & _ & _ & Ho). unfold regfree. do 5 wp_step. no_errors.
Qed.

Lemma quiet_check_all label pattern inputs : quiet (check_all label pattern inputs).
Proof.
  unfold quiet. iStartProof. unfold check_all. wp_step. iApply wp_compile_ok. iIntros (l re) "_ Hl". wp_step.
  iApply (wp_each with "Hl"); [intros; apply wp_check|]. iIntros (o) "Hl %Ho". unfold regfree. do 3 wp_step. no_errors.
Qed.

Lemma quiet_seq m1 m2 : quiet m1 → quiet m2 → quiet (m1 ;;; m2).
Proof.
  unfold quiet. intros H1 H2. iStartProof. wp_step. iApply (wp_wand with "[]"); [iApply H1|]. iIntros ([] o) "%Ho".
  iApply (wp_wand with "[]"); [iApply H2|]. iIntros ([] o') "%Ho'". iPureIntro. by rewrite stderr_app Ho Ho'.
Qed.

Lemma quiet_then {A} m (k : M regex A) Q :
  quiet m → (∀ o, stderr o = ""%string → ⊢ wp mf X k (λ r o', Q r (o ++ o'))) → ⊢ wp mf X (m ;;; k) Q.
Proof.
  unfold quiet. intros Hm Hk. iStartProof. wp_step. iApply (wp_wand with "[]"); [iApply Hm|]. iIntros ([] o) "%Ho".
  by iApply Hk.
Qed.

Lemma quiet_section6 : quiet section6_patterns.
Proof.
  unfold section6_patterns. apply quiet_seq; [unfold quiet; iStartProof; by wp_step|]. do 3 (apply quiet_seq; [apply quiet_check_all|]). unfold quiet. iStartProof. by wp_step.
Qed.
End main.

(** The scan loop on a compiled expression of its own. *)
Definition scan_client (re : regex) (text : string) : M regex unit :=
  p <- local re ;;
  scan p text (S (S (String.length text))) (0, 0, true) ;;;
  free p.
End regex.

(** C22. The scan loop, for every expression whose matches lie inside the string, on every
    text an [int] can measure.  When the expression matches no empty string the loop ends
    and writes, separated by commas, the matches that follow one another in the text, each
    search starting where the last match ended.  When it matches everywhere, as one that
    matches the empty string does, the loop is carried past the end of the text, which is
    undefined: the step over an empty match is not enough. *)
Theorem scan_correct (regex : Type) (regexec : regex → string → Z → option pmatch) (re : regex) (text : string)
    (offsets : valid_offsets regexec) (short : strlen text ≤ INT_MAX) :
  (never_empty regexec re →
   runs (scan_client regexec re text)
     (λ _ o, ∃ ms, scans regexec re text 0 0 ms ∧ in_order 0 (strlen text) ms ∧
        stdout o = join_str ", " (word text <$> ms)) False) ∧
  ((∀ s eflags, is_Some (regexec re s eflags)) → ∀ w, scan_client regexec re text w = UB).
Proof.
  split.
  - intros Hre. apply wp_runs. intros mf X _ _. iStartProof. unfold scan_client. wp_step.
    iApply wp_local. iIntros (l) "Hl". wp_step.
    iApply (wp_scan regexec mf X offsets with "Hl"); [done|done|unfold strlen; lia|unfold strlen; lia|].
    iIntros (ms o) "%H Hl". destruct H as (Hs & Hord & Ho & _). wp_step. iPureIntro. exists ms.
    split_and!; [done|done|]. by rewrite app_nil_r Ho listing_join.
  - intros Hall w. unfold scan_client, local, bind at 1. unfold bind.
    by rewrite (scan_past_end regexec offsets _ re); [|done|done|lia|unfold strlen; lia|cbn; by rewrite lookup_insert_eq].
Qed.

(** An executable search for [[A-Z][a-z]+]: the first capital followed by small letters. *)
Definition small (c : ascii) : bool := (97 <=? code c) && (code c <=? 122).
Definition capital (c : ascii) : bool := (65 <=? code c) && (code c <=? 90).
Fixpoint small_run (s : string) : Z :=
  match s with String c s' => if small c then 1 + small_run s' else 0 | EmptyString => 0 end.
Fixpoint capital_word (s : string) (k : Z) : option (Z * Z) :=
  match s with
  | EmptyString => None
  | String c s' => if capital c && (0 <? small_run s') then Some (k, k + 1 + small_run s') else capital_word s' (k + 1)
  end.
Definition words_exec (_ : unit) (s : string) (_ : Z) : option pmatch := m ← capital_word s 0; Some [m].

Lemma small_run_bounds s : 0 ≤ small_run s ≤ strlen s.
Proof. unfold strlen. induction s as [|c s IH]; simpl; [lia|]. destruct (small c); lia. Qed.

Lemma capital_word_bounds s k a b : capital_word s k = Some (a, b) → k ≤ a < b ∧ b ≤ k + strlen s.
Proof.
  revert k. induction s as [|c s IH]; intros k; [done|]. cbn [capital_word].
  pose proof (small_run_bounds s). assert (strlen (String c s) = 1 + strlen s) as -> by (unfold strlen; simpl; lia).
  destruct (capital c && (0 <? small_run s)) eqn:E.
  - intros [= <- <-]. apply andb_true_iff in E as [_ E%Z.ltb_lt]. lia.
  - intros Hw%IH. lia.
Qed.

Lemma words_exec_valid : valid_offsets words_exec ∧ never_empty words_exec tt.
Proof.
  split; unfold valid_offsets, never_empty, words_exec.
  - intros re s ef pm H. destruct (capital_word s 0) as [[a b]|] eqn:E; [|done]. simplify_eq/=.
    apply capital_word_bounds in E. unfold rm_so, rm_eo, entry. simpl. split_and!; [lia..|].
    intros [|[|i]]; simpl; [right; lia|by left..].
  - intros s ef pm H. destruct (capital_word s 0) as [[a b]|] eqn:E; [|done]. simplify_eq/=.
    apply capital_word_bounds in E. unfold rm_so, rm_eo, entry. simpl. lia.
Qed.

(** What the search of the program finds in its text. *)
Example scan_example :
  match scan_client words_exec tt "The Quick Brown Fox jumped over the Lazy Dog" (empty_world some_allocator) with
  | Ret _ o _ => stdout o = esc "\qThe\q, \qQuick\q, \qBrown\q, \qFox\q, \qLazy\q, \qDog\q"
  | _ => False
  end.
Proof. vm_compute. reflexivity. Qed.

Lemma scan_correct_witness :
  let text := "The Quick Brown Fox jumped over the Lazy Dog"%string in
  valid_offsets words_exec ∧ strlen text ≤ INT_MAX ∧
  runs (scan_client words_exec tt text)
    (λ _ o, ∃ ms, scans words_exec tt text 0 0 ms ∧ in_order 0 (strlen text) ms ∧
       stdout o = join_str ", " (word text <$> ms)) False.
Proof.
  destruct words_exec_valid as [Hv Hn]. split_and!; [exact Hv|by vm_compute|].
  apply (scan_correct unit words_exec tt _ Hv); [by vm_compute|exact Hn].
Defined.

(** The whole program, when the two expressions it searches for repeatedly match no empty
    string: it returns 0 with no message and every compiled expression freed, or it exits
    with 1 because an allocation failed or an expression was rejected. *)
Theorem regex_main_clean (regex : Type) (regcomp : string → Z → Z + regex) (regerror : Z → string)
    (regexec : regex → string → Z → option pmatch) (REG_ESPACE : Z) :
  valid_offsets regexec →
  (∀ re, regcomp "^[0-9]+$" (Z.lor REG_EXTENDED REG_NEWLINE) = inr re → never_empty regexec re) →
  (∀ re, regcomp "[A-Z][a-z]+" REG_EXTENDED = inr re → never_empty regexec re) →
  runs (main regcomp regerror regexec REG_ESPACE) (λ r o, r = 0 ∧ stderr o = ""%string)
    (∃ pattern cflags rc, regcomp pattern cflags = inl rc).
Proof.
  intros Hv H4 H5. apply wp_runs. intros mf X Hm Hf. unfold main.
  apply quiet_then; [apply quiet_section1|]. intros o1 Ho1.
  apply quiet_then; [by apply quiet_section2|]. intros o2 Ho2.
  apply quiet_then; [by apply quiet_section3|]. intros o3 Ho3.
  apply quiet_then; [by apply quiet_section4|]. intros o4 Ho4.
  apply quiet_then; [by apply quiet_section5|]. intros o5 Ho5.
  apply quiet_then; [by apply quiet_section6|]. intros o6 Ho6.
  iStartProof. wp_step. iPureIntro. split; [done|]. by rewrite !stderr_app Ho1 Ho2 Ho3 Ho4 Ho5 Ho6.
Qed.
