(* ===== verification/Processes.v ===== *)
(** * Two processes that talk through channels

    The programs of a process are commands in continuation-passing style, whose
    behaviour is a [proc]: what it does next, and how it goes on.  After [fork] the two
    processes interleave; a channel is a pipe, a stream socket, which may deliver any part
    of what is in it, or a datagram socket.

    The specification of a conversation is a list of global actions, the messages with
    their direction and what each process does by itself; each process has to follow its
    own part of the list.  Then the two never block each other, every run is bounded, and
    each writes what the list says. *)

From S2P Require Import Prelude Machine CString Double Printf Text SepLogic Pure Interleave.
#[local] Open Scope Z_scope.

Inductive role := Parent | Child.
#[export] Instance role_eq_dec : EqDecision role.
Proof. solve_decision. Defined.
Definition other (r : role) : role := match r with Parent => Child | Child => Parent end.

Lemma other_other r : other (other r) = r.
Proof. by destruct r. Qed.
Lemma other_ne r : other r ≠ r.
Proof. by destruct r. Qed.

Inductive kind := KPipe | KStream | KDatagram.
Record chan := Chan { c_id : nat; c_kind : kind }.
#[export] Instance kind_eq_dec : EqDecision kind.
Proof. solve_decision. Defined.
#[export] Instance chan_eq_dec : EqDecision chan.
Proof. solve_decision. Defined.

(** ** Processes *)

(** [Recv c n k] is a call of [read], [recv] or [recvfrom] with room for [n] bytes; no byte
    means the end of the stream.  [Wait k] is [waitpid]. *)
Inductive proc :=
  | Exit (status : Z)
  | Send (c : chan) (bs : bytes) (k : proc)
  | Recv (c : chan) (n : nat) (k : bytes → proc)
  | Close (c : chan) (k : proc)
  | Print (s : string) (k : proc)
  | Wait (k : Z → proc)
  | Undefined.

(** Commands, a monad. *)
Definition cmd (A : Type) : Type := (A → proc) → proc.
#[export] Instance cmd_ret : MRet cmd := λ A a k, k a.
#[export] Instance cmd_bind : MBind cmd := λ A B f m k, m (λ a, f a k).

Lemma cmd_bind_run {A B} (m : cmd A) (f : A → cmd B) k : (m ≫= f) k = m (λ a, f a k).
Proof. done. Qed.
Lemma cmd_ret_run {A} (a : A) k : (mret a : cmd A) k = k a.
Proof. done. Qed.

Definition send (c : chan) (bs : bytes) : cmd unit := λ k, Send c bs (k tt).
Definition recv (c : chan) (n : nat) : cmd bytes := λ k, Recv c n k.
Definition close (c : chan) : cmd unit := λ k, Close c (k tt).
Definition waitpid : cmd Z := λ k, Wait k.
Definition undef {A} : cmd A := λ _, Undefined.
Definition exit_with {A} (status : Z) : cmd A := λ _, Exit status.
Definition print (fmt : string) (args : list parg) : cmd unit := λ k,
  match format fmt args with Some s => Print s (k tt) | None => Undefined end.

(** ** Steps *)

(** The state of both, the channels to each of them, which of them has closed its writing
    end of a channel, and the output. *)
Record state := State {
  cur : role → proc;
  queue : role → chan → list bytes;
  closed : role → chan → bool;
  out : list (role * string) }.

Definition upd {A} (r : role) (x : A) (f : role → A) : role → A := λ r', if decide (r' = r) then x else f r'.
Definition updc {A} (c : chan) (x : A) (f : chan → A) : chan → A := λ c', if decide (c' = c) then x else f c'.

Definition norm (bs : bytes) : list bytes := match bs with [] => [] | _ => [bs] end.

(** What a channel holds when [bs] has been written to it: datagrams and the writes to a
    pipe, small enough to be atomic, are kept apart. *)
Definition enqueue (c : chan) (bs : bytes) (q : list bytes) : list bytes :=
  match c_kind c with KStream => [concat q ++ bs] | _ => q ++ [bs] end.

(** What a read with room for [n] takes: from a stream any part, from a pipe all there is
    room for, from a datagram socket one datagram, of which the rest is lost. *)
Inductive dequeue (c : chan) (n : nat) (q : list bytes) : bytes → list bytes → Prop :=
  | deq_stream j : c_kind c = KStream → (0 < j ≤ n)%nat → (j ≤ length (concat q))%nat →
      dequeue c n q (take j (concat q)) (norm (drop j (concat q)))
  | deq_pipe : c_kind c = KPipe → q ≠ [] → dequeue c n q (take n (concat q)) (norm (drop n (concat q)))
  | deq_datagram m q' : c_kind c = KDatagram → q = m :: q' → dequeue c n q (take n m) q'.

(** The reader [r] is told that no more will come: nothing is left, and nobody holds the
    writing end, which for a pipe the reader itself inherited too. *)
Definition at_end (s : state) (r : role) (c : chan) : Prop :=
  queue s r c = [] ∧ (closed s (other r) c = true ∨ ∃ st, cur s (other r) = Exit st) ∧
  (c_kind c = KPipe → closed s r c = true) ∧ c_kind c ≠ KDatagram.

Inductive step (s : state) : role → state → Prop :=
  | step_send r c bs k : cur s r = Send c bs k →
      step s r (State (upd r k (cur s)) (upd (other r) (updc c (enqueue c bs (queue s (other r) c)) (queue s (other r))) (queue s)) (closed s) (out s))
  | step_recv r c n k bs q : cur s r = Recv c n k → dequeue c n (queue s r c) bs q →
      step s r (State (upd r (k bs) (cur s)) (upd r (updc c q (queue s r)) (queue s)) (closed s) (out s))
  | step_eof r c n k : cur s r = Recv c n k → at_end s r c →
      step s r (State (upd r (k []) (cur s)) (queue s) (closed s) (out s))
  | step_close r c k : cur s r = Close c k →
      step s r (State (upd r k (cur s)) (queue s) (upd r (updc c true (closed s r)) (closed s)) (out s))
  | step_print r t k : cur s r = Print t k →
      step s r (State (upd r k (cur s)) (queue s) (closed s) (out s ++ [(r, t)]))
  | step_wait r k st : cur s r = Wait k → cur s (other r) = Exit st →
      step s r (State (upd r (k st) (cur s)) (queue s) (closed s) (out s)).

(** After [fork]. *)
Definition forked (parent child : proc) : state :=
  State (λ r, match r with Parent => parent | Child => child end) (λ _ _, []) (λ _ _, false) [].

(** What a process has written. *)
Definition written (r : role) (o : list (role * string)) : list string := (filter (λ e : role * string, e.1 = r) o).*2.
Definition output (r : role) (s : state) : list string := written r (out s).

(** ** Conversations *)

Inductive act := ASend (c : chan) (bs : bytes) | ARecv (c : chan) (bs : bytes) | AClose (c : chan) | APrint (t : string) | AWait (st : Z).

(** The process does what the list says, however a stream cuts the messages into parts,
    and ends with status [st]. *)
Fixpoint follows (p : proc) (l : list act) (st : Z) : Prop :=
  match p with
  | Exit s => l = [] ∧ s = st
  | Send c bs k => ∃ l', l = ASend c bs :: l' ∧ bs ≠ [] ∧ follows k l' st
  | Recv c n k => ∃ bs l', l = ARecv c bs :: l' ∧ (0 < n)%nat ∧
      match c_kind c with
      | KStream => (n ≤ length bs)%nat ∧ ∀ j, (0 < j ≤ n)%nat →
          follows (k (take j bs)) (match drop j bs with [] => l' | rest => ARecv c rest :: l' end) st
      | _ => (length bs ≤ n)%nat ∧ follows (k bs) l' st
      end
  | Close c k => ∃ l', l = AClose c :: l' ∧ follows k l' st
  | Print t k => ∃ l', l = APrint t :: l' ∧ follows k l' st
  | Wait k => ∃ s l', l = AWait s :: l' ∧ follows (k s) l' st
  | Undefined => False
  end.

(** What happens, in an order that respects the causes. *)
Inductive global :=
  | GMsg (from : role) (c : chan) (bs : bytes)
  | GClose (r : role) (c : chan)
  | GPrint (r : role) (t : string)
  | GWait (r : role).

Section conversation.
(** The status each process exits with. *)
Context (status : role → Z).

Definition part (r : role) (e : global) : list act :=
  match e with
  | GMsg from c bs => [if decide (from = r) then ASend c bs else ARecv c bs]
  | GClose r' c => if decide (r' = r) then [AClose c] else []
  | GPrint r' t => if decide (r' = r) then [APrint t] else []
  | GWait r' => if decide (r' = r) then [AWait (status (other r))] else []
  end.
Definition proj (r : role) (G : list global) : list act := mbind (part r) G.

Definition is_msg_on (c : chan) (e : global) : Prop := match e with GMsg _ c' _ => c' = c | _ => False end.
Definition sent_on (r : role) (c : chan) (e : global) : Prop := match e with GMsg r' c' _ => r' = r ∧ c' = c | _ => False end.
Definition alone (e : global) : Prop := match e with GClose _ _ | GPrint _ _ => True | _ => False end.

(** Messages are not empty, a pipe carries one of them, nothing is written to a channel
    that was closed, and when a process waits for the other no message is left. *)
Fixpoint sound (G : list global) : Prop :=
  match G with
  | [] => True
  | GMsg r c bs :: G' => bs ≠ [] ∧ (c_kind c = KPipe → Forall (λ e, ¬ is_msg_on c e) G') ∧ sound G'
  | GClose r c :: G' => Forall (λ e, ¬ sent_on r c e) G' ∧ sound G'
  | GPrint _ _ :: G' => sound G'
  | GWait _ :: G' => Forall alone G' ∧ sound G'
  end.

Definition prints (r : role) (G : list global) : list string :=
  omap (λ e, match e with GPrint r' t => if decide (r' = r) then Some t else None | _ => None end) G.

(** The messages on [c] from [r], as they lie in the channel. *)
Definition msgs (r : role) (c : chan) (G : list global) : list bytes :=
  omap (λ e, match e with GMsg r' c' bs => if decide (r' = r ∧ c' = c) then Some bs else None | _ => None end) G.
Definition chunks (r : role) (c : chan) (G : list global) : list bytes :=
  match c_kind c with KStream => norm (concat (msgs r c G)) | _ => msgs r c G end.

(** The number of steps a list of actions can take. *)
Definition act_weight (a : act) : nat := match a with ARecv _ bs => length bs | _ => 1 end.
Definition weight (l : list act) : nat := sum_list (act_weight <$> l).

Lemma proj_app r G1 G2 : proj r (G1 ++ G2) = proj r G1 ++ proj r G2.
Proof. apply bind_app. Qed.
Lemma proj_cons r e G : proj r (e :: G) = part r e ++ proj r G.
Proof. done. Qed.

(** What one action adds to the part of a process. *)
Lemma proj_print r t G : proj r (GPrint r t :: G) = APrint t :: proj r G.
Proof. rewrite proj_cons. simpl. by rewrite decide_True. Qed.
Lemma proj_print_other r r' t G : r' ≠ r → proj r (GPrint r' t :: G) = proj r G.
Proof. intros. rewrite proj_cons. simpl. by rewrite decide_False. Qed.
Lemma proj_close r c G : proj r (GClose r c :: G) = AClose c :: proj r G.
Proof. rewrite proj_cons. simpl. by rewrite decide_True. Qed.
Lemma proj_close_other r r' c G : r' ≠ r → proj r (GClose r' c :: G) = proj r G.
Proof. intros. rewrite proj_cons. simpl. by rewrite decide_False. Qed.
Lemma proj_send r c bs G : proj r (GMsg r c bs :: G) = ASend c bs :: proj r G.
Proof. rewrite proj_cons. simpl. by rewrite decide_True. Qed.
Lemma proj_receive r r' c bs G : r' ≠ r → proj r (GMsg r' c bs :: G) = ARecv c bs :: proj r G.
Proof. intros. rewrite proj_cons. simpl. by rewrite decide_False. Qed.
Lemma proj_wait r G : proj r (GWait r :: G) = AWait (status (other r)) :: proj r G.
Proof. rewrite proj_cons. simpl. by rewrite decide_True. Qed.
Lemma proj_wait_other r r' G : r' ≠ r → proj r (GWait r' :: G) = proj r G.
Proof. intros. rewrite proj_cons. simpl. by rewrite decide_False. Qed.

(** The next thing [r] does, and what comes before it, in which it has no part. *)
Lemma proj_split r G x l : proj r G = x :: l →
  ∃ pre e G', G = pre ++ e :: G' ∧ proj r pre = [] ∧ part r e = [x] ∧ proj r G' = l.
Proof.
  induction G as [|e G IH]; [done|]. rewrite proj_cons. intros H.
  destruct (part r e) as [|y [|]] eqn:E; simpl in H.
  - destruct (IH H) as (pre & e' & G' & -> & Hp & He & Hl). exists (e :: pre), e', G'. by rewrite proj_cons E Hp.
  - injection H as -> <-. by exists [], e, G.
  - destruct e; simpl in E; try case_decide; simplify_eq.
Qed.

Definition is_msg (e : global) : Prop := match e with GMsg _ _ _ => True | _ => False end.

(** Where a process has no part there is no message. *)
Lemma silent_no_msg r G : proj r G = [] → Forall (λ e, ¬ is_msg e) G.
Proof.
  induction G as [|e G IH]; [by constructor|]. rewrite proj_cons. intros [He HG]%app_nil.
  constructor; [destruct e; simpl in *; [done|tauto..]|auto].
Qed.

Lemma no_msgs r c G : Forall (λ e, ¬ is_msg e) G → msgs r c G = [].
Proof. induction 1 as [|e G He HG IH]; [done|]. destruct e; simpl in *; [tauto|done..]. Qed.

Lemma msgs_app r c G1 G2 : msgs r c (G1 ++ G2) = msgs r c G1 ++ msgs r c G2.
Proof. apply omap_app. Qed.

Lemma chunks_silent r c pre G : Forall (λ e, ¬ is_msg e) pre → chunks r c (pre ++ G) = chunks r c G.
Proof. intros H. unfold chunks. by rewrite msgs_app no_msgs. Qed.

Lemma chunks_none r c G : Forall (λ e, ¬ is_msg e) G → chunks r c G = [].
Proof. intros H. unfold chunks. rewrite no_msgs //. by destruct (c_kind c). Qed.

Lemma concat_norm bs : concat (norm bs) = bs.
Proof. destruct bs; [done|]. simpl. by rewrite app_nil_r. Qed.

Lemma concat_chunks r c G : concat (chunks r c G) = concat (msgs r c G).
Proof. unfold chunks. destruct (c_kind c); [done|apply concat_norm|done]. Qed.

(** What sending adds. *)
Lemma chunks_send r c c' G bs : bs ≠ [] →
  chunks r c' (G ++ [GMsg r c bs]) = if decide (c' = c) then enqueue c bs (chunks r c G) else chunks r c' G.
Proof.
  intros Hbs. unfold chunks, enqueue. rewrite !msgs_app. simpl. destruct (decide (c' = c)) as [->|Hc].
  - rewrite decide_True //. destruct (c_kind c); [done| |done]. rewrite concat_app concat_norm /= app_nil_r.
    by destruct (concat (msgs r c G)), bs.
  - rewrite decide_False; [|by intros [_ ->]]. by rewrite app_nil_r.
Qed.

Lemma chunks_other r c c' bs G : c' ≠ c → chunks r c' (GMsg r c bs :: G) = chunks r c' G.
Proof. intros H. unfold chunks. simpl. rewrite decide_False; [done|]. by intros [_ ->]. Qed.

Lemma sound_app_r G1 G2 : sound (G1 ++ G2) → sound G2.
Proof. induction G1 as [|e G1 IH]; [done|]. destruct e; simpl; tauto. Qed.

(** ** The invariant

    One process is ahead of the other by the actions [G1]: in them all messages are its
    own, and lie in the channels. *)
Record inv_at (G0 : list global) (a : role) (G1 G2 : list global) (s : state) : Prop := {
  i_sound : sound (G1 ++ G2);
  i_mine : Forall (λ e, match e with GMsg r _ _ => r = a | _ => True end) G1;
  i_behind : follows (cur s (other a)) (proj (other a) (G1 ++ G2)) (status (other a));
  i_ahead : follows (cur s a) (proj a G2) (status a);
  i_queue : ∀ c, queue s (other a) c = chunks a c G1;
  i_empty : ∀ c, queue s a c = [];
  i_out_behind : output (other a) s ++ prints (other a) (G1 ++ G2) = prints (other a) G0;
  i_out_ahead : output a s ++ prints a G2 = prints a G0;
  i_closed_behind : ∀ c, closed s (other a) c = true → Forall (λ e, ¬ sent_on (other a) c e) (G1 ++ G2);
  i_closed_ahead : ∀ c, closed s a c = true → Forall (λ e, ¬ sent_on a c e) G2 }.

Definition left_over (a : role) (G1 G2 : list global) : nat := (weight (proj (other a) (G1 ++ G2)) + weight (proj a G2))%nat.

Definition inv (G0 : list global) (k : nat) (s : state) : Prop :=
  ∃ a G1 G2, inv_at G0 a G1 G2 s ∧ left_over a G1 G2 = k.

Lemma prints_app r G1 G2 : prints r (G1 ++ G2) = prints r G1 ++ prints r G2.
Proof. apply omap_app. Qed.

Lemma prints_cons r e G : prints r (e :: G) = prints r [e] ++ prints r G.
Proof. apply (prints_app _ [e]). Qed.

Lemma silent_prints r G : proj r G = [] → prints r G = [].
Proof.
  induction G as [|e G IH]; [done|]. rewrite proj_cons. intros [He HG]%app_nil.
  destruct e; simpl in *; try auto. case_decide; [done|auto].
Qed.

(** When the other has no part in what the first is ahead by, they are level, and either
    may be said to be ahead. *)
Lemma inv_swap G0 a G1 G2 s : inv_at G0 a G1 G2 s → proj (other a) G1 = [] → inv_at G0 (other a) [] G2 s.
Proof.
  intros [] Hsil. pose proof (silent_no_msg _ _ Hsil) as Hno.
  split; rewrite ?other_other ?app_nil_l.
  - by eapply sound_app_r.
  - by constructor.
  - done.
  - by rewrite proj_app Hsil in i_behind0.
  - intros c. rewrite i_empty0 chunks_none //.
  - intros c. by rewrite i_queue0 chunks_none.
  - done.
  - by rewrite prints_app (silent_prints _ _ Hsil) in i_out_behind0.
  - done.
  - intros c Hc. specialize (i_closed_behind0 c Hc). by apply Forall_app in i_closed_behind0 as [_ ?].
Qed.

Lemma left_over_swap a G1 G2 : proj (other a) G1 = [] → left_over (other a) [] G2 = left_over a G1 G2.
Proof. intros H. unfold left_over. rewrite other_other app_nil_l proj_app H. simpl. lia. Qed.

Lemma upd_eq {A} r (x : A) f : upd r x f r = x.
Proof. unfold upd. by rewrite decide_True. Qed.
Lemma upd_ne {A} r r' (x : A) f : r' ≠ r → upd r x f r' = f r'.
Proof. intros. unfold upd. by rewrite decide_False. Qed.
Lemma updc_eq {A} c (x : A) f : updc c x f c = x.
Proof. unfold updc. by rewrite decide_True. Qed.
Lemma updc_ne {A} c c' (x : A) f : c' ≠ c → updc c x f c' = f c'.
Proof. intros. unfold updc. by rewrite decide_False. Qed.

Lemma weight_cons x l : weight (x :: l) = (act_weight x + weight l)%nat.
Proof. done. Qed.
Lemma weight_none r : weight (proj r []) = 0%nat.
Proof. done. Qed.
Lemma weight_app l1 l2 : weight (l1 ++ l2) = (weight l1 + weight l2)%nat.
Proof. unfold weight. rewrite fmap_app. induction (act_weight <$> l1) as [|x l IH]; simpl; lia. Qed.

Lemma written_snoc r r' t o : written r (o ++ [(r', t)]) = written r o ++ (if decide (r' = r) then [t] else []).
Proof.
  unfold written. rewrite filter_app fmap_app. f_equal. case_decide; [by rewrite filter_cons_True|by rewrite filter_cons_False].
Qed.

(** A part of what the process in front does is in its part alone. *)
Lemma part_inv r e x : part r e = [x] →
  match x with
  | ASend c bs => e = GMsg r c bs
  | ARecv c bs => e = GMsg (other r) c bs
  | AClose c => e = GClose r c
  | APrint t => e = GPrint r t
  | AWait st => e = GWait r ∧ st = status (other r)
  end.
Proof.
  destruct e as [r' c bs|r' c|r' t|r']; simpl; case_decide; intros [= <-]; subst; try done.
  f_equal. by destruct r, r'.
Qed.

(** A channel with nothing in it gives nothing. *)
Lemma dequeue_empty c n bs q : ¬ dequeue c n [] bs q.
Proof. by inversion 1; simplify_eq/=; [lia|..]. Qed.

(** Nothing ends while a message is to come. *)
Lemma not_at_end s r c bs k (G : list global) :
  follows (cur s (other r)) (proj (other r) G) k → GMsg (other r) c bs ∈ G →
  (closed s (other r) c = true → Forall (λ e, ¬ sent_on (other r) c e) G) → ¬ at_end s r c.
Proof.
  intros Hf Hin Hcl (_ & [Hc|[st Hst]] & _ & _).
  - specialize (Hcl Hc). rewrite Forall_forall in Hcl. by apply (Hcl _ Hin).
  - rewrite Hst in Hf. destruct Hf as [Hp _]. apply list_elem_of_split in Hin as (G1 & G2 & ->).
    rewrite proj_app proj_cons in Hp. apply app_nil in Hp as [_ Hp]. apply app_nil in Hp as [Hp _].
    simpl in Hp. by rewrite decide_True in Hp.
Qed.

Ltac here := rewrite ?upd_eq ?updc_eq ?upd_ne ?updc_ne //.

(** The process in front goes on: it is further ahead by [pre ++ [e]]. *)
Lemma front_inv G0 a G1 G2 s pre e G2' x s' : inv_at G0 a G1 G2 s → G2 = pre ++ e :: G2' → proj a pre = [] → part a e = [x] → act_weight x = 1%nat →
  (match e with GMsg r _ _ => r = a | _ => True end) →
  cur s' (other a) = cur s (other a) → follows (cur s' a) (proj a G2') (status a) →
  (∀ c, queue s' (other a) c = chunks a c (G1 ++ pre ++ [e])) → (∀ c, queue s' a c = []) →
  output (other a) s' = output (other a) s → output a s' = output a s ++ prints a [e] →
  (∀ c, closed s' (other a) c = closed s (other a) c) → (∀ c, closed s' a c = true → Forall (λ e, ¬ sent_on a c e) G2') →
  inv_at G0 a (G1 ++ pre ++ [e]) G2' s' ∧ (left_over a (G1 ++ pre ++ [e]) G2' < left_over a G1 G2)%nat.
Proof.
  intros I. pose proof I as [Hs Hmine Hb Ha Hq He Hob Hoa Hcb Hca].
  intros HG2 Hpre Hpart Hw Hme Hcur' Hf Hq' He' Ho' Hoa' Hc' Hca'.
  pose proof (silent_no_msg _ _ Hpre) as Hno.
  assert (G1 ++ pre ++ e :: G2' = (G1 ++ pre ++ [e]) ++ G2') as E by by rewrite -!app_assoc.
  rewrite HG2 in Hs Ha Hb Hob Hoa Hcb.
  split; [split|]; rewrite -?E ?Hcur' ?Ho' ?Hoa' //.
  - rewrite !Forall_app Forall_singleton. split_and!; [done| |done].
    eapply Forall_impl; [exact Hno|]. intros [] Hn; simpl in *; tauto.
  - rewrite -app_assoc -Hoa (prints_app a pre) (silent_prints _ _ Hpre) (prints_app a [e] G2') //.
  - intros c. rewrite Hc'. apply Hcb.
  - unfold left_over. rewrite HG2 -E (proj_app a pre) Hpre proj_cons Hpart /= weight_cons. lia.
Qed.

Lemma front_step G0 a G1 G2 s s' : inv_at G0 a G1 G2 s → step s a s' →
  ∃ G1' G2', inv_at G0 a G1' G2' s' ∧ (left_over a G1' G2' < left_over a G1 G2)%nat.
Proof.
  intros I. pose proof I as [Hs Hmine Hb Ha Hq He Hob Hoa Hcb Hca]. intros Hstep.
  assert (∃ x l, proj a G2 = x :: l) as (x & l & Hx).
  { inversion Hstep; subst; rewrite H in Ha; simpl in Ha; naive_solver. }
  destruct (proj_split _ _ _ _ Hx) as (pre & e & G2' & HG2 & Hpre & Hpart & <-).
  apply part_inv in Hpart as Hinv. rewrite Hx in Ha. pose proof (silent_no_msg _ _ Hpre) as Hno.
  assert (∀ c, Forall (λ e, ¬ is_msg e) [e] → chunks a c (G1 ++ pre ++ [e]) = queue s (other a) c) as Hsame.
  { intros c Hn. rewrite Hq /chunks !msgs_app (no_msgs _ _ pre) // (no_msgs _ _ [e]) // !app_nil_r //. }
  assert (∀ c, closed s a c = true → Forall (λ e, ¬ sent_on a c e) G2') as Hca2.
  { intros c Hc. specialize (Hca c Hc). rewrite HG2 in Hca. apply Forall_app in Hca as [_ Hca]. by inversion Hca. }
  assert (a ≠ other a) as Hoth by by destruct a.
  exists (G1 ++ pre ++ [e]), G2'. inversion Hstep; subst s' r; rewrite H in Ha; simpl in Ha.
  - destruct Ha as (l' & [= -> <-] & Hbs & Hk). subst e.
    apply (front_inv _ _ _ _ _ _ _ _ _ _ I HG2 Hpre Hpart); rewrite /output; cbn [cur queue closed out]; here.
    + intros c'. rewrite app_assoc chunks_send // Hq. destruct (decide (c' = c)) as [->|Hc]; here.
      * rewrite /chunks msgs_app (no_msgs _ _ pre) // app_nil_r //.
      * rewrite Hq /chunks msgs_app (no_msgs _ _ pre) // app_nil_r //.
    + by rewrite app_nil_r.
  - exfalso. rewrite He in H0. by eapply dequeue_empty.
  - exfalso. destruct Ha as (bs & l' & [= -> <-] & _ & _). subst e. eapply (not_at_end s a c bs); eauto. rewrite HG2. set_solver.
  - destruct Ha as (l' & [= -> <-] & Hk). subst e.
    apply (front_inv _ _ _ _ _ _ _ _ _ _ I HG2 Hpre Hpart); rewrite /output; cbn [cur queue closed out]; here.
    + intros c'. rewrite Hsame //. apply Forall_singleton. simpl. tauto.
    + by rewrite app_nil_r.
    + intros c'. destruct (decide (c' = c)) as [->|Hc]; here; [|apply Hca2]. intros _.
      rewrite HG2 app_assoc in Hs. apply sound_app_r in Hs. by destruct Hs.
  - destruct Ha as (l' & [= -> <-] & Hk). subst e.
    apply (front_inv _ _ _ _ _ _ _ _ _ _ I HG2 Hpre Hpart); rewrite /output; cbn [cur queue closed out]; rewrite ?written_snoc; here.
    + intros c'. rewrite Hsame //. apply Forall_singleton. simpl. tauto.
    + by rewrite decide_False // app_nil_r.
    + rewrite /= !decide_True //.
  - destruct Ha as (st' & l' & [= -> <-] & Hk). destruct Hinv as [-> ->].
    rewrite H0 in Hb. destruct Hb as [_ ->].
    apply (front_inv _ _ _ _ _ _ _ _ _ _ I HG2 Hpre Hpart); rewrite /output; cbn [cur queue closed out]; here.
    + intros c'. rewrite Hsame //. apply Forall_singleton. simpl. tauto.
    + by rewrite app_nil_r.
Qed.

(** The process behind goes on: of what it is behind by, [pre ++ [e]] goes, all but [R]. *)
Lemma behind_inv G0 a G1 G2 s pre e G1' R x s' : inv_at G0 a G1 G2 s → G1 = pre ++ e :: G1' →
  proj (other a) pre = [] → part (other a) e = [x] →
  sound (R ++ G1' ++ G2) → Forall (λ e, match e with GMsg r _ _ => r = a | _ => False end) R →
  (weight (proj (other a) R) < act_weight x)%nat →
  cur s' a = cur s a → follows (cur s' (other a)) (proj (other a) (R ++ G1' ++ G2)) (status (other a)) →
  (∀ c, queue s' (other a) c = chunks a c (R ++ G1')) → (∀ c, queue s' a c = []) →
  output a s' = output a s → output (other a) s' = output (other a) s ++ prints (other a) [e] →
  (∀ c, closed s' a c = closed s a c) →
  (∀ c, closed s' (other a) c = true → Forall (λ e, ¬ sent_on (other a) c e) (G1' ++ G2)) →
  inv_at G0 a (R ++ G1') G2 s' ∧ (left_over a (R ++ G1') G2 < left_over a G1 G2)%nat.
Proof.
  intros I. pose proof I as [Hs Hmine Hb Ha Hq He Hob Hoa Hcb Hca].
  intros HG1 Hpre Hpart HsR HR Hw Hcur' Hf Hq' He' Hoa' Ho' Hc' Hcb'.
  rewrite HG1 in Hs Hob Hcb Hmine.
  assert (prints (other a) R = []) as HpR.
  { clear -HR. induction HR as [|e R He HR IH]; [done|]. destruct e; simpl in *; [done|tauto..]. }
  split; [split|]; rewrite -?app_assoc ?Hcur' ?Ho' ?Hoa' //.
  - rewrite Forall_app. split; [eapply Forall_impl; [exact HR|]; by intros []|].
    apply Forall_app in Hmine as [_ Hmine]. by inversion Hmine.
  - rewrite -app_assoc -Hob prints_app HpR -app_assoc (prints_app _ pre) (silent_prints _ _ Hpre) -app_comm_cons (prints_cons _ e (G1' ++ G2)) -?app_assoc //.
  - intros c Hc. apply Forall_app. split; [|by apply Hcb'].
    eapply Forall_impl; [exact HR|]. intros [] Hr; simpl; [|tauto..]. intros [-> _]. by destruct a.
  - intros c. rewrite Hc'. apply Hca.
  - unfold left_over. rewrite HG1 -!app_assoc !proj_app Hpre proj_cons Hpart !weight_app weight_cons. change (weight []) with 0%nat. lia.
Qed.

Lemma concat_cons_msgs r c bs G : concat (msgs r c (GMsg r c bs :: G)) = bs ++ concat (msgs r c G).
Proof. simpl. by rewrite decide_True. Qed.

(** What is taken from a channel is the beginning of the first message. *)
Lemma dequeue_front a c m G n bs q : m ≠ [] → (c_kind c = KPipe → Forall (λ e, ¬ is_msg_on c e) G) →
  dequeue c n (chunks a c (GMsg a c m :: G)) bs q →
  match c_kind c with
  | KStream => ∃ j, (0 < j ≤ n)%nat ∧ ((n ≤ length m)%nat → bs = take j m ∧ q = norm (drop j m ++ concat (msgs a c G)))
  | _ => (length m ≤ n)%nat → bs = m ∧ q = chunks a c G
  end.
Proof.
  intros Hm Hp. unfold chunks. inversion 1 as [j Hk Hj Hl Hbs Hq|Hk Hne Hbs Hq|m' q' Hk E Hbs Hq]; rewrite Hk.
  - rewrite Hk concat_norm concat_cons_msgs in Hbs, Hq |- *. exists j. split; [done|]. intros Hn.
    by rewrite take_app_le ?drop_app_le; [|lia..].
  - intros Hn. rewrite Hk in Hbs, Hq |- *. assert (msgs a c G = []) as HG.
    { specialize (Hp Hk). clear -Hp. induction Hp as [|e G He HG IH]; [done|]. destruct e; simpl in *; try done.
      rewrite decide_False; [done|]. by intros [_ ->]. }
    rewrite concat_cons_msgs HG /= app_nil_r take_ge // drop_ge //.
  - intros Hn. rewrite Hk /= decide_True // in E. injection E as <- <-. by rewrite take_ge.
Qed.

(** What an action without a message leaves to show. *)
Ltac alone_parts :=
  try match goal with
  | H : sound (?e :: _) |- sound ([] ++ _) => exact (sound_app_r [e] _ H)
  | |- (weight (proj _ []) < _)%nat => rewrite weight_none; simpl; lia
  | H : ∀ c, ¬ is_msg _ → _ |- ∀ c, _ = chunks _ _ _ => intros ?; apply H; simpl; tauto
  | |- ?l = ?l ++ _ => by rewrite app_nil_r
  end.

(** The process behind reads the beginning of the first message it has not read. *)
Section behind_reads.
Context (G0 G1 G2 G1' pre : list global) (a : role) (s : state) (c : chan) (m : list ascii).
Context (I : inv_at G0 a G1 G2 s) (HG1 : G1 = pre ++ GMsg a c m :: G1') (Hpre : proj (other a) pre = []).
Context (Hqe : ∀ c', queue s (other a) c' = chunks a c' (GMsg a c m :: G1')) (Hse : sound (GMsg a c m :: G1' ++ G2)).
Context (Hcb2 : ∀ c', closed s (other a) c' = true → Forall (λ e, ¬ sent_on (other a) c' e) (G1' ++ G2)).
Notation reads k q := (State (upd (other a) k (cur s)) (upd (other a) (updc c q (queue s (other a))) (queue s)) (closed s) (out s)).
Notation goes_on s' := (∃ G1'', inv_at G0 a G1'' G2 s' ∧ (left_over a G1'' G2 < left_over a G1 G2)%nat).

Lemma part_msg : part (other a) (GMsg a c m) = [ARecv c m].
Proof. simpl. rewrite decide_False //. by destruct a. Qed.

Lemma reads_message k : follows k (proj (other a) (G1' ++ G2)) (status (other a)) → goes_on (reads k (chunks a c G1')).
Proof.
  intros Hk. assert (a ≠ other a) as Hoth by by destruct a. pose proof Hse as (Hm & _ & Hs). pose proof (i_empty _ _ _ _ _ I) as He. exists ([] ++ G1').
  apply (behind_inv _ _ _ _ _ _ _ _ [] _ _ I HG1 Hpre part_msg); rewrite /output; cbn [cur queue closed out]; here.
  - rewrite weight_none. destruct m; [done|simpl; lia].
  - intros c'. destruct (decide (c' = c)) as [->|Hc]; here. rewrite Hqe. by apply chunks_other.
  - by rewrite app_nil_r.
Qed.

Lemma reads_part k j : c_kind c = KStream → (0 < j)%nat →
  follows k (match drop j m with [] => proj (other a) (G1' ++ G2) | rest => ARecv c rest :: proj (other a) (G1' ++ G2) end) (status (other a)) →
  goes_on (reads k (norm (drop j m ++ concat (msgs a c G1')))).
Proof.
  intros Ek Hj Hk. assert (a ≠ other a) as Hoth by by destruct a. pose proof Hse as (Hm & _ & Hs). pose proof (i_empty _ _ _ _ _ I) as He.
  exists ((match drop j m with [] => [] | rest => [GMsg a c rest] end) ++ G1').
  apply (behind_inv _ _ _ _ _ _ _ _ _ _ _ I HG1 Hpre part_msg); rewrite /output; cbn [cur queue closed out]; here.
  - destruct (drop j m); [done|]. simpl. by rewrite Ek.
  - destruct (drop j m); [by constructor|by apply Forall_singleton].
  - assert (length (drop j m) < length m)%nat as Hlt by (rewrite length_drop; destruct m; [done|simpl in *; lia]).
    revert Hlt. generalize (drop j m). intros [|b bs] Hlt; [rewrite weight_none|]; cbn [act_weight].
    + lia.
    + unfold weight. simpl. rewrite decide_False //=. simpl in Hlt. lia.
  - destruct (drop j m); [done|]. simpl. rewrite decide_False //.
  - intros c'. destruct (decide (c' = c)) as [->|Hc]; here.
    + unfold chunks. rewrite Ek. destruct (drop j m); [done|]. by rewrite concat_cons_msgs.
    + rewrite Hqe chunks_other //. destruct (drop j m); [done|]. by rewrite chunks_other.
  - by rewrite app_nil_r.
Qed.

Lemma behind_reads n k bs q : follows (Recv c n k) (ARecv c m :: proj (other a) (G1' ++ G2)) (status (other a)) →
  dequeue c n (queue s (other a) c) bs q → goes_on (reads (k bs) q).
Proof.
  intros (m' & l' & [= <- <-] & Hn & Hk) Hd. pose proof Hse as (Hm & Hpipe & _). rewrite Hqe in Hd.
  apply dequeue_front in Hd; [|done|intros Hk'; specialize (Hpipe Hk'); by apply Forall_app in Hpipe as [??]].
  destruct (c_kind c) eqn:Ek; destruct Hk as [Hl Hk].
  1,3: destruct (Hd Hl) as [-> ->]; by apply reads_message.
  destruct Hd as (j & Hj & HH). destruct (HH Hl) as [-> ->]. by apply reads_part; [|lia|apply Hk].
Qed.
End behind_reads.

Lemma behind_step G0 a G1 G2 s s' : inv_at G0 a G1 G2 s → proj (other a) G1 ≠ [] → step s (other a) s' →
  ∃ G1', inv_at G0 a G1' G2 s' ∧ (left_over a G1' G2 < left_over a G1 G2)%nat.
Proof.
  intros I Hne Hstep. pose proof I as [Hs Hmine Hb Ha Hq He Hob Hoa Hcb Hca].
  destruct (proj (other a) G1) as [|x l] eqn:Hx; [done|]. clear Hne.
  destruct (proj_split _ _ _ _ Hx) as (pre & e & G1' & HG1 & Hpre & Hpart & <-).
  apply part_inv in Hpart as Hinv. rewrite proj_app Hx -app_comm_cons -proj_app in Hb.
  pose proof (silent_no_msg _ _ Hpre) as Hno.
  assert (sound (e :: G1' ++ G2)) as Hse by (rewrite HG1 -app_assoc in Hs; by apply sound_app_r in Hs).
  assert (∀ c, queue s (other a) c = chunks a c (e :: G1')) as Hqe by (intros c; by rewrite Hq HG1 chunks_silent).
  assert (∀ c, ¬ is_msg e → queue s (other a) c = chunks a c G1') as Hqn.
  { intros c Hn. rewrite Hqe. apply (chunks_silent _ _ [e]). by apply Forall_singleton. }
  assert (∀ c, closed s (other a) c = true → Forall (λ e, ¬ sent_on (other a) c e) (G1' ++ G2)) as Hcb2.
  { intros c Hc. specialize (Hcb c Hc). rewrite HG1 -app_assoc in Hcb. apply Forall_app in Hcb as [_ Hcb]. by inversion Hcb. }
  assert (a ≠ other a) as Hoth by by destruct a.
  inversion Hstep; subst s' r; rewrite H in Hb; simpl in Hb; rewrite ?other_other.
  - exfalso. destruct Hb as (l' & [= -> <-] & _). subst e. rewrite HG1 in Hmine. apply Forall_app in Hmine as [_ Hmine].
    inversion Hmine; subst. by destruct a.
  - pose proof Hb as (m & l' & [= -> <-] & _). rewrite other_other in Hinv. subst e. by eapply behind_reads.
  - exfalso. destruct Hb as (m & l' & [= -> <-] & _). rewrite other_other in Hinv. subst e.
    destruct H0 as (Hq0 & _). rewrite Hqe in Hq0. apply (f_equal (@concat ascii)) in Hq0. rewrite concat_chunks concat_cons_msgs /= in Hq0.
    destruct Hse as [Hm _]. by apply app_nil in Hq0 as [-> _].
  - destruct Hb as (l' & [= -> <-] & Hk). subst e. exists ([] ++ G1').
    apply (behind_inv _ _ _ _ _ _ _ _ [] _ _ I HG1 Hpre Hpart); rewrite /output; cbn [cur queue closed out]; here; alone_parts.
    intros c'. destruct (decide (c' = c)) as [->|Hc]; here; [|apply Hcb2]. by destruct Hse.
  - destruct Hb as (l' & [= -> <-] & Hk). subst e. exists ([] ++ G1').
    apply (behind_inv _ _ _ _ _ _ _ _ [] _ _ I HG1 Hpre Hpart); rewrite /output; cbn [cur queue closed out]; rewrite ?written_snoc; here; alone_parts.
    + by rewrite decide_False // app_nil_r.
    + rewrite /= !decide_True //.
  - destruct Hb as (st' & l' & [= -> <-] & Hk). destruct Hinv as [-> ->]. rewrite other_other in H0. rewrite other_other in Hk.
    rewrite H0 in Ha. destruct Ha as [_ ->]. exists ([] ++ G1').
    apply (behind_inv _ _ _ _ _ _ _ _ [] _ _ I HG1 Hpre Hpart); rewrite /output; cbn [cur queue closed out]; here; alone_parts.
Qed.

Lemma inv_step G0 k s r s' : inv G0 k s → step s r s' → ∃ k', inv G0 k' s' ∧ (k' < k)%nat.
Proof.
  intros (a & G1 & G2 & I & <-) Hs.
  destruct (decide (r = a)) as [->|Hr].
  { destruct (front_step _ _ _ _ _ _ I Hs) as (G1' & G2' & I' & Hw). by exists (left_over a G1' G2'); split; [exists a, G1', G2'|]. }
  assert (r = other a) as -> by (by destruct r, a).
  destruct (decide (proj (other a) G1 = [])) as [Hsil|Hne].
  - pose proof (inv_swap _ _ _ _ _ I Hsil) as I2. rewrite -(left_over_swap _ _ _ Hsil).
    destruct (front_step _ _ _ _ _ _ I2 Hs) as (G1' & G2' & I' & Hw).
    by exists (left_over (other a) G1' G2'); split; [exists (other a), G1', G2'|].
  - destruct (behind_step _ _ _ _ _ _ I Hne Hs) as (G1' & I' & Hw).
    by exists (left_over a G1' G2); split; [exists a, G1', G2|].
Qed.

(** Both have ended. *)
Definition ended (s : state) : Prop := ∀ r, cur s r = Exit (status r).

Lemma follows_end p st : follows p [] st → p = Exit st.
Proof. destruct p; simpl; naive_solver. Qed.

Lemma alone_no_wait G : Forall alone G → Forall (λ e, ¬ is_msg e) G.
Proof. intros H. eapply Forall_impl; [exact H|]. intros []; simpl; tauto. Qed.

(** A process whose next action needs nobody can take it. *)
Lemma step_now s r x l : follows (cur s r) (x :: l) (status r) →
  match x with ASend _ _ | AClose _ | APrint _ => True | _ => False end → ∃ s', step s r s'.
Proof.
  intros Hf Hx. destruct (cur s r) eqn:E; simpl in Hf; destruct_and?; try done; try naive_solver.
  - eexists. by eapply step_send.
  - eexists. by eapply step_close.
  - eexists. by eapply step_print.
Qed.

(** A message that lies in the channel can be read. *)
Lemma step_read s r c m l G : follows (cur s r) (ARecv c m :: l) (status r) → m ≠ [] →
  (c_kind c = KPipe → Forall (λ e, ¬ is_msg_on c e) G) → queue s r c = chunks (other r) c (GMsg (other r) c m :: G) → ∃ s', step s r s'.
Proof.
  intros Hf Hm Hp Hq. destruct (cur s r) as [|?? |c' n k| | | |] eqn:E; simpl in Hf; try naive_solver.
  destruct Hf as (m' & l' & [= <- <- <-] & Hn & _).
  assert (∃ bs q, dequeue c n (queue s r c) bs q) as (bs & q & Hd).
  { rewrite Hq. unfold chunks. destruct (c_kind c) eqn:Ek.
    - eexists _, _. apply deq_pipe; [done|]. simpl. by rewrite decide_True.
    - eexists _, _. eapply (deq_stream _ _ _ 1); [done|lia|]. rewrite concat_norm concat_cons_msgs length_app.
      destruct m; [done|simpl; lia].
    - simpl. rewrite decide_True //. eexists _, _. by eapply deq_datagram. }
  eexists. by eapply step_recv.
Qed.

Lemma step_collect s r x l : follows (cur s r) (AWait x :: l) (status r) → cur s (other r) = Exit (status (other r)) → ∃ s', step s r s'.
Proof.
  intros Hf Ho. destruct (cur s r) as [| | | | |k|] eqn:E; simpl in Hf; try naive_solver. eexists. by eapply step_wait.
Qed.

(** What is left when only closing, printing and one wait remain. *)
Lemma proj_alone r G x l : Forall alone G → proj r G = x :: l → match x with ASend _ _ | AClose _ | APrint _ => True | _ => False end.
Proof.
  intros HG Hx. destruct (proj_split _ _ _ _ Hx) as (pre & e & G' & -> & _ & Hp & _).
  apply Forall_app in HG as [_ HG]. inversion HG as [|? ? He]; subst. destruct e; simpl in *; try done; case_decide; by simplify_eq.
Qed.

(** Someone who waits for the other, whose part is nothing but closing and printing. *)
Lemma wait_progress s r x l G : follows (cur s r) (AWait x :: l) (status r) →
  follows (cur s (other r)) (proj (other r) G) (status (other r)) → Forall alone G → ∃ r' s', step s r' s'.
Proof.
  intros Hr Ho HG. destruct (proj (other r) G) as [|y l'] eqn:Ey.
  - exists r. eapply step_collect; [exact Hr|]. by apply follows_end.
  - exists (other r). eapply step_now; [exact Ho|]. by eapply proj_alone.
Qed.

(** Nobody is stuck. *)
Lemma inv_progress G0 k s : inv G0 k s → ended s ∨ ∃ r s', step s r s'.
Proof.
  intros (a & G1 & G2 & I & _). pose proof I as [Hs Hmine Hb Ha Hq _ _ _ _ _].
  destruct (proj (other a) G1) as [|x l] eqn:Ex.
  - assert (∀ r, follows (cur s r) (proj r G2) (status r)) as Hf.
    { intros r. destruct (decide (r = a)) as [->|]; [done|]. assert (r = other a) as -> by by destruct r, a.
      by rewrite proj_app Ex in Hb. }
    apply sound_app_r in Hs. destruct G2 as [|e G2].
    { left. intros r. apply follows_end, Hf. }
    right. destruct e as [r c bs|r c|r t|r].
    + exists r. specialize (Hf r). rewrite proj_cons /= decide_True // in Hf. by eapply step_now.
    + exists r. specialize (Hf r). rewrite proj_cons /= decide_True // in Hf. by eapply step_now.
    + exists r. specialize (Hf r). rewrite proj_cons /= decide_True // in Hf. by eapply step_now.
    + destruct Hs as [HG _]. pose proof (Hf r) as Hr. pose proof (Hf (other r)) as Ho. rewrite !proj_cons /= in Hr, Ho.
      rewrite decide_True // in Hr. rewrite decide_False in Ho; [|by destruct r]. by eapply wait_progress.
  - right. destruct (proj_split _ _ _ _ Ex) as (pre & e & G1' & HG1 & Hpre & Hp & _). apply part_inv in Hp.
    rewrite proj_app Ex -app_comm_cons in Hb. rewrite HG1 -app_assoc in Hs. apply sound_app_r in Hs as Hs'.
    destruct x; try (by exists (other a); eapply step_now).
    + rewrite other_other in Hp. subst e. destruct Hs' as (Hm & Hpp & _). exists (other a).
      eapply (step_read _ _ _ _ _ G1'); [exact Hb|done| |].
      * intros Hk. specialize (Hpp Hk). by apply Forall_app in Hpp as [? _].
      * rewrite other_other Hq HG1 chunks_silent //. by eapply silent_no_msg.
    + destruct Hp as [-> ->]. destruct Hs' as [HG _]. apply Forall_app in HG as [_ HG].
      eapply wait_progress; [exact Hb| |exact HG]. by rewrite other_other.
Qed.

(** ** Conversations as specifications

    Whatever the order in which the two processes go on and the parts in which the streams
    deliver what is sent: a run is bounded, nobody is stuck and nothing undefined, the run
    can be carried to its end, what a process has written is the beginning of what the
    conversation says, and at the end all of it, with nothing left in the channels. *)
Definition holds_conversation (G : list global) (parent child : proc) : Prop :=
  ∀ tr s, run step (forked parent child) tr s →
    (length tr ≤ weight (proj Parent G) + weight (proj Child G))%nat ∧
    (∀ r, cur s r ≠ Undefined) ∧
    (ended s ∨ ∃ r s', step s r s') ∧
    (∃ tr' s', run step s tr' s' ∧ ended s') ∧
    (∀ r, ∃ rest, output r s ++ rest = prints r G) ∧
    (ended s → ∀ r, output r s = prints r G ∧ ∀ c, queue s r c = []).

Lemma inv_forked G parent child :
  sound G → follows parent (proj Parent G) (status Parent) → follows child (proj Child G) (status Child) →
  inv G (weight (proj Parent G) + weight (proj Child G)) (forked parent child).
Proof.
  intros HG Hp Hc. exists Parent, [], G. split; [|unfold left_over; simpl; lia].
  split; try done; simpl; intros c; unfold chunks; by destruct (c_kind c).
Qed.

Lemma inv_run G k s tr s' : inv G k s → run step s tr s' → ∃ k', inv G k' s' ∧ (k' + length tr ≤ k)%nat.
Proof.
  intros I. induction 1 as [|tr s1 r s2 Hr (k1 & I1 & Hk1) Hs]; [exists k; simpl; auto with lia|].
  destruct (inv_step _ _ _ _ _ I1 Hs) as (k2 & I2 & Hk2). exists k2. split; [done|]. rewrite length_app. simpl. lia.
Qed.

Lemma inv_ends G k s : inv G k s → ∃ tr s', run step s tr s' ∧ ended s'.
Proof.
  revert s. induction (lt_wf k) as [k _ IH]. intros s I. destruct (inv_progress _ _ _ I) as [He|(r & s1 & Hs)].
  - exists [], s. split; [apply run_start|done].
  - destruct (inv_step _ _ _ _ _ I Hs) as (k1 & I1 & Hk1). destruct (IH k1 Hk1 s1 I1) as (tr & s2 & Hr & He).
    exists (r :: tr), s2. split; [by eapply run_cons|done].
Qed.

Lemma inv_output G k s r : inv G k s → ∃ rest, output r s ++ rest = prints r G.
Proof.
  intros (a & G1 & G2 & [] & _). destruct (decide (r = a)) as [->|]; [by eexists|].
  assert (r = other a) as -> by (by destruct r, a). by eexists.
Qed.

Lemma inv_defined G k s r : inv G k s → cur s r ≠ Undefined.
Proof.
  intros (a & G1 & G2 & [] & _) E. destruct (decide (r = a)) as [->|]; [by rewrite E in i_ahead0|].
  assert (r = other a) as -> by (by destruct r, a). by rewrite E in i_behind0.
Qed.

Lemma inv_ended G k s r : inv G k s → ended s → output r s = prints r G ∧ ∀ c, queue s r c = [].
Proof.
  intros (a & G1 & G2 & [] & _) He. rewrite (He a) in i_ahead0. rewrite (He (other a)) in i_behind0.
  destruct i_ahead0 as [Ea _], i_behind0 as [Eb _]. rewrite proj_app in Eb. apply app_nil in Eb as [E1 E2].
  pose proof (silent_no_msg _ _ E1) as Hno.
  rewrite (silent_prints _ _ Ea) app_nil_r in i_out_ahead0.
  rewrite prints_app (silent_prints _ _ E1) (silent_prints _ _ E2) !app_nil_r in i_out_behind0.
  destruct (decide (r = a)) as [->|]; [by split; [|intros c; apply i_empty0]|]. assert (r = other a) as -> by (by destruct r, a).
  split; [done|]. intros c. rewrite i_queue0. by apply chunks_none.
Qed.

Lemma conversation_sound G parent child :
  sound G → follows parent (proj Parent G) (status Parent) → follows child (proj Child G) (status Child) →
  holds_conversation G parent child.
Proof.
  intros HG Hp Hc tr s Hr. destruct (inv_run _ _ _ _ _ (inv_forked _ _ _ HG Hp Hc) Hr) as (k & I & Hk).
  split_and!; [lia|intros r; by eapply inv_defined|by eapply inv_progress|by eapply inv_ends|intros r; by eapply inv_output|].
  intros He r. by eapply inv_ended.
Qed.
End conversation.

(** The part of a process in a list of actions. *)
Ltac parts :=
  rewrite ?app_nil_l; repeat first
    [ rewrite proj_send | rewrite proj_receive; [|done]
    | rewrite proj_print | rewrite proj_print_other; [|done]
    | rewrite proj_close | rewrite proj_close_other; [|done]
    | rewrite proj_wait | rewrite proj_wait_other; [|done]
    | rewrite app_nil_l | rewrite -app_comm_cons ].

(** [snprintf(buf, size, fmt, ...)]. *)
Definition snprintf (size : nat) (fmt : string) (args : list parg) : cmd string :=
  match format fmt args with Some s => mret (take_str (size - 1) s) | None => undef end.

(** ** A command against the action it performs *)

Lemma follows_print fmt args l st k : is_Some (format fmt args) → follows (k tt) l st →
  follows (print fmt args k) (APrint (line fmt args) :: l) st.
Proof. intros [s Hs] Hl. unfold print, line. rewrite Hs. by eexists. Qed.
Lemma follows_close c l st k : follows (k tt) l st → follows (close c k) (AClose c :: l) st.
Proof. intros Hl. by eexists. Qed.
Lemma follows_wait s l st k : follows (k s) l st → follows (waitpid k) (AWait s :: l) st.
Proof. intros Hl. by eexists _, _. Qed.
Lemma follows_send c bs l st k : bs ≠ [] → follows (k tt) l st → follows (send c bs k) (ASend c bs :: l) st.
Proof. intros Hb Hf. by eexists. Qed.

(** A message of a pipe or a datagram that fits is received as it was sent. *)
Lemma follows_recv c n bs l st k : c_kind c ≠ KStream → (0 < n)%nat → (length bs ≤ n)%nat →
  follows (k bs) l st → follows (recv c n k) (ARecv c bs :: l) st.
Proof. intros Hk Hn Hl Hf. exists bs, l. split; [done|]. split; [done|]. by destruct (c_kind c). Qed.

Lemma follows_snprintf size fmt args t l st k : format fmt args = Some t → (String.length t < size)%nat →
  follows (k t) l st → follows (snprintf size fmt args k) l st.
Proof. intros Ht Hn Hl. unfold snprintf. rewrite Ht take_str_fits; [done|lia]. Qed.

Ltac unbind := cbv beta zeta; rewrite ?cmd_bind_run.
Ltac follow :=
  unbind; first [ apply follows_close | apply follows_wait | apply follows_print; [by eexists|] ]; unbind.

(** Closed lists of actions and their conditions. *)
Ltac concrete := repeat first [done | split | constructor | (intros ?; discriminate) | (cbn; naive_solver)].

(** ** Programs that fork

    The parts of a program in order: those of one process, and those that fork, with the
    two processes they become; the next part begins when the parent is at the end of its
    own.  [Forks] may fail to fork, and goes on without a child. *)
Inductive piece := Alone (m : M Empty_set unit) | Forked (m : M Empty_set state) | Forks (m : M Empty_set (option state)).

Definition forking (p : piece) : M Empty_set (option state) :=
  match p with
  | Alone m => m ;;; ret None
  | Forked m => s <- m ;; ret (Some s)
  | Forks m => m
  end.

(** What the program writes: what each part does before it forks, and what the two
    processes write, in an order that they choose. *)
Inductive session : list piece → list string → Prop :=
  | session_end : session [] []
  | session_alone p ps o w t : forking p (empty_world some_allocator) = Ret None o w → session ps t →
      session (p :: ps) (stdout o :: t)
  | session_fork p ps o w s0 tr s t : forking p (empty_world some_allocator) = Ret (Some s0) o w → run step s0 tr s →
      (∀ r, ∃ st, cur s r = Exit st) → session ps t → session (p :: ps) (stdout o :: (out s).*2 ++ t)
  | session_exit p ps c o w : forking p (empty_world some_allocator) = Machine.Exit c o w → session (p :: ps) [stdout o].

(** The specification of a part: what it writes before it forks and the conversation of
    the two processes, which end with the statuses given. *)
Definition spec : Type := string * option ((role → Z) * list global).
Definition describes (p : piece) (sp : spec) : Prop :=
  match sp with
  | (t, None) => ∃ o w, forking p (empty_world some_allocator) = Ret None o w ∧ stdout o = t
  | (t, Some (status, G)) => ∃ parent child o w,
      forking p (empty_world some_allocator) = Ret (Some (forked parent child)) o w ∧ stdout o = t ∧
      holds_conversation status G parent child
  end.

(** The outputs that fit a specification: between the parts in order, each process has
    written what its conversation says. *)
Inductive transcript : list spec → list string → Prop :=
  | transcript_end : transcript [] []
  | transcript_alone t sps ts : transcript sps ts → transcript ((t, None) :: sps) (t :: ts)
  | transcript_fork t status G sps o ts : (∀ r, written r o = prints r G) → transcript sps ts →
      transcript ((t, Some (status, G)) :: sps) (t :: o.*2 ++ ts).

Lemma exited_no_step s : (∀ r, ∃ st, cur s r = Exit st) → ¬ ∃ r s', step s r s'.
Proof. intros He (r & s' & Hs). destruct (He r) as [st E]. inversion Hs; congruence. Qed.

Lemma session_sound ps sps ts : Forall2 describes ps sps → session ps ts → transcript sps ts.
Proof.
  intros H Hs. revert sps H. induction Hs as [|p ps o w t Hf Hs IH|p ps o w s0 tr s t Hf Hr He Hs IH|p ps c o w Hf]; intros sps H.
  - apply Forall2_nil_inv_l in H as ->. constructor.
  - apply Forall2_cons_inv_l in H as ([t1 [[status G]|]] & sps' & Hd & Hsps & ->); simpl in Hd.
    { destruct Hd as (? & ? & ? & ? & E & _). congruence. }
    destruct Hd as (o' & w' & E & <-). rewrite Hf in E. injection E as -> ->. constructor. by apply IH.
  - apply Forall2_cons_inv_l in H as ([t1 [[status G]|]] & sps' & Hd & Hsps & ->); simpl in Hd.
    2: { destruct Hd as (? & ? & E & _). congruence. }
    destruct Hd as (parent & child & o' & w' & E & <- & Hc). rewrite Hf in E. injection E as -> -> ->.
    destruct (Hc tr s Hr) as (_ & _ & Hp & _ & _ & Hend). destruct Hp as [Hp|Hp]; [|by apply exited_no_step in He].
    constructor; [|by apply IH]. intros r. by destruct (Hend Hp r).
  - apply Forall2_cons_inv_l in H as ([t1 [[status G]|]] & sps' & Hd & Hsps & ->); simpl in Hd.
    { destruct Hd as (? & ? & ? & ? & E & _). congruence. }
    destruct Hd as (? & ? & E & _). congruence.
Qed.

Lemma session_exists ps sps : Forall2 describes ps sps → ∃ ts, session ps ts.
Proof.
  induction 1 as [|p [t [[status G]|]] ps sps Hd Hps [ts IH]]; simpl in *.
  - exists []. constructor.
  - destruct Hd as (parent & child & o & w & E & <- & Hc). destruct (Hc [] _ (run_start _ _)) as (_ & _ & _ & (tr & s & Hr & He) & _).
    eexists. eapply session_fork; [done..| |done]. intros r. eexists. apply He.
  - destruct Hd as (o & w & E & <-). eexists. by eapply session_alone.
Qed.

(** A program whose parts meet their specifications: it can be carried to its end, and
    every run of it fits. *)
Lemma session_described ps sps : Forall2 describes ps sps →
  (∃ ts, session ps ts) ∧ ∀ ts, session ps ts → transcript sps ts.
Proof. intros H. split; [by eapply session_exists|]. intros ts. by apply session_sound. Qed.

Lemma alone_described m o : writes m tt o → describes (Alone m) (stdout o, None).
Proof. intros H. simpl. eexists _, _. split; [|done]. cbn [forking]. rewrite /bind H /ret /=. by rewrite app_nil_r. Qed.

(** ** What a part of one process prints *)

Section says.
Context {U : Type}.
Definition says {A} (m : M U A) (a : A) (t : string) : Prop := ∃ o, writes m a o ∧ stdout o = t.

Lemma says_ret {A} (a : A) : says (ret a) a "".
Proof. exists []. split; [apply yields_ret|done]. Qed.
Lemma writes_printed fmt args : is_Some (format fmt args) → writes (printf fmt args : M U unit) tt [Out (line fmt args)].
Proof. intros [s Hs]. unfold line. rewrite Hs. by apply writes_printf. Qed.
Lemma says_printf fmt args : is_Some (format fmt args) → says (printf fmt args) tt (line fmt args).
Proof. intros H. exists [Out (line fmt args)]. split; [by apply writes_printed|]. simpl. apply string_app_nil_r. Qed.
Lemma says_eprintf fmt args : is_Some (format fmt args) → says (eprintf fmt args) tt "".
Proof. intros [s Hs]. exists [Err s]. split; [|done]. intros w. unfold eprintf. by rewrite Hs. Qed.
Lemma says_out s : says (puts_out s) tt s.
Proof. exists [Out s]. split; [by intros w|apply string_app_nil_r]. Qed.
Lemma says_puts s : says (puts s) tt (esc s +:+ String nl "").
Proof. apply says_out. Qed.

Lemma says_bind {A B} (m : M U A) (k : A → M U B) a b t t' : says m a t → says (k a) b t' → says (bind m k) b (t +:+ t')%string.
Proof.
  intros (o & Ho & <-) (o' & Ho' & <-). exists (o ++ o'). split; [by eapply writes_bind|apply stdout_app].
Qed.
Lemma says_quiet {A B} (m : M U A) (k : A → M U B) a b t : says m a "" → says (k a) b t → says (bind m k) b t.
Proof. apply (says_bind m k a b ""). Qed.
Lemma says_then {A B} (m : M U A) (k : A → M U B) a b t : says m a t → says (k a) b "" → says (bind m k) b t.
Proof. intros H1 H2. rewrite -(string_app_nil_r t). by eapply says_bind. Qed.

(** Against the list of what the commands print. *)
Lemma says_cons {A B} (m : M U A) (k : A → M U B) a b t ts :
  says m a t → says (k a) b (concat_str ts) → says (bind m k) b (concat_str (t :: ts)).
Proof. apply says_bind. Qed.
Lemma says_last {A} (m : M U A) a t : says m a t → says m a (concat_str [t]).
Proof. intros H. simpl. by rewrite string_app_nil_r. Qed.
Lemma says_writes {A} (m : M U A) a o : writes m a o → says m a (stdout o).
Proof. intros H. by exists o. Qed.
End says.

Lemma says_described m t : says m tt t → describes (Alone m) (t, None).
Proof. intros (o & Ho & <-). by apply alone_described. Qed.

(** A section that only prints, against the list of its lines. *)
Ltac says_lines :=
  cbv zeta; repeat first
    [ apply says_ret
    | apply says_last; apply says_printf; by eexists
    | eapply says_cons; [first [apply says_printf; by eexists | apply says_out | apply says_puts]|] ].
