(* ===== verification/Sockets.v ===== *)
(** * Exercise 26: sockets

    Model of [exercises/26_sockets/sockets.c].  The conversations of sections 2 to 4 are
    pairs of processes of [Processes]: the parent is the server, the child the client.  The
    pipe that carries the port, the queue of connection requests, and the sockets are
    channels; [connect] puts a request into the queue and [accept] takes it out.  The
    system calls whose failure the code does not test are assumed to succeed, and a
    datagram to arrive, as on the loopback interface.  What the client prints on its
    standard error is part of its output.  The host is little-endian. *)

From S2P Require Import Prelude Machine CString Double Printf Text SepLogic Pure Interleave Processes.
#[local] Open Scope Z_scope.

#[local] Abbreviation U := Empty_set.

(** ** Bytes *)

(** [htons] and [htonl], their own inverses. *)
Definition htons (x : Z) : Z := Z.lor (Z.shiftl (Z.land x 255) 8) (Z.shiftr x 8).
Definition htonl (x : Z) : Z :=
  Z.lor (Z.shiftl (Z.land x 255) 24) (Z.lor (Z.shiftl (Z.land (Z.shiftr x 8) 255) 16)
    (Z.lor (Z.shiftl (Z.land (Z.shiftr x 16) 255) 8) (Z.shiftr x 24))).

Definition INADDR_LOOPBACK : Z := 2130706433.

(** [inet_ntop(AF_INET, ...)] of an address in network order, as it lies in memory. *)
Definition inet_ntop (a : Z) : string :=
  join_str "." (dec <$> [Z.land a 255; Z.land (Z.shiftr a 8) 255; Z.land (Z.shiftr a 16) 255; Z.shiftr a 24]).

(** The two bytes of a [uint16_t]. *)
Definition port_bytes (p : Z) : bytes := [chr (p mod 256); chr (p / 256)].

Definition section_concepts : M U unit :=
  printf "=== 1. Concepts ===\n" [] ;;;
  let port_h := 8080 in
  let port_n := htons port_h in
  printf "  port 8080 host order:    0x%04x\n" [AInt port_h] ;;;
  printf "  port 8080 network order: 0x%04x  (%s)\n"
    [AInt port_n; AStr (if port_h =? port_n then "same (big-endian host)" else "swapped (little-endian host)")] ;;;
  let lo := htonl INADDR_LOOPBACK in
  printf "  INADDR_LOOPBACK = %s\n" [AStr (inet_ntop lo)] ;;;
  printf "\n" [].

(** ** The framing of messages *)

(** Receives until [n] bytes are there or the stream ends; each turn brings a byte. *)
Fixpoint recv_all_from (fuel : nat) (fd : chan) (got : bytes) (n : nat) : cmd bytes :=
  match fuel with
  | O => undef
  | S fuel =>
      if (length got <? n)%nat then
        r ← recv fd (n - length got);
        match r with [] => mret got | _ => recv_all_from fuel fd (got ++ r) n end
      else mret got
  end.
Definition recv_all (fd : chan) (n : nat) : cmd bytes := recv_all_from (S n) fd [] n.

(** [send] on a stream: no bytes, no message. *)
Definition send_stream (fd : chan) (bs : bytes) : cmd unit :=
  match bs with [] => mret tt | _ => send fd bs end.

Definition send_msg (fd : chan) (msg : string) : cmd unit :=
  let len := u8 (strlen msg) in
  _ ← send_stream fd [chr len];
  send_stream fd (take (Z.to_nat len) (bytes_of msg)).

(** Returns what [recv_msg] returns and the text in [buf], which holds none before
    something is written to it. *)
Definition recv_msg (fd : chan) (buf : option string) (bufsz : Z) : cmd (Z * option string) :=
  l ← recv_all fd 1;
  match l with
  | [len] =>
      let len := code len in
      let len := if bufsz <=? len then u8 (bufsz - 1) else len in
      bs ← recv_all fd (Z.to_nat len);
      mret (Z.of_nat (length bs), Some (text bs))
  | _ => mret (-1, buf)
  end.

(** The text of a buffer that is printed or copied. *)
Definition text_in (buf : option string) : cmd string := match buf with Some s => mret s | None => undef end.

(** ** Section 2: TCP *)

Definition port_pipe : chan := Chan 0 KPipe.
Definition requests : chan := Chan 1 KDatagram.
Definition sock : chan := Chan 2 KStream.
Definition request : bytes := ["C"%char].

(** What the system answers to the calls whose failure is tested: the text of [errno]. *)
Record net := {
  socket_error : option string; bind_error : option string; listen_error : option string; port : Z;
  client_socket_error : option string; connect_error : option string }.

Definition connect : cmd unit := send requests request.

(** [perror] and [exit]; the text is for the standard error. *)
Definition die (call error : string) : cmd unit := _ ← print "%s: %s
" [AStr call; AStr error]; exit_with 1.

Definition make_client (n : net) : cmd unit :=
  match client_socket_error n with
  | Some e => die "socket" e
  | None => match connect_error n with Some e => die "connect" e | None => connect end
  end.

Definition accept : cmd unit := _ ← recv requests 1; mret tt.

Definition write_port (p : Z) : cmd unit := send port_pipe (port_bytes p).
Definition read_port : cmd Z :=
  r ← recv port_pipe 2;
  match r with [a; b] => mret (code a + 256 * code b) | _ => undef end.

Definition client_msgs : list string := ["hello"; "world"; "bye"]%string.
Definition server_echo_fmt : string := "[echo] %s".

(** The loops of the client and of the server; [buf] is what the buffer holds. *)
Fixpoint client_loop (msgs : list string) (buf : option string) : cmd unit :=
  match msgs with
  | [] => mret tt
  | m :: msgs =>
      _ ← send_msg sock m;
      r ← recv_msg sock buf 64;
      let buf := r.2 in
      s ← text_in buf;
      _ ← print "  client: sent \q%s\q  got \q%s\q\n" [AStr m; AStr s];
      client_loop msgs buf
  end.

Fixpoint server_loop (n : nat) (buf : option string) : cmd unit :=
  match n with
  | O => mret tt
  | S n =>
      r ← recv_msg sock buf 64;
      let buf := r.2 in
      s ← text_in buf;
      echo ← snprintf 80 server_echo_fmt [AStr s];
      _ ← send_msg sock echo;
      _ ← print "  server: echoed \q%s\q\n" [AStr s];
      server_loop n buf
  end.

Definition tcp_client (n : net) (msgs : list string) : proc :=
  (_ ← close port_pipe;
   p ← read_port;
   _ ← make_client n;
   _ ← print "  client connected to port %u\n" [AInt p];
   _ ← client_loop msgs None;
   close sock) (λ _, Exit 0).

Definition tcp_server (port : Z) (nmsgs : nat) : proc :=
  (_ ← write_port port;
   _ ← close port_pipe;
   _ ← accept;
   _ ← print "  server accepted connection\n" [];
   _ ← server_loop nmsgs None;
   _ ← close sock;
   _ ← waitpid;
   print "\n" []) (λ _, Exit 0).

Definition or_die (call : string) (error : option string) : M U unit :=
  match error with
  | Some e => eprintf "%s: %s\n" [AStr call; AStr e] ;;; exit 1
  | None => ret tt
  end.

Definition make_server (n : net) : M U Z :=
  or_die "socket" (socket_error n) ;;;
  or_die "bind" (bind_error n) ;;;
  or_die "listen" (listen_error n) ;;;
  ret (port n).

(** The section up to [fork]. *)
Definition section_tcp (n : net) : M U state :=
  printf "=== 2. TCP loopback demo ===\n" [] ;;;
  port <- make_server n ;;
  printf "  server listening on 127.0.0.1:%u\n" [AInt port] ;;;
  ret (forked (tcp_server port (length client_msgs)) (tcp_client n client_msgs)).

(** ** Section 3: UDP *)

Definition udp : chan := Chan 3 KDatagram.

Definition udp_client : proc :=
  (_ ← close port_pipe;
   p ← read_port;
   let msg := "UDP ping"%string in
   _ ← send udp (bytes_of msg);
   _ ← print "  client sent: \q%s\q\n" [AStr msg];
   r ← recv udp 63;
   let buf := text r in
   _ ← print "  client got:  \q%s\q\n" [AStr buf];
   close udp) (λ _, Exit 0).

Definition udp_server (port : Z) : proc :=
  (_ ← write_port port;
   _ ← close port_pipe;
   r ← recv udp 63;
   let buf := text r in
   _ ← print "  server received: \q%s\q\n" [AStr buf];
   reply ← snprintf 80 "[udp-echo] %s" [AStr buf];
   _ ← send udp (bytes_of reply);
   _ ← close udp;
   _ ← waitpid;
   print "\n" []) (λ _, Exit 0).

Definition section_udp (port : Z) : M U state :=
  printf "=== 3. UDP datagrams ===\n" [] ;;;
  ret (forked (udp_server port) udp_client).

(** ** Section 4: Unix domain sockets *)

Definition SOCK_PATH : string := "/tmp/ex26_demo.sock".

Definition unix_client : proc :=
  (_ ← connect;
   _ ← send_msg sock "unix hello";
   r ← recv_msg sock None 64;
   buf ← text_in r.2;
   _ ← print "  client got: \q%s\q\n" [AStr buf];
   close sock) (λ _, Exit 0).

Definition unix_server : proc :=
  (_ ← accept;
   r ← recv_msg sock None 64;
   buf ← text_in r.2;
   _ ← print "  server got: \q%s\q\n" [AStr buf];
   echo ← snprintf 80 "[unix-echo] %s" [AStr buf];
   _ ← send_msg sock echo;
   _ ← close sock;
   _ ← waitpid;
   print "\n" []) (λ _, Exit 0).

Definition section_unix : M U state :=
  printf "=== 4. Unix domain sockets ===\n" [] ;;;
  printf "  server listening on %s\n" [AStr SOCK_PATH] ;;;
  ret (forked unix_server unix_client).

(** ** Sections 5 and 6 *)

Inductive family := AF_INET | AF_INET6 | AF_OTHER.

(** One result of [getaddrinfo]: its family and what [getnameinfo] makes of its address. *)
Record addrinfo := { ai_family : family; host : option string }.

Definition family_name (f : family) : string :=
  match f with AF_INET => "AF_INET" | AF_INET6 => "AF_INET6" | AF_OTHER => "other" end.

(** [res] is the list, or the message of [gai_strerror]. *)
Definition section_getaddrinfo (res : string + list addrinfo) : M U unit :=
  printf "=== 5. getaddrinfo ===\n" [] ;;;
  match res with
  | inl e => printf "  getaddrinfo: %s\n" [AStr e]
  | inr l =>
      for_list l (λ p count,
        match host p with
        | Some h =>
            count <- int_chk (count + 1) ;;
            printf "  result %d: family=%-8s addr=%s\n" [AInt count; AStr (family_name (ai_family p)); AStr h] ;;;
            ret count
        | None => ret count
        end) 0 ;;;
      printf "  usage: iterate list, socket()+connect() until success\n" [] ;;;
      printf "\n" []
  end.

Definition section_pitfalls : M U unit :=
  printf "=== 6. Pitfalls ===\n" [] ;;;
  printf "  SIGPIPE suppressed with SIG_IGN (also use MSG_NOSIGNAL)\n" [] ;;;
  printf "  SO_REUSEADDR: set before bind() to allow immediate restart\n" [] ;;;
  printf "\n  Byte order conversions:\n" [] ;;;
  let h := 305419896 in
  let n := htonl h in
  printf "    host 0x%08x → network 0x%08x\n" [AInt h; AInt n] ;;;
  printf "    network 0x%08x → host 0x%08x\n" [AInt n; AInt (htonl n)] ;;;
  printf "\n  Partial read/write: always loop:\n" [] ;;;
  printf "    while (sent < total) sent += send(fd, buf+sent, total-sent, 0)\n" [] ;;;
  printf "\n  I/O multiplexing:\n" [] ;;;
  printf "    select()  — portable, O(n) scan of fd_set\n" [] ;;;
  printf "    poll()    — no fd_set size limit, still O(n)\n" [] ;;;
  printf "    epoll()   — Linux, O(1) for active fds, scales to millions\n" [] ;;;
  printf "\n" [].

Definition main (n : net) (udp_port : Z) (res : string + list addrinfo) : list piece :=
  [Alone section_concepts; Forked (section_tcp n); Forked (section_udp udp_port); Forked section_unix;
   Alone (section_getaddrinfo res); Alone section_pitfalls].

(** ** The framing, whatever the parts in which the stream delivers it *)

Lemma follows_recv_all_from fd n l st k : c_kind fd = KStream →
  ∀ fuel bs got, (length bs < fuel)%nat → bs ≠ [] → (length got + length bs)%nat = n →
  follows (k (got ++ bs)) l st → follows (recv_all_from fuel fd got n k) (ARecv fd bs :: l) st.
Proof.
  intros Hk. induction fuel as [|fuel IH]; intros bs got Hf Hbs Hn Hl; [lia|].
  assert (0 < length bs)%nat by (destruct bs; simpl in *; [done|lia]).
  cbn [recv_all_from]. destruct (Nat.ltb_spec (length got) n); [|lia].
  cbn. exists bs, l. split; [done|]. rewrite Hk. split; [lia|]. split; [lia|]. intros j Hj.
  assert (take j bs ≠ []) as Ht by (destruct bs, j; simpl in *; (done || lia)).
  destruct (drop j bs) as [|b rest] eqn:Ed.
  - pose proof (take_drop j bs) as E. rewrite Ed app_nil_r in E. rewrite E. destruct bs as [|b bs]; [done|].
    destruct fuel as [|fuel]; [simpl in Hf; lia|]. cbn [recv_all_from]. rewrite length_app.
    destruct (Nat.ltb_spec (length got + length (b :: bs)) n); [lia|]. exact Hl.
  - assert (length bs = length (take j bs) + length (b :: rest))%nat as El.
    { by rewrite -{1}(take_drop j bs) length_app Ed. }
    destruct (take j bs) as [|x bs'] eqn:Et; [done|]. rewrite -Et in El |- *.
    apply IH; [rewrite Et in El; simpl in *; lia|done|rewrite length_app; lia|].
    by rewrite -app_assoc -Ed take_drop.
Qed.

Lemma follows_recv_all fd bs l st k : c_kind fd = KStream → bs ≠ [] →
  follows (k bs) l st → follows (recv_all fd (length bs) k) (ARecv fd bs :: l) st.
Proof. intros Hk Hbs Hl. unfold recv_all. apply follows_recv_all_from; auto with lia. Qed.

(** A message of these bytes, if there are any. *)
Definition if_any (a : bytes → act) (bs : bytes) : list act := match bs with [] => [] | _ => [a bs] end.

Lemma if_any_some a bs : bs ≠ [] → if_any a bs = [a bs].
Proof. by destruct bs. Qed.

(** [send_msg] sends the length modulo 256 and that many characters. *)
Lemma follows_send_msg fd msg l st k : follows (k tt) l st →
  follows (send_msg fd msg k)
    (ASend fd [chr (strlen msg)] :: if_any (ASend fd) (take (Z.to_nat (strlen msg mod 256)) (bytes_of msg)) ++ l) st.
Proof.
  intros Hl. unfold send_msg, send_stream, send, u8. cbn. change (2 ^ 8) with 256.
  eexists. split; [by rewrite /chr Zmod_mod|]. split; [done|].
  destruct (take _ _) as [|b bs]; [done|]. by exists l.
Qed.

Lemma follows_recv_any fd bs l st k : c_kind fd = KStream →
  follows (k bs) l st → follows (recv_all fd (length bs) k) (if_any (ARecv fd) bs ++ l) st.
Proof. intros Hk Hl. destruct bs as [|b bs]; [done|]. by apply follows_recv_all. Qed.

(** [recv_msg] takes the length and as many bytes, but no more than fit. *)
Lemma follows_recv_msg fd buf bufsz len bs l st k :
  c_kind fd = KStream → 0 < bufsz →
  Z.of_nat (length bs) = Z.min (code len) (bufsz - 1) →
  follows (k (Z.of_nat (length bs), Some (text bs))) l st →
  follows (recv_msg fd buf bufsz k) (ARecv fd [len] :: if_any (ARecv fd) bs ++ l) st.
Proof.
  intros Hk Hsz Hn Hl. unfold recv_msg. cbn [mbind cmd_bind].
  apply (follows_recv_all fd [len]); [done..|]. cbn. pose proof (code_range len).
  assert (Z.to_nat (if bufsz <=? code len then u8 (bufsz - 1) else code len) = length bs) as ->.
  { destruct (Z.leb_spec bufsz (code len)); [|lia]. unfold u8. rewrite Z.mod_small; lia. }
  by apply follows_recv_any.
Qed.

(** ** The conversations *)

Definition status : role → Z := λ _, 0.

(** A framed message. *)
Definition frame (from : role) (msg : string) : list global :=
  [GMsg from sock [chr (strlen msg)]; GMsg from sock (bytes_of msg)].

Definition echo (m : string) : string := ("[echo] " +:+ m)%string.

Definition round (m : string) : list global :=
  frame Child m ++ frame Parent (echo m) ++
  [GPrint Parent (line "  server: echoed \q%s\q\n" [AStr m]);
   GPrint Child (line "  client: sent \q%s\q  got \q%s\q\n" [AStr m; AStr (echo m)])].

Definition tcp_conversation (port : Z) (msgs : list string) : list global :=
  [GClose Child port_pipe; GMsg Parent port_pipe (port_bytes port); GClose Parent port_pipe;
   GMsg Child requests request;
   GPrint Child (line "  client connected to port %u\n" [AInt port]);
   GPrint Parent (line "  server accepted connection\n" [])] ++
  mbind round msgs ++
  [GClose Child sock; GClose Parent sock; GWait Parent; GPrint Parent (line "\n" [])].

(** Messages that fit the buffers: with the prefix of the echo they leave room for the
    terminator in 64 bytes. *)
Definition fits (m : string) : Prop := 0 < strlen m ≤ 56 ∧ no_nul m.

Lemma strlen_echo m : strlen (echo m) = 7 + strlen m.
Proof. unfold echo, strlen. rewrite string_app_length. simpl. lia. Qed.

Lemma fits_echo m : fits m → 0 < strlen (echo m) ≤ 63 ∧ no_nul (echo m).
Proof. intros [Hm Hn]. rewrite strlen_echo. split; [lia|]. apply no_nul_app; [by apply no_nul_check|done]. Qed.

Lemma format_echo m : format server_echo_fmt [AStr m] = Some (echo m).
Proof.
  change (Some ("[echo] " +:+ m +:+ "")%string = Some (echo m)). by rewrite string_app_nil_r.
Qed.

Lemma proj_frame_from from m : proj status from (frame from m) = [ASend sock [chr (strlen m)]; ASend sock (bytes_of m)].
Proof. unfold frame. by parts. Qed.
Lemma proj_frame_to from m : proj status (other from) (frame from m) = [ARecv sock [chr (strlen m)]; ARecv sock (bytes_of m)].
Proof. unfold frame. by destruct from; cbn [other]; parts. Qed.

(** A message that fits the buffer is received as it was sent. *)
Lemma follows_send_frame from m l st k : 0 < strlen m ≤ 63 →
  follows (k tt) l st → follows (send_msg sock m k) (proj status from (frame from m) ++ l) st.
Proof.
  intros Hm Hl. rewrite proj_frame_from.
  pose proof (follows_send_msg sock m l st k) as H. rewrite Z.mod_small in H; [|lia].
  rewrite take_ge in H; [|pose proof (length_bytes_of m); lia].
  rewrite if_any_some in H; [by apply H|apply bytes_of_ne; lia].
Qed.

Lemma follows_recv_frame from m buf l st k : 0 < strlen m ≤ 63 → no_nul m →
  follows (k (strlen m, Some m)) l st → follows (recv_msg sock buf 64 k) (proj status (other from) (frame from m) ++ l) st.
Proof.
  intros Hm Hn Hl. rewrite proj_frame_to.
  pose proof (length_bytes_of m) as Hlen.
  assert (code (chr (strlen m)) = strlen m) as Hc by (rewrite code_chr; [done|lia]).
  pose proof (follows_recv_msg sock buf 64 (chr (strlen m)) (bytes_of m) l st k) as H.
  rewrite if_any_some in H; [|apply bytes_of_ne; lia].
  apply H; rewrite ?Hc; [done..|lia|rewrite Hlen text_bytes //].
Qed.

Lemma client_follows msgs : ∀ buf l st k, Forall fits msgs → follows (k tt) l st →
  follows (client_loop msgs buf k) (proj status Child (mbind round msgs) ++ l) st.
Proof.
  induction msgs as [|m msgs IH]; intros buf l st k; [done|]. intros [Hm Hms]%Forall_cons Hl.
  cbn [client_loop mbind cmd_bind]. change (mbind round (m :: msgs)) with (round m ++ mbind round msgs).
  unfold round at 1. rewrite !proj_app -!app_assoc. destruct (fits_echo m Hm) as [He Hne]. destruct Hm as [Hm Hn].
  apply (follows_send_frame Child); [lia|]. apply (follows_recv_frame Parent); [lia|done|].
  parts.
  apply follows_print; [by eexists|]. by apply IH.
Qed.

Lemma server_follows msgs : ∀ buf l st k, Forall fits msgs → follows (k tt) l st →
  follows (server_loop (length msgs) buf k) (proj status Parent (mbind round msgs) ++ l) st.
Proof.
  induction msgs as [|m msgs IH]; intros buf l st k; [done|]. intros [Hm Hms]%Forall_cons Hl.
  cbn [length server_loop mbind cmd_bind]. change (mbind round (m :: msgs)) with (round m ++ mbind round msgs).
  unfold round at 1. rewrite !proj_app -!app_assoc. destruct (fits_echo m Hm) as [He Hne]. destruct Hm as [Hm Hn].
  apply (follows_recv_frame Child); [lia|done|].
  cbn [text_in snd]. rewrite cmd_bind_run cmd_ret_run cmd_bind_run /snprintf format_echo take_str_fits; [|unfold strlen in *; lia].
  rewrite cmd_ret_run cmd_bind_run.
  apply (follows_send_frame Parent); [lia|].
  parts.
  apply follows_print; [by eexists|]. by apply IH.
Qed.

Lemma rounds_on_sock c msgs : c ≠ sock → Forall (λ e, ¬ is_msg_on c e) (mbind round msgs).
Proof.
  intros Hc. induction msgs as [|m msgs IH]; [by constructor|]. change (mbind round (m :: msgs)) with (round m ++ mbind round msgs).
  apply Forall_app. split; [|done]. unfold round, frame. repeat constructor; simpl; naive_solver.
Qed.

Lemma rounds_sound msgs tail : Forall fits msgs → sound tail → sound (mbind round msgs ++ tail).
Proof.
  intros Hms Ht. induction Hms as [|m msgs Hm Hms IH]; [done|].
  change (mbind round (m :: msgs)) with (round m ++ mbind round msgs). rewrite -app_assoc.
  destruct (fits_echo m Hm) as [He _]. destruct Hm as [Hm _].
  pose proof (bytes_of_ne m ltac:(lia)). pose proof (bytes_of_ne (echo m) ltac:(lia)).
  unfold round, frame. cbn [app sound]. split_and!; try done.
Qed.

Lemma not_on_not_sent r c G : Forall (λ e, ¬ is_msg_on c e) G → Forall (λ e, ¬ sent_on r c e) G.
Proof. intros H. eapply Forall_impl; [exact H|]. intros []; simpl; naive_solver. Qed.

Lemma tcp_sound port msgs : Forall fits msgs → sound (tcp_conversation port msgs).
Proof.
  intros Hms. unfold tcp_conversation.
  set (tail := [GClose Child sock; GClose Parent sock; GWait Parent; GPrint Parent (line "\n" [])]).
  assert (sound tail) as Ht.
  { subst tail. simpl. split_and!; try done; repeat constructor; simpl; naive_solver. }
  assert (∀ c, c ≠ sock → Forall (λ e, ¬ is_msg_on c e) (mbind round msgs ++ tail)) as Hno.
  { intros c Hc. apply Forall_app. split; [by apply rounds_on_sock|]. subst tail. repeat constructor; simpl; naive_solver. }
  pose proof (Hno port_pipe ltac:(done)) as Hp.
  cbn [app sound]. split_and!; try done; try (by apply rounds_sound).
  - repeat (apply Forall_cons; split; [simpl; naive_solver|]). by apply not_on_not_sent.
  - intros _. repeat (apply Forall_cons; split; [simpl; naive_solver|]). done.
  - repeat (apply Forall_cons; split; [simpl; naive_solver|]). by apply not_on_not_sent.
Qed.

Lemma port_round_trip p : 0 ≤ p < 65536 → code (chr (p mod 256)) + 256 * code (chr (p / 256)) = p.
Proof.
  intros Hp. rewrite !code_chr; [|split; [apply Z.div_pos; lia|apply Z.div_lt_upper_bound; lia]|apply Z.mod_pos_bound; lia].
  pose proof (Z.div_mod p 256). lia.
Qed.

Lemma follows_read_port p l st k : 0 ≤ p < 65536 → follows (k p) l st →
  follows (read_port k) (ARecv port_pipe (port_bytes p) :: l) st.
Proof.
  intros Hp Hl. unfold read_port. rewrite cmd_bind_run. exists (port_bytes p), l. split; [done|]. split; [lia|].
  cbn [c_kind port_pipe]. split; [simpl; lia|]. cbn. by rewrite port_round_trip.
Qed.

Lemma follows_write_port p l st k : follows (k tt) l st → follows (write_port p k) (ASend port_pipe (port_bytes p) :: l) st.
Proof. intros Hl. by eexists. Qed.
Lemma follows_connect l st k : follows (k tt) l st → follows (connect k) (ASend requests request :: l) st.
Proof. intros Hl. by eexists. Qed.
Lemma follows_accept l st k : follows (k tt) l st → follows (accept k) (ARecv requests request :: l) st.
Proof. intros Hl. exists request, l. split; [done|]. split; [lia|]. cbn [c_kind requests]. by split; [simpl; lia|]. Qed.
(** One command of a program against one action. *)
Ltac follow :=
  unbind; first
    [ Processes.follow | apply follows_connect | apply follows_accept | apply follows_write_port ]; unbind.

(** The call of [make_client] that fails, if one does. *)
Definition client_failure (n : net) : option (string * string) :=
  match client_socket_error n with Some e => Some ("socket"%string, e) | None => pair "connect"%string <$> connect_error n end.

Lemma tcp_client_follows n p msgs : client_failure n = None → 0 ≤ p < 65536 → Forall fits msgs →
  follows (tcp_client n msgs) (proj status Child (tcp_conversation p msgs)) 0.
Proof.
  intros Hn Hp Hms. unfold tcp_client, tcp_conversation, make_client. unfold client_failure in Hn.
  destruct (client_socket_error n); [done|]. destruct (connect_error n); [done|]. rewrite !proj_app. parts.
  follow. apply follows_read_port; [done|]. do 2 follow. cbv beta. rewrite ?cmd_bind_run.
  apply client_follows; [done|]. parts. by follow.
Qed.

Lemma tcp_server_follows p msgs : Forall fits msgs →
  follows (tcp_server p (length msgs)) (proj status Parent (tcp_conversation p msgs)) 0.
Proof.
  intros Hms. unfold tcp_server, tcp_conversation. rewrite !proj_app. parts.
  do 4 follow. apply server_follows; [done|]. parts. do 3 follow. done.
Qed.

(** *** A client that cannot connect

    The child reports it and exits; the parent, which does not learn of it, waits in
    [accept] for ever. *)
Section failing_client.
Context (port : Z) (nmsgs : nat) (msgs : list string) (n : net) (call e : string).
Hypothesis Hfail : client_failure n = Some (call, e).

Definition complaint : string := line "%s: %s\n" [AStr call; AStr e].

(** The state after [i] steps of the parent and [j] of the child. *)
Definition server_at (i : nat) : proc :=
  match i, tcp_server port nmsgs with
  | 1%nat, Send _ _ k => k
  | 2%nat, Send _ _ (Close _ k) => k
  | _, p => p
  end.

Definition client_at (j : nat) : proc :=
  match j, tcp_client n msgs with
  | 1%nat, Close _ k => k
  | 2%nat, _ => Print complaint (Exit 1)
  | 3%nat, _ => Exit 1
  | _, p => p
  end.

Record after_steps (i j : nat) (s : state) : Prop := {
  a_server : (i ≤ 2)%nat ∧ cur s Parent = server_at i;
  a_client : (j ≤ 3)%nat ∧ cur s Child = client_at j;
  a_port : (j ≤ 1)%nat → queue s Child port_pipe = match i with O => [] | _ => [port_bytes port] end;
  a_requests : queue s Parent requests = [];
  a_order : i = O → (j ≤ 1)%nat;
  a_closed : closed s Parent port_pipe = true → i ≠ O;
  a_out : out s = match j with 3%nat => [(Child, complaint)] | _ => [] end }.

Lemma client_reads : ∃ k, client_at 1 = Recv port_pipe 2 k ∧ k (port_bytes port) = client_at 2.
Proof.
  eexists. split; [reflexivity|]. unfold make_client, client_at, complaint. pose proof Hfail as H. unfold client_failure in H.
  destruct (client_socket_error n); [|destruct (connect_error n); [|done]]; by injection H as <- <-.
Qed.

Lemma server_accepts : ∃ k, server_at 2 = Recv requests 1 k.
Proof. by eexists. Qed.

(** The step a process in a known state takes. *)
Ltac takes Hstep Hcur :=
  inversion Hstep; subst; match goal with H : cur _ _ = _ |- _ => rewrite Hcur in H; try discriminate H; injection H; intros; subst; clear H end.

Lemma server_step i j s s' : after_steps i j s → step s Parent s' → after_steps (S i) j s'.
Proof.
  intros [[Hi Hs] [Hj Hc] Hq Hr Ho Hcl Hout] Hstep. destruct i as [|[|[|i]]]; [| | |lia].
  - change (server_at 0) with (Send port_pipe (port_bytes port) (server_at 1)) in Hs.
    takes Hstep Hs. split; try done; [split; [lia|done]|]. intros Hj1. cbn. rewrite /updc Hq //.
  - change (server_at 1) with (Close port_pipe (server_at 2)) in Hs. takes Hstep Hs. by split.
  - destruct server_accepts as [k Ek]. rewrite Ek in Hs. takes Hstep Hs.
    + rewrite Hr in H0. by inversion H0.
    + by destruct H0 as (_ & _ & _ & []).
Qed.

Lemma client_step i j s s' : after_steps i j s → step s Child s' → after_steps i (S j) s'.
Proof.
  intros [[Hi Hs] [Hj Hc] Hq Hr Ho Hcl Hout] Hstep. destruct client_reads as (k & Ek & Hk). destruct j as [|[|[|[|j]]]]; [| | | |lia].
  - change (client_at 0) with (Close port_pipe (client_at 1)) in Hc.
    takes Hstep Hc. split; try done; [split; [lia|done]|intros _; apply Hq; lia].
  - rewrite Ek in Hc. specialize (Hq ltac:(lia)). takes Hstep Hc.
    + rewrite Hq in H0. destruct i as [|i]; [by inversion H0|]. inversion H0; simplify_eq. split; try done; [|lia]. by split; [lia|].
    + destruct H0 as (H0 & Hx & _). rewrite Hq in H0. destruct i as [|i]; [|done]. destruct Hx as [Hx|[st Hx]]; [by apply Hcl in Hx|].
      cbn in Hx. by rewrite Hs in Hx.
  - takes Hstep Hc. split; try done; [lia|by intros Hi0; specialize (Ho Hi0); lia|]. cbn. by rewrite Hout.
  - takes Hstep Hc.
Qed.

Lemma after_step i j s r s' : after_steps i j s → step s r s' →
  ∃ i' j', after_steps i' j' s' ∧ (i' + j' = S (i + j))%nat.
Proof.
  intros A Hs. destruct r; [exists (S i), j; split; [by eapply server_step|lia]|exists i, (S j); split; [by eapply client_step|lia]].
Qed.

Lemma after_start : after_steps 0 0 (forked (tcp_server port nmsgs) (tcp_client n msgs)).
Proof. split; try done; [by split; [lia|]|by split; [lia|]|cbn; lia]. Qed.

Lemma after_run tr s : run step (forked (tcp_server port nmsgs) (tcp_client n msgs)) tr s →
  ∃ i j, after_steps i j s ∧ length tr = (i + j)%nat.
Proof.
  induction 1 as [|tr s r s' Hr (i & j & A & Hl) Hs]; [exists 0%nat, 0%nat; by split; [apply after_start|]|].
  destruct (after_step _ _ _ _ _ A Hs) as (i' & j' & A' & Hij). exists i', j'. split; [done|]. rewrite length_app /=. lia.
Qed.

(** As long as not all is done somebody can go on. *)
Lemma after_progress i j s : after_steps i j s → (i + j < 5)%nat → ∃ r s', step s r s'.
Proof.
  intros [[Hi Hs] [Hj Hc] Hq Hr Ho _ _] Hij. destruct client_reads as (k & Ek & _).
  destruct i as [|[|i]]; [exists Parent; eexists; by eapply step_send|exists Parent; eexists; eapply (step_close _ _ port_pipe (server_at 2)), Hs|].
  destruct j as [|[|[|j]]]; [exists Child; eexists; by eapply step_close| |exists Child; eexists; by eapply step_print|lia].
  rewrite Ek in Hc. exists Child. eexists. eapply step_recv; [exact Hc|]. rewrite Hq; [|lia]. by apply deq_pipe.
Qed.

Lemma server_left_waiting tr s : run step (forked (tcp_server port nmsgs) (tcp_client n msgs)) tr s →
  (length tr ≤ 5)%nat ∧ output Parent s = [] ∧ ((length tr < 5)%nat → ∃ r s', step s r s') ∧
  (length tr = 5%nat → (∀ r s', ¬ step s r s') ∧
     (∃ k, cur s Parent = Recv requests 1 k) ∧ cur s Child = Exit 1 ∧ output Child s = [complaint]).
Proof.
  intros (i & j & A & Hl)%after_run. pose proof A as [[Hi Hs] [Hj Hc] _ _ _ _ Ho]. split_and!.
  - lia.
  - unfold output. rewrite Ho. by destruct j as [|[|[|[|j]]]].
  - intros H. apply (after_progress i j); [done|lia].
  - intros H. assert (i = 2 ∧ j = 3)%nat as [-> ->] by lia. split_and!; [|rewrite Hs; apply server_accepts|done|unfold output; by rewrite Ho].
    intros r s' Hstep. destruct (after_step _ _ _ _ _ A Hstep) as (i' & j' & [[? _] [? _] _ _ _ _ _] & ?). lia.
Qed.
End failing_client.

(** *** The other two conversations *)

Definition udp_reply : string := "[udp-echo] UDP ping".

Definition udp_conversation (port : Z) : list global :=
  [GClose Child port_pipe; GMsg Parent port_pipe (port_bytes port); GClose Parent port_pipe;
   GMsg Child udp (bytes_of "UDP ping");
   GPrint Child (line "  client sent: \q%s\q\n" [AStr "UDP ping"]);
   GPrint Parent (line "  server received: \q%s\q\n" [AStr "UDP ping"]);
   GMsg Parent udp (bytes_of udp_reply); GClose Parent udp;
   GPrint Child (line "  client got:  \q%s\q\n" [AStr udp_reply]); GClose Child udp;
   GWait Parent; GPrint Parent (line "\n" [])].

Definition unix_conversation : list global :=
  [GMsg Child requests request] ++ frame Child "unix hello" ++
  [GPrint Parent (line "  server got: \q%s\q\n" [AStr "unix hello"])] ++
  frame Parent "[unix-echo] unix hello" ++
  [GClose Parent sock; GPrint Child (line "  client got: \q%s\q\n" [AStr "[unix-echo] unix hello"]); GClose Child sock;
   GWait Parent; GPrint Parent (line "\n" [])].

Lemma udp_sound port : sound (udp_conversation port).
Proof. cbn [udp_conversation sound]. concrete. Qed.
Lemma unix_sound : sound unix_conversation.
Proof. cbn [unix_conversation frame app sound]. concrete. Qed.

Lemma udp_client_follows p : 0 ≤ p < 65536 → follows udp_client (proj status Child (udp_conversation p)) 0.
Proof.
  intros Hp. unfold udp_client, udp_conversation. parts.
  follow. apply follows_read_port; [done|]. 
  apply follows_send; [done|]. follow. apply follows_recv; [done|lia|by vm_compute; lia|].
  do 2 follow. done.
Qed.

Lemma udp_server_follows p : follows (udp_server p) (proj status Parent (udp_conversation p)) 0.
Proof.
  unfold udp_server, udp_conversation. parts. do 2 follow. cbv beta. rewrite ?cmd_bind_run.
  apply follows_recv; [done|lia|by vm_compute; lia|]. follow. cbv beta. rewrite ?cmd_bind_run.
  assert (snprintf 80 "[udp-echo] %s" [AStr (text (bytes_of "UDP ping"))] = mret udp_reply) as -> by reflexivity.
  rewrite cmd_ret_run cmd_bind_run. apply follows_send; [done|]. do 3 follow. done.
Qed.

Lemma unix_client_follows : follows unix_client (proj status Child unix_conversation) 0.
Proof.
  unfold unix_client, unix_conversation. rewrite !proj_app. parts. follow. cbv beta. rewrite ?cmd_bind_run.
  apply (follows_send_frame Child); [by vm_compute|]. parts. cbv beta. rewrite ?cmd_bind_run.
  apply (follows_recv_frame Parent); [by vm_compute|by apply no_nul_check|]. parts.
  cbn [text_in snd]. rewrite cmd_bind_run cmd_ret_run. do 2 follow. done.
Qed.

Lemma unix_server_follows : follows unix_server (proj status Parent unix_conversation) 0.
Proof.
  unfold unix_server, unix_conversation. rewrite !proj_app. parts. follow. cbv beta. rewrite ?cmd_bind_run.
  apply (follows_recv_frame Child); [by vm_compute|by apply no_nul_check|]. parts.
  cbn [text_in snd]. rewrite cmd_bind_run cmd_ret_run. follow. cbv beta. rewrite ?cmd_bind_run.
  assert (snprintf 80 "[unix-echo] %s" [AStr "unix hello"] = mret "[unix-echo] unix hello"%string) as -> by reflexivity.
  rewrite cmd_ret_run cmd_bind_run. apply (follows_send_frame Parent); [by vm_compute|]. parts. do 3 follow. done.
Qed.

(** *** The whole program *)

(** What section 5 prints of each result that has an address. *)
Fixpoint addr_lines (count : Z) (l : list addrinfo) : list string :=
  match l with
  | [] => []
  | a :: l' =>
      match host a with
      | Some h => line "  result %d: family=%-8s addr=%s\n" [AInt (count + 1); AStr (family_name (ai_family a)); AStr h]
                  :: addr_lines (count + 1) l'
      | None => addr_lines count l'
      end
  end.

Definition getaddrinfo_text (res : string + list addrinfo) : string :=
  match res with
  | inl e => concat_str [line "=== 5. getaddrinfo ===\n" []; line "  getaddrinfo: %s\n" [AStr e]]
  | inr l => (concat_str (line "=== 5. getaddrinfo ===\n" [] :: addr_lines 0 l) +:+
              concat_str [line "  usage: iterate list, socket()+connect() until success\n" []; line "\n" []])%string
  end.

Lemma getaddrinfo_writes res : Z.of_nat (length (match res with inl _ => [] | inr l => l end)) ≤ INT_MAX →
  ∃ o, writes (section_getaddrinfo res) tt o ∧ stdout o = getaddrinfo_text res.
Proof.
  destruct res as [e|l]; intros Hl; unfold section_getaddrinfo.
  - eexists. split; [|shelve]. eapply writes_bind; by apply writes_printf.
    Unshelve. simpl. by rewrite ?string_app_nil_r.
  - set (body := λ (p : addrinfo) (count : Z), _).
    assert (∀ l count, 0 ≤ count → count + Z.of_nat (length l) ≤ INT_MAX →
      ∃ c o, writes (for_list l body count) c o ∧ stdout o = concat_str (addr_lines count l)) as Hloop.
    { clear l Hl. induction l as [|a l IH]; intros count Hc Hl; [by exists count, []|].
      cbn [length] in Hl. cbn [for_list addr_lines]. unfold body at 1. destruct (host a) as [h|].
      - destruct (IH (count + 1)) as (c & o & Ho & Es); [lia..|]. exists c. eexists. split.
        + eapply writes_bind; [|exact Ho]. eapply yields_bind; [apply yields_int_chk; unfold INT_MIN; lia|].
          eapply writes_bind; [by apply writes_printf|apply yields_ret].
        + rewrite app_nil_r. simpl. by rewrite Es.
      - destruct (IH count) as (c & o & Ho & Es); [lia..|]. exists c, o. split; [|done].
        by eapply yields_bind; [apply yields_ret|]. }
    destruct (Hloop l 0) as (c & o & Ho & Es); [lia..|]. eexists. split.
    + eapply writes_bind; [by apply writes_printf|]. eapply writes_bind; [exact Ho|].
      eapply writes_bind; by apply writes_printf.
    + simpl. rewrite !stdout_app Es. simpl. by rewrite ?string_app_nil_r.
Qed.

Definition session_spec (p : Z) (udp_port : Z) (res : string + list addrinfo) : list spec :=
  [(concat_str [line "=== 1. Concepts ===\n" []; line "  port 8080 host order:    0x1f90\n" [];
      line "  port 8080 network order: 0x901f  (swapped (little-endian host))\n" [];
      line "  INADDR_LOOPBACK = 127.0.0.1\n" []; line "\n" []], None);
   (concat_str [line "=== 2. TCP loopback demo ===\n" []; line "  server listening on 127.0.0.1:%u\n" [AInt p]],
      Some (status, tcp_conversation p client_msgs));
   (line "=== 3. UDP datagrams ===\n" [], Some (status, udp_conversation udp_port));
   (concat_str [line "=== 4. Unix domain sockets ===\n" []; line "  server listening on %s\n" [AStr SOCK_PATH]],
      Some (status, unix_conversation));
   (getaddrinfo_text res, None);
   (stdout (match section_pitfalls (empty_world some_allocator) with Ret _ o _ => o | _ => [] end), None)].

(** ** Properties *)

Lemma tcp_holds n p msgs : client_failure n = None → 0 ≤ p < 65536 → Forall fits msgs →
  holds_conversation status (tcp_conversation p msgs) (tcp_server p (length msgs)) (tcp_client n msgs).
Proof. intros Hn Hp Hms. apply conversation_sound; [by apply tcp_sound|by apply tcp_server_follows|by apply tcp_client_follows]. Qed.
Lemma udp_holds p : 0 ≤ p < 65536 → holds_conversation status (udp_conversation p) (udp_server p) udp_client.
Proof. intros Hp. apply conversation_sound; [apply udp_sound|apply udp_server_follows|by apply udp_client_follows]. Qed.
Lemma unix_holds : holds_conversation status unix_conversation unix_server unix_client.
Proof. apply conversation_sound; [apply unix_sound|apply unix_server_follows|apply unix_client_follows]. Qed.

Lemma client_msgs_fit : Forall fits client_msgs.
Proof. repeat constructor; try (by vm_compute); by apply no_nul_check. Qed.

Lemma sockets_described p udp_port res : 0 ≤ p < 65536 → 0 ≤ udp_port < 65536 →
  Z.of_nat (length (match res with inl _ => [] | inr l => l end)) ≤ INT_MAX →
  Forall2 describes (main (Build_net None None None p None None) udp_port res) (session_spec p udp_port res).
Proof.
  intros Hp Hu Hl. destruct (getaddrinfo_writes res Hl) as (o & Ho & Eo). unfold main, session_spec. repeat constructor.
  - eexists _, _. split; [reflexivity|by vm_compute].
  - eexists _, _, _, _. split_and!; [reflexivity|simpl; by rewrite ?string_app_nil_r|by apply tcp_holds; [| |apply client_msgs_fit]].
  - eexists _, _, _, _. split_and!; [reflexivity|done|by apply udp_holds].
  - eexists _, _, _, _. split_and!; [reflexivity|done|apply unix_holds].
  - rewrite -Eo. by apply alone_described.
  - eexists _, _. by split; [reflexivity|].
Qed.

(** C23. The client and the server of sections 2 to 4, for every port and, over TCP, for
    every list of messages of 1 to 56 characters: whatever the order in which the two
    processes go on and the parts in which the streams deliver what is sent, nobody is
    stuck and nothing undefined, runs are bounded and can be carried to their end, where
    each has printed the lines of the conversation in its order (every message with its
    echo) and the channels are empty.  The whole program, when the calls of the server and
    the client succeed, comes to its end and its output is that of its parts in order.
    A client that cannot connect reports it and ends with status 1, and the server waits
    in [accept] for ever. *)
Theorem socket_sessions_correct :
  (∀ n port msgs, client_failure n = None → 0 ≤ port < 65536 → Forall fits msgs →
     holds_conversation status (tcp_conversation port msgs) (tcp_server port (length msgs)) (tcp_client n msgs)) ∧
  (∀ port, 0 ≤ port < 65536 → holds_conversation status (udp_conversation port) (udp_server port) udp_client) ∧
  holds_conversation status unix_conversation unix_server unix_client ∧
  (∀ port udp_port res, 0 ≤ port < 65536 → 0 ≤ udp_port < 65536 →
     Z.of_nat (length (match res with inl _ => [] | inr l => l end)) ≤ INT_MAX →
     let ps := main (Build_net None None None port None None) udp_port res in
     (∃ ts, session ps ts) ∧ ∀ ts, session ps ts → transcript (session_spec port udp_port res) ts) ∧
  (∀ n port nmsgs msgs call e, client_failure n = Some (call, e) →
     ∀ tr s, run step (forked (tcp_server port nmsgs) (tcp_client n msgs)) tr s →
       (length tr ≤ 5)%nat ∧ output Parent s = [] ∧ ((length tr < 5)%nat → ∃ r s', step s r s') ∧
       (length tr = 5%nat → (∀ r s', ¬ step s r s') ∧
          (∃ k, cur s Parent = Recv requests 1 k) ∧ cur s Child = Exit 1 ∧ output Child s = [complaint call e])).
Proof.
  split_and!; [apply tcp_holds|apply udp_holds|apply unix_holds| |intros; by eapply server_left_waiting].
  intros port udp_port res Hp Hu Hl. by apply session_described, sockets_described.
Qed.

(** What the client of the program prints in section 2. *)
Example tcp_client_prints : Forall fits client_msgs ∧
  concat_str (prints Child (tcp_conversation 40000 client_msgs)) = esc (concat_str [
    "  client connected to port 40000
"; "  client: sent \qhello\q  got \q[echo] hello\q
";
    "  client: sent \qworld\q  got \q[echo] world\q
"; "  client: sent \qbye\q  got \q[echo] bye\q
"])%string.
Proof.
  split; [apply client_msgs_fit|by vm_compute].
Qed.

(** C24. The framing, for every message and every buffer.  [send_msg] sends the length [n]
    modulo 256 and that many of the characters, none for a message of 256: a message of 256
    characters or more is cut.  [recv_msg], however the stream cuts what it delivers, reads
    back what was sent when that leaves room for the terminator, so every message of fewer
    than 256 characters that fits the buffer, the empty one included; of a longer one it
    reads the characters that fit and leaves the rest in the stream, where the next call
    takes it for a length. *)
Theorem framing_correct (fd : chan) (stream : c_kind fd = KStream) (msg : string) (nul_free : no_nul msg)
    (bufsz : Z) (size : 0 < bufsz) :
  let n := strlen msg in
  let m := n mod 256 in
  (∀ k l st, follows (k tt) l st →
     follows (send_msg fd msg k) (ASend fd [chr n] :: if_any (ASend fd) (take (Z.to_nat m) (bytes_of msg)) ++ l) st) ∧
  (∀ buf k l st, m < bufsz → follows (k (m, Some (take_str (Z.to_nat m) msg))) l st →
     follows (recv_msg fd buf bufsz k) (ARecv fd [chr n] :: if_any (ARecv fd) (take (Z.to_nat m) (bytes_of msg)) ++ l) st) ∧
  (∀ buf k l st, bufsz ≤ m → follows (k (bufsz - 1, Some (take_str (Z.to_nat (bufsz - 1)) msg))) l st →
     follows (recv_msg fd buf bufsz k)
       (ARecv fd [chr n] :: if_any (ARecv fd) (take (Z.to_nat (bufsz - 1)) (bytes_of msg)) ++ l) st) ∧
  (n < 256 → m = n ∧ take (Z.to_nat m) (bytes_of msg) = bytes_of msg ∧ take_str (Z.to_nat m) msg = msg).
Proof.
  intros n m. pose proof (length_bytes_of msg) as Hlen. fold n in Hlen.
  assert (0 ≤ m < 256 ∧ m ≤ n) as Hm by (split; [apply Z.mod_pos_bound; lia|apply Z.mod_le; lia]).
  assert (code (chr n) = m) as Hc by (rewrite -(code_chr m); [by rewrite /chr Zmod_mod|lia]). split_and!.
  - intros k l st Hl. by apply follows_send_msg.
  - intros buf k l st Hn Hl. apply follows_recv_msg; rewrite ?Hc ?length_take ?text_take //; try lia.
    by replace (Z.of_nat _) with m by lia.
  - intros buf k l st Hn Hl. apply follows_recv_msg; rewrite ?Hc ?length_take ?text_take //; try lia.
    by replace (Z.of_nat _) with (bufsz - 1) by lia.
  - intros Hn. assert (m = n) as -> by (apply Z.mod_small; lia). split_and!; [done|apply take_ge; lia|].
    apply take_str_fits. unfold strlen in n. lia.
Qed.

Lemma framing_correct_witness :
  c_kind sock = KStream ∧ no_nul "hello" ∧ 0 < 64 ∧
  follows (recv_msg sock None 64 (λ r, Exit r.1)) [ARecv sock [chr 5]; ARecv sock (bytes_of "hello")] 5.
Proof.
  assert (no_nul "hello") as Hn by by apply no_nul_check. split_and!; [done|exact Hn|done|].
  destruct (framing_correct sock eq_refl "hello" Hn 64 eq_refl) as (_ & H & _).
  specialize (H None (λ r, Exit r.1) [] 5). apply H; vm_compute; done.
Defined.

(** Messages that fit the buffer keep the stream in step; one of 60 characters does not:
    its echo has 67, of which the client reads 63 and takes the next for a length. *)
Example echo_too_long : ∀ m, strlen m = 60 → 64 ≤ strlen (echo m).
Proof. intros m Hm. rewrite strlen_echo. lia. Qed.

Lemma section_concepts_text :
  runs section_concepts (λ _ o, stdout o = esc (concat_str [
    "=== 1. Concepts ===
"; "  port 8080 host order:    0x1f90
"; "  port 8080 network order: 0x901f  (swapped (little-endian host))
";
    "  INADDR_LOOPBACK = 127.0.0.1
"; "
"])%string ∧ stderr o = ""%string) False.
Proof. run_program. Qed.

