(* ===== verification/ProcessControl.v ===== *)
(** * Exercise 25: process control

    Model of [exercises/25_processes/processes.c].  A child that only exits or waits for a
    signal is the way it ends; the sections with pipes are pairs of processes of
    [Processes].  Process ids, file descriptors, what other programs print and the status
    they exit with are parameters; [pipe] is taken to succeed, as the code does. *)

From S2P Require Import Prelude Machine CString Double Printf Text SepLogic Pure Interleave Processes.
#[local] Open Scope Z_scope.

#[local] Abbreviation U := Empty_set.

Section program.
(** The parent's id, [strsignal], and the names of the errors. *)
Context (self : Z) (strsignal : Z → string).

(** ** Section 1 *)

Definition fork_child (pid : Z) : proc :=
  (print "  child:  pid=%-6d ppid=%d\n" [AInt pid; AInt self]) (λ _, Exit 0).

Definition fork_parent (pid : Z) : proc :=
  (_ ← print "  parent: pid=%-6d child_pid=%d\n" [AInt self; AInt pid];
   _ ← waitpid;
   print "\n" []) (λ _, Exit 0).

(** [fork]: the id of the child, or the text of the error; without a child the section
    returns. *)
Definition section_fork (fork : string + Z) : M U (option state) :=
  printf "=== 1. fork() and process identity ===\n" [] ;;;
  match fork with
  | inl e => eprintf "fork: %s\n" [AStr e] ;;; ret None
  | inr pid => ret (Some (forked (fork_parent pid) (fork_child pid)))
  end.

(** ** Section 2 *)

(** How a child ends, and the status word [waitpid] stores. *)
Inductive ending := Exited (code : Z) | Killed (sig : Z).
Definition status_word (e : ending) : Z :=
  match e with Exited c => Z.shiftl (Z.land c 255) 8 | Killed s => Z.land s 127 end.

Definition WIFEXITED (st : Z) : bool := Z.land st 127 =? 0.
Definition WEXITSTATUS (st : Z) : Z := Z.shiftr (Z.land st 65280) 8.
Definition WIFSIGNALED (st : Z) : bool :=
  let c := u8 (Z.land st 127 + 1) in 0 <? Z.shiftr (if 128 <=? c then c - 256 else c) 1.
Definition WTERMSIG (st : Z) : Z := Z.land st 127.

Definition check_status (status : Z) : M U unit :=
  if WIFEXITED status then printf "  exited normally, status=%d\n" [AInt (WEXITSTATUS status)]
  else if WIFSIGNALED status then
    printf "  killed by signal %d (%s)\n" [AInt (WTERMSIG status); AStr (strsignal (WTERMSIG status))]
  else printf "  stopped or other\n" [].

Definition SIGTERM : Z := 15.

Definition section_status : M U unit :=
  printf "=== 2. Exit status ===\n" [] ;;;
  let status := status_word (Exited 42) in
  printf "  normal exit:  " [] ;;;
  check_status status ;;;
  let status := status_word (Exited 0) in
  printf "  exit(0):      " [] ;;;
  check_status status ;;;
  let status := status_word (Killed SIGTERM) in
  printf "  killed:       " [] ;;;
  check_status status ;;;
  printf "\n" [].

(** ** Section 3 *)

(** [execvp] in a child: the program writes and ends, or there is no such program and the
    child goes on. *)
Definition exec_child (exec : string + (string * ending)) (failed : string → M U unit) : M U Z :=
  match exec with
  | inr (out, e) => puts_out out ;;; ret (status_word e)
  | inl err => failed err ;;; ret (status_word (Exited 127))
  end.

Definition section_exec (echo missing : string + (string * ending)) : M U unit :=
  printf "=== 3. exec() ===\n" [] ;;;
  status <- exec_child echo (λ e, eprintf "execvp: %s\n" [AStr e]) ;;
  printf "  echo exited with status %d\n" [AInt (WEXITSTATUS status)] ;;;
  status <- exec_child missing (λ e, eprintf "  execvp failed: %s\n" [AStr e]) ;;
  printf "  bad exec: child exited with status %d\n" [AInt (WEXITSTATUS status)] ;;;
  printf "\n" [].

(** ** Section 4 *)

Definition p : chan := Chan 0 KPipe.
Definition to_child : chan := Chan 1 KPipe.
Definition to_parent : chan := Chan 2 KPipe.

Definition pipe_child : proc :=
  (_ ← close p;
   r ← recv p 127;
   let buf := text r in
   print "  child received: \q%s\q\n" [AStr buf]) (λ _, Exit 0).

Definition pipe_parent (msg : string) : proc :=
  (_ ← send p (bytes_of msg);
   _ ← close p;
   _ ← waitpid;
   mret tt) (λ _, Exit 0).

Definition echo_child : proc :=
  (_ ← close to_child;
   r ← recv to_child 127;
   let buf := text r in
   resp ← snprintf 160 "echo: %s" [AStr buf];
   _ ← send to_parent (bytes_of resp);
   close to_parent) (λ _, Exit 0).

Definition echo_parent (msg : string) : proc :=
  (_ ← close to_parent;
   _ ← send to_child (bytes_of msg);
   _ ← close to_child;
   r ← recv to_parent 159;
   let resp := text r in
   _ ← print "  parent received: \q%s\q\n" [AStr resp];
   _ ← waitpid;
   print "\n" []) (λ _, Exit 0).

(** The heading, and the two pairs of processes, the second after the first. *)
Definition section_pipe : list piece :=
  [Forked (printf "=== 4. Pipes ===\n" [] ;;; ret (forked (pipe_parent "hello through the pipe") pipe_child));
   Forked (ret (forked (echo_parent "ping") echo_child))].

(** ** Section 5 *)

(** [while (fgets(buf, sizeof buf, fp))] *)
Fixpoint read_lines (fuel : nat) (s : bytes) : M U unit :=
  match fuel with
  | O => λ _, NoFuel
  | S fuel =>
      match s with
      | [] => ret tt
      | _ =>
          let '(buf, rest) := fgets 255 s in
          let buf := chomp (text buf) in
          printf "  uname: %s\n" [AStr buf] ;;;
          read_lines fuel rest
      end
  end.

(** [popen]: what the command writes and how it ends, or the error; [cat] is what the
    second command makes of its input. *)
Definition section_popen (uname : string + (string * ending)) (cat : string + (string → string)) : M U unit :=
  printf "=== 5. popen() ===\n" [] ;;;
  match uname with
  | inl e => eprintf "popen: %s\n" [AStr e]
  | inr (out, e) =>
      read_lines (S (length (bytes_of out))) (bytes_of out) ;;;
      let rc := status_word e in
      printf "  pclose status: %d\n" [AInt (WEXITSTATUS rc)] ;;;
      match cat with
      | inl e => eprintf "popen: %s\n" [AStr e]
      | inr f =>
          puts_out (f (esc "first line\nsecond line\nthird line\n")) ;;;
          printf "\n" []
      end
  end.

(** ** Section 6 *)

Definition section_pitfalls (fd0 fd1 : Z) : M U unit :=
  printf "=== 6. Pitfalls ===\n" [] ;;;
  let status := status_word (Exited 0) in
  printf "  reaped zombie (status %d) — without waitpid this\n" [AInt (WEXITSTATUS status)] ;;;
  printf "  entry would stay in the process table until we exit\n" [] ;;;
  printf "  FD_CLOEXEC set on pipe fds %d,%d — will close on exec\n" [AInt fd0; AInt fd1] ;;;
  printf "\n  Pitfall summary:\n" [] ;;;
  printf "  ZOMBIE:    child exits, parent never calls waitpid\n" [] ;;;
  printf "  ORPHAN:    parent exits before child — child reparented to init\n" [] ;;;
  printf "  STDIO:     fflush(stdout) before every fork()\n" [] ;;;
  printf "  PIPE EOF:  close unused pipe ends or child never sees EOF\n" [] ;;;
  printf "  FD LEAK:   use O_CLOEXEC / pipe2 for FDs that should not exec\n" [] ;;;
  printf "\n" [].

(** What the system answers: to [fork] in section 1, to [execvp] and [popen], and the file
    descriptors of a pipe. *)
Record env := {
  fork : string + Z;
  exec_echo : string + (string * ending);
  exec_missing : string + (string * ending);
  popen_uname : string + (string * ending);
  popen_cat : string + (string → string);
  pipe_fds : Z * Z }.

Definition main (e : env) : list piece :=
  [Forks (section_fork (fork e)); Alone section_status; Alone (section_exec (exec_echo e) (exec_missing e))]
  ++ section_pipe ++
  [Alone (section_popen (popen_uname e) (popen_cat e)); Alone (section_pitfalls (pipe_fds e).1 (pipe_fds e).2)].
End program.

(** ** Status words *)

Lemma low_bits n z : 0 ≤ n → Z.land z (Z.ones n) = z mod 2 ^ n.
Proof. apply Z.land_ones. Qed.

Lemma WIFEXITED_spec st : WIFEXITED st = (st mod 128 =? 0).
Proof. unfold WIFEXITED. by rewrite (low_bits 7). Qed.
Lemma WTERMSIG_spec st : WTERMSIG st = st mod 128.
Proof. unfold WTERMSIG. by rewrite (low_bits 7). Qed.

Lemma WIFSIGNALED_spec st : WIFSIGNALED st = (0 <? st mod 128) && (st mod 128 <? 127).
Proof.
  unfold WIFSIGNALED. rewrite (low_bits 7) //. change (2 ^ 7) with 128. pose proof (Z.mod_pos_bound st 128 eq_refl) as H.
  set (x := st mod 128) in *. clearbody x. unfold u8. change (2 ^ 8) with 256. rewrite (Z.mod_small (x + 1)); [|lia].
  rewrite Z.shiftr_div_pow2 //. change (2 ^ 1) with 2.
  destruct (Z.leb_spec 128 (x + 1)).
  - replace (_ <? 127) with false by (symmetry; apply Z.ltb_ge; lia). rewrite andb_false_r. apply Z.ltb_ge.
    assert (x = 127) as -> by lia. done.
  - replace (_ <? 127) with true by (symmetry; apply Z.ltb_lt; lia). rewrite andb_true_r.
    apply Bool.eq_iff_eq_true. rewrite !Z.ltb_lt. split; intros Hx.
    + destruct (Z.eq_dec x 0) as [->|]; [done|lia].
    + apply Z.div_str_pos. lia.
Qed.

Lemma status_exited c : WIFEXITED (status_word (Exited c)) = true ∧ WEXITSTATUS (status_word (Exited c)) = c mod 256.
Proof.
  unfold status_word, WEXITSTATUS. rewrite WIFEXITED_spec (low_bits 8) //. change (2 ^ 8) with 256.
  pose proof (Z.mod_pos_bound c 256 eq_refl) as H. set (x := c mod 256) in *. clearbody x.
  rewrite Z.shiftl_mul_pow2 //. change (2 ^ 8) with (2 * 128). split; [by rewrite Z.mul_assoc Z_mod_mult|].
  change 65280 with (Z.shiftl (Z.ones 8) 8). rewrite Z.shiftr_land Z.shiftr_shiftl_l //. change (8 - 8) with 0. rewrite Z.shiftl_0_r.
  rewrite (low_bits 8) // Z.shiftr_div_pow2 // Z.div_mul // Z.mod_small //.
Qed.

Lemma status_killed s : 0 < s < 127 →
  WIFEXITED (status_word (Killed s)) = false ∧ WIFSIGNALED (status_word (Killed s)) = true ∧ WTERMSIG (status_word (Killed s)) = s.
Proof.
  intros Hs. unfold status_word. rewrite WIFEXITED_spec WIFSIGNALED_spec WTERMSIG_spec (low_bits 7) //.
  change (2 ^ 7) with 128. rewrite !(Z.mod_small s); [|lia..]. split_and!; [|apply andb_true_iff; split|done];
    rewrite ?Z.eqb_neq ?Z.ltb_lt; lia.
Qed.

(** ** The lines of a command *)

Definition uname_line (l : string) : string := line "  uname: %s\n" [AStr l].

(** A part of what a command writes as [fgets] takes it for the buffer of 256 characters,
    when [rest] comes after it: a line with its newline, 255 characters of a longer one, or
    the end. *)
Definition is_part (p rest : bytes) : Prop :=
  p ≠ [] ∧ (length p ≤ 255)%nat ∧ nl ∉ removelast p ∧ (length p = 255%nat ∨ last p = Some nl ∨ rest = []).

Fixpoint cut (ps : list bytes) : Prop :=
  match ps with [] => True | p :: ps' => is_part p (concat ps') ∧ cut ps' end.

(** What [%s] shows of a part: its characters up to the first newline or NUL. *)
Fixpoint shown (p : bytes) : string :=
  match p with
  | [] => ""
  | c :: p' => if Ascii.eqb c nl || Ascii.eqb c "000"%char then "" else String c (shown p')
  end.

Lemma shown_chomp p : chomp (text p) = shown p.
Proof.
  unfold chomp. induction p as [|c p IH]; [done|]. cbn [text shown].
  destruct (Ascii.eqb_spec c "000"%char) as [->|]; [done|]. rewrite orb_false_r. simpl.
  destruct (Ascii.eqb c nl); [done|]. simpl. by rewrite IH.
Qed.

Lemma fgets_part n p rest : (length p ≤ n)%nat → nl ∉ removelast p →
  (length p = n ∨ last p = Some nl ∨ rest = []) → fgets n (p ++ rest) = (p, rest).
Proof.
  revert n. induction p as [|c p IH]; intros n Hn Hnl He.
  - destruct He as [<-|[?| ->]]; [done|done|by destruct n].
  - destruct n as [|n]; [simpl in Hn; lia|]. cbn [app fgets]. destruct p as [|d p].
    + destruct (Ascii.eqb_spec c nl) as [->|Hc]; [done|]. destruct He as [[= <-]|[[= ?]| ->]]; [done|done|by destruct n].
    + destruct (Ascii.eqb_spec c nl) as [->|Hc]; [simpl in Hnl; set_solver|]. rewrite IH //.
      * simpl in *; lia.
      * intros H. apply Hnl. by apply list_elem_of_further.
      * destruct He as [[= He]|[He|He]]; auto.
Qed.

(** Every output is cut in this way. *)
Lemma fgets_is_part n bs : let '(p, rest) := fgets n bs in
  (length p ≤ n)%nat ∧ nl ∉ removelast p ∧ (length p = n ∨ last p = Some nl ∨ rest = []).
Proof.
  revert bs. induction n as [|n IH]; intros bs; [simpl; split_and!; [lia|set_solver|by left]|].
  destruct bs as [|c bs]; [simpl; split_and!; [lia|set_solver|auto]|]. cbn [fgets].
  destruct (Ascii.eqb_spec c nl) as [->|Hc]; [simpl; split_and!; [lia|set_solver|auto]|].
  specialize (IH bs). destruct (fgets n bs) as [p rest]. destruct IH as (Hl & Hnl & He). split_and!.
  - simpl. lia.
  - destruct p as [|d p]; [set_solver|]. change (nl ∉ c :: removelast (d :: p)). set_solver.
  - destruct p as [|d p]; [|by destruct He as [<-|[?|?]]; auto]. destruct He as [<-|[?|?]]; [by left|done|auto].
Qed.

Lemma cut_exists bs : ∃ ps, cut ps ∧ concat ps = bs.
Proof.
  remember (length bs) as n eqn:En. assert (length bs ≤ n)%nat as Hn by lia. clear En. revert bs Hn.
  induction n as [|n IH]; intros [|c bs] Hn; [by exists []|simpl in Hn; lia|by exists []|].
  pose proof (fgets_progress 254 (c :: bs) ltac:(done)) as Hp. pose proof (fgets_split 255 (c :: bs)) as Es.
  pose proof (fgets_is_part 255 (c :: bs)) as Hpart. destruct (fgets 255 (c :: bs)) as [p rest]. cbn [fst snd] in *.
  destruct (IH rest) as (ps & Hps & <-); [simpl in *; lia|]. exists (p :: ps). split; [|done]. split; [|done].
  split; [|done]. intros ->. rewrite -Es in Hp. simpl in Hp. lia.
Qed.

Lemma read_lines_prints ps : cut ps → ∀ fuel, (length (concat ps) < fuel)%nat →
  ∃ o, writes (read_lines fuel (concat ps)) tt o ∧ stdout o = concat_str ((λ p, uname_line (shown p)) <$> ps).
Proof.
  induction ps as [|p ps IH]; intros Hps [|fuel] Hfuel; [lia| |lia|].
  - exists []. split; [apply yields_ret|done].
  - destruct Hps as [(Hne & Hlen & Hnl & He) Hps]. cbn [concat] in *. rewrite length_app in Hfuel.
    assert (0 < length p)%nat by (destruct p; [done|simpl; lia]).
    destruct (IH Hps fuel ltac:(lia)) as (o & Ho & Eo). cbn [read_lines].
    destruct (p ++ concat ps) as [|c s1] eqn:Es; [by apply app_nil in Es as [-> _]|].
    rewrite -Es fgets_part // shown_chomp.
    eexists. split; [eapply writes_bind; [by apply writes_printf|exact Ho]|].
    rewrite stdout_app Eo. simpl. by rewrite ?string_app_nil_r.
Qed.

(** Lines without newline and NUL that fit the buffer. *)
Definition good_line (l : string) : Prop := one_line l ∧ (String.length l < 255)%nat.

Lemma shown_line l : one_line l → shown (line_bytes l) = l.
Proof. intros Hl. by rewrite -shown_chomp chomp_text. Qed.

Lemma good_line_part l rest : good_line l → is_part (line_bytes l) rest.
Proof.
  intros [Hl Hn]. pose proof (fgets_is_part 255 (line_bytes l ++ rest)) as H. rewrite fgets_line // in H.
  destruct H as (? & ? & ?). split_and!; [by destruct l|done|done|]. right; left. unfold line_bytes. by rewrite last_snoc.
Qed.

Lemma lines_cut ls : Forall good_line ls → cut (line_bytes <$> ls).
Proof. induction 1 as [|l ls Hl Hls IH]; [done|]. split; [by apply good_line_part|done]. Qed.

(** ** The conversations *)

Definition status : role → Z := λ _, 0.

Definition fork_conversation (self pid : Z) : list global :=
  [GPrint Child (line "  child:  pid=%-6d ppid=%d\n" [AInt pid; AInt self]);
   GPrint Parent (line "  parent: pid=%-6d child_pid=%d\n" [AInt self; AInt pid]);
   GWait Parent; GPrint Parent (line "\n" [])].

Definition pipe_conversation (msg : string) : list global :=
  [GClose Child p; GMsg Parent p (bytes_of msg); GClose Parent p;
   GPrint Child (line "  child received: \q%s\q\n" [AStr msg]); GWait Parent].

Definition echo_reply (msg : string) : string := ("echo: " +:+ msg)%string.
Definition echo_conversation (msg : string) : list global :=
  [GClose Child to_child; GClose Parent to_parent; GMsg Parent to_child (bytes_of msg); GClose Parent to_child;
   GMsg Child to_parent (bytes_of (echo_reply msg)); GClose Child to_parent;
   GPrint Parent (line "  parent received: \q%s\q\n" [AStr (echo_reply msg)]); GWait Parent; GPrint Parent (line "\n" [])].

(** A message that fits [char buf[128]] with its terminator. *)
Definition fits (m : string) : Prop := 0 < strlen m ≤ 127 ∧ no_nul m.

Lemma fork_holds self pid : holds_conversation status (fork_conversation self pid) (fork_parent self pid) (fork_child self pid).
Proof.
  apply conversation_sound; unfold fork_conversation; [concrete|unfold fork_parent; parts; by do 3 follow|].
  unfold fork_child; parts. by follow.
Qed.

Lemma pipe_holds msg : fits msg → holds_conversation status (pipe_conversation msg) (pipe_parent msg) pipe_child.
Proof.
  intros [Hm Hn]. pose proof (bytes_of_ne msg ltac:(lia)) as Hne. pose proof (length_bytes_of msg) as Hlen.
  apply conversation_sound; unfold pipe_conversation; [concrete| |].
  - unfold pipe_parent. parts. unbind. apply follows_send; [done|]. do 2 follow. done.
  - unfold pipe_child. parts. follow. apply follows_recv; [done|lia|lia|]. rewrite text_bytes //. by follow.
Qed.

Lemma echo_holds msg : fits msg → holds_conversation status (echo_conversation msg) (echo_parent msg) echo_child.
Proof.
  intros [Hm Hn]. pose proof (bytes_of_ne msg ltac:(lia)) as Hne. pose proof (length_bytes_of msg) as Hlen.
  assert (strlen (echo_reply msg) = 6 + strlen msg) as Hr by (unfold strlen, echo_reply; rewrite string_app_length; simpl; lia).
  pose proof (bytes_of_ne (echo_reply msg) ltac:(lia)) as Hrne. pose proof (length_bytes_of (echo_reply msg)) as Hrlen.
  assert (no_nul (echo_reply msg)) as Hrn by (apply no_nul_app; [by apply no_nul_check|done]).
  apply conversation_sound; unfold echo_conversation; [concrete| |].
  - unfold echo_parent. parts. follow. apply follows_send; [done|]. follow. apply follows_recv; [done|lia|lia|].
    rewrite text_bytes //. do 3 follow. done.
  - unfold echo_child. parts. follow. apply follows_recv; [done|lia|lia|]. rewrite text_bytes //. unbind.
    apply (follows_snprintf _ _ _ (echo_reply msg)); [by rewrite -(string_app_nil_r (echo_reply msg))|unfold strlen in *; lia|].
    unbind. apply follows_send; [done|]. by follow.
Qed.

(** ** The whole program *)

Section session.
Context (self : Z) (strsignal : Z → string).

Definition status_text : string := concat_str [
  line "=== 2. Exit status ===\n" [];
  line "  normal exit:  " []; line "  exited normally, status=%d\n" [AInt 42];
  line "  exit(0):      " []; line "  exited normally, status=%d\n" [AInt 0];
  line "  killed:       " []; line "  killed by signal %d (%s)\n" [AInt 15; AStr (strsignal 15)];
  line "\n" []].

(** What a child that calls [execvp] leaves, and the status its parent prints. *)
Definition exec_output (exec : string + (string * ending)) : string := match exec with inl _ => "" | inr (out, _) => out end.
Definition exec_status (exec : string + (string * ending)) : Z :=
  match exec with inl _ => 127 | inr (_, Exited c) => c mod 256 | inr (_, Killed _) => 0 end.

Definition exec_text (echo missing : string + (string * ending)) : string := concat_str [
  line "=== 3. exec() ===\n" [];
  exec_output echo; line "  echo exited with status %d\n" [AInt (exec_status echo)];
  exec_output missing; line "  bad exec: child exited with status %d\n" [AInt (exec_status missing)];
  line "\n" []].

(** The parts [ps] of what the first command writes, each after its label.  A command that
    is not started ends the section. *)
Definition popen_text (ps : list bytes) (uname : string + (string * ending)) (cat : string + (string → string)) : string :=
  concat_str (line "=== 5. popen() ===\n" [] ::
    match uname with
    | inl _ => []
    | inr (_, e) =>
        [concat_str ((λ p, uname_line (shown p)) <$> ps);
         line "  pclose status: %d\n" [AInt (exec_status (inr (""%string, e)))];
         match cat with
         | inl _ => ""
         | inr f => (f (esc "first line\nsecond line\nthird line\n") +:+ line "\n" [])%string
         end]
    end).

Definition pitfalls_text (fd0 fd1 : Z) : string := concat_str [
  line "=== 6. Pitfalls ===\n" [];
  line "  reaped zombie (status %d) — without waitpid this\n" [AInt 0];
  line "  entry would stay in the process table until we exit\n" [];
  line "  FD_CLOEXEC set on pipe fds %d,%d — will close on exec\n" [AInt fd0; AInt fd1];
  line "\n  Pitfall summary:\n" [];
  line "  ZOMBIE:    child exits, parent never calls waitpid\n" [];
  line "  ORPHAN:    parent exits before child — child reparented to init\n" [];
  line "  STDIO:     fflush(stdout) before every fork()\n" [];
  line "  PIPE EOF:  close unused pipe ends or child never sees EOF\n" [];
  line "  FD LEAK:   use O_CLOEXEC / pipe2 for FDs that should not exec\n" [];
  line "\n" []].

Definition session_spec (e : env) (ps : list bytes) : list spec :=
  [(line "=== 1. fork() and process identity ===\n" [],
    match fork e with inl _ => None | inr pid => Some (status, fork_conversation self pid) end);
   (status_text, None); (exec_text (exec_echo e) (exec_missing e), None);
   (line "=== 4. Pipes ===\n" [], Some (status, pipe_conversation "hello through the pipe"));
   (""%string, Some (status, echo_conversation "ping"));
   (popen_text ps (popen_uname e) (popen_cat e), None); (pitfalls_text (pipe_fds e).1 (pipe_fds e).2, None)].

(** [ps] is what [fgets] makes of the output of the first command of section 5. *)
Definition uname_parts (e : env) (ps : list bytes) : Prop :=
  cut ps ∧ match popen_uname e with inl _ => True | inr (out, _) => concat ps = bytes_of out end.

Lemma uname_parts_exist e : ∃ ps, uname_parts e ps.
Proof.
  unfold uname_parts. destruct (popen_uname e) as [err|[out en]]; [by exists []|]. apply cut_exists.
Qed.

Lemma exec_status_spec e : WEXITSTATUS (status_word e) = exec_status (inr (""%string, e)).
Proof.
  destruct e as [c|s]; simpl; [apply status_exited|].
  unfold WEXITSTATUS, status_word. rewrite (low_bits 7) //. change (2 ^ 7) with 128.
  pose proof (Z.mod_pos_bound s 128 eq_refl) as H. set (x := s mod 128) in *. clearbody x.
  change 65280 with (Z.shiftl (Z.ones 8) 8). rewrite Z.shiftr_land Z.shiftr_shiftl_l // Z.shiftr_div_pow2 //.
  change (2 ^ 8) with 256. rewrite Z.div_small; [done|lia].
Qed.

Lemma exec_child_says exec failed : (∀ e, says (failed e) tt "") →
  ∃ st, says (exec_child exec failed) st (exec_output exec) ∧ WEXITSTATUS st = exec_status exec.
Proof.
  intros Hfailed. destruct exec as [e|[out e]]; simpl in *.
  - exists (status_word (Exited 127)). split; [|done]. eapply says_quiet; [done|apply says_ret].
  - exists (status_word e). split; [|by rewrite exec_status_spec].
    eapply says_then; [apply says_out|apply says_ret].
Qed.

Lemma check_exited c : says (check_status strsignal (status_word (Exited c))) tt
  (line "  exited normally, status=%d\n" [AInt (c mod 256)]).
Proof. unfold check_status. destruct (status_exited c) as [-> ->]. apply says_printf. by eexists. Qed.

Lemma check_killed s : 0 < s < 127 → says (check_status strsignal (status_word (Killed s))) tt
  (line "  killed by signal %d (%s)\n" [AInt s; AStr (strsignal s)]).
Proof.
  intros Hs. unfold check_status. destruct (status_killed s Hs) as (-> & -> & ->). apply says_printf. by eexists.
Qed.

Lemma section_status_says : says (section_status strsignal) tt status_text.
Proof.
  unfold section_status, status_text. cbv zeta. says_lines; (eapply says_cons; [first [apply check_exited|by apply check_killed]|]); says_lines.
Qed.

Lemma section_exec_says echo missing : says (section_exec echo missing) tt (exec_text echo missing).
Proof.
  unfold section_exec, exec_text. says_lines.
  destruct (exec_child_says echo (λ e, eprintf "execvp: %s\n" [AStr e])) as (st & Hst & Est).
  { intros e. apply says_eprintf. by eexists. }
  eapply says_cons; [exact Hst|]. rewrite Est. says_lines.
  destruct (exec_child_says missing (λ e, eprintf "  execvp failed: %s\n" [AStr e])) as (st' & Hst' & Est').
  { intros e. apply says_eprintf. by eexists. }
  eapply says_cons; [exact Hst'|]. rewrite Est'. says_lines.
Qed.

Lemma section_popen_says e ps : uname_parts e ps →
  says (section_popen (popen_uname e) (popen_cat e)) tt (popen_text ps (popen_uname e) (popen_cat e)).
Proof.
  unfold uname_parts, section_popen, popen_text. intros [Hps Hout]. destruct (popen_uname e) as [err|[out en]].
  - eapply says_cons; [apply says_printf; by eexists|]. apply says_eprintf. by eexists.
  - rewrite -Hout. says_lines.
    destruct (read_lines_prints ps Hps _ (Nat.lt_succ_diag_r _)) as (o & Ho & <-).
    eapply says_cons; [by apply says_writes|]. rewrite exec_status_spec. says_lines.
    apply says_last. destruct (popen_cat e) as [err|f]; [apply says_eprintf; by eexists|].
    eapply says_bind; [apply says_out|apply says_printf; by eexists].
Qed.

Lemma section_pitfalls_says fd0 fd1 : says (section_pitfalls fd0 fd1) tt (pitfalls_text fd0 fd1).
Proof. unfold section_pitfalls, pitfalls_text. says_lines. Qed.

Lemma processes_described e ps : uname_parts e ps → Forall2 describes (main self strsignal e) (session_spec e ps).
Proof.
  intros Hps. unfold main, session_spec, section_pipe. cbn [app].
  repeat (apply Forall2_cons; split); try apply says_described.
  - cbn. destruct (fork e) as [err|pid].
    + eexists _, _. split; reflexivity.
    + eexists _, _, _, _. split_and!; [reflexivity|done|apply fork_holds].
  - apply section_status_says.
  - apply section_exec_says.
  - eexists _, _, _, _. split_and!; [reflexivity|done|apply pipe_holds; split; [done|by apply no_nul_check]].
  - eexists _, _, _, _. split_and!; [reflexivity|done|apply echo_holds; split; [done|by apply no_nul_check]].
  - by apply section_popen_says.
  - apply section_pitfalls_says.
  - done.
Qed.
End session.

(** ** Properties *)

(** C25. The processes of sections 1 and 4: whatever the order in which parent and child
    go on, nobody waits for ever and nothing is undefined, the messages of up to 127
    characters arrive, and each prints its lines.  The whole program, whether or not
    section 1 can fork and the two [popen]s succeed, and whatever the programs it starts
    print and the way they end, comes to its end, and its output is that of its parts in
    order: the statuses of the children, what the programs wrote, and after the label of
    [uname] each part of its output that [fgets] takes, up to its first newline or NUL.
    These parts are unique in being lines, or 255 characters of longer ones, but for the
    last, and lines that fit the buffer are printed as they are. *)
Theorem process_sessions_correct (self : Z) (strsignal : Z → string) :
  (∀ pid, holds_conversation status (fork_conversation self pid) (fork_parent self pid) (fork_child self pid)) ∧
  (∀ msg, fits msg → holds_conversation status (pipe_conversation msg) (pipe_parent msg) pipe_child) ∧
  (∀ msg, fits msg → holds_conversation status (echo_conversation msg) (echo_parent msg) echo_child) ∧
  (∀ e, (∃ ps, uname_parts e ps) ∧ (∃ ts, session (main self strsignal e) ts) ∧
     ∀ ps ts, uname_parts e ps → session (main self strsignal e) ts → transcript (session_spec self strsignal e ps) ts) ∧
  (∀ ls, Forall good_line ls → cut (line_bytes <$> ls) ∧ (λ l, shown (line_bytes l)) <$> ls = ls).
Proof.
  split_and!; [apply fork_holds|apply pipe_holds|apply echo_holds| |].
  - intros e. destruct (uname_parts_exist e) as [ps Hps]. split; [by exists ps|].
    split; [by eapply session_exists, processes_described|]. intros ps' ts Hps' Hts.
    by eapply session_sound; [apply processes_described|].
  - intros ls Hls. split; [by apply lines_cut|]. induction Hls as [|l ls Hl Hls IH]; [done|].
    cbn. rewrite IH shown_line //. apply Hl.
Qed.

(** C26. The status word of a child and its decoding: an exit code is printed modulo 256,
    a signal as it is, and every other word is that of a child that is not at its end. *)
Theorem check_status_correct (strsignal : Z → string) :
  (∀ code, writes (check_status strsignal (status_word (Exited code))) tt
     [Out (line "  exited normally, status=%d\n" [AInt (code mod 256)])]) ∧
  (∀ sig, 0 < sig < 127 → writes (check_status strsignal (status_word (Killed sig))) tt
     [Out (line "  killed by signal %d (%s)\n" [AInt sig; AStr (strsignal sig)])]) ∧
  (∀ word, writes (check_status strsignal word) tt
     [Out (if word mod 128 =? 0 then line "  exited normally, status=%d\n" [AInt (WEXITSTATUS word)]
           else if word mod 128 =? 127 then line "  stopped or other\n" []
           else line "  killed by signal %d (%s)\n" [AInt (word mod 128); AStr (strsignal (word mod 128))])]).
Proof.
  split_and!.
  - intros code. unfold check_status. destruct (status_exited code) as [-> ->]. apply writes_printed. by eexists.
  - intros sig Hs. unfold check_status. destruct (status_killed sig Hs) as (-> & -> & ->). apply writes_printed. by eexists.
  - intros word. unfold check_status. rewrite WIFEXITED_spec WIFSIGNALED_spec WTERMSIG_spec.
    pose proof (Z.mod_pos_bound word 128 eq_refl) as Hb. set (x := word mod 128) in *. clearbody x.
    destruct (Z.eqb_spec x 0); [apply writes_printed; by eexists|].
    rewrite (proj2 (Z.ltb_lt 0 x)); [|lia]. cbn [andb].
    destruct (Z.eqb_spec x 127) as [->|]; [apply writes_printed; by eexists|].
    rewrite (proj2 (Z.ltb_lt x 127)); [|lia]. apply writes_printed. by eexists.
Qed.
