(* ===== verification/Signals.v ===== *)
(** * Exercise 23: signal handling

    Model of [exercises/23_signals/signals.c].  The state of the process has for each
    signal what is to happen when it arrives, the signals that are blocked and those that
    wait, and the variables the handlers share with the program.  [raise] runs the handler
    before it returns; [SIGALRM] arrives at one of the points at which the program looks at
    the variable its handler sets, or later than all of them.  Whether [signal] resets the
    disposition when the handler runs is up to the implementation, and a parameter. *)

From S2P Require Import Prelude Machine CString Double Printf Text SepLogic Pure Processes.
#[local] Open Scope Z_scope.

(** ** Signals *)

Definition SIGINT : Z := 2.
Definition SIGQUIT : Z := 3.
Definition SIGFPE : Z := 8.
Definition SIGKILL : Z := 9.
Definition SIGUSR1 : Z := 10.
Definition SIGSEGV : Z := 11.
Definition SIGUSR2 : Z := 12.
Definition SIGPIPE : Z := 13.
Definition SIGALRM : Z := 14.
Definition SIGTERM : Z := 15.
Definition SIGCHLD : Z := 17.
Definition SIGCONT : Z := 18.
Definition SIGSTOP : Z := 19.

(** Pointers to the handlers of the program. *)
Inductive handler := p_simple_handler | p_shutdown_handler | p_usr1_handler | p_sa_simple_handler | p_sa_info_handler | p_alarm_handler | p_safe_handler.

Inductive sighandler := SIG_DFL | SIG_IGN | Handler (h : handler).

(** [struct sigaction]; a mask is a list of signals. *)
Record sigaction := Sigaction { sa_handler : sighandler; sa_mask : list Z; sa_flags : Z }.

Definition SA_SIGINFO : Z := 4.
Definition SA_RESTART : Z := 268435456.
Definition SA_NODEFER : Z := 1073741824.
Definition SA_RESETHAND : Z := 2147483648.
Definition has_flag (sa : sigaction) (f : Z) : bool := negb (Z.land (sa_flags sa) f =? 0).

Record process := Process {
  actions : Z → sigaction;
  blocked : list Z;
  pending : list Z;
  alarm_set : bool;
  g_shutdown : Z;
  g_usr1 : Z;
  g_timed_out : Z;
  g_sigusr1_count : Z;
  out : list string }.

(** A computation returns, is killed by a signal, or is undefined. *)
Inductive result (A : Type) := Done (a : A) (s : process) | Killed (sig : Z) (s : process) | Undefined.
Arguments Done {A} _ _.
Arguments Killed {A} _ _.
Arguments Undefined {A}.

Definition sm (A : Type) : Type := process → result A.
#[export] Instance sm_ret : MRet sm := λ A a s, Done a s.
#[export] Instance sm_bind : MBind sm := λ A B f m s,
  match m s with Done a s' => f a s' | Killed sig s' => Killed sig s' | Undefined => Undefined end.

Definition get {A} (f : process → A) : sm A := λ s, Done (f s) s.
Definition update (f : process → process) : sm unit := λ s, Done tt (f s).
Definition undef {A} : sm A := λ _, Undefined.
Definition write_out (t : string) : sm unit :=
  update (λ s, Process (actions s) (blocked s) (pending s) (alarm_set s) (g_shutdown s) (g_usr1 s) (g_timed_out s) (g_sigusr1_count s) (out s ++ [t])).

(** The output is flushed at every newline, which ends every text that is printed, so
    that [printf] and [write] keep their order. *)
Definition printf (fmt : string) (args : list parg) : sm unit :=
  match format fmt args with Some t => write_out t | None => undef end.

Definition set_action (sig : Z) (sa : sigaction) : sm unit := update (λ s,
  Process (λ x, if x =? sig then sa else actions s x) (blocked s) (pending s) (alarm_set s) (g_shutdown s) (g_usr1 s) (g_timed_out s) (g_sigusr1_count s) (out s)).
Definition set_blocked (l : list Z) : sm unit := update (λ s,
  Process (actions s) l (pending s) (alarm_set s) (g_shutdown s) (g_usr1 s) (g_timed_out s) (g_sigusr1_count s) (out s)).
Definition set_pending (l : list Z) : sm unit := update (λ s,
  Process (actions s) (blocked s) l (alarm_set s) (g_shutdown s) (g_usr1 s) (g_timed_out s) (g_sigusr1_count s) (out s)).
Definition set_alarm (b : bool) : sm unit := update (λ s,
  Process (actions s) (blocked s) (pending s) b (g_shutdown s) (g_usr1 s) (g_timed_out s) (g_sigusr1_count s) (out s)).
Definition set_shutdown (v : Z) : sm unit := update (λ s,
  Process (actions s) (blocked s) (pending s) (alarm_set s) v (g_usr1 s) (g_timed_out s) (g_sigusr1_count s) (out s)).
Definition set_usr1 (v : Z) : sm unit := update (λ s,
  Process (actions s) (blocked s) (pending s) (alarm_set s) (g_shutdown s) v (g_timed_out s) (g_sigusr1_count s) (out s)).
Definition set_timed_out (v : Z) : sm unit := update (λ s,
  Process (actions s) (blocked s) (pending s) (alarm_set s) (g_shutdown s) (g_usr1 s) v (g_sigusr1_count s) (out s)).
Definition set_count (v : Z) : sm unit := update (λ s,
  Process (actions s) (blocked s) (pending s) (alarm_set s) (g_shutdown s) (g_usr1 s) (g_timed_out s) v (out s)).

Definition mem (x : Z) (l : list Z) : bool := existsb (Z.eqb x) l.
Definition add (x : Z) (l : list Z) : list Z := if mem x l then l else l ++ [x].
Definition remove (x : Z) (l : list Z) : list Z := filter (λ y, y ≠ x) l.

(** What an [int] operation gives, if it is one. *)
Definition int_of (z : Z) : sm Z := if Machine.in_int z then mret z else undef.

Section program.
(** Whether [signal] resets the disposition to the default when the handler runs; the
    process id; the number of the look at the flag of the alarm before which it goes off;
    what is left of an alarm of ten seconds that is cancelled at once. *)
Context (one_shot : bool) (self : Z) (goes_off : Z) (left : Z).

(** ** Handlers *)

(** [write_int(fd, n)]: the digits from the end of [buf], 32 characters long. *)
Definition set_char (buf : list ascii) (i : Z) (c : ascii) : sm (list ascii) :=
  if (0 <=? i) && (i <? length buf) then mret (<[Z.to_nat i := c]> buf) else undef.

(** [do { buf[--i] = '0' + (n % 10); n /= 10; } while (n > 0);] *)
Fixpoint put_digits (fuel : nat) (buf : list ascii) (i n : Z) : sm (list ascii * Z) :=
  match fuel with
  | O => undef
  | S fuel =>
      let i := i - 1 in
      buf ← set_char buf i (chr (48 + Z.rem n 10));
      let n := Z.quot n 10 in
      if 0 <? n then put_digits fuel buf i n else mret (buf, i)
  end.

Definition write_int (n : Z) : sm unit :=
  let buf := replicate 32 "000"%char in
  let neg := n <? 0 in
  n ← (if neg then int_of (- n) else mret n);
  let i := 31 in
  buf ← set_char buf i "000"%char;
  '(buf, i) ← put_digits 32 buf i n;
  '(buf, i) ← (if neg then let i := i - 1 in buf ← set_char buf i "-"%char; mret (buf, i) else mret (buf, i));
  write_out (string_of_list_ascii (take (Z.to_nat (32 - 1 - i)) (drop (Z.to_nat i) buf))).

(** [snprintf] into [char buf[64]] and [write] of as many characters as it returned. *)
Definition write_buf64 (fmt : string) (args : list parg) : sm unit :=
  match format fmt args with
  | Some t => if strlen t <? 64 then write_out t else undef
  | None => undef
  end.

Definition simple_handler : sm unit := write_out (esc "  [handler] caught SIGINT\n").
Definition shutdown_handler : sm unit := set_shutdown 1.
Definition usr1_handler : sm unit := set_usr1 1.
Definition sa_simple_handler : sm unit := write_out (esc "  [sigaction handler] SIGUSR1 received\n").
Definition sa_info_handler (sig : Z) : sm unit := write_buf64 "  [SA_SIGINFO] sig=%d from pid=%d\n" [AInt sig; AInt self].
Definition alarm_handler : sm unit := set_timed_out 1.
Definition safe_handler : sm unit :=
  count ← get g_sigusr1_count;
  count ← int_of (count + 1);
  _ ← set_count count;
  _ ← write_out "  [safe_handler] count=";
  count ← get g_sigusr1_count;
  _ ← write_int count;
  write_out (esc "\n").

Definition run_handler (h : handler) (sig : Z) : sm unit :=
  match h with
  | p_simple_handler => simple_handler
  | p_shutdown_handler => shutdown_handler
  | p_usr1_handler => usr1_handler
  | p_sa_simple_handler => sa_simple_handler
  | p_sa_info_handler => sa_info_handler sig
  | p_alarm_handler => alarm_handler
  | p_safe_handler => safe_handler
  end.

(** ** Delivery *)

(** The default actions of section 1; a process that stops is outside the model. *)
Definition default_action (sig : Z) : sm unit :=
  if mem sig [SIGCHLD; SIGCONT] then mret tt
  else if mem sig [SIGSTOP] then undef
  else λ s, Killed sig s.

(** Delivery of [sig]: while its handler runs it is blocked, as are the signals of its
    mask.  No handler of the program raises a signal. *)
Definition deliver (sig : Z) : sm unit :=
  sa ← get (λ s, actions s sig);
  match sa_handler sa with
  | SIG_DFL => default_action sig
  | SIG_IGN => mret tt
  | Handler h =>
      _ ← (if has_flag sa SA_RESETHAND then set_action sig (Sigaction SIG_DFL (sa_mask sa) (sa_flags sa)) else mret tt);
      mask ← get blocked;
      _ ← set_blocked (foldr add mask ((if has_flag sa SA_NODEFER then [] else [sig]) ++ sa_mask sa));
      _ ← run_handler h sig;
      set_blocked mask
  end.

(** [raise(sig)]: a blocked signal waits, once. *)
Definition raise (sig : Z) : sm unit :=
  mask ← get blocked;
  if mem sig mask then waiting ← get pending; set_pending (add sig waiting) else deliver sig.

Definition signal (sig : Z) (h : sighandler) : sm sighandler :=
  old ← get (λ s, actions s sig);
  _ ← set_action sig (Sigaction h [] (if one_shot then Z.lor SA_RESETHAND SA_NODEFER else SA_RESTART));
  mret (sa_handler old).

Definition sigaction_set (sig : Z) (sa : sigaction) : sm sigaction :=
  old ← get (λ s, actions s sig);
  _ ← set_action sig sa;
  mret old.

(** The signals that wait and are not blocked are delivered. *)
Fixpoint deliver_all (l : list Z) : sm unit :=
  match l with
  | [] => mret tt
  | sig :: l' =>
      mask ← get blocked;
      if mem sig mask then deliver_all l'
      else
        waiting ← get pending;
        _ ← set_pending (remove sig waiting);
        _ ← deliver sig;
        deliver_all l'
  end.

Definition sigprocmask (mask : list Z → list Z) : sm (list Z) :=
  old ← get blocked;
  _ ← set_blocked (mask old);
  waiting ← get pending;
  _ ← deliver_all waiting;
  mret old.

(** Before the look number [i] at the flag of the alarm. *)
Definition alarm_may_arrive (i : Z) : sm unit :=
  set ← get alarm_set;
  if set && (goes_off =? i) then _ ← set_alarm false; raise SIGALRM else mret tt.

(** ** The sections *)

Definition sigs : list (Z * string * string * string) :=
  [(SIGINT, "SIGINT", "Term", "Interrupt (Ctrl-C)");
   (SIGTERM, "SIGTERM", "Term", "Graceful termination request");
   (SIGQUIT, "SIGQUIT", "Core", "Quit (Ctrl-\) — core dump");
   (SIGKILL, "SIGKILL", "Term", "Unconditional kill (no catch)");
   (SIGSTOP, "SIGSTOP", "Stop", "Pause process (no catch)");
   (SIGCONT, "SIGCONT", "Cont", "Resume a stopped process");
   (SIGALRM, "SIGALRM", "Term", "Timer expired (alarm())");
   (SIGCHLD, "SIGCHLD", "Ign", "Child state changed");
   (SIGUSR1, "SIGUSR1", "Term", "User-defined signal 1");
   (SIGUSR2, "SIGUSR2", "Term", "User-defined signal 2");
   (SIGSEGV, "SIGSEGV", "Core", "Invalid memory access");
   (SIGFPE, "SIGFPE", "Core", "Arithmetic exception");
   (SIGPIPE, "SIGPIPE", "Term", "Write to closed pipe")]%string.

Definition row (e : Z * string * string * string) : sm unit :=
  let '(num, name, action, meaning) := e in
  printf "  %-8d %-10s %-6s %s\n" [AInt num; AStr name; AStr action; AStr meaning].

Fixpoint rows (l : list (Z * string * string * string)) : sm unit :=
  match l with [] => mret tt | e :: l' => _ ← row e; rows l' end.

Definition section_table : sm unit :=
  _ ← printf "=== 1. Common signals ===\n" [];
  _ ← printf "  %-8s %-10s %-6s %s\n" [AStr "Num"; AStr "Name"; AStr "Dflt"; AStr "Meaning"];
  _ ← printf "  %-8s %-10s %-6s %s\n" [AStr "---"; AStr "----"; AStr "----"; AStr "-------"];
  _ ← rows sigs;
  printf "\n" [].

Definition section_signal : sm unit :=
  _ ← printf "=== 2. signal() — C standard ===\n" [];
  prev ← signal SIGINT (Handler p_simple_handler);
  _ ← printf "  Raising SIGINT...\n" [];
  _ ← raise SIGINT;
  _ ← printf "  Returned from raise()\n" [];
  _ ← signal SIGINT prev;
  _ ← signal SIGUSR1 SIG_IGN;
  _ ← printf "  Raising SIGUSR1 (ignored)...\n" [];
  _ ← raise SIGUSR1;
  _ ← printf "  SIGUSR1 had no effect\n" [];
  _ ← signal SIGUSR1 SIG_DFL;
  printf "\n" [].

(** The turns of the loop from [tick] on, [n] at most. *)
Fixpoint ticks (n : nat) (tick : Z) : sm unit :=
  match n with
  | O => mret tt
  | S n =>
      shutdown ← get g_shutdown;
      if negb (shutdown =? 0) then printf "  tick %d: shutdown requested\n" [AInt tick]
      else
        usr1 ← get g_usr1;
        _ ← (if negb (usr1 =? 0) then _ ← printf "  tick %d: SIGUSR1 received\n" [AInt tick]; set_usr1 0 else mret tt);
        _ ← printf "  tick %d: working...\n" [AInt tick];
        _ ← (if tick =? 2 then raise SIGUSR1 else mret tt);
        _ ← (if tick =? 3 then raise SIGTERM else mret tt);
        ticks n (tick + 1)
  end.

Definition section_atomic_flag : sm unit :=
  _ ← printf "=== 3. sig_atomic_t flag pattern ===\n" [];
  _ ← signal SIGTERM (Handler p_shutdown_handler);
  _ ← signal SIGUSR1 (Handler p_usr1_handler);
  _ ← ticks 5 0;
  _ ← set_shutdown 0;
  _ ← signal SIGTERM SIG_DFL;
  _ ← signal SIGUSR1 SIG_DFL;
  printf "\n" [].

Definition section_sigaction : sm unit :=
  _ ← printf "=== 4. sigaction() ===\n" [];
  let sa := Sigaction (Handler p_sa_simple_handler) [] SA_RESTART in
  old ← sigaction_set SIGUSR1 sa;
  _ ← printf "  Raising SIGUSR1 via sigaction handler...\n" [];
  _ ← raise SIGUSR1;
  _ ← sigaction_set SIGUSR1 old;
  let sa := Sigaction (Handler p_sa_info_handler) [] (Z.lor SA_RESTART SA_SIGINFO) in
  old ← sigaction_set SIGUSR2 sa;
  _ ← printf "  Raising SIGUSR2 (SA_SIGINFO)...\n" [];
  _ ← raise SIGUSR2;
  _ ← sigaction_set SIGUSR2 old;
  _ ← printf "  Blocking SIGUSR1 during critical section...\n" [];
  let sa := Sigaction (Handler p_sa_simple_handler) [] SA_RESTART in
  old ← sigaction_set SIGUSR1 sa;
  prev_mask ← sigprocmask (add SIGUSR1);
  _ ← raise SIGUSR1;
  _ ← printf "  Still in critical section (signal pending)\n" [];
  _ ← sigprocmask (λ _, prev_mask);
  _ ← printf "  Mask restored\n" [];
  _ ← sigaction_set SIGUSR1 old;
  printf "\n" [].

(** The turns of the loop from [i] on, [n] of them; the busy loop has no effect. *)
Fixpoint slow_turns (n : nat) (i : Z) : sm Z :=
  match n with
  | O => mret 0
  | S n =>
      _ ← alarm_may_arrive i;
      timed_out ← get g_timed_out;
      if negb (timed_out =? 0) then mret (-1)
      else
        _ ← printf "  slow_op: iteration %d done\n" [AInt i];
        slow_turns n (i + 1)
  end.
Definition slow_operation (iterations : Z) : sm Z := slow_turns (Z.to_nat iterations) 0.

(** [alarm(0)] *)
Definition cancel_alarm (i : Z) : sm unit := _ ← alarm_may_arrive i; set_alarm false.

Definition section_alarm : sm unit :=
  _ ← printf "=== 5. SIGALRM / alarm() ===\n" [];
  _ ← signal SIGALRM (Handler p_alarm_handler);
  _ ← set_timed_out 0;
  _ ← set_alarm true;
  rc ← slow_operation 5;
  _ ← cancel_alarm 5;
  _ ← (if rc =? 0 then printf "  Operation completed within timeout\n" []
       else printf "  Operation timed out!\n" []);
  _ ← printf "  Setting alarm for 10s then cancelling it...\n" [];
  _ ← set_alarm true;
  _ ← set_alarm false;
  let remaining := left in
  _ ← printf "  Cancelled alarm with ~%u second(s) remaining\n" [AInt remaining];
  _ ← signal SIGALRM SIG_DFL;
  printf "\n" [].

Definition section_safety : sm unit :=
  _ ← printf "=== 6. Async-signal safety ===\n" [];
  let sa := Sigaction (Handler p_safe_handler) [] SA_RESTART in
  old ← sigaction_set SIGUSR1 sa;
  _ ← printf "  Firing SIGUSR1 three times:\n" [];
  _ ← raise SIGUSR1;
  _ ← raise SIGUSR1;
  _ ← raise SIGUSR1;
  count ← get g_sigusr1_count;
  _ ← printf "  Final count (read from main): %d\n" [AInt count];
  _ ← printf "\n  Rules for signal handlers:\n" [];
  _ ← printf "  DO:   set volatile sig_atomic_t flags\n" [];
  _ ← printf "  DO:   call write(), _exit(), kill(), getpid()\n" [];
  _ ← printf "  DON'T: call printf/malloc/free (not async-signal-safe)\n" [];
  _ ← printf "  DON'T: call exit() — use _exit() (skips atexit/fflush)\n" [];
  _ ← printf "  DON'T: modify errno without saving/restoring it first\n" [];
  _ ← printf "  WHY:  signals interrupt arbitrarily — even inside malloc's\n" [];
  _ ← printf "        internal lock — calling malloc again deadlocks\n" [];
  _ ← sigaction_set SIGUSR1 old;
  printf "\n" [].

Definition main : sm Z :=
  _ ← section_table;
  _ ← section_signal;
  _ ← section_atomic_flag;
  _ ← section_sigaction;
  _ ← section_alarm;
  _ ← section_safety;
  mret 0.
End program.

(** ** [write_int] *)

Lemma digits_aux_fuel f g u n acc : 0 ≤ n < 10 ^ Z.of_nat f → n < 10 ^ Z.of_nat g → (0 < f)%nat → (0 < g)%nat →
  digits_aux f u 10 n acc = digits_aux g u 10 n acc.
Proof.
  revert g n acc. induction f as [|f IH]; intros g n acc Hn Hg Hf0 Hg0; [lia|]. destruct g as [|g]; [lia|]. simpl.
  destruct (Z.ltb_spec n 10) as [|Hn10]; [done|].
  rewrite Nat2Z.inj_succ Z.pow_succ_r in Hn; [|lia]. rewrite Nat2Z.inj_succ Z.pow_succ_r in Hg; [|lia].
  assert (0 < 10 ^ Z.of_nat f ∧ 0 < 10 ^ Z.of_nat g) as [? ?] by (split; apply Z.pow_pos_nonneg; lia).
  apply IH.
  - split; [apply Z.div_pos; lia|apply Z.div_lt_upper_bound; lia].
  - apply Z.div_lt_upper_bound; lia.
  - destruct f; [simpl in Hn; lia|lia].
  - destruct g; [simpl in Hg; lia|lia].
Qed.

(** The text that lies in the buffer from [i] on, up to the terminator. *)
Definition held (buf : list ascii) (i : Z) : string := string_of_list_ascii (take (Z.to_nat (31 - i)) (drop (Z.to_nat i) buf)).

Lemma held_put buf i c : length buf = 32%nat → 0 < i ≤ 31 →
  held (<[Z.to_nat (i - 1) := c]> buf) (i - 1) = String c (held buf i).
Proof.
  intros Hb Hi. unfold held. set (j := Z.to_nat (i - 1)).
  assert (Z.to_nat i = S j) as -> by lia. assert (Z.to_nat (31 - (i - 1)) = S (Z.to_nat (31 - i))) as -> by lia.
  rewrite (drop_S (<[j:=c]> buf) c j); [|apply list_lookup_insert_eq; lia].
  rewrite drop_insert_lt; [|lia]. done.
Qed.

Lemma set_char_in buf i c s : length buf = 32%nat → 0 ≤ i < 32 → set_char buf i c s = Done (<[Z.to_nat i := c]> buf) s.
Proof.
  intros Hb Hi. unfold set_char. replace (_ && _) with true; [done|]. symmetry. rewrite andb_true_iff Z.leb_le Z.ltb_lt. lia.
Qed.

Lemma put_digits_correct k : ∀ f buf i n s, length buf = 32%nat → 0 ≤ n < 10 ^ Z.of_nat k → (0 < k ≤ f)%nat → Z.of_nat k ≤ i ≤ 31 →
  ∃ buf' i', put_digits f buf i n s = Done (buf', i') s ∧ length buf' = 32%nat ∧ i - Z.of_nat k ≤ i' < i ∧
    held buf' i' = digits_aux k false 10 n (held buf i).
Proof.
  induction k as [|k IH]; intros [|f] buf i n s Hb Hn Hf Hi; try lia.
  cbn [put_digits digits_aux]. unfold mbind, sm_bind at 1. rewrite set_char_in //; [|lia].
  rewrite Z.rem_mod_nonneg ?Z.quot_div_nonneg; [|lia..].
  pose proof (held_put buf i (chr (48 + n mod 10)) Hb ltac:(lia)) as Hput.
  assert (digit_chr false (n mod 10) = chr (48 + n mod 10)) as ->.
  { unfold digit_chr. pose proof (Z.mod_pos_bound n 10). destruct (Z.ltb_spec (n mod 10) 10); [done|lia]. }
  rewrite Nat2Z.inj_succ Z.pow_succ_r in Hn; [|lia].
  destruct (Z.ltb_spec n 10) as [H10|H10].
  - rewrite Z.div_small; [|lia]. eexists _, _. split_and!; [done|by rewrite length_insert|lia..|exact Hput].
  - assert (0 < n / 10) as Hd by (apply Z.div_str_pos; lia). rewrite (proj2 (Z.ltb_lt _ _) Hd).
    assert (0 < k)%nat by (destruct k; [simpl in Hn; lia|lia]).
    destruct (IH f (<[Z.to_nat (i - 1):=chr (48 + n mod 10)]> buf) (i - 1) (n / 10) s) as (buf' & i' & E & Hl & Hi' & Hh);
      [by rewrite length_insert|split; [lia|apply Z.div_lt_upper_bound; lia]|lia|lia|].
    exists buf', i'. rewrite E Hh Hput. split_and!; [done|done|lia..|done].
Qed.

Lemma numeral_held n : 0 ≤ n ≤ 2 ^ 31 → digits_aux 10 false 10 n "" = numeral false 10 n.
Proof.
  intros Hn. unfold numeral. apply digits_aux_fuel; [|apply numeral_fuel|lia|lia]; [|lia].
  change (10 ^ Z.of_nat 10) with 10000000000. lia.
Qed.

Lemma held_end buf : held buf 31 = ""%string.
Proof. unfold held. by rewrite Z.sub_diag. Qed.

Lemma bind_done {A B} (m : sm A) (f : A → sm B) s a s' : m s = Done a s' → (m ≫= f) s = f a s'.
Proof. intros H. unfold mbind, sm_bind. by rewrite H. Qed.

Lemma bind_undefined {A B} (m : sm A) (f : A → sm B) s : m s = Undefined → (m ≫= f) s = Undefined.
Proof. intros H. unfold mbind, sm_bind. by rewrite H. Qed.

Definition with_out (s : process) (t : string) : process :=
  Process (actions s) (blocked s) (pending s) (alarm_set s) (g_shutdown s) (g_usr1 s) (g_timed_out s) (g_sigusr1_count s) (out s ++ [t]).

Lemma int_of_in z s : INT_MIN ≤ z ≤ INT_MAX → int_of z s = Done z s.
Proof. intros Hz. unfold int_of. by rewrite (proj2 (in_int_spec z) Hz). Qed.
Lemma int_of_out z s : ¬ INT_MIN ≤ z ≤ INT_MAX → int_of z s = Undefined.
Proof. rewrite -in_int_spec. intros Hz. unfold int_of. by destruct (Machine.in_int z). Qed.

Lemma write_int_prints n s : INT_MIN < n ≤ INT_MAX → write_int n s = Done tt (with_out s (dec n)).
Proof.
  unfold INT_MIN, INT_MAX. intros Hn. unfold write_int.
  rewrite (bind_done _ _ s (Z.abs n) s).
  2: { destruct (Z.ltb_spec n 0); [rewrite int_of_in; [f_equal; lia|unfold INT_MIN, INT_MAX; lia]|].
       unfold mret, sm_ret. f_equal. lia. }
  set (buf0 := replicate 32 "000"%char).
  rewrite (bind_done _ _ s _ s (set_char_in buf0 31 "000"%char s eq_refl ltac:(lia))).
  set (buf1 := <[_ := _]> buf0). assert (length buf1 = 32%nat) as Hb1 by done.
  destruct (put_digits_correct 10 32 buf1 31 (Z.abs n) s) as (buf & i & E & Hb & Hi & Hh); [done|simpl; lia|lia|lia|].
  rewrite held_end numeral_held in Hh; [|lia]. rewrite (bind_done _ _ s _ s E). cbv beta iota.
  destruct (Z.ltb_spec n 0) as [Hneg|Hpos].
  - rewrite (bind_done _ _ s (<[Z.to_nat (i - 1) := "-"%char]> buf, i - 1) s).
    2: { cbv zeta. rewrite (bind_done _ _ s _ s (set_char_in buf (i - 1) "-"%char s Hb ltac:(lia))). done. }
    unfold write_out, update, with_out. do 4 f_equal.
    change (held (<[Z.to_nat (i - 1):="-"%char]> buf) (i - 1) = dec n).
    rewrite held_put //; [|lia]. rewrite Hh /dec (proj2 (Z.ltb_lt n 0)); [|lia]. by rewrite Z.abs_neq; [|lia].
  - rewrite (bind_done _ _ s (buf, i) s); [|done]. unfold write_out, update, with_out. do 4 f_equal.
    change (held buf i = dec n). rewrite Hh /dec (proj2 (Z.ltb_ge n 0)); [|lia]. by rewrite Z.abs_eq; [|lia].
Qed.

Lemma write_int_min s : write_int INT_MIN s = Undefined.
Proof.
  unfold write_int. apply bind_undefined. by vm_compute.
Qed.

(** ** Blocking *)

Lemma mem_add x l : mem x (add x l) = true.
Proof.
  unfold add. destruct (mem x l) eqn:E; [done|]. unfold mem. by rewrite existsb_app /= Z.eqb_refl orb_true_r.
Qed.

Section laws.
Context (one_shot : bool) (self : Z).

Fixpoint raises (n : nat) (sig : Z) : sm unit :=
  match n with O => mret tt | S n => _ ← raise self sig; raises n sig end.

Definition critical (n : nat) (sig : Z) : sm unit :=
  prev ← sigprocmask self (add sig);
  _ ← raises n sig;
  _ ← sigprocmask self (λ _, prev);
  mret tt.


Lemma raise_blocked sig ac bl pe al gs gu gt gc o : mem sig bl = true → (pe = [] ∨ pe = [sig]) →
  raise self sig (Process ac bl pe al gs gu gt gc o) = Done tt (Process ac bl [sig] al gs gu gt gc o).
Proof.
  intros Hm [->| ->]; unfold raise, mbind, sm_bind, get; simpl; rewrite Hm; unfold set_pending, update; simpl; [done|].
  unfold add, mem. simpl. by rewrite Z.eqb_refl.
Qed.

Lemma raises_blocked n sig ac bl al gs gu gt gc o : mem sig bl = true → ∀ pe, (pe = [] ∨ pe = [sig]) →
  raises n sig (Process ac bl pe al gs gu gt gc o) =
    Done tt (Process ac bl (match n with O => pe | _ => [sig] end) al gs gu gt gc o).
Proof.
  intros Hm. induction n as [|n IH]; intros pe Hp; [done|]. cbn [raises].
  rewrite (bind_done _ _ _ _ _ (raise_blocked sig ac bl pe al gs gu gt gc o Hm Hp)) IH; [by destruct n|by right].
Qed.

(** However often a blocked signal is raised it is delivered once, when it is unblocked. *)
Lemma critical_delivers n sig s : mem sig (blocked s) = false → pending s = [] → n ≠ 0%nat → critical n sig s = deliver self sig s.
Proof.
  destruct s as [ac bl pe al gs gu gt gc o]. simpl. intros Hm -> Hn. unfold critical.
  rewrite (bind_done _ _ _ bl (Process ac (add sig bl) [] al gs gu gt gc o)); [|done].
  rewrite (bind_done _ _ _ _ _ (raises_blocked n sig ac (add sig bl) al gs gu gt gc o (mem_add _ _) [] (or_introl eq_refl))).
  destruct n as [|n]; [done|]. unfold sigprocmask.
  assert (remove sig [sig] = []) as Hr by (unfold remove; rewrite filter_cons_False //; naive_solver).
  assert (deliver_all self [sig] (Process ac bl [sig] al gs gu gt gc o) = deliver self sig (Process ac bl [] al gs gu gt gc o)) as Hd.
  { cbn [deliver_all]. set (s := Process _ _ _ _ _ _ _ _ _).
    rewrite (bind_done (get blocked) _ s bl s eq_refl) Hm (bind_done (get pending) _ s [sig] s eq_refl) Hr.
    rewrite (bind_done (set_pending []) _ s tt (Process ac bl [] al gs gu gt gc o) eq_refl). unfold mbind, sm_bind. by destruct (deliver self sig _) as [[]| |]. }
  unfold mbind, sm_bind at 1 2 3 4 5. cbn -[deliver_all deliver]. rewrite Hd. by destruct (deliver self sig _) as [[]| |].
Qed.
End laws.

(** ** The whole program *)

(** How it starts: nothing blocked, nothing waiting, the variables as the program
    initialises them; [ac] is what [exec] left for each signal. *)
Definition started (ac : Z → sigaction) : process := Process ac [] [] false 0 0 0 0 [].

(** The turns the slow operation completes. *)
Definition iterations (goes_off : Z) : Z := if (0 <=? goes_off) && (goes_off <? 5) then goes_off else 5.

Definition table_text : list string :=
  [line "=== 1. Common signals ===\n" []; line "  Num      Name       Dflt   Meaning\n" []; line "  ---      ----       ----   -------\n" []]
  ++ ((λ e : Z * string * string * string, let '(num, name, action, meaning) := e in
        line "  %-8d %-10s %-6s %s\n" [AInt num; AStr name; AStr action; AStr meaning]) <$> sigs) ++ [line "\n" []].

Definition signal_text : list string :=
  [line "=== 2. signal() — C standard ===\n" []; line "  Raising SIGINT...\n" []; line "  [handler] caught SIGINT\n" [];
   line "  Returned from raise()\n" []; line "  Raising SIGUSR1 (ignored)...\n" []; line "  SIGUSR1 had no effect\n" []; line "\n" []].

Definition flag_text : list string :=
  [line "=== 3. sig_atomic_t flag pattern ===\n" []; line "  tick 0: working...\n" []; line "  tick 1: working...\n" [];
   line "  tick 2: working...\n" []; line "  tick 3: SIGUSR1 received\n" []; line "  tick 3: working...\n" [];
   line "  tick 4: shutdown requested\n" []; line "\n" []].

(** The signal raised in the critical section is handled when it is over. *)
Definition sigaction_text (self : Z) : list string :=
  [line "=== 4. sigaction() ===\n" []; line "  Raising SIGUSR1 via sigaction handler...\n" [];
   line "  [sigaction handler] SIGUSR1 received\n" []; line "  Raising SIGUSR2 (SA_SIGINFO)...\n" [];
   line "  [SA_SIGINFO] sig=%d from pid=%d\n" [AInt SIGUSR2; AInt self]; line "  Blocking SIGUSR1 during critical section...\n" [];
   line "  Still in critical section (signal pending)\n" []; line "  [sigaction handler] SIGUSR1 received\n" [];
   line "  Mask restored\n" []; line "\n" []].

Definition alarm_text (goes_off left : Z) : list string :=
  [line "=== 5. SIGALRM / alarm() ===\n" []]
  ++ ((λ i : nat, line "  slow_op: iteration %d done\n" [AInt i]) <$> seq 0 (Z.to_nat (iterations goes_off)))
  ++ [if iterations goes_off =? 5 then line "  Operation completed within timeout\n" [] else line "  Operation timed out!\n" [];
      line "  Setting alarm for 10s then cancelling it...\n" []; line "  Cancelled alarm with ~%u second(s) remaining\n" [AInt left];
      line "\n" []].

Definition count_text (n : Z) : list string := ["  [safe_handler] count="; dec n; line "\n" []].
Definition safety_text : list string :=
  [line "=== 6. Async-signal safety ===\n" []; line "  Firing SIGUSR1 three times:\n" []]
  ++ count_text 1 ++ count_text 2 ++ count_text 3 ++
  [line "  Final count (read from main): %d\n" [AInt 3]; line "\n  Rules for signal handlers:\n" [];
   line "  DO:   set volatile sig_atomic_t flags\n" []; line "  DO:   call write(), _exit(), kill(), getpid()\n" [];
   line "  DON'T: call printf/malloc/free (not async-signal-safe)\n" []; line "  DON'T: call exit() — use _exit() (skips atexit/fflush)\n" [];
   line "  DON'T: modify errno without saving/restoring it first\n" []; line "  WHY:  signals interrupt arbitrarily — even inside malloc's\n" [];
   line "        internal lock — calling malloc again deadlocks\n" []; line "\n" []].

Definition main_text (self goes_off left : Z) : list string :=
  table_text ++ signal_text ++ flag_text ++ sigaction_text self ++ alarm_text goes_off left ++ safety_text.

Lemma digits_aux_length f u b n acc : (String.length (digits_aux f u b n acc) ≤ f + String.length acc)%nat.
Proof.
  revert n acc. induction f as [|f IH]; intros n acc; simpl; [lia|]. destruct (n <? b); [simpl; lia|].
  specialize (IH (n / b) (String (digit_chr u (n mod b)) acc)). simpl in IH. lia.
Qed.

Lemma fmt_int_nonneg z : 0 ≤ z ≤ INT_MAX → fmt_signed fspec0 z = numeral false 10 z.
Proof.
  intros Hz. unfold fmt_signed. simpl. rewrite to_int_id; [|unfold INT_MIN, INT_MAX in *; lia].
  by rewrite (proj2 (Z.ltb_ge z 0)); [|lia].
Qed.

Lemma info_line self sig : 0 < self ≤ INT_MAX → 0 < sig ≤ INT_MAX →
  line "  [SA_SIGINFO] sig=%d from pid=%d\n" [AInt sig; AInt self] =
  ("  [SA_SIGINFO] sig=" +:+ numeral false 10 sig +:+ " from pid=" +:+ numeral false 10 self +:+ String nl "")%string.
Proof. intros H H'. rewrite -(fmt_int_nonneg self) -?(fmt_int_nonneg sig); [reflexivity|lia..]. Qed.

Lemma numeral_short n : 0 ≤ n ≤ INT_MAX → (String.length (numeral false 10 n) ≤ 10)%nat.
Proof.
  intros Hn. rewrite -numeral_held; [|unfold INT_MAX in *; lia]. pose proof (digits_aux_length 10 false 10 n "") as H. change (String.length "") with 0%nat in H. lia.
Qed.

(** The text of the handler fits its buffer. *)
Lemma write_buf64_pid self sig s : 0 < self ≤ INT_MAX → 0 < sig ≤ INT_MAX →
  write_buf64 "  [SA_SIGINFO] sig=%d from pid=%d\n" [AInt sig; AInt self] s =
  Done tt (with_out s (line "  [SA_SIGINFO] sig=%d from pid=%d\n" [AInt sig; AInt self])).
Proof.
  intros Hself Hsig. pose proof (info_line self sig Hself Hsig) as Hl. unfold write_buf64.
  assert (is_Some (format "  [SA_SIGINFO] sig=%d from pid=%d\n" [AInt sig; AInt self])) as [t Ht] by (by eexists).
  unfold line in *. rewrite Ht /= in Hl |- *. rewrite Hl.
  assert (strlen ("  [SA_SIGINFO] sig=" +:+ numeral false 10 sig +:+ " from pid=" +:+ numeral false 10 self +:+ String nl "")%string < 64) as Hlen.
  { pose proof (numeral_short sig ltac:(lia)). pose proof (numeral_short self ltac:(lia)).
    unfold strlen. rewrite !string_app_length. simpl String.length in *. lia. }
  by rewrite (proj2 (Z.ltb_lt _ _) Hlen).
Qed.

(** An alarm that does not go off before the last look. *)
Lemma alarm_late self goes_off i : ¬ 0 ≤ goes_off ≤ 5 → 0 ≤ i ≤ 5 → alarm_may_arrive self goes_off i = alarm_may_arrive self 6 i.
Proof.
  intros H Hi. unfold alarm_may_arrive. rewrite (proj2 (Z.eqb_neq goes_off i)); [|lia]. by rewrite (proj2 (Z.eqb_neq 6 i)); [|lia].
Qed.

Lemma main_late one_shot self goes_off left : ¬ 0 ≤ goes_off ≤ 5 → main one_shot self goes_off left = main one_shot self 6 left.
Proof.
  intros H. unfold main, section_alarm, slow_operation, cancel_alarm. change (Z.to_nat 5) with 5%nat. cbn [slow_turns].
  by rewrite !(alarm_late self goes_off); [|done|lia..].
Qed.

(** The signals for which the program asks for the default at the end. *)
Definition sets_to_default (sig : Z) : bool := mem sig [SIGUSR1; SIGTERM; SIGALRM].

Definition ends (m : sm Z) (ac : Z → sigaction) (text : list string) : Prop :=
  ∃ s, m (started ac) = Done 0 s ∧ out s = text ∧ blocked s = [] ∧ pending s = [] ∧ alarm_set s = false ∧ g_sigusr1_count s = 3 ∧
    ∀ sig, sa_handler (actions s sig) = if sets_to_default sig then SIG_DFL else sa_handler (ac sig).

Lemma printf_line fmt args : is_Some (format fmt args) → printf fmt args = write_out (line fmt args).
Proof. intros [s Hs]. unfold printf, line. by rewrite Hs. Qed.

Lemma raise_info self s : 0 < self ≤ INT_MAX → actions s 12 = Sigaction (Handler p_sa_info_handler) [] 268435460 → blocked s = [] →
  raise self 12 s = Done tt (with_out s (line "  [SA_SIGINFO] sig=%d from pid=%d\n" [AInt 12; AInt self])).
Proof.
  destruct s as [ac bl pe al gs gu gt gc o]. cbn [actions blocked]. intros Hself Ha ->.
  unfold raise, deliver, mbind, sm_bind, get, set_blocked, update. cbn -[write_buf64 has_flag].
  rewrite Ha. set (sa := Sigaction _ _ _). assert (has_flag sa SA_RESETHAND = false) as E1 by done.
  assert (has_flag sa SA_NODEFER = false) as E2 by done. cbn -[write_buf64 has_flag]. rewrite E1 E2.
  cbn -[write_buf64]. by rewrite /sa_info_handler write_buf64_pid.
Qed.

(** One command after the other, by evaluation. *)
Ltac eval_next := erewrite bind_done; [|vm_compute; reflexivity].

Lemma main_run one_shot self goes_off left ac : 0 < self ≤ INT_MAX → In goes_off [0; 1; 2; 3; 4; 5; 6] →
  ends (main one_shot self goes_off left) ac (main_text self goes_off left).
Proof.
  intros Hself Hg. unfold ends, main, section_alarm, main_text, sigaction_text, alarm_text.
  pose proof (λ s, raise_info self s Hself) as Hraise. change SIGUSR2 with 12.
  rewrite (printf_line "  Cancelled alarm with ~%u second(s) remaining\n" [AInt left]); [|by eexists].
  generalize dependent (line "  [SA_SIGINFO] sig=%d from pid=%d\n" [AInt 12; AInt self]).
  generalize dependent (line "  Cancelled alarm with ~%u second(s) remaining\n" [AInt left]). intros t_left t_self Hraise.
  repeat (destruct Hg as [<-|Hg]; [|]); [..|done]; destruct one_shot.
  all: eexists; split;
    [ do 3 eval_next; (erewrite (bind_done (section_sigaction _));
        [|unfold section_sigaction; do 7 eval_next; (erewrite bind_done; [|apply Hraise; reflexivity]); vm_compute; reflexivity]);
      vm_compute; reflexivity
    | split_and!; [vm_compute; reflexivity|reflexivity..|
        intros sig; destruct sig as [|q|q]; [reflexivity| |reflexivity]; do 4 (destruct q as [q|q|]; try reflexivity)] ].
Qed.

(** ** Properties *)

(** C27. The program, from any process in which no signal is blocked or waits, whatever
    [exec] left for each signal, whether [signal] resets its handler or not, and whenever
    the alarm goes off: it comes to its end, is not killed by any of the signals it raises
    and nothing in it is undefined; its output is the text of its sections, where every
    handler appears at its place, the one of the signal raised in the critical section
    after it, and the slow operation stops at its first look after the alarm; at the end
    nothing is blocked or waits, and each signal has what it had at the beginning, or the
    default where the program asks for that. *)
Theorem signals_main_correct (one_shot : bool) (self goes_off left : Z) (ac : Z → sigaction) (pid : 0 < self ≤ INT_MAX) :
  ends (main one_shot self goes_off left) ac (main_text self goes_off left).
Proof.
  assert (0 ≤ goes_off ≤ 5 ∨ ¬ 0 ≤ goes_off ≤ 5) as [H|H] by lia.
  - apply main_run; [done|]. simpl. lia.
  - rewrite main_late //. assert (main_text self goes_off left = main_text self 6 left) as ->.
    { unfold main_text, alarm_text. assert (iterations goes_off = iterations 6) as ->; [|done].
      unfold iterations. destruct (Z.leb_spec 0 goes_off), (Z.ltb_spec goes_off 5); simpl; lia. }
    apply main_run; [done|]. simpl. tauto.
Qed.

Lemma signals_main_correct_witness : 0 < 4712 ≤ INT_MAX ∧
  ends (main true 4712 2 10) (λ _, Sigaction SIG_DFL [] 0) (main_text 4712 2 10).
Proof. assert (0 < 4712 ≤ INT_MAX) as H by done. split; [exact H|]. by apply (signals_main_correct true 4712 2 10). Defined.

#[export] Instance handler_eq_dec : EqDecision handler.
Proof. solve_decision. Defined.

(** What [n] runs of a handler for [sig] write, and the flags they set. *)
Definition runs_text (self : Z) (h : handler) (sig : Z) (n : nat) : list string :=
  match h with
  | p_simple_handler => replicate n (line "  [handler] caught SIGINT\n" [])
  | p_sa_simple_handler => replicate n (line "  [sigaction handler] SIGUSR1 received\n" [])
  | p_sa_info_handler => replicate n (line "  [SA_SIGINFO] sig=%d from pid=%d\n" [AInt sig; AInt self])
  | p_safe_handler => concat ((λ i : nat, count_text i) <$> seq 1 n)
  | p_shutdown_handler | p_usr1_handler | p_alarm_handler => []
  end.

Definition flag_after (h h' : handler) (n : nat) : Z := if decide (h = h' ∧ n ≠ 0%nat) then 1 else 0.

(** A process that has done nothing but run [h] for [sig], [n] times. *)
Definition after (self : Z) (ac : Z → sigaction) (bl : list Z) (h : handler) (sig : Z) (n : nat) : process :=
  Process ac bl [] false (flag_after h p_shutdown_handler n) (flag_after h p_usr1_handler n) (flag_after h p_alarm_handler n)
    match h with p_safe_handler => Z.of_nat n | _ => 0 end (runs_text self h sig n).

(** The handlers of the program can run for these signals. *)
Definition catchable (sig : Z) : Prop := 0 < sig ≤ 64 ∧ sig ≠ SIGKILL ∧ sig ≠ SIGSTOP.

(** The flags with which the program sets the handler. *)
Definition flags_for (h : handler) : Z :=
  match h with p_sa_info_handler => Z.lor SA_RESTART SA_SIGINFO | _ => SA_RESTART end.

Section runs.
Context (self sig : Z) (Hself : 0 < self ≤ INT_MAX) (Hsig : 0 < sig ≤ 64).

Lemma run_once h ac bl n : Z.of_nat n < INT_MAX → run_handler self h sig (after self ac bl h sig n) = Done tt (after self ac bl h sig (S n)).
Proof.
  intros Hn. unfold run_handler, after. destruct h; cbn [runs_text]; try done;
    try (rewrite replicate_S_end; reflexivity).
  - rewrite /sa_info_handler write_buf64_pid //; [|unfold INT_MAX in *; lia]. by rewrite replicate_S_end.
  - rewrite seq_S fmap_app concat_app. unfold safe_handler.
    set (s := Process _ _ _ _ _ _ _ _ _).
    rewrite (bind_done (get g_sigusr1_count) _ s (Z.of_nat n) s eq_refl).
    rewrite (bind_done _ _ _ _ _ (int_of_in (Z.of_nat n + 1) s _)); [|unfold INT_MIN, INT_MAX in *; lia].
    replace (Z.of_nat n + 1) with (Z.of_nat (S n)) by lia.
    unfold mbind at 1 2 3, sm_bind at 1 2 3. cbn [set_count update write_out get].
    rewrite (bind_done _ _ _ _ _ (write_int_prints (Z.of_nat (S n)) _ _)); [|unfold INT_MIN, INT_MAX in *; lia].
    unfold write_out, update, with_out. cbn. by rewrite -!app_assoc.
Qed.

(** One [raise], when nothing is blocked. *)
Lemma raise_once h ac flags n : ac sig = Sigaction (Handler h) [] flags → Z.of_nat n < INT_MAX →
  ∃ ac', raise self sig (after self ac [] h sig n) = Done tt (after self ac' [] h sig (S n)) ∧
    (if has_flag (Sigaction (Handler h) [] flags) SA_RESETHAND then ac' sig = Sigaction SIG_DFL [] flags else ac' = ac).
Proof.
  intros Ha Hn. unfold raise, deliver. set (s := after self ac [] h sig n). set (sa := Sigaction _ _ _).
  rewrite (bind_done (get blocked) _ s [] s eq_refl). cbn [mem existsb].
  rewrite (bind_done (get (λ s, actions s sig)) _ s sa s); [|by rewrite /get /= Ha]. cbn [sa_handler sa sa_mask].
  assert (∀ ac1 bl, (_ ← set_blocked bl; _ ← run_handler self h sig; set_blocked []) (after self ac1 [] h sig n) =
    Done tt (after self ac1 [] h sig (S n))) as Hrun.
  { intros ac1 bl. rewrite (bind_done (set_blocked bl) _ (after self ac1 [] h sig n) tt (after self ac1 bl h sig n) eq_refl).
    by rewrite (bind_done _ _ _ _ _ (run_once h ac1 bl n Hn)). }
  destruct (has_flag sa SA_RESETHAND).
  - set (ac1 := λ x, if x =? sig then Sigaction SIG_DFL [] flags else ac x). exists ac1. split; [|by rewrite /ac1 Z.eqb_refl].
    rewrite (bind_done (set_action _ _) _ s tt (after self ac1 [] h sig n) eq_refl).
    rewrite (bind_done (get blocked) _ (after self ac1 [] h sig n) [] (after self ac1 [] h sig n) eq_refl). apply Hrun.
  - exists ac. split; [|done]. rewrite (bind_done (mret tt) _ s tt s eq_refl) (bind_done (get blocked) _ s [] s eq_refl). apply Hrun.
Qed.

Lemma raises_all h ac flags k : ac sig = Sigaction (Handler h) [] flags → has_flag (Sigaction (Handler h) [] flags) SA_RESETHAND = false →
  ∀ n, Z.of_nat (n + k) ≤ INT_MAX → raises self k sig (after self ac [] h sig n) = Done tt (after self ac [] h sig (n + k)).
Proof.
  intros Ha Hf. induction k as [|k IH]; intros n Hn; [by rewrite Nat.add_0_r|]. cbn [raises].
  destruct (raise_once h ac flags n Ha ltac:(lia)) as (ac' & E & Hac). rewrite Hf in Hac. subst ac'.
  rewrite (bind_done _ _ _ _ _ E) IH; [|lia]. by rewrite Nat.add_succ_r.
Qed.
End runs.

Lemma started_after self ac h sig : started ac = after self ac [] h sig 0.
Proof. by destruct h. Qed.

(** The signals of section 1 whose default is to end the process, [SIGKILL] apart. *)
Definition killing : list Z := [SIGINT; SIGTERM; SIGQUIT; SIGALRM; SIGUSR1; SIGUSR2; SIGSEGV; SIGFPE; SIGPIPE].


