(* ===== verification/Semaphores.v ===== *)
(** * Exercise 30: POSIX semaphores

    Model of [exercises/30_semaphores/semaphores.c].  A semaphore is its value.  Sections
    2 and 5 have one thread, which waits for ever at zero; sections 3 and 4 are step
    relations of their threads; section 6 is a pair of processes of [Processes], where the
    posts of the named semaphore are messages of one byte. *)

From S2P Require Import Prelude Machine CString Double Printf Text SepLogic Pure Interleave Threads Processes.
#[local] Open Scope Z_scope.

#[local] Abbreviation U := Empty_set.

(** ** Semaphores *)

Definition SEM_VALUE_MAX : Z := 2147483647.
Definition EAGAIN : Z := 11.
Definition EINVAL : Z := 22.
Definition ETIMEDOUT : Z := 110.
Definition EOVERFLOW : Z := 75.

(** With one thread only, nobody posts while it waits. *)
Definition sem_wait (s : Z) : M U Z := if 0 <? s then ret (s - 1) else λ _, NoFuel.

(** The result, [errno] if it is -1, and the semaphore. *)
Definition sem_post (s : Z) : Z * Z * Z := if s <? SEM_VALUE_MAX then (0, 0, s + 1) else (-1, EOVERFLOW, s).
Definition sem_trywait (s : Z) : Z * Z * Z := if 0 <? s then (0, 0, s - 1) else (-1, EAGAIN, s).

Record timespec := Timespec { tv_sec : Z; tv_nsec : Z }.

(** A deadline that is no time is an error, unless there is nothing to wait for. *)
Definition sem_timedwait (s : Z) (abs_timeout : timespec) : Z * Z * Z :=
  if 0 <? s then (0, 0, s - 1)
  else if (0 <=? tv_nsec abs_timeout) && (tv_nsec abs_timeout <? 1000000000) then (-1, ETIMEDOUT, s)
  else (-1, EINVAL, s).

Section program.
Context (strerror : Z → string).

Definition section1_concepts : M U unit :=
  puts "═══ 1. Semaphore Concepts ════\n" ;;;
  put_lines
    ["  Two kinds:"; "    Unnamed  (sem_init)   — lives in memory; shared between threads";
     "               (or between processes if in shared memory)"; "    Named    (sem_open)   — lives in the filesystem namespace;";
     "               survives fork() and can be opened by name\n";
     "  Two operations:"; "    sem_wait (P/down): if value>0 decrement; else block until > 0";
     "    sem_post (V/up):   increment; unblock one waiter if any\n";
     "  Semaphore vs Mutex:"; "    Mutex: binary (locked/unlocked); owner must unlock it";
     "    Semaphore: counting; any thread/process can post it";
     "    Use semaphores for signalling; use mutexes for mutual exclusion\n"]%string.

(** [while (sem_trywait(&s) == 0);] *)
Fixpoint drain (fuel : nat) (s : Z) : M U (Z * Z) :=
  match fuel with
  | O => λ _, NoFuel
  | S fuel => let '(rc, errno, s) := sem_trywait s in if rc =? 0 then drain fuel s else ret (errno, s)
  end.

Definition section2_basics : M U unit :=
  puts "═══ 2. Unnamed Semaphore Basics ════\n" ;;;
  let s := 3 in
  let v := s in
  printf "  initial value: %d\n" [AInt v] ;;;
  s <- sem_wait s ;;
  let v := s in
  printf "  after wait:    %d\n" [AInt v] ;;;
  s <- sem_wait s ;;
  let '(_, _, s) := sem_post s in
  let '(_, _, s) := sem_post s in
  let '(_, _, s) := sem_post s in
  let v := s in
  printf "  after wait/post sequence: %d\n\n" [AInt v] ;;;
  let '(rc, _, s) := sem_trywait s in
  printf "  sem_trywait when value=%d: %s\n" [AInt v; AStr (if rc =? 0 then "acquired" else "EAGAIN")] ;;;
  let* (_, s) := drain (S (Z.to_nat s)) s in
  let '(rc, errno, s) := sem_trywait s in
  printf "  sem_trywait on empty:     %s (errno=%s)\n\n"
    [AStr (if rc =? 0 then "acquired" else "failed"); AStr (strerror errno)].

(** ** Section 5 *)

(** [now1], [now2]: the two answers of [clock_gettime]. *)
Definition section5_timedwait (now1 now2 : timespec) : M U unit :=
  puts "═══ 5. sem_timedwait (Bounded Wait) ════\n" ;;;
  let s := 0 in
  nsec <- long_chk (tv_nsec now1 + 100000000) ;;
  let ts := Timespec (tv_sec now1) nsec in
  ts <- (if 1000000000 <=? tv_nsec ts then sec <- long_chk (tv_sec ts + 1) ;; ret (Timespec sec (tv_nsec ts - 1000000000))
         else ret ts) ;;
  let '(rc, errno, s) := sem_timedwait s ts in
  (if (rc <? 0) && (errno =? ETIMEDOUT) then puts "  sem_timedwait: timed out after 100 ms  ✓"
   else puts "  sem_timedwait: unexpected result") ;;;
  let '(_, _, s) := sem_post s in
  sec <- long_chk (tv_sec now2 + 2) ;;
  let ts := Timespec sec (tv_nsec now2) in
  let '(rc, errno, s) := sem_timedwait s ts in
  printf "  sem_timedwait when value=1: %s\n\n" [AStr (if rc =? 0 then "acquired immediately  ✓" else strerror errno)] ;;;
  put_lines ["  Deadline must be absolute CLOCK_REALTIME, not a duration.";
             "  Build the timespec with clock_gettime + add the desired interval.\n"]%string.
End program.

(** ** Section 3: a semaphore as a signal *)

(** The shared variables, and how far the two threads are. *)
Inductive producer_pc := p_not_created | p_set | p_post | p_done.
Inductive consumer_pc := c_start | c_create | c_waiting | c_wait | c_read | c_join | c_done.
Record handoff := { g_ready : Z; g_value : Z; producer : producer_pc; consumer : consumer_pc }.

Definition out_line (s : string) : ev := Out (esc s +:+ String nl "")%string.

Inductive producer_thread : handoff → list ev → handoff → Prop :=
  | producer_sets r v c : producer_thread {| g_ready := r; g_value := v; producer := p_set; consumer := c |} []
      {| g_ready := r; g_value := 99; producer := p_post; consumer := c |}
  | producer_posts r v c : r < SEM_VALUE_MAX → producer_thread {| g_ready := r; g_value := v; producer := p_post; consumer := c |} []
      {| g_ready := r + 1; g_value := v; producer := p_done; consumer := c |}.

Inductive section3_main : handoff → list ev → handoff → Prop :=
  | main_inits r v p : section3_main {| g_ready := r; g_value := v; producer := p; consumer := c_start |}
      [out_line "═══ 3. Binary Semaphore as a Signal ════\n"] {| g_ready := 0; g_value := v; producer := p; consumer := c_create |}
  | main_creates r v : section3_main {| g_ready := r; g_value := v; producer := p_not_created; consumer := c_create |} []
      {| g_ready := r; g_value := v; producer := p_set; consumer := c_waiting |}
  | main_announces r v p : section3_main {| g_ready := r; g_value := v; producer := p; consumer := c_waiting |}
      [out_line "  consumer: waiting for producer..."] {| g_ready := r; g_value := v; producer := p; consumer := c_wait |}
  | main_waits r v p : 0 < r → section3_main {| g_ready := r; g_value := v; producer := p; consumer := c_wait |} []
      {| g_ready := r - 1; g_value := v; producer := p; consumer := c_read |}
  | main_reads r v p : section3_main {| g_ready := r; g_value := v; producer := p; consumer := c_read |}
      [say "  consumer: got value %d\n\n" [AInt v]] {| g_ready := r; g_value := v; producer := p; consumer := c_join |}
  | main_joins r v : section3_main {| g_ready := r; g_value := v; producer := p_done; consumer := c_join |}
      (out_line <$> ["  This is the classic producer→consumer handoff:"; "    semaphore starts at 0; producer posts after preparing data;";
                     "    consumer wakes and reads — no polling, no busy-wait.\n"]%string)
      {| g_ready := r; g_value := v; producer := p_done; consumer := c_done |}.

Inductive section3_step (s : handoff) (a : list ev) (s' : handoff) : Prop :=
  | steps_producer : producer_thread s a s' → section3_step s a s'
  | steps_main : section3_main s a s' → section3_step s a s'.

Definition section3_signal : handoff := {| g_ready := 0; g_value := 0; producer := p_not_created; consumer := c_start |}.

(** ** Section 4: a pool of resources *)

Definition POOL_SIZE : Z := 3.
Definition NUM_WORKERS : nat := 6.

Inductive worker_pc := k_wait | k_use | k_release | k_post | k_done.

Definition using_line (id : nat) : ev := say "  worker %d: using resource\n" [AInt (Z.of_nat id)].
Definition releasing_line (id : nat) : ev := say "  worker %d: releasing\n" [AInt (Z.of_nat id)].

(** The state is the value of [g_pool]. *)
Inductive worker (id : nat) : Z → worker_pc → list ev → Z → worker_pc → Prop :=
  | worker_waits g : 0 < g → worker id g k_wait [] (g - 1) k_use
  | worker_uses g : worker id g k_use [using_line id] g k_release
  | worker_releases g : worker id g k_release [releasing_line id] g k_post
  | worker_posts g : g < SEM_VALUE_MAX → worker id g k_post [] (g + 1) k_done.

Definition k_returned (p : worker_pc) : bool := match p with k_done => true | _ => false end.

Definition pool_header : list ev :=
  [out_line "═══ 4. Counting Semaphore: Resource Pool ════\n";
   say "  %d workers compete for %d resource slots\n\n" [AInt (Z.of_nat NUM_WORKERS); AInt POOL_SIZE]].
Definition pool_report (_ : Z) : list ev := [out_line "\n  At most POOL_SIZE workers run simultaneously.\n"].

Definition pool_step : pool Z worker_pc → list ev → pool Z worker_pc → Prop :=
  fj_step worker NUM_WORKERS (λ _, k_wait) k_returned pool_header pool_report.

(** The section; [malloc] may fail before a thread is created, and ends the program. *)
Inductive section4_state := Running (s : pool Z worker_pc) | Exited.
Inductive section4_step : section4_state → list ev → section4_state → Prop :=
  | section4_goes s a s' : pool_step s a s' → section4_step (Running s) a (Running s')
  | malloc_fails g ps i : (i < NUM_WORKERS)%nat →
      section4_step (Running {| glob := g; pcs := ps; main_ := Creating i |}) [Err (esc "malloc failed\n")] Exited.

Definition section4_counting : section4_state := Running (fj_init POOL_SIZE).

(** ** Section 6: a named semaphore *)

Definition sem : chan := Chan 0 KDatagram.
Definition post : bytes := ["P"%char].

Definition puts_line (s : string) : cmd unit := λ k, Print (esc s +:+ String nl "")%string (k tt).
Definition put_all (l : list string) : cmd unit := λ k, foldr (λ s p, Print (esc s +:+ String nl "")%string p) (k tt) l.

Definition named_child : proc :=
  (_ ← puts_line "  child:  posting named semaphore";
   send sem post) (λ _, Exit 0).

Definition named_parent : proc :=
  (_ ← puts_line "  parent: waiting on named semaphore...";
   _ ← recv sem 1;
   _ ← puts_line "  parent: acquired  ✓";
   _ ← waitpid;
   put_all ["\n  Named semaphore lifecycle:"; "    sem_open(name, O_CREAT, mode, value) — create or open";
            "    sem_open(name, 0)                    — open existing"; "    sem_close(s)                          — close this handle";
            "    sem_unlink(name)                      — remove from namespace";
            "  The semaphore persists until sem_unlink; surviving all close() calls.\n"]%string) (λ _, Exit 0).

(** [sem_open]: the text of the error, if it fails. *)
Definition section6_named (sem_open_error : option string) : M U (option state) :=
  puts "═══ 6. Named Semaphores (Cross-process) ════\n" ;;;
  match sem_open_error with
  | Some e => eprintf "sem_open: %s\n" [AStr e] ;;; ret None
  | None => ret (Some (forked named_parent named_child))
  end.

(** ** The pool *)

#[export] Instance ev_eq_dec : EqDecision ev.
Proof. solve_decision. Defined.

Definition k_holds (p : worker_pc) : Z := match p with k_use | k_release | k_post => 1 | _ => 0 end.
Definition k_used (p : worker_pc) : Z := match p with k_release | k_post | k_done => 1 | _ => 0 end.
Definition k_released (p : worker_pc) : Z := match p with k_post | k_done => 1 | _ => 0 end.
Definition k_weight (p : worker_pc) : Z := match p with k_wait => 4 | k_use => 3 | k_release => 2 | k_post => 1 | k_done => 0 end.

Definition using_lines : list ev := using_line <$> seq 0 NUM_WORKERS.
Definition releasing_lines : list ev := releasing_line <$> seq 0 NUM_WORKERS.

(** How many lines of a kind are in an output, and those of one worker. *)
Definition count_in (L o : list ev) : Z := Z.of_nat (length (filter (λ e, e ∈ L) o)).
Definition lines_of (j : nat) (o : list ev) : list ev := filter (λ e, e = using_line j ∨ e = releasing_line j) o.
Definition lines_at (j : nat) (p : worker_pc) : list ev :=
  match p with k_wait | k_use => [] | k_release => [using_line j] | k_post | k_done => [using_line j; releasing_line j] end.

Lemma lines_distinct : NoDup (using_lines ++ releasing_lines).
Proof. apply (bool_decide_unpack _). by vm_compute. Qed.

Lemma using_in j : (j < NUM_WORKERS)%nat → using_line j ∈ using_lines ∧ using_line j ∉ releasing_lines.
Proof.
  intros Hj. assert (using_line j ∈ using_lines) as H by (apply list_elem_of_fmap_2, elem_of_seq; lia). split; [done|].
  pose proof lines_distinct as [_ [Hd _]]%NoDup_app. by apply Hd.
Qed.
Lemma releasing_in j : (j < NUM_WORKERS)%nat → releasing_line j ∈ releasing_lines ∧ releasing_line j ∉ using_lines.
Proof.
  intros Hj. assert (releasing_line j ∈ releasing_lines) as H by (apply list_elem_of_fmap_2, elem_of_seq; lia). split; [done|].
  intros H2. pose proof lines_distinct as [_ [Hd _]]%NoDup_app. by apply (Hd _ H2).
Qed.

Lemma using_inj i j : (i < NUM_WORKERS)%nat → (j < NUM_WORKERS)%nat → using_line i = using_line j → i = j.
Proof.
  intros Hi Hj E. pose proof lines_distinct as [Hd _]%NoDup_app.
  apply (NoDup_lookup _ _ _ (using_line i) Hd); unfold using_lines; rewrite list_lookup_fmap lookup_seq_lt //=; by rewrite E.
Qed.
Lemma releasing_inj i j : (i < NUM_WORKERS)%nat → (j < NUM_WORKERS)%nat → releasing_line i = releasing_line j → i = j.
Proof.
  intros Hi Hj E. pose proof lines_distinct as (_ & _ & Hd)%NoDup_app.
  apply (NoDup_lookup _ _ _ (releasing_line i) Hd); unfold releasing_lines; rewrite list_lookup_fmap lookup_seq_lt //=; by rewrite E.
Qed.
Lemma using_not_releasing i j : (i < NUM_WORKERS)%nat → (j < NUM_WORKERS)%nat → using_line i ≠ releasing_line j.
Proof. intros Hi Hj E. destruct (using_in i Hi) as [_ H]. apply H. rewrite E. by apply releasing_in. Qed.

Lemma count_in_app L o o' : count_in L (o ++ o') = count_in L o + count_in L o'.
Proof. unfold count_in. rewrite filter_app length_app. lia. Qed.
Lemma count_in_nil L : count_in L [] = 0.
Proof. done. Qed.
Lemma count_in_one L e : count_in L [e] = if decide (e ∈ L) then 1 else 0.
Proof. unfold count_in. rewrite filter_cons. case_decide; done. Qed.
Lemma lines_of_app j o o' : lines_of j (o ++ o') = lines_of j o ++ lines_of j o'.
Proof. apply filter_app. Qed.

Record pool_inv (o : list ev) (g : Z) (ps : list worker_pc) : Prop := {
  k_length : (length ps ≤ NUM_WORKERS)%nat;
  k_sum : g + zsum (k_holds <$> ps) = POOL_SIZE;
  k_nonneg : 0 ≤ g;
  k_using : count_in using_lines o = zsum (k_used <$> ps);
  k_releasing : count_in releasing_lines o = zsum (k_released <$> ps);
  k_lines : ∀ j p, ps !! j = Some p → lines_of j o = lines_at j p;
  k_all : ∀ e, e ∈ o → e ∈ using_lines ++ releasing_lines;
  k_new : ∀ j, (length ps ≤ j < NUM_WORKERS)%nat → lines_of j o = [] }.

Lemma pool_inv_init : pool_inv [] POOL_SIZE [].
Proof. split; try done; simpl; try lia. set_solver. Qed.

Lemma pool_inv_create o g ps : pool_inv o g ps → (length ps < NUM_WORKERS)%nat → pool_inv o g (ps ++ [k_wait]).
Proof.
  intros [Hl Hs Hg Hu Hr Hli Ha Hn] Hlt. split; rewrite ?fmap_app ?zsum_app ?length_app /= ?Z.add_0_r //; try lia.
  - intros j p [Hj|[Hj Hp]]%lookup_app_Some; [by apply Hli|]. apply list_lookup_singleton_Some in Hp as [Hj0 <-]. apply Hn. lia.
  - intros j Hj. apply Hn. lia.
Qed.

Lemma lines_of_using i j : (i < NUM_WORKERS)%nat → (j < NUM_WORKERS)%nat → lines_of i [using_line j] = if decide (i = j) then [using_line j] else [].
Proof.
  intros Hi Hj. unfold lines_of. rewrite filter_cons filter_nil. case_decide as H; case_decide as H2; try done; exfalso.
  - destruct H as [H|H]; [by apply H2, using_inj|exact (using_not_releasing j i Hj Hi H)].
  - apply H. left. by subst.
Qed.
Lemma lines_of_releasing i j : (i < NUM_WORKERS)%nat → (j < NUM_WORKERS)%nat → lines_of i [releasing_line j] = if decide (i = j) then [releasing_line j] else [].
Proof.
  intros Hi Hj. unfold lines_of. rewrite filter_cons filter_nil. case_decide as H; case_decide as H2; try done; exfalso.
  - destruct H as [H|H]; [exact (using_not_releasing i j Hi Hj (eq_sym H))|by apply H2, releasing_inj].
  - apply H. right. by subst.
Qed.

Lemma pool_inv_step o g ps j p a g' p' : pool_inv o g ps → ps !! j = Some p → worker j g p a g' p' → pool_inv (o ++ a) g' (<[j:=p']> ps).
Proof.
  intros [Hl Hs Hg Hu Hr Hli Ha Hn] Hj Hw. pose proof (lookup_lt_Some _ _ _ Hj) as Hjl. assert (j < NUM_WORKERS)%nat as Hj6 by lia.
  destruct (using_in j Hj6) as [Huu Hur]. destruct (releasing_in j Hj6) as [Hrr Hru].
  assert (∀ i, (i < NUM_WORKERS)%nat → lines_of i a = if decide (i = j) then match p with k_use => [using_line j] | k_release => [releasing_line j] | _ => [] end else []) as Hla.
  { intros i Hi. destruct Hw; rewrite ?lines_of_using ?lines_of_releasing //; try (destruct (decide (i = j)); reflexivity). }
  split.
  - by rewrite length_insert.
  - rewrite (zsum_insert k_holds _ _ _ _ Hj). destruct Hw; simpl; lia.
  - destruct Hw; lia.
  - rewrite (zsum_insert k_used _ _ _ _ Hj) count_in_app Hu. destruct Hw; rewrite ?count_in_one ?count_in_nil; cbn [k_used k_released]; try lia.
    + rewrite decide_True //. lia.
    + rewrite decide_False //. lia.
  - rewrite (zsum_insert k_released _ _ _ _ Hj) count_in_app Hr. destruct Hw; rewrite ?count_in_one ?count_in_nil; cbn [k_used k_released]; try lia.
    + rewrite decide_False //. lia.
    + rewrite decide_True //. lia.
  - intros i q Hi. assert (i < NUM_WORKERS)%nat as Hi6 by (apply lookup_lt_Some in Hi; rewrite length_insert in Hi; lia).
    rewrite lines_of_app (Hla i Hi6). destruct (decide (i = j)) as [->|Hne].
    + rewrite list_lookup_insert_eq // in Hi. injection Hi as <-. rewrite (Hli j p Hj). by destruct Hw.
    + rewrite list_lookup_insert_ne // in Hi. by rewrite app_nil_r (Hli i q Hi).
  - intros e [He|He]%elem_of_app; [by apply Ha|]. apply elem_of_app. destruct Hw; (apply not_elem_of_nil in He as [] || (apply list_elem_of_singleton in He as ->; auto)).
  - intros i. rewrite length_insert. intros Hi. rewrite lines_of_app Hn //. rewrite Hla; [|lia]. rewrite decide_False; [done|lia].
Qed.

Lemma k_returned_stays (j : nat) g p a g' p' : worker j g p a g' p' → k_returned p = false.
Proof. by destruct 1. Qed.

Lemma k_weight_step (o : list ev) (g : Z) (ps : list worker_pc) (j : nat) p a (g' : Z) p' :
  pool_inv o g ps → ps !! j = Some p → worker j g p a g' p' → k_weight p' + 1 ≤ k_weight p.
Proof. intros _ _ H. destruct H; simpl; lia. Qed.

(** Somebody who holds a resource can go on; if nobody holds one there is one for whoever
    waits. *)
Lemma pool_thread_progress o g ps : pool_inv o g ps →
  (∀ j p, ps !! j = Some p → k_returned p = true) ∨ ∃ j p a g' p', ps !! j = Some p ∧ worker j g p a g' p'.
Proof.
  intros I. destruct (all_or_one (λ p, k_holds p =? 0) ps) as [Hno|(j & p & Hj & Hp)].
  - destruct (all_or_one k_returned ps) as [?|(j & p & Hj & Hp)]; [by left|right].
    pose proof (Hno j p Hj) as H0. exists j, p. destruct p; try done. do 3 eexists. split; [done|]. apply worker_waits.
    pose proof (k_sum _ _ _ I) as Hs. rewrite (zsum_const k_holds ps 0) in Hs; [unfold POOL_SIZE in Hs; lia|].
    apply Forall_lookup. intros i q Hi. by apply Z.eqb_eq, (Hno i).
  - right. exists j, p. destruct p; try done; do 3 eexists; (split; [done|]).
    + apply worker_uses.
    + apply worker_releases.
    + apply worker_posts. pose proof (k_sum _ _ _ I) as Hs. assert (0 ≤ zsum (k_holds <$> ps)).
      { apply zsum_nonneg, Forall_forall. intros [] _; simpl; lia. }
      unfold POOL_SIZE, SEM_VALUE_MAX in *. lia.
Qed.

(** *** The section, with the allocation that may fail *)

Lemma running_run tr s : run section4_step section4_counting tr s →
  match s with
  | Running s => run pool_step (fj_init POOL_SIZE) tr s
  | Exited => ∃ tr' i g ps, tr = tr' ++ [[Err (esc "malloc failed\n")]] ∧
      run pool_step (fj_init POOL_SIZE) tr' {| glob := g; pcs := ps; main_ := Creating i |}
  end.
Proof.
  induction 1 as [|tr s a s' Hr IH Hs]; [apply run_start|]. destruct Hs as [s a s' Hs|g ps i Hi].
  - by eapply run_step.
  - by exists tr, i, g, ps.
Qed.

Lemma run_running s tr s' : run pool_step s tr s' → run section4_step (Running s) tr (Running s').
Proof. induction 1 as [|tr s1 a s2 Hr IH Hs]; [apply run_start|]. eapply run_step; [exact IH|]. by apply section4_goes. Qed.

(** The number of workers that hold a resource. *)
Definition holding (s : pool Z worker_pc) : Z := zsum (k_holds <$> pcs s).

(** Workers that have printed that they use a resource and not yet that they release it. *)
Definition using_now (o : list ev) : Z := count_in using_lines o - count_in releasing_lines o.

Lemma pool_using o g ps : pool_inv o g ps → 0 ≤ using_now o ≤ zsum (k_holds <$> ps).
Proof.
  intros I. unfold using_now. rewrite (k_using _ _ _ I) (k_releasing _ _ _ I). clear I.
  induction ps as [|p ps IH]; [done|].
  change (0 ≤ (k_used p + zsum (k_used <$> ps)) - (k_released p + zsum (k_released <$> ps)) ≤ k_holds p + zsum (k_holds <$> ps)).
  destruct p; simpl; lia.
Qed.

Lemma count_all o : (∀ e, e ∈ o → e ∈ using_lines ++ releasing_lines) → Z.of_nat (length o) = count_in using_lines o + count_in releasing_lines o.
Proof.
  induction o as [|e o IH]; intros Ha; [done|]. rewrite (count_in_app _ [e] o) (count_in_app releasing_lines [e] o) !count_in_one.
  pose proof (IH ltac:(set_solver)). pose proof lines_distinct as (_ & Hd & _)%NoDup_app. simpl length.
  assert (e ∈ using_lines ++ releasing_lines) as He by set_solver. apply elem_of_app in He as [He|He].
  - rewrite decide_True // decide_False; [lia|]. by apply Hd.
  - rewrite decide_False; [|intros Hu; by apply (Hd e)]. rewrite decide_True //. lia.
Qed.

(** ** The hand-off *)

Definition handoff_text (c : consumer_pc) : list ev :=
  let o1 := [out_line "═══ 3. Binary Semaphore as a Signal ════\n"] in
  let o2 := o1 ++ [out_line "  consumer: waiting for producer..."] in
  let o3 := o2 ++ [say "  consumer: got value %d\n\n" [AInt 99]] in
  match c with
  | c_start => []
  | c_create | c_waiting => o1
  | c_wait | c_read => o2
  | c_join => o3
  | c_done => o3 ++ (out_line <$> ["  This is the classic producer→consumer handoff:"; "    semaphore starts at 0; producer posts after preparing data;";
                                    "    consumer wakes and reads — no polling, no busy-wait.\n"]%string)
  end.

Definition handoff_inv (tr : list (list ev)) (s : handoff) : Prop :=
  Interleave.output tr = handoff_text (consumer s) ∧
  match consumer s, producer s with
  | c_start, p_not_created | c_create, p_not_created => g_ready s = 0
  | c_waiting, p_set | c_wait, p_set => g_ready s = 0
  | c_waiting, p_post | c_wait, p_post => g_ready s = 0 ∧ g_value s = 99
  | c_waiting, p_done | c_wait, p_done => g_ready s = 1 ∧ g_value s = 99
  | c_read, p_done | c_join, p_done | c_done, p_done => g_ready s = 0 ∧ g_value s = 99
  | _, _ => False
  end.

Definition handoff_weight (s : handoff) : Z :=
  match producer s with p_not_created => 3 | p_set => 2 | p_post => 1 | p_done => 0 end +
  match consumer s with c_start => 6 | c_create => 5 | c_waiting => 4 | c_wait => 3 | c_read => 2 | c_join => 1 | c_done => 0 end.

Lemma handoff_invariant tr s : run section3_step section3_signal tr s → handoff_inv tr s.
Proof.
  induction 1 as [|tr s a s' Hr [Ho I] Hs]; [done|]. unfold handoff_inv, Interleave.output in *. rewrite concat_app Ho.
  destruct Hs as [Hs|Hs]; inversion Hs; subst; simpl in *; rewrite ?app_nil_r; (split; [try done|]).
  all: try (destruct c; simpl in *; tauto || lia).
  all: try (destruct p; simpl in *; tauto || lia).
  all: try (destruct p; simpl in *; try tauto; destruct I as [? ->]; done).
  all: tauto || lia.
Qed.

Lemma handoff_steps s a s' : section3_step s a s' → True → handoff_weight s' + 1 ≤ handoff_weight s.
Proof. intros [[]|[]] _; unfold handoff_weight; simpl; lia. Qed.

Lemma handoff_progress tr s : run section3_step section3_signal tr s → consumer s = c_done ∨ ∃ a s', section3_step s a s' ∧ True.
Proof.
  intros Hr. destruct (handoff_invariant _ _ Hr) as [_ I]. destruct s as [r v p c]. simpl in *.
  destruct c, p; simpl in *; try done; [right..|by left].
  all: try (by do 2 eexists; split; [by apply steps_main; econstructor|]).
  all: try (by do 2 eexists; split; [by apply steps_producer; econstructor|]).
  all: do 2 eexists; split; [|done].
  - apply steps_producer, producer_posts. unfold SEM_VALUE_MAX. lia.
  - apply steps_main, main_waits. lia.
Qed.

(** ** The named semaphore *)

Definition status : role → Z := λ _, 0.
Definition puts_text (s : string) : string := (esc s +:+ String nl "")%string.

Definition lifecycle : list string :=
  ["\n  Named semaphore lifecycle:"; "    sem_open(name, O_CREAT, mode, value) — create or open";
   "    sem_open(name, 0)                    — open existing"; "    sem_close(s)                          — close this handle";
   "    sem_unlink(name)                      — remove from namespace";
   "  The semaphore persists until sem_unlink; surviving all close() calls.\n"]%string.

Definition named_conversation : list global :=
  [GPrint Parent (puts_text "  parent: waiting on named semaphore..."); GPrint Child (puts_text "  child:  posting named semaphore");
   GMsg Child sem post; GPrint Parent (puts_text "  parent: acquired  ✓"); GWait Parent]
  ++ ((λ s, GPrint Parent (puts_text s)) <$> lifecycle).

Lemma follows_puts s l st k : follows (k tt) l st → follows (puts_line s k) (APrint (puts_text s) :: l) st.
Proof. intros Hl. by eexists. Qed.
Lemma follows_put_all ls l st k : follows (k tt) l st → follows (put_all ls k) ((APrint ∘ puts_text <$> ls) ++ l) st.
Proof. intros Hl. induction ls as [|s ls IH]; [done|]. by eexists. Qed.

Lemma named_holds : holds_conversation status named_conversation named_parent named_child.
Proof.
  apply conversation_sound; unfold named_conversation; cbn [fmap list_fmap lifecycle app]; [concrete| |].
  - unfold named_parent. parts. unbind. apply follows_puts. unbind. apply follows_recv; [done|lia|simpl; lia|]. unbind.
    apply follows_puts. unbind. apply follows_wait. apply (follows_put_all lifecycle []). done.
  - unfold named_child. parts. unbind. apply follows_puts. unbind. by apply follows_send.
Qed.

(** ** The program

    [now1], [now2]: the time at which section 5 looks at the clock; [sem_open_error]: the
    error of [sem_open].  What the program writes. *)
Definition main (strerror : Z → string) (now1 now2 : timespec) (sem_open_error : option string) (o : list ev) : Prop :=
  ∃ o1 o2 tr3 s3 tr4 s4 o5 ts6,
    writes section1_concepts tt o1 ∧ writes (section2_basics strerror) tt o2 ∧
    run section3_step section3_signal tr3 s3 ∧ consumer s3 = c_done ∧
    run section4_step section4_counting tr4 s4 ∧
    match s4 with
    | Exited => o = o1 ++ o2 ++ Interleave.output tr3 ++ Interleave.output tr4
    | Running s4 =>
        fj_ended s4 ∧ writes (section5_timedwait strerror now1 now2) tt o5 ∧
        session [Forks (section6_named sem_open_error)] ts6 ∧
        o = o1 ++ o2 ++ Interleave.output tr3 ++ Interleave.output tr4 ++ o5 ++ (Out <$> ts6)
    end.

(** ** Properties *)

(** A time at which adding two seconds is no overflow. *)
Definition good_time (t : timespec) : Prop := 0 ≤ tv_nsec t < 1000000000 ∧ LONG_MIN ≤ tv_sec t ≤ LONG_MAX - 2.

Lemma puts_writes s : writes (puts s : M U unit) tt [Out (puts_text s)].
Proof. by intros w. Qed.

Lemma section5_says strerror now1 now2 : good_time now1 → good_time now2 →
  says (section5_timedwait strerror now1 now2) tt
    (concat_str [puts_text "═══ 5. sem_timedwait (Bounded Wait) ════\n"; puts_text "  sem_timedwait: timed out after 100 ms  ✓";
       line "  sem_timedwait when value=1: %s\n\n" [AStr "acquired immediately  ✓"];
       puts_text "  Deadline must be absolute CLOCK_REALTIME, not a duration.";
       puts_text "  Build the timespec with clock_gettime + add the desired interval.\n"]).
Proof.
  intros [Hn1 Hs1] [Hn2 Hs2]. unfold section5_timedwait, LONG_MIN, LONG_MAX in *. cbv zeta.
  assert (∀ z, LONG_MIN ≤ z ≤ LONG_MAX → says (long_chk z : M U Z) z "") as Hlong.
  { intros z Hz. exists []. split; [|done]. intros w. unfold long_chk. by rewrite (proj2 (in_long_spec z) Hz). }
  unfold LONG_MIN, LONG_MAX in Hlong.
  eapply says_cons; [apply says_puts|]. eapply says_quiet; [apply Hlong; lia|]. cbn [tv_nsec tv_sec].
  set (ts := if 1000000000 <=? tv_nsec now1 + 100000000 then Timespec (tv_sec now1 + 1) (tv_nsec now1 + 100000000 - 1000000000)
             else Timespec (tv_sec now1) (tv_nsec now1 + 100000000)).
  eapply (says_quiet _ _ ts).
  { subst ts. destruct (1000000000 <=? tv_nsec now1 + 100000000); [|apply says_ret].
    eapply says_quiet; [apply Hlong; lia|apply says_ret]. }
  assert (sem_timedwait 0 ts = (-1, ETIMEDOUT, 0)) as ->.
  { unfold sem_timedwait. cbn [Z.ltb]. replace (_ && _) with true; [done|]. symmetry. rewrite andb_true_iff Z.leb_le Z.ltb_lt.
    subst ts. destruct (Z.leb_spec 1000000000 (tv_nsec now1 + 100000000)); simpl; lia. }
  cbn -[puts printf put_lines concat_str]. eapply says_cons; [apply says_puts|]. eapply says_quiet; [apply Hlong; lia|]. cbn -[puts printf put_lines concat_str].
  eapply says_cons; [apply says_printf; by eexists|]. eapply says_cons; [apply says_puts|]. apply (says_bind _ _ tt tt (puts_text _)); [apply says_puts|apply says_ret].
Qed.

(** C29. The pool.  In every run of section 4, whatever the order of the threads: the
    value of the semaphore and the number of workers that hold a resource add up to
    [POOL_SIZE], so that no more than that many hold one, nor appear in the output between
    their two lines; the run is bounded and can be carried to its end, and at the end all
    resources are back and the output is the heading, the two lines of every worker in
    their order, and the closing line. *)
Theorem pool_correct :
  (∀ tr s, run section4_step section4_counting tr (Running s) →
     glob s + holding s = POOL_SIZE ∧ 0 ≤ glob s ∧
     (∃ o, Interleave.output tr = main_output pool_header pool_report (main_ s) (glob s) o ∧ 0 ≤ using_now o ≤ POOL_SIZE) ∧
     Z.of_nat (length tr) ≤ 39 ∧
     ∃ tr' s', run section4_step (Running s) tr' (Running s') ∧ fj_ended s') ∧
  (∀ tr s, run section4_step section4_counting tr (Running s) → fj_ended s →
     glob s = POOL_SIZE ∧
     ∃ o, Interleave.output tr = pool_header ++ o ++ pool_report (glob s) ∧
       length o = 12%nat ∧ ∀ j, (j < NUM_WORKERS)%nat → lines_of j o = [using_line j; releasing_line j]).
Proof.
  assert (∀ p, 0 ≤ k_weight p) as Hw by (intros []; simpl; lia).
  assert (nat → k_weight k_wait ≤ 4) as Hb by (intros _; simpl; lia).
  split.
  - intros tr s Hr%running_run.
    destruct (fj_invariant _ _ _ _ _ _ _ pool_inv pool_inv_init pool_inv_create pool_inv_step k_returned_stays _ _ Hr)
      as (_ & o & I & Ho & _).
    pose proof (k_sum _ _ _ I) as Hs. pose proof (k_nonneg _ _ _ I). pose proof (pool_using _ _ _ I).
    split_and!; [done|done|exists o; split; [done|lia]| |].
    + pose proof (fj_run_length _ _ _ _ _ _ _ pool_inv pool_inv_init pool_inv_create pool_inv_step
        k_returned_stays k_weight 4 Hw Hb k_weight_step _ _ Hr) as Hlen. exact Hlen.
    + destruct (fj_ends _ _ _ _ _ _ _ pool_inv pool_inv_init pool_inv_create pool_inv_step
        k_returned_stays k_weight 4 Hw Hb k_weight_step pool_thread_progress _ _ Hr) as (tr' & s' & Hr' & He).
      exists tr', s'. split; [by apply run_running|done].
  - intros tr s Hr%running_run He.
    destruct (fj_final _ _ _ _ _ _ _ pool_inv pool_inv_init pool_inv_create pool_inv_step k_returned_stays _ _ Hr He)
      as (o & I & Ho & Hl & Hret).
    assert (Forall (λ p, p = k_done) (pcs s)) as Hdone by (eapply Forall_impl; [exact Hret|]; by intros []).
    assert (∀ f : worker_pc → Z, zsum (f <$> pcs s) = f k_done * 6) as Hz.
    { intros f. rewrite (zsum_const f _ (f k_done)) ?Hl //. eapply Forall_impl; [exact Hdone|]. by intros ? ->. }
    pose proof (k_sum _ _ _ I) as Hs. rewrite Hz /= in Hs. split; [lia|]. exists o. split_and!; [done| |].
    + pose proof (k_using _ _ _ I) as Hu. pose proof (k_releasing _ _ _ I) as Hre. rewrite !Hz /= in Hu, Hre.
      pose proof (count_all o (k_all _ _ _ I)). lia.
    + intros j Hj. destruct (lookup_lt_is_Some_2 (pcs s) j) as [p Hp]; [by rewrite Hl|].
      rewrite (k_lines _ _ _ I j p Hp). by rewrite (Forall_lookup_1 _ _ _ _ Hdone Hp).
Qed.

Lemma section2_says strerror : says (section2_basics strerror) tt (concat_str
  [puts_text "═══ 2. Unnamed Semaphore Basics ════\n"; line "  initial value: %d\n" [AInt 3]; line "  after wait:    %d\n" [AInt 2];
   line "  after wait/post sequence: %d\n\n" [AInt 4]; line "  sem_trywait when value=%d: %s\n" [AInt 4; AStr "acquired"];
   line "  sem_trywait on empty:     %s (errno=%s)\n\n" [AStr "failed"; AStr (strerror EAGAIN)]]).
Proof.
  unfold section2_basics. cbv zeta. cbn [sem_wait sem_post sem_trywait].
  eapply says_cons; [apply says_puts|]. eapply says_cons; [apply says_printf; by eexists|].
  eapply says_quiet; [apply says_ret|]. eapply says_cons; [apply says_printf; by eexists|].
  eapply says_quiet; [apply says_ret|]. eapply says_cons; [apply says_printf; by eexists|].
  eapply says_cons; [apply says_printf; by eexists|].
  eapply (says_quiet _ _ (EAGAIN, 0)); [exists []; split; [intros w; by vm_compute|done]|]. apply says_last, says_printf. by eexists.
Qed.

(** C30. The other sections.  Section 2: the values of the semaphore.  Section 5, for all
    times: the deadline is a time, so that the first wait ends because it has come, and
    the second does not wait.  Section 3, in every order of the two threads: nobody waits
    for ever, the run is bounded, the consumer reads what the producer stored, and the
    output is the same.  Section 6: parent and child are a conversation, in which the
    parent goes on after the post of the child. *)
Theorem semaphore_sections_correct :
  (∀ strerror, says (section2_basics strerror) tt (concat_str
     [puts_text "═══ 2. Unnamed Semaphore Basics ════\n"; line "  initial value: %d\n" [AInt 3]; line "  after wait:    %d\n" [AInt 2];
      line "  after wait/post sequence: %d\n\n" [AInt 4]; line "  sem_trywait when value=%d: %s\n" [AInt 4; AStr "acquired"];
      line "  sem_trywait on empty:     %s (errno=%s)\n\n" [AStr "failed"; AStr (strerror EAGAIN)]])) ∧
  (∀ strerror now1 now2, good_time now1 → good_time now2 → says (section5_timedwait strerror now1 now2) tt
     (concat_str [puts_text "═══ 5. sem_timedwait (Bounded Wait) ════\n"; puts_text "  sem_timedwait: timed out after 100 ms  ✓";
        line "  sem_timedwait when value=1: %s\n\n" [AStr "acquired immediately  ✓"];
        puts_text "  Deadline must be absolute CLOCK_REALTIME, not a duration.";
        puts_text "  Build the timespec with clock_gettime + add the desired interval.\n"])) ∧
  (∀ tr s, run section3_step section3_signal tr s →
     Z.of_nat (length tr) ≤ 9 ∧ (∃ tr' s', run section3_step s tr' s' ∧ consumer s' = c_done) ∧
     (consumer s = c_read → g_value s = 99) ∧ Interleave.output tr = handoff_text (consumer s)) ∧
  holds_conversation status named_conversation named_parent named_child.
Proof.
  split_and!; [|apply section5_says| |apply named_holds].
  - apply section2_says.
  - intros tr s Hr.
    assert (∀ tr s, run section3_step section3_signal tr s → 0 ≤ handoff_weight s) as Hn.
    { intros ? [? ? p c] _. destruct p, c; unfold handoff_weight; simpl; lia. }
    assert (∀ tr s a s', run section3_step section3_signal tr s → section3_step s a s' → True → handoff_weight s' + 1 ≤ handoff_weight s) as Hd.
    { intros ? ? ? ? _. apply handoff_steps. }
    pose proof (run_length _ _ (λ _, True) handoff_weight Hd tr s Hr ltac:(by apply Forall_true)) as Hl. pose proof (Hn _ _ Hr) as H0.
    change (handoff_weight section3_signal) with 9 in Hl.
    destruct (run_ends section3_step section3_signal (λ _, True) (λ s, consumer s = c_done) handoff_weight Hn Hd handoff_progress tr s Hr)
      as (tr' & s' & Hr' & _ & He).
    destruct (handoff_invariant _ _ Hr) as [Ho I]. split_and!; [lia|by exists tr', s'| |done].
    intros Hc. rewrite Hc in I. destruct (producer s); tauto.
Qed.
