(* ===== verification/Terminal.v ===== *)
(** * Exercise 33: terminal I/O

    Model of [exercises/33_terminal/terminal.c].  The state has the attributes of the
    terminal, what will be read from it, what has been written to it and to the standard
    output, and the two variables of the program.  Whether the standard streams are
    terminals, whether [/dev/tty] opens and what it answers are parameters; the calls the
    code does not test are taken to succeed. *)

From S2P Require Import Prelude Machine CString Double Printf Text SepLogic Pure Processes.
#[local] Open Scope Z_scope.

(** ** Attributes *)

Record termios := Termios { c_iflag : Z; c_oflag : Z; c_cflag : Z; c_lflag : Z; c_cc_VMIN : Z; c_cc_VTIME : Z }.

Definition IGNBRK : Z := 1.
Definition BRKINT : Z := 2.
Definition PARMRK : Z := 8.
Definition INPCK : Z := 16.
Definition ISTRIP : Z := 32.
Definition INLCR : Z := 64.
Definition IGNCR : Z := 128.
Definition ICRNL : Z := 256.
Definition IXON : Z := 1024.
Definition OPOST : Z := 1.
Definition CSIZE : Z := 48.
Definition CS8 : Z := 48.
Definition PARENB : Z := 256.
Definition ISIG : Z := 1.
Definition ICANON : Z := 2.
Definition ECHO : Z := 8.
Definition ECHOE : Z := 16.
Definition ECHOK : Z := 32.
Definition ECHONL : Z := 64.
Definition IEXTEN : Z := 32768.

Definition bits (l : list Z) : Z := foldr Z.lor 0 l.
Definition cfmakeraw (t : termios) : termios :=
  Termios (Z.ldiff (c_iflag t) (bits [IGNBRK; BRKINT; PARMRK; ISTRIP; INLCR; IGNCR; ICRNL; IXON]))
    (Z.ldiff (c_oflag t) OPOST)
    (Z.lor (Z.ldiff (c_cflag t) (bits [CSIZE; PARENB])) CS8)
    (Z.ldiff (c_lflag t) (bits [ECHO; ECHONL; ICANON; ISIG; IEXTEN]))
    (c_cc_VMIN t) (c_cc_VTIME t).

Definition is_on (flags bit : Z) : bool := negb (Z.land flags bit =? 0).

(** ** The state *)

(** [input]: the results of the reads to come, a byte or none for an error or the end. *)
Record world := World {
  attrs : termios;
  input : list (option Z);
  shown : list string;
  g_saved : termios;
  g_raw_fd : Z;
  at_exit : nat;
  out : list string }.

(** A computation returns or is undefined. *)
Definition tm (A : Type) : Type := world → option (A * world).
#[export] Instance tm_ret : MRet tm := λ A a w, Some (a, w).
#[export] Instance tm_bind : MBind tm := λ A B f m w, match m w with Some (a, w') => f a w' | None => None end.

Definition get {A} (f : world → A) : tm A := λ w, Some (f w, w).
Definition update (f : world → world) : tm unit := λ w, Some (tt, f w).
Definition undef {A} : tm A := λ _, None.

Definition set_attrs (t : termios) : tm unit := update (λ w, World t (input w) (shown w) (g_saved w) (g_raw_fd w) (at_exit w) (out w)).
Definition set_saved (t : termios) : tm unit := update (λ w, World (attrs w) (input w) (shown w) t (g_raw_fd w) (at_exit w) (out w)).
Definition set_raw_fd (fd : Z) : tm unit := update (λ w, World (attrs w) (input w) (shown w) (g_saved w) fd (at_exit w) (out w)).
Definition atexit_restore : tm unit := update (λ w, World (attrs w) (input w) (shown w) (g_saved w) (g_raw_fd w) (S (at_exit w)) (out w)).
Definition write_out (s : string) : tm unit := update (λ w, World (attrs w) (input w) (shown w) (g_saved w) (g_raw_fd w) (at_exit w) (out w ++ [s])).
Definition write_tty (s : string) : tm unit := update (λ w, World (attrs w) (input w) (shown w ++ [s]) (g_saved w) (g_raw_fd w) (at_exit w) (out w)).

Definition puts (s : string) : tm unit := write_out (esc s +:+ String nl "")%string.
Fixpoint put_lines (l : list string) : tm unit := match l with [] => mret tt | s :: l' => _ ← puts s; put_lines l' end.
Definition printf (fmt : string) (args : list parg) : tm unit :=
  match format fmt args with Some s => write_out s | None => undef end.

(** [read(fd, &c, 1)]: the next key in raw mode; what the line discipline makes of the keys
    in canonical mode is outside the model. *)
Definition read_key : tm (option Z) := λ w,
  if is_on (c_lflag (attrs w)) ICANON || negb (c_cc_VMIN (attrs w) =? 1) || negb (c_cc_VTIME (attrs w) =? 0) then None
  else match input w with
       | [] => Some (None, w)
       | k :: ks => Some (k, World (attrs w) ks (shown w) (g_saved w) (g_raw_fd w) (at_exit w) (out w))
       end.

(** [snprintf] into [char msg[64]] and [write] of as many characters as it returned. *)
Definition write_msg64 (fmt : string) (args : list parg) : tm unit :=
  match format fmt args with
  | Some t => if strlen t <? 64 then write_tty t else undef
  | None => undef
  end.

(** ** Escape codes *)

Definition ESC : string := "\x1b[".
Definition ANSI_RESET : string := ESC +:+ "0m".
Definition ANSI_BOLD : string := ESC +:+ "1m".
Definition ANSI_DIM : string := ESC +:+ "2m".
Definition ANSI_UNDERLINE : string := ESC +:+ "4m".
Definition ANSI_BLACK : string := ESC +:+ "30m".
Definition ANSI_RED : string := ESC +:+ "31m".
Definition ANSI_GREEN : string := ESC +:+ "32m".
Definition ANSI_YELLOW : string := ESC +:+ "33m".
Definition ANSI_BLUE : string := ESC +:+ "34m".
Definition ANSI_MAGENTA : string := ESC +:+ "35m".
Definition ANSI_CYAN : string := ESC +:+ "36m".
Definition ANSI_WHITE : string := ESC +:+ "37m".
Definition ANSI_BG_RED : string := ESC +:+ "41m".
Definition ANSI_BG_GREEN : string := ESC +:+ "42m".
Definition ANSI_BG_BLUE : string := ESC +:+ "44m".

(** ** The sections *)

Section program.
(** Whether the standard input and output are terminals; the descriptor of [/dev/tty], or
    -1; the size of the window, if the terminal has one. *)
Context (stdin_tty stdout_tty : bool) (tty_fd : Z) (winsize : option (Z * Z * Z * Z)).

Definition STDIN_FILENO : Z := 0.
Definition STDOUT_FILENO : Z := 1.

Definition section1_concepts : tm unit := put_lines
  ["═══ 1. Terminal I/O Concepts ════\n"; "  The terminal line discipline (tty) sits between hardware and the process.";
   "  It buffers input into lines, translates \\n↔\\r\\n, echoes characters, and";
   "  handles special keys (Ctrl-C → SIGINT, Ctrl-Z → SIGTSTP, etc.).\n"; "  Two main modes:";
   "    Canonical (cooked): input delivered line-at-a-time after Enter";
   "    Raw:               input delivered byte-at-a-time; no echo or processing\n"; "  struct termios fields:";
   "    c_iflag   input flags  (ICRNL, IXON, BRKINT …)"; "    c_oflag   output flags (OPOST, ONLCR …)";
   "    c_cflag   control flags (baud rate, data bits …)"; "    c_lflag   local flags  (ECHO, ICANON, ISIG, IEXTEN …)";
   "    c_cc[]    special characters (VMIN, VTIME, VINTR, VEOF …)\n"; "  Key API:";
   "    tcgetattr(fd, &saved)        — read current settings"; "    tcsetattr(fd, TCSAFLUSH, &t) — apply new settings";
   "    cfmakeraw(&t)                — convenience: set all raw flags\n"]%string.

Fixpoint show_flags (flags : Z) (l : list (Z * string)) : tm unit :=
  match l with
  | [] => mret tt
  | (bit, name) :: l' =>
      _ ← printf "    %-10s  %s\n" [AStr name; AStr (if is_on flags bit then "on" else "off")];
      show_flags flags l'
  end.

Definition lflags : list (Z * string) :=
  [(ECHO, "ECHO"); (ECHOE, "ECHOE"); (ECHOK, "ECHOK"); (ICANON, "ICANON"); (ISIG, "ISIG"); (IEXTEN, "IEXTEN")]%string.
Definition iflags : list (Z * string) := [(ICRNL, "ICRNL"); (IXON, "IXON"); (BRKINT, "BRKINT")]%string.

Definition section2_show : tm unit :=
  t ← get attrs;
  _ ← printf "  c_lflag bits set:\n" [];
  _ ← show_flags (c_lflag t) lflags;
  _ ← printf "\n  c_iflag bits set:\n" [];
  _ ← show_flags (c_iflag t) iflags;
  printf "\n  VMIN=%d  VTIME=%d  (read blocks for VMIN chars or VTIME tenths-sec)\n\n" [AInt (c_cc_VMIN t); AInt (c_cc_VTIME t)].

Definition section2_inspect : tm unit :=
  _ ← puts "═══ 2. Inspecting Current Terminal Settings ════\n";
  if negb stdin_tty then
    _ ← puts "  stdin is not a tty (piped/redirected) — showing defaults only\n";
    let fd := tty_fd in
    if fd <? 0 then puts "  /dev/tty unavailable; skipping\n" else section2_show
  else section2_show.

Definition restore_terminal : tm unit :=
  fd ← get g_raw_fd;
  if 0 <=? fd then saved ← get g_saved; set_attrs saved else mret tt.

Definition enter_raw (fd : Z) : tm unit :=
  t ← get attrs;
  _ ← set_saved t;
  _ ← set_raw_fd fd;
  _ ← atexit_restore;
  saved ← get g_saved;
  let raw := cfmakeraw saved in
  let raw := Termios (c_iflag raw) (c_oflag raw) (c_cflag raw) (c_lflag raw) 1 0 in
  set_attrs raw.

Definition key_name (c : Z) : string :=
  if c =? 3 then "Ctrl-C" else if c =? 4 then "Ctrl-D" else if c =? 9 then "Tab" else if c =? 13 then "Enter"
  else if c =? 27 then "Esc" else if c =? 127 then "Bksp" else "".

Definition quits (c : Z) : bool := (c =? 113) || (c =? 81) || (c =? 3) || (c =? 4).

(** [while (count < 5)], [fuel] turns at most. *)
Fixpoint keys_loop (fuel : nat) (count : Z) : tm unit :=
  match fuel with
  | O => undef
  | S fuel =>
      if count <? 5 then
        n ← read_key;
        match n with
        | None => mret tt
        | Some c =>
            _ ← (if (c <? 32) || (c =? 127) then
                   let name := key_name c in
                   write_msg64 "  key %d: byte=0x%02x (%s)\r\n" [AInt (count + 1); AInt c; AStr name]
                 else write_msg64 "  key %d: '%c'  (byte=0x%02x)\r\n" [AInt (count + 1); AInt c; AInt c]);
            let count := count + 1 in
            if quits c then mret tt else keys_loop fuel count
        end
      else mret tt
  end.

Definition section3_raw (fd : Z) : tm unit :=
  _ ← puts "  Entering raw mode — press any 5 keys (q to quit early):\n";
  _ ← enter_raw fd;
  _ ← keys_loop 6 0;
  _ ← restore_terminal;
  _ ← set_raw_fd (-1);
  put_lines ["\n  Raw mode disabled.\n"; "  cfmakeraw() clears these flags:"; "    c_lflag: ECHO ECHONL ICANON ISIG IEXTEN";
             "    c_iflag: BRKINT ICRNL INPCK ISTRIP IXON"; "    c_oflag: OPOST"; "    c_cflag: sets CS8\n"]%string.

Definition section3_raw_mode : tm unit :=
  _ ← puts "═══ 3. Raw Mode ════\n";
  if negb stdin_tty then
    let fd := tty_fd in
    if fd <? 0 then
      put_lines ["  stdin is not a tty — raw mode demo skipped\n"; "  In raw mode, read() returns after each keystroke without";
                 "  waiting for Enter.  Used by editors, TUIs, games.\n"]%string
    else section3_raw fd
  else section3_raw STDIN_FILENO.

Fixpoint gradient (n : nat) (i : Z) : tm unit :=
  match n with O => mret tt | S n => _ ← printf "\x1b[48;5;%dm  " [AInt (232 + i)]; gradient n (i + 1) end.

Definition section4_ansi : tm unit :=
  _ ← puts "═══ 4. ANSI Escape Codes ════\n";
  _ ← (if negb stdout_tty then
         put_lines ["  stdout is not a tty — escape codes would appear as literal bytes.";
                    "  Run ./terminal directly in a terminal to see colours.\n"]%string
       else mret tt);
  _ ← printf ("  Foreground: " +:+ ANSI_RED +:+ "red " +:+ ANSI_RESET +:+ ANSI_GREEN +:+ "green " +:+ ANSI_RESET +:+
        ANSI_YELLOW +:+ "yellow " +:+ ANSI_RESET +:+ ANSI_BLUE +:+ "blue " +:+ ANSI_RESET +:+ ANSI_CYAN +:+ "cyan " +:+ ANSI_RESET +:+
        ANSI_MAGENTA +:+ "magenta " +:+ ANSI_RESET +:+ "\n") [];
  _ ← printf ("  Background: " +:+ ANSI_BG_RED +:+ ANSI_WHITE +:+ " red " +:+ ANSI_RESET +:+ " " +:+
        ANSI_BG_GREEN +:+ ANSI_BLACK +:+ " green " +:+ ANSI_RESET +:+ " " +:+
        ANSI_BG_BLUE +:+ ANSI_WHITE +:+ " blue " +:+ ANSI_RESET +:+ "\n") [];
  _ ← printf ("  Attributes: " +:+ ANSI_BOLD +:+ "bold " +:+ ANSI_RESET +:+ ANSI_DIM +:+ "dim " +:+ ANSI_RESET +:+
        ANSI_UNDERLINE +:+ "underline " +:+ ANSI_RESET +:+ "\n\n") [];
  _ ← printf "  256-colour gradient: " [];
  _ ← gradient 24 0;
  _ ← printf (ANSI_RESET +:+ "\n\n") [];
  put_lines ["  Common escape sequences:"; "    \\x1b[<n>m        — set attribute/colour (SGR)"; "    \\x1b[<r>;<c>H   — move cursor to row r, col c";
             "    \\x1b[<n>A/B/C/D — move cursor up/down/right/left"; "    \\x1b[2J         — clear screen";
             "    \\x1b[2K         — erase line"; "    \\x1b[?25l/h     — hide/show cursor\n"]%string.

Definition section5_size : tm unit :=
  _ ← puts "═══ 5. Terminal Size (TIOCGWINSZ) ════\n";
  let fd := if negb stdout_tty then tty_fd else STDOUT_FILENO in
  _ ← match (if 0 <=? fd then winsize else None) with
      | Some (rows, cols, xpixel, ypixel) =>
          printf "  rows=%u  cols=%u  xpixel=%u  ypixel=%u\n\n" [AInt rows; AInt cols; AInt xpixel; AInt ypixel]
      | None => puts "  TIOCGWINSZ not available (not a tty)\n"
      end;
  put_lines ["  Handle SIGWINCH to redraw when the window is resized:"; "    signal(SIGWINCH, handle_resize);";
             "    // In handler: re-query TIOCGWINSZ, redraw screen\n"]%string.

Definition section6_restore : tm unit := put_lines
  ["═══ 6. Safe Restore-on-Exit Pattern ════\n"; "  A crashed raw-mode program leaves the terminal unusable.";
   "  Guard against this with atexit() and signal handlers:\n"; "  static struct termios g_saved;";
   "  static void restore(void) { tcsetattr(STDIN_FILENO, TCSAFLUSH, &g_saved); }"; "";
   "  static void sig_handler(int sig) {"; "      restore();"; "      signal(sig, SIG_DFL);   /* reset to default */";
   "      raise(sig);             /* re-deliver for correct exit status */"; "  }"; ""; "  // In main:";
   "  tcgetattr(STDIN_FILENO, &g_saved);"; "  atexit(restore);"; "  signal(SIGINT,  sig_handler);";
   "  signal(SIGTERM, sig_handler);"; "  signal(SIGHUP,  sig_handler);"; "  // enter raw mode...\n";
   "  Additional tips:"; "  - Use write() not printf() in raw mode (fflush can be tricky)";
   "  - \\r\\n instead of \\n in raw mode (OPOST/ONLCR is disabled)"; "  - Check isatty(STDIN_FILENO) before entering raw mode";
   "  - Libraries: ncurses, linenoise, or Textual (Python) handle this for you\n"]%string.

Definition main : tm Z :=
  _ ← section1_concepts;
  _ ← section2_inspect;
  _ ← section3_raw_mode;
  _ ← section4_ansi;
  _ ← section5_size;
  _ ← section6_restore;
  mret 0.

(** [exit]: the functions registered with [atexit]. *)
Fixpoint run_at_exit (n : nat) : tm unit := match n with O => mret tt | S n => _ ← restore_terminal; run_at_exit n end.
Definition program : tm Z := r ← main; n ← get at_exit; _ ← run_at_exit n; mret r.
End program.

(** ** Flags *)

Lemma ldiff_off x m b : Z.land b m = b → is_on (Z.ldiff x m) b = false.
Proof.
  intros H. unfold is_on. rewrite -H. assert (Z.land (Z.ldiff x m) (Z.land b m) = 0) as ->; [|done].
  apply Z.bits_inj'. intros n Hn. rewrite !Z.land_spec Z.ldiff_spec Z.bits_0. by destruct (Z.testbit x n), (Z.testbit m n), (Z.testbit b n).
Qed.

Lemma ldiff_keeps x m b : Z.land b m = 0 → is_on (Z.ldiff x m) b = is_on x b.
Proof.
  intros H. unfold is_on. do 2 f_equal. apply Z.bits_inj'. intros n Hn. rewrite !Z.land_spec Z.ldiff_spec.
  apply (f_equal (λ z, Z.testbit z n)) in H. rewrite Z.land_spec Z.bits_0 in H.
  by destruct (Z.testbit x n), (Z.testbit m n), (Z.testbit b n).
Qed.

(** ** The keys *)

(** The keys the loop handles, at most [n]: up to a key that quits or a failing read. *)
Fixpoint handled (n : nat) (l : list (option Z)) : list Z :=
  match n, l with
  | S n, Some c :: l' => c :: (if quits c then [] else handled n l')
  | _, _ => []
  end.

Definition key_text (i c : Z) : string :=
  if (c <? 32) || (c =? 127) then line "  key %d: byte=0x%02x (%s)\r\n" [AInt i; AInt c; AStr (key_name c)]
  else line "  key %d: '%c'  (byte=0x%02x)\r\n" [AInt i; AInt c; AInt c].

Fixpoint key_texts (i : Z) (l : list Z) : list string :=
  match l with [] => [] | c :: l' => key_text i c :: key_texts (i + 1) l' end.

Definition byte (k : option Z) : Prop := match k with Some c => 0 ≤ c < 256 | None => True end.

(** Every line fits the buffer: 256 bytes at 5 places. *)
Definition fits64 (fmt : string) (args : list parg) : bool :=
  match format fmt args with Some t => strlen t <? 64 | None => false end.
Definition key_fits (i c : Z) : bool :=
  if (c <? 32) || (c =? 127) then fits64 "  key %d: byte=0x%02x (%s)\r\n" [AInt i; AInt c; AStr (key_name c)]
  else fits64 "  key %d: '%c'  (byte=0x%02x)\r\n" [AInt i; AInt c; AInt c].

Lemma all_keys_fit : forallb (λ i, forallb (λ c, key_fits (Z.of_nat i) (Z.of_nat c)) (seq 0 256)) (seq 1 5) = true.
Proof. by vm_compute. Qed.

Lemma key_fits_ok i c : 1 ≤ i ≤ 5 → 0 ≤ c < 256 → key_fits i c = true.
Proof.
  intros Hi Hc. pose proof all_keys_fit as H. rewrite forallb_forall in H.
  specialize (H (Z.to_nat i)). rewrite in_seq in H. specialize (H ltac:(lia)). rewrite forallb_forall in H.
  specialize (H (Z.to_nat c)). rewrite in_seq in H. specialize (H ltac:(lia)). by rewrite !Z2Nat.id in H; [|lia..].
Qed.

Definition shows (w : world) (l : list string) : world := World (attrs w) (input w) (shown w ++ l) (g_saved w) (g_raw_fd w) (at_exit w) (out w).

Lemma write_fits fmt args w : fits64 fmt args = true → write_msg64 fmt args w = Some (tt, shows w [line fmt args]).
Proof.
  unfold fits64, write_msg64, line. destruct (format fmt args) as [t|]; [|done]. intros H. rewrite H. done.
Qed.

(** One key. *)
Lemma write_key i c w : 1 ≤ i ≤ 5 → 0 ≤ c < 256 →
  (if (c <? 32) || (c =? 127) then write_msg64 "  key %d: byte=0x%02x (%s)\r\n" [AInt i; AInt c; AStr (key_name c)]
   else write_msg64 "  key %d: '%c'  (byte=0x%02x)\r\n" [AInt i; AInt c; AInt c]) w = Some (tt, shows w [key_text i c]).
Proof.
  intros Hi Hc. pose proof (key_fits_ok i c Hi Hc) as H. unfold key_fits, key_text in *.
  destruct ((c <? 32) || (c =? 127)); by apply write_fits.
Qed.

Definition raw (t : termios) : Prop := is_on (c_lflag t) ICANON = false ∧ c_cc_VMIN t = 1 ∧ c_cc_VTIME t = 0.

Lemma bind_some {A B} (m : tm A) (f : A → tm B) w a w' : m w = Some (a, w') → (m ≫= f) w = f a w'.
Proof. intros H. unfold mbind, tm_bind. by rewrite H. Qed.

Lemma read_key_raw w : raw (attrs w) → read_key w =
  Some (match input w with [] => None | k :: _ => k end,
        World (attrs w) (tail (input w)) (shown w) (g_saved w) (g_raw_fd w) (at_exit w) (out w)).
Proof. intros (H1 & H2 & H3). unfold read_key. rewrite H1 H2 H3 /=. destruct w as [a [|k ks] s sv fd n o]; done. Qed.

Lemma keys_loop_correct n : ∀ fuel i w, (n < fuel)%nat → 0 ≤ i → i + Z.of_nat n = 5 → raw (attrs w) → Forall byte (input w) →
  ∃ rest, keys_loop fuel i w =
    Some (tt, World (attrs w) rest (shown w ++ key_texts (i + 1) (handled n (input w))) (g_saved w) (g_raw_fd w) (at_exit w) (out w)).
Proof.
  induction n as [|n IH]; intros [|fuel] i w Hf Hi Hn Hr Hb; try lia; cbn [keys_loop].
  - rewrite (proj2 (Z.ltb_ge i 5)); [|lia]. exists (input w). cbn [handled key_texts]. rewrite app_nil_r. by destruct w.
  - rewrite (proj2 (Z.ltb_lt i 5)); [|lia]. rewrite (bind_some _ _ _ _ _ (read_key_raw w Hr)).
    destruct w as [a [|[c|] ks] s sv fd nx o]; cbn [input attrs shown g_saved g_raw_fd at_exit out tail handled key_texts] in *.
    + exists []. by rewrite app_nil_r.
    + apply Forall_cons in Hb as [Hc Hks]. rewrite (bind_some _ _ _ _ _ (write_key (i + 1) c _ ltac:(lia) Hc)).
      cbv zeta. unfold shows. cbn [input attrs shown g_saved g_raw_fd at_exit out]. destruct (quits c).
      * exists ks. done.
      * destruct (IH fuel (i + 1) (World a ks (s ++ [key_text (i + 1) c]) sv fd nx o)) as [rest E]; [lia..|done|done|].
        exists rest. rewrite E /= -app_assoc. done.
    + exists ks. by rewrite app_nil_r.
Qed.

(** ** Sections that only print *)

Definition prints (w : world) (o : list string) : world := World (attrs w) (input w) (shown w) (g_saved w) (g_raw_fd w) (at_exit w) (out w ++ o).
Definition only_prints (m : tm unit) : Prop := ∀ w, ∃ o, m w = Some (tt, prints w o).

Lemma prints_nil w : prints w [] = w.
Proof. destruct w. unfold prints. simpl. by rewrite app_nil_r. Qed.
Lemma prints_prints w o o' : prints (prints w o) o' = prints w (o ++ o').
Proof. unfold prints. simpl. by rewrite app_assoc. Qed.

Lemma op_ret : only_prints (mret tt).
Proof. intros w. exists []. by rewrite prints_nil. Qed.
Lemma op_puts s : only_prints (puts s).
Proof. intros w. by eexists. Qed.
Lemma op_printf fmt args : is_Some (format fmt args) → only_prints (printf fmt args).
Proof. intros [s Hs] w. unfold printf. rewrite Hs. by eexists. Qed.
Lemma op_bind m f : only_prints m → only_prints (f tt) → only_prints (m ≫= f).
Proof.
  intros Hm Hf w. destruct (Hm w) as [o E]. rewrite (bind_some _ _ _ _ _ E). destruct (Hf (prints w o)) as [o' E'].
  exists (o ++ o'). by rewrite -prints_prints.
Qed.
Lemma op_get {A} (g : world → A) f : (∀ a, only_prints (f a)) → only_prints (get g ≫= f).
Proof. intros H w. apply (H (g w)). Qed.
Lemma op_put_lines l : only_prints (put_lines l).
Proof. induction l; simpl; [apply op_ret|by apply op_bind; [apply op_puts|]]. Qed.
Lemma op_show_flags flags l : only_prints (show_flags flags l).
Proof. induction l as [|[b n] l IH]; simpl; [apply op_ret|]. apply op_bind; [|done]. apply op_printf. by eexists. Qed.
Lemma op_gradient n i : only_prints (gradient n i).
Proof. revert i. induction n as [|n IH]; intros i; simpl; [apply op_ret|]. apply op_bind; [|done]. apply op_printf. by eexists. Qed.

Create HintDb prints.
#[local] Hint Resolve op_ret op_puts op_bind op_get op_put_lines op_show_flags op_gradient : prints.
#[local] Hint Extern 1 (only_prints (printf _ _)) => apply op_printf; by eexists : prints.

Lemma op_section2 : only_prints section2_show.
Proof. unfold section2_show. apply op_get. intros t. repeat (apply op_bind; [auto with prints|]). auto with prints. Qed.
#[local] Hint Resolve op_section2 : prints.

Section program.
Context (stdin_tty stdout_tty : bool) (tty_fd : Z) (winsize : option (Z * Z * Z * Z)).

Lemma op_inspect : only_prints (section2_inspect stdin_tty tty_fd).
Proof. unfold section2_inspect. destruct stdin_tty; simpl; [|case_match]; auto 10 with prints. Qed.

Lemma op_ansi : only_prints (section4_ansi stdout_tty).
Proof. unfold section4_ansi. repeat (apply op_bind; [try destruct (negb stdout_tty); auto with prints|]). auto with prints. Qed.

Lemma op_size : only_prints (section5_size stdout_tty tty_fd winsize).
Proof.
  unfold section5_size. repeat (apply op_bind; [|]); auto with prints. destruct (if 0 <=? _ then _ else _) as [[[[r c] x] y]|]; auto with prints.
Qed.

(** ** Raw mode *)

Definition made_raw (t : termios) : termios :=
  Termios (c_iflag (cfmakeraw t)) (c_oflag (cfmakeraw t)) (c_cflag (cfmakeraw t)) (c_lflag (cfmakeraw t)) 1 0.

Lemma made_raw_raw t : raw (made_raw t).
Proof. split_and!; [by apply ldiff_off|done|done]. Qed.

Lemma section3_raw_correct fd w : 0 ≤ fd → Forall byte (input w) → ∃ rest o,
  section3_raw fd w = Some (tt, World (attrs w) rest (shown w ++ key_texts 1 (handled 5 (input w))) (attrs w) (-1) (S (at_exit w)) (out w ++ o)).
Proof.
  intros Hfd Hb. unfold section3_raw. destruct (op_puts "  Entering raw mode — press any 5 keys (q to quit early):\n" w) as [o1 E1].
  rewrite (bind_some _ _ _ _ _ E1).
  rewrite (bind_some (enter_raw fd) _ _ tt (World (made_raw (attrs w)) (input w) (shown w) (attrs w) fd (S (at_exit w)) (out w ++ o1))); [|done].
  destruct (keys_loop_correct 5 6 0 (World (made_raw (attrs w)) (input w) (shown w) (attrs w) fd (S (at_exit w)) (out w ++ o1)))
    as [rest E]; [lia|lia|done|apply made_raw_raw|done|].
  rewrite (bind_some _ _ _ _ _ E). cbn [attrs input shown g_saved g_raw_fd at_exit out].
  rewrite (bind_some restore_terminal _ _ tt (World (attrs w) rest (shown w ++ key_texts 1 (handled 5 (input w))) (attrs w) fd (S (at_exit w)) (out w ++ o1))).
  2: { unfold restore_terminal. rewrite /mbind /tm_bind /get /=. by rewrite (proj2 (Z.leb_le 0 fd) Hfd). }
  rewrite (bind_some (set_raw_fd (-1)) _ _ tt (World (attrs w) rest (shown w ++ key_texts 1 (handled 5 (input w))) (attrs w) (-1) (S (at_exit w)) (out w ++ o1))); [|done].
  match goal with |- context [put_lines ?l] => destruct (op_put_lines l (World (attrs w) rest (shown w ++ key_texts 1 (handled 5 (input w))) (attrs w) (-1) (S (at_exit w)) (out w ++ o1))) as [o2 E2] end.
  exists rest, (o1 ++ o2). rewrite E2 /prints /=. by rewrite app_assoc.
Qed.

(** The keys that the program handles: none if there is no terminal to read from. *)
Definition keys_of (l : list (option Z)) : list Z := if stdin_tty || (0 <=? tty_fd) then handled 5 l else [].

Lemma section3_correct w : Forall byte (input w) → g_raw_fd w = -1 → ∃ rest o saved nx,
  section3_raw_mode stdin_tty tty_fd w =
    Some (tt, World (attrs w) rest (shown w ++ key_texts 1 (keys_of (input w))) saved (-1) nx (out w ++ o)).
Proof.
  intros Hb Hfd. unfold section3_raw_mode, keys_of. destruct (op_puts "═══ 3. Raw Mode ════\n" w) as [o1 E1]. rewrite (bind_some _ _ _ _ _ E1).
  assert (∀ fd, 0 ≤ fd → ∃ rest o saved nx, section3_raw fd (prints w o1) =
    Some (tt, World (attrs w) rest (shown w ++ key_texts 1 (handled 5 (input w))) saved (-1) nx (out w ++ o))) as Hraw.
  { intros fd H. destruct (section3_raw_correct fd (prints w o1) H Hb) as (rest & o & E). rewrite E /prints /= -app_assoc. by do 4 eexists. }
  destruct stdin_tty; [by apply Hraw|]. cbn [negb orb]. destruct (Z.ltb_spec tty_fd 0) as [H|H].
  - rewrite (proj2 (Z.leb_gt 0 tty_fd) H). match goal with |- context [put_lines ?l] => destruct (op_put_lines l (prints w o1)) as [o2 ->] end.
    rewrite prints_prints /prints Hfd app_nil_r. by do 4 eexists.
  - rewrite (proj2 (Z.leb_le 0 tty_fd) H). by apply Hraw.
Qed.
End program.

(** ** Properties *)

(** C31. The terminal.  Whatever its attributes, whether the standard streams are
    terminals and whatever keys and failures the reads bring: the program comes to its
    end, reads only in raw mode, has written a line for each key up to the fifth or the
    first that quits, within the buffer of the line, and at the end, after the functions
    registered with [atexit], the terminal has the attributes it had. *)
Theorem terminal_restored (stdin_tty stdout_tty : bool) (tty_fd : Z) (winsize : option (Z * Z * Z * Z)) (t saved : termios)
    (keys : list (option Z)) (bytes : Forall byte keys) :
  ∃ w, program stdin_tty stdout_tty tty_fd winsize (World t keys [] saved (-1) 0 []) = Some (0, w) ∧
    attrs w = t ∧ g_raw_fd w = -1 ∧ shown w = key_texts 1 (keys_of stdin_tty tty_fd keys).
Proof.
  unfold program. set (w0 := World _ _ _ _ _ _ _).
  assert (∃ rest o saved' nx, main stdin_tty stdout_tty tty_fd winsize w0 =
    Some (0, World t rest (key_texts 1 (keys_of stdin_tty tty_fd keys)) saved' (-1) nx o)) as (rest & o & saved' & nx & E).
  { unfold main. destruct (op_put_lines _ w0 : ∃ o, section1_concepts w0 = Some (tt, prints w0 o)) as [o1 E1]. rewrite (bind_some _ _ _ _ _ E1).
    destruct (op_inspect stdin_tty tty_fd (prints w0 o1)) as [o2 E2]. rewrite (bind_some _ _ _ _ _ E2) prints_prints.
    destruct (section3_correct stdin_tty tty_fd (prints w0 (o1 ++ o2)) bytes eq_refl) as (rest & o3 & sv & nx & E3).
    rewrite (bind_some _ _ _ _ _ E3). cbn [attrs input shown out prints w0 app]. set (w3 := World _ _ _ _ _ _ _).
    destruct (op_ansi stdout_tty w3) as [o4 E4]. rewrite (bind_some _ _ _ _ _ E4).
    destruct (op_size stdout_tty tty_fd winsize (prints w3 o4)) as [o5 E5]. rewrite (bind_some _ _ _ _ _ E5).
    destruct (op_put_lines _ (prints (prints w3 o4) o5) : ∃ o, section6_restore (prints (prints w3 o4) o5) = Some (tt, prints (prints (prints w3 o4) o5) o)) as [o6 E6].
    rewrite (bind_some _ _ _ _ _ E6) !prints_prints. by do 4 eexists. }
  rewrite (bind_some _ _ _ _ _ E). set (w := World _ _ _ _ _ _ _).
  assert (∀ n, run_at_exit n w = Some (tt, w)) as Hex by (intros n; induction n; done).
  exists w. split; [|done]. rewrite (bind_some (get at_exit) _ _ nx w) // (bind_some _ _ _ _ _ (Hex nx)). done.
Qed.

Lemma terminal_restored_witness : Forall byte [Some 97; Some 27; Some 113; Some 98] ∧
  ∃ w, program true true (-1) None (World (Termios 1280 5 191 35387 1 0) [Some 97; Some 27; Some 113; Some 98] [] (Termios 0 0 0 0 0 0) (-1) 0 []) = Some (0, w) ∧
    attrs w = Termios 1280 5 191 35387 1 0 ∧ g_raw_fd w = -1 ∧ shown w = key_texts 1 [97; 27; 113].
Proof.
  assert (Forall byte [Some 97; Some 27; Some 113; Some 98]) as H by (repeat constructor; done). split; [exact H|].
  exact (terminal_restored true true (-1) None (Termios 1280 5 191 35387 1 0) (Termios 0 0 0 0 0 0) _ H).
Defined.

(** What [cfmakeraw] does to the flags the program lists: the local flags and all but one
    of the input flags are off, and the input flag INPCK keeps its value. *)
Lemma raw_flags t :
  Forall (λ b, is_on (c_lflag (made_raw t)) b = false) [ECHO; ECHONL; ICANON; ISIG; IEXTEN] ∧
  Forall (λ b, is_on (c_iflag (made_raw t)) b = false) [BRKINT; ICRNL; ISTRIP; IXON] ∧
  is_on (c_oflag (made_raw t)) OPOST = false ∧
  is_on (c_iflag (made_raw t)) INPCK = is_on (c_iflag t) INPCK.
Proof.
  split_and!; [repeat constructor; by apply ldiff_off|repeat constructor; by apply ldiff_off|by apply ldiff_off|by apply ldiff_keeps].
Qed.

Example quits_early : key_texts 1 [97; 27; 113] = esc <$> ["  key 1: 'a'  (byte=0x61)\r\n"; "  key 2: byte=0x1b (Esc)\r\n"; "  key 3: 'q'  (byte=0x71)\r\n"]%string.
Proof. by vm_compute. Qed.
