(* ===== verification/IoMux.v ===== *)
(** * Exercise 28: I/O multiplexing

    Model of [exercises/28_io_multiplexing/io_mux.c].  What the program does is a log of
    its output and of the calls that change descriptors; what the kernel answers to
    [select], [poll] and [epoll_wait] is a function of the number of the call and of the
    descriptors that are watched, and what the descriptors deliver another.  [pipe],
    [fork] and the calls whose failure the code does not test are taken to succeed where
    the code does so. *)

From S2P Require Import Prelude Machine CString Double Printf Text SepLogic Pure Processes.
#[local] Open Scope Z_scope.

Inductive io :=
  | Say (s : string) | Complain (s : string)
  | CloseFd (fd : Z) | WriteFd (fd : Z) (bs : bytes) | Watch (fd : Z) | Unwatch (fd : Z) | SetNonblocking (fd : Z)
  | Fork | Reap.

(** A computation logs, and returns, exits or runs out of turns. *)
Inductive outcome (A : Type) := Returns (a : A) | Exits (code : Z) | OutOfTurns | Undef.
Arguments Returns {A} _. Arguments Exits {A} _. Arguments OutOfTurns {A}. Arguments Undef {A}.
Definition wm (A : Type) : Type := list io * outcome A.
#[export] Instance wm_ret : MRet wm := λ A a, ([], Returns a).
#[export] Instance wm_bind : MBind wm := λ A B f m,
  match m.2 with
  | Returns a => (m.1 ++ (f a).1, (f a).2)
  | Exits c => (m.1, Exits c)
  | OutOfTurns => (m.1, OutOfTurns)
  | Undef => (m.1, Undef)
  end.

Definition log (e : io) : wm unit := ([e], Returns tt).
Definition exit_with {A} (code : Z) : wm A := ([], Exits code).
Definition out_of_turns {A} : wm A := ([], OutOfTurns).
Definition undef {A} : wm A := ([], Undef).

Definition puts (s : string) : wm unit := log (Say (esc s +:+ String nl "")).
Fixpoint put_lines (l : list string) : wm unit := match l with [] => mret tt | s :: l' => _ ← puts s; put_lines l' end.
Definition printf (fmt : string) (args : list parg) : wm unit := match format fmt args with Some s => log (Say s) | None => undef end.
Definition perror (what : string) (e : string) : wm unit := log (Complain (what +:+ ": " +:+ e +:+ String nl "")).

Definition set_nonblocking (fd : Z) : wm unit := log (SetNonblocking fd).

Definition EAGAIN : Z := 11.
Definition FD_SETSIZE : Z := 1024.

Section program.
(** ** The two writers *)

(** [pipe]: an error, or the reading ends of both pipes. *)
Context (pipes : string + Z * Z).

(** The children write to their pipes and exit; what arrives is the text of [data] below. *)
Definition two_writers : wm (Z * Z) :=
  match pipes with
  | inl e => _ ← perror "pipe" e; exit_with 1
  | inr (ra, rb) => _ ← log Fork; _ ← log Fork; mret (ra, rb)
  end.

(** What a call reports: descriptors, with [true] if there is data and [false] if the
    writer has only hung up. *)
Inductive answer := Ready (l : list (Z * bool)) | Timeout | Failed (e : string).

(** The answer to the call number [k] that watches [fds]; the bytes a read delivers. *)
Context (kernel : nat → list Z → answer) (data : Z → bytes).

Definition ready (fd : Z) (l : list (Z * bool)) : bool := existsb (λ e, e.1 =? fd) l.
Definition ready_in (fd : Z) (l : list (Z * bool)) : bool := existsb (λ e, (e.1 =? fd) && e.2) l.

(** [char buf[32] = {0}; read(fd, buf, sizeof buf - 1)] *)
Definition read_buf (fd : Z) : string := text (take 31 (data fd)).

Definition section1_concepts : wm unit :=
  _ ← puts "═══ 1. I/O Multiplexing Concepts ════\n";
  _ ← puts "Problem: a server with N clients cannot issue N blocking read() calls.";
  _ ← puts "Solution: monitor many fds at once; sleep until ANY becomes ready.\n";
  _ ← printf "  %-10s  %-10s  %-12s  %s\n" [AStr "API"; AStr "Standard"; AStr "FD limit"; AStr "Cost per wakeup"];
  _ ← printf "  %-10s  %-10s  %-12s  %s\n" [AStr "select()"; AStr "POSIX"; AStr "FD_SETSIZE"; AStr "O(max-fd)  — scans bitmap"];
  _ ← printf "  %-10s  %-10s  %-12s  %s\n" [AStr "poll()"; AStr "POSIX"; AStr "unlimited"; AStr "O(nfds)   — scans array"];
  _ ← printf "  %-10s  %-10s  %-12s  %s\n" [AStr "epoll()"; AStr "Linux"; AStr "unlimited"; AStr "O(events) — returns ready only"];
  put_lines ["\n  Readiness modes:"; "    Level-triggered (LT): notified while data is available  [default for all three]";
             "    Edge-triggered  (ET): notified once on new data          [EPOLLET, needs O_NONBLOCK]\n"]%string.

(** ** Section 2: [select] *)

(** A set of descriptors, as the list of its members: 0 to [FD_SETSIZE - 1] can be one. *)
Definition fd_set : Type := list Z.
Definition settable (fd : Z) : bool := (0 <=? fd) && (fd <? FD_SETSIZE).
Definition FD_ZERO : fd_set := [].
Definition FD_SET (fd : Z) (s : fd_set) : wm fd_set := if settable fd then mret (filter (λ x, x ≠ fd) s ++ [fd]) else undef.
Definition FD_ISSET (fd : Z) (s : fd_set) : wm bool := if settable fd then mret (existsb (Z.eqb fd) s) else undef.

(** [select] looks at the members below [nfds]; those it reports are the set afterwards. *)
Definition select (k : nat) (nfds : Z) (rset : fd_set) : answer := kernel k (filter (λ fd, fd < nfds) rset).

Definition select_one (fd : Z) : wm unit :=
  _ ← printf "  select got: \q%s\q\n" [AStr (read_buf fd)];
  log (CloseFd fd).

(** [while (!done_a || !done_b)] *)
Fixpoint select_loop (fuel : nat) (k : nat) (nfds ra rb : Z) (done_a done_b : bool) : wm (bool * bool) :=
  match fuel with
  | O => out_of_turns
  | S fuel =>
      if negb done_a || negb done_b then
        rset ← (if negb done_a then FD_SET ra FD_ZERO else mret FD_ZERO);
        rset ← (if negb done_b then FD_SET rb rset else mret rset);
        match select k nfds rset with
        | Timeout => _ ← puts "  timeout"; mret (done_a, done_b)
        | Failed e => _ ← perror "select" e; mret (done_a, done_b)
        | Ready l =>
            let rset : fd_set := l.*1 in
            hit ← (if negb done_a then FD_ISSET ra rset else mret false);
            done_a ← (if hit : bool then _ ← select_one ra; mret true else mret done_a);
            hit ← (if negb done_b then FD_ISSET rb rset else mret false);
            done_b ← (if hit : bool then _ ← select_one rb; mret true else mret done_b);
            select_loop fuel (S k) nfds ra rb done_a done_b
        end
      else mret (done_a, done_b)
  end.

Definition section2_select (fuel : nat) : wm unit :=
  _ ← puts "═══ 2. select() ═════════════════════\n";
  '(ra, rb) ← two_writers;
  let nfds := (if rb <? ra then ra else rb) + 1 in
  '(done_a, done_b) ← select_loop fuel 0 nfds ra rb false false;
  _ ← (if negb done_a then log (CloseFd ra) else mret tt);
  _ ← (if negb done_b then log (CloseFd rb) else mret tt);
  _ ← log Reap;
  _ ← log Reap;
  _ ← puts "\n  Notes:";
  _ ← printf "  fd_set is a bitmap; maximum monitored fd is FD_SETSIZE-1 (usually %d)\n" [AInt (FD_SETSIZE - 1)];
  put_lines ["  Must rebuild fd_set from scratch before every select() call";
             "  Kernel scans all fds 0..nfds-1 — O(n) even when only one event fires\n"]%string.

(** ** Section 3: [poll] *)

(** The slots of the array; a negative descriptor is ignored. *)
Definition polled (fds : list Z) : list Z := filter (λ fd, 0 ≤ fd) fds.

(** [for (int i = 0; i < 2 && remaining > 0; i++)] *)
Fixpoint poll_slots (slots : list Z) (l : list (Z * bool)) (remaining : Z) : wm (list Z * Z) :=
  match slots with
  | [] => mret ([], remaining)
  | fd :: slots' =>
      if remaining <=? 0 then mret (slots, remaining)
      else
        '(fd, remaining) ← (if (0 <=? fd) && ready_in fd l then
                              _ ← printf "  poll got: \q%s\q (fd=%d)\n" [AStr (read_buf fd); AInt fd];
                              _ ← log (CloseFd fd);
                              mret (-1, remaining - 1)
                            else mret (fd, remaining));
        '(slots', remaining) ← poll_slots slots' l remaining;
        mret (fd :: slots', remaining)
  end.

Fixpoint poll_loop (fuel : nat) (k : nat) (fds : list Z) (remaining : Z) : wm (list Z) :=
  match fuel with
  | O => out_of_turns
  | S fuel =>
      if 0 <? remaining then
        match kernel k (polled fds) with
        | Timeout => _ ← puts "  timeout"; mret fds
        | Failed e => _ ← perror "poll" e; mret fds
        | Ready l =>
            '(fds, remaining) ← poll_slots fds l remaining;
            poll_loop fuel (S k) fds remaining
        end
      else mret fds
  end.

Fixpoint close_open (fds : list Z) : wm unit :=
  match fds with [] => mret tt | fd :: fds' => _ ← (if 0 <=? fd then log (CloseFd fd) else mret tt); close_open fds' end.

Definition section3_poll (fuel : nat) : wm unit :=
  _ ← puts "═══ 3. poll() ═══════════════════════\n";
  '(ra, rb) ← two_writers;
  fds ← poll_loop fuel 0 [ra; rb] 2;
  _ ← close_open fds;
  _ ← log Reap;
  _ ← log Reap;
  put_lines ["\n  Notes:"; "  No FD_SETSIZE limit — nfds is just the array length"; "  Set .fd = -1 to disable a slot without shrinking the array";
             "  revents is filled by the kernel; events is set only by the caller\n"]%string.

(** ** Section 4: [epoll] *)

(** The ready list names the events in an order of its own. *)
Fixpoint epoll_events (l : list (Z * bool)) (registered : list Z) (remaining : Z) : wm (list Z * Z) :=
  match l with
  | [] => mret (registered, remaining)
  | (fd, _) :: l' =>
      _ ← printf "  epoll got: \q%s\q (fd=%d)\n" [AStr (read_buf fd); AInt fd];
      _ ← log (Unwatch fd);
      _ ← log (CloseFd fd);
      epoll_events l' (filter (λ x, x ≠ fd) registered) (remaining - 1)
  end.

Fixpoint epoll_loop (fuel : nat) (k : nat) (registered : list Z) (remaining : Z) : wm unit :=
  match fuel with
  | O => out_of_turns
  | S fuel =>
      if 0 <? remaining then
        match kernel k registered with
        | Timeout => puts "  timeout"
        | Failed e => perror "epoll_wait" e
        | Ready events =>
            '(registered, remaining) ← epoll_events events registered remaining;
            epoll_loop fuel (S k) registered remaining
        end
      else mret tt
  end.

Definition section4_epoll (epfd : Z) (fuel : nat) : wm unit :=
  _ ← puts "═══ 4. epoll() ══════════════════════\n";
  '(ra, rb) ← two_writers;
  _ ← log (Watch ra);
  _ ← log (Watch rb);
  _ ← epoll_loop fuel 0 [ra; rb] 2;
  _ ← log (CloseFd epfd);
  _ ← log Reap;
  _ ← log Reap;
  put_lines ["\n  Notes:"; "  epoll_create1  — create the interest table (one per event loop)"; "  epoll_ctl(ADD) — register an fd; stays registered across calls";
             "  epoll_ctl(DEL) — unregister (always do this before close!)"; "  epoll_wait     — returns ONLY ready fds, O(events) not O(watched)\n"]%string.

(** ** Section 5: a pipe that does not block *)

(** [read] of at most [n] bytes from a pipe that holds [q] and whose writing end is open:
    the bytes, or the error. *)
Definition nb_read (n : nat) (q : bytes) : (Z * bytes) * bytes :=
  match q with [] => ((-1, []), []) | _ => ((Z.of_nat (length (take n q)), take n q), drop n q) end.

Definition section5_nonblocking (fd0 fd1 : Z) : wm unit :=
  _ ← puts "═══ 5. Non-blocking I/O (O_NONBLOCK) ════\n";
  _ ← set_nonblocking fd0;
  let q := [] in
  let '((n, _), q) := nb_read 32 q in
  _ ← (if n <? 0 then printf "  empty read:  EAGAIN (%d) — would block\n" [AInt EAGAIN] else mret tt);
  _ ← log (WriteFd fd1 (bytes_of "ready"));
  let q := q ++ bytes_of "ready" in
  let '((n, buf), q) := nb_read 31 q in
  let buf := take (Z.to_nat (if 0 <? n then n else 0)) buf in
  _ ← printf "  data read:   \q%s\q (%zd bytes)\n\n" [AStr (text buf); AInt n];
  _ ← log (CloseFd fd0);
  _ ← log (CloseFd fd1);
  _ ← put_lines ["  Rules for edge-triggered epoll (EPOLLET):"; "  1. fd MUST be O_NONBLOCK";
                 "  2. Loop read()/write() on each event until EAGAIN — drain completely";
                 "  3. If you don't drain, no new event fires until more data arrives"]%string;
  printf "  EAGAIN == EWOULDBLOCK on Linux (both %d)\n\n" [AInt EAGAIN].
End program.

(** ** Section 6: the echo server *)

Definition NUM_CLIENTS : Z := 3.

(** The client [i]: [connect] may fail; [reply] is what its read delivers, or nothing if it
    fails. *)
Definition client (i : Z) (fd : Z) (connect_error : option string) (reply : option bytes) : wm unit :=
  match connect_error with
  | Some e => _ ← perror "client connect" e; exit_with 1
  | None =>
      match format "ping from client %d" [AInt i] with
      | Some msg =>
          let msg := take_str 63 msg in
          _ ← log (WriteFd fd (bytes_of msg));
          let reply := match reply with Some bs => text (take 63 bs) | None => "" end in
          _ ← printf "  client %d: echo \q%s\q\n" [AInt i; AStr reply];
          _ ← log (CloseFd fd);
          exit_with 0
      | None => undef
      end
  end.

(** The loop of [run_clients] forks them, and waits for as many. *)
Fixpoint times (n : nat) (m : wm unit) : wm unit := match n with O => mret tt | S n => _ ← m; times n m end.
Definition run_clients : wm unit := _ ← times (Z.to_nat NUM_CLIENTS) (log Fork); times (Z.to_nat NUM_CLIENTS) (log Reap).

(** One event of the server: the listening socket, with the descriptors that [accept] gives
    before it fails, or a client, with what [read] delivers (nothing for an error) and
    whether the peer has hung up. *)
Inductive event := Listening (accepted : list Z) | Client (fd : Z) (delivered : option bytes) (hup : bool).
Inductive batch := Events (l : list event) | Idle | WaitFailed (e : string).

(** The descriptors of the clients that are registered, and the two counters. *)
Record server := Server { registered : list Z; active : Z; total_seen : Z }.

Fixpoint accept_all (l : list Z) (s : server) : wm server :=
  match l with
  | [] => mret s
  | cfd :: l' =>
      _ ← set_nonblocking cfd;
      _ ← log (Watch cfd);
      let s := Server (registered s ++ [cfd]) (active s + 1) (total_seen s + 1) in
      _ ← printf "  server: accepted fd=%d (active=%d)\n" [AInt cfd; AInt (active s)];
      accept_all l' s
  end.

(** The event of a client; whether the server is done. *)
Definition serve_client (fd : Z) (delivered : option bytes) (hup : bool) (s : server) : wm (server * bool) :=
  let delivered := take 255 <$> delivered in
  let nr := match delivered with Some bs => Z.of_nat (length bs) | None => -1 end in
  _ ← (if 0 <? nr then
         let buf := default [] delivered in
         _ ← printf "  server: echo \q%s\q → fd=%d\n" [AStr (text buf); AInt fd];
         log (WriteFd fd buf)
       else mret tt);
  if (nr <=? 0) || hup then
    _ ← log (Unwatch fd);
    _ ← log (CloseFd fd);
    let s := Server (filter (λ x, x ≠ fd) (registered s)) (active s - 1) (total_seen s) in
    _ ← printf "  server: fd=%d closed (active=%d)\n" [AInt fd; AInt (active s)];
    mret (s, (active s =? 0) && (total_seen s =? NUM_CLIENTS))
  else mret (s, false).

Fixpoint serve_events (l : list event) (s : server) : wm (server * bool) :=
  match l with
  | [] => mret (s, false)
  | Listening accepted :: l' => s ← accept_all accepted s; serve_events l' s
  | Client fd delivered hup :: l' =>
      '(s, done) ← serve_client fd delivered hup s;
      if done : bool then mret (s, true) else serve_events l' s
  end.

Section server.
(** What [epoll_wait] reports at its call number [k], when [fds] are the clients. *)
Context (wait : nat → list Z → batch).

Fixpoint serve (fuel : nat) (k : nat) (s : server) : wm (server * bool) :=
  match fuel with
  | O => out_of_turns
  | S fuel =>
      match wait k (registered s) with
      | Idle => _ ← puts "  server: idle timeout"; mret (s, false)
      | WaitFailed e => _ ← perror "epoll_wait" e; mret (s, false)
      | Events l =>
          '(s, done) ← serve_events l s;
          if done : bool then mret (s, true) else serve fuel (S k) s
      end
  end.

Definition section6_echo_server (port lfd epfd : Z) (fuel : nat) : wm unit :=
  _ ← puts "═══ 6. Multi-client echo server (epoll) ════\n";
  _ ← printf "  server on port %d\n" [AInt port];
  _ ← set_nonblocking lfd;
  _ ← log (Watch lfd);
  _ ← log Fork;
  '(s, _) ← serve fuel 0 (Server [] 0 0);
  _ ← log (CloseFd epfd);
  _ ← log (CloseFd lfd);
  _ ← log Reap;
  put_lines ["\n  Event loop pattern:"; "  1. epoll_create1 — one epoll instance per thread/loop"; "  2. accept + epoll_ctl(ADD) — register each client fd";
             "  3. epoll_wait — block; only ready fds come back"; "  4. read/write; epoll_ctl(DEL) + close on disconnect";
             "  EPOLLRDHUP — peer half-closed; cleaner than checking read()==0 alone\n"]%string.
End server.

(** ** The program

    For each of sections 2 to 4 what [pipe], the kernel and the writers do; the turns of
    the loops are bounded by [fuel]. *)
Record waits := { w_pipes : string + Z * Z; w_kernel : nat → list Z → answer; w_data : Z → bytes }.

Definition main (fuel : nat) (e2 e3 e4 : waits) (epfd : Z) (fds : Z * Z) (wait : nat → list Z → batch) (port lfd epfd6 : Z) : wm Z :=
  _ ← section1_concepts;
  _ ← section2_select (w_pipes e2) (w_kernel e2) (w_data e2) fuel;
  _ ← section3_poll (w_pipes e3) (w_kernel e3) (w_data e3) fuel;
  _ ← section4_epoll (w_pipes e4) (w_kernel e4) (w_data e4) epfd fuel;
  _ ← section5_nonblocking fds.1 fds.2;
  _ ← section6_echo_server wait port lfd epfd6 fuel;
  mret 0.

(** ** The three ways to wait, against one reference

    [gather] is what they have in common: the rounds, each with the descriptors handled in
    it, those that stay open, and why the loop stopped. *)
Inductive stop := AllDone | TimedOut | Broke (e : string).

Fixpoint gather (kernel : nat → list Z → answer) (fuel k : nat) (fds : list Z) : list (list Z) * list Z * stop :=
  match fds with
  | [] => ([], [], AllDone)
  | _ =>
      match fuel with
      | O => ([], fds, AllDone)
      | S fuel =>
          match kernel k fds with
          | Timeout => ([], fds, TimedOut)
          | Failed e => ([], fds, Broke e)
          | Ready l =>
              let '(rounds, open_fds, s) := gather kernel fuel (S k) (filter (λ fd, ready fd l = false) fds) in
              (filter (λ fd, ready fd l = true) fds :: rounds, open_fds, s)
          end
      end
  end.

(** What the kernel promises: it reports descriptors that are watched, each once, and at
    least one. *)
Definition fair (kernel : nat → list Z → answer) : Prop := ∀ k fds, match kernel k fds with
  | Ready l => l ≠ [] ∧ NoDup l.*1 ∧ Forall (λ fd, fd ∈ fds) l.*1
  | _ => True
  end.
(** Every descriptor reported has data. *)
Definition with_data (kernel : nat → list Z → answer) : Prop :=
  ∀ k fds, match kernel k fds with Ready l => Forall (λ e, e.2 = true) l | _ => True end.

Definition stop_log (call : string) (s : stop) : list io :=
  match s with AllDone => [] | TimedOut => (puts "  timeout").1 | Broke e => (perror call e).1 end.

Definition select_log (data : Z → bytes) (fd : Z) : list io := [Say (line "  select got: \q%s\q\n" [AStr (read_buf data fd)]); CloseFd fd].
Definition poll_log (data : Z → bytes) (fd : Z) : list io := [Say (line "  poll got: \q%s\q (fd=%d)\n" [AStr (read_buf data fd); AInt fd]); CloseFd fd].
Definition epoll_log (data : Z → bytes) (fd : Z) : list io :=
  [Say (line "  epoll got: \q%s\q (fd=%d)\n" [AStr (read_buf data fd); AInt fd]); Unwatch fd; CloseFd fd].

Definition still_open (open_fds : list Z) (fd : Z) : bool := existsb (Z.eqb fd) open_fds.

Section waiting.
Context (kernel : nat → list Z → answer) (data : Z → bytes) (ra rb : Z).
Hypothesis Hfair : fair kernel.
Hypothesis Hra : 0 ≤ ra.
Hypothesis Hrb : 0 ≤ rb.
Hypothesis Hne : ra ≠ rb.

(** What is reported when one descriptor is watched, and when both are. *)
Lemma ready_one k fd l : kernel k [fd] = Ready l → ∃ b, l = [(fd, b)].
Proof.
  intros E. pose proof (Hfair k [fd]) as H. rewrite E in H. destruct H as (Hn & Hd & Hs).
  destruct l as [|[x b] l]; [done|]. simpl in *. apply Forall_cons in Hs as [Hx Hs]. apply list_elem_of_singleton in Hx as ->.
  destruct l as [|[y c] l]; [by exists b|]. simpl in *. apply Forall_cons in Hs as [Hy _]. apply list_elem_of_singleton in Hy as ->.
  apply NoDup_cons in Hd as [Hd _]. set_solver.
Qed.

Lemma ready_two k l : kernel k [ra; rb] = Ready l →
  (∃ b, l = [(ra, b)]) ∨ (∃ b, l = [(rb, b)]) ∨ (∃ b c, l = [(ra, b); (rb, c)]) ∨ (∃ b c, l = [(rb, b); (ra, c)]).
Proof.
  intros E. pose proof (Hfair k [ra; rb]) as H. rewrite E in H. destruct H as (Hn & Hd & Hs).
  assert (∀ x, x ∈ [ra; rb] → x = ra ∨ x = rb) as Hin by set_solver.
  destruct l as [|[x b] l]; [done|]. simpl in *. apply Forall_cons in Hs as [Hx Hs]. apply NoDup_cons in Hd as [Hx' Hd].
  destruct l as [|[y c] l]; simpl in *.
  { destruct (Hin x Hx) as [-> | ->]; eauto. }
  apply Forall_cons in Hs as [Hy Hs]. apply NoDup_cons in Hd as [Hy' Hd].
  destruct l as [|[z d] l]; simpl in *; [|apply Forall_cons in Hs as [Hz _]].
  - destruct (Hin x Hx) as [-> | ->], (Hin y Hy) as [-> | ->]; try set_solver; eauto 10.
  - exfalso. destruct (Hin x Hx) as [-> | ->], (Hin y Hy) as [-> | ->], (Hin z Hz) as [-> | ->]; set_solver.
Qed.

Lemma printf_says fmt args : is_Some (format fmt args) → printf fmt args = log (Say (line fmt args)).
Proof. intros [s Hs]. unfold printf, line. by rewrite Hs. Qed.

Lemma select_one_log fd : select_one data fd = (select_log data fd, Returns tt).
Proof. unfold select_one. rewrite printf_says; [done|by eexists]. Qed.


Lemma eq_refl_b x : (x =? x) = true.
Proof. apply Z.eqb_refl. Qed.
Lemma ne_ab : (ra =? rb) = false.
Proof. by apply Z.eqb_neq. Qed.
Lemma ne_ba : (rb =? ra) = false.
Proof. apply Z.eqb_neq. congruence. Qed.

Lemma bind_returns {A B} (m : wm A) (f : A → wm B) l a : m = (l, Returns a) → m ≫= f = (l ++ (f a).1, (f a).2).
Proof. by intros ->. Qed.

Lemma settable_spec fd : 0 ≤ fd → fd < FD_SETSIZE → settable fd = true.
Proof. intros. unfold settable. by rewrite (proj2 (Z.leb_le 0 fd)) ?(proj2 (Z.ltb_lt fd FD_SETSIZE)). Qed.

(** What the loops wait for. *)
Definition watched (da db : bool) : list Z := (if da then [] else [ra]) ++ (if db then [] else [rb]).
Definition nfds : Z := Z.max ra rb + 1.

Lemma members_ready fd (l : list (Z * bool)) : existsb (Z.eqb fd) l.*1 = ready fd l.
Proof. unfold ready. induction l as [|[x b] l IH]; [done|]. simpl. by rewrite IH Z.eqb_sym. Qed.

Lemma bind_quiet {A B} (m : wm A) (f : A → wm B) a : m = ([], Returns a) → m ≫= f = f a.
Proof. intros ->. cbn. by destruct (f a). Qed.

Lemma bind_ext {A B} (m : wm A) (f g : A → wm B) : (∀ a, f a = g a) → m ≫= f = m ≫= g.
Proof. intros H. unfold mbind, wm_bind. destruct m as [lg [a|c| |]]; simpl; by rewrite ?H. Qed.

(** One turn of [select], if both descriptors can be members of the set. *)
Lemma select_turn fuel k da db : settable ra = true → settable rb = true → negb da || negb db = true →
  select_loop kernel data (S fuel) k nfds ra rb da db =
    match kernel k (watched da db) with
    | Timeout => _ ← puts "  timeout"; mret (da, db)
    | Failed e => _ ← perror "select" e; mret (da, db)
    | Ready l =>
        da' ← (if negb da && ready ra l then _ ← select_one data ra; mret true else mret da);
        db' ← (if negb db && ready rb l then _ ← select_one data rb; mret true else mret db);
        select_loop kernel data fuel (S k) nfds ra rb da' db'
    end.
Proof.
  intros Ha Hb Hd. cbn [select_loop]. rewrite Hd.
  rewrite (bind_quiet _ _ (if da then [] else [ra])); [|by destruct da; rewrite /= /FD_SET ?Ha].
  rewrite (bind_quiet _ _ (watched da db)).
  2: { unfold watched. destruct da, db; rewrite /= /FD_SET ?Hb //. by rewrite filter_cons_True. }
  assert (select kernel k nfds (watched da db) = kernel k (watched da db)) as ->.
  { unfold select, watched, nfds. f_equal. destruct da, db; rewrite /= ?filter_cons ?filter_nil; repeat case_decide; (done || lia). }
  destruct (kernel k (watched da db)) as [l| |e]; [|done..].
  rewrite (bind_quiet _ _ (negb da && ready ra l)); [|by destruct da; rewrite /= /FD_ISSET ?Ha ?members_ready].
  apply bind_ext. intros da'.
  by rewrite (bind_quiet _ _ (negb db && ready rb l)); [|by destruct db; rewrite /= /FD_ISSET ?Hb ?members_ready].
Qed.

(** A descriptor that cannot be a member of the set. *)
Lemma select_outside fuel k n : settable ra && settable rb = false →
  select_loop kernel data (S fuel) k n ra rb false false = ([], Undef).
Proof. intros H. cbn [select_loop negb orb]. unfold FD_SET. by destruct (settable ra), (settable rb). Qed.

(** A round of each loop. *)
Lemma select_round fuel k da db l : settable ra = true → settable rb = true →
  kernel k (watched da db) = Ready l → negb da || negb db = true →
  let a := negb da && ready ra l in let b := negb db && ready rb l in
  let rest := select_loop kernel data fuel (S k) nfds ra rb (da || a) (db || b) in
  select_loop kernel data (S fuel) k nfds ra rb da db =
    ((if a then select_log data ra else []) ++ (if b then select_log data rb else []) ++ rest.1, rest.2).
Proof.
  intros Ha Hb E Hd a b rest. rewrite select_turn // E. fold a b.
  rewrite (bind_returns _ _ (if a then select_log data ra else []) (da || a)).
  2: { destruct a; [rewrite (bind_returns _ _ _ _ (select_one_log ra)) orb_true_r|rewrite orb_false_r]; done. }
  rewrite (bind_returns _ _ (if b then select_log data rb else []) (db || b)).
  2: { destruct b; [rewrite (bind_returns _ _ _ _ (select_one_log rb)) orb_true_r|rewrite orb_false_r]; done. }
  done.
Qed.

Lemma poll_slots_cons fd slots l remaining : 0 < remaining →
  let hit := (0 <=? fd) && ready_in fd l in
  let m := poll_slots data slots l (if hit then remaining - 1 else remaining) in
  poll_slots data (fd :: slots) l remaining =
    ((if hit then poll_log data fd else []) ++ m.1,
     match m.2 with
     | Returns (slots', r) => Returns ((if hit then -1 else fd) :: slots', r)
     | Exits c => Exits c | OutOfTurns => OutOfTurns | Undef => Undef
     end).
Proof.
  intros Hr hit m. cbn [poll_slots]. rewrite (proj2 (Z.leb_gt remaining 0) Hr). fold hit.
  rewrite (bind_returns _ _ (if hit then poll_log data fd else []) ((if hit then -1 else fd), (if hit then remaining - 1 else remaining))).
  2: { destruct hit; [|done]. rewrite printf_says; [done|by eexists]. }
  cbv beta iota. fold m. unfold mbind, wm_bind. destruct m as [lg [[sl r]|c| |]]; simpl; by rewrite ?app_nil_r.
Qed.

Lemma poll_round fuel k fds remaining l lg fds' r : kernel k (polled fds) = Ready l → 0 < remaining →
  poll_slots data fds l remaining = (lg, Returns (fds', r)) →
  poll_loop kernel data (S fuel) k fds remaining =
    (lg ++ (poll_loop kernel data fuel (S k) fds' r).1, (poll_loop kernel data fuel (S k) fds' r).2).
Proof. intros E Hr Es. cbn [poll_loop]. by rewrite (proj2 (Z.ltb_lt 0 remaining) Hr) E (bind_returns _ _ _ _ Es). Qed.

Lemma epoll_events_all l : ∀ registered remaining, epoll_events data l registered remaining =
  (l.*1 ≫= epoll_log data, Returns (foldl (λ r fd, filter (λ x, x ≠ fd) r) registered l.*1, remaining - Z.of_nat (length l))).
Proof.
  induction l as [|[fd b] l IH]; intros registered remaining; [by rewrite Z.sub_0_r|].
  cbn [epoll_events]. rewrite printf_says; [|by eexists].
  rewrite (bind_returns (log _) _ _ tt eq_refl) (bind_returns (log (Unwatch fd)) _ _ tt eq_refl) (bind_returns (log (CloseFd fd)) _ _ tt eq_refl).
  rewrite IH. simpl. do 3 f_equal. lia.
Qed.

Lemma epoll_round fuel k registered remaining l : kernel k registered = Ready l → 0 < remaining →
  let rest := epoll_loop kernel data fuel (S k) (foldl (λ r fd, filter (λ x, x ≠ fd) r) registered l.*1) (remaining - Z.of_nat (length l)) in
  epoll_loop kernel data (S fuel) k registered remaining = ((l.*1 ≫= epoll_log data) ++ rest.1, rest.2).
Proof.
  intros E Hr rest. cbn [epoll_loop]. by rewrite (proj2 (Z.ltb_lt 0 remaining) Hr) E (bind_returns _ _ _ _ (epoll_events_all l registered remaining)).
Qed.

Lemma filter_both (P : Z → Prop) `{∀ x, Decision (P x)} x y :
  filter P [x; y] = (if decide (P x) then [x] else []) ++ (if decide (P y) then [y] else []).
Proof. rewrite !filter_cons filter_nil. by repeat case_decide. Qed.

(** The facts a round needs about what is ready. *)
Ltac facts :=
  unfold ready, ready_in; cbn [existsb fst snd andb orb negb]; rewrite ?eq_refl_b ?ne_ab ?ne_ba; cbn [andb orb negb app].

Definition select_agrees (rounds : list (list Z)) (open_fds : list Z) (s : stop) : Prop :=
  select_loop kernel data 3 0 nfds ra rb false false =
    ((concat rounds ≫= select_log data) ++ stop_log "select" s, Returns (negb (still_open open_fds ra), negb (still_open open_fds rb))).

Definition gathers (rounds : list (list Z)) (open_fds : list Z) (s : stop) : Prop := gather kernel 2 0 [ra; rb] = (rounds, open_fds, s).

(** The runs there are: a stop at once, both descriptors in the first round, or one in the
    first and the other in the second or not at all. *)
Inductive course : list (list Z) → list Z → stop → Prop :=
  | course_timeout : kernel 0 [ra; rb] = Timeout → course [] [ra; rb] TimedOut
  | course_failed e : kernel 0 [ra; rb] = Failed e → course [] [ra; rb] (Broke e)
  | course_both b c l : kernel 0 [ra; rb] = Ready l → l = [(ra, b); (rb, c)] ∨ l = [(rb, b); (ra, c)] → course [[ra; rb]] [] AllDone
  | course_one x y b a rounds open_fds s : (x, y) = (ra, rb) ∨ (x, y) = (rb, ra) →
      kernel 0 [ra; rb] = Ready [(x, b)] → kernel 1 [y] = a →
      match a with
      | Timeout => rounds = [] ∧ open_fds = [y] ∧ s = TimedOut
      | Failed e => rounds = [] ∧ open_fds = [y] ∧ s = Broke e
      | Ready l => rounds = [[y]] ∧ open_fds = [] ∧ s = AllDone ∧ ∃ c, l = [(y, c)]
      end → course ([x] :: rounds) open_fds s.

Lemma course_exists : ∃ rounds open_fds s, course rounds open_fds s.
Proof.
  destruct (kernel 0 [ra; rb]) as [l| |e] eqn:E; [|by do 3 eexists; apply course_timeout|by do 3 eexists; eapply course_failed].
  assert (∀ x y b, (x, y) = (ra, rb) ∨ (x, y) = (rb, ra) → l = [(x, b)] → ∃ rounds open_fds s, course rounds open_fds s) as Hone.
  { intros x y b Hxy ->. destruct (kernel 1 [y]) as [l1| |e] eqn:E1.
    - destruct (ready_one 1 y l1 E1) as [c ->]. exists ([x] :: [[y]]), [], AllDone. apply (course_one x y b _ _ _ _ Hxy E E1). by eauto 10.
    - exists ([x] :: []), [y], TimedOut. by apply (course_one x y b _ _ _ _ Hxy E E1).
    - exists ([x] :: []), [y], (Broke e). by apply (course_one x y b _ _ _ _ Hxy E E1). }
  destruct (ready_two 0 l E) as [[b Hl]|[[b Hl]|[(b & c & Hl)|(b & c & Hl)]]].
  - eapply (Hone ra rb); eauto.
  - eapply (Hone rb ra); eauto.
  - do 3 eexists. eapply course_both; eauto.
  - do 3 eexists. eapply course_both; eauto.
Qed.

Lemma course_gathers rounds open_fds s : course rounds open_fds s → gathers rounds open_fds s.
Proof.
  unfold gathers. intros [E|e E|b c l E Hl|x y b a r o s' Hxy E E1 Ha]; cbn [gather]; rewrite E; [done|done| |].
  - rewrite !filter_both. destruct Hl as [-> | ->]; facts; done.
  - rewrite !filter_both. destruct Hxy as [[= -> ->]|[= -> ->]]; facts; cbn [decide decide_rel bool_eq_dec app]; rewrite E1;
      (destruct a as [l| |e]; [destruct Ha as (-> & -> & -> & c & ->)|destruct Ha as (-> & -> & ->)|destruct Ha as (-> & -> & ->)]); try done;
      rewrite !filter_cons !filter_nil; facts; done.
Qed.

Lemma course_select rounds open_fds s : settable ra = true → settable rb = true → course rounds open_fds s → select_agrees rounds open_fds s.
Proof.
  intros Ha Hb. unfold select_agrees, still_open. intros [E|e E|b c l E Hl|x y b a r o s' Hxy E E1 Hk].
  - rewrite select_turn //; cbn [watched app]. rewrite E. cbn. by rewrite ?eq_refl_b ?ne_ab ?ne_ba.
  - rewrite select_turn //; cbn [watched app]. rewrite E. cbn. by rewrite ?eq_refl_b ?ne_ab ?ne_ba.
  - rewrite (select_round 2 0 false false l Ha Hb E eq_refl). destruct Hl as [-> | ->]; facts; done.
  - rewrite (select_round 2 0 false false _ Ha Hb E eq_refl). destruct Hxy as [[= -> ->]|[= -> ->]]; facts.
    + destruct a as [l| |e]; [destruct Hk as (-> & -> & -> & c & ->)|destruct Hk as (-> & -> & ->)|destruct Hk as (-> & -> & ->)].
      * rewrite (select_round 1 1 true false _ Ha Hb E1 eq_refl). facts. done.
      * rewrite select_turn //; cbn [watched app]. rewrite E1. cbn. by rewrite ?eq_refl_b ?ne_ab ?ne_ba.
      * rewrite select_turn //; cbn [watched app]. rewrite E1. cbn. by rewrite ?eq_refl_b ?ne_ab ?ne_ba.
    + destruct a as [l| |e]; [destruct Hk as (-> & -> & -> & c & ->)|destruct Hk as (-> & -> & ->)|destruct Hk as (-> & -> & ->)].
      * rewrite (select_round 1 1 false true _ Ha Hb E1 eq_refl). facts. done.
      * rewrite select_turn //; cbn [watched app]. rewrite E1. cbn. by rewrite ?eq_refl_b ?ne_ab ?ne_ba.
      * rewrite select_turn //; cbn [watched app]. rewrite E1. cbn. by rewrite ?eq_refl_b ?ne_ab ?ne_ba.
Qed.

Definition slots (open_fds : list Z) : list Z := (λ fd, if still_open open_fds fd then fd else -1) <$> [ra; rb].

Definition poll_agrees (rounds : list (list Z)) (open_fds : list Z) (s : stop) : Prop :=
  poll_loop kernel data 3 0 [ra; rb] 2 = ((concat rounds ≫= poll_log data) ++ stop_log "poll" s, Returns (slots open_fds)).

Lemma data_at k fds x b : with_data kernel → kernel k fds = Ready [(x, b)] → b = true.
Proof. intros H E. specialize (H k fds). rewrite E in H. by apply Forall_cons in H as [H _]. Qed.
Lemma data_at_two k fds x b y c : with_data kernel → kernel k fds = Ready [(x, b); (y, c)] → b = true ∧ c = true.
Proof. intros H E. specialize (H k fds). rewrite E in H. by apply Forall_cons in H as [? [? _]%Forall_cons]. Qed.

Lemma polled_two x y : 0 ≤ x → 0 ≤ y → polled [x; y] = [x; y].
Proof. intros. unfold polled. by rewrite filter_both !decide_True. Qed.
Lemma polled_first x : 0 ≤ x → polled [x; -1] = [x].
Proof. intros. unfold polled. rewrite filter_both. by destruct (decide (0 ≤ x)). Qed.
Lemma polled_second x : 0 ≤ x → polled [-1; x] = [x].
Proof. intros. unfold polled. rewrite filter_both. by destruct (decide (0 ≤ x)). Qed.

Ltac poll_facts :=
  rewrite ?(proj2 (Z.leb_le 0 ra) Hra) ?(proj2 (Z.leb_le 0 rb) Hrb); facts.

Lemma course_poll rounds open_fds s : with_data kernel → course rounds open_fds s → poll_agrees rounds open_fds s.
Proof.
  intros Hd. unfold poll_agrees, slots, still_open. pose proof (polled_two ra rb Hra Hrb) as Hp2.
  intros [E|e E|b c l E Hl|x y b a r o s' Hxy E E1 Ha]; rewrite -Hp2 in E.
  - cbn [poll_loop Z.ltb Z.compare]. rewrite E. cbn. by rewrite ?eq_refl_b ?ne_ab ?ne_ba.
  - cbn [poll_loop Z.ltb Z.compare]. rewrite E. cbn. by rewrite ?eq_refl_b ?ne_ab ?ne_ba.
  - assert (b = true ∧ c = true) as [-> ->] by (destruct Hl as [-> | ->]; by eapply data_at_two).
    rewrite (poll_round 2 0 _ 2 l (poll_log data ra ++ poll_log data rb) [-1; -1] 0 E); [done|lia|].
    rewrite poll_slots_cons; [|lia]. destruct Hl as [-> | ->]; poll_facts; (rewrite poll_slots_cons; [|lia]); poll_facts; done.
  - assert (b = true) as -> by by eapply data_at.
    destruct Hxy as [[= -> ->]|[= -> ->]].
    + rewrite (poll_round 2 0 _ 2 _ (poll_log data ra) [-1; rb] 1 E); [|lia|].
      2: { rewrite poll_slots_cons; [|lia]. poll_facts. (rewrite poll_slots_cons; [|lia]). poll_facts. done. }
      rewrite -(polled_second rb Hrb) in E1.
      destruct a as [l| |e]; [destruct Ha as (-> & -> & -> & c & ->)|destruct Ha as (-> & -> & ->)|destruct Ha as (-> & -> & ->)].
      * assert (c = true) as -> by by eapply data_at. rewrite (poll_round 1 1 _ 1 _ (poll_log data rb) [-1; -1] 0 E1); [done|lia|].
        rewrite poll_slots_cons; [|lia]. cbn [Z.leb Z.compare andb]. (rewrite poll_slots_cons; [|lia]). poll_facts. done.
      * cbn [poll_loop Z.ltb Z.compare]. rewrite E1. cbn. by rewrite ?eq_refl_b ?ne_ab ?ne_ba.
      * cbn [poll_loop Z.ltb Z.compare]. rewrite E1. cbn. by rewrite ?eq_refl_b ?ne_ab ?ne_ba.
    + rewrite (poll_round 2 0 _ 2 _ (poll_log data rb) [ra; -1] 1 E); [|lia|].
      2: { rewrite poll_slots_cons; [|lia]. poll_facts. (rewrite poll_slots_cons; [|lia]). poll_facts. done. }
      rewrite -(polled_first ra Hra) in E1.
      destruct a as [l| |e]; [destruct Ha as (-> & -> & -> & c & ->)|destruct Ha as (-> & -> & ->)|destruct Ha as (-> & -> & ->)].
      * assert (c = true) as -> by by eapply data_at. rewrite (poll_round 1 1 _ 1 _ (poll_log data ra) [-1; -1] 0 E1); [done|lia|].
        rewrite poll_slots_cons; [|lia]. poll_facts. done.
      * cbn [poll_loop Z.ltb Z.compare]. rewrite E1. cbn. by rewrite ?eq_refl_b ?ne_ab ?ne_ba.
      * cbn [poll_loop Z.ltb Z.compare]. rewrite E1. cbn. by rewrite ?eq_refl_b ?ne_ab ?ne_ba.
Qed.

Definition epoll_agrees (rounds : list (list Z)) (s : stop) : Prop :=
  ∃ rounds', Forall2 Permutation rounds rounds' ∧
    epoll_loop kernel data 3 0 [ra; rb] 2 = ((concat rounds' ≫= epoll_log data) ++ stop_log "epoll_wait" s, Returns tt).

Lemma epoll_at_end fuel k fds : epoll_loop kernel data (S fuel) k fds 0 = ([], Returns tt).
Proof. done. Qed.

Lemma epoll_last y a rounds open_fds s : kernel 1 [y] = a →
  match a with
  | Timeout => rounds = [] ∧ open_fds = [y] ∧ s = TimedOut
  | Failed e => rounds = [] ∧ open_fds = [y] ∧ s = Broke e
  | Ready l => rounds = [[y]] ∧ open_fds = [] ∧ s = AllDone ∧ ∃ c, l = [(y, c)]
  end → epoll_loop kernel data 2 1 [y] 1 = ((concat rounds ≫= epoll_log data) ++ stop_log "epoll_wait" s, Returns tt).
Proof.
  intros E1 Ha. destruct a as [l| |e].
  - destruct Ha as (-> & -> & -> & c & ->). by rewrite (epoll_round 1 1 _ 1 _ E1 ltac:(lia)).
  - destruct Ha as (-> & -> & ->). cbn [epoll_loop Z.ltb Z.compare]. by rewrite E1.
  - destruct Ha as (-> & -> & ->). cbn [epoll_loop Z.ltb Z.compare]. by rewrite E1.
Qed.

Lemma course_epoll rounds open_fds s : course rounds open_fds s → epoll_agrees rounds s.
Proof.
  unfold epoll_agrees. intros [E|e E|b c l E Hl|x y b a r o s' Hxy E E1 Ha].
  - exists []. split; [constructor|]. cbn [epoll_loop Z.ltb Z.compare]. by rewrite E.
  - exists []. split; [constructor|]. cbn [epoll_loop Z.ltb Z.compare]. by rewrite E.
  - exists [l.*1]. split.
    + constructor; [|constructor]. destruct Hl as [-> | ->]; simpl; [done|]. apply perm_swap.
    + rewrite (epoll_round 2 0 _ 2 _ E ltac:(lia)). by destruct Hl as [-> | ->].
  - exists ([x] :: r). split; [constructor; [done|]; clear; induction r; constructor; done|].
    rewrite (epoll_round 2 0 _ 2 _ E ltac:(lia)). cbn [length fmap list_fmap fst foldl].
    assert (filter (λ z, z ≠ x) [ra; rb] = [y]) as ->.
    { rewrite filter_both. destruct Hxy as [[= -> ->]|[= -> ->]]; repeat case_decide; naive_solver. }
    change (2 - Z.of_nat 1) with 1. rewrite (epoll_last y a r o s' E1 Ha). cbn [concat app mbind list_bind fst snd]. by rewrite -!app_assoc.
Qed.

Lemma course_parts rounds open_fds s : course rounds open_fds s →
  concat rounds ++ open_fds ≡ₚ [ra; rb] ∧ (s = AllDone ↔ open_fds = []).
Proof.
  intros [E|e E|b c l E Hl|x y b a r o s' Hxy E E1 Ha]; [done..|].
  assert ([x; y] ≡ₚ [ra; rb]) as Hp by (destruct Hxy as [[= -> ->]|[= -> ->]]; [done|apply perm_swap]).
  destruct a as [l| |e]; [destruct Ha as (-> & -> & -> & c & ->)|destruct Ha as (-> & -> & ->)|destruct Ha as (-> & -> & ->)]; by split.
Qed.
End waiting.

(** ** Descriptors that are closed *)

Definition closes (l : list io) : list Z := omap (λ e, match e with CloseFd fd => Some fd | _ => None end) l.

Lemma closes_app l1 l2 : closes (l1 ++ l2) = closes l1 ++ closes l2.
Proof. apply omap_app. Qed.

Lemma closes_bind (f : Z → list io) l : (∀ fd, closes (f fd) = [fd]) → closes (l ≫= f) = l.
Proof. intros H. induction l as [|x l IH]; [done|]. rewrite bind_cons closes_app H IH. done. Qed.

Lemma closes_stop call s : closes (stop_log call s) = [].
Proof. by destruct s. Qed.

(** A writer that hangs up without writing: [poll] reports it at once, again and again,
    without the flag the loop tests. *)
Definition hung_up (k : nat) (fds : list Z) : answer := match fds with [] => Timeout | _ => Ready ((λ fd, (fd, false)) <$> fds) end.

Lemma ready_in_hung_up fd fds : ready_in fd ((λ fd, (fd, false)) <$> fds) = false.
Proof. unfold ready_in. induction fds as [|x fds IH]; [done|]. simpl. by rewrite andb_false_r. Qed.

Lemma poll_slots_hung_up data fds l remaining : 0 < remaining → (∀ fd, ready_in fd l = false) →
  poll_slots data fds l remaining = ([], Returns (fds, remaining)).
Proof.
  intros Hr Hl. induction fds as [|fd fds IH]; [done|]. rewrite poll_slots_cons //. by rewrite Hl andb_false_r IH.
Qed.

Lemma poll_hung_up data ra rb : 0 ≤ ra → 0 ≤ rb → ∀ fuel k, poll_loop hung_up data fuel k [ra; rb] 2 = ([], OutOfTurns).
Proof.
  intros Ha Hb fuel. induction fuel as [|fuel IH]; intros k; [done|].
  rewrite (poll_round _ data fuel k _ 2 ((λ fd, (fd, false)) <$> [ra; rb]) [] [ra; rb] 2).
  - by rewrite IH.
  - by rewrite polled_two.
  - lia.
  - apply poll_slots_hung_up; [lia|]. intros fd. apply ready_in_hung_up.
Qed.

(** ** The echo server *)

Definition watches (l : list io) : list Z := omap (λ e, match e with Watch fd => Some fd | _ => None end) l.
Definition writes_of (l : list io) : list (Z * bytes) := omap (λ e, match e with WriteFd fd bs => Some (fd, bs) | _ => None end) l.

Lemma watches_app l1 l2 : watches (l1 ++ l2) = watches l1 ++ watches l2.
Proof. apply omap_app. Qed.
Lemma writes_of_app l1 l2 : writes_of (l1 ++ l2) = writes_of l1 ++ writes_of l2.
Proof. apply omap_app. Qed.

(** Whether the event of a client closes it. *)
Definition closing (delivered : option bytes) (hup : bool) : bool :=
  match delivered with Some (_ :: _) => hup | _ => true end.

(** What the kernel promises of a batch, [open] being the descriptors that are open:
    [accept] gives new ones, events name open ones. *)
Fixpoint consistent (l : list event) (open : list Z) : Prop :=
  match l with
  | [] => True
  | Listening acc :: l' => NoDup acc ∧ Forall (λ fd, fd ∉ open) acc ∧ consistent l' (open ++ acc)
  | Client fd d h :: l' => fd ∈ open ∧ consistent l' (if closing d h then filter (λ x, x ≠ fd) open else open)
  end.

(** What is to be written for an event: what was read. *)
Definition echoes (e : event) : list (Z * bytes) :=
  match e with Client fd (Some (b :: bs)) _ => [(fd, take 255 (b :: bs))] | _ => [] end.

Record server_ok (s : server) : Prop := { ok_nodup : NoDup (registered s); ok_active : active s = length (registered s) }.

(** What a piece of the run does: from [s] to [s'] with the log [lg]. *)
Record does (s : server) (lg : list io) (s' : server) : Prop := {
  does_ok : server_ok s';
  does_seen : total_seen s' = total_seen s + Z.of_nat (length (watches lg));
  does_closes : closes lg ++ registered s' ≡ₚ registered s ++ watches lg }.

Lemma does_nil s : server_ok s → does s [] s.
Proof. intros H. split; [done|simpl; lia|]. by rewrite app_nil_r. Qed.

Lemma does_app s lg s1 lg' s2 : does s lg s1 → does s1 lg' s2 → does s (lg ++ lg') s2.
Proof.
  intros [Hok Hs Hc] [Hok' Hs' Hc']. split; [done| |].
  - rewrite Hs' Hs watches_app length_app. lia.
  - rewrite closes_app watches_app -app_assoc Hc' app_assoc Hc -app_assoc. done.
Qed.

Lemma accept_all_does acc : ∀ s, server_ok s → NoDup acc → Forall (λ fd, fd ∉ registered s) acc →
  ∃ lg s', accept_all acc s = (lg, Returns s') ∧ registered s' = registered s ++ acc ∧ does s lg s' ∧ writes_of lg = [].
Proof.
  induction acc as [|fd acc IH]; intros s Hok Hnd Hfresh.
  { exists [], s. split_and!; [done|by rewrite app_nil_r|by apply does_nil|done]. }
  apply NoDup_cons in Hnd as [Hfd Hnd]. apply Forall_cons in Hfresh as [Hf Hfresh]. destruct Hok as [Hreg Hact].
  set (s1 := Server (registered s ++ [fd]) (active s + 1) (total_seen s + 1)).
  assert (server_ok s1) as Hok1.
  { split; simpl; [|rewrite length_app Hact /=; lia]. apply NoDup_app. split_and!; [done|set_solver|apply NoDup_singleton]. }
  destruct (IH s1 Hok1 Hnd) as (lg & s' & E & Hr & Hd & Hw).
  { apply Forall_forall. intros x Hx. simpl. rewrite Forall_forall in Hfresh. pose proof (Hfresh x Hx). set_solver. }
  eexists _, s'. split; [|split_and!].
  - cbn [accept_all]. rewrite (bind_returns (set_nonblocking fd) _ _ tt eq_refl) (bind_returns (log (Watch fd)) _ _ tt eq_refl).
    fold s1. rewrite printf_says; [|by eexists]. rewrite (bind_returns (log _) _ _ tt eq_refl) E. reflexivity.
  - rewrite Hr /= -app_assoc. done.
  - eapply (does_app s [SetNonblocking fd; Watch fd] s1).
    { split; [done|simpl; lia|done]. }
    by eapply (does_app s1 [Say _] s1); [split; [done|simpl; lia|simpl; by rewrite app_nil_r]|].
  - by cbn.
Qed.

Lemma filter_ne_perm fd (l : list Z) : NoDup l → fd ∈ l → l ≡ₚ fd :: filter (λ x, x ≠ fd) l.
Proof.
  induction l as [|x l IH]; intros Hn Hin; [set_solver|]. apply NoDup_cons in Hn as [Hx Hn]. rewrite filter_cons.
  destruct (decide (x ≠ fd)) as [Hne|He].
  - assert (fd ∈ l) as Hl by set_solver. rewrite {1}(IH Hn Hl). apply perm_swap.
  - assert (x = fd) as -> by (destruct (decide (x = fd)); tauto). f_equiv. clear IH Hn Hin He.
    induction l as [|y l IH]; [done|]. rewrite filter_cons_True; [|set_solver]. f_equiv. apply IH. set_solver.
Qed.

Lemma closing_nr d h :
  ((match take 255 <$> d with Some bs => Z.of_nat (length bs) | None => -1 end) <=? 0) || h = closing d h.
Proof. destruct d as [[|b bs]|]; [done| |done]. by cbn. Qed.

Lemma serve_client_does fd d h s : server_ok s → fd ∈ registered s →
  ∃ lg s', serve_client fd d h s = (lg, Returns (s', closing d h && ((active s - 1 =? 0) && (total_seen s =? NUM_CLIENTS)))) ∧
    registered s' = (if closing d h then filter (λ x, x ≠ fd) (registered s) else registered s) ∧
    total_seen s' = total_seen s ∧ does s lg s' ∧ writes_of lg = echoes (Client fd d h).
Proof.
  intros Hok Hin. unfold serve_client. cbv zeta.
  set (lge := match take 255 <$> d with
              | Some (b :: bs) => [Say (line "  server: echo \q%s\q → fd=%d\n" [AStr (text (b :: bs)); AInt fd]); WriteFd fd (b :: bs)]
              | _ => [] end).
  rewrite (bind_returns _ _ lge tt).
  2: { destruct d as [[|b bs]|]; [done| |done]. cbn [fmap option_fmap option_map take length default]. cbn -[line take printf].
       rewrite printf_says; [done|by eexists]. }
  assert (writes_of lge = echoes (Client fd d h) ∧ closes lge = [] ∧ watches lge = []) as (Hw & Hc & Hwa).
  { subst lge. by destruct d as [[|b bs]|]. }
  rewrite closing_nr. destruct Hok as [Hnd Hact]. pose proof (filter_ne_perm fd _ Hnd Hin) as Hp.
  destruct (closing d h).
  - rewrite (bind_returns (log (Unwatch fd)) _ _ tt eq_refl) (bind_returns (log (CloseFd fd)) _ _ tt eq_refl).
    rewrite printf_says; [|by eexists]. rewrite (bind_returns (log _) _ _ tt eq_refl).
    eexists _, _. split_and!; [reflexivity|done|done| |].
    + split.
      * split; simpl; [by apply NoDup_filter|]. rewrite Hact (Permutation_length Hp) /=. lia.
      * cbn [fst]. rewrite watches_app Hwa. simpl. lia.
      * cbn [fst]. rewrite closes_app watches_app Hc Hwa. simpl. by rewrite app_nil_r -Hp.
    + cbn [fst]. rewrite writes_of_app Hw. simpl. by rewrite app_nil_r.
  - eexists _, s. split_and!; [reflexivity|done|done| |].
    + cbn [fst mret wm_ret]. rewrite app_nil_r. split; [done|rewrite Hwa /=; lia|by rewrite Hc Hwa app_nil_r].
    + cbn [fst mret wm_ret]. by rewrite app_nil_r.
Qed.

Lemma serve_events_does l : ∀ s, server_ok s → consistent l (registered s) →
  ∃ lg s' done, serve_events l s = (lg, Returns (s', done)) ∧ does s lg s' ∧
    (done = true → registered s' = [] ∧ total_seen s' = NUM_CLIENTS) ∧
    ∃ l1 l2, l = l1 ++ l2 ∧ writes_of lg = l1 ≫= echoes ∧ (done = false → l2 = []).
Proof.
  induction l as [|[acc|fd d h] l IH]; intros s Hok Hcons; cbn [serve_events consistent] in *.
  - exists [], s, false. split_and!; [done|by apply does_nil|done|]. by exists [], [].
  - destruct Hcons as (Hnd & Hfr & Hcons). destruct (accept_all_does acc s Hok Hnd Hfr) as (lg & s1 & E & Hr & Hd & Hw).
    rewrite -Hr in Hcons. destruct (IH s1 (does_ok _ _ _ Hd) Hcons) as (lg' & s2 & dn & E' & Hd' & Hdone & l1 & l2 & Hl & Hws & Hl2).
    exists (lg ++ lg'), s2, dn. split_and!; [by rewrite (bind_returns _ _ _ _ E) E'|by eapply does_app|done|].
    exists (Listening acc :: l1), l2. split_and!; [by rewrite Hl|by rewrite writes_of_app Hw Hws|done].
  - destruct Hcons as [Hin Hcons]. destruct (serve_client_does fd d h s Hok Hin) as (lg & s1 & E & Hr & Hts & Hd & Hw).
    rewrite (bind_returns _ _ _ _ E). cbv beta iota. destruct (closing d h && _) eqn:Edone.
    + exists lg, s1, true. split_and!; [by rewrite /= app_nil_r|done| |].
      * intros _. apply andb_true_iff in Edone as [Ec [Ea Et]%andb_true_iff]. apply Z.eqb_eq in Ea, Et.
        rewrite Ec in Hr. destruct Hok as [Hnd Hact]. pose proof (Permutation_length (filter_ne_perm fd _ Hnd Hin)) as Hlen. simpl in Hlen.
        split; [rewrite Hr; apply length_zero_iff_nil; lia|by rewrite Hts].
      * exists [Client fd d h], l. split_and!; [done|by rewrite bind_cons Hw app_nil_r|done].
    + rewrite -Hr in Hcons. destruct (IH s1 (does_ok _ _ _ Hd) Hcons) as (lg' & s2 & dn & E' & Hd' & Hdone & l1 & l2 & Hl & Hws & Hl2).
      exists (lg ++ lg'), s2, dn. split_and!; [by rewrite E'|by eapply does_app|done|].
      exists (Client fd d h :: l1), l2. split_and!; [by rewrite Hl|by rewrite writes_of_app Hw Hws|done].
Qed.

(** The descriptors the kernel watches are those that are open. *)
Definition well_behaved (wait : nat → list Z → batch) : Prop :=
  ∀ k fds, match wait k fds with Events l => consistent l fds | _ => True end.

Lemma does_quiet s lg : server_ok s → closes lg = [] → watches lg = [] → does s lg s.
Proof. intros Hok Hc Hw. split; [done|rewrite Hw /=; lia|by rewrite Hc Hw app_nil_r]. Qed.

Lemma serve_does wait : well_behaved wait → ∀ fuel k s, server_ok s → ∃ lg r, serve wait fuel k s = (lg, r) ∧
  match r with
  | Returns (s', done) => does s lg s' ∧ (done = true → registered s' = [] ∧ total_seen s' = NUM_CLIENTS)
  | OutOfTurns => ∀ N, (∀ fds, wait N fds = Idle) → (k ≤ N)%nat → (k + fuel ≤ N)%nat
  | _ => False
  end.
Proof.
  intros Hwait fuel. induction fuel as [|fuel IH]; intros k s Hok; cbn [serve].
  { exists [], OutOfTurns. split; [done|]. intros; lia. }
  pose proof (Hwait k (registered s)) as Hc. destruct (wait k (registered s)) as [l| |e] eqn:E.
  - destruct (serve_events_does l s Hok Hc) as (lg & s1 & dn & E1 & Hd & Hdone & _). rewrite (bind_returns _ _ _ _ E1). cbv beta iota.
    destruct dn.
    + exists lg, (Returns (s1, true)). cbn [fst snd mret wm_ret]. rewrite app_nil_r. split; [done|]. by split.
    + destruct (IH (S k) s1 (does_ok _ _ _ Hd)) as (lg' & r & E' & Hr). exists (lg ++ lg'), r. rewrite E'. split; [done|].
      destruct r as [[s2 dn]|c| |]; try done.
      * destruct Hr as [Hd' Hdn]. split; [by eapply does_app|done].
      * intros N HN Hk. assert (N ≠ k) by (intros ->; rewrite HN in E; done). pose proof (Hr N HN ltac:(lia)). lia.
  - eexists _, (Returns (s, false)). split; [reflexivity|]. split; [|done]. by apply does_quiet.
  - eexists _, (Returns (s, false)). split; [reflexivity|]. split; [|done]. by apply does_quiet.
Qed.

(** ** What the sections close *)

Lemma closes_step {A B} (m : wm A) (f : A → wm B) l a : m = (l, Returns a) → closes (m ≫= f).1 = closes l ++ closes (f a).1.
Proof. intros H. by rewrite (bind_returns _ _ _ _ H) closes_app. Qed.

Lemma close_unless (b : bool) fd : (if negb b then log (CloseFd fd) else mret tt : wm unit) = (if b then [] else [CloseFd fd], Returns tt).
Proof. by destruct b. Qed.

Lemma closed_flags ra rb open_fds : ra ≠ rb → open_fds = [] ∨ open_fds = [ra] ∨ open_fds = [rb] ∨ open_fds = [ra; rb] →
  closes (if negb (still_open open_fds ra) then [] else [CloseFd ra]) ++ closes (if negb (still_open open_fds rb) then [] else [CloseFd rb]) = open_fds.
Proof.
  intros Hne H. unfold still_open. pose proof (proj2 (Z.eqb_neq ra rb) Hne) as Hab.
  assert ((rb =? ra) = false) as Hba by (apply Z.eqb_neq; congruence).
  destruct H as [->|[->|[->| ->]]]; simpl; rewrite ?Z.eqb_refl ?Hab ?Hba; done.
Qed.

Lemma two_writers_log ra rb : two_writers (inr (ra, rb)) = ([Fork; Fork], Returns (ra, rb)).
Proof. done. Qed.

Lemma course_open kernel ra rb rounds open_fds s : course kernel ra rb rounds open_fds s →
  open_fds = [] ∨ open_fds = [ra] ∨ open_fds = [rb] ∨ open_fds = [ra; rb].
Proof.
  intros [E|e E|b c l E Hl|x y b a r o s' Hxy E E1 Ha]; [auto..|].
  destruct a as [l| |e]; destruct Ha as (_ & -> & Ha); [auto|destruct Hxy as [[= -> ->]|[= -> ->]]; auto..].
Qed.

Lemma closes_open_slots ra rb open_fds : 0 ≤ ra → 0 ≤ rb → ra ≠ rb →
  open_fds = [] ∨ open_fds = [ra] ∨ open_fds = [rb] ∨ open_fds = [ra; rb] →
  closes (close_open (slots ra rb open_fds)).1 = open_fds ∧ (close_open (slots ra rb open_fds)).2 = Returns tt.
Proof.
  intros Ha Hb Hne H. unfold slots, still_open. pose proof (proj2 (Z.eqb_neq ra rb) Hne) as Hab.
  assert ((rb =? ra) = false) as Hba by (apply Z.eqb_neq; congruence).
  destruct H as [->|[->|[->| ->]]]; simpl; rewrite ?Z.eqb_refl ?Hab ?Hba; simpl;
    rewrite ?(proj2 (Z.leb_le 0 ra) Ha) ?(proj2 (Z.leb_le 0 rb) Hb); done.
Qed.

Lemma closes_say t l : closes [Say t] ++ l = l.
Proof. done. Qed.
Lemma closes_forks l : closes [Fork; Fork] ++ l = l.
Proof. done. Qed.
Lemma closes_watch fd l : closes [Watch fd] ++ l = l.
Proof. done. Qed.

Lemma select_closes kernel data ra rb rounds open_fds s : ra ≠ rb → settable ra = true → settable rb = true → course kernel ra rb rounds open_fds s →
  closes (section2_select (inr (ra, rb)) kernel data 3).1 ≡ₚ [ra; rb].
Proof.
  intros Hne Ha Hb C. unfold section2_select.
  rewrite (closes_step (puts _) _ _ tt eq_refl) (closes_step _ _ _ _ (two_writers_log ra rb)). cbv beta iota zeta.
  assert ((if rb <? ra then ra else rb) + 1 = nfds ra rb) as -> by (unfold nfds; destruct (Z.ltb_spec rb ra); lia).
  rewrite (closes_step _ _ _ _ (course_select kernel data ra rb Hne _ _ _ Ha Hb C)). cbv beta iota.
  rewrite (closes_app (concat rounds ≫= _)) closes_bind // closes_stop app_nil_r.
  rewrite (closes_step _ _ _ _ (close_unless _ ra)) (closes_step _ _ _ _ (close_unless _ rb)).
  destruct (course_parts kernel ra rb _ _ _ C) as [Hp _]. rewrite -Hp. rewrite closes_say closes_forks. apply Permutation_app_head.
  rewrite -{3}(closed_flags ra rb open_fds Hne (course_open _ _ _ _ _ _ C)) app_assoc. by rewrite app_nil_r.
Qed.

Lemma poll_closes kernel data ra rb rounds open_fds s : 0 ≤ ra → 0 ≤ rb → ra ≠ rb → with_data kernel → course kernel ra rb rounds open_fds s →
  closes (section3_poll (inr (ra, rb)) kernel data 3).1 ≡ₚ [ra; rb].
Proof.
  intros Ha Hb Hne Hd C. unfold section3_poll.
  rewrite (closes_step (puts _) _ _ tt eq_refl) (closes_step _ _ _ _ (two_writers_log ra rb)). cbv beta iota.
  rewrite (closes_step _ _ _ _ (course_poll kernel data ra rb Ha Hb Hne _ _ _ Hd C)). cbv beta iota.
  rewrite (closes_app (concat rounds ≫= _)) closes_bind // closes_stop app_nil_r.
  destruct (closes_open_slots ra rb open_fds Ha Hb Hne (course_open _ _ _ _ _ _ C)) as [Hc Hr].
  rewrite (closes_step (close_open _) _ (close_open (slots ra rb open_fds)).1 tt); [|by destruct (close_open _); simpl in *; subst].
  destruct (course_parts kernel ra rb _ _ _ C) as [Hp _]. rewrite -Hp Hc closes_say closes_forks. apply Permutation_app_head. by rewrite app_nil_r.
Qed.

Lemma epoll_closes kernel data ra rb epfd rounds open_fds s : ra ≠ rb → course kernel ra rb rounds open_fds s →
  closes (section4_epoll (inr (ra, rb)) kernel data epfd 3).1 ≡ₚ concat rounds ++ [epfd].
Proof.
  intros Hne C. unfold section4_epoll.
  rewrite (closes_step (puts _) _ _ tt eq_refl) (closes_step _ _ _ _ (two_writers_log ra rb)). cbv beta iota.
  rewrite (closes_step (log (Watch ra)) _ _ tt eq_refl) (closes_step (log (Watch rb)) _ _ tt eq_refl).
  destruct (course_epoll kernel data ra rb Hne _ _ _ C) as (rounds' & Hr & E). rewrite (closes_step _ _ _ _ E).
  rewrite (closes_app (concat rounds' ≫= _)) closes_bind // closes_stop app_nil_r closes_say closes_forks !closes_watch.
  apply Permutation_app; [|done]. clear -Hr. induction Hr as [|x y l l' Hx Hl IH]; [done|]. simpl. by rewrite Hx IH.
Qed.

(** ** Properties *)

(** C32. The three ways to wait.  For every kernel that reports watched descriptors, each
    once, and descriptors below [FD_SETSIZE] for [select], any for the others: [select],
    [poll] and [epoll_wait] handle in each round the same descriptors, [epoll_wait] in an
    order of its own, print what each delivers, and stop for the same reason, after two
    rounds at most; all are handled unless the kernel stops the loop.  With a descriptor of
    [FD_SETSIZE] or more [select] comes to nothing, since [FD_SET] is undefined.  [poll]
    needs data on each: a writer that only hangs up keeps it turning for ever.  Sections 2
    and 3 close both descriptors exactly once, section 4 the instance and those it has
    handled, so that those it has not stay open. *)
Theorem multiplexing_correct (data : Z → bytes) (ra rb epfd : Z) :
  0 ≤ ra → 0 ≤ rb → ra ≠ rb →
  (∀ kernel, fair kernel → ∃ rounds open_fds s,
     gather kernel 2 0 [ra; rb] = (rounds, open_fds, s) ∧
     concat rounds ++ open_fds ≡ₚ [ra; rb] ∧ (s = AllDone ↔ open_fds = []) ∧
     (ra < FD_SETSIZE → rb < FD_SETSIZE →
        select_loop kernel data 3 0 (Z.max ra rb + 1) ra rb false false =
          ((concat rounds ≫= select_log data) ++ stop_log "select" s, Returns (negb (still_open open_fds ra), negb (still_open open_fds rb))) ∧
        closes (section2_select (inr (ra, rb)) kernel data 3).1 ≡ₚ [ra; rb]) ∧
     (∃ rounds', Forall2 Permutation rounds rounds' ∧
        epoll_loop kernel data 3 0 [ra; rb] 2 = ((concat rounds' ≫= epoll_log data) ++ stop_log "epoll_wait" s, Returns tt)) ∧
     closes (section4_epoll (inr (ra, rb)) kernel data epfd 3).1 ≡ₚ concat rounds ++ [epfd] ∧
     (with_data kernel →
        poll_loop kernel data 3 0 [ra; rb] 2 = ((concat rounds ≫= poll_log data) ++ stop_log "poll" s, Returns (slots ra rb open_fds)) ∧
        closes (section3_poll (inr (ra, rb)) kernel data 3).1 ≡ₚ [ra; rb])) ∧
  (FD_SETSIZE ≤ ra ∨ FD_SETSIZE ≤ rb → ∀ kernel fuel, (section2_select (inr (ra, rb)) kernel data (S fuel)).2 = Undef) ∧
  (∀ fuel, poll_loop hung_up data fuel 0 [ra; rb] 2 = ([], OutOfTurns)).
Proof.
  intros Ha Hb Hne. split_and!; [|intros Hout kernel fuel|intros fuel; by apply poll_hung_up].
  - intros kernel Hf. assert (∃ rounds open_fds s, course kernel ra rb rounds open_fds s) as (rounds & open_fds & s & C) by by eapply course_exists.
    exists rounds, open_fds, s.
    destruct (course_parts kernel ra rb _ _ _ C) as [Hp Hs].
    split; [by apply course_gathers|]. split; [done|]. split; [done|]. split.
    { intros Hsa Hsb. pose proof (settable_spec ra Ha Hsa). pose proof (settable_spec rb Hb Hsb).
      split; [by apply course_select|by eapply select_closes]. }
    split; [by eapply course_epoll|]. split; [by eapply epoll_closes|].
    intros Hd. split; [by apply course_poll|by eapply poll_closes].
  - assert (settable ra && settable rb = false) as E by (unfold settable; rewrite !andb_false_iff !Z.ltb_ge; lia).
    unfold section2_select. rewrite (bind_returns (puts _) _ _ tt eq_refl) (bind_returns _ _ _ _ (two_writers_log ra rb)).
    cbv beta iota zeta. by rewrite (select_outside kernel data ra rb fuel 0 _ E).
Qed.

Lemma multiplexing_correct_witness : 0 ≤ 5 ∧ 0 ≤ 6 ∧ 5 ≠ 6 ∧
  (∀ fuel, poll_loop hung_up (λ _, []) fuel 0 [5; 6] 2 = ([], OutOfTurns)).
Proof.
  assert (0 ≤ 5) as H5 by done. assert (0 ≤ 6) as H6 by done. assert (5 ≠ 6) as Hne by done. split_and!; [exact H5|exact H6|exact Hne|].
  exact (proj2 (proj2 (multiplexing_correct (λ _, []) 5 6 7 H5 H6 Hne))).
Defined.

(** A kernel as in the program: the writer of the second pipe is faster. *)
Definition in_turn (k : nat) (fds : list Z) : answer :=
  match fds with
  | [fd] => Ready [(fd, true)]
  | [_; fd] => Ready [(fd, true)]
  | _ => Timeout
  end.

Example in_turn_fair : fair in_turn ∧ with_data in_turn.
Proof.
  split; intros k fds; destruct fds as [|x [|y [|]]]; simpl; try done; [split_and!; [done|apply NoDup_singleton|]..| |]; repeat constructor; set_solver.
Qed.


(** A kernel that brings one client at a time. *)
Definition one_by_one (k : nat) (fds : list Z) : batch :=
  match fds with
  | [] => if (k <? 9)%nat then Events [Listening [7]] else Idle
  | fd :: _ => Events [Client fd (Some (bytes_of "ping")) (Nat.even k)]
  end.

Lemma one_by_one_ok : well_behaved one_by_one.
Proof.
  intros k fds. destruct fds as [|fd fds]; simpl.
  - destruct (k <? 9)%nat; [|done]. split_and!; [apply NoDup_singleton|repeat constructor; set_solver|done].
  - split; [set_solver|done].
Qed.

