(* ===== verification/FileIO.v ===== *)
(** * Exercise 09: file I/O

    Model of [exercises/09_file_io/file_io.c], on the files of [Disk].  [sscanf] is
    modelled for the format of the source; how it reads the special forms of floating
    point numbers (infinities, NaNs, hexadecimal) is a parameter. *)

From Stdlib Require Import SpecFloat.
From S2P Require Import Prelude Machine CString Double Printf Text Encoding Effects Disk SepLogic.
#[local] Open Scope Z_scope.

Definition TEXT_FILE : string := "output.txt".
Definition CSV_FILE : string := "scores.csv".
Definition BIN_FILE : string := "data.bin".

Record Record_ := Record' { name : bytes; score : Z; ratio : spec_float }.

Definition record_codec : codec Record_ :=
  struct_codec (λ '(n, (s, r)), Record' n s r) (λ r, (name r, (score r, ratio r)))
    (pair_codec (chars_codec 32) (pair_codec int_codec float_codec)) ltac:(by intros []).

(** ** [sscanf(line, "%31[^,],%d,%f", ...)] *)

(** The float nearest to [m * 10^k]. *)
Definition dec_float (neg : bool) (m k : Z) : spec_float :=
  let signed z := if neg then - z else z in
  if m =? 0 then S754_zero neg
  else if 0 <=? k then binary_normalize 24 128 (signed (m * 10 ^ k)) 0 neg
  else SFdiv 24 128 (raw_pos (signed m)) (raw_pos (10 ^ (- k))).

(** The longest prefix of at most [n] characters without a comma, and the rest. *)
Fixpoint scan_set (n : nat) (s : string) : string * string :=
  match n, s with
  | S n, String c s' => if Ascii.eqb c ","%char then ("", s) else let '(a, r) := scan_set n s' in (String c a, r)
  | _, _ => ("", s)
  end%string.

Definition scan_sign (s : string) : bool * string :=
  match s with
  | String c s' => if Ascii.eqb c "-"%char then (true, s') else if Ascii.eqb c "+"%char then (false, s') else (false, s)
  | EmptyString => (false, s)
  end.

Definition after_comma (s : string) : option string :=
  match s with String c s' => if Ascii.eqb c ","%char then Some s' else None | EmptyString => None end.

Definition starts_with (l : list ascii) (s : string) : bool :=
  match s with String c _ => existsb (Ascii.eqb c) l | EmptyString => false end.

(** What the call stores when it converts all three; a number that is not an [int] is
    undefined. *)
Inductive scanned := Row (n : string) (z : Z) (x : spec_float) | NoRow | OutOfRange.

Section program.
Context (special : string → option spec_float).

Definition scan_float (s : string) : option spec_float :=
  let '(neg, s) := scan_sign (skip_space s) in
  if starts_with ["i"; "I"; "n"; "N"]%char s || (starts_with ["0"%char] s && starts_with ["x"; "X"]%char (drop_str 1 s)) then special s
  else
    let '(a, r) := scan_digits s 0 in
    let '(m, r') := (if starts_with ["."%char] r then scan_digits (drop_str 1 r) a else (a, r)) in
    let point := if starts_with ["."%char] r then 1 else 0 in
    let fraction := strlen r - strlen r' - point in
    if strlen s - strlen r' - point =? 0 then None
    else if starts_with ["e"; "E"]%char r' then
      let '(eneg, t) := scan_sign (drop_str 1 r') in
      if starts_with_digit t then
        let '(e, _) := scan_digits t 0 in
        Some (dec_float neg m ((if eneg then - e else e) - fraction))
      else None
    else Some (dec_float neg m (- fraction)).

Definition sscanf (s : string) : scanned :=
  let '(n, s) := scan_set 31 s in
  if String.eqb n "" then NoRow
  else match after_comma s with
       | None => NoRow
       | Some s =>
           let '(z, r, overflow) := strtol s in
           if String.eqb r s then NoRow
           else if overflow || negb (Machine.in_int z) then OutOfRange
           else match after_comma r with
                | None => NoRow
                | Some r => match scan_float r with Some x => Row n z x | None => NoRow end
                end
       end.

(** ** The program *)

(** Of [malloc] the size matters.  Of the items [fwrite] is given it puts [buffered] into
    the buffer of the stream before an error shows. *)
Context (open_error : string → mode → option string) (capacity : string → nat) (unreadable : string → bool).
Context (has_memory : Z → bool) (buffered : nat → nat).

Abbreviation fopen := (fopen open_error).
Abbreviation fclose := (fclose capacity).
Abbreviation get_line := (get_line unreadable).
Abbreviation fread := (fread unreadable).

(** [if (f == NULL) { perror("fopen"); exit(1); }] *)
Definition fopen_or_exit (path : string) (m : mode) : prog disk positive :=
  r ← fopen path m;
  match r with inl e => _ ← perror "fopen" e; exit_with 1 | inr f => mret f end.

Definition write_text : prog disk unit :=
  f ← fopen_or_exit TEXT_FILE Writing;
  _ ← fprintf f "Line 1: the quick brown fox\n" [];
  _ ← fprintf f "Line 2: jumped over %d lazy dogs\n" [AInt 3];
  _ ← fprintf f "Line 3: pi is approximately %.4f\n" [ADbl (lit 314159 5)];
  _ ← fclose f;
  print "wrote %s\n" [AStr TEXT_FILE].

(** [while (fgets(line, sizeof(line), f) != NULL)] *)
Fixpoint read_lines (fuel : nat) (f : positive) (body : string → prog disk unit) : prog disk unit :=
  match fuel with
  | O => out_of_turns
  | S fuel =>
      r ← get_line f 127;
      match r with
      | None => mret tt
      | Some line => _ ← body (text line); read_lines fuel f body
      end
  end.

Definition read_text : prog disk unit :=
  f ← fopen_or_exit TEXT_FILE Reading;
  n ← file_length f;
  _ ← read_lines (S n) f (λ line, print "  > %s\n" [AStr (chomp line)]);
  e ← ferror f;
  _ ← (if e : bool then perror "read error" "Input/output error" else mret tt);
  fclose f.

Definition scores : list (string * Z * spec_float) :=
  [("Alice", 95, dec_float false 95 (-2)); ("Bob", 82, dec_float false 82 (-2)); ("Carol", 78, dec_float false 78 (-2))]%string.

Definition write_row (f : positive) (row : string * Z * spec_float) : prog disk unit :=
  let '(n, z, x) := row in fprintf f "%s,%d,%.2f\n" [AStr n; AInt z; ADbl x].

Definition write_csv_rows (rows : list (string * Z * spec_float)) : prog disk unit :=
  f ← fopen_or_exit CSV_FILE Writing;
  _ ← fprintf f "name,score,ratio\n" [];
  _ ← each rows (write_row f);
  _ ← fclose f;
  print "wrote %s\n" [AStr CSV_FILE].

Definition write_csv : prog disk unit := write_csv_rows scores.

Definition read_row (line : string) : prog disk unit :=
  match sscanf line with
  | Row n z x => print "  %-8s score=%-4d ratio=%.2f\n" [AStr n; AInt z; ADbl x]
  | NoRow => mret tt
  | OutOfRange => undef
  end.

Definition read_csv : prog disk unit :=
  f ← fopen_or_exit CSV_FILE Reading;
  n ← file_length f;
  _ ← get_line f 127;
  _ ← read_lines (S n) f read_row;
  fclose f.

Definition a_record (n : string) (z : Z) (x : spec_float) : Record_ := Record' (chars 32 n) z x.
Definition records : list Record_ :=
  [a_record "Alpha" 100 (dec_float false 100 (-2)); a_record "Beta" 88 (dec_float false 88 (-2)); a_record "Gamma" 74 (dec_float false 74 (-2))].

(** [fwrite(ptr, size, n, f)]: the number of items written.  Those for which the file has
    room count, and those that only went into the buffer; it is never more than [n]. *)
Definition fwrite {A} (f : positive) (c : codec A) (items : list A) : prog disk nat :=
  let n := length items in
  room ← on_stream f (λ s bs, mret (capacity (s_path s) - length bs - length (s_buf s))%nat);
  _ ← put_bytes f (list_to_bytes c items);
  mret (Nat.max (Nat.min n (room / width c)) (Nat.min n (buffered n))).

Definition write_binary_records (records : list Record_) : prog disk unit :=
  f ← fopen_or_exit BIN_FILE Writing;
  let count := Z.of_nat (length records) in
  _ ← put_bytes f (to_bytes int_codec count);
  written ← fwrite f record_codec records;
  _ ← print "wrote %zu record(s) to %s\n" [AInt (Z.of_nat written); AStr BIN_FILE];
  fclose f.

Definition write_binary : prog disk unit := write_binary_records records.

(** [printf] reads the name up to its NUL. *)
Definition print_record (r : Record_) : prog disk unit :=
  match c_string (name r) with
  | Some n => print "  %-8s score=%-4d ratio=%.2f\n" [AStr n; AInt (score r); ADbl (ratio r)]
  | None => undef
  end.

(** Where the file ends inside the count its value is indeterminate; if nothing is read it
    stays 0.  [malloc] and [fread] get it as a [size_t]. *)
Definition read_binary : prog disk unit :=
  f ← fopen_or_exit BIN_FILE Reading;
  head ← fread f 4;
  count ← (match length head with 4%nat => mret (of_bytes int_codec head) | O => mret 0 | _ => undef end);
  if has_memory (u64 (u64 count * 40)) then
    data ← fread f (Z.to_nat (u64 count) * 40);
    let got := (length data / 40)%nat in
    _ ← print "read %zu record(s) from %s\n" [AInt (Z.of_nat got); AStr BIN_FILE];
    _ ← each (list_of_bytes record_codec got data) print_record;
    fclose f
  else _ ← fclose f; exit_with 1.

Definition append_text : prog disk unit :=
  f ← fopen_or_exit TEXT_FILE Appending;
  _ ← fprintf f "Line 4: appended later\n" [];
  _ ← fclose f;
  print "appended a line to %s — full contents now:\n" [AStr TEXT_FILE].

Definition file_size (path : string) : prog disk Z :=
  r ← fopen path Reading;
  match r with
  | inl _ => mret (-1)
  | inr f => _ ← fseek_end f; size ← ftell f; _ ← fclose f; mret size
  end.

Definition print_size (path : string) : prog disk unit :=
  n ← file_size path; print "%-15s %ld bytes\n" [AStr path; AInt n].

Definition main : prog disk Z :=
  _ ← print "=== Text file (fprintf / fgets) ===\n" [];
  _ ← write_text;
  _ ← read_text;
  _ ← print "\n=== CSV file ===\n" [];
  _ ← write_csv;
  _ ← read_csv;
  _ ← print "\n=== Binary file (fwrite / fread) ===\n" [];
  _ ← write_binary;
  _ ← read_binary;
  _ ← print "\n=== Append mode ===\n" [];
  _ ← append_text;
  _ ← read_text;
  _ ← print "\n=== File sizes ===\n" [];
  _ ← print_size TEXT_FILE;
  _ ← print_size CSV_FILE;
  _ ← print_size BIN_FILE;
  _ ← remove_file TEXT_FILE;
  _ ← remove_file CSV_FILE;
  _ ← remove_file BIN_FILE;
  mret 0.


(** ** Rows of the CSV file *)

(** A text without commas, newlines and NULs. *)
Definition field (s : string) : Prop := Forall (λ c, c ≠ nl ∧ c ≠ "000"%char ∧ c ≠ ","%char) (bytes_of s).

Lemma field_app a b : field a → field b → field (a +:+ b).
Proof. unfold field. rewrite bytes_of_app. intros Ha Hb. by apply Forall_app. Qed.

Lemma one_line_chars l : Forall (λ c, c ≠ nl ∧ c ≠ "000"%char) (bytes_of l) → one_line l.
Proof.
  intros Hl. split.
  - unfold bytes_of in Hl. induction l as [|c l IH]; [done|]. apply Forall_cons in Hl as [[Hc _] Hl]. simpl.
    destruct (Ascii.eqb_spec c nl); [done|]. by rewrite IH.
  - intros H0. rewrite Forall_forall in Hl. by apply Hl in H0 as [_ ?].
Qed.

Lemma field_digits fuel n acc : 0 ≤ n → field acc → field (digits_aux fuel false 10 n acc).
Proof.
  revert n acc. induction fuel as [|fuel IH]; intros n acc Hn Hacc; [done|]. simpl.
  assert (field (String (digit_chr false (n mod 10)) acc)) as Hd.
  { apply Forall_cons. split; [|done]. pose proof (Z.mod_pos_bound n 10 ltac:(lia)) as Hm.
    pose proof (is_digit_digit_chr (n mod 10) Hm) as Hi. split_and!; intros E; rewrite E in Hi; done. }
  destruct (n <? 10); [done|]. apply IH; [apply Z.div_pos; lia|done].
Qed.

Lemma field_dec z : field (dec z).
Proof.
  unfold dec, numeral. destruct (Z.ltb_spec z 0).
  - apply Forall_cons. split; [done|]. apply field_digits; [lia|constructor].
  - apply field_digits; [lia|constructor].
Qed.

Lemma scan_set_field n s r : field s → (String.length s ≤ n)%nat → scan_set n (s +:+ String ","%char r) = (s, String ","%char r).
Proof.
  revert n. induction s as [|c s IH]; intros n Hs Hn; [by destruct n|]. destruct n as [|n]; [simpl in *; lia|].
  apply Forall_cons in Hs as [(_ & _ & Hc) Hs]. rewrite string_app_cons. simpl in *.
  destruct (Ascii.eqb_spec c ","%char); [done|]. by rewrite (IH n Hs ltac:(lia)).
Qed.

(** What [write_csv] writes for a row, without the newline. *)
Definition row_text (row : string * Z * spec_float) : string :=
  let '(n, z, x) := row in (n +:+ "," +:+ dec z +:+ "," +:+ fmt_f 2 x)%string.

Lemma fmt_dbl_plain f d : f_width f = None → fmt_dbl f d = fmt_f (default 6%nat (f_prec f)) d.
Proof.
  intros Hf. unfold fmt_dbl, fpad. rewrite Hf. destruct (fmt_f _ d) as [|[[] [] [] [] [] [] [] []] s]; done.
Qed.

Lemma format_row n z x : INT_MIN ≤ z ≤ INT_MAX →
  format "%s,%d,%.2f\n" [AStr n; AInt z; ADbl x] = Some (row_text (n, z, x) +:+ String nl "")%string.
Proof.
  intros Hz.
  assert (conv fspec0 "d"%char (AInt z) = Some (dec z)) as E1.
  { cbn [conv Ascii.eqb Bool.eqb orb]. by rewrite fmt_signed_plain int_str_dec. }
  assert (conv (FSpec false false false None (Some 2%nat)) "f"%char (ADbl x) = Some (fmt_f 2 x)) as E2.
  { cbn [conv Ascii.eqb Bool.eqb]. by rewrite fmt_dbl_plain. }
  assert (parse None (esc "%s,%d,%.2f\n") = Some [TConv false false fspec0 "s"; TChr ","; TConv false false fspec0 "d"; TChr ",";
    TConv false false (FSpec false false false None (Some 2%nat)) "f"; TChr nl]%char) as E by (vm_compute; reflexivity).
  unfold row_text, format. rewrite E. cbn [render]. cbv iota beta. rewrite E1 E2. cbn [conv Ascii.eqb Bool.eqb].
  by rewrite -!string_app_assoc.
Qed.

(** The ratios 0.00 to 10.00: the text has the form of a field, and is read back. *)
Definition hundredths (h : Z) : spec_float := dec_float false h (-2).

#[local] Instance spec_float_dec : EqDecision spec_float.
Proof. solve_decision. Defined.

Definition hundredths_ok (k : nat) : bool :=
  let x := hundredths (Z.of_nat k) in
  let t := fmt_f 2 x in
  bool_decide (field t) && bool_decide (scan_float (t +:+ String nl "") = Some x).

Lemma hundredths_checked : forallb hundredths_ok (seq 0 1001) = true.
Proof. vm_compute. reflexivity. Qed.

Lemma hundredths_read h : 0 ≤ h ≤ 1000 →
  field (fmt_f 2 (hundredths h)) ∧ scan_float (fmt_f 2 (hundredths h) +:+ String nl "") = Some (hundredths h).
Proof.
  intros Hh. pose proof hundredths_checked as H. rewrite forallb_forall in H.
  specialize (H (Z.to_nat h) ltac:(apply in_seq; lia)). unfold hundredths_ok in H. rewrite Z2Nat.id in H; [|lia].
  apply andb_true_iff in H as [H1%bool_decide_eq_true H2%bool_decide_eq_true]. done.
Qed.

(** A row whose name fits the buffer [name] and whose line fits the buffer [line]. *)
Definition good_row (row : string * Z * spec_float) : Prop :=
  let '(n, z, x) := row in
  field n ∧ (0 < String.length n ≤ 31)%nat ∧ INT_MIN ≤ z ≤ INT_MAX ∧ (∃ h, 0 ≤ h ≤ 1000 ∧ x = hundredths h) ∧
  (String.length (row_text row) < 127)%nat.

Lemma row_one_line row : good_row row → one_line (row_text row).
Proof.
  destruct row as [[n z] x]. intros (Hn & _ & _ & (h & Hh & ->) & _). apply one_line_chars.
  destruct (hundredths_read h Hh) as [Hf _]. unfold field in *. pose proof (field_dec z) as Hz. unfold field in Hz.
  cbn [row_text]. rewrite !bytes_of_app. rewrite !Forall_app. clear -Hn Hf Hz.
  split_and!; try (eapply Forall_impl; [eassumption|naive_solver]); by repeat constructor.
Qed.

(** Reading the line of a row gives the row back. *)
Lemma sscanf_row n z x : good_row (n, z, x) → sscanf (row_text (n, z, x) +:+ String nl "") = Row n z x.
Proof.
  intros (Hn & Hl & Hz & (h & Hh & ->) & _). destruct (hundredths_read h Hh) as [_ Hf]. unfold sscanf.
  cbn [row_text]. rewrite -!string_app_assoc. change ("," +:+ ?r)%string with (String ","%char r).
  set (r := (fmt_f 2 (hundredths h) +:+ String nl "")%string) in *.
  change ("," +:+ ?r)%string with (String ","%char r). rewrite scan_set_field //; [|lia].
  destruct (String.eqb_spec n ""); [by subst; simpl in Hl; lia|]. cbn [after_comma Ascii.eqb Bool.eqb]. cbv iota.
  rewrite strtol_dec; [|unfold INT_MIN, INT_MAX, LONG_MIN, LONG_MAX in *; lia|done].
  assert (String.eqb (String ","%char r) (dec z +:+ String ","%char r) = false) as ->.
  { apply String.eqb_neq. intros E. apply (f_equal String.length) in E. rewrite string_app_length in E.
    pose proof (strtol_dec z "" ltac:(unfold INT_MIN, INT_MAX, LONG_MIN, LONG_MAX in *; lia) eq_refl) as Hd.
    destruct (dec z) as [|c d] eqn:Ed; [|simpl in E; lia]. simpl in Hd. injection Hd as <-. done. }
  assert (Machine.in_int z = true) as -> by by apply in_int_spec.
  cbn [orb negb after_comma Ascii.eqb Bool.eqb]. cbv iota. by rewrite Hf.
Qed.

Implicit Types (F : gmap string bytes) (S : gmap positive stream).

(** ** Errors *)

(** A function whose [fopen] fails reports it and ends the program, with the files as they
    are; only [file_size] returns -1. *)
Definition ends_reporting {A} (m : prog disk A) (e : string) : Prop :=
  ∀ w, quits m w 1 [Err ("fopen: " +:+ e +:+ String nl "")%string] w.

Lemma open_fails {A} path m (k : positive → prog disk A) e : open_error path m = Some e → ends_reporting (f ← fopen_or_exit path m; k f) e.
Proof.
  intros He w. apply quits_first. eapply quits_bind; [by apply gives_open_error| |done]. by eapply quits_bind.
Qed.

Lemma file_size_fails path e w : open_error path Reading = Some e → gives (file_size path) w (-1) [] w.
Proof. intros He. eapply gives_quiet; [by apply gives_open_error|done]. Qed.

(** A file that cannot be read: the loop ends at once, and [ferror] tells why. *)
Lemma read_text_unreadable F S bs : open_error TEXT_FILE Reading = None → F !! TEXT_FILE = Some bs → unreadable TEXT_FILE = true →
  gives read_text (Disk F S) tt [Err ("read error: Input/output error" +:+ String nl "")%string] (Disk F S).
Proof.
  intros Ho HF Hu. unfold read_text. eapply gives_quiet; [eapply gives_quiet; [by eapply gives_open_read|done]|].
  eapply gives_quiet; [by eapply gives_stream|]. eapply gives_quiet.
  { cbn [read_lines]. eapply gives_quiet; [by eapply gives_unreadable|done]. }
  eapply gives_quiet; [by eapply gives_stream|]. cbn [s_err].
  eapply gives_bind; [done|eapply gives_close_read; [by left|done|apply fresh_loc_fresh]|done].
Qed.

(** ** Reading lines *)

Context (readable : ∀ path, unreadable path = false).

(** A loop over the lines of a text: one turn for each of them and one more. *)
Lemma gives_lines f F S path buf e (body : string → prog disk unit) (t : string → list ev) ls : ∀ fuel p bs,
  F !! path = Some bs → drop p bs = lines_bytes ls → (length ls < fuel)%nat →
  Forall (λ l, one_line l ∧ (String.length l < 127)%nat) ls →
  (∀ l w, l ∈ ls → gives (body (l +:+ String nl "")) w tt (t l) w) →
  gives (read_lines fuel f body) (Disk F (<[f := Stream path Reading p buf e]> S)) tt (mbind t ls)
    (Disk F (<[f := Stream path Reading (p + length (lines_bytes ls)) buf e]> S)).
Proof using readable.
  induction ls as [|l ls IH]; intros [|fuel] p bs HF Hp Hn Hls Hb; [lia| |lia|]; cbn [read_lines].
  - assert (length bs ≤ p)%nat as Hle.
    { apply (f_equal length) in Hp. rewrite length_drop /= in Hp. lia. }
    eapply gives_quiet; [by eapply gives_line_end|]. cbn [mbind list_bind]. by rewrite Nat.add_0_r.
  - apply Forall_cons in Hls as [[Hl1 Hl2] Hls]. change (lines_bytes (l :: ls)) with (line_bytes l ++ lines_bytes ls) in Hp |- *.
    eapply gives_quiet; [by eapply gives_line|]. cbv iota. rewrite text_line //.
    eapply gives_bind; [apply Hb, list_elem_of_here| |done].
    rewrite length_app Nat.add_assoc. eapply IH; [done| |simpl in Hn; lia|done|intros x w Hx; by apply Hb, list_elem_of_further].
    rewrite -drop_drop Hp drop_app_length //.
Qed.

Lemma lines_turns ls : (length ls ≤ length (lines_bytes ls))%nat.
Proof.
  induction ls as [|l ls IH]; [done|]. change (lines_bytes (l :: ls)) with (line_bytes l ++ lines_bytes ls).
  rewrite length_app /line_bytes length_app /=. lia.
Qed.

Context (opens : ∀ path m, open_error path m = None).

Lemma gives_open path m r w w' : gives (fopen path m) w (inr r) [] w' → gives (fopen_or_exit path m) w r [] w'.
Proof. intros H. by eapply gives_quiet. Qed.

Definition shown (l : string) : list ev := [Out (line "  > %s\n" [AStr l])].
Definition good_line (l : string) : Prop := one_line l ∧ (String.length l < 127)%nat.

(** [read_text] prints the lines of the file. *)
Lemma read_text_prints F S ls : F !! TEXT_FILE = Some (lines_bytes ls) → Forall good_line ls →
  gives read_text (Disk F S) tt (mbind shown ls) (Disk F S).
Proof.
  intros HF Hls. unfold read_text. eapply gives_quiet; [by eapply gives_open, gives_open_read|].
  eapply gives_quiet; [by eapply gives_stream|].
  eapply gives_bind; [eapply (gives_lines _ _ _ _ _ _ _ shown); [done|by rewrite drop_0|pose proof (lines_turns ls); lia|done|]| |].
  { intros l w Hl. rewrite Forall_forall in Hls. destruct (Hls l Hl). by rewrite chomp_line. }
  { eapply gives_quiet; [by eapply gives_stream|]. eapply gives_quiet; [done|].
    eapply gives_close_read; [by left|done|apply fresh_loc_fresh]. }
  by rewrite app_nil_r.
Qed.

(** ** Round trips *)

(** What [write_csv] makes of a list of rows. *)
Definition csv_lines (rows : list (string * Z * spec_float)) : list string := "name,score,ratio"%string :: (row_text <$> rows).
Definition csv_bytes (rows : list (string * Z * spec_float)) : bytes := lines_bytes (csv_lines rows).
Definition shown_row (row : string * Z * spec_float) : list ev :=
  let '(n, z, x) := row in [Out (line "  %-8s score=%-4d ratio=%.2f\n" [AStr n; AInt z; ADbl x])].

Lemma gives_rows f F S rows : ∀ buf, is_Some (F !! CSV_FILE) → Forall good_row rows →
  gives (each rows (write_row f)) (Disk F (<[f := Stream CSV_FILE Writing 0 buf false]> S)) tt []
        (Disk F (<[f := Stream CSV_FILE Writing 0 (buf ++ lines_bytes (row_text <$> rows)) false]> S)).
Proof.
  intros buf [bs HF] Hr. revert buf. induction Hr as [|[[n z] x] rows Hrow Hr IH]; intros buf; cbn [each].
  - by rewrite app_nil_r.
  - pose proof Hrow as (_ & _ & Hz & _). eapply gives_quiet.
    { eapply gives_fprintf; [rewrite format_row //; by eexists|by left|done]. }
    rewrite /line format_row //. cbn [default from_option id]. rewrite bytes_of_app.
    change (lines_bytes (row_text <$> (n, z, x) :: rows)) with (line_bytes (row_text (n, z, x)) ++ lines_bytes (row_text <$> rows)).
    rewrite (app_assoc buf (line_bytes _)). apply IH.
Qed.

Lemma write_csv_gives F S rows : Forall good_row rows → (length (csv_bytes rows) ≤ capacity CSV_FILE)%nat →
  gives (write_csv_rows rows) (Disk F S) tt [Out (line "wrote %s\n" [AStr CSV_FILE])] (Disk (<[CSV_FILE := csv_bytes rows]> F) S).
Proof.
  intros Hr Hc. unfold write_csv_rows. eapply gives_quiet; [by eapply gives_open, gives_open_write|].
  eapply gives_quiet; [eapply gives_fprintf; [by eexists|by left|apply lookup_insert_eq]|].
  eapply gives_quiet; [by apply gives_rows; [rewrite lookup_insert_eq|]|].
  eapply gives_quiet; [apply gives_close_new, fresh_loc_fresh|].
  rewrite take_ge; [apply gives_print; by eexists|done].
Qed.

Lemma csv_rows_good rows : Forall good_row rows → Forall good_line (csv_lines rows).
Proof.
  intros Hr. apply Forall_cons. split; [split; [by apply one_line_check|simpl; lia]|].
  apply Forall_fmap. eapply Forall_impl; [exact Hr|]. intros row Hrow. split; [by apply row_one_line|].
  destruct row as [[n z] x]. apply Hrow.
Qed.

Lemma read_csv_gives F S rows : Forall good_row rows → F !! CSV_FILE = Some (csv_bytes rows) →
  gives read_csv (Disk F S) tt (mbind shown_row rows) (Disk F S).
Proof.
  intros Hr HF. pose proof (csv_rows_good rows Hr) as Hl. unfold read_csv.
  eapply gives_quiet; [by eapply gives_open, gives_open_read|]. eapply gives_quiet; [by eapply gives_stream|].
  apply Forall_cons in Hl as [[Hh1 Hh2] Hl].
  eapply gives_quiet; [by eapply (gives_line _ _ _ _ _ _ _ _ _ _ _ _ (lines_bytes (row_text <$> rows)))|].
  eapply gives_bind; [eapply (gives_lines _ _ _ _ _ _ _ (λ l, match sscanf (l +:+ String nl "") with Row n z x => shown_row (n, z, x) | _ => [] end))| |].
  - exact HF.
  - rewrite drop_app_length'; [done|]. by rewrite Nat.add_0_l.
  - unfold csv_bytes. pose proof (lines_turns (csv_lines rows)) as Hn. change (length (csv_lines rows)) with (Datatypes.S (length (row_text <$> rows))) in Hn. lia.
  - exact Hl.
  - intros l w Hin. apply list_elem_of_fmap in Hin as ([[n z] x] & -> & Hin).
    rewrite Forall_forall in Hr. rewrite /read_row sscanf_row; [|by apply Hr]. prints_line.
  - eapply gives_close_read; [by left|done|apply fresh_loc_fresh].
  - rewrite app_nil_r. clear -Hr. induction Hr as [|[[n z] x] rows Hrow Hr IH]; [done|].
    cbn [mbind list_bind fmap list_fmap]. rewrite sscanf_row // IH //.
Qed.

(** ** The binary file *)

Definition bin_bytes (rs : list Record_) : bytes := to_bytes int_codec (Z.of_nat (length rs)) ++ list_to_bytes record_codec rs.
Definition good_record (r : Record_) : Prop := ok record_codec r ∧ is_Some (c_string (name r)).
Definition shown_record (r : Record_) : list ev :=
  [Out (line "  %-8s score=%-4d ratio=%.2f\n" [AStr (default "" (c_string (name r)))%string; AInt (score r); ADbl (ratio r)])].

(** The records for which the disk has room, after the count. *)
Definition kept (n : nat) : nat := (n `min` ((capacity BIN_FILE - 4) / 40))%nat.

(** The records [fwrite] reports: at least those, and not more than there are. *)
Definition reported (n : nat) : nat := (kept n `max` (n `min` buffered n))%nat.

Lemma write_binary_gives F S rs : Z.of_nat (length rs) ≤ INT_MAX →
  gives (write_binary_records rs) (Disk F S) tt [Out (line "wrote %zu record(s) to %s\n" [AInt (Z.of_nat (reported (length rs))); AStr BIN_FILE])]
    (Disk (<[BIN_FILE := take (capacity BIN_FILE) (bin_bytes rs)]> F) S).
Proof.
  intros Hn. assert (length (to_bytes int_codec (Z.of_nat (length rs))) = 4%nat) as Hw.
  { apply to_bytes_width. cbn [ok int_codec]. unfold INT_MIN. lia. }
  unfold write_binary_records. eapply gives_quiet; [by eapply gives_open, gives_open_write|].
  eapply gives_quiet; [eapply gives_put; [by left|apply lookup_insert_eq]|]. rewrite app_nil_l.
  eapply gives_quiet.
  { unfold fwrite. eapply gives_quiet; [eapply gives_stream; [apply lookup_insert_eq|done]|].
    eapply gives_quiet; [eapply gives_put; [by left|apply lookup_insert_eq]|done]. }
  cbn [s_path s_buf length]. rewrite Hw Nat.sub_0_r. change (width record_codec) with 40%nat. fold (kept (length rs)). fold (reported (length rs)).
  eapply gives_bind; [apply gives_print; by eexists|apply gives_close_new, fresh_loc_fresh|done].
Qed.

Lemma count_bytes (rs : list Record_) : Z.of_nat (length rs) ≤ INT_MAX →
  length (to_bytes int_codec (Z.of_nat (length rs))) = 4%nat ∧
  of_bytes int_codec (to_bytes int_codec (Z.of_nat (length rs))) = Z.of_nat (length rs).
Proof.
  intros Hn. assert (ok int_codec (Z.of_nat (length rs))) as Hk by (cbn [ok int_codec]; unfold INT_MIN; lia).
  split; [by apply to_bytes_width|by apply of_to_bytes].
Qed.

(** [fread] delivers the whole records that are there, and they are the first ones. *)
Lemma read_records rs : Forall (ok record_codec) rs →
  let data := take (length rs * 40) (take (capacity BIN_FILE - 4) (list_to_bytes record_codec rs)) in
  (length data / 40)%nat = kept (length rs) ∧ list_of_bytes record_codec (kept (length rs)) data = take (kept (length rs)) rs.
Proof.
  intros Hrs data. pose proof (length_list_to_bytes record_codec rs Hrs) as Hl. change (width record_codec) with 40%nat in Hl.
  pose proof (Nat.div_mod_eq (capacity BIN_FILE - 4) 40) as Hd. pose proof (Nat.mod_upper_bound (capacity BIN_FILE - 4) 40 ltac:(done)) as Hm.
  unfold data, kept. rewrite take_take length_take Hl. split.
  - destruct (decide (length rs ≤ (capacity BIN_FILE - 4) / 40)%nat) as [Hle|Hgt].
    + replace (_ `min` _ `min` _)%nat with (length rs * 40)%nat by lia. rewrite Nat.div_mul //. lia.
    + replace (_ `min` _ `min` _)%nat with (capacity BIN_FILE - 4)%nat by lia. lia.
  - apply of_to_bytes_prefix; [done|lia|]. change (width record_codec) with 40%nat. lia.
Qed.

Lemma print_record_gives r w : good_record r → gives (print_record r) w tt (shown_record r) w.
Proof. intros [_ [n Hn]]. unfold print_record, shown_record. rewrite Hn. prints_line. Qed.

Lemma read_binary_gives F S rs : F !! BIN_FILE = Some (take (capacity BIN_FILE) (bin_bytes rs)) → (4 ≤ capacity BIN_FILE)%nat →
  Forall good_record rs → Z.of_nat (length rs) ≤ INT_MAX → has_memory (40 * Z.of_nat (length rs)) = true →
  gives read_binary (Disk F S) tt
    (Out (line "read %zu record(s) from %s\n" [AInt (Z.of_nat (kept (length rs))); AStr BIN_FILE]) :: mbind shown_record (take (kept (length rs)) rs))
    (Disk F S).
Proof.
  intros HF Hc Hrs Hn Hm. destruct (count_bytes rs Hn) as [Hw Hd]. unfold read_binary.
  rewrite /bin_bytes take_app_ge Hw // in HF.
  eapply gives_quiet; [by eapply gives_open, gives_open_read|].
  eapply gives_quiet; [by eapply gives_fread|]. rewrite drop_0 take_app_length' // Hw.
  eapply gives_quiet; [done|]. rewrite Hd.
  assert (u64 (Z.of_nat (length rs)) = Z.of_nat (length rs)) as Hu by (apply Z.mod_small; unfold INT_MAX in Hn; lia).
  assert (u64 (u64 (Z.of_nat (length rs)) * 40) = 40 * Z.of_nat (length rs)) as ->.
  { rewrite Hu Z.mul_comm. apply Z.mod_small. unfold INT_MAX in Hn; lia. }
  rewrite Hm Hu Nat2Z.id. eapply gives_quiet; [by eapply gives_fread|]. rewrite Nat.add_0_l drop_app_length' //.
  assert (Forall (ok record_codec) rs) as Hok by (eapply Forall_impl; [exact Hrs|by intros r []]).
  destruct (read_records rs Hok) as [E1 E2]. rewrite E1 E2.
  eapply gives_bind; [apply gives_print; by eexists| |done].
  eapply gives_bind; [eapply (gives_each _ _ shown_record)| |].
  - intros r Hr. apply print_record_gives. rewrite Forall_forall in Hrs. apply Hrs. apply elem_of_take in Hr as (i & Hi & _). by eapply list_elem_of_lookup_2.
  - eapply gives_close_read; [by left|done|apply fresh_loc_fresh].
  - by rewrite app_nil_r.
Qed.

(** A count below zero becomes a size that no [malloc] has. *)
Lemma read_binary_negative F S z bs : F !! BIN_FILE = Some (to_bytes int_codec z ++ bs) → INT_MIN ≤ z < 0 →
  (∀ n, 2 ^ 63 ≤ n → has_memory n = false) → quits read_binary (Disk F S) 1 [] (Disk F S).
Proof.
  intros HF Hz Hm. assert (ok int_codec z) as Hk by (cbn [ok int_codec]; unfold INT_MAX; lia).
  assert (length (to_bytes int_codec z) = 4%nat) as Hw by by apply to_bytes_width. unfold read_binary.
  eapply quits_bind; [by eapply gives_open, gives_open_read| |done].
  eapply quits_bind; [by eapply gives_fread| |done]. rewrite drop_0 take_app_length' // Hw.
  eapply quits_bind; [done| |done]. rewrite (of_to_bytes int_codec) //. cbv beta.
  assert (u64 z = z + 2 ^ 64) as E.
  { unfold u64. rewrite -(Z.mod_add z 1) // Z.mul_1_l Z.mod_small //. unfold INT_MIN in Hz. lia. }
  assert (u64 (u64 z * 40) = 40 * z + 2 ^ 64) as ->.
  { rewrite E. unfold u64. replace ((z + 2 ^ 64) * 40) with (40 * z + 2 ^ 64 + 39 * 2 ^ 64) by lia.
    rewrite Z.mod_add // Z.mod_small //. unfold INT_MIN in Hz. lia. }
  rewrite Hm; [|unfold INT_MIN in Hz; lia].
  eapply quits_bind; [eapply gives_close_read; [by left|done|apply fresh_loc_fresh]|done|done].
Qed.

(** ** The whole program *)

Lemma append_text_gives F S bs : F !! TEXT_FILE = Some bs → (length bs + 23 ≤ capacity TEXT_FILE)%nat →
  gives append_text (Disk F S) tt [Out (line "appended a line to %s — full contents now:\n" [AStr TEXT_FILE])]
    (Disk (<[TEXT_FILE := bs ++ line_bytes "Line 4: appended later"]> F) S).
Proof.
  intros HF Hc. unfold append_text. eapply gives_quiet; [by eapply gives_open, gives_open_append|].
  eapply gives_quiet; [eapply gives_fprintf; [by eexists|by right|done]|].
  eapply gives_quiet; [eapply gives_close_written; [by right|done|apply fresh_loc_fresh]|].
  rewrite take_ge; [apply gives_print; by eexists|simpl; lia].
Qed.

Definition text_lines : list string := ["Line 1: the quick brown fox"; "Line 2: jumped over 3 lazy dogs"; "Line 3: pi is approximately 3.1416"]%string.

Lemma write_text_gives F S : (length (lines_bytes text_lines) ≤ capacity TEXT_FILE)%nat →
  gives write_text (Disk F S) tt [Out (line "wrote %s\n" [AStr TEXT_FILE])] (Disk (<[TEXT_FILE := lines_bytes text_lines]> F) S).
Proof.
  intros Hc. unfold write_text. eapply gives_quiet; [by eapply gives_open, gives_open_write|].
  do 3 (eapply gives_quiet; [eapply gives_fprintf; [by eexists|by left|apply lookup_insert_eq]|]).
  eapply gives_quiet; [apply gives_close_new, fresh_loc_fresh|].
  replace (_ ++ _) with (lines_bytes text_lines) by (vm_compute; reflexivity).
  rewrite take_ge; [apply gives_print; by eexists|done].
Qed.

(** [file_size] is the length of the file, and nothing stays open. *)
Lemma file_size_gives F S path bs : F !! path = Some bs → gives (file_size path) (Disk F S) (Z.of_nat (length bs)) [] (Disk F S).
Proof.
  intros HF. unfold file_size. eapply gives_quiet; [by eapply gives_open_read|]. cbv iota.
  eapply gives_quiet; [eapply gives_stream; [done|apply gives_set]|].
  eapply gives_quiet; [by eapply gives_stream|].
  eapply gives_quiet; [eapply gives_close_read; [by left|done|apply fresh_loc_fresh]|done].
Qed.

(** What [main] prints. *)
Definition session_lines : list string :=
  ["=== Text file (fprintf / fgets) ===\n"; "wrote output.txt\n"; "  > Line 1: the quick brown fox\n"; "  > Line 2: jumped over 3 lazy dogs\n";
   "  > Line 3: pi is approximately 3.1416\n"; "\n=== CSV file ===\n"; "wrote scores.csv\n"; "  Alice    score=95   ratio=0.95\n";
   "  Bob      score=82   ratio=0.82\n"; "  Carol    score=78   ratio=0.78\n"; "\n=== Binary file (fwrite / fread) ===\n";
   "wrote 3 record(s) to data.bin\n"; "read 3 record(s) from data.bin\n"; "  Alpha    score=100  ratio=1.00\n"; "  Beta     score=88   ratio=0.88\n";
   "  Gamma    score=74   ratio=0.74\n"; "\n=== Append mode ===\n"; "appended a line to output.txt — full contents now:\n";
   "  > Line 1: the quick brown fox\n"; "  > Line 2: jumped over 3 lazy dogs\n"; "  > Line 3: pi is approximately 3.1416\n"; "  > Line 4: appended later\n";
   "\n=== File sizes ===\n"; "output.txt      118 bytes\n"; "scores.csv      57 bytes\n"; "data.bin        124 bytes\n"]%string.

Definition good_row_test (n : string) (z h : Z) : bool :=
  bool_decide (field n) && (0 <? String.length n)%nat && (String.length n <=? 31)%nat && Machine.in_int z && (0 <=? h) && (h <=? 1000) &&
  (String.length (row_text (n, z, hundredths h)) <? 127)%nat.

Lemma good_row_check n z h : good_row_test n z h = true → good_row (n, z, hundredths h).
Proof.
  unfold good_row_test. rewrite !andb_true_iff. intros Hb.
  destruct Hb as ((((((Hn%bool_decide_eq_true & ?%Nat.ltb_lt) & ?%Nat.leb_le) & ?) & ?) & ?) & ?%Nat.ltb_lt).
  split_and!; [done|lia|lia|lia|lia|exists h; split; [lia|done]|done].
Qed.

Lemma scores_good : Forall good_row scores.
Proof.
  apply Forall_cons; split; [apply (good_row_check "Alice" 95 95); vm_compute; reflexivity|].
  apply Forall_cons; split; [apply (good_row_check "Bob" 82 82); vm_compute; reflexivity|].
  apply Forall_cons; split; [apply (good_row_check "Carol" 78 78); vm_compute; reflexivity|constructor].
Qed.

Definition is_float_test (x : spec_float) : bool :=
  match x with
  | S754_finite _ m e => (2 ^ 23 <=? Z.pos m) && (Z.pos m <? 2 ^ 24) && (-149 <=? e) && (e <=? 104)
  | _ => true
  end.

Lemma good_record_check n z x : (String.length n <? 32)%nat && negb (existsb (Ascii.eqb "000"%char) (bytes_of n)) && Machine.in_int z && is_float_test x = true →
  good_record (a_record n z x).
Proof.
  rewrite !andb_true_iff. intros (((Hn%Nat.ltb_lt & H0%negb_true_iff) & Hz) & Hx). split.
  - cbn [record_codec struct_codec ok pair_codec chars_codec int_codec float_codec name score ratio a_record fst snd].
    split; [apply length_chars|]. split; [cbv beta; lia|]. destruct x; try done. cbn [is_float_test is_float] in *. lia.
  - cbn [name a_record]. rewrite -(app_nil_r (chars 32 n)) c_string_chars; [by eexists|by apply no_nul_check|done].
Qed.

Lemma records_good : Forall good_record records.
Proof. repeat (apply Forall_cons; split; [apply good_record_check; vm_compute; reflexivity|]). constructor. Qed.

Lemma text_lines_good : Forall good_line (text_lines ++ ["Line 4: appended later"%string]).
Proof. repeat (apply Forall_cons; split; [split; [by apply one_line_check|simpl; lia]|]). constructor. Qed.

(** The files of the program are removed at its end; others stay. *)
Lemma main_gives F S :
  (118 ≤ capacity TEXT_FILE)%nat → (57 ≤ capacity CSV_FILE)%nat → (124 ≤ capacity BIN_FILE)%nat → has_memory 120 = true →
  ∃ o, gives main (Disk F S) 0 o (Disk (delete BIN_FILE (delete CSV_FILE (delete TEXT_FILE F))) S) ∧
    stdout o = concat_str (esc <$> session_lines) ∧ stderr o = ""%string.
Proof.
  intros Ht Hc Hb Hm. pose proof text_lines_good as Hl. pose proof Hl as [Hl3 _]%Forall_app.
  assert (kept 3 = 3)%nat as Hk by (unfold kept; pose proof (Nat.Div0.div_le_mono 120 (capacity BIN_FILE - 4) 40 ltac:(lia)) as Hd; change (120 / 40)%nat with 3%nat in Hd; lia).
  assert (reported 3 = 3)%nat as Hrep by (unfold reported; lia).
  pose proof records_good as Hr. eexists. split.
  { unfold main. prints.
    eapply gives_bind; [apply write_text_gives; change (length (lines_bytes text_lines)) with 95%nat; lia| |reflexivity].
    eapply gives_bind; [apply (read_text_prints _ _ text_lines); [apply lookup_insert_eq|done]| |reflexivity].
    prints.
    eapply gives_bind; [apply write_csv_gives; [apply scores_good|exact Hc]| |reflexivity].
    eapply gives_bind; [apply (read_csv_gives _ _ scores); [apply scores_good|apply lookup_insert_eq]| |reflexivity].
    prints.
    eapply gives_bind; [by apply write_binary_gives| |reflexivity].
    eapply gives_bind; [apply (read_binary_gives _ _ records); [apply lookup_insert_eq|lia|done|done|done]| |reflexivity].
    prints.
    eapply gives_bind; [apply (append_text_gives _ _ (lines_bytes text_lines)); [by simplify_map_eq|simpl; lia]| |reflexivity].
    eapply gives_bind; [apply (read_text_prints _ _ (text_lines ++ ["Line 4: appended later"%string])); [by rewrite lookup_insert_eq|done]| |reflexivity].
    prints.
    eapply gives_bind; [eapply gives_quiet; [apply file_size_gives, lookup_insert_eq|apply gives_print; by eexists]| |reflexivity].
    eapply gives_bind; [eapply gives_quiet; [apply file_size_gives; by simplify_map_eq|apply gives_print; by eexists]| |reflexivity].
    eapply gives_bind; [eapply gives_quiet; [apply file_size_gives; by simplify_map_eq|apply gives_print; by eexists]| |reflexivity].
    do 3 (eapply gives_quiet; [done|]). cbn [files streams].
    match goal with |- gives _ (Disk ?G _) _ _ (Disk ?H _) => replace G with H; [done|] end.
    apply map_eq. intros p. destruct (decide (p = BIN_FILE)), (decide (p = CSV_FILE)), (decide (p = TEXT_FILE)); subst; by simplify_map_eq. }
  change (length records) with 3%nat. rewrite Hrep Hk (take_ge (bin_bytes records)); [|by change (length (bin_bytes records)) with 124%nat]. split; vm_compute; reflexivity.
Qed.
End program.

(** ** The properties *)

(** C34. Round trip of the CSV file: for every list of rows whose names are 1 to 31
    characters without comma, newline and NUL, whose scores are ints, whose ratios are the
    floats nearest to 0.00 ... 10.00 and whose lines fit the buffer, [sscanf] reads from
    each line the very row it was written for, and writing the rows and reading the file
    prints each of them once and in order; the other files are untouched and no stream
    stays open. *)
Theorem csv_roundtrip special open_error capacity unreadable F S rows :
  (∀ path m, open_error path m = None) → (∀ path, unreadable path = false) →
  Forall good_row rows → (length (csv_bytes rows) ≤ capacity CSV_FILE)%nat →
  (∀ n z x, (n, z, x) ∈ rows → sscanf special (row_text (n, z, x) +:+ String nl "") = Row n z x) ∧
  gives (_ ← write_csv_rows open_error capacity rows; read_csv special open_error capacity unreadable) (Disk F S) tt
    (Out (line "wrote %s\n" [AStr CSV_FILE]) :: mbind shown_row rows) (Disk (<[CSV_FILE := csv_bytes rows]> F) S).
Proof.
  intros Ho Hu Hr Hc. split.
  - intros n z x Hin. rewrite Forall_forall in Hr. by apply sscanf_row, Hr.
  - eapply gives_bind; [by apply write_csv_gives|apply read_csv_gives; try done; apply lookup_insert_eq|done].
Qed.

Lemma csv_roundtrip_witness :
  let rows := [("Dave Lee", -5, hundredths 7); ("x", INT_MAX, hundredths 1000)]%string in
  (∀ n z x, (n, z, x) ∈ rows → sscanf (λ _, None) (row_text (n, z, x) +:+ String nl "") = Row n z x) ∧
  gives (_ ← write_csv_rows (λ _ _, None) (λ _, 1000%nat) rows; read_csv (λ _, None) (λ _ _, None) (λ _, 1000%nat) (λ _, false))
    (Disk ∅ ∅) tt (Out (line "wrote %s\n" [AStr CSV_FILE]) :: mbind shown_row rows) (Disk (<[CSV_FILE := csv_bytes rows]> ∅) ∅).
Proof.
  intros rows. apply csv_roundtrip; [done|done| |].
  - apply Forall_cons; split; [apply good_row_check; vm_compute; reflexivity|].
    apply Forall_cons; split; [apply good_row_check; vm_compute; reflexivity|constructor].
  - apply Nat.leb_le. vm_compute. reflexivity.
Defined.

(** C35. Round trip of the binary file, on a disk that may be full: of the records written
    those are read back, in order and with the same name, score and ratio, for which the
    file has room after the count (all of them if it has room for all).  [write_binary]
    reports the number [fwrite] returns, which is that number when the file has room for
    all; otherwise it lies between the records the file will have and the records given,
    all of them if they fit the buffer of the stream, since what [fclose] cannot write is
    lost without notice.  A file whose count is negative makes [read_binary] close the file
    and exit with 1. *)
Theorem records_roundtrip open_error capacity unreadable has_memory buffered F S rs :
  (∀ path m, open_error path m = None) → (∀ path, unreadable path = false) →
  Forall good_record rs → Z.of_nat (length rs) ≤ INT_MAX → has_memory (40 * Z.of_nat (length rs)) = true → (4 ≤ capacity BIN_FILE)%nat →
  let k := (length rs `min` ((capacity BIN_FILE - 4) / 40))%nat in
  (∃ written, (k ≤ written ≤ length rs)%nat ∧
     ((length (bin_bytes rs) ≤ capacity BIN_FILE)%nat → k = length rs) ∧
     ((length rs ≤ buffered (length rs))%nat → written = length rs) ∧
     ((buffered (length rs) ≤ k)%nat → written = k) ∧
     gives (_ ← write_binary_records open_error capacity buffered rs; read_binary open_error capacity unreadable has_memory) (Disk F S) tt
       (Out (line "wrote %zu record(s) to %s\n" [AInt (Z.of_nat written); AStr BIN_FILE]) ::
        Out (line "read %zu record(s) from %s\n" [AInt (Z.of_nat k); AStr BIN_FILE]) :: mbind shown_record (take k rs))
       (Disk (<[BIN_FILE := take (capacity BIN_FILE) (bin_bytes rs)]> F) S)) ∧
  ((∀ n, 2 ^ 63 ≤ n → has_memory n = false) → ∀ z bs, INT_MIN ≤ z < 0 → F !! BIN_FILE = Some (to_bytes int_codec z ++ bs) →
   quits (read_binary open_error capacity unreadable has_memory) (Disk F S) 1 [] (Disk F S)).
Proof.
  intros Ho Hu Hr Hn Hm Hc k. split.
  - exists (reported capacity buffered (length rs)).
    assert (k = kept capacity (length rs)) as Hk by done. split_and!; try (unfold reported; rewrite -Hk; lia).
    + intros Hfit. assert (Forall (ok record_codec) rs) as Hok by (eapply Forall_impl; [exact Hr|by intros r []]).
      rewrite /bin_bytes length_app (length_list_to_bytes record_codec rs Hok) in Hfit. destruct (count_bytes rs Hn) as [Hw _].
      rewrite Hw in Hfit. change (width record_codec) with 40%nat in Hfit. unfold k. apply Nat.min_l.
      apply Nat.div_le_lower_bound; lia.
    + eapply gives_bind; [by apply write_binary_gives|apply read_binary_gives; try done; apply lookup_insert_eq|done].
  - intros Hbig z bs Hz HF. by eapply read_binary_negative.
Qed.

Definition some_records : list Record_ := [a_record "Alpha" 100 (hundredths 100); a_record "" (-1) (hundredths 33)].

(** A disk with room for one of the records; both go into the buffer and are reported. *)
Lemma records_roundtrip_witness : ∃ written, written = 2%nat ∧
  gives (_ ← write_binary_records (λ _ _, None) (λ _, 60%nat) id some_records; read_binary (λ _ _, None) (λ _, 60%nat) (λ _, false) (λ n, n <? 1000)) (Disk ∅ ∅) tt
    (Out (line "wrote %zu record(s) to %s\n" [AInt (Z.of_nat written); AStr BIN_FILE]) :: Out (line "read %zu record(s) from %s\n" [AInt 1; AStr BIN_FILE]) ::
     mbind shown_record (take 1 some_records))
    (Disk (<[BIN_FILE := take 60 (bin_bytes some_records)]> ∅) ∅).
Proof.
  destruct (records_roundtrip (λ _ _, None) (λ _, 60%nat) (λ _, false) (λ n, n <? 1000) id ∅ ∅ some_records)
    as [(written & _ & _ & Hw & _ & H) _]; [done|done| |done|done|simpl; lia|exists written; split; [by apply Hw|exact H]].
  repeat (apply Forall_cons; split; [apply good_record_check; vm_compute; reflexivity|]). constructor.
Defined.

(** C36. The whole program: with room on the disk it prints the session shown, every file
    reads back as it was written and appended to, the sizes are the lengths of the files,
    and afterwards the three files are gone, the others as they were and no stream open.
    Every function whose file cannot be opened reports it and exits with 1, leaving the
    files as they are ([file_size] gives -1), and an error of reading is told from the end
    of the file. *)
Theorem file_io_correct special open_error capacity unreadable has_memory buffered :
  ((∀ path m, open_error path m = None) → (∀ path, unreadable path = false) → has_memory 120 = true →
   (118 ≤ capacity TEXT_FILE)%nat → (57 ≤ capacity CSV_FILE)%nat → (124 ≤ capacity BIN_FILE)%nat → ∀ F S,
   ∃ o, gives (main special open_error capacity unreadable has_memory buffered) (Disk F S) 0 o (Disk (delete BIN_FILE (delete CSV_FILE (delete TEXT_FILE F))) S) ∧
     stdout o = concat_str (esc <$> session_lines) ∧ stderr o = ""%string) ∧
  (∀ e, (open_error TEXT_FILE Writing = Some e → ends_reporting (write_text open_error capacity) e) ∧
    (open_error TEXT_FILE Reading = Some e → ends_reporting (read_text open_error capacity unreadable) e) ∧
    (open_error TEXT_FILE Appending = Some e → ends_reporting (append_text open_error capacity) e) ∧
    (open_error CSV_FILE Writing = Some e → ends_reporting (write_csv open_error capacity) e) ∧
    (open_error CSV_FILE Reading = Some e → ends_reporting (read_csv special open_error capacity unreadable) e) ∧
    (open_error BIN_FILE Writing = Some e → ends_reporting (write_binary open_error capacity buffered) e) ∧
    (open_error BIN_FILE Reading = Some e → ends_reporting (read_binary open_error capacity unreadable has_memory) e) ∧
    (∀ path w, open_error path Reading = Some e → gives (file_size open_error capacity path) w (-1) [] w)) ∧
  (∀ F S bs, open_error TEXT_FILE Reading = None → F !! TEXT_FILE = Some bs → unreadable TEXT_FILE = true →
   gives (read_text open_error capacity unreadable) (Disk F S) tt [Err ("read error: Input/output error" +:+ String nl "")%string] (Disk F S)).
Proof.
  split_and!.
  - intros Ho Hu Hm Ht Hc Hb F S. by apply main_gives.
  - intros e. split_and!; try (intros He; by apply open_fails). intros path w. apply file_size_fails.
  - intros F S bs. apply read_text_unreadable.
Qed.
