(* ===== verification/Mmap.v ===== *)
(** * Exercise 27: memory-mapped files

    Model of [exercises/27_mmap/mmap_demo.c], on the files of [Disk].  A mapping of a file
    is a view of the file itself (the page cache), one without a file has bytes of its
    own.  The kernel chooses the addresses; which calls fail, and why, are parameters.  An
    access outside the mapping, beyond the page in which the file ends or without the
    right to write is undefined.  After [fork] the two processes are lists of actions that
    interleave; they share the bytes of a MAP_SHARED mapping and have each its own copy of
    a MAP_PRIVATE one. *)

From S2P Require Import Prelude Machine CString Double Printf Text SepLogic Interleave Processes Encoding Effects Disk.
#[local] Open Scope Z_scope.

Definition TMP_RO : string := "/tmp/ex27_ro.txt".
Definition TMP_RW : string := "/tmp/ex27_rw.bin".
Definition TMP_TRUNC : string := "/tmp/ex27_trunc.bin".
Definition MAP_FAILED : ptr := Some 18446744073709551615%positive.
Definition EINVAL : string := "Invalid argument".

Record mapping := Mapping { m_file : option string; m_shared : bool; m_writable : bool; m_length : nat; m_bytes : bytes }.
Record memory := Memory { disk_of : disk; maps : gmap positive mapping }.

Definition on_disk {A} (m : prog disk A) : prog memory A := within disk_of (λ d w, Memory d (maps w)) m.

(** [typedef struct { uint32_t magic; uint32_t count; char label[24]; } Record], and its
    members; [Shared] of section 5. *)
Record Record_ := Record' { magic : Z; count : Z; label : bytes }.
Definition record_codec : codec Record_ :=
  struct_codec (λ '(m, (c, l)), Record' m c l) (λ r, (magic r, (count r, label r)))
    (pair_codec u32_codec (pair_codec u32_codec (chars_codec 24))) ltac:(by intros []).
Definition off_magic : nat := 0.
Definition off_count : nat := 4.
Definition off_label : nat := 8.

Definition sizeof_Shared : nat := 68.
Definition off_counter : nat := 0.
Definition off_message : nat := 4.

(** ** After [fork] *)

Inductive act := SetShared (f : bytes → bytes) | SetPrivate (f : bytes → bytes) | Say (t : bytes → bytes → string) | WaitChild.

Record system := System { s_shared : bytes; s_private : role → bytes; s_todo : role → list act }.

(** A step of one of the processes, with what it prints. *)
Inductive step (s : system) : role * list string → system → Prop :=
  | step_shared r f k : s_todo s r = SetShared f :: k →
      step s (r, []) (System (f (s_shared s)) (s_private s) (upd r k (s_todo s)))
  | step_private r f k : s_todo s r = SetPrivate f :: k →
      step s (r, []) (System (s_shared s) (upd r (f (s_private s r)) (s_private s)) (upd r k (s_todo s)))
  | step_say r t k : s_todo s r = Say t :: k →
      step s (r, [t (s_shared s) (s_private s r)]) (System (s_shared s) (s_private s) (upd r k (s_todo s)))
  | step_wait r k : s_todo s r = WaitChild :: k → s_todo s (other r) = [] →
      step s (r, []) (System (s_shared s) (s_private s) (upd r k (s_todo s))).

(** [fork]: the child gets a copy of the private bytes. *)
Definition after_fork (parent child : list act) (shared private : bytes) : system :=
  System shared (λ _, private) (λ r, match r with Parent => parent | Child => child end).
Definition at_end (s : system) : Prop := ∀ r, s_todo s r = [].
Definition printed (tr : list (role * list string)) : list string := mbind snd tr.

Section program.
Context (open_error : string → mode → option string) (capacity : string → nat) (unreadable : string → bool).
(** Why [mmap] fails (file, MAP_SHARED, length), whether [fork] succeeds, the text of
    [errno] after a short write, [_SC_PAGESIZE], and the addresses. *)
Context (map_error : option string → bool → nat → option string) (fork_works : bool) (errno_text : string).
Context (pgsz : Z) (place : gmap positive mapping → positive).

Abbreviation fopen := (fopen open_error).
Abbreviation fclose := (fclose capacity).
Abbreviation creat := (creat open_error).

(** ** Mappings *)

Definition mmap (file : option string) (shared writable : bool) (length : nat) : prog memory (string + positive) :=
  match length, map_error file shared length with
  | O, _ => mret (inl EINVAL)
  | _, Some e => mret (inl e)
  | _, None =>
      w ← read;
      let l := place (maps w) in
      let m := Mapping file shared writable length (match file with None => replicate length "000"%char | Some _ => [] end) in
      _ ← write (Memory (disk_of w) (<[l := m]> (maps w)));
      mret (inr l)
  end.

(** [mmap] of an open file. *)
Definition mmap_fd (fd : positive) (shared writable : bool) (length : nat) : prog memory (string + positive) :=
  path ← on_disk (on_stream fd (λ s _, mret (s_path s)));
  mmap (Some path) shared writable length.

Definition munmap (l : positive) : prog memory unit :=
  w ← read;
  match maps w !! l with
  | Some _ => write (Memory (disk_of w) (delete l (maps w)))
  | None => undef
  end.

(** What the process sees: the file, with zeros up to the end of its last page. *)
Definition to_page_end (n : nat) : nat := Z.to_nat (- Z.of_nat n mod pgsz).
Definition visible (w : memory) (m : mapping) : option bytes :=
  match m_file m with
  | Some path => (λ bs, take (m_length m) (bs ++ replicate (to_page_end (length bs)) "000"%char)) <$> files (disk_of w) !! path
  | None => Some (m_bytes m)
  end.

Definition peek {T} (c : codec T) (l : positive) (off : nat) : prog memory T :=
  w ← read;
  match (m ← maps w !! l; visible w m) with
  | Some bs => if decide (off + width c ≤ length bs)%nat then mret (load_at c off bs) else undef
  | None => undef
  end.

(** The memory changes from [off] on. *)
Definition poke {T} (c : codec T) (l : positive) (off : nat) (x : T) : prog memory unit :=
  w ← read;
  match maps w !! l with
  | Some (Mapping (Some path) true true n _) =>
      match files (disk_of w) !! path with
      | Some bs => if decide (off + width c ≤ n `min` length bs)%nat then on_disk (set_file path (store_at c off x bs)) else undef
      | None => undef
      end
  | Some (Mapping None sh true n bs) =>
      if decide (off + width c ≤ n)%nat then write (Memory (disk_of w) (<[l := Mapping None sh true n (store_at c off x bs)]> (maps w)))
      else undef
  | _ => undef
  end.

(** [%s] of a character array. *)
Definition string_at (l : positive) (off n : nat) : prog memory string :=
  a ← peek (chars_codec n) l off;
  match c_string a with Some s => mret s | None => undef end.

(** ** Section 1 *)

Definition section_concepts : prog memory unit :=
  _ ← print "=== 1. Concepts ===\n" [];
  _ ← print "  page size: %ld bytes (%ld KB)\n" [AInt pgsz; AInt (pgsz / 1024)];
  _ ← print "  mmap offset must be a multiple of page size\n" [];
  _ ← print "  mmap length is rounded up to the next page boundary\n" [];
  _ ← print "  MAP_FAILED == (void *)-1 == %p\n" [APtr MAP_FAILED];
  bad ← mmap None false false 0;
  _ ← (match bad with inl e => print "  mmap(length=0): %s\n" [AStr e] | inr _ => mret tt end);
  print "\n" [].

(** ** Section 2 *)

(** [for (size_t i = 0; i < size; i++) if (data[i] == '\n') lines++;], from [i] on. *)
Fixpoint count_lines (n : nat) (data : positive) (i : nat) (lines : Z) : prog memory Z :=
  match n with
  | O => mret lines
  | S n =>
      c ← peek (chars_codec 1) data i;
      count_lines n data (S i) (if decide (c = [nl]) then lines + 1 else lines)
  end.

(** [memchr(data, '\n', size)]: the offset. *)
Fixpoint memchr (c : ascii) (bs : bytes) : option nat :=
  match bs with [] => None | d :: bs' => if Ascii.eqb d c then Some O else S <$> memchr c bs' end.

(** What the section does with the mapping. *)
Definition use_data (size : nat) (data : positive) : prog memory unit :=
  _ ← print "  file size: %zu bytes\n" [AInt (Z.of_nat size)];
  _ ← print "  mapped at: %p\n" [APtr (Some data)];
  lines ← count_lines size data 0 0;
  _ ← print "  line count: %d\n" [AInt lines];
  bs ← peek (chars_codec size) data 0;
  _ ← (match memchr nl bs with
       | Some n => print "  first line: \q%.*s\q\n" [AInt (Z.of_nat n); AStr (text (take n bs))]
       | None => mret tt
       end);
  _ ← munmap data;
  _ ← on_disk (remove_file TMP_RO);
  print "\n" [].

Definition section_read_mapping : prog memory unit :=
  _ ← print "=== 2. File-backed read-only mapping ===\n" [];
  f ← on_disk (fopen TMP_RO Writing);
  match f with
  | inl e => perror "fopen" e
  | inr f =>
      _ ← on_disk (fprintf f "line one\nline two\nline three\n" []);
      _ ← on_disk (fclose f);
      fd ← on_disk (fopen TMP_RO Raw);
      match fd with
      | inl e => _ ← perror "open" e; on_disk (remove_file TMP_RO)
      | inr fd =>
          size ← on_disk (file_length fd);
          data ← mmap_fd fd false false size;
          _ ← on_disk (fclose fd);
          match data with inl e => perror "mmap" e | inr data => use_data size data end
      end
  end.

(** ** Section 3 *)

Definition init : Record_ := Record' 3735928559 0 (chars 24 "initial").

Definition print_rec (fmt : string) (rec : positive) : prog memory unit :=
  m ← peek u32_codec rec off_magic;
  c ← peek u32_codec rec off_count;
  s ← string_at rec off_label 24;
  print fmt [AInt m; AInt c; AStr s].

(** The two assignments through the pointer. *)
Definition modify (rec : positive) : prog memory unit :=
  _ ← poke u32_codec rec off_count 42;
  a ← peek (chars_codec 24) rec off_label;
  poke (chars_codec 24) rec off_label (strncpy a "modified" 23).

(** What the section does with the mapping, and with the file afterwards. *)
Definition use_record (rec : positive) : prog memory unit :=
  _ ← print_rec "  before: magic=0x%08X count=%u label=\q%s\q\n" rec;
  _ ← modify rec;
  _ ← print_rec "  after:  magic=0x%08X count=%u label=\q%s\q\n" rec;
  munmap rec.

Definition verify_file : prog memory unit :=
  fd ← on_disk (fopen TMP_RW Raw);
  match fd with
  | inl e => _ ← perror "open" e; on_disk (remove_file TMP_RW)
  | inr fd =>
      got ← on_disk (fread unreadable fd (width record_codec));
      _ ← on_disk (fclose fd);
      _ ← on_disk (remove_file TMP_RW);
      if decide (length got ≠ width record_codec) then complain "short read\n" []
      else
        let verify := of_bytes record_codec got in
        _ ← (match c_string (label verify) with
             | Some s => print "  verified via read(): count=%u label=\q%s\q\n" [AInt (count verify); AStr s]
             | None => undef
             end);
        print "\n" []
  end.

Definition section_write_mapping : prog memory unit :=
  _ ← print "=== 3. File-backed MAP_SHARED write mapping ===\n" [];
  fd ← on_disk (creat TMP_RW);
  match fd with
  | inl e => perror "open" e
  | inr fd =>
      put ← on_disk (write_raw capacity fd (to_bytes record_codec init));
      if decide (put ≠ width record_codec) then
        _ ← perror "write" errno_text;
        _ ← on_disk (fclose fd);
        on_disk (remove_file TMP_RW)
      else
        rec ← mmap_fd fd true true (width record_codec);
        _ ← on_disk (fclose fd);
        match rec with
        | inl e => perror "mmap" e
        | inr rec => _ ← use_record rec; verify_file
        end
  end.

(** ** Section 4 *)

Definition num_ints : nat := Z.to_nat (1024 * 1024).

(** [for (...; i < n; i++) { arr[i] = (int)(i % 1000); sum += arr[i]; }], from [i] on. *)
Fixpoint fill (n : nat) (arr : positive) (i : nat) (sum : Z) : prog memory Z :=
  match n with
  | O => mret sum
  | S n =>
      _ ← poke int_codec arr (4 * i) (to_int (Z.of_nat i mod 1000));
      v ← peek int_codec arr (4 * i);
      if in_long (sum + v) then fill n arr (S i) (sum + v) else undef
  end.

Definition section_anonymous : prog memory unit :=
  _ ← print "=== 4. Anonymous private mapping ===\n" [];
  arr ← mmap None false true (num_ints * 4);
  match arr with
  | inl e => perror "mmap" e
  | inr arr =>
      _ ← print "  mapped %zu MB at %p\n" [AInt (Z.of_nat (num_ints * 4) / (1024 * 1024)); APtr (Some arr)];
      v ← peek int_codec arr 0;
      _ ← print "  arr[0] before write: %d (guaranteed zero)\n" [AInt v];
      sum ← fill num_ints arr 0 0;
      _ ← print "  sum of 1M ints (mod 1000): %ld\n" [AInt sum];
      _ ← munmap arr;
      _ ← print "  munmap returned memory to OS immediately\n" [];
      print "\n" []
  end.

(** ** Section 5 *)

Definition counter_at (bs : bytes) : Z := load_at int_codec off_counter bs.
Definition message_at (bs : bytes) : string := default ""%string (c_string (load_at (chars_codec 64) off_message bs)).

Definition shared_begin : prog memory (option positive) :=
  _ ← print "=== 5. Shared memory (MAP_SHARED + fork) ===\n" [];
  shm ← mmap None true true sizeof_Shared;
  match shm with
  | inl e => _ ← perror "mmap" e; mret None
  | inr shm =>
      _ ← poke int_codec shm off_counter 0;
      _ ← poke (chars_codec 1) shm off_message ["000"%char];
      mret (Some shm)
  end.

(** The child's [munmap] has no effect on the parent, and waiting for a child that [fork]
    did not make returns at once. *)
Definition first_child : list act :=
  [SetShared (store_at int_codec off_counter 99);
   SetShared (λ sh, store_at (chars_codec 64) off_message (strncpy (load_at (chars_codec 64) off_message sh) "written by child" 63) sh);
   Say (λ sh _, line "  child:  counter=%d  message=\q%s\q\n" [AInt (counter_at sh); AStr (message_at sh)])].
Definition first_parent : list act :=
  [WaitChild; Say (λ sh _, line "  parent: counter=%d  message=\q%s\q\n" [AInt (counter_at sh); AStr (message_at sh)])].

(** The result of the second [mmap] is not tested. *)
Definition private_begin : prog memory positive :=
  priv ← mmap None false true sizeof_Shared;
  match priv with
  | inl _ => undef
  | inr priv => _ ← poke int_codec priv off_counter 0; mret priv
  end.

Definition second_child : list act := [SetPrivate (store_at int_codec off_counter 999)].
Definition second_parent : list act :=
  [WaitChild; Say (λ _ pr, line "  MAP_PRIVATE: parent counter=%d (child's write not visible)\n" [AInt (counter_at pr)])].

Definition shared_end (shm priv : positive) : prog memory unit :=
  _ ← munmap shm; _ ← munmap priv; print "\n" [].

(** What a fork can print, and what the bytes of the parent are when both have ended. *)
Definition forks (parent child : list act) (shared private : bytes) (ts : list string) (shared' private' : bytes) : Prop :=
  ∃ tr s, run step (after_fork parent (if fork_works then child else []) shared private) tr s ∧ at_end s ∧
    ts = printed tr ∧ shared' = s_shared s ∧ private' = s_private s Parent.

Definition bytes_at (w : memory) (l : positive) : bytes := match maps w !! l with Some m => m_bytes m | None => [] end.
Definition set_bytes (l : positive) (bs : bytes) (w : memory) : memory :=
  Memory (disk_of w) (alter (λ m, Mapping (m_file m) (m_shared m) (m_writable m) (m_length m) bs) l (maps w)).

Inductive section_shared (w : memory) : outcome memory unit → Prop :=
  | shared_failed o w1 : shared_begin w = Returns None o w1 → section_shared w (Returns tt o w1)
  | shared_undefined o w1 shm ts sh pr : shared_begin w = Returns (Some shm) o w1 →
      forks first_parent first_child (bytes_at w1 shm) [] ts sh pr →
      private_begin (set_bytes shm sh w1) = Undef → section_shared w Undef
  | shared_done o w1 shm ts sh pr priv o2 w2 ts' sh' pr' : shared_begin w = Returns (Some shm) o w1 →
      forks first_parent first_child (bytes_at w1 shm) [] ts sh pr →
      private_begin (set_bytes shm sh w1) = Returns priv o2 w2 →
      forks second_parent second_child (bytes_at w2 shm) (bytes_at w2 priv) ts' sh' pr' →
      section_shared w (after (o ++ (Out <$> ts) ++ o2 ++ (Out <$> ts')) (shared_end shm priv (set_bytes priv pr' (set_bytes shm sh' w2)))).

(** ** Section 6 *)

Definition show_page (page : positive) : prog memory unit :=
  let t := "page-sized file, mapped safely"%string in
  _ ← poke (chars_codec (S (String.length t))) page 0 (bytes_of t ++ ["000"%char]);
  s ← string_at page 0 4096;
  _ ← print "  ftruncate+mmap: \q%s\q\n" [AStr s];
  munmap page.

Definition base_of (off : Z) : Z := off / pgsz * pgsz.
Definition adj_of (off : Z) : Z := u64 (off - base_of off).

(** The page, unless the file or its mapping could not be made. *)
Definition get_page : prog memory (option positive) :=
  fd ← on_disk (creat TMP_TRUNC);
  match fd with
  | inl e => _ ← perror "open" e; mret None
  | inr fd =>
      grown ← on_disk (ftruncate capacity fd 4096);
      if grown : bool then
        page ← mmap_fd fd true true 4096;
        _ ← on_disk (fclose fd);
        mret (match page with inl _ => None | inr page => Some page end)
      else _ ← perror "ftruncate" errno_text; _ ← on_disk (fclose fd); mret None
  end.

Definition remarks : prog memory unit :=
  let off := 5000 in
  _ ← print "  offset %lld → page base %lld, ptr adj +%zu bytes\n" [AInt off; AInt (base_of off); AInt (adj_of off)];
  _ ← print "\n  Pitfall summary:\n" [];
  _ ← print "  SIGBUS:    access past end-of-file on file-backed map\n" [];
  _ ← print "  msync:     call MS_SYNC before relying on crash durability\n" [];
  _ ← print "  alignment: offset must be multiple of sysconf(_SC_PAGESIZE)\n" [];
  _ ← print "  MADV:      madvise(MADV_SEQUENTIAL/RANDOM) for access hints\n" [];
  _ ← print "  munmap:    always unmap; valgrind won't catch mmap leaks\n" [];
  print "\n" [].

Definition section_pitfalls : prog memory unit :=
  _ ← print "=== 6. Patterns and pitfalls ===\n" [];
  page ← get_page;
  _ ← (match page with Some page => show_page page | None => mret tt end);
  _ ← on_disk (remove_file TMP_TRUNC);
  remarks.

(** ** The program: its sections in order *)

Definition first_sections : prog memory unit :=
  _ ← section_concepts;
  _ ← section_read_mapping;
  _ ← section_write_mapping;
  section_anonymous.

Definition and_then {A B} (r : outcome memory A) (k : A → prog memory B) : outcome memory B := ((λ _, r) ≫= k) (Memory (Disk ∅ ∅) ∅).

Definition main (w : memory) (r : outcome memory Z) : Prop :=
  match first_sections w with
  | Returns _ o w1 => ∃ r5, section_shared w1 r5 ∧ r = after o (and_then r5 (λ _, _ ← section_pitfalls; mret 0))
  | Exits c o w1 => r = Exits c o w1
  | Undef => r = Undef
  | OutOfTurns => r = OutOfTurns
  end.

(** ** Mappings and their operations *)

Implicit Types (F : gmap string bytes) (S : gmap positive stream) (M : gmap positive mapping).

Lemma gives_on_disk {A} (m : prog disk A) d a o d' M : gives m d a o d' → gives (on_disk m) (Memory d M) a o (Memory d' M).
Proof. intros H. by apply (gives_within disk_of (λ d w, Memory d (maps w))). Qed.

Lemma gives_mmap file sh wr n d M : map_error file sh n = None → (0 < n)%nat →
  gives (mmap file sh wr n) (Memory d M) (inr (place M)) []
    (Memory d (<[place M := Mapping file sh wr n (match file with None => replicate n "000"%char | Some _ => [] end)]> M)).
Proof. intros He Hn. unfold mmap. destruct n as [|n]; [lia|]. by rewrite He. Qed.

Lemma gives_mmap_error file sh wr n e w : map_error file sh n = Some e → (0 < n)%nat → gives (mmap file sh wr n) w (inl e) [] w.
Proof. intros He Hn. unfold mmap. destruct n as [|n]; [lia|]. by rewrite He. Qed.

Lemma gives_mmap_fd fd sh wr n F S s bs M : F !! s_path s = Some bs → map_error (Some (s_path s)) sh n = None → (0 < n)%nat →
  let D := Disk F (<[fd := s]> S) in
  gives (mmap_fd fd sh wr n) (Memory D M) (inr (place M)) [] (Memory D (<[place M := Mapping (Some (s_path s)) sh wr n []]> M)).
Proof.
  intros HF He Hn D. eapply gives_quiet; [apply gives_on_disk; by eapply gives_stream|]. by apply gives_mmap.
Qed.

Lemma gives_mmap_fd_error fd sh wr n e F S s bs M : F !! s_path s = Some bs → map_error (Some (s_path s)) sh n = Some e → (0 < n)%nat →
  let w := Memory (Disk F (<[fd := s]> S)) M in gives (mmap_fd fd sh wr n) w (inl e) [] w.
Proof.
  intros HF He Hn w. eapply gives_quiet; [apply gives_on_disk; by eapply gives_stream|]. by apply gives_mmap_error.
Qed.

Lemma gives_munmap l m d M : M !! l = None → gives (munmap l) (Memory d (<[l := m]> M)) tt [] (Memory d M).
Proof.
  intros Hl. eapply gives_quiet; [done|]. cbn [maps disk_of]. rewrite lookup_insert_eq /gives /write. by rewrite delete_insert_id.
Qed.

(** A file mapped as a whole. *)
Lemma gives_peek_file {T} (c : codec T) l off path sh wr b F S bs M : F !! path = Some bs → (off + width c ≤ length bs)%nat →
  let w := Memory (Disk F S) (<[l := Mapping (Some path) sh wr (length bs) b]> M) in
  gives (peek c l off) w (load_at c off bs) [] w.
Proof.
  intros HF Hn w. eapply gives_quiet; [done|]. subst w. cbn [maps]. rewrite lookup_insert_eq. cbn [mbind option_bind].
  unfold visible. cbn [m_file m_length disk_of files]. rewrite HF. cbn [fmap option_fmap option_map].
  rewrite take_app_length decide_True //.
Qed.

Lemma gives_poke_file {T} (c : codec T) l off x path b F S bs M : F !! path = Some bs → (off + width c ≤ length bs)%nat →
  let M' := <[l := Mapping (Some path) true true (length bs) b]> M in
  gives (poke c l off x) (Memory (Disk F S) M') tt [] (Memory (Disk (<[path := store_at c off x bs]> F) S) M').
Proof.
  intros HF Hn M'. eapply gives_quiet; [done|]. subst M'. cbn [maps]. rewrite lookup_insert_eq.
  cbn [disk_of files]. rewrite HF decide_True; [|lia]. by apply gives_on_disk.
Qed.

(** Memory without a file. *)
Lemma gives_peek_anon {T} (c : codec T) l off sh wr n b d M : (off + width c ≤ length b)%nat →
  let w := Memory d (<[l := Mapping None sh wr n b]> M) in gives (peek c l off) w (load_at c off b) [] w.
Proof.
  intros Hn w. eapply gives_quiet; [done|]. subst w. cbn [maps]. rewrite lookup_insert_eq. cbn [mbind option_bind].
  unfold visible. cbn [m_file m_bytes]. by rewrite decide_True.
Qed.

Lemma gives_poke_anon {T} (c : codec T) l off x sh n b d M : (off + width c ≤ n)%nat →
  gives (poke c l off x) (Memory d (<[l := Mapping None sh true n b]> M)) tt []
    (Memory d (<[l := Mapping None sh true n (store_at c off x b)]> M)).
Proof.
  intros Hn. eapply gives_quiet; [done|]. cbn [maps]. rewrite lookup_insert_eq decide_True //. cbn [disk_of].
  by rewrite /gives /write insert_insert_eq.
Qed.

(** ** Loops over a mapping *)

Definition newlines (bs : bytes) : Z := Z.of_nat (length (filter (λ c, c = nl) bs)).

Lemma gives_count_lines path l sh wr b F S M bs : F !! path = Some bs →
  let w := Memory (Disk F S) (<[l := Mapping (Some path) sh wr (length bs) b]> M) in
  ∀ n i lines, (i + n = length bs)%nat → gives (count_lines n l i lines) w (lines + newlines (drop i bs)) [] w.
Proof.
  intros HF w. induction n as [|n IH]; intros i lines Hi; cbn [count_lines].
  - rewrite drop_ge; [|lia]. by rewrite Z.add_0_r.
  - destruct (lookup_lt_is_Some_2 bs i ltac:(lia)) as [c Hc].
    eapply gives_quiet; [apply gives_peek_file; [done|simpl; lia]|].
    assert (load_at (chars_codec 1) i bs = [c]) as ->.
    { unfold load_at. cbn [of_bytes chars_codec width]. by rewrite (drop_S _ c). }
    assert (newlines (drop i bs) = (if decide (c = nl) then 1 else 0) + newlines (drop (Datatypes.S i) bs)) as ->.
    { rewrite (drop_S _ c) // /newlines filter_cons. destruct (decide (c = nl)); [rewrite length_cons; lia|lia]. }
    rewrite Z.add_assoc. destruct (decide (c = nl)) as [->|Hne].
    + destruct (decide ([nl] = [nl])); [|done]. apply IH. lia.
    + destruct (decide ([c] = [nl])) as [[=]|_]; [done|]. rewrite Z.add_0_r. apply IH. lia.
Qed.

Lemma memchr_line l bs : one_line l → memchr nl (line_bytes l ++ bs) = Some (String.length l).
Proof.
  intros [Hl _]. revert Hl. unfold line_bytes, bytes_of. induction l as [|c l IH]; [done|]. simpl.
  destruct (Ascii.eqb c nl); [done|]. intros [= Hl]. by rewrite IH.
Qed.

(** The sum of [i % 1000] for [i] below [n]. *)
Fixpoint mods (n : nat) : Z := match n with O => 0 | S n => mods n + Z.of_nat n mod 1000 end.

Lemma mods_closed n : mods n = Z.of_nat n / 1000 * 499500 + (Z.of_nat n mod 1000) * (Z.of_nat n mod 1000 - 1) / 2.
Proof.
  assert (∀ q r : Z, 0 ≤ r < 1000 → (r + 1) * (r + 1 - 1) / 2 = r * (r - 1) / 2 + r) as Hstep.
  { intros _ r Hr. replace ((r + 1) * (r + 1 - 1)) with (r * (r - 1) + r * 2) by lia. rewrite Z.div_add //. }
  induction n as [|n IH]; [done|]. cbn [mods]. rewrite IH.
  pose proof (Z.div_mod (Z.of_nat n) 1000 ltac:(done)) as Hd. pose proof (Z.mod_pos_bound (Z.of_nat n) 1000 ltac:(done)) as Hm.
  set (q := Z.of_nat n / 1000) in *. set (r := Z.of_nat n mod 1000) in *.
  destruct (decide (r = 999)) as [Hr|Hr].
  - assert (Z.of_nat (Datatypes.S n) / 1000 = q + 1 ∧ Z.of_nat (Datatypes.S n) mod 1000 = 0) as [-> ->].
    { rewrite Nat2Z.inj_succ. replace (Z.succ (Z.of_nat n)) with (0 + (q + 1) * 1000) by lia.
      by rewrite Z.div_add // Z.mod_add. }
    rewrite Hr. change (999 * (999 - 1) / 2) with 498501. change (0 * (0 - 1) / 2) with 0. lia.
  - assert (Z.of_nat (Datatypes.S n) / 1000 = q ∧ Z.of_nat (Datatypes.S n) mod 1000 = r + 1) as [-> ->].
    { rewrite Nat2Z.inj_succ. replace (Z.succ (Z.of_nat n)) with (r + 1 + q * 1000) by lia.
      rewrite Z.div_add // Z.mod_add // Z.div_small ?Z.mod_small; lia. }
    rewrite (Hstep q r Hm). lia.
Qed.

Lemma gives_fill l size d M : ∀ n i sum b, length b = size → (4 * (i + n) ≤ size)%nat → 0 ≤ sum → sum + 1000 * Z.of_nat n ≤ LONG_MAX →
  ∃ b', length b' = size ∧
    gives (fill n l i sum) (Memory d (<[l := Mapping None false true size b]> M)) (sum + (mods (i + n) - mods i)) []
      (Memory d (<[l := Mapping None false true size b']> M)) ∧
    ∀ j, load_at int_codec (4 * j) b' = if decide (i ≤ j < i + n)%nat then Z.of_nat j mod 1000 else load_at int_codec (4 * j) b.
Proof.
  induction n as [|n IH]; intros i sum b Hb Hi Hs Hmax; cbn [fill].
  - exists b. split_and!; [done| |].
    + rewrite Nat.add_0_r Z.sub_diag Z.add_0_r. apply gives_ret.
    + intros j. rewrite decide_False; [done|lia].
  - pose proof (Z.mod_pos_bound (Z.of_nat i) 1000 ltac:(done)) as Hm.
    assert (to_int (Z.of_nat i mod 1000) = Z.of_nat i mod 1000) as -> by (apply to_int_id; unfold INT_MIN, INT_MAX; lia).
    assert (ok int_codec (Z.of_nat i mod 1000)) as Hok by (cbn [ok int_codec]; unfold INT_MIN, INT_MAX; lia).
    set (b1 := store_at int_codec (4 * i) (Z.of_nat i mod 1000) b).
    assert (length b1 = size) as Hb1 by (unfold b1; rewrite length_store_at //; cbn [width int_codec]; lia).
    destruct (IH (Datatypes.S i) (sum + Z.of_nat i mod 1000) b1) as (b' & Hb' & Hg & Hl); [done|lia..|].
    exists b'. split_and!; [done| |].
    + eapply gives_quiet; [apply gives_poke_anon; cbn [width int_codec]; lia|]. fold b1.
      eapply gives_quiet; [apply gives_peek_anon; cbn [width int_codec]; lia|].
      unfold b1 at 1. rewrite load_store_same //; [|cbn [width int_codec]; lia].
      assert (in_long (sum + Z.of_nat i mod 1000) = true) as -> by (apply in_long_spec; unfold LONG_MIN; lia).
      replace (sum + (mods (i + Datatypes.S n) - mods i)) with (sum + Z.of_nat i mod 1000 + (mods (Datatypes.S i + n) - mods (Datatypes.S i))); [exact Hg|].
      rewrite Nat.add_succ_r. cbn [mods Nat.add]. lia.
    + intros j. rewrite Hl. destruct (decide (Datatypes.S i ≤ j < Datatypes.S i + n)%nat); [rewrite decide_True; [done|lia]|].
      destruct (decide (j = i)) as [->|Hne].
      * rewrite decide_True; [|lia]. unfold b1. rewrite load_store_same //. cbn [width int_codec]. lia.
      * rewrite decide_False; [|lia]. unfold b1. rewrite load_store_other //; cbn [width int_codec]; lia.
Qed.

(** ** Records in a mapped file *)

Lemma record_bytes r : to_bytes record_codec r = to_bytes u32_codec (magic r) ++ to_bytes u32_codec (count r) ++ label r.
Proof. done. Qed.

Lemma record_length r : ok record_codec r → length (to_bytes record_codec r) = 32%nat.
Proof. intros Hr. by rewrite to_bytes_width. Qed.

Lemma load_record r : ok record_codec r →
  load_at u32_codec off_magic (to_bytes record_codec r) = magic r ∧
  load_at u32_codec off_count (to_bytes record_codec r) = count r ∧
  load_at (chars_codec 24) off_label (to_bytes record_codec r) = label r.
Proof.
  intros (Hm & Hc & Hl). cbn [fst snd] in *. rewrite record_bytes /load_at /off_magic /off_count /off_label.
  pose proof (to_bytes_width u32_codec _ Hm) as Hm'. pose proof (to_bytes_width u32_codec _ Hc) as Hc'.
  rewrite drop_0 take_app_length' // drop_app_length' // take_app_length' //.
  rewrite app_assoc drop_app_length'; [|rewrite length_app Hm' Hc' //].
  split_and!; [by apply of_to_bytes..|]. change (take 24 (label r) = label r). apply take_ge. by rewrite Hl.
Qed.

(** The two assignments set the members of the record in the file. *)
Definition modified (r : Record_) : Record_ := Record' (magic r) 42 (strncpy (label r) "modified" 23).

Lemma store_count x r : ok record_codec r → 0 ≤ x < 2 ^ 32 →
  store_at u32_codec off_count x (to_bytes record_codec r) = to_bytes record_codec (Record' (magic r) x (label r)).
Proof.
  intros (Hm & Hc & Hl) Hx. cbn [fst snd] in *. rewrite !record_bytes /store_at /off_count. cbn [magic count label].
  pose proof (to_bytes_width u32_codec _ Hm) as Hm'. pose proof (to_bytes_width u32_codec _ Hc) as Hc'.
  rewrite take_app_length' //.
Qed.

Lemma store_label a r : ok record_codec r → length a = 24%nat →
  store_at (chars_codec 24) off_label a (to_bytes record_codec r) = to_bytes record_codec (Record' (magic r) (count r) a).
Proof.
  intros (Hm & Hc & Hl) Ha. cbn [fst snd] in *. rewrite !record_bytes /store_at /off_label. cbn [magic count label].
  pose proof (to_bytes_width u32_codec _ Hm) as Hm'. pose proof (to_bytes_width u32_codec _ Hc) as Hc'.
  rewrite !(app_assoc _ _ (label r)) take_app_length'; [|done].
  rewrite drop_ge; [|rewrite !length_app Hm' Hc' Hl //]. rewrite app_nil_r -app_assoc //.
Qed.

Lemma modified_ok r : ok record_codec r → ok record_codec (modified r).
Proof.
  intros (Hm & Hc & Hl). cbn [fst snd] in *. split; [done|]. split; [cbn [ok u32_codec]; cbn [fst snd modified count]; lia|].
  cbn [ok chars_codec snd modified label] in *. rewrite length_strncpy Hl //. lia.
Qed.

Lemma gives_modify l path b F S M r : F !! path = Some (to_bytes record_codec r) → ok record_codec r →
  let M' := <[l := Mapping (Some path) true true 32 b]> M in
  gives (modify l) (Memory (Disk F S) M') tt [] (Memory (Disk (<[path := to_bytes record_codec (modified r)]> F) S) M').
Proof.
  intros HF Hr M'. pose proof (record_length r Hr) as Hlen. subst M'. rewrite -Hlen. unfold modify.
  eapply gives_quiet; [apply gives_poke_file; [exact HF|rewrite Hlen; cbn; lia]|]. rewrite store_count //.
  set (r1 := Record' (magic r) 42 (label r)). assert (ok record_codec r1) as Hr1.
  { destruct Hr as (? & ? & ?). split; [done|]. split; [cbn; lia|done]. }
  pose proof (record_length r1 Hr1) as Hlen1. rewrite Hlen -Hlen1.
  eapply gives_quiet; [apply gives_peek_file; [apply lookup_insert_eq|rewrite Hlen1; cbn; lia]|].
  destruct (load_record r1 Hr1) as (_ & _ & ->).
  assert (length (label r1) = 24%nat) as Hl1 by (destruct Hr1 as (_ & _ & H); exact H).
  assert (gives (poke (chars_codec 24) l off_label (strncpy (label r1) "modified" 23))
    (Memory (Disk (<[path := to_bytes record_codec r1]> F) S) (<[l := Mapping (Some path) true true (length (to_bytes record_codec r1)) b]> M)) tt []
    (Memory (Disk (<[path := store_at (chars_codec 24) off_label (strncpy (label r1) "modified" 23) (to_bytes record_codec r1)]> (<[path := to_bytes record_codec r1]> F)) S)
       (<[l := Mapping (Some path) true true (length (to_bytes record_codec r1)) b]> M))) as Hp.
  { apply gives_poke_file; [apply lookup_insert_eq|rewrite Hlen1; cbn; lia]. }
  rewrite insert_insert_eq store_label // in Hp. rewrite length_strncpy Hl1 //; lia.
Qed.

Definition shown_rec (fmt : string) (r : Record_) : list ev := [Out (line fmt [AInt (magic r); AInt (count r); AStr (default "" (c_string (label r)))%string])].

Lemma gives_print_rec fmt l path b F S M r : F !! path = Some (to_bytes record_codec r) → ok record_codec r → is_Some (c_string (label r)) →
  (∀ m c s, is_Some (format fmt [AInt m; AInt c; AStr s])) →
  let w := Memory (Disk F S) (<[l := Mapping (Some path) true true 32 b]> M) in gives (print_rec fmt l) w tt (shown_rec fmt r) w.
Proof.
  intros HF Hr [s Hs] Hfmt w. pose proof (record_length r Hr) as Hlen. subst w. rewrite -Hlen.
  destruct (load_record r Hr) as (E1 & E2 & E3). unfold print_rec, shown_rec.
  eapply gives_quiet; [apply gives_peek_file; [exact HF|rewrite Hlen; cbn; lia]|].
  eapply gives_quiet; [apply gives_peek_file; [exact HF|rewrite Hlen; cbn; lia]|].
  eapply gives_quiet.
  { eapply gives_quiet; [apply gives_peek_file; [exact HF|rewrite Hlen; cbn; lia]|]. rewrite E3 Hs. apply gives_ret. }
  rewrite E1 E2 Hs. by apply gives_print.
Qed.

(** ** Runs after a [fork] *)

(** What a list of actions does by itself. *)
Fixpoint exec (l : list act) (sh pr : bytes) : list string * (bytes * bytes) :=
  match l with
  | [] => ([], (sh, pr))
  | SetShared f :: l => exec l (f sh) pr
  | SetPrivate f :: l => exec l sh (f pr)
  | Say t :: l => let '(o, r) := exec l sh pr in (t sh pr :: o, r)
  | WaitChild :: l => exec l sh pr
  end.

Definition no_wait (l : list act) : Prop := Forall (λ a, match a with WaitChild => False | _ => True end) l.

Section fork.
Context (p c : list act) (sh pr : bytes) (c_no_wait : no_wait c).

(** The child, then the parent. *)
Definition fork_result : list string * (bytes * bytes) :=
  let '(o1, (sh1, _)) := exec c sh pr in let '(o2, r) := exec p sh1 pr in (o1 ++ o2, r).

(** What is printed and what is still to come make up the result. *)
Definition fork_inv (tr : list (role * list string)) (s : system) : Prop :=
  (∃ c', s_todo s Child = c' ∧ no_wait c' ∧ s_todo s Parent = WaitChild :: p ∧ s_private s Parent = pr ∧
     (let '(o1, (sh1, _)) := exec c' (s_shared s) (s_private s Child) in let '(o2, r) := exec p sh1 pr in (printed tr ++ o1 ++ o2, r)) = fork_result) ∨
  (s_todo s Child = [] ∧
     (let '(o, r) := exec (s_todo s Parent) (s_shared s) (s_private s Parent) in (printed tr ++ o, r)) = fork_result).

Lemma printed_snoc tr a : printed (tr ++ [a]) = printed tr ++ a.2.
Proof. unfold printed. rewrite bind_app. cbn. by rewrite app_nil_r. Qed.

Lemma fork_inv_step tr s a s' : fork_inv tr s → step s a s' → fork_inv (tr ++ [a]) s'.
Proof.
  intros [(c' & Hc & Hw & Hp & Hpr & He)|[Hc He]] Hs.
  - inversion Hs as [r f k Hr|r f k Hr|r t k Hr|r k Hr Ho]; subst; destruct r; rewrite ?Hp in Hr; try discriminate.
    + rewrite Hr in Hw He. apply Forall_cons in Hw as [_ Hw]. left. exists k. cbn [s_todo s_shared s_private]. by rewrite printed_snoc app_nil_r.
    + rewrite Hr in Hw He. apply Forall_cons in Hw as [_ Hw]. left. exists k. cbn [s_todo s_shared s_private]. by rewrite printed_snoc app_nil_r.
    + rewrite Hr in Hw He. apply Forall_cons in Hw as [_ Hw]. left. exists k. cbn [s_todo s_shared s_private exec] in *. rewrite printed_snoc. cbn [snd].
      split_and!; [done..|]. rewrite -He. destruct (exec k _ _) as [o1 [sh1 x]]. destruct (exec p sh1 pr). by rewrite -!app_assoc.
    + injection Hr as <-. right. cbn [s_todo s_shared s_private other] in *. split; [done|]. rewrite printed_snoc app_nil_r -He Ho Hpr.
      by destruct (exec p (s_shared s) pr).
    + rewrite Hr in Hw. apply Forall_cons in Hw as [[] _].
  - right. inversion Hs as [r f k Hr|r f k Hr|r t k Hr|r k Hr Ho]; subst; destruct r; rewrite ?Hc in Hr; try discriminate;
      rewrite Hr in He; cbn [s_todo s_shared s_private exec] in *; (split; [done|]); rewrite printed_snoc ?app_nil_r //.
    cbn [snd]. rewrite -He upd_eq. destruct (exec k _ _). by rewrite -app_assoc.
Qed.

Definition start : system := after_fork (WaitChild :: p) c sh pr.

Lemma fork_inv_run tr s : run step start tr s → fork_inv tr s.
Proof.
  induction 1 as [|tr s a s' Hr IH Hs]; [|by eapply fork_inv_step].
  left. by exists c.
Qed.

Lemma fork_progress tr s : run step start tr s → at_end s ∨ ∃ a s', step s a s' ∧ True.
Proof.
  intros Hr. destruct (fork_inv_run tr s Hr) as [(c' & Hc & Hw & Hp & _)|[Hc _]].
  - right. destruct c' as [|[f|f|t|] c'].
    + eexists _, _. split; [by eapply step_wait|done].
    + eexists _, _. split; [by eapply step_shared|done].
    + eexists _, _. split; [by eapply step_private|done].
    + eexists _, _. split; [by eapply step_say|done].
    + apply Forall_cons in Hw as [[] _].
  - destruct (s_todo s Parent) as [|[f|f|t|] k] eqn:Hp.
    + left. by intros [].
    + right. eexists _, _. split; [by eapply step_shared|done].
    + right. eexists _, _. split; [by eapply step_private|done].
    + right. eexists _, _. split; [by eapply step_say|done].
    + right. eexists _, _. split; [by eapply (step_wait _ Parent)|done].
Qed.

Definition left_to_do (s : system) : Z := Z.of_nat (length (s_todo s Parent)) + Z.of_nat (length (s_todo s Child)).

Lemma fork_decreases tr s a s' : run step start tr s → step s a s' → True → left_to_do s' + 1 ≤ left_to_do s.
Proof.
  intros _ Hs _. unfold left_to_do. inversion Hs as [r f k Hr|r f k Hr|r t k Hr|r k Hr Ho]; subst; destruct r; cbn [s_todo]; rewrite Hr upd_eq upd_ne //=; lia.
Qed.

(** Every run to the end has the same result, and there is one. *)
Lemma fork_unique tr s : run step start tr s → at_end s → (printed tr, (s_shared s, s_private s Parent)) = fork_result.
Proof.
  intros Hr He. destruct (fork_inv_run tr s Hr) as [(c' & _ & _ & Hp & _)|[_ H]]; [by rewrite (He Parent) in Hp|].
  rewrite (He Parent) in H. cbn in H. by rewrite app_nil_r in H.
Qed.

Lemma fork_ends : ∃ tr s, run step start tr s ∧ at_end s.
Proof.
  destruct (run_ends step start (λ _, True) at_end left_to_do) with (tr := @nil (role * list string)) (s := start) as (tr & s & Hr & _ & He).
  - intros tr s _. unfold left_to_do. lia.
  - apply fork_decreases.
  - apply fork_progress.
  - apply run_start.
  - by exists tr, s.
Qed.
End fork.

Lemma forks_spec p c sh pr ts sh' pr' : no_wait c →
  forks (WaitChild :: p) c sh pr ts sh' pr' ↔ (ts, (sh', pr')) = fork_result p (if fork_works then c else []) sh pr.
Proof.
  intros Hc. set (c' := if fork_works then c else []). assert (no_wait c') as Hc' by (unfold c'; destruct fork_works; [done|constructor]).
  split.
  - intros (tr & s & Hr & He & -> & -> & ->). by apply fork_unique.
  - intros E. destruct (fork_ends p c' sh pr Hc') as (tr & s & Hr & He). exists tr, s.
    pose proof (fork_unique p c' sh pr Hc' tr s Hr He) as E'. rewrite -E in E'. injection E' as -> -> ->. done.
Qed.

(** ** The sections, when no call fails *)

(** [close] of the descriptor at hand. *)
Ltac closes := quietly ltac:(eapply gives_on_disk, gives_close_read; [by right|apply lookup_insert_eq|apply fresh_loc_fresh]).

Definition out (fmt : string) (args : list parg) : ev := Out (line fmt args).

Definition concepts_out : list ev :=
  [out "=== 1. Concepts ===\n" []; out "  page size: %ld bytes (%ld KB)\n" [AInt pgsz; AInt (pgsz / 1024)];
   out "  mmap offset must be a multiple of page size\n" []; out "  mmap length is rounded up to the next page boundary\n" [];
   out "  MAP_FAILED == (void *)-1 == 0xffffffffffffffff\n" []; out "  mmap(length=0): Invalid argument\n" []; out "\n" []].

Definition read_out (data : positive) : list ev :=
  [out "=== 2. File-backed read-only mapping ===\n" []; out "  file size: 29 bytes\n" []; out "  mapped at: %p\n" [APtr (Some data)];
   out "  line count: 3\n" []; out "  first line: \qline one\q\n" []; out "\n" []].

Definition write_out : list ev :=
  [out "=== 3. File-backed MAP_SHARED write mapping ===\n" []; out "  before: magic=0xDEADBEEF count=0 label=\qinitial\q\n" [];
   out "  after:  magic=0xDEADBEEF count=42 label=\qmodified\q\n" []; out "  verified via read(): count=42 label=\qmodified\q\n" []; out "\n" []].

Definition anonymous_out (arr : positive) : list ev :=
  [out "=== 4. Anonymous private mapping ===\n" []; out "  mapped 4 MB at %p\n" [APtr (Some arr)]; out "  arr[0] before write: 0 (guaranteed zero)\n" [];
   out "  sum of 1M ints (mod 1000): 523641600\n" []; out "  munmap returned memory to OS immediately\n" []; out "\n" []].

(** Without a child nothing is written into the shared memory. *)
Definition shared_out : list ev :=
  out "=== 5. Shared memory (MAP_SHARED + fork) ===\n" [] ::
  (if fork_works then
     [out "  child:  counter=99  message=\qwritten by child\q\n" []; out "  parent: counter=99  message=\qwritten by child\q\n" []]
   else [out "  parent: counter=0  message=\q\q\n" []]) ++
  [out "  MAP_PRIVATE: parent counter=0 (child's write not visible)\n" []; out "\n" []].

Definition pitfalls_out : list ev :=
  [out "=== 6. Patterns and pitfalls ===\n" []; out "  ftruncate+mmap: \qpage-sized file, mapped safely\q\n" [];
   out "  offset %lld → page base %lld, ptr adj +%zu bytes\n" [AInt 5000; AInt (base_of 5000); AInt (adj_of 5000)]; out "\n  Pitfall summary:\n" [];
   out "  SIGBUS:    access past end-of-file on file-backed map\n" []; out "  msync:     call MS_SYNC before relying on crash durability\n" [];
   out "  alignment: offset must be multiple of sysconf(_SC_PAGESIZE)\n" []; out "  MADV:      madvise(MADV_SEQUENTIAL/RANDOM) for access hints\n" [];
   out "  munmap:    always unmap; valgrind won't catch mmap leaks\n" []; out "\n" []].

Lemma concepts_gives w : gives section_concepts w tt concepts_out w.
Proof.
  unfold section_concepts, concepts_out.
  do 5 prints.
  eapply gives_quiet; [done|]. prints. prints_line.
Qed.

Context (opens : ∀ path m, open_error path m = None) (readable : ∀ path, unreadable path = false).

(** A disk that is full: the file is removed. *)
Lemma write_short F S M : (capacity TMP_RW < 32)%nat →
  gives section_write_mapping (Memory (Disk F S) M) tt
    [out "=== 3. File-backed MAP_SHARED write mapping ===\n" []; Err ("write: " +:+ errno_text +:+ String nl "")%string]
    (Memory (Disk (delete TMP_RW F) S) M).
Proof.
  intros Hc. unfold section_write_mapping. change (width record_codec) with 32%nat.
  prints.
  eapply gives_quiet; [by apply gives_on_disk, gives_creat|]. cbv iota.
  eapply gives_quiet; [apply gives_on_disk, gives_write_raw|].
  destruct (decide _) as [_|Hn]; [|destruct Hn; rewrite length_take; lia].
  eapply gives_bind; [done| |done].
  closes.
  rewrite -(delete_insert_eq F TMP_RW (take (capacity TMP_RW) (to_bytes record_codec init))). by apply gives_on_disk.
Qed.

Context (room : ∀ path, (4096 ≤ capacity path)%nat) (place_free : ∀ M, M !! place M = None).

Definition ro_bytes : bytes := lines_bytes ["line one"; "line two"; "line three"]%string.

(** Up to the call of [mmap], and after it. *)
Lemma read_begins F S M r o :
  gives (mmap_fd (fresh_loc S) false false 29) (Memory (Disk (<[TMP_RO := ro_bytes]> F) (<[fresh_loc S := Stream TMP_RO Raw 0 [] false]> S)) M) r []
    (Memory (Disk (<[TMP_RO := ro_bytes]> F) (<[fresh_loc S := Stream TMP_RO Raw 0 [] false]> S)) o) →
  ∀ o' w', gives (match r with inl e => perror "mmap" e | inr data => use_data 29 data end) (Memory (Disk (<[TMP_RO := ro_bytes]> F) S) o) tt o' w' →
  gives section_read_mapping (Memory (Disk F S) M) tt (out "=== 2. File-backed read-only mapping ===\n" [] :: o') w'.
Proof.
  intros Hm o' w' Hu. pose proof (room TMP_RO) as Hr. unfold section_read_mapping. prints.
  quietly ltac:(by apply gives_on_disk, gives_open_write). cbv iota.
  quietly ltac:(eapply gives_on_disk, gives_fprintf; [by eexists|by left|apply lookup_insert_eq]). rewrite app_nil_l.
  quietly ltac:(apply gives_on_disk, gives_close_new, fresh_loc_fresh).
  replace (bytes_of _) with ro_bytes by (vm_compute; reflexivity). assert (length ro_bytes = 29%nat) as Hlen by (vm_compute; reflexivity).
  rewrite take_ge; [|rewrite Hlen; lia].
  quietly ltac:(eapply gives_on_disk, gives_open_raw; [done|apply lookup_insert_eq]). cbv iota.
  quietly ltac:(eapply gives_on_disk, gives_length, lookup_insert_eq). rewrite Hlen.
  quietly ltac:(exact Hm). closes. exact Hu.
Qed.

Lemma use_data_gives l F S M : M !! l = None →
  gives (use_data 29 l) (Memory (Disk (<[TMP_RO := ro_bytes]> F) S) (<[l := Mapping (Some TMP_RO) false false 29 []]> M)) tt (tail (read_out l))
    (Memory (Disk (delete TMP_RO F) S) M).
Proof.
  intros Hl. assert (length ro_bytes = 29%nat) as Hlen by (vm_compute; reflexivity). rewrite -Hlen. unfold use_data, read_out. cbn [tail].
  do 2 prints. quietly ltac:(apply gives_count_lines; [apply lookup_insert_eq|done]). prints.
  quietly ltac:(apply gives_peek_file; [apply lookup_insert_eq|cbn; lia]). prints.
  quietly ltac:(by apply gives_munmap). quietly ltac:(apply gives_on_disk; done). cbn [files streams]. rewrite delete_insert_eq. prints_line.
Qed.

Lemma read_gives F S M : map_error (Some TMP_RO) false 29 = None →
  gives section_read_mapping (Memory (Disk F S) M) tt (read_out (place M)) (Memory (Disk (delete TMP_RO F) S) M).
Proof.
  intros Hm. apply (read_begins F S M (inr (place M)) (<[place M := Mapping (Some TMP_RO) false false 29 []]> M)).
  - by eapply (gives_mmap_fd _ _ _ 29); [apply lookup_insert_eq| |lia].
  - apply use_data_gives, place_free.
Qed.

Lemma init_ok : ok record_codec init.
Proof. split; [cbn; lia|]. split; [cbn; lia|apply length_chars]. Qed.

Lemma write_begins F S M r o :
  let d := Disk (<[TMP_RW := to_bytes record_codec init]> F) (<[fresh_loc S := Stream TMP_RW Raw 32 [] false]> S) in
  gives (mmap_fd (fresh_loc S) true true 32) (Memory d M) r [] (Memory d o) →
  ∀ o' w', gives (match r with inl e => perror "mmap" e | inr rec => _ ← use_record rec; verify_file end)
    (Memory (Disk (<[TMP_RW := to_bytes record_codec init]> F) S) o) tt o' w' →
  gives section_write_mapping (Memory (Disk F S) M) tt (out "=== 3. File-backed MAP_SHARED write mapping ===\n" [] :: o') w'.
Proof.
  intros d Hm o' w' Hu. subst d. pose proof (room TMP_RW) as Hr. pose proof (record_length init init_ok) as Hlen.
  unfold section_write_mapping. change (width record_codec) with 32%nat. prints.
  quietly ltac:(by apply gives_on_disk, gives_creat). cbv iota.
  quietly ltac:(apply gives_on_disk, gives_write_raw). rewrite take_ge; [|rewrite Hlen; lia]. rewrite Hlen.
  destruct (decide _) as [Hne|_]; [by destruct Hne|]. quietly ltac:(exact Hm). closes. exact Hu.
Qed.

Lemma use_record_gives l F S M r : M !! l = None → ok record_codec r → is_Some (c_string (label r)) → is_Some (c_string (label (modified r))) →
  gives (use_record l) (Memory (Disk (<[TMP_RW := to_bytes record_codec r]> F) S) (<[l := Mapping (Some TMP_RW) true true 32 []]> M)) tt
    (shown_rec "  before: magic=0x%08X count=%u label=\q%s\q\n" r ++ shown_rec "  after:  magic=0x%08X count=%u label=\q%s\q\n" (modified r))
    (Memory (Disk (<[TMP_RW := to_bytes record_codec (modified r)]> F) S) M).
Proof.
  intros Hl Hr Hs Hs'. pose proof (modified_ok r Hr) as Hok. unfold use_record.
  eapply gives_bind; [apply (gives_print_rec _ _ _ _ _ _ _ r); [apply lookup_insert_eq|done|done|intros; by eexists]| |reflexivity].
  quietly ltac:(apply (gives_modify _ _ _ _ _ _ r); [apply lookup_insert_eq|done]). rewrite insert_insert_eq.
  eapply gives_bind; [apply (gives_print_rec _ _ _ _ _ _ _ (modified r)); [apply lookup_insert_eq|done|done|intros; by eexists]|by apply gives_munmap|].
  by rewrite app_nil_r.
Qed.

Lemma verify_gives F S M r s : ok record_codec r → c_string (label r) = Some s →
  gives verify_file (Memory (Disk (<[TMP_RW := to_bytes record_codec r]> F) S) M) tt
    [out "  verified via read(): count=%u label=\q%s\q\n" [AInt (count r); AStr s]; out "\n" []] (Memory (Disk (delete TMP_RW F) S) M).
Proof.
  intros Hr Hs. pose proof (record_length r Hr) as Hlen. unfold verify_file. change (width record_codec) with 32%nat.
  quietly ltac:(eapply gives_on_disk, gives_open_raw; [done|apply lookup_insert_eq]). cbv iota.
  quietly ltac:(eapply gives_on_disk, gives_fread; [apply lookup_insert_eq|done]). closes.
  quietly ltac:(apply gives_on_disk; done). cbn [files streams]. rewrite delete_insert_eq drop_0. rewrite take_ge; [|by rewrite Hlen].
  destruct (decide _) as [Hne|_]; [by destruct Hne|]. rewrite (of_to_bytes record_codec _ Hr) Hs. prints. prints_line.
Qed.

Lemma write_gives F S M : map_error (Some TMP_RW) true 32 = None →
  gives section_write_mapping (Memory (Disk F S) M) tt write_out (Memory (Disk (delete TMP_RW F) S) M).
Proof.
  intros Hm. pose proof init_ok as Hi. eapply write_begins; [eapply (gives_mmap_fd _ _ _ 32); [apply lookup_insert_eq|done|lia]|].
  cbv iota. eapply gives_bind; [apply use_record_gives; [apply place_free|done|by eexists|by eexists]| |].
  - by apply (verify_gives _ _ _ (modified init) "modified"); [apply modified_ok|].
  - reflexivity.
Qed.

Lemma num_ints_eq : Z.of_nat num_ints = 1048576.
Proof. unfold num_ints. by rewrite Z2Nat.id. Qed.

Lemma sum_of_ints : mods num_ints = 523641600.
Proof. rewrite mods_closed num_ints_eq. reflexivity. Qed.

Lemma load_zero n : (4 ≤ n)%nat → load_at int_codec 0 (replicate n "000"%char) = 0.
Proof.
  intros Hn. unfold load_at. rewrite drop_0 take_replicate. cbn [width int_codec]. rewrite Nat.min_l //.
Qed.

Lemma anonymous_gives d M : map_error None false (num_ints * 4) = None →
  gives section_anonymous (Memory d M) tt (anonymous_out (place M)) (Memory d M).
Proof.
  intros Hm. pose proof num_ints_eq as Hn. unfold section_anonymous, anonymous_out. set (n := num_ints) in *.
  pose proof sum_of_ints as Hsum. fold n in Hsum. clearbody n.
  prints.
  eapply gives_quiet; [apply gives_mmap; [done|lia]|]. cbv iota.
  assert (Z.of_nat (n * 4) / (1024 * 1024) = 4) as -> by (rewrite Nat2Z.inj_mul Hn; reflexivity).
  prints.
  eapply gives_quiet; [apply gives_peek_anon; rewrite length_replicate; cbn; lia|]. rewrite load_zero; [|lia].
  prints.
  destruct (gives_fill (place M) (n * 4) d M n 0 0 (replicate (n * 4) "000"%char)) as (b & _ & Hg & _);
    [apply length_replicate|lia|lia|unfold LONG_MAX; lia|].
  eapply gives_quiet; [exact Hg|]. rewrite Nat.add_0_l Hsum.
  prints.
  eapply gives_quiet; [apply gives_munmap, place_free|].
  prints. prints_line.
Qed.

(** The pages of section 5. *)
Definition shared_bytes : bytes := store_at (chars_codec 1) off_message ["000"%char] (store_at int_codec off_counter 0 (replicate sizeof_Shared "000"%char)).
Definition private_bytes : bytes := store_at int_codec off_counter 0 (replicate sizeof_Shared "000"%char).
Definition shared_map (b : bytes) : mapping := Mapping None true true sizeof_Shared b.
Definition private_map (b : bytes) : mapping := Mapping None false true sizeof_Shared b.

Lemma shared_begin_gives d M : map_error None true sizeof_Shared = None →
  gives shared_begin (Memory d M) (Some (place M)) [out "=== 5. Shared memory (MAP_SHARED + fork) ===\n" []] (Memory d (<[place M := shared_map shared_bytes]> M)).
Proof.
  intros Hm. unfold shared_begin. prints.
  eapply gives_quiet; [apply gives_mmap; [done|unfold sizeof_Shared; lia]|]. cbv iota.
  eapply gives_quiet; [apply gives_poke_anon, Nat.leb_le; reflexivity|]. eapply gives_quiet; [apply gives_poke_anon, Nat.leb_le; reflexivity|]. apply gives_ret.
Qed.

Lemma private_begin_gives d M : map_error None false sizeof_Shared = None →
  gives private_begin (Memory d M) (place M) [] (Memory d (<[place M := private_map private_bytes]> M)).
Proof.
  intros Hm. unfold private_begin. eapply gives_quiet; [apply gives_mmap; [done|unfold sizeof_Shared; lia]|]. cbv iota.
  eapply gives_quiet; [apply gives_poke_anon, Nat.leb_le; reflexivity|]. apply gives_ret.
Qed.

Lemma private_begin_fails e w : map_error None false sizeof_Shared = Some e → fails private_begin w.
Proof. intros Hm. unfold private_begin. eapply fails_bind; [apply gives_mmap_error; [done|unfold sizeof_Shared; lia]|done]. Qed.

Lemma set_bytes_insert l m bs d M :
  set_bytes l bs (Memory d (<[l := m]> M)) = Memory d (<[l := Mapping (m_file m) (m_shared m) (m_writable m) (m_length m) bs]> M).
Proof. unfold set_bytes. cbn [disk_of maps]. by rewrite alter_insert_eq. Qed.

(** What the two forks print, and the bytes they leave. *)
Definition first_result : list string * (bytes * bytes) := fork_result (tail first_parent) (if fork_works then first_child else []) shared_bytes [].

Lemma first_printed : Out <$> first_result.1 =
  if fork_works then [out "  child:  counter=99  message=\qwritten by child\q\n" []; out "  parent: counter=99  message=\qwritten by child\q\n" []]
  else [out "  parent: counter=0  message=\q\q\n" []].
Proof. unfold first_result. destruct fork_works; vm_compute; reflexivity. Qed.

Lemma second_printed sh : fork_result (tail second_parent) (if fork_works then second_child else []) sh private_bytes =
  ([line "  MAP_PRIVATE: parent counter=0 (child's write not visible)\n" []], (sh, private_bytes)).
Proof. destruct fork_works; vm_compute; reflexivity. Qed.

Lemma no_wait_first : no_wait first_child.
Proof. by repeat constructor. Qed.
Lemma no_wait_second : no_wait second_child.
Proof. by repeat constructor. Qed.

(** Section 5 has one outcome, whatever the order of the processes. *)
Lemma shared_spec d M r : map_error None true sizeof_Shared = None → map_error None false sizeof_Shared = None →
  section_shared (Memory d M) r ↔ r = Returns tt shared_out (Memory d M).
Proof.
  intros Hm Hp. pose proof (shared_begin_gives d M Hm) as Hb. unfold gives in Hb.
  set (l := place M) in *. set (sh := first_result.2.1). set (M1 := <[l := shared_map sh]> M).
  assert (set_bytes l sh (Memory d (<[l := shared_map shared_bytes]> M)) = Memory d M1) as E1 by by rewrite set_bytes_insert.
  pose proof (private_begin_gives d M1 Hp) as Hq. unfold gives in Hq. set (l2 := place M1) in *.
  assert (M1 !! l2 = None) as Hl2 by apply place_free.
  assert (l2 ≠ l) as Hne by (intros E; unfold M1 in Hl2; by rewrite E lookup_insert_eq in Hl2).
  assert (bytes_at (Memory d (<[l := shared_map shared_bytes]> M)) l = shared_bytes) as E2 by by rewrite /bytes_at lookup_insert_eq.
  set (M2 := <[l2 := private_map private_bytes]> M1) in *.
  assert (bytes_at (Memory d M2) l = sh) as E3 by (rewrite /bytes_at /M2 /M1 /= lookup_insert_ne // lookup_insert_eq //).
  assert (bytes_at (Memory d M2) l2 = private_bytes) as E4 by (rewrite /bytes_at /M2 /= lookup_insert_eq //).
  assert (set_bytes l2 private_bytes (set_bytes l sh (Memory d M2)) = Memory d M2) as E5.
  { unfold M2, M1. rewrite insert_insert_ne // set_bytes_insert insert_insert_ne // set_bytes_insert. done. }
  assert (gives (shared_end l l2) (Memory d M2) tt [out "\n" []] (Memory d M)) as He.
  { unfold shared_end, M2, M1. rewrite insert_insert_ne //.
    eapply gives_quiet; [apply gives_munmap; rewrite lookup_insert_ne //; apply place_free|].
    eapply gives_quiet; [apply gives_munmap; by rewrite /M1 lookup_insert_ne in Hl2|]. prints_line. }
  unfold gives in He.
  assert (∀ ts sh' pr', forks first_parent first_child shared_bytes [] ts sh' pr' ↔ (ts, (sh', pr')) = first_result) as F1.
  { intros. apply forks_spec, no_wait_first. }
  assert (∀ ts sh' pr', forks second_parent second_child sh private_bytes ts sh' pr' ↔
    (ts, (sh', pr')) = ([line "  MAP_PRIVATE: parent counter=0 (child's write not visible)\n" []], (sh, private_bytes))) as F2.
  { intros. rewrite -second_printed. apply forks_spec, no_wait_second. }
  assert (shared_out = ([out "=== 5. Shared memory (MAP_SHARED + fork) ===\n" []] ++ (Out <$> first_result.1) ++ [] ++
    (Out <$> [line "  MAP_PRIVATE: parent counter=0 (child's write not visible)\n" []])) ++ [out "\n" []]) as Eo.
  { unfold shared_out. rewrite first_printed. by destruct fork_works. }
  split.
  - intros H. inversion H as [o w1 Hs|o w1 shm ts sh' pr Hs Hf Hu|o w1 shm ts sh' pr priv o2 w2 ts' sh2 pr2 Hs Hf Hq' Hf']; subst.
    + congruence.
    + rewrite Hb in Hs. injection Hs as <- <- <-. rewrite E2 in Hf. apply F1 in Hf. assert (sh' = sh) as -> by by rewrite /sh -Hf.
      rewrite E1 in Hu. congruence.
    + rewrite Hb in Hs. injection Hs as <- <- <-. rewrite E2 in Hf. apply F1 in Hf. assert (sh' = sh) as -> by by rewrite /sh -Hf.
      rewrite E1 Hq in Hq'. injection Hq' as <- <- <-. rewrite E3 E4 in Hf'. apply F2 in Hf'. injection Hf' as -> -> ->.
      rewrite E5 He Eo -Hf. done.
  - intros ->. destruct first_result as [ts [sh' pr]] eqn:Ef.
    assert (sh' = sh) as Es by done. 
    rewrite Eo. cbn [fst].
    replace (Returns tt _ (Memory d M)) with (after ([out "=== 5. Shared memory (MAP_SHARED + fork) ===\n" []] ++ (Out <$> ts) ++ [] ++
      (Out <$> [line "  MAP_PRIVATE: parent counter=0 (child's write not visible)\n" []])) (shared_end l l2 (set_bytes l2 private_bytes (set_bytes l sh (Memory d M2)))))
      by (rewrite E5 He; done).
    eapply (shared_done _ _ _ l ts sh pr l2 [] _ _ sh private_bytes); [exact Hb| |rewrite E1; exact Hq|].
    + rewrite E2. by apply F1.
    + rewrite E3 E4. by apply F2.
Qed.

(** ** Section 6 *)

Definition page_text : string := "page-sized file, mapped safely".
Definition page_bytes : bytes := store_at (chars_codec 31) 0 (bytes_of page_text ++ ["000"%char]) (replicate 4096 "000"%char).

Lemma page_length : length page_bytes = 4096%nat.
Proof. vm_compute. reflexivity. Qed.
Lemma page_string : c_string page_bytes = Some page_text.
Proof. vm_compute. reflexivity. Qed.

Lemma show_page_gives l F S M : M !! l = None → F !! TMP_TRUNC = Some (replicate 4096 "000"%char) →
  gives (show_page l) (Memory (Disk F S) (<[l := Mapping (Some TMP_TRUNC) true true 4096 []]> M)) tt
    [out "  ftruncate+mmap: \qpage-sized file, mapped safely\q\n" []] (Memory (Disk (<[TMP_TRUNC := page_bytes]> F) S) M).
Proof.
  intros Hl HF. unfold show_page. change (Datatypes.S (String.length _)) with 31%nat.
  pose proof (length_replicate 4096 "000"%char) as Hr.
  pose proof (gives_poke_file (chars_codec 31) l 0 (bytes_of page_text ++ ["000"%char]) TMP_TRUNC [] F S _ M HF) as Hp.
  rewrite Hr in Hp. eapply gives_quiet; [apply Hp; cbn [width chars_codec]; lia|]. fold page_bytes.
  pose proof (gives_peek_file (chars_codec 4096) l 0 TMP_TRUNC true true [] (<[TMP_TRUNC:=page_bytes]> F) S page_bytes M) as Hk.
  rewrite page_length in Hk. cbv zeta in Hk.
  eapply gives_quiet.
  { eapply gives_quiet; [apply Hk; [apply lookup_insert_eq|cbn [width chars_codec]; lia]|].
    assert (load_at (chars_codec 4096) 0 page_bytes = page_bytes) as ->.
    { unfold load_at. rewrite drop_0. cbn [width chars_codec of_bytes]. apply take_ge. by rewrite page_length. }
    rewrite page_string. apply gives_ret. }
  eapply gives_bind; [apply gives_print; by eexists|by apply gives_munmap|reflexivity].
Qed.

(** The remarks at the end of the section. *)
Definition remarks_out : list ev := drop 2 pitfalls_out.

Lemma remarks_gives w : gives remarks w tt remarks_out w.
Proof. unfold remarks, remarks_out, pitfalls_out. cbn [drop]. do 7 prints. prints_line. Qed.

Lemma page_made F S M r o :
  let d := Disk (<[TMP_TRUNC := replicate 4096 "000"%char]> F) (<[fresh_loc S := Stream TMP_TRUNC Raw 0 [] false]> S) in
  gives (mmap_fd (fresh_loc S) true true 4096) (Memory d M) r [] (Memory d o) →
  gives get_page (Memory (Disk F S) M) (match r with inl _ => None | inr page => Some page end) []
    (Memory (Disk (<[TMP_TRUNC := replicate 4096 "000"%char]> F) S) o).
Proof.
  intros d Hm. pose proof (room TMP_TRUNC) as Hr. unfold get_page. quietly ltac:(by apply gives_on_disk, gives_creat). cbv iota.
  quietly ltac:(by apply gives_on_disk, gives_ftruncate). cbv iota. quietly ltac:(exact Hm). closes. apply gives_ret.
Qed.

Lemma pitfalls_gives F S M : map_error (Some TMP_TRUNC) true 4096 = None →
  gives section_pitfalls (Memory (Disk F S) M) tt pitfalls_out (Memory (Disk (delete TMP_TRUNC F) S) M).
Proof.
  intros Hm. unfold section_pitfalls. change pitfalls_out with (take 2 pitfalls_out ++ remarks_out). prints.
  quietly ltac:(eapply page_made, (gives_mmap_fd _ _ _ 4096); [apply lookup_insert_eq|done|lia]). cbv iota.
  eapply gives_bind; [apply show_page_gives; [apply place_free|apply lookup_insert_eq]| |reflexivity].
  quietly ltac:(apply gives_on_disk; done). cbn [files streams]. rewrite insert_insert_eq delete_insert_eq. apply remarks_gives.
Qed.

(** Without a page the section goes on, and the file is removed. *)
Lemma pitfalls_without_page F S M e : map_error (Some TMP_TRUNC) true 4096 = Some e →
  gives section_pitfalls (Memory (Disk F S) M) tt (out "=== 6. Patterns and pitfalls ===\n" [] :: remarks_out) (Memory (Disk (delete TMP_TRUNC F) S) M).
Proof.
  intros Hm. unfold section_pitfalls. prints.
  quietly ltac:(eapply page_made, (gives_mmap_fd_error _ _ _ 4096); [apply lookup_insert_eq|done|lia]). cbv iota.
  quietly done. quietly ltac:(apply gives_on_disk; done). cbn [files streams]. rewrite delete_insert_eq. apply remarks_gives.
Qed.

(** ** Failing calls *)

(** When [mmap] fails in section 2 or 3 the file stays behind. *)
Lemma read_unmapped F S M e : map_error (Some TMP_RO) false 29 = Some e →
  gives section_read_mapping (Memory (Disk F S) M) tt
    [out "=== 2. File-backed read-only mapping ===\n" []; Err ("mmap: " +:+ e +:+ String nl "")%string] (Memory (Disk (<[TMP_RO := ro_bytes]> F) S) M).
Proof. intros Hm. by eapply read_begins; [eapply (gives_mmap_fd_error _ _ _ 29); [apply lookup_insert_eq|exact Hm|lia]|]. Qed.

Lemma write_unmapped F S M e : map_error (Some TMP_RW) true 32 = Some e →
  gives section_write_mapping (Memory (Disk F S) M) tt
    [out "=== 3. File-backed MAP_SHARED write mapping ===\n" []; Err ("mmap: " +:+ e +:+ String nl "")%string]
    (Memory (Disk (<[TMP_RW := to_bytes record_codec init]> F) S) M).
Proof. intros Hm. by eapply write_begins; [eapply (gives_mmap_fd_error _ _ _ 32); [apply lookup_insert_eq|exact Hm|lia]|]. Qed.

(** The second mapping of section 5 is used untested. *)
Lemma shared_private_unmapped d M e r : map_error None true sizeof_Shared = None → map_error None false sizeof_Shared = Some e →
  section_shared (Memory d M) r ↔ r = Undef.
Proof.
  intros Hm Hp. pose proof (shared_begin_gives d M Hm) as Hb. unfold gives in Hb. split.
  - intros H. inversion H as [o w1 Hs|o w1 shm ts sh' pr Hs Hf Hu|o w1 shm ts sh' pr priv o2 w2 ts' sh2 pr2 Hs Hf Hq' Hf']; subst; [congruence|done|].
    rewrite (private_begin_fails e _ Hp) in Hq'. done.
  - intros ->. set (l := place M) in *.
    destruct (fork_result (tail first_parent) (if fork_works then first_child else []) (bytes_at (Memory d (<[l := shared_map shared_bytes]> M)) l) [])
      as [ts [sh pr]] eqn:E.
    eapply (shared_undefined _ _ _ l ts sh pr); [exact Hb| |by eapply private_begin_fails]. apply (forks_spec _ first_child); [apply no_wait_first|by rewrite E].
Qed.

Lemma shared_unmapped d M e r : map_error None true sizeof_Shared = Some e →
  section_shared (Memory d M) r ↔
  r = Returns tt [out "=== 5. Shared memory (MAP_SHARED + fork) ===\n" []; Err ("mmap: " +:+ e +:+ String nl "")%string] (Memory d M).
Proof.
  intros Hm.
  assert (gives shared_begin (Memory d M) None [out "=== 5. Shared memory (MAP_SHARED + fork) ===\n" []; Err ("mmap: " +:+ e +:+ String nl "")%string] (Memory d M)) as Hb.
  { prints.
    eapply gives_quiet; [apply gives_mmap_error; [exact Hm|unfold sizeof_Shared; lia]|]. by eapply gives_bind. }
  unfold gives in Hb. split; [|intros ->; by apply shared_failed]. intros H. inversion H; subst; congruence.
Qed.

Lemma and_then_returns {A B} (a : A) o w (k : A → prog memory B) : and_then (Returns a o w) k = after o (k a w).
Proof. done. Qed.

(** The sections in order. *)
Lemma main_spec F S M r : (∀ file sh n, map_error file sh n = None) →
  main (Memory (Disk F S) M) r ↔
  r = Returns 0 (concepts_out ++ read_out (place M) ++ write_out ++ anonymous_out (place M) ++ shared_out ++ pitfalls_out)
        (Memory (Disk (delete TMP_TRUNC (delete TMP_RW (delete TMP_RO F))) S) M).
Proof.
  intros Hm. set (F' := delete TMP_RW (delete TMP_RO F)).
  assert (gives first_sections (Memory (Disk F S) M) tt (concepts_out ++ read_out (place M) ++ write_out ++ anonymous_out (place M)) (Memory (Disk F' S) M)) as H1.
  { unfold first_sections. eapply gives_bind; [apply concepts_gives| |reflexivity]. eapply gives_bind; [by apply read_gives| |reflexivity].
    eapply gives_bind; [by apply write_gives| |reflexivity]. by apply anonymous_gives. }
  assert (gives (_ ← section_pitfalls; mret 0) (Memory (Disk F' S) M) 0 pitfalls_out (Memory (Disk (delete TMP_TRUNC F') S) M)) as H2.
  { eapply gives_bind; [by apply pitfalls_gives|apply gives_ret|by rewrite app_nil_r]. }
  unfold gives in H1, H2. unfold main. rewrite H1. setoid_rewrite shared_spec; [|done..]. split.
  - intros (r5 & -> & ->). rewrite and_then_returns H2. cbn [after]. by rewrite -!app_assoc.
  - intros ->. eexists. split; [done|]. rewrite and_then_returns H2. cbn [after]. by rewrite -!app_assoc.
Qed.
End program.

(** The offset rounded down to a page and the rest. *)
Lemma page_offset pgsz off : 0 < pgsz → 0 ≤ off ≤ LONG_MAX →
  base_of pgsz off mod pgsz = 0 ∧ base_of pgsz off + adj_of pgsz off = off ∧ 0 ≤ adj_of pgsz off < pgsz.
Proof.
  intros Hp Ho. unfold adj_of, base_of. pose proof (Z.div_mod off pgsz ltac:(lia)) as Hd. pose proof (Z.mod_pos_bound off pgsz Hp) as Hm.
  replace (off - off / pgsz * pgsz) with (off mod pgsz) by lia.
  pose proof (Z.mod_le off pgsz ltac:(lia) Hp) as Hle. unfold u64, LONG_MAX in *.
  rewrite (Z.mod_small (off mod pgsz) (2 ^ 64)); [|lia]. split_and!; [by apply Z.mod_mul; lia|lia..].
Qed.

(** ** The properties *)

(** C37. The whole program when no call but [fork] fails: for every page size, every choice
    of addresses and every interleaving of the processes of section 5 there is exactly one
    outcome.  The mapped file shows its three lines; the stores through the shared mapping
    are read back from the file; the million ints add up to 523641600; the parent sees
    what the child wrote into the shared memory (nothing, if [fork] failed) and not what
    it wrote into its private copy; at the end every mapping is gone, every descriptor
    closed, the three temporary files removed and the other files as they were. *)
Theorem mmap_session_correct open_error capacity unreadable map_error fork_works errno_text pgsz place :
  (∀ path m, open_error path m = None) → (∀ path, unreadable path = false) → (∀ path, (4096 ≤ capacity path)%nat) →
  (∀ M, M !! place M = None) → (∀ file sh n, map_error file sh n = None) →
  ∀ F S M r, main open_error capacity unreadable map_error fork_works errno_text pgsz place (Memory (Disk F S) M) r ↔
    r = Returns 0 (concepts_out pgsz ++ read_out (place M) ++ write_out ++ anonymous_out (place M) ++ shared_out fork_works ++ pitfalls_out pgsz)
          (Memory (Disk (delete TMP_TRUNC (delete TMP_RW (delete TMP_RO F))) S) M).
Proof. intros Ho Hu Hc Hp Hm F S M r. by apply main_spec. Qed.

Lemma mmap_session_correct_witness :
  main (λ _ _, None) (λ _, 5000%nat) (λ _, false) (λ _ _ _, None) true "" 4096 fresh_loc (Memory (Disk ∅ ∅) ∅)
    (Returns 0 (concepts_out 4096 ++ read_out (fresh_loc (∅ : gmap positive mapping)) ++ write_out ++ anonymous_out (fresh_loc (∅ : gmap positive mapping)) ++ shared_out true ++ pitfalls_out 4096)
      (Memory (Disk (delete TMP_TRUNC (delete TMP_RW (delete TMP_RO ∅))) ∅) ∅)).
Proof.
  refine (proj2 (mmap_session_correct (λ _ _, None) (λ _, 5000%nat) (λ _, false) (λ _ _ _, None) true "" 4096 fresh_loc _ _ _ _ _ ∅ ∅ ∅ _) eq_refl);
    [done|done|intros; by apply Nat.leb_le|apply fresh_loc_fresh|done].
Defined.

(** C38. Mappings beyond the constants of the program, and its error paths.  The two
    assignments of section 3 change a file with any record to the record with these
    members; the loop of section 4 leaves [i % 1000] in every element of a block of any
    size and returns their sum; after [fork] any child and any parent that waits for it
    first have one common result, the child's actions before the parent's, and a run to
    the end exists; an offset is its page base plus an adjustment below the page size.
    When [mmap] fails in section 2 or 3 the temporary file stays behind; a short write
    removes it; a failing second [mmap] of section 5 is undefined behaviour; section 6
    removes its file whatever fails. *)
Theorem mappings_correct open_error capacity unreadable map_error fork_works errno_text pgsz place :
  (∀ path m, open_error path m = None) → (∀ path, unreadable path = false) → (∀ M, M !! place M = None) → 0 < pgsz →
  (∀ l path b F S M r, F !! path = Some (to_bytes record_codec r) → ok record_codec r →
     let M' := <[l := Mapping (Some path) true true 32 b]> M in
     gives (modify pgsz l) (Memory (Disk F S) M') tt [] (Memory (Disk (<[path := to_bytes record_codec (modified r)]> F) S) M')) ∧
  (∀ l n d M b, length b = (4 * n)%nat → 1000 * Z.of_nat n ≤ LONG_MAX → ∃ b',
     gives (fill pgsz n l 0 0) (Memory d (<[l := Mapping None false true (4 * n) b]> M))
       (Z.of_nat n / 1000 * 499500 + Z.of_nat n mod 1000 * (Z.of_nat n mod 1000 - 1) / 2) [] (Memory d (<[l := Mapping None false true (4 * n) b']> M)) ∧
     ∀ j, (j < n)%nat → load_at int_codec (4 * j) b' = Z.of_nat j mod 1000) ∧
  (∀ parent child shared private ts shared' private', no_wait child →
     forks true (WaitChild :: parent) child shared private ts shared' private' ↔
     let '(o1, (sh1, _)) := exec child shared private in let '(o2, r) := exec parent sh1 private in (ts, (shared', private')) = (o1 ++ o2, r)) ∧
  (∀ off, 0 ≤ off ≤ LONG_MAX → base_of pgsz off mod pgsz = 0 ∧ base_of pgsz off + adj_of pgsz off = off ∧ 0 ≤ adj_of pgsz off < pgsz) ∧
  (∀ F S M, (capacity TMP_RW < 32)%nat →
     gives (section_write_mapping open_error capacity unreadable map_error errno_text pgsz place) (Memory (Disk F S) M) tt
       [out "=== 3. File-backed MAP_SHARED write mapping ===\n" []; Err ("write: " +:+ errno_text +:+ String nl "")%string] (Memory (Disk (delete TMP_RW F) S) M)) ∧
  ((∀ path, (4096 ≤ capacity path)%nat) → ∀ F S M e,
     (map_error (Some TMP_RO) false 29%nat = Some e →
        gives (section_read_mapping open_error capacity map_error pgsz place) (Memory (Disk F S) M) tt
          [out "=== 2. File-backed read-only mapping ===\n" []; Err ("mmap: " +:+ e +:+ String nl "")%string] (Memory (Disk (<[TMP_RO := ro_bytes]> F) S) M)) ∧
     (map_error (Some TMP_RW) true 32%nat = Some e →
        gives (section_write_mapping open_error capacity unreadable map_error errno_text pgsz place) (Memory (Disk F S) M) tt
          [out "=== 3. File-backed MAP_SHARED write mapping ===\n" []; Err ("mmap: " +:+ e +:+ String nl "")%string]
          (Memory (Disk (<[TMP_RW := to_bytes record_codec init]> F) S) M)) ∧
     (map_error None true sizeof_Shared = None → map_error None false sizeof_Shared = Some e → ∀ d r,
        section_shared map_error fork_works place (Memory d M) r ↔ r = Undef) ∧
     (map_error (Some TMP_TRUNC) true 4096%nat = Some e →
        gives (section_pitfalls open_error capacity map_error errno_text pgsz place) (Memory (Disk F S) M) tt
          (out "=== 6. Patterns and pitfalls ===\n" [] :: remarks_out pgsz) (Memory (Disk (delete TMP_TRUNC F) S) M))).
Proof.
  intros Ho Hu Hp Hz. split_and!.
  - intros l path b F S M r. apply gives_modify.
  - intros l n d M b Hb Hn. destruct (gives_fill pgsz l (4 * n) d M n 0 0 b Hb) as (b' & _ & Hg & Hl); [lia..|].
    exists b'. rewrite -mods_closed. split; [|intros j Hj; rewrite Hl decide_True //; lia].
    replace (mods n) with (0 + (mods (0 + n) - mods 0)) by (cbn [Nat.add mods]; lia). exact Hg.
  - intros parent child sh pr ts sh' pr' Hc. rewrite forks_spec //. unfold fork_result.
    destruct (exec child sh pr) as [o1 [sh1 x]]. by destruct (exec parent sh1 pr).
  - intros off. by apply page_offset.
  - intros F S M. by apply write_short.
  - intros Hr F S M e. split_and!.
    + by apply read_unmapped.
    + by apply write_unmapped.
    + intros Hm Hn d r. by eapply shared_private_unmapped.
    + by apply pitfalls_without_page.
Qed.

Lemma mappings_correct_witness :
  (∀ off, 0 ≤ off ≤ LONG_MAX → base_of 4096 off mod 4096 = 0 ∧ base_of 4096 off + adj_of 4096 off = off ∧ 0 ≤ adj_of 4096 off < 4096) ∧
  base_of 4096 5000 = 4096 ∧ adj_of 4096 5000 = 904.
Proof.
  split; [|split; vm_compute; reflexivity].
  apply (mappings_correct (λ _ _, None) (λ _, 5000%nat) (λ _, false) (λ _ _ _, None) true "" 4096 fresh_loc); [done|done|apply fresh_loc_fresh|done].
Defined.
