(* ===== verification/Dynamic.v ===== *)
(** * Exercise 31: dynamic loading

    Model of [exercises/31_dynamic_loading]: [dl_demo.c] and the library [plugin.c] it
    loads.  What can be opened, and with which symbols, is the environment; the loader
    counts references, keeps the last error until it is read, and a function of a library
    that is not loaded cannot be called.  A pointer to a function remembers its library. *)

From S2P Require Import Prelude Machine CString Double Printf Text SepLogic Effects.
#[local] Open Scope Z_scope.

(** The functions of [plugin.c], [strlen], and others. *)
Inductive fn := Create | Destroy | Transform | Describe | Strlen | Foreign (n : nat).
Definition symbol : Type := string * fn.

(** [plugin.h] *)
Record Plugin := Plugin' { name : string * string; transform : symbol; describe : symbol }.

Record process := Process { refs : gmap string nat; pending : option string; plugins : gmap positive Plugin }.

(** Handles are the names of libraries; [RTLD_DEFAULT] is the program itself. *)
Definition RTLD_DEFAULT : string := "".
Definition PLUGIN : string := "./plugin.so".
Definition NONEXISTENT : string := "./nonexistent.so".

Record LoadedPlugin := Loaded { handle : option string; plugin : option positive; destroy : option symbol }.

Section program.
(** The error of opening a library, or its symbols; whether a call of the loader that
    succeeds keeps the error of an earlier one (POSIX) or forgets it (glibc); the message
    for a missing symbol; what [malloc] returns; addresses. *)
Context (library : string → string + (string → option fn)) (keeps_error : bool) (no_symbol : string → string → string).
Context (memory : gmap positive Plugin → option positive) (address : string → ptr) (address_of : symbol → ptr).

(** ** The loader *)

Definition set_pending (e : option string) : prog process unit := w ← read; write (Process (refs w) e (plugins w)).
Definition succeeded : prog process unit := if keeps_error then mret tt else set_pending None.

Definition dlerror : prog process (option string) := w ← read; _ ← set_pending None; mret (pending w).

Definition dlopen (path : string) : prog process (option string) :=
  match library path with
  | inl e => _ ← set_pending (Some e); mret None
  | inr _ =>
      w ← read;
      _ ← write (Process (<[path := S (default 0%nat (refs w !! path))]> (refs w)) (pending w) (plugins w));
      _ ← succeeded;
      mret (Some path)
  end.

Definition loaded (lib : string) : prog process unit :=
  w ← read; if bool_decide (lib = RTLD_DEFAULT) || bool_decide (is_Some (refs w !! lib)) then mret tt else undef.

Definition dlsym (h : string) (sym : string) : prog process (option symbol) :=
  _ ← loaded h;
  match library h with
  | inl _ => undef
  | inr symbols =>
      match symbols sym with
      | None => _ ← set_pending (Some (no_symbol h sym)); mret None
      | Some f => _ ← succeeded; mret (Some (h, f))
      end
  end.

Definition dlclose (h : string) : prog process unit :=
  w ← read;
  match refs w !! h with
  | Some (S n) => _ ← write (Process (match n with O => delete h (refs w) | _ => <[h := n]> (refs w) end) (pending w) (plugins w)); succeeded
  | _ => undef
  end.

(** [%s] with what [dlerror] returns; NULL is not a string. *)
Definition error_text : prog process string := e ← dlerror; match e with Some e => mret e | None => undef end.

(** ** [plugin.c] *)

Definition transform_fn (x : double) : double := d_sqrt (d_add (d_mul x x) (lit 10 1)).
Definition describe_fn : string := "f(x) = sqrt(x^2 + 1)".

Definition plugin_create (lib : string) : prog process (option positive) :=
  w ← read;
  match memory (plugins w) with
  | None => mret None
  | Some p =>
      _ ← write (Process (refs w) (pending w) (<[p := Plugin' (lib, "math_plugin v1.0") (lib, Transform) (lib, Describe)]> (plugins w)));
      mret (Some p)
  end.

Definition plugin_destroy (p : positive) : prog process unit :=
  w ← read;
  match plugins w !! p with
  | Some _ => write (Process (refs w) (pending w) (delete p (plugins w)))
  | None => undef
  end.

(** ** Calls through pointers *)

Definition call_create (f : option symbol) : prog process (option positive) :=
  match f with Some (lib, Create) => _ ← loaded lib; plugin_create lib | _ => undef end.
Definition call_destroy (f : option symbol) (p : positive) : prog process unit :=
  match f with Some (lib, Destroy) => _ ← loaded lib; plugin_destroy p | _ => undef end.

Definition member (p : positive) : prog process Plugin :=
  w ← read; match plugins w !! p with Some pl => mret pl | None => undef end.
Definition get_name (p : positive) : prog process string := pl ← member p; _ ← loaded (name pl).1; mret (name pl).2.
Definition call_transform (p : positive) (x : double) : prog process double :=
  pl ← member p;
  match transform pl with (lib, Transform) => _ ← loaded lib; mret (transform_fn x) | _ => undef end.
Definition call_describe (p : positive) : prog process string :=
  pl ← member p;
  match describe pl with (lib, Describe) => _ ← loaded lib; mret describe_fn | _ => undef end.

(** ** [dl_demo.c] *)

Definition dl_die {A} (ctx : string) : prog process A :=
  e ← error_text; _ ← complain "%s: %s\n" [AStr ctx; AStr e]; exit_with 1.

Definition section1_concepts : prog process unit :=
  putlines [
    "═══ 1. Dynamic Loading Concepts ════\n"; "  Static linking: code baked into the binary at link time.";
    "  Dynamic linking: .so resolved at program start (default for libc)."; "  dlopen:  .so loaded explicitly at runtime — the plugin model.\n";
    "  Key functions (link with -ldl):"; "    dlopen(path, flags)      — load a shared library";
    "    dlsym(handle, \qsymbol\q) — look up a symbol by name"; "    dlclose(handle)          — unload (reference-counted)";
    "    dlerror()                — last error string (clears after read)\n"; "  dlopen flags:";
    "    RTLD_LAZY   — resolve symbols when first called (faster startup)"; "    RTLD_NOW    — resolve all symbols immediately (catches missing ones)";
    "    RTLD_LOCAL  — symbols NOT visible to later dlopen calls (default)"; "    RTLD_GLOBAL — symbols visible to subsequently loaded libraries\n";
    "  Special handles for dlsym:"; "    RTLD_DEFAULT — search global symbol table (main + RTLD_GLOBAL libs)";
    "    RTLD_NEXT    — find next definition after current library (interposing)\n"]%string.

Definition section2_basic : prog process unit :=
  _ ← putline "═══ 2. Basic dlopen / dlsym / dlclose ════\n";
  _ ← dlerror;
  h ← dlopen PLUGIN;
  match h with
  | None => dl_die "dlopen"
  | Some handle =>
      _ ← print "  dlopen(\q./plugin.so\q): handle=%p\n" [APtr (address handle)];
      _ ← dlerror;
      raw ← dlsym handle "plugin_create";
      err ← dlerror;
      match err with
      | Some e => _ ← complain "dlsym: %s\n" [AStr e]; dlclose handle
      | None =>
          let create_fn := raw in
          raw2 ← dlsym handle "plugin_destroy";
          let destroy_fn := raw2 in
          p ← call_create create_fn;
          match p with
          | None => _ ← complain "plugin_create failed\n" []; dlclose handle
          | Some p =>
              n ← get_name p;
              _ ← print "  plugin name:   %s\n" [AStr n];
              d ← call_describe p;
              _ ← print "  describe():    %s\n" [AStr d];
              y ← call_transform p (lit 30 1);
              _ ← print "  transform(3):  %.6f\n\n" [ADbl y];
              _ ← call_destroy destroy_fn p;
              _ ← dlclose handle;
              putline "  dlclose: library unloaded (if reference count reached zero)\n"
          end
      end
  end.

Definition load_plugin (path : string) : prog process LoadedPlugin :=
  _ ← dlerror;
  h ← dlopen path;
  match h with
  | None => e ← error_text; _ ← complain "dlopen(%s): %s\n" [AStr path; AStr e]; mret (Loaded None None None)
  | Some h =>
      c ← dlsym h "plugin_create";
      d ← dlsym h "plugin_destroy";
      match c, d with
      | Some _, Some _ =>
          p ← call_create c;
          match p with
          | None => _ ← complain "plugin_create failed\n" []; _ ← dlclose h; mret (Loaded None None d)
          | Some _ => mret (Loaded (Some h) p d)
          end
      | _, _ => e ← error_text; _ ← complain "dlsym: %s\n" [AStr e]; _ ← dlclose h; mret (Loaded None None None)
      end
  end.

Definition inputs : list double := [lit 0 1; lit 10 1; lit 30 1; lit 50 1].

Definition dispatch (p : positive) (x : double) : prog process unit :=
  d ← call_describe p;
  y ← call_transform p x;
  print "  %s  x=%.1f → %.6f\n" [AStr d; ADbl x; ADbl y].

Definition section3_dispatch : prog process unit :=
  _ ← putline "═══ 3. Plugin Dispatch Pattern ════\n";
  lp ← load_plugin PLUGIN;
  match handle lp, plugin lp with
  | None, _ => mret tt
  | Some h, Some p =>
      n ← get_name p;
      _ ← print "  Loaded: %s\n" [AStr n];
      _ ← each inputs (dispatch p);
      _ ← call_destroy (destroy lp) p;
      _ ← dlclose h;
      putline "\n  Adding a new plugin = adding a new .so; no recompile of main needed.\n"
  | Some _, None => undef
  end.

Definition section4_rtld_now : prog process unit :=
  _ ← putline "═══ 4. RTLD_NOW vs RTLD_LAZY ════\n";
  _ ← putline "  RTLD_LAZY: undefined symbols tolerated at dlopen; crash at first call.";
  _ ← putline "  RTLD_NOW:  all symbols resolved at dlopen; error returned immediately.\n";
  _ ← dlerror;
  h ← dlopen NONEXISTENT;
  _ ← (match h with None => e ← error_text; print "  dlopen(\q./nonexistent.so\q): %s\n\n" [AStr e] | Some _ => mret tt end);
  h ← dlopen PLUGIN;
  _ ← (match h with Some h => _ ← putline "  dlopen(\q./plugin.so\q, RTLD_NOW): OK"; dlclose h | None => mret tt end);
  putlines ["\n  Rule: prefer RTLD_NOW in production; use RTLD_LAZY only when startup"; "  time matters and you know which code paths will be taken.\n"]%string.

Definition section5_rtld_default : prog process unit :=
  _ ← putline "═══ 5. RTLD_DEFAULT: Search the Global Symbol Table ════\n";
  _ ← dlerror;
  sym ← dlsym RTLD_DEFAULT "strlen";
  err ← dlerror;
  match err, sym with
  | Some _, _ => putline "  strlen not found"
  | None, Some (lib, Strlen) =>
      _ ← print "  strlen via dlsym: strlen(\qhello\q) = %zu\n" [AInt (strlen "hello")];
      _ ← print "  symbol address: %p\n\n" [APtr (address_of (lib, Strlen))];
      putlines ["  Use cases for RTLD_DEFAULT:"; "    - Runtime introspection / symbol existence checks";
                "    - Plugin calling back into the main program"; "    - Building extensible dispatch tables at startup\n"]%string
  | None, _ => undef
  end.

Definition section6_pitfalls : prog process unit :=
  putlines [
    "═══ 6. Pitfalls and Best Practices ════\n"; "  Casting function pointers from void*:";
    "    ISO C forbids direct cast of object pointer to function pointer."; "    Use memcpy(&fn_ptr, &void_ptr, sizeof fn_ptr) to be pedantic-clean.\n";
    "  dlerror() semantics:"; "    Always call dlerror() to clear state before dlsym/dlopen."; "    Check dlerror() IMMEDIATELY after; a second call returns NULL.\n";
    "  dlclose and global state:"; "    Unloading a plugin that registered global callbacks → crash."; "    Many programs never dlclose (leak the .so) to avoid this.\n";
    "  Symbol visibility:"; "    Build plugins with -fvisibility=hidden and export only the entry"; "    points (__attribute__((visibility(\qdefault\q)))).";
    "    Prevents symbol collisions between plugins.\n"; "  ABI stability:"; "    Plugin interface struct must remain layout-compatible across";
    "    plugin versions.  Add new fields only at the END; use a version"; "    field to negotiate capabilities.\n";
    "  Library search order for dlopen:"; "    1. DT_RUNPATH / DT_RPATH embedded in the binary"; "    2. LD_LIBRARY_PATH environment variable";
    "    3. /etc/ld.so.cache (populated by ldconfig)"; "    4. /lib, /usr/lib"; "    Use \q./\q prefix to load from the current directory.\n"]%string.

Definition main : prog process Z :=
  _ ← section1_concepts;
  _ ← section2_basic;
  _ ← section3_dispatch;
  _ ← section4_rtld_now;
  _ ← section5_rtld_default;
  _ ← section6_pitfalls;
  mret 0.

(** ** The loader *)

Implicit Types (R : gmap string nat) (P : gmap positive Plugin) (e : option string).

Definition kept_error e : option string := if keeps_error then e else None.

(** The counts when the library has been opened once more. *)
Definition opened (path : string) R : gmap string nat := <[path := S (default 0%nat (R !! path))]> R.
Definition counted R : Prop := ∀ path, R !! path ≠ Some 0%nat.

Lemma gives_succeeded R e P : gives succeeded (Process R e P) tt [] (Process R (kept_error e) P).
Proof. unfold succeeded, kept_error. by destruct keeps_error. Qed.

Lemma gives_dlerror R e P : gives dlerror (Process R e P) e [] (Process R None P).
Proof. done. Qed.

Lemma gives_error_text R err P : gives error_text (Process R (Some err) P) err [] (Process R None P).
Proof. done. Qed.

Lemma error_text_null R P : fails error_text (Process R None P).
Proof. done. Qed.

Lemma gives_dlopen path s R e P : library path = inr s →
  gives (dlopen path) (Process R e P) (Some path) [] (Process (opened path R) (kept_error e) P).
Proof.
  intros Hs. unfold dlopen. rewrite Hs. eapply gives_quiet; [done|]. eapply gives_quiet; [done|].
  eapply gives_quiet; [apply gives_succeeded|done].
Qed.

Lemma gives_dlopen_error path err R e P : library path = inl err → gives (dlopen path) (Process R e P) None [] (Process R (Some err) P).
Proof. intros Hs. unfold dlopen. by rewrite Hs. Qed.

(** A library that is open, and one more [dlclose]. *)
Lemma gives_loaded lib R e P : gives (loaded lib) (Process (opened lib R) e P) tt [] (Process (opened lib R) e P).
Proof.
  unfold loaded. eapply gives_quiet; [done|]. unfold opened. cbn [refs]. rewrite lookup_insert_eq.
  rewrite (bool_decide_eq_true_2 (is_Some _)); [|by eexists]. by rewrite orb_true_r.
Qed.

Lemma gives_dlsym lib s sym f R e P : library lib = inr s → s sym = Some f →
  gives (dlsym lib sym) (Process (opened lib R) e P) (Some (lib, f)) [] (Process (opened lib R) (kept_error e) P).
Proof.
  intros Hs Hf. eapply gives_quiet; [apply gives_loaded|]. rewrite Hs Hf. eapply gives_quiet; [apply gives_succeeded|done].
Qed.

Lemma gives_dlsym_missing lib s sym R e P : library lib = inr s → s sym = None →
  gives (dlsym lib sym) (Process (opened lib R) e P) None [] (Process (opened lib R) (Some (no_symbol lib sym)) P).
Proof. intros Hs Hf. eapply gives_quiet; [apply gives_loaded|]. by rewrite Hs Hf. Qed.

Lemma gives_dlclose lib R e P : counted R → gives (dlclose lib) (Process (opened lib R) e P) tt [] (Process R (kept_error e) P).
Proof.
  intros Hc. unfold dlclose, opened. eapply gives_quiet; [done|]. cbn [refs pending plugins]. rewrite lookup_insert_eq.
  eapply gives_quiet; [done|]. destruct (R !! lib) as [[|n]|] eqn:E; [by destruct (Hc lib)| |]; cbn [default from_option id].
  - rewrite insert_insert_eq insert_id //. apply gives_succeeded.
  - rewrite delete_insert_id //. apply gives_succeeded.
Qed.

(** ** The plugin *)

Context (memory_fresh : ∀ P p, memory P = Some p → P !! p = None).

Definition math_plugin : Plugin := Plugin' (PLUGIN, "math_plugin v1.0"%string) (PLUGIN, Transform) (PLUGIN, Describe).

Lemma gives_create R e P p : memory P = Some p →
  gives (call_create (Some (PLUGIN, Create))) (Process (opened PLUGIN R) e P) (Some p) [] (Process (opened PLUGIN R) e (<[p := math_plugin]> P)).
Proof.
  intros Hp. eapply gives_quiet; [apply gives_loaded|]. eapply gives_quiet; [done|]. cbn [plugins]. rewrite Hp. done.
Qed.

Lemma gives_create_fails R e P : memory P = None →
  gives (call_create (Some (PLUGIN, Create))) (Process (opened PLUGIN R) e P) None [] (Process (opened PLUGIN R) e P).
Proof.
  intros Hp. eapply gives_quiet; [apply gives_loaded|]. eapply gives_quiet; [done|]. cbn [plugins]. by rewrite Hp.
Qed.

Section loaded_plugin.
Context (R : gmap string nat) (e : option string) (P : gmap positive Plugin) (p : positive).
Let W : process := Process (opened PLUGIN R) e (<[p := math_plugin]> P).

Lemma gives_member : gives (member p) W math_plugin [] W.
Proof. eapply gives_quiet; [done|]. unfold W. cbn [plugins]. by rewrite lookup_insert_eq. Qed.

Lemma gives_name : gives (get_name p) W "math_plugin v1.0"%string [] W.
Proof. eapply gives_quiet; [apply gives_member|]. eapply gives_quiet; [apply gives_loaded|done]. Qed.

Lemma gives_describe : gives (call_describe p) W describe_fn [] W.
Proof. eapply gives_quiet; [apply gives_member|]. eapply gives_quiet; [apply gives_loaded|done]. Qed.

Lemma gives_transform x : gives (call_transform p x) W (transform_fn x) [] W.
Proof. eapply gives_quiet; [apply gives_member|]. eapply gives_quiet; [apply gives_loaded|done]. Qed.

Lemma gives_destroy : P !! p = None → gives (call_destroy (Some (PLUGIN, Destroy)) p) W tt [] (Process (opened PLUGIN R) e P).
Proof.
  intros Hp. eapply gives_quiet; [apply gives_loaded|]. eapply gives_quiet; [done|]. unfold W. cbn [plugins refs pending]. rewrite lookup_insert_eq.
  unfold gives, write. by rewrite delete_insert_id.
Qed.

Definition dispatched (x : double) : list ev := [Out (line "  %s  x=%.1f → %.6f\n" [AStr describe_fn; ADbl x; ADbl (transform_fn x)])].

Lemma gives_dispatch x : gives (dispatch p x) W tt (dispatched x) W.
Proof.
  eapply gives_quiet; [apply gives_describe|]. eapply gives_quiet; [apply gives_transform|]. prints_line.
Qed.
End loaded_plugin.

(** ** [load_plugin] *)

(** The entry points, where the library has them, are those of [plugin.c]. *)
Definition entry_points (s : string → option fn) : Prop :=
  (∀ f, s "plugin_create"%string = Some f → f = Create) ∧ (∀ f, s "plugin_destroy"%string = Some f → f = Destroy).

(** What a failed call leaves: nothing loaded, nothing allocated, one message. *)
Definition load_fails R P (m : prog process LoadedPlugin) e (msg : string) : Prop :=
  ∃ d e', gives m (Process R e P) (Loaded None None d) [Err msg] (Process R e' P).

Definition no_such (sym : string) : string := line "dlsym: %s\n" [AStr (no_symbol PLUGIN sym)].

Lemma load_plugin_spec R e P : counted R →
  match library PLUGIN with
  | inl err => load_fails R P (load_plugin PLUGIN) e (line "dlopen(%s): %s\n" [AStr PLUGIN; AStr err])
  | inr s =>
      entry_points s →
      match s "plugin_create"%string, s "plugin_destroy"%string with
      | _, None => load_fails R P (load_plugin PLUGIN) e (no_such "plugin_destroy")
      | None, Some _ =>
          if keeps_error then load_fails R P (load_plugin PLUGIN) e (no_such "plugin_create")
          else fails (load_plugin PLUGIN) (Process R e P)
      | Some _, Some _ =>
          match memory P with
          | None => load_fails R P (load_plugin PLUGIN) e (line "plugin_create failed\n" [])
          | Some p => ∃ e', gives (load_plugin PLUGIN) (Process R e P) (Loaded (Some PLUGIN) (Some p) (Some (PLUGIN, Destroy))) []
                              (Process (opened PLUGIN R) e' (<[p := math_plugin]> P))
          end
      end
  end.
Proof.
  intros Hc. destruct (library PLUGIN) as [err|s] eqn:Hl.
  { eexists _, _. unfold load_plugin. eapply gives_quiet; [apply gives_dlerror|]. eapply gives_quiet; [by apply gives_dlopen_error|].
    eapply gives_quiet; [apply gives_error_text|]. eapply gives_bind; [apply gives_complain; by eexists|apply gives_ret|done]. }
  intros [Hcr Hde].
  destruct (s "plugin_create"%string) as [f|] eqn:Ec; destruct (s "plugin_destroy"%string) as [g|] eqn:Ed.
  - rewrite (Hcr f) // in Ec. rewrite (Hde g) // in Ed. destruct (memory P) as [p|] eqn:Hm.
    + eexists. unfold load_plugin. eapply gives_quiet; [apply gives_dlerror|]. eapply gives_quiet; [by apply (gives_dlopen _ s)|].
      eapply gives_quiet; [by apply (gives_dlsym _ s)|]. eapply gives_quiet; [by apply (gives_dlsym _ s)|].
      eapply gives_quiet; [by apply gives_create|apply gives_ret].
    + eexists _, _. unfold load_plugin. eapply gives_quiet; [apply gives_dlerror|]. eapply gives_quiet; [by apply (gives_dlopen _ s)|].
      eapply gives_quiet; [by apply (gives_dlsym _ s)|]. eapply gives_quiet; [by apply (gives_dlsym _ s)|].
      eapply gives_quiet; [by apply gives_create_fails|]. prints.
      eapply gives_quiet; [by apply gives_dlclose|apply gives_ret].
  - eexists _, _. unfold load_plugin. eapply gives_quiet; [apply gives_dlerror|]. eapply gives_quiet; [by apply (gives_dlopen _ s)|].
    eapply gives_quiet; [by apply (gives_dlsym _ s)|]. eapply gives_quiet; [by apply (gives_dlsym_missing _ s)|].
    eapply gives_quiet; [apply gives_error_text|]. prints.
    eapply gives_quiet; [by apply gives_dlclose|apply gives_ret].
  - destruct keeps_error eqn:Hk.
    + eexists _, _. unfold load_plugin. eapply gives_quiet; [apply gives_dlerror|]. eapply gives_quiet; [by apply (gives_dlopen _ s)|].
      eapply gives_quiet; [by apply (gives_dlsym_missing _ s)|]. eapply gives_quiet; [by apply (gives_dlsym _ s)|]. unfold kept_error. rewrite Hk.
      eapply gives_quiet; [apply gives_error_text|]. prints.
      eapply gives_quiet; [by apply gives_dlclose|apply gives_ret].
    + unfold load_plugin. eapply fails_bind; [apply gives_dlerror|]. eapply fails_bind; [by apply (gives_dlopen _ s)|].
      eapply fails_bind; [by apply (gives_dlsym_missing _ s)|]. eapply fails_bind; [by apply (gives_dlsym _ s)|]. unfold kept_error. rewrite Hk.
      apply fails_first, error_text_null.
  - eexists _, _. unfold load_plugin. eapply gives_quiet; [apply gives_dlerror|]. eapply gives_quiet; [by apply (gives_dlopen _ s)|].
    eapply gives_quiet; [by apply (gives_dlsym_missing _ s)|]. eapply gives_quiet; [by apply (gives_dlsym_missing _ s)|].
    eapply gives_quiet; [apply gives_error_text|]. prints.
    eapply gives_quiet; [by apply gives_dlclose|apply gives_ret].
Qed.

(** ** Sections 2 and 3 *)

Definition putline_out (s : string) : ev := Out (esc s +:+ String nl "").

Definition basic_out : list ev :=
  [putline_out "═══ 2. Basic dlopen / dlsym / dlclose ════\n"; Out (line "  dlopen(\q./plugin.so\q): handle=%p\n" [APtr (address PLUGIN)]);
   Out (line "  plugin name:   math_plugin v1.0\n" []); Out (line "  describe():    f(x) = sqrt(x^2 + 1)\n" []);
   Out (line "  transform(3):  3.162278\n\n" []); putline_out "  dlclose: library unloaded (if reference count reached zero)\n"].

Definition dispatch_out : list ev :=
  [putline_out "═══ 3. Plugin Dispatch Pattern ════\n"; Out (line "  Loaded: math_plugin v1.0\n" []);
   Out (line "  f(x) = sqrt(x^2 + 1)  x=0.0 → 1.000000\n" []); Out (line "  f(x) = sqrt(x^2 + 1)  x=1.0 → 1.414214\n" []);
   Out (line "  f(x) = sqrt(x^2 + 1)  x=3.0 → 3.162278\n" []); Out (line "  f(x) = sqrt(x^2 + 1)  x=5.0 → 5.099020\n" []);
   putline_out "\n  Adding a new plugin = adding a new .so; no recompile of main needed.\n"].

Lemma dispatched_out : mbind dispatched inputs = take 4 (drop 2 dispatch_out).
Proof. vm_compute. reflexivity. Qed.

Section good_plugin.
Context (s : string → option fn) (has_plugin : library PLUGIN = inr s).
Context (has_create : s "plugin_create"%string = Some Create).

Lemma basic_gives R e P p : counted R → s "plugin_destroy"%string = Some Destroy → memory P = Some p →
  ∃ e', gives section2_basic (Process R e P) tt basic_out (Process R e' P).
Proof.
  intros Hc Hd Hm. eexists. unfold section2_basic, basic_out. prints.
  eapply gives_quiet; [apply gives_dlerror|]. eapply gives_quiet; [by apply (gives_dlopen _ s)|].
  prints.
  eapply gives_quiet; [apply gives_dlerror|]. eapply gives_quiet; [by apply (gives_dlsym _ s)|].
  eapply gives_quiet; [apply gives_dlerror|]. replace (kept_error None) with (@None string) by (by unfold kept_error; destruct keeps_error).
  eapply gives_quiet; [by apply (gives_dlsym _ s)|]. eapply gives_quiet; [by apply gives_create|].
  eapply gives_quiet; [apply gives_name|]. prints.
  eapply gives_quiet; [apply gives_describe|]. prints.
  eapply gives_quiet; [apply gives_transform|]. eapply gives_bind; [apply gives_print; by eexists| |vm_compute; reflexivity].
  eapply gives_quiet; [apply gives_destroy; by apply memory_fresh|]. eapply gives_quiet; [by apply gives_dlclose|]. apply gives_putline.
Qed.

(** The pointer to [plugin_destroy] is called without a test. *)
Lemma basic_no_destroy R e P p : counted R → s "plugin_destroy"%string = None → memory P = Some p → fails section2_basic (Process R e P).
Proof.
  intros Hc Hd Hm. unfold section2_basic. prints.
  eapply fails_bind; [apply gives_dlerror|]. eapply fails_bind; [by apply (gives_dlopen _ s)|].
  prints.
  eapply fails_bind; [apply gives_dlerror|]. eapply fails_bind; [by apply (gives_dlsym _ s)|].
  eapply fails_bind; [apply gives_dlerror|]. replace (kept_error None) with (@None string) by (by unfold kept_error; destruct keeps_error).
  eapply fails_bind; [by apply (gives_dlsym_missing _ s)|]. eapply fails_bind; [by apply gives_create|].
  eapply fails_bind; [apply gives_name|]. prints.
  eapply fails_bind; [apply gives_describe|]. prints.
  eapply fails_bind; [apply gives_transform|]. prints. by apply fails_first.
Qed.

Lemma dispatch_gives R e P p : counted R → s "plugin_destroy"%string = Some Destroy → memory P = Some p →
  ∃ e', gives section3_dispatch (Process R e P) tt dispatch_out (Process R e' P).
Proof.
  intros Hc Hd Hm. pose proof (load_plugin_spec R e P Hc) as Hl. rewrite has_plugin has_create Hd Hm in Hl.
  destruct Hl as [e' Hl]; [split; congruence|]. eexists. unfold section3_dispatch. prints.
  eapply gives_quiet; [exact Hl|]. cbn [handle plugin destroy]. eapply gives_quiet; [apply gives_name|].
  prints.
  eapply gives_bind; [apply (gives_each inputs _ dispatched); intros x _; apply gives_dispatch| |].
  { eapply gives_quiet; [apply gives_destroy; by apply memory_fresh|]. eapply gives_quiet; [by apply gives_dlclose|]. apply gives_putline. }
  by rewrite dispatched_out.
Qed.
End good_plugin.

(** ** Sections 1, 4, 5 and 6, and the program *)

Definition now_out (err : string) : list ev :=
  [putline_out "═══ 4. RTLD_NOW vs RTLD_LAZY ════\n"; putline_out "  RTLD_LAZY: undefined symbols tolerated at dlopen; crash at first call.";
   putline_out "  RTLD_NOW:  all symbols resolved at dlopen; error returned immediately.\n";
   Out (line "  dlopen(\q./nonexistent.so\q): %s\n\n" [AStr err]); putline_out "  dlopen(\q./plugin.so\q, RTLD_NOW): OK";
   putline_out "\n  Rule: prefer RTLD_NOW in production; use RTLD_LAZY only when startup"; putline_out "  time matters and you know which code paths will be taken.\n"].

Lemma now_gives err s R e P : library NONEXISTENT = inl err → library PLUGIN = inr s → counted R →
  ∃ e', gives section4_rtld_now (Process R e P) tt (now_out err) (Process R e' P).
Proof.
  intros Hn Hp Hc. eexists. unfold section4_rtld_now, now_out.
  do 3 prints.
  eapply gives_quiet; [apply gives_dlerror|]. eapply gives_quiet; [by apply gives_dlopen_error|]. cbv iota.
  eapply gives_bind; [eapply gives_quiet; [apply gives_error_text|apply gives_print; by eexists]| |reflexivity].
  eapply gives_quiet; [by apply (gives_dlopen _ s)|]. cbv iota.
  eapply gives_bind; [eapply gives_bind; [apply gives_putline|by apply gives_dlclose|reflexivity]|apply gives_putlines|reflexivity].
Qed.

Definition default_out : list ev :=
  [putline_out "═══ 5. RTLD_DEFAULT: Search the Global Symbol Table ════\n"; Out (line "  strlen via dlsym: strlen(\qhello\q) = 5\n" []);
   Out (line "  symbol address: %p\n\n" [APtr (address_of (RTLD_DEFAULT, Strlen))]); putline_out "  Use cases for RTLD_DEFAULT:";
   putline_out "    - Runtime introspection / symbol existence checks"; putline_out "    - Plugin calling back into the main program";
   putline_out "    - Building extensible dispatch tables at startup\n"].

Lemma gives_loaded_default w : gives (loaded RTLD_DEFAULT) w tt [] w.
Proof. eapply gives_quiet; [done|]. by rewrite bool_decide_eq_true_2. Qed.

Lemma default_gives g R e P : library RTLD_DEFAULT = inr g → g "strlen"%string = Some Strlen →
  gives section5_rtld_default (Process R e P) tt default_out (Process R None P).
Proof.
  intros Hg Hs. unfold section5_rtld_default, default_out. prints.
  eapply gives_quiet; [apply gives_dlerror|]. eapply gives_quiet.
  { eapply gives_quiet; [apply gives_loaded_default|]. rewrite Hg Hs. eapply gives_quiet; [apply gives_succeeded|apply gives_ret]. }
  eapply gives_quiet; [apply gives_dlerror|]. replace (kept_error None) with (@None string) by (by unfold kept_error; destruct keeps_error).
  prints. eapply gives_bind; [apply gives_print; by eexists|apply gives_putlines|reflexivity].
Qed.

Lemma default_missing g R e P : library RTLD_DEFAULT = inr g → g "strlen"%string = None →
  gives section5_rtld_default (Process R e P) tt (take 1 default_out ++ [putline_out "  strlen not found"]) (Process R None P).
Proof.
  intros Hg Hs. unfold section5_rtld_default. prints.
  eapply gives_quiet; [apply gives_dlerror|]. eapply gives_quiet.
  { eapply gives_quiet; [apply gives_loaded_default|]. by rewrite Hg Hs. }
  eapply gives_quiet; [apply gives_dlerror|]. apply gives_putline.
Qed.

(** The sections that only print. *)
Definition concepts_out : list ev := match section1_concepts (Process ∅ None ∅) with Returns _ o _ => o | _ => [] end.
Definition pitfalls_out : list ev := match section6_pitfalls (Process ∅ None ∅) with Returns _ o _ => o | _ => [] end.

Lemma dl_concepts_gives w : gives section1_concepts w tt concepts_out w.
Proof. unfold concepts_out. pose proof (gives_putlines (W:=process)) as H. unfold gives in H. unfold gives, section1_concepts. by rewrite !H. Qed.
Lemma dl_pitfalls_gives w : gives section6_pitfalls w tt pitfalls_out w.
Proof. unfold pitfalls_out. pose proof (gives_putlines (W:=process)) as H. unfold gives in H. unfold gives, section6_pitfalls. by rewrite !H. Qed.

Definition main_out (err : string) : list ev := concepts_out ++ basic_out ++ dispatch_out ++ now_out err ++ default_out ++ pitfalls_out.

Lemma dl_main_gives s g err R e P : library PLUGIN = inr s → s "plugin_create"%string = Some Create → s "plugin_destroy"%string = Some Destroy →
  library NONEXISTENT = inl err → library RTLD_DEFAULT = inr g → g "strlen"%string = Some Strlen → is_Some (memory P) → counted R →
  gives main (Process R e P) 0 (main_out err) (Process R None P).
Proof.
  intros Hp Hcr Hde Hn Hg Hs [p Hm] Hc. unfold main, main_out.
  destruct (basic_gives s Hp Hcr R e P p Hc Hde Hm) as [e1 H1]. destruct (dispatch_gives s Hp Hcr R e1 P p Hc Hde Hm) as [e2 H2].
  destruct (now_gives err s R e2 P Hn Hp Hc) as [e3 H3].
  eapply gives_bind; [apply dl_concepts_gives| |reflexivity]. eapply gives_bind; [exact H1| |reflexivity].
  eapply gives_bind; [exact H2| |reflexivity]. eapply gives_bind; [exact H3| |reflexivity].
  eapply gives_bind; [by eapply default_gives| |reflexivity]. eapply gives_bind; [apply dl_pitfalls_gives|apply gives_ret|by rewrite app_nil_r].
Qed.

(** Without the library the program ends in section 2. *)
Lemma main_quits err R e P : library PLUGIN = inl err →
  quits main (Process R e P) 1
    (concepts_out ++ [putline_out "═══ 2. Basic dlopen / dlsym / dlclose ════\n"; Err (line "%s: %s\n" [AStr "dlopen"; AStr err])]) (Process R None P).
Proof.
  intros Hp. unfold main. eapply quits_bind; [apply dl_concepts_gives| |reflexivity]. apply quits_first.
  unfold section2_basic. prints.
  eapply quits_bind; [apply gives_dlerror| |reflexivity]. eapply quits_bind; [by apply gives_dlopen_error| |reflexivity].
  eapply quits_bind; [apply gives_error_text| |reflexivity]. prints. done.
Qed.
End program.

(** ** The properties *)

(** C39. [load_plugin] in every environment: it reports why a library cannot be opened, has
    no entry point or has no memory for its plugin, and then leaves no library loaded and
    nothing allocated and its result says so with a NULL handle; otherwise the library is
    open once more and the plugin lives.  There is one exception: if [plugin_create] is
    missing and [plugin_destroy] is not, the success of the second [dlsym] can clear the
    error of the first (as in glibc), and NULL is printed with %s. *)
Theorem load_plugin_correct library keeps_error no_symbol memory R P e : counted R →
  let fails_with := load_fails R P (load_plugin library keeps_error no_symbol memory PLUGIN) e in
  match library PLUGIN with
  | inl err => fails_with (line "dlopen(%s): %s\n" [AStr PLUGIN; AStr err])
  | inr s =>
      entry_points s →
      match s "plugin_create"%string, s "plugin_destroy"%string with
      | _, None => fails_with (no_such no_symbol "plugin_destroy")
      | None, Some _ =>
          if keeps_error then fails_with (no_such no_symbol "plugin_create")
          else fails (load_plugin library keeps_error no_symbol memory PLUGIN) (Process R e P)
      | Some _, Some _ =>
          match memory P with
          | None => fails_with (line "plugin_create failed\n" [])
          | Some p => ∃ e', gives (load_plugin library keeps_error no_symbol memory PLUGIN) (Process R e P)
                              (Loaded (Some PLUGIN) (Some p) (Some (PLUGIN, Destroy))) [] (Process (opened PLUGIN R) e' (<[p := math_plugin]> P))
          end
      end
  end.
Proof. intros Hc. by apply load_plugin_spec. Qed.

(** An environment with [plugin.so] as it is built, and the C library. *)
Definition an_environment (path : string) : string + (string → option fn) :=
  if String.eqb path PLUGIN then
    inr (λ s, if String.eqb s "plugin_create" then Some Create else if String.eqb s "plugin_destroy" then Some Destroy else None)
  else if String.eqb path RTLD_DEFAULT then inr (λ s, if String.eqb s "strlen" then Some Strlen else None)
  else inl "cannot open shared object file"%string.

Lemma counted_empty : counted ∅.
Proof. intros path. by rewrite lookup_empty. Qed.

Lemma load_plugin_correct_witness :
  let m := load_plugin an_environment false (λ _ s, s) (λ m, Some (fresh_loc m)) PLUGIN in
  ∃ e' p, gives m (Process ∅ None ∅) (Loaded (Some PLUGIN) (Some p) (Some (PLUGIN, Destroy))) [] (Process (opened PLUGIN ∅) e' (<[p := math_plugin]> ∅)).
Proof.
  intros m. pose proof (load_plugin_correct an_environment false (λ _ s, s) (λ m, Some (fresh_loc m)) ∅ ∅ None counted_empty) as H.
  destruct H as [e' H]; [split; intros f; vm_compute; congruence|]. by eexists e', _.
Defined.

(** C40. The whole program, for every environment in which the library has its entry
    points, whatever was loaded before: it prints the lines shown with the values of the
    plugin's function and the error of the library that does not exist, calls no function
    of a library that is not loaded, and ends with every library at its count of before,
    every plugin destroyed and no error pending.  If the library cannot be opened the
    program says so and exits with 1; a library without [plugin_destroy] makes section 2
    call a null pointer. *)
Theorem dl_main_correct library keeps_error no_symbol memory address address_of :
  (∀ P p, memory P = Some p → P !! p = None) →
  let run := main library keeps_error no_symbol memory address address_of in
  (∀ s g err R e P, library PLUGIN = inr s → s "plugin_create"%string = Some Create → s "plugin_destroy"%string = Some Destroy →
     library NONEXISTENT = inl err → library RTLD_DEFAULT = inr g → g "strlen"%string = Some Strlen → is_Some (memory P) → counted R →
     gives run (Process R e P) 0 (main_out address address_of err) (Process R None P)) ∧
  (∀ err R e P, library PLUGIN = inl err →
     quits run (Process R e P) 1
       (concepts_out ++ [putline_out "═══ 2. Basic dlopen / dlsym / dlclose ════\n"; Err (line "%s: %s\n" [AStr "dlopen"; AStr err])]) (Process R None P)) ∧
  (∀ s R e P, library PLUGIN = inr s → s "plugin_create"%string = Some Create → s "plugin_destroy"%string = None → is_Some (memory P) → counted R →
     fails (section2_basic library keeps_error no_symbol memory address) (Process R e P)).
Proof.
  intros Hf run. split_and!.
  - intros s g err R e P. by apply dl_main_gives.
  - intros err R e P. apply main_quits.
  - intros s R e P Hp Hcr Hde [p Hm] Hc. by eapply basic_no_destroy.
Qed.

Lemma dl_main_correct_witness :
  gives (main an_environment false (λ _ s, s) (λ m, Some (fresh_loc m)) (λ _, Some 1%positive) (λ _, Some 2%positive)) (Process ∅ None ∅) 0
    (main_out (λ _, Some 1%positive) (λ _, Some 2%positive) "cannot open shared object file") (Process ∅ None ∅).
Proof.
  destruct (dl_main_correct an_environment false (λ _ s, s) (λ m, Some (fresh_loc m)) (λ _, Some 1%positive) (λ _, Some 2%positive)) as [H _].
  - intros P p [= <-]. apply fresh_loc_fresh.
  - eapply H; [reflexivity..|by eexists|apply counted_empty].
Defined.
